(* ===== verification/_CoqProject ===== *)
-Q . S2P
Prelude.v
Types.v
Config.v
Json.v
Envelope.v
Disk.v
Wal.v
ProtoWire.v
WalSpec.v
JsonFacts.v
SnapshotStore.v
Node.v
Roles.v
Election.v
Apply.v
Replication.v
Client.v
Startup.v
NodeFacts.v
ReplicationFacts.v
StateMachine.v
EnvelopeFacts.v
ApplyFacts.v
Scenarios.v
ApplySpec.v
RunLoop.v
RunFacts.v
RunSpec.v
ElectionFacts.v
ReplicationSpec.v
Cluster.v
Schedule.v
ElectionSafety.v
JsonArray.v
GoFloat.v
GoStrings.v
Http.v
Api.v
ApiSpec.v
Gateway.v
GatewaySpec.v
Service.v
SoloServer.v
EndToEnd.v
Metrics.v
MetricsSpec.v
GrpcServer.v
Transport.v
TransportSpec.v
Commands.v
CommandsSpec.v
TransferSpec.v
RaftProtocol.v
Agreement.v
Answers.v
FullLog.v
LogSteps.v
Simulation.v
SimSteps.v
SimAccept.v
SimRun.v
StateMachineSafety.v
SnapshotGap.v
ClientWrites.v
Reads.v
CrashGap.v
Durable.v
Recovery.v
Bench.v
BenchSpec.v
