(* ===== verification/Prelude.v ===== *)
(** * Verification of the distributed key-value store with Raft consensus

    A cluster of Go processes replicates a key-value store with Raft
    ([raft/]), keeps its log and snapshots in files ([storage/]), talks over
    gRPC with mutual TLS ([transport/], [proto/]) and serves clients over HTTP
    ([api/]); a gateway ([gateway/]) finds the leader and forwards requests to
    it.  This development models those packages, the two commands ([cmd/])
    and the load generator ([bench/]); paths below are relative to the source directory.

    ** How the program is modelled

    Every exported function and handler is a definition of the same name.  The
    methods of [Raft] run under [r.mu], so each is a function from the state
    of the node to the state after ([Node.Raft], a record with the fields of
    the struct that matter); what it does besides (an answer on a channel, a
    goroutine, a call to a peer) is appended to the field [effects].  A
    goroutine takes the lock again later, so it is a step of its own, and a
    method that releases the lock in between is cut there.  A file operation
    is a function on a [Disk] whose calls can fail.  A handler of the HTTP
    layers is a tree of calls to the rest of the program ([Http.prog]),
    because the node goes on between two calls.  An [int64] is a [Z] and the
    sums that can overflow wrap ([+!], [-!]); a byte slice is a list of
    bytes; a Go map is a [gmap]; an error is an [Err].

    ** The files

    - Data.  [Types]: the messages and entries of [proto/raft.pb.go] and the
      types of [raft/raft.go].  [Config]: [raft/config.go], configurations,
      joint consensus, quorums, with their theorems.  [Json], [JsonArray]:
      what the program uses of [encoding/json]; [JsonFacts]: its round trips.
      [Envelope], [EnvelopeFacts]: the payload of a log entry ([raft/config.go],
      [type Command]) and its round trips.
    - Storage.  [Disk]: the calls of package [os].  [Wal], [WalSpec]:
      [storage/wal.go] and what it promises.  [SnapshotStore]:
      [storage/snapshot.go].  [ProtoWire]: a codec of the wire format of
      protobuf, used by the witnesses only.
    - The node, [raft/raft.go].  [Node]: the state, access to the log, peers,
      calls.  [Roles]: the transitions between roles and what a candidate and
      a leader send.  [Election]: pre-votes and votes.  [Apply]: applying
      entries, compaction, the second phase of a membership change.
      [Replication]: AppendEntries, commitment, InstallSnapshot.  [Client]:
      proposals, reads through a quorum, membership changes, status.
      [Startup]: [NewRaft], [Start], [Stop].  [RunLoop]: one turn of [run].
      [GrpcServer]: the methods that hand a request to the run loop and wait.
    - Lemmas on the node.  [NodeFacts], [ReplicationFacts], [ApplyFacts],
      [RunFacts], [ElectionFacts]: what each method changes, by method.
    - Specifications of the node.  [StateMachine]: the replicated machine, a
      pure function of commands.  [ApplySpec]: the node refines it.
      [ReplicationSpec]: both sides of AppendEntries.  [RunSpec]: facts about
      all runs of one node.
    - The cluster.  [Cluster]: the nodes and a network that loses, repeats,
      delays and reorders every call and answer.  [Schedule]: runs that can be
      computed.  [ElectionSafety]: one leader per term.  [TransferSpec]: the
      transfer of a snapshot.  [Scenarios]: concrete nodes for the witnesses.
    - The protocol.  [RaftProtocol]: Raft as an abstract machine of terms,
      votes, whole logs and acknowledgements, and its invariant; [Agreement]:
      what its nodes agree on.  [Answers]: who is answered with a success.
      [FullLog]: the whole log behind a node that has compacted a part of it.
      [LogSteps]: what each handler does to it.  [Simulation], [SimSteps],
      [SimAccept], [SimRun]: every step of the cluster is a run of the machine.
      [StateMachineSafety], [ClientWrites], [Reads]: what follows for the
      nodes and for the clients that write and read.  [SnapshotGap]: a run
      with a snapshot for which it fails.
    - Crashes.  [CrashGap]: the restart of a node in a run, and two runs that
      lose a write by it.  [Durable]: what each handler writes to the log
      file.  [Recovery]: what [NewRaft] finds on the disk of a node.
    - The HTTP layers.  [GoStrings], [GoFloat], [Http]: what is used of
      [strings], [strconv], [net/url], [net/http] and of [float64].  [Api],
      [ApiSpec]: [api/api.go].  [Gateway], [GatewaySpec]:
      [gateway/gateway.go].  [Service]: the API run on a node.  [SoloServer]:
      API, node, log and state machine of a cluster of one.  [EndToEnd]: from
      the gateway to the state machine.  [Metrics], [MetricsSpec]:
      [raft/metrics.go].
    - The processes.  [Transport], [TransportSpec]: [transport/grpc.go].
      [Commands], [CommandsSpec]: [cmd/node/main.go], [cmd/gateway/main.go].
      [Bench], [BenchSpec]: [bench/main.go], and two runs of it on the API and
      the state machine.

    ** The interfaces

    What the program takes from packages outside the repository is a class,
    and a theorem that relies on it takes its laws: [Wal.ProtoCodec] and
    [ProtoCodecLaws] (protobuf: decoding inverts encoding), [Node.Dialer]
    (the TLS credentials of a connection, which [Commands.node_dialer] takes
    from [Transport]), [Transport.Crypto] (keys, certificates, PEM),
    [Metrics.FloatText] ([strconv.FormatFloat]), [Http.Calls] (the calls of a
    handler, with an instance for the node and one for the gateway).

    ** What the theorems show

    - Agreement.  In every run of a cluster with a fixed membership of odd
      size no two nodes lead one term ([election_safety]).  In the runs that
      also send no snapshot, all nodes replay one sequence of entries, which
      only grows ([state_machine_safety]); a committed entry is in the log of
      every later leader ([leader_completeness]); logs match
      ([log_matching]); and a write that was answered as a success stays in
      the sequence ([acknowledged_write_kept]).  With a snapshot it can be
      lost ([snapshot_loses_write]): a follower keeps the stale end of its log
      behind the snapshot and acknowledges it.  A safe read on a leader that
      has committed an entry of its term misses nothing that was committed
      when it began ([fresh_read]); on a leader that has not it can
      ([stale_read]), and [Get] does not look.
    - Crashes.  The disk of a node that has not compacted holds its whole log
      and all its votes ([restart_keeps]), but not a term the node has only
      heard of, and a node that restarts can lose a write by it
      ([restart_forgets_term]); a compaction drops the entries after the
      commit index, with the same result ([restart_forgets_entries]).
    - Quorums and AppendEntries.  Majorities meet, also across a membership
      change ([quorum_intersection], [joint_majority_overlaps],
      [membership_change]); with an even number of nodes they need not
      ([even_configuration_splits]), because [HasMajority] counts the node
      twice.  A follower that accepts an AppendEntries holds the merge of its
      log with the leader's, keeps what is committed, and refuses the others
      ([append_entries_merges], [append_entries_keeps],
      [append_entries_refused]); a leader commits an entry of its own term
      that a majority holds, and only such ([commit_advances]).
    - The state machine.  [applyLogs] runs each committed entry once, in order
      ([applyLogs_refines]); a repeated request takes effect once
      ([retries_apply_once]), one that arrives late is lost
      ([late_request_lost]); a proposal is applied as it was made
      ([proposed_command_applied]).  A cluster of one serves HTTP as an atomic
      store ([solo_server_refines]).
    - Runs of one node.  Each request is answered exactly once
      ([requests_answered_once]); the election timer of a node that does not
      lead is running ([election_timer_runs]).  The log and the indices of a
      node of the cluster are well formed ([nodes_well_formed]).
    - Storage.  What is appended is replayed ([append_then_replay]), a crash
      inside an append loses that record only ([torn_append]) except for a
      torn header ([torn_header_then_append]), replay ends on every file
      ([replay_total]), a snapshot is replaced at once or not at all
      ([SaveSnapshot_atomic]) and read back ([snapshot_save_load]); sent to a
      follower it is installed there ([snapshot_transferred]).
    - HTTP.  Which requests reach the node and what they are answered
      ([requests_allowed], [requests_answered], [put_stores], [burst_limit]);
      what the gateway forwards, to whom and as whom ([forwarded_requests],
      [gateway_write_proposed], [gateway_state], [poll_finds_leader],
      [status_roundtrip], [restarted_gateway_loses]).
    - Processes and metrics.  [first_start], [peers_parsed],
      [certificates_added], [credentials_match], [labels_roundtrip],
      [histogram_text_totals], and the counts of a histogram
      ([histogram_counts]).
    - The load generator.  Its report is printed, with percentiles in order
      ([bench_reports]): a product of floating point numbers is off by a unit
      in its last place at most ([round_product]).  A second run writes
      nothing ([second_run_writes_nothing]).

    The agreement theorems are proved by refinement.  The abstract log of a
    node is its whole log, what it has compacted included; an abstract vote is
    the first vote of a node in a term with the log it had; every call and
    answer on the network stands for a fact about the machine that stays true
    ([Simulation.packet_rel]).  [SimRun.sim_step] maps each step of
    [Cluster.net_step] to steps of the machine ([RaftProtocol.proto_step]).

    A theorem whose hypotheses have to be shown possible is followed by a
    [_witness] that applies it to concrete data.

    ** Fuel

    A loop whose recursion is not structural takes fuel.  [replay_loop] gets
    one more than the bytes of the file and consumes at least four a turn
    ([replay_total]); [apply_loop] the distance between the two indices, which
    shrinks by one a turn; [send_chunks] one more than the bytes of the
    snapshot, of which a turn sends one at least ([snapshot_loop_total]);
    the JSON scanner, [split_runes], [after_all] and [skip_blanks] the length
    of their text, of which each turn consumes a byte.

    ** Not modelled

    - Log lines and printed texts; the code protoc generates beyond its
      message types; the frontend and deployment files; the tests.
    - The command line parser of package [flag], signals, the order of a
      shutdown; listening sockets; static files.
    - A panic of the runtime: the model has no nil dereference to perform (an
      [option] is matched), and handlers run to their end.
    - The nesting limit of [encoding/json]; the time zone of a formatted time.
    - Restarts in the runs of the agreement theorems: with them the theorems
      do not hold ([CrashGap]).
    - The agreement theorems keep the membership fixed; a change of
      membership is covered by the theorems on its quorums.  Those after
      [election_safety] also leave out snapshots that are sent to a follower
      ([Simulation.calm]), for the reason [SnapshotGap] gives; nodes compact
      their own logs in all runs. *)

From stdpp Require Export base tactics strings list gmap fin_maps.
From Stdlib Require Export Strings.Byte.
From stdpp Require Import options.

(** ** Go machine integers

    [int64] and [int] (64 bits on the supported platforms) are integers in
    [[-2^63, 2^63)]; every addition and subtraction of the source wraps. *)

Declare Scope go_scope.
Delimit Scope go_scope with go.
Open Scope Z_scope.
Open Scope go_scope.

Definition max_int64 : Z := 2 ^ 63 - 1.
Definition wrap64 (z : Z) : Z := (z + 2 ^ 63) mod 2 ^ 64 - 2 ^ 63.
Definition int64_add (a b : Z) : Z := wrap64 (a + b).
Definition int64_sub (a b : Z) : Z := wrap64 (a - b).
Infix "+!" := int64_add (at level 50, left associativity) : go_scope.
Infix "-!" := int64_sub (at level 50, left associativity) : go_scope.

(** The values an [int64] variable can hold. *)
Definition is_int64 (z : Z) : Prop := - 2 ^ 63 ≤ z < 2 ^ 63.

Lemma wrap64_small z : is_int64 z → wrap64 z = z.
Proof. unfold is_int64, wrap64. intros. rewrite Z.mod_small; lia. Qed.

Lemma wrap64_int64 z : is_int64 (wrap64 z).
Proof.
  unfold is_int64, wrap64.
  pose proof (Z.mod_pos_bound (z + 2 ^ 63) (2 ^ 64) ltac:(lia)). lia.
Qed.

Lemma int64_add_small a b : is_int64 (a + b) → a +! b = a + b.
Proof. apply wrap64_small. Qed.

Lemma int64_sub_small a b : is_int64 (a - b) → a -! b = a - b.
Proof. apply wrap64_small. Qed.

(** [int64_simpl] removes the wrap of every sum whose bounds [lia] can show. *)
Ltac int64_simpl :=
  repeat match goal with
  | |- context [?a +! ?b] =>
      rewrite (int64_add_small a b) by (unfold is_int64, max_int64 in *; lia)
  | |- context [?a -! ?b] =>
      rewrite (int64_sub_small a b) by (unfold is_int64, max_int64 in *; lia)
  | H : context [?a +! ?b] |- _ =>
      rewrite (int64_add_small a b) in H by (unfold is_int64, max_int64 in *; lia)
  | H : context [?a -! ?b] |- _ =>
      rewrite (int64_sub_small a b) in H by (unfold is_int64, max_int64 in *; lia)
  end.

(** ** Bytes *)

Abbreviation bytes := (list byte).

#[export] Instance byte_eq_dec : EqDecision byte := Byte.byte_eq_dec.

#[export] Instance byte_countable : Countable byte.
Proof.
  refine (inj_countable' (λ b, Byte.to_N b)
            (λ n, default Byte.x00 (Byte.of_N n)) _).
  intros b. by rewrite Byte.of_to_N.
Defined.

Definition byte_to_Z (b : byte) : Z := Z.of_N (Byte.to_N b).
Definition Z_to_byte (z : Z) : byte :=
  default Byte.x00 (Byte.of_N (Z.to_N (z mod 256))).

Lemma byte_to_Z_bound b : 0 ≤ byte_to_Z b < 256.
Proof. unfold byte_to_Z. pose proof (Byte.to_N_bounded b). lia. Qed.

Lemma byte_to_Z_to_byte z : byte_to_Z (Z_to_byte z) = z mod 256.
Proof.
  unfold byte_to_Z, Z_to_byte.
  pose proof (Z.mod_pos_bound z 256 ltac:(lia)) as Hb.
  pose proof (Byte.to_of_N_option_map (Z.to_N (z mod 256))) as Hm.
  destruct (N.leb_spec (Z.to_N (z mod 256)) 255) as [_|]; [|lia].
  destruct (Byte.of_N (Z.to_N (z mod 256))) as [b|]; simpl in *; [|done].
  assert (Byte.to_N b = Z.to_N (z mod 256)) as -> by congruence. lia.
Qed.

Lemma Z_to_byte_to_Z b : Z_to_byte (byte_to_Z b) = b.
Proof.
  unfold Z_to_byte. rewrite Z.mod_small by apply byte_to_Z_bound.
  unfold byte_to_Z. by rewrite N2Z.id, Byte.of_to_N.
Qed.

(** [binary.BigEndian.PutUint32] and [binary.BigEndian.Uint32]. *)
Definition put_uint32 (v : Z) : bytes :=
  [Z_to_byte (v / 2 ^ 24); Z_to_byte (v / 2 ^ 16); Z_to_byte (v / 2 ^ 8);
   Z_to_byte v].

Definition get_uint32 (bs : bytes) : Z :=
  match bs with
  | [b0; b1; b2; b3] =>
      byte_to_Z b0 * 2 ^ 24 + byte_to_Z b1 * 2 ^ 16 + byte_to_Z b2 * 2 ^ 8
      + byte_to_Z b3
  | _ => 0
  end.

Lemma get_put_uint32 v : 0 ≤ v < 2 ^ 32 → get_uint32 (put_uint32 v) = v.
Proof.
  intros Hv. unfold get_uint32, put_uint32. rewrite !byte_to_Z_to_byte.
  Z.to_euclidean_division_equations. lia.
Qed.

Lemma length_put_uint32 v : length (put_uint32 v) = 4%nat.
Proof. done. Qed.

(** ** Record update

    [r <| f := v |>] is the Go assignment [r.f = v].  An [Eta] instance lists
    the fields of a record once; the setter of a field is read off it. *)

Class Eta (R : Type) := eta : R → R.
Class Setter {R T : Type} (proj : R → T) := upd : (T → T) → R → R.

Ltac solve_setter proj :=
  let P := type of proj in
  lazymatch P with
  | ?R → ?T =>
      let e := constr:(@eta R _) in
      let e := eval unfold eta in e in
      let i := lazymatch e with ?i => i end in
      let b := eval unfold i in e in
      let p := eval pattern proj in b in
      lazymatch p with
      | ?F _ => let s := eval cbv beta in
                  (λ (f : T → T) (r : R), F (λ x, f (proj x)) r) in exact s
      end
  end.
#[export] Hint Extern 1 (Setter ?proj) => solve_setter proj : typeclass_instances.

Notation "r <| f := v |>" := (upd (proj := f) (λ _, v) r)
  (at level 1, f at level 1, v at level 200, left associativity,
   format "r <| f  :=  v |>") : go_scope.
Notation "r <| f ::= g |>" := (upd (proj := f) g r)
  (at level 1, f at level 1, g at level 200, left associativity,
   format "r <| f  ::=  g |>") : go_scope.

(** [rsimpl] reads a field of an updated record: the update is either the
    field's own, and its value is the result, or another one, and is skipped. *)
Ltac is_field R g :=
  let e := constr:(@eta R _) in
  let e := eval unfold eta in e in
  let i := lazymatch e with ?i => i end in
  let b := eval unfold i in e in
  lazymatch b with context [g] => idtac end.
Ltac upd_fact R T p i g k :=
  let E := fresh "E" in
  first
  [ constr_eq g p;
    assert (E : ∀ (f : T → T) (r : R), g (@upd R T p i f r) = f (g r))
      by (intros; reflexivity)
  | assert (E : ∀ (f : T → T) (r : R), g (@upd R T p i f r) = g r)
      by (intros; reflexivity) ];
  k E; clear E.
Ltac rsimpl_goal :=
  repeat match goal with
  | |- context [?g (@upd ?R ?T ?p ?i ?f ?r)] =>
      is_field R g;
      upd_fact R T p i g ltac:(fun E => progress (rewrite ?E)); cbv beta
  end.
Ltac rsimpl_hyps :=
  repeat match goal with
  | H : context [?g (@upd ?R ?T ?p ?i ?f ?r)] |- _ =>
      is_field R g;
      upd_fact R T p i g ltac:(fun E => progress (rewrite ?E in H)); cbv beta in H
  end.
Ltac rsimpl := rsimpl_hyps; rsimpl_goal.

(** ** Results: the Go pair [(T, error)] *)

Inductive result (A : Type) : Type :=
| Ok (a : A)
| Err (msg : string).
Arguments Ok {A} a.
Arguments Err {A} msg.

#[export] Instance result_ret : MRet result := λ A a, Ok a.
#[export] Instance result_bind : MBind result := λ A B f m,
  match m with Ok a => f a | Err e => Err e end.
#[export] Instance result_eq_dec {A} `{EqDecision A} : EqDecision (result A).
Proof. solve_decision. Defined.

(** ** Lists *)

Lemma filter_Forall_id {A} (P : A → Prop) `{∀ x, Decision (P x)} (l : list A) :
  Forall P l → filter P l = l.
Proof. induction 1; [done|]. rewrite filter_cons_True by done. by f_equal. Qed.

Lemma filter_Forall_nil {A} (P : A → Prop) `{∀ x, Decision (P x)} (l : list A) :
  Forall (λ x, ¬ P x) l → filter P l = [].
Proof. induction 1; [done|]. by rewrite filter_cons_False. Qed.

(** ** Maps read as Go maps: a missing key gives the zero value *)

Definition lookup_int (m : gmap string Z) (k : string) : Z := default 0 (m !! k).
Definition lookup_bool (m : gmap string bool) (k : string) : bool :=
  default false (m !! k).
Definition lookup_str (m : gmap string string) (k : string) : string :=
  default EmptyString (m !! k).

(** ** Hint databases

    [raft] holds the frame lemmas of the node's operations, [go_arith] the
    bounds of the integers. *)
Create HintDb raft.
Create HintDb go_arith.
#[export] Hint Resolve wrap64_int64 : go_arith.
