(* ===== verification/Types.v ===== *)
(** * Data of the node: protocol messages, log entries, commands

    The messages of [proto/raft.proto] (their Go structs are in
    [proto/raft.pb.go]), the consensus roles and the requests that travel
    through the channels of [raft/raft.go].  The bookkeeping fields protobuf
    adds to each struct ([state], [sizeCache], [unknownFields]) are dropped. *)

From S2P Require Import Prelude.

(** [type LogEntry struct] *)
Record LogEntry := mkLogEntry {
  Index : Z;
  Term : Z;
  Cmd : bytes (* the field [Command] *)
}.

(** [type RequestVoteRequest struct] *)
Record RequestVoteRequest := mkRequestVoteRequest {
  rv_Term : Z;
  CandidateId : string;
  LastLogIndex : Z;
  LastLogTerm : Z
}.

(** [type RequestVoteResponse struct] *)
Record RequestVoteResponse := mkRequestVoteResponse {
  rvr_Term : Z;
  VoteGranted : bool
}.

(** [type AppendEntriesRequest struct] *)
Record AppendEntriesRequest := mkAppendEntriesRequest {
  ae_Term : Z;
  ae_LeaderId : string;
  PrevLogIndex : Z;
  PrevLogTerm : Z;
  Entries : list LogEntry;
  LeaderCommit : Z
}.

(** [type AppendEntriesResponse struct] *)
Record AppendEntriesResponse := mkAppendEntriesResponse {
  aer_Term : Z;
  Success : bool;
  MatchIndex : Z
}.

(** [type InstallSnapshotRequest struct] *)
Record InstallSnapshotRequest := mkInstallSnapshotRequest {
  is_Term : Z;
  is_LeaderId : string;
  is_LastIncludedIndex : Z;
  is_LastIncludedTerm : Z;
  Offset : Z;
  Data : bytes;
  Done : bool
}.

(** [type InstallSnapshotResponse struct] *)
Record InstallSnapshotResponse := mkInstallSnapshotResponse {
  isr_Term : Z
}.

(** [type WALRecord struct]: the oneof [Record], [WAL_None] when it is unset. *)
Inductive WALRecord :=
| WAL_None
| WAL_State (term : Z) (votedFor : string)
| WAL_Entry (entry : LogEntry)
| WAL_TruncateIndex (truncateIndex : Z).

(** [type RaftState int] *)
Inductive RaftState := Follower | Candidate | Leader | Shutdown.

(** [func (s RaftState) String() string] *)
Definition RaftState_String (s : RaftState) : string :=
  match s with
  | Follower => "Follower"
  | Candidate => "Candidate"
  | Leader => "Leader"
  | Shutdown => "Shutdown"
  end.

(** [type Command struct] *)
Record Command := mkCommand {
  Op : string;
  Key : string;
  Val : string;
  ClientID : string;
  RequestID : Z
}.

(** [type cmdResp struct]; [err = None] is [nil]. *)
Record cmdResp := mkCmdResp {
  success : bool;
  err : option string
}.

(** [type proposal struct]; a response channel is named by a number. *)
Record proposal := mkProposal {
  p_index : Z;
  p_term : Z;
  p_respCh : nat
}.

#[export] Instance LogEntry_eq_dec : EqDecision LogEntry.
Proof. solve_decision. Defined.
#[export] Instance RequestVoteRequest_eq_dec : EqDecision RequestVoteRequest.
Proof. solve_decision. Defined.
#[export] Instance RequestVoteResponse_eq_dec : EqDecision RequestVoteResponse.
Proof. solve_decision. Defined.
#[export] Instance AppendEntriesRequest_eq_dec : EqDecision AppendEntriesRequest.
Proof. solve_decision. Defined.
#[export] Instance AppendEntriesResponse_eq_dec : EqDecision AppendEntriesResponse.
Proof. solve_decision. Defined.
#[export] Instance InstallSnapshotRequest_eq_dec : EqDecision InstallSnapshotRequest.
Proof. solve_decision. Defined.
#[export] Instance InstallSnapshotResponse_eq_dec : EqDecision InstallSnapshotResponse.
Proof. solve_decision. Defined.
#[export] Instance WALRecord_eq_dec : EqDecision WALRecord.
Proof. solve_decision. Defined.
#[export] Instance RaftState_eq_dec : EqDecision RaftState.
Proof. solve_decision. Defined.
#[export] Instance Command_eq_dec : EqDecision Command.
Proof. solve_decision. Defined.
#[export] Instance cmdResp_eq_dec : EqDecision cmdResp.
Proof. solve_decision. Defined.
#[export] Instance proposal_eq_dec : EqDecision proposal.
Proof. solve_decision. Defined.
