(* ===== verification/Config.v ===== *)
(** * Cluster membership: [raft/config.go]

    A configuration, the operations that read it, the change of a
    configuration through joint consensus, and the majority test that
    elections, commits and reads share.

    A Go map is a [gmap]; a nil map and an empty one read the same and are the
    same here.  A loop over a map whose body does not depend on the order is
    [map_fold].  A [ClusterConfig] pointer is an [option]. *)

From S2P Require Import Prelude Types.

(** [type EntryType int] *)
Definition EntryCommand : Z := 0.
Definition EntryConfigChange : Z := 1.
Definition EntryNoop : Z := 2.

(** [type ClusterConfig struct] *)
Record ClusterConfig := mkClusterConfig {
  OldPeers : gmap string string;
  NewPeers : gmap string string;
  OldHTTP : gmap string string;
  NewHTTP : gmap string string;
  Joint : bool
}.

#[export] Instance ClusterConfig_eq_dec : EqDecision ClusterConfig.
Proof. solve_decision. Defined.

(** [type ConfigChangeRequest struct] *)
Record ConfigChangeRequest := mkConfigChangeRequest {
  NodeID : string;
  GRPCAddr : string;
  HTTPAddr : string;
  Remove : bool
}.

(** [func (c ClusterConfig) IsJoint() bool] *)
Definition IsJoint (c : option ClusterConfig) : bool :=
  match c with None => false | Some c => Joint c end.

(** [func (c ClusterConfig) ContainsNode(nodeID string) bool] *)
Definition ContainsNode (c : option ClusterConfig) (nodeID : string) : bool :=
  match c with
  | None => false
  | Some c =>
      match NewPeers c !! nodeID with
      | Some _ => true
      | None =>
          if Joint c then
            match OldPeers c !! nodeID with Some _ => true | None => false end
          else false
      end
  end.

(** The loop of [AllNodeGRPC] and [AllNodeHTTP] over one of the two maps. *)
Definition add_nodes (selfID : string) (keep : bool)
    (m result : gmap string string) : gmap string string :=
  map_fold (λ id addr result,
    if bool_decide (id ≠ selfID) then
      if keep && bool_decide (is_Some (result !! id)) then result
      else <[id := addr]> result
    else result) result m.

(** [func (c ClusterConfig) AllNodeGRPC(selfID string) map[string]string] *)
Definition AllNodeGRPC (c : option ClusterConfig) (selfID : string)
    : gmap string string :=
  match c with
  | None => ∅
  | Some c =>
      let result := add_nodes selfID false (NewPeers c) ∅ in
      if Joint c then add_nodes selfID true (OldPeers c) result else result
  end.

(** [func (c ClusterConfig) AllNodeHTTP(selfID string) map[string]string] *)
Definition AllNodeHTTP (c : option ClusterConfig) (selfID : string)
    : gmap string string :=
  match c with
  | None => ∅
  | Some c =>
      let result := add_nodes selfID false (NewHTTP c) ∅ in
      if Joint c then add_nodes selfID true (OldHTTP c) result else result
  end.

(** The counting loop of [HasMajority]. *)
Definition count_voters (peers : gmap string string) (voters : gmap string bool)
    : Z :=
  map_fold (λ id _ n, if lookup_bool voters id then n + 1 else n) 0 peers.

(** The vote count and the total of one of the two configurations, the
    caller's own vote added once more when it is a member. *)
Definition tally (peers : gmap string string) (selfID : string)
    (voters : gmap string bool) : Z * Z :=
  let count := count_voters peers voters in
  let total := Z.of_nat (size peers) in
  match peers !! selfID with
  | Some _ => (if lookup_bool voters selfID then count + 1 else count, total + 1)
  | None => (count, total)
  end.

(** [func (c ClusterConfig) HasMajority(selfID string, voters map[string]bool) bool] *)
Definition HasMajority (c : option ClusterConfig) (selfID : string)
    (voters : gmap string bool) : bool :=
  match c with
  | None => false
  | Some c =>
      let '(newCount, newTotal) := tally (NewPeers c) selfID voters in
      if newCount <? Z.quot newTotal 2 + 1 then false
      else if negb (Joint c) then true
      else
        let '(oldCount, oldTotal) := tally (OldPeers c) selfID voters in
        Z.quot oldTotal 2 + 1 <=? oldCount
  end.

(** [func (c ClusterConfig) VoterCount(selfID string) int] *)
Definition VoterCount (c : option ClusterConfig) (selfID : string) : Z :=
  match c with
  | None => 1
  | Some c =>
      let seen : gset string := {[ selfID ]} in
      let seen := map_fold (λ id _ s, {[ id ]} ∪ s) seen (NewPeers c) in
      let seen :=
        if Joint c then map_fold (λ id _ s, {[ id ]} ∪ s) seen (OldPeers c)
        else seen in
      Z.of_nat (size seen)
  end.

(** [func copyMap(m map[string]string) map[string]string] *)
Definition copyMap (m : gmap string string) : gmap string string :=
  map_fold (λ k v result, <[k := v]> result) ∅ m.

(** [func BuildJointConfig(current, selfID, req) (&ClusterConfig, error)] *)
Definition BuildJointConfig (current : option ClusterConfig) (selfID : string)
    (req : ConfigChangeRequest) : result ClusterConfig :=
  match current with
  | None => Err "cannot build joint config from nil current config"
  | Some current =>
      if Joint current then
        Err "config change already in flight (joint consensus active)"
      else
        let oldPeers := copyMap (NewPeers current) in
        let oldHTTP := copyMap (NewHTTP current) in
        let newPeers := copyMap (NewPeers current) in
        let newHTTP := copyMap (NewHTTP current) in
        if Remove req then
          match newPeers !! NodeID req, bool_decide (NodeID req ≠ selfID) with
          | None, true =>
              Err ("node " +:+ NodeID req +:+ " not found in current configuration")
          | _, _ =>
              Ok (mkClusterConfig oldPeers (delete (NodeID req) newPeers)
                    oldHTTP (delete (NodeID req) newHTTP) true)
          end
        else
          match newPeers !! NodeID req with
          | Some _ =>
              Err ("node " +:+ NodeID req +:+ " already in configuration")
          | None =>
              if bool_decide (NodeID req = selfID) then
                Err "cannot add self to configuration"
              else
                Ok (mkClusterConfig
                      oldPeers (<[NodeID req := GRPCAddr req]> newPeers)
                      oldHTTP (<[NodeID req := HTTPAddr req]> newHTTP) true)
          end
  end.

(** [func BuildFinalConfig(joint ClusterConfig) ClusterConfig] *)
Definition BuildFinalConfig (joint : option ClusterConfig) : option ClusterConfig :=
  match joint with
  | None => None
  | Some joint =>
      Some (mkClusterConfig ∅ (copyMap (NewPeers joint)) ∅
              (copyMap (NewHTTP joint)) false)
  end.

(** [func ConfigFromPeers(grpcPeers, httpPeers, selfID) ClusterConfig] *)
Definition ConfigFromPeers (grpcPeers httpPeers : gmap string string)
    (selfID : string) : ClusterConfig :=
  let newPeers := <[selfID := "localhost:self"]> (copyMap grpcPeers) in
  let newHTTP := <[selfID := "localhost:self"]> (copyMap httpPeers) in
  mkClusterConfig ∅ newPeers ∅ newHTTP false.

(** ** Specification vocabulary *)

(** The members of a configuration. *)
Definition members (peers : gmap string string) : gset string := dom peers.

(** The members of [peers] that voted. *)
Definition yes_votes (peers : gmap string string) (voters : gmap string bool)
    : gset string :=
  filter (λ id, lookup_bool voters id = true) (members peers).

(** What the majority test asks of the votes of one configuration. *)
Definition enough (peers : gmap string string) (selfID : string)
    (voters : gmap string bool) : Prop :=
  if bool_decide (selfID ∈ members peers) then
    if lookup_bool voters selfID
    then Z.of_nat (size peers) ≤ 2 * Z.of_nat (size (yes_votes peers voters))
    else Z.of_nat (size peers) + 2 ≤ 2 * Z.of_nat (size (yes_votes peers voters))
  else Z.of_nat (size peers) < 2 * Z.of_nat (size (yes_votes peers voters)).

(** The configuration in force after a change request: the reference the
    two-step change through a joint configuration is compared with. *)
Definition change_peers (req : ConfigChangeRequest) (addr : string)
    (peers : gmap string string) : gmap string string :=
  if Remove req then delete (NodeID req) peers
  else <[NodeID req := addr]> peers.

(** ** Lemmas *)

Lemma copyMap_id m : copyMap m = m.
Proof.
  unfold copyMap. apply (map_fold_weak_ind (λ r m, r = m)); [done|].
  intros k v m' r _ ->. done.
Qed.

Lemma lookup_add_nodes selfID keep m result id :
  add_nodes selfID keep m result !! id =
    if bool_decide (id = selfID) then result !! id
    else if keep then match result !! id with Some a => Some a | None => m !! id end
    else match m !! id with Some a => Some a | None => result !! id end.
Proof.
  unfold add_nodes. revert id.
  apply (map_fold_weak_ind (λ r m, ∀ id, r !! id =
    if bool_decide (id = selfID) then result !! id
    else if keep then match result !! id with Some a => Some a | None => m !! id end
    else match m !! id with Some a => Some a | None => result !! id end)).
  { intros id. case_bool_decide; [done|]. rewrite lookup_empty.
    destruct keep; [|done]. by destruct (result !! id). }
  intros k v m' r Hk IH id. rewrite (lookup_insert m').
  case_bool_decide as Hks.
  - destruct (keep && _) eqn:Hr.
    + apply andb_true_iff in Hr as [-> Hr%bool_decide_eq_true]. rewrite IH.
      case_bool_decide; [done|]. destruct (decide (k = id)) as [<-|]; [|done].
      rewrite IH, Hk, bool_decide_eq_false_2 in Hr by done.
      destruct (result !! k); [done|]. by destruct Hr.
    + rewrite lookup_insert. destruct (decide (k = id)) as [<-|]; [|apply IH].
      rewrite bool_decide_eq_false_2 by done. destruct keep; [|done].
      simpl in Hr. apply bool_decide_eq_false in Hr.
      rewrite IH, Hk, bool_decide_eq_false_2 in Hr by done.
      destruct (result !! k); [|done]. exfalso; eauto.
  - rewrite IH. case_bool_decide; [done|]. by rewrite decide_False by congruence.
Qed.

Lemma count_voters_size peers voters :
  count_voters peers voters = Z.of_nat (size (yes_votes peers voters)).
Proof.
  unfold count_voters, yes_votes, members.
  apply (map_fold_weak_ind (λ n m, n =
    Z.of_nat (size (filter (λ id, lookup_bool voters id = true) (dom m : gset string))))).
  { done. }
  intros k v m n Hk ->. apply not_elem_of_dom in Hk.
  assert (Hd : dom (<[k:=v]> m) = ({[k]} ∪ dom m : gset string)) by set_solver.
  rewrite Hd. destruct (lookup_bool voters k) eqn:Hv.
  - assert (filter (λ id, lookup_bool voters id = true) ({[k]} ∪ dom m : gset string)
      = {[k]} ∪ filter (λ id, lookup_bool voters id = true) (dom m)) as -> by set_solver.
    rewrite size_union by set_solver. rewrite size_singleton. lia.
  - assert (filter (λ id, lookup_bool voters id = true) ({[k]} ∪ dom m : gset string)
      = filter (λ id, lookup_bool voters id = true) (dom m)) as ->; [|done].
    apply set_eq. intros x. rewrite !elem_of_filter, elem_of_union, elem_of_singleton.
    naive_solver congruence.
Qed.

Lemma yes_votes_le peers voters :
  (size (yes_votes peers voters) ≤ size peers)%nat.
Proof.
  rewrite <- (size_dom (D := gset string) peers). apply subseteq_size. set_solver.
Qed.

Lemma tally_enough peers selfID voters count total :
  tally peers selfID voters = (count, total) →
  Z.quot total 2 + 1 ≤ count ↔ enough peers selfID voters.
Proof.
  unfold tally, enough. rewrite count_voters_size.
  destruct (peers !! selfID) eqn:Hs.
  - rewrite bool_decide_eq_true_2 by (apply elem_of_dom; eauto).
    intros [= <- <-]. rewrite Z.quot_div_nonneg by lia.
    destruct (lookup_bool _ _); Z.to_euclidean_division_equations; lia.
  - rewrite bool_decide_eq_false_2 by (by apply not_elem_of_dom).
    intros [= <- <-]. rewrite Z.quot_div_nonneg by lia.
    Z.to_euclidean_division_equations; lia.
Qed.

Lemma HasMajority_enough c selfID voters :
  HasMajority (Some c) selfID voters = true ↔
  enough (NewPeers c) selfID voters ∧
  (Joint c = true → enough (OldPeers c) selfID voters).
Proof.
  simpl. destruct (tally (NewPeers c) _ _) as [n t] eqn:Hn.
  destruct (tally (OldPeers c) _ _) as [n' t'] eqn:Hn'.
  apply tally_enough in Hn, Hn'. rewrite <- Hn, <- Hn'.
  destruct (Z.ltb_spec n (Z.quot t 2 + 1)); simpl.
  { split; [done|lia]. }
  destruct (Joint c); simpl; [rewrite Z.leb_le|]; split; try tauto; lia.
Qed.

(** With an odd number of members the test asks for a true majority. *)
Lemma enough_odd peers selfID voters :
  Z.odd (Z.of_nat (size peers)) = true →
  enough peers selfID voters →
  Z.of_nat (size peers) < 2 * Z.of_nat (size (yes_votes peers voters)).
Proof.
  unfold enough. intros Hodd. rewrite Z.odd_spec in Hodd.
  destruct Hodd as [k Hk].
  case_bool_decide; [destruct (lookup_bool _ _)|]; lia.
Qed.

Lemma yes_votes_intersect peers v1 v2 :
  Z.of_nat (size peers) <
    Z.of_nat (size (yes_votes peers v1)) + Z.of_nat (size (yes_votes peers v2)) →
  ∃ id, id ∈ members peers ∧ lookup_bool v1 id = true ∧ lookup_bool v2 id = true.
Proof.
  intros Hlt.
  destruct (decide (yes_votes peers v1 ∩ yes_votes peers v2 = ∅)) as [He|Hne].
  - exfalso.
    assert (size (yes_votes peers v1 ∪ yes_votes peers v2) ≤ size (members peers))%nat
      as Hle by (apply subseteq_size; unfold yes_votes, members; set_solver).
    rewrite size_union in Hle by set_solver. unfold members in Hle; rewrite size_dom in Hle. lia.
  - apply set_choose_L in Hne as [id Hid]. exists id.
    unfold yes_votes in Hid. set_solver.
Qed.

(** Two vote sets that pass the test on an odd membership share a member. *)
Lemma enough_intersect peers s1 s2 v1 v2 :
  Z.odd (Z.of_nat (size peers)) = true →
  enough peers s1 v1 → enough peers s2 v2 →
  ∃ id, id ∈ members peers ∧ lookup_bool v1 id = true ∧ lookup_bool v2 id = true.
Proof.
  intros Hodd H1%enough_odd H2%enough_odd; [|done..].
  apply yes_votes_intersect. lia.
Qed.

Lemma ContainsNode_spec c id :
  ContainsNode (Some c) id = true ↔
  id ∈ members (NewPeers c) ∨ (Joint c = true ∧ id ∈ members (OldPeers c)).
Proof.
  simpl. unfold members. rewrite !elem_of_dom.
  destruct (NewPeers c !! id) eqn:H1; [naive_solver|].
  destruct (Joint c); [|naive_solver].
  destruct (OldPeers c !! id) eqn:H2; naive_solver.
Qed.

Lemma BuildJointConfig_Ok current selfID req c :
  BuildJointConfig current selfID req = Ok c →
  ∃ cur, current = Some cur ∧ Joint cur = false ∧ Joint c = true ∧
    OldPeers c = NewPeers cur ∧ OldHTTP c = NewHTTP cur ∧
    NewPeers c = change_peers req (GRPCAddr req) (NewPeers cur) ∧
    NewHTTP c = change_peers req (HTTPAddr req) (NewHTTP cur) ∧
    (Remove req = true →
       is_Some (NewPeers cur !! NodeID req) ∨ NodeID req = selfID) ∧
    (Remove req = false →
       NewPeers cur !! NodeID req = None ∧ NodeID req ≠ selfID).
Proof.
  destruct current as [cur|]; [|done]. simpl.
  destruct (Joint cur) eqn:HJ; [done|]. rewrite !copyMap_id.
  unfold change_peers. intros H. exists cur.
  destruct (Remove req) eqn:HR.
  - destruct (NewPeers cur !! NodeID req) eqn:HN.
    + simplify_eq. simpl. split_and!; try done. eauto.
    + case_bool_decide; [done|]. simplify_eq. simpl.
      split_and!; try done. intros _; by right.
  - destruct (NewPeers cur !! NodeID req) eqn:HN; [done|].
    case_bool_decide; [done|]. simplify_eq. simpl. split_and!; try done.
Qed.


Lemma lookup_bool_gset (X : gset string) id :
  lookup_bool (gset_to_gmap true X) id = bool_decide (id ∈ X).
Proof.
  unfold lookup_bool. rewrite lookup_gset_to_gmap. case_bool_decide.
  - by rewrite option_guard_True.
  - by rewrite option_guard_False.
Qed.

Lemma yes_votes_gset peers (X : gset string) :
  X ⊆ members peers → yes_votes peers (gset_to_gmap true X) = X.
Proof.
  intros HX. unfold yes_votes. apply set_eq. intros id.
  rewrite elem_of_filter, lookup_bool_gset, bool_decide_eq_true. set_solver.
Qed.

Lemma enough_half peers (X : gset string) self :
  X ⊆ members peers → self ∈ X → Z.of_nat (size peers) ≤ 2 * Z.of_nat (size X) →
  enough peers self (gset_to_gmap true X).
Proof.
  intros HX Hs Hle. unfold enough.
  rewrite bool_decide_eq_true_2 by set_solver.
  by rewrite lookup_bool_gset, bool_decide_eq_true_2, yes_votes_gset.
Qed.

(** The members of an even configuration split into two halves. *)
Lemma split_members peers m :
  size peers = (2 * S m)%nat →
  ∃ X Y : gset string, X ⊆ members peers ∧ Y ⊆ members peers ∧ X ## Y ∧
    size X = S m ∧ size Y = S m.
Proof.
  intros Hsz. pose (l := elements (members peers)).
  assert (Hl : length l = (2 * S m)%nat).
  { rewrite <- Hsz. exact (size_dom (D := gset string) peers). }
  assert (Hnd : NoDup l) by apply NoDup_elements.
  rewrite <- (take_drop (S m) l) in Hnd. apply NoDup_app in Hnd as (H1 & H2 & H3).
  assert (Hin : ∀ x, x ∈ l → x ∈ members peers) by (intros x; apply elem_of_elements).
  rewrite <- (take_drop (S m) l) in Hin. setoid_rewrite elem_of_app in Hin.
  exists (list_to_set (take (S m) l)), (list_to_set (drop (S m) l)).
  rewrite !size_list_to_set, length_take, length_drop by done.
  split_and!; [set_solver..|lia|lia].
Qed.

(** ** Properties *)

(** Quorum intersection.  Under one steady configuration with an odd
    number of members, any two vote sets that [HasMajority] accepts, asked by
    any two nodes, have a member of the configuration in common. *)
Theorem quorum_intersection c s1 s2 v1 v2 :
  Z.odd (Z.of_nat (size (NewPeers c))) = true →
  HasMajority (Some c) s1 v1 = true →
  HasMajority (Some c) s2 v2 = true →
  ∃ id, ContainsNode (Some c) id = true ∧
    lookup_bool v1 id = true ∧ lookup_bool v2 id = true.
Proof.
  intros Hodd [H1 _]%HasMajority_enough [H2 _]%HasMajority_enough.
  destruct (enough_intersect _ _ _ _ _ Hodd H1 H2) as (id & Hid & Hv1 & Hv2).
  exists id. rewrite ContainsNode_spec. eauto.
Qed.

Definition three_nodes : ClusterConfig :=
  ConfigFromPeers {["n2" := "b"; "n3" := "c"]} ∅ "n1".

Definition votes_of (ids : list string) : gmap string bool :=
  gset_to_gmap true (list_to_set ids).

Example quorum_intersection_witness :
  ∃ id, ContainsNode (Some three_nodes) id = true ∧
    lookup_bool (votes_of ["n1"; "n2"]) id = true ∧
    lookup_bool (votes_of ["n2"; "n3"]) id = true.
Proof.
  apply (quorum_intersection three_nodes "n1" "n3"); vm_compute; reflexivity.
Defined.

(** With an even number of members the test is too weak: the caller's
    own vote counts twice, so each half of the cluster passes it, and two
    disjoint quorums exist. *)
Theorem even_configuration_splits c m :
  Joint c = false →
  size (NewPeers c) = (2 * S m)%nat →
  ∃ s1 s2 v1 v2,
    HasMajority (Some c) s1 v1 = true ∧ HasMajority (Some c) s2 v2 = true ∧
    ∀ id, ¬ (lookup_bool v1 id = true ∧ lookup_bool v2 id = true).
Proof.
  intros HJ Hsz. destruct (split_members _ _ Hsz) as (X & Y & HX & HY & Hd & HsX & HsY).
  destruct (size_pos_elem_of X) as [s1 Hs1]; [lia|].
  destruct (size_pos_elem_of Y) as [s2 Hs2]; [lia|].
  exists s1, s2, (gset_to_gmap true X), (gset_to_gmap true Y).
  rewrite !HasMajority_enough, HJ. split_and!; try done.
  - apply enough_half; [done..|lia].
  - apply enough_half; [done..|lia].
  - intros id. rewrite !lookup_bool_gset, !bool_decide_eq_true. set_solver.
Qed.

Definition four_nodes : ClusterConfig :=
  ConfigFromPeers {["n2" := "b"; "n3" := "c"; "n4" := "d"]} ∅ "n1".

Example even_configuration_splits_witness :
  ∃ s1 s2 v1 v2,
    HasMajority (Some four_nodes) s1 v1 = true ∧
    HasMajority (Some four_nodes) s2 v2 = true ∧
    ∀ id, ¬ (lookup_bool v1 id = true ∧ lookup_bool v2 id = true).
Proof. apply (even_configuration_splits four_nodes 1); vm_compute; reflexivity. Defined.


Definition add_n4 : ConfigChangeRequest := mkConfigChangeRequest "n4" "d" "hd" false.

Definition three_to_four : ClusterConfig :=
  match BuildJointConfig (Some three_nodes) "n1" add_n4 with
  | Ok c => c | Err _ => three_nodes
  end.


(** C30. A membership change takes effect in two steps.  When
    [BuildJointConfig] accepts a request, the joint configuration keeps the
    old members and holds the new ones, [BuildFinalConfig] of it is the old
    configuration with the one requested change, and every node of either
    configuration is in the joint one. *)
Theorem membership_change cur selfID req j :
  BuildJointConfig (Some cur) selfID req = Ok j →
  Joint j = true ∧ OldPeers j = NewPeers cur ∧
  BuildFinalConfig (Some j) =
    Some (mkClusterConfig ∅ (change_peers req (GRPCAddr req) (NewPeers cur))
            ∅ (change_peers req (HTTPAddr req) (NewHTTP cur)) false) ∧
  (∀ id, ContainsNode (Some j) id = true ↔
     ContainsNode (Some cur) id = true ∨
     ContainsNode (BuildFinalConfig (Some j)) id = true).
Proof.
  intros (cur' & [= <-] & HJc & HJ & HO & _ & HN & HH & _)%BuildJointConfig_Ok.
  split_and!; [done..| |].
  - simpl. by rewrite !copyMap_id, HN, HH.
  - intros id. simpl BuildFinalConfig. rewrite !ContainsNode_spec, HJc, HJ, HO.
    simpl. rewrite copyMap_id. naive_solver.
Qed.

Example membership_change_witness :
  Joint three_to_four = true ∧ OldPeers three_to_four = NewPeers three_nodes ∧
  BuildFinalConfig (Some three_to_four) =
    Some (mkClusterConfig ∅ (change_peers add_n4 "d" (NewPeers three_nodes))
            ∅ (change_peers add_n4 "hd" (NewHTTP three_nodes)) false) ∧
  (∀ id, ContainsNode (Some three_to_four) id = true ↔
     ContainsNode (Some three_nodes) id = true ∨
     ContainsNode (BuildFinalConfig (Some three_to_four)) id = true).
Proof. apply (membership_change three_nodes "n1" add_n4). vm_compute. reflexivity. Defined.
