(* ===== verification/Json.v ===== *)
(** * The part of Go's [encoding/json] the program uses

    [json.Marshal] and [json.Unmarshal] on the structs that reach the log, the
    snapshot file and the HTTP bodies.  A JSON text is a byte string.
    [Marshal] writes it as the library does: string escapes with the HTML
    characters escaped, invalid UTF-8 replaced, integers in decimal, fields in
    declaration order, map keys sorted, [omitempty] fields dropped.
    [Unmarshal] first checks that the whole text is one value, then stores the
    members of an object into the fields of the same name, compared without
    case, an unknown name being skipped; [null] leaves a field unchanged or
    empties a map or a pointer; a value of another type is an error.

    Not modelled: the nesting limit of 10000. *)

From stdpp Require Import sorting.
From Stdlib Require Import Decimal DecimalZ.
From S2P Require Import Prelude Types Config.

(** ** Bytes and characters *)

Definition byte_of_ascii := Ascii.byte_of_ascii.
Definition to_bytes (s : string) : bytes := String.list_byte_of_string s.
Definition of_bytes (b : bytes) : string := String.string_of_list_byte b.

Definition in_range (lo hi : Z) (b : byte) : bool :=
  (lo <=? byte_to_Z b) && (byte_to_Z b <=? hi).

Definition is_ws (b : byte) : bool :=
  match b with " " | x09 | x0a | x0d => true | _ => false end%byte.
Definition is_digit (b : byte) : bool := in_range 48 57 b.
Definition is_hex (b : byte) : bool :=
  is_digit b || in_range 65 70 b || in_range 97 102 b.

(** ** UTF-8 *)

(** [utf8.DecodeRune]: the size of the rune at the front, 0 when the text is
    not valid there (the library then reports [RuneError] and size 1). *)
Definition cont (b : byte) : bool := in_range 128 191 b.
Definition rune_size (s : bytes) : nat :=
  match s with
  | [] => 0
  | b0 :: s1 =>
      if in_range 0 127 b0 then 1
      else match s1 with
      | [] => 0
      | b1 :: s2 =>
          if in_range 194 223 b0 && cont b1 then 2
          else match s2 with
          | [] => 0
          | b2 :: s3 =>
              if cont b2 &&
                 ((in_range 224 224 b0 && in_range 160 191 b1)
                  || (in_range 225 236 b0 && cont b1)
                  || (in_range 237 237 b0 && in_range 128 159 b1)
                  || (in_range 238 239 b0 && cont b1))
              then 3
              else match s3 with
              | [] => 0
              | b3 :: _ =>
                  if cont b2 && cont b3 &&
                     ((in_range 240 240 b0 && in_range 144 191 b1)
                      || (in_range 241 243 b0 && cont b1)
                      || (in_range 244 244 b0 && in_range 128 143 b1))
                  then 4 else 0
              end
          end
      end
  end%nat.

(** [utf8.AppendRune]. *)
Definition encode_rune (r : Z) : bytes :=
  let b x := Z_to_byte x in
  if r <? 128 then [b r]
  else if r <? 2048 then [b (192 + r / 64); b (128 + r mod 64)]
  else if (55296 <=? r) && (r <=? 57343) || (1114111 <? r) then [xef; xbf; xbd]
  else if r <? 65536 then
    [b (224 + r / 4096); b (128 + r / 64 mod 64); b (128 + r mod 64)]
  else
    [b (240 + r / 262144); b (128 + r / 4096 mod 64); b (128 + r / 64 mod 64);
     b (128 + r mod 64)].

(** ** Strings *)

Definition hex_digit (n : Z) : byte :=
  if n <? 10 then Z_to_byte (48 + n) else Z_to_byte (87 + n).
Definition hex_val (b : byte) : Z :=
  if is_digit b then byte_to_Z b - 48
  else if in_range 97 102 b then byte_to_Z b - 87
  else byte_to_Z b - 55.

(** The escape of one ASCII byte in [appendString] with [escapeHTML]. *)
Definition quote1 (b : byte) : bytes :=
  match b with
  | x22 => [x5c; x22]
  | x5c => [x5c; x5c]
  | x08 => [x5c; "b"]
  | x0c => [x5c; "f"]
  | x0a => [x5c; "n"]
  | x0d => [x5c; "r"]
  | x09 => [x5c; "t"]
  | "<" | ">" | "&" =>
      [x5c; "u"; "0"; "0"; hex_digit (byte_to_Z b / 16); hex_digit (byte_to_Z b mod 16)]
  | _ =>
      if byte_to_Z b <? 32 then
        [x5c; "u"; "0"; "0"; hex_digit (byte_to_Z b / 16); hex_digit (byte_to_Z b mod 16)]
      else [b]
  end%byte.

(** What to do with the bytes that continue a rune already read. *)
Inductive pending := PCopy (n : nat) | PDrop (n : nat).

Definition is_line_sep (s : bytes) : bool :=
  match s with
  | xe2 :: x80 :: xa8 :: _ | xe2 :: x80 :: xa9 :: _ => true
  | _ => false
  end%byte.

(** The text between the quotes of a string value. *)
Fixpoint quote_body (p : pending) (s : bytes) : bytes :=
  match s with
  | [] => []
  | b :: s' =>
      match p with
      | PCopy (S n) => b :: quote_body (PCopy n) s'
      | PDrop (S n) => quote_body (PDrop n) s'
      | _ =>
          match rune_size s with
          | O => [x5c; "u"; "f"; "f"; "f"; "d"] ++ quote_body (PCopy 0) s'
          | S O => quote1 b ++ quote_body (PCopy 0) s'
          | S n =>
              if is_line_sep s then
                [x5c; "u"; "2"; "0"; "2"; hex_digit (byte_to_Z (nth 2 s x00) - 160)]
                  ++ quote_body (PDrop n) s'
              else b :: quote_body (PCopy n) s'
          end
      end
  end%byte.

Definition quote (s : string) : bytes :=
  x22 :: quote_body (PCopy 0) (to_bytes s) ++ [x22].

(** The text after the closing quote.  States: 0 inside the string, 1 after
    a backslash, 2 to 5 before the fourth-to-last to the last hex digit. *)
Fixpoint skip_string (st : nat) (s : bytes) : option bytes :=
  match s with
  | [] => None
  | b :: s' =>
      match st with
      | O =>
          match b with
          | x22 => Some s'
          | x5c => skip_string 1 s'
          | _ => if byte_to_Z b <? 32 then None else skip_string 0 s'
          end
      | 1%nat =>
          match b with
          | "b" | "f" | "n" | "r" | "t" | x5c | "/" | x22 => skip_string 0 s'
          | "u" => skip_string 2 s'
          | _ => None
          end
      | 5%nat => if is_hex b then skip_string 0 s' else None
      | n => if is_hex b then skip_string (S n) s' else None
      end
  end%byte.

Definition hex4 (a b c d : byte) : Z :=
  ((hex_val a * 16 + hex_val b) * 16 + hex_val c) * 16 + hex_val d.

(** [unquoteBytes] on the text between the quotes.  [p] counts the bytes of a
    rune already checked that remain to be copied. *)
Fixpoint unquote (p : nat) (s : bytes) : bytes :=
  match s with
  | [] => []
  | b :: s' =>
      match p with
      | S n => b :: unquote n s'
      | O =>
          match b, s' with
          | x5c, "u" :: a :: b :: c :: d :: rest =>
              let r := hex4 a b c d in
              if (55296 <=? r) && (r <=? 57343) then
                match rest with
                | x5c :: "u" :: e :: f :: g :: h :: rest' =>
                    let r2 := hex4 e f g h in
                    if (r <=? 56319) && (56320 <=? r2) && (r2 <=? 57343) then
                      encode_rune ((r - 55296) * 1024 + (r2 - 56320) + 65536)
                        ++ unquote 0 rest'
                    else [xef; xbf; xbd] ++ unquote 0 rest
                | _ => [xef; xbf; xbd] ++ unquote 0 rest
                end
              else encode_rune r ++ unquote 0 rest
          | x5c, "b" :: rest => x08 :: unquote 0 rest
          | x5c, "f" :: rest => x0c :: unquote 0 rest
          | x5c, "n" :: rest => x0a :: unquote 0 rest
          | x5c, "r" :: rest => x0d :: unquote 0 rest
          | x5c, "t" :: rest => x09 :: unquote 0 rest
          | x5c, c :: rest => c :: unquote 0 rest
          | _, _ =>
              match rune_size s with
              | O => [xef; xbf; xbd] ++ unquote 0 s'
              | S n => b :: unquote n s'
              end
          end
      end
  end%byte.

(** ** Numbers *)

Fixpoint bytes_of_uint (d : Decimal.uint) : bytes :=
  match d with
  | Nil => []
  | D0 d => "0" :: bytes_of_uint d
  | D1 d => "1" :: bytes_of_uint d
  | D2 d => "2" :: bytes_of_uint d
  | D3 d => "3" :: bytes_of_uint d
  | D4 d => "4" :: bytes_of_uint d
  | D5 d => "5" :: bytes_of_uint d
  | D6 d => "6" :: bytes_of_uint d
  | D7 d => "7" :: bytes_of_uint d
  | D8 d => "8" :: bytes_of_uint d
  | D9 d => "9" :: bytes_of_uint d
  end%byte.

Definition marshal_int (z : Z) : bytes :=
  match Z.to_int z with
  | Decimal.Pos d => bytes_of_uint d
  | Decimal.Neg d => "-"%byte :: bytes_of_uint d
  end.

Fixpoint uint_of_bytes (s : bytes) : option Decimal.uint :=
  match s with
  | [] => Some Nil
  | b :: s' =>
      d ← uint_of_bytes s';
      match b with
      | "0" => Some (D0 d)
      | "1" => Some (D1 d)
      | "2" => Some (D2 d)
      | "3" => Some (D3 d)
      | "4" => Some (D4 d)
      | "5" => Some (D5 d)
      | "6" => Some (D6 d)
      | "7" => Some (D7 d)
      | "8" => Some (D8 d)
      | "9" => Some (D9 d)
      | _ => None
      end
  end%byte.

(** [strconv.ParseInt(s, 10, 64)] on a valid JSON number. *)
Definition parse_int (s : bytes) : option Z :=
  z ← match s with
      | "-"%byte :: s' => d ← uint_of_bytes s'; Some (Z.of_int (Decimal.Neg d))
      | _ => d ← uint_of_bytes s; Some (Z.of_int (Decimal.Pos d))
      end;
  if bool_decide (- 2 ^ 63 ≤ z ∧ z < 2 ^ 63) then Some z else None.

Fixpoint skip_digits (s : bytes) : bytes :=
  match s with
  | b :: s' => if is_digit b then skip_digits s' else s
  | [] => []
  end.

(** One digit or more. *)
Definition skip_digits1 (s : bytes) : option bytes :=
  match s with
  | b :: s' => if is_digit b then Some (skip_digits s') else None
  | [] => None
  end.

Definition skip_exp (s : bytes) : option bytes :=
  match s with
  | "e" :: "+" :: s' | "e" :: "-" :: s' | "E" :: "+" :: s' | "E" :: "-" :: s'
  | "e" :: s' | "E" :: s' => skip_digits1 s'
  | _ => Some s
  end%byte.

Definition skip_frac (s : bytes) : option bytes :=
  match s with
  | "."%byte :: s' => r ← skip_digits1 s'; skip_exp r
  | _ => skip_exp s
  end.

Definition skip_number (s : bytes) : option bytes :=
  let s := match s with "-"%byte :: s' => s' | _ => s end in
  match s with
  | "0"%byte :: s' => skip_frac s'
  | _ => r ← skip_digits1 s; skip_frac r
  end.

(** ** Values *)

Fixpoint skip_ws (s : bytes) : bytes :=
  match s with
  | b :: s' => if is_ws b then skip_ws s' else s
  | [] => []
  end.

(** The text after the value at the front.  Each call reads at least one
    byte, so the length of the text is enough fuel. *)
Fixpoint skip_value (fuel : nat) (s : bytes) : option bytes :=
  match fuel with
  | O => None
  | S f =>
      match s with
      | x22 :: s' => skip_string 0 s'
      | "{" :: s' =>
          match skip_ws s' with
          | "}" :: r => Some r
          | s'' => skip_members f s''
          end
      | "[" :: s' =>
          match skip_ws s' with
          | "]" :: r => Some r
          | s'' => skip_elements f s''
          end
      | "t" :: "r" :: "u" :: "e" :: r => Some r
      | "f" :: "a" :: "l" :: "s" :: "e" :: r => Some r
      | "n" :: "u" :: "l" :: "l" :: r => Some r
      | _ => skip_number s
      end
  end%byte
with skip_members (fuel : nat) (s : bytes) : option bytes :=
  match fuel with
  | O => None
  | S f =>
      match s with
      | x22 :: s' =>
          r ← skip_string 0 s';
          match skip_ws r with
          | ":" :: r =>
              r ← skip_value f (skip_ws r);
              match skip_ws r with
              | "}" :: r => Some r
              | "," :: r => skip_members f (skip_ws r)
              | _ => None
              end
          | _ => None
          end
      | _ => None
      end
  end%byte
with skip_elements (fuel : nat) (s : bytes) : option bytes :=
  match fuel with
  | O => None
  | S f =>
      r ← skip_value f s;
      match skip_ws r with
      | "]" :: r => Some r
      | "," :: r => skip_elements f (skip_ws r)
      | _ => None
      end
  end%byte.

(** [checkValid], and the value without the white space around it. *)
Definition the_value (s : bytes) : option bytes :=
  let s := skip_ws s in
  r ← skip_value (S (length s)) s;
  match skip_ws r with
  | [] => Some (take (length s - length r) s)
  | _ => None
  end.

(** The members of an object: the text of each key, between its quotes, and
    the text of each value. *)
Fixpoint read_members (fuel : nat) (s : bytes) : option (list (bytes * bytes)) :=
  match fuel with
  | O => None
  | S f =>
      match s with
      | x22 :: s' =>
          r ← skip_string 0 s';
          let key := take (length s' - length r - 1) s' in
          match skip_ws r with
          | ":" :: r =>
              let v := skip_ws r in
              r ← skip_value (S (length v)) v;
              let raw := take (length v - length r) v in
              match skip_ws r with
              | "}" :: _ => Some [(key, raw)]
              | "," :: r => l ← read_members f (skip_ws r); Some ((key, raw) :: l)
              | _ => None
              end
          | _ => None
          end
      | _ => None
      end
  end%byte.

Definition object_members (v : bytes) : option (list (bytes * bytes)) :=
  match v with
  | "{" :: s =>
      match skip_ws s with
      | "}" :: _ => Some []
      | s' => read_members (S (length s')) s'
      end
  | _ => None
  end%byte.

(** [compact] with HTML escaping, on a valid text: what [Marshal] does to a
    [json.RawMessage].  States as in [skip_string], 6 outside a string. *)
Fixpoint compact (st : nat) (s : bytes) : bytes :=
  match s with
  | [] => []
  | b :: s' =>
      match st with
      | 6%nat =>
          if is_ws b then compact 6 s'
          else b :: compact (match b with x22 => 0 | _ => 6 end) s'
      | 1%nat => b :: compact 0 s'
      | _ =>
          match b, s' with
          | xe2, x80 :: xa8 :: s'' =>
              [x5c; "u"; "2"; "0"; "2"; "8"] ++ compact 0 s''
          | xe2, x80 :: xa9 :: s'' =>
              [x5c; "u"; "2"; "0"; "2"; "9"] ++ compact 0 s''
          | x22, _ => b :: compact 6 s'
          | x5c, _ => b :: compact 1 s'
          | "<", _ | ">", _ | "&", _ => quote1 b ++ compact 0 s'
          | _, _ => b :: compact 0 s'
          end
      end
  end%byte.

(** ** Decoders of the field types

    Each takes the current value of the field and the text of the new one;
    [None] is an error of [Unmarshal]. *)

Definition null : bytes := ["n"; "u"; "l"; "l"]%byte.
Definition is_null (v : bytes) : bool := bool_decide (v = null).

Definition string_lit (v : bytes) : option string :=
  match v with
  | x22%byte :: s => Some (of_bytes (unquote 0 (take (length s - 1) s)))
  | _ => None
  end.

Definition dec_string (old : string) (v : bytes) : option string :=
  if is_null v then Some old else string_lit v.

Definition dec_int (old : Z) (v : bytes) : option Z :=
  if is_null v then Some old else parse_int v.

Definition dec_bool (old : bool) (v : bytes) : option bool :=
  if is_null v then Some old
  else match v with
  | "t"%byte :: _ => Some true
  | "f"%byte :: _ => Some false
  | _ => None
  end.

Definition dec_raw (_ : option bytes) (v : bytes) : option (option bytes) :=
  Some (Some v).

(** A field name without its case: the library folds every letter to its
    upper case, and the two other letters that fold to an ASCII one. *)
Fixpoint fold_name (s : bytes) : bytes :=
  match s with
  | xc5 :: xbf :: s' => "S" :: fold_name s'
  | xe2 :: x84 :: xaa :: s' => "K" :: fold_name s'
  | b :: s' =>
      (if in_range 97 122 b then Z_to_byte (byte_to_Z b - 32) else b) :: fold_name s'
  | [] => []
  end%byte.

Definition same_name (name : string) (key : bytes) : bool :=
  bool_decide (fold_name (unquote 0 key) = fold_name (to_bytes name)).

Section Objects.
Context {S : Type}.

(** A field: its name and what its value does to the struct. *)
Definition field_dec : Type := string * (S → bytes → option S).

Fixpoint store_member (fields : list field_dec) (st : S) (key v : bytes) : option S :=
  match fields with
  | [] => Some st
  | (name, dec) :: fields' =>
      if same_name name key then dec st v else store_member fields' st key v
  end.

Fixpoint store_members (fields : list field_dec) (st : S)
    (l : list (bytes * bytes)) : option S :=
  match l with
  | [] => Some st
  | (key, v) :: l' => st' ← store_member fields st key v; store_members fields st' l'
  end.

Definition dec_struct (fields : list field_dec) (st : S) (v : bytes) : option S :=
  if is_null v then Some st
  else l ← object_members v; store_members fields st l.

(** [json.Unmarshal(data, &st)]. *)
Definition unmarshal (fields : list field_dec) (st : S) (data : bytes) : option S :=
  v ← the_value data; dec_struct fields st v.
End Objects.

Definition dec_ptr {S} (fields : list (@field_dec S)) (zero : S)
    (old : option S) (v : bytes) : option (option S) :=
  if is_null v then Some None
  else st ← dec_struct fields (default zero old) v; Some (Some st).

Fixpoint store_map {V} (dec : bytes → option V) (m : gmap string V)
    (l : list (bytes * bytes)) : option (gmap string V) :=
  match l with
  | [] => Some m
  | (key, v) :: l' =>
      x ← dec v; store_map dec (<[of_bytes (unquote 0 key) := x]> m) l'
  end.

Definition dec_map {V} (dec : bytes → option V) (old : gmap string V) (v : bytes)
    : option (gmap string V) :=
  if is_null v then Some ∅
  else l ← object_members v; store_map dec old l.

(** ** Encoders *)

Fixpoint members_text (l : list (string * bytes)) : bytes :=
  match l with
  | [] => []
  | [(k, v)] => quote k ++ ":"%byte :: v
  | (k, v) :: l' => quote k ++ ":"%byte :: v ++ ","%byte :: members_text l'
  end.

Definition marshal_object (l : list (string * bytes)) : bytes :=
  "{"%byte :: members_text l ++ ["}"%byte].

Definition marshal_bool (b : bool) : bytes :=
  if b then ["t"; "r"; "u"; "e"]%byte else ["f"; "a"; "l"; "s"; "e"]%byte.

Definition key_le {V} (a b : string * V) : Prop := String.leb a.1 b.1 = true.
#[export] Instance key_le_dec {V} : RelDecision (@key_le V).
Proof. intros a b. unfold key_le. apply _. Defined.

Definition sorted_members {V} (m : gmap string V) : list (string * V) :=
  merge_sort key_le (map_to_list m).

Definition marshal_map {V} (enc : V → bytes) (m : gmap string V) : bytes :=
  marshal_object (map (λ kv, (kv.1, enc kv.2)) (sorted_members m)).

(** A member left out when [empty] holds. *)
Definition omitempty (empty : bool) (k : string) (v : bytes) : list (string * bytes) :=
  if empty then [] else [(k, v)].
