(* ===== verification/Envelope.v ===== *)
(** * The payload of a log entry: commands and envelopes

    [type Command] of [raft/raft.go] and [type LogEntryEnvelope] of
    [raft/config.go] with their JSON texts, and the functions that wrap a
    payload into a log entry and read it back. *)

From S2P Require Import Prelude Types Config Json.

(** [type LogEntryEnvelope struct]; a nil [Data] or [Config] is [None]. *)
Record LogEntryEnvelope := mkLogEntryEnvelope {
  env_Type : Z;
  env_Data : option bytes;
  env_Config : option ClusterConfig
}.

#[export] Instance LogEntryEnvelope_eq_dec : EqDecision LogEntryEnvelope.
Proof. solve_decision. Defined.

#[export] Instance eta_LogEntryEnvelope : Eta LogEntryEnvelope := λ e,
  mkLogEntryEnvelope (env_Type e) (env_Data e) (env_Config e).
#[export] Instance eta_ClusterConfig : Eta ClusterConfig := λ c,
  mkClusterConfig (OldPeers c) (NewPeers c) (OldHTTP c) (NewHTTP c) (Joint c).
#[export] Instance eta_Command : Eta Command := λ c,
  mkCommand (Op c) (Key c) (Val c) (ClientID c) (RequestID c).

(** The zero values of the structs. *)
Definition zero_Command : Command := mkCommand "" "" "" "" 0.
Definition zero_ClusterConfig : ClusterConfig := mkClusterConfig ∅ ∅ ∅ ∅ false.
Definition zero_LogEntryEnvelope : LogEntryEnvelope := mkLogEntryEnvelope 0 None None.

(** [json.Marshal] and [json.Unmarshal] of a [Command], by its field tags. *)
Definition marshal_Command (c : Command) : bytes :=
  marshal_object
    ([("op", quote (Op c)); ("key", quote (Key c)); ("val", quote (Val c))]
     ++ omitempty (bool_decide (ClientID c = "")) "client_id" (quote (ClientID c))
     ++ omitempty (bool_decide (RequestID c = 0)) "request_id"
          (marshal_int (RequestID c))).

Definition Command_fields : list (@field_dec Command) :=
  [("op", λ c v, x ← dec_string (Op c) v; Some (c <| Op := x |>));
   ("key", λ c v, x ← dec_string (Key c) v; Some (c <| Key := x |>));
   ("val", λ c v, x ← dec_string (Val c) v; Some (c <| Val := x |>));
   ("client_id", λ c v, x ← dec_string (ClientID c) v; Some (c <| ClientID := x |>));
   ("request_id", λ c v, x ← dec_int (RequestID c) v; Some (c <| RequestID := x |>))].

Definition unmarshal_Command (b : bytes) : option Command :=
  unmarshal Command_fields zero_Command b.

(** The same for a [ClusterConfig]. *)

Definition dec_string_map := dec_map (dec_string "").

Definition marshal_ClusterConfig (c : ClusterConfig) : bytes :=
  marshal_object
    (omitempty (bool_decide (OldPeers c = ∅)) "old_peers" (marshal_map quote (OldPeers c))
     ++ [("new_peers", marshal_map quote (NewPeers c))]
     ++ omitempty (bool_decide (OldHTTP c = ∅)) "old_http" (marshal_map quote (OldHTTP c))
     ++ [("new_http", marshal_map quote (NewHTTP c)); ("joint", marshal_bool (Joint c))]).

Definition ClusterConfig_fields : list (@field_dec ClusterConfig) :=
  [("old_peers", λ c v, x ← dec_string_map (OldPeers c) v; Some (c <| OldPeers := x |>));
   ("new_peers", λ c v, x ← dec_string_map (NewPeers c) v; Some (c <| NewPeers := x |>));
   ("old_http", λ c v, x ← dec_string_map (OldHTTP c) v; Some (c <| OldHTTP := x |>));
   ("new_http", λ c v, x ← dec_string_map (NewHTTP c) v; Some (c <| NewHTTP := x |>));
   ("joint", λ c v, x ← dec_bool (Joint c) v; Some (c <| Joint := x |>))].

(** The same for a [LogEntryEnvelope]; writing a [json.RawMessage] that is
    not valid JSON is an error. *)
Definition marshal_raw (d : option bytes) : option (list (string * bytes)) :=
  match d with
  | None | Some [] => Some []
  | Some data => v ← the_value data; Some [("data", compact 6 v)]
  end.

Definition marshal_LogEntryEnvelope (e : LogEntryEnvelope) : result bytes :=
  match marshal_raw (env_Data e) with
  | None => Err "json: error calling MarshalJSON for type json.RawMessage"
  | Some data =>
      Ok (marshal_object
        ([("type", marshal_int (env_Type e))] ++ data ++
         match env_Config e with
         | None => []
         | Some c => [("config", marshal_ClusterConfig c)]
         end))
  end.

Definition LogEntryEnvelope_fields : list (@field_dec LogEntryEnvelope) :=
  [("type", λ e v, x ← dec_int (env_Type e) v; Some (e <| env_Type := x |>));
   ("data", λ e v, x ← dec_raw (env_Data e) v; Some (e <| env_Data := x |>));
   ("config", λ e v,
      x ← dec_ptr ClusterConfig_fields zero_ClusterConfig (env_Config e) v;
      Some (e <| env_Config := x |>))].

Definition unmarshal_LogEntryEnvelope (b : bytes) : option LogEntryEnvelope :=
  unmarshal LogEntryEnvelope_fields zero_LogEntryEnvelope b.

(** [func EncodeConfigChangeEntry(config) ([]byte, error)] *)
Definition EncodeConfigChangeEntry (config : option ClusterConfig) : result bytes :=
  marshal_LogEntryEnvelope (mkLogEntryEnvelope EntryConfigChange None config).

(** [func EncodeNoopEntry() ([]byte, error)] *)
Definition EncodeNoopEntry : result bytes :=
  marshal_LogEntryEnvelope (mkLogEntryEnvelope EntryNoop None None).

(** [func EncodeCommandEntry(cmdBytes []byte) ([]byte, error)] *)
Definition EncodeCommandEntry (cmdBytes : bytes) : result bytes :=
  marshal_LogEntryEnvelope (mkLogEntryEnvelope EntryCommand (Some cmdBytes) None).

(** [func DecodeLogEntry(cmdBytes []byte)]: it never returns an error. *)
Definition DecodeLogEntry (cmdBytes : bytes) : LogEntryEnvelope :=
  if bool_decide (cmdBytes = []) then mkLogEntryEnvelope EntryNoop None None
  else
    match unmarshal_LogEntryEnvelope cmdBytes with
    | None => mkLogEntryEnvelope EntryCommand (Some cmdBytes) None
    | Some env =>
        if bool_decide (env_Type env = EntryCommand) &&
           bool_decide (env_Config env = None) && bool_decide (env_Data env = None)
        then mkLogEntryEnvelope EntryCommand (Some cmdBytes) None
        else env
    end.
