(* ===== verification/Disk.v ===== *)
(** * Files: the operations of package [os] the storage layer uses

    A disk maps a path to the content of its file.  Every call of the
    operating system may fail: [faults] is the sequence of outcomes of the
    next calls, [IoOk] when it is used up.  A write that fails has written a
    prefix of its buffer. *)

From S2P Require Import Prelude.

Inductive IoFault := IoOk | IoFail (written : nat).

Record Disk := mkDisk {
  files : gmap string bytes;
  faults : list IoFault
}.

#[export] Instance eta_Disk : Eta Disk := λ d, mkDisk (files d) (faults d).

Definition io_error : string := "input/output error".

(** No call will fail. *)
Definition healthy (d : Disk) : Prop := faults d = [].

(** The outcome of the next call. *)
Definition next_io (d : Disk) : IoFault * Disk :=
  match faults d with
  | [] => (IoOk, d)
  | f :: fs => (f, d <| faults := fs |>)
  end.

Definition content (d : Disk) (path : string) : bytes :=
  default [] (files d !! path).

(** A call that, when it succeeds, changes the files by [f]. *)
Definition os_call (f : gmap string bytes → gmap string bytes) (d : Disk)
    : option string * Disk :=
  match next_io d with
  | (IoOk, d) => (None, d <| files ::= f |>)
  | (IoFail _, d) => (Some io_error, d)
  end.

(** [os.MkdirAll], [file.Sync], [file.Close], [file.Seek] *)
Definition os_nop : Disk → option string * Disk := os_call id.

(** [os.OpenFile] with [O_CREATE], without and with [O_TRUNC] *)
Definition os_create (path : string) : Disk → option string * Disk :=
  os_call (λ m, match m !! path with Some _ => m | None => <[path := []]> m end).
Definition os_create_trunc (path : string) : Disk → option string * Disk :=
  os_call (λ m, <[path := []]> m).

(** [os.Truncate(path, 0)], [os.Remove], [os.Rename] *)
Definition os_truncate (path : string) : Disk → option string * Disk :=
  os_call (λ m, <[path := []]> m).
Definition os_remove (path : string) : Disk → option string * Disk :=
  os_call (delete path).
Definition os_rename (old new : string) : Disk → option string * Disk :=
  os_call (λ m, match m !! old with
                | Some c => <[new := c]> (delete old m)
                | None => m
                end).

(** [file.Write] at the end of the file. *)
Definition os_write (path : string) (buf : bytes) (d : Disk) : option string * Disk :=
  match next_io d with
  | (IoOk, d) => (None, d <| files ::= insert path (content d path ++ buf) |>)
  | (IoFail n, d) =>
      (Some io_error, d <| files ::= insert path (content d path ++ take n buf) |>)
  end.

(** Reading a whole file: [None] when it does not exist. *)
Definition os_read (path : string) (d : Disk) : result (option bytes) * Disk :=
  match next_io d with
  | (IoOk, d) => (Ok (files d !! path), d)
  | (IoFail _, d) => (Err io_error, d)
  end.

(** ** Lemmas *)

Lemma next_io_files d f d' : next_io d = (f, d') → files d' = files d.
Proof. unfold next_io. destruct (faults d); intros [= <- <-]; done. Qed.

Lemma next_io_healthy d : healthy d → next_io d = (IoOk, d).
Proof. unfold healthy, next_io. by intros ->. Qed.

Lemma os_call_healthy f d :
  healthy d → os_call f d = (None, d <| files ::= f |>).
Proof. intros H. unfold os_call. by rewrite next_io_healthy. Qed.

Lemma os_write_healthy path buf d :
  healthy d →
  os_write path buf d = (None, d <| files ::= insert path (content d path ++ buf) |>).
Proof. intros H. unfold os_write. by rewrite next_io_healthy. Qed.

Lemma os_read_healthy path d : healthy d → os_read path d = (Ok (files d !! path), d).
Proof. intros H. unfold os_read. by rewrite next_io_healthy. Qed.

Lemma content_insert d path c path' :
  content (d <| files ::= insert path c |>) path' =
    if decide (path = path') then c else content d path'.
Proof. unfold content. rsimpl. rewrite lookup_insert. by case_decide. Qed.

(** A path that [f] leaves alone keeps its content, whatever the outcome. *)
Lemma os_call_other f d e d' path :
  os_call f d = (e, d') → (∀ m, f m !! path = m !! path) →
  files d' !! path = files d !! path.
Proof.
  unfold os_call. destruct (next_io d) as [fl d1] eqn:Hn. apply next_io_files in Hn.
  destruct fl; intros [= <- <-] Hf; rsimpl; rewrite <- Hn; [apply Hf|done].
Qed.

Lemma os_write_other p buf d e d' path :
  os_write p buf d = (e, d') → p ≠ path → files d' !! path = files d !! path.
Proof.
  unfold os_write. destruct (next_io d) as [fl d1] eqn:Hn. apply next_io_files in Hn.
  destruct fl; intros [= <- <-] Hne; rsimpl; by rewrite lookup_insert_ne, Hn.
Qed.

(** The files after a call, by its outcome. *)
Lemma os_call_files f d e d' :
  os_call f d = (e, d') →
  files d' = match e with None => f (files d) | Some _ => files d end.
Proof.
  unfold os_call. destruct (next_io d) as [fl d1] eqn:Hn. apply next_io_files in Hn.
  destruct fl; intros [= <- <-]; rsimpl; by rewrite <- Hn.
Qed.

Lemma os_write_ok p buf d d' :
  os_write p buf d = (None, d') → files d' = <[p := content d p ++ buf]> (files d).
Proof.
  unfold os_write, content. destruct (next_io d) as [fl d1] eqn:Hn.
  apply next_io_files in Hn. destruct fl; intros [= <-]; rsimpl; by rewrite Hn.
Qed.
