(* ===== verification/Wal.v ===== *)
(** * The write-ahead log: [storage/wal.go]

    The file is a sequence of records, each framed by the length and the
    CRC-32 of its protobuf encoding.  The encoding itself is
    [google.golang.org/protobuf], outside the repository: the class
    [ProtoCodec] is its two functions, [ProtoCodecLaws] what it documents. *)

From S2P Require Import Prelude Types Disk.

(** ** The protobuf library *)

Class ProtoCodec := {
  proto_Marshal : WALRecord → option bytes;
  proto_Unmarshal : bytes → option WALRecord
}.

(** Decoding an encoded message gives the message back; no message is longer
    than 2 GiB. *)
Class ProtoCodecLaws `{!ProtoCodec} : Prop := {
  proto_roundtrip r b : proto_Marshal r = Some b → proto_Unmarshal b = Some r;
  proto_size r b : proto_Marshal r = Some b → Z.of_nat (length b) < 2 ^ 31
}.

(** ** [hash/crc32]: [ChecksumIEEE] *)

Definition crc_bit (c : Z) : Z :=
  if Z.odd c then Z.lxor (Z.shiftr c 1) 0xEDB88320 else Z.shiftr c 1.
Definition crc_byte (c : Z) (b : byte) : Z :=
  Nat.iter 8 crc_bit (Z.lxor c (byte_to_Z b)).
Definition ChecksumIEEE (data : bytes) : Z :=
  Z.lxor (foldl crc_byte 0xFFFFFFFF data) 0xFFFFFFFF.

(** ** The log *)

(** The state of [w.file]: nil, open, or a descriptor already closed. *)
Inductive FileHandle := FileNil | FileOpen | FileClosed.

(** [type WAL struct] *)
Record WAL := mkWAL {
  wal_file : FileHandle;
  wal_path : string
}.

#[export] Instance eta_WAL : Eta WAL := λ w, mkWAL (wal_file w) (wal_path w).

Definition closed_error : string := "file already closed".

(** [func OpenWAL(path string)] *)
Definition OpenWAL (path : string) (d : Disk) : result WAL * Disk :=
  match os_nop d with
  | (Some e, d) => (Err ("failed to create directory for WAL: " +:+ e), d)
  | (None, d) =>
      match os_create path d with
      | (Some e, d) => (Err ("failed to open WAL file: " +:+ e), d)
      | (None, d) => (Ok (mkWAL FileOpen path), d)
      end
  end.

(** The frame [writeRecord] builds around an encoded record. *)
Definition frame (data : bytes) : bytes :=
  put_uint32 (Z.of_nat (length data) mod 2 ^ 32) ++ put_uint32 (ChecksumIEEE data)
    ++ data.

Section Wal.
Context `{!ProtoCodec}.

(** [func (w WAL) writeRecord(rec)] *)
Definition writeRecord (w : WAL) (rec : WALRecord) (d : Disk) : option string * Disk :=
  match proto_Marshal rec with
  | None => (Some "failed to marshal WAL record", d)
  | Some data =>
      let buf := frame data in
      match wal_file w with
      | FileOpen =>
          match os_write (wal_path w) buf d with
          | (Some e, d) => (Some ("failed to write to WAL: " +:+ e), d)
          | (None, d) => os_nop d (* file.Sync *)
          end
      | _ => (Some ("failed to write to WAL: " +:+ closed_error), d)
      end
  end.

(** [func (w WAL) AppendState(term int64, votedFor string) error] *)
Definition AppendState (w : WAL) (term : Z) (votedFor : string)
    : Disk → option string * Disk := writeRecord w (WAL_State term votedFor).

(** [func (w WAL) AppendEntry(entry raftproto.LogEntry) error] *)
Definition AppendEntry (w : WAL) (entry : LogEntry) : Disk → option string * Disk :=
  writeRecord w (WAL_Entry entry).

(** [func (w WAL) AppendTruncate(index int64) error] *)
Definition AppendTruncate (w : WAL) (index : Z) : Disk → option string * Disk :=
  writeRecord w (WAL_TruncateIndex index).

(** What [Replay] has read so far: the last term and vote, and the entries. *)
Definition ReplayState : Type := Z * string * list LogEntry.

(** The loop over [entries] for an entry record: the entry replaces the first
    one of its index and everything after it. *)
Fixpoint place_entry (entries : list LogEntry) (r : LogEntry) : list LogEntry :=
  match entries with
  | [] => [r]
  | e :: es => if Index e =? Index r then [r] else e :: place_entry es r
  end.

Definition truncate_entries (entries : list LogEntry) (truncIdx : Z)
    : list LogEntry :=
  filter (λ e, Index e < truncIdx) entries.

(** The type switch on a record. *)
Definition apply_record (st : ReplayState) (rec : WALRecord) : ReplayState :=
  let '(term, votedFor, entries) := st in
  match rec with
  | WAL_None => st
  | WAL_State t v => (t, v, entries)
  | WAL_Entry e => (term, votedFor, place_entry entries e)
  | WAL_TruncateIndex i => (term, votedFor, truncate_entries entries i)
  end.

(** The loop of [Replay] on the bytes that remain; [None] is out of fuel. *)
Fixpoint replay_loop (fuel : nat) (data : bytes) (st : ReplayState)
    : option (result ReplayState) :=
  match fuel with
  | O => None
  | S f =>
      if bool_decide (length data < 4)%nat then Some (Ok st)
      else
        let len := get_uint32 (take 4 data) in
        let data := drop 4 data in
        if bool_decide (length data < 4)%nat then
          Some (Err "failed to read record crc")
        else
          let crc := get_uint32 (take 4 data) in
          let data := drop 4 data in
          if bool_decide (Z.of_nat (length data) < len) then
            Some (Err "failed to read record data")
          else
            let body := take (Z.to_nat len) data in
            let data := drop (Z.to_nat len) data in
            if bool_decide (ChecksumIEEE body ≠ crc) then
              Some (Err "WAL corruption: CRC32 mismatch")
            else
              match proto_Unmarshal body with
              | None => Some (Err "failed to unmarshal WAL record")
              | Some rec => replay_loop f data (apply_record st rec)
              end
  end.

(** The content of the file, replayed from the start. *)
Definition replay (data : bytes) : option (result ReplayState) :=
  replay_loop (S (length data)) data (0, "", []).

(** [func (w WAL) Replay()].  A read error other than the end of the file
    drops what was read so far. *)
Definition Replay (w : WAL) (d : Disk) : option (result ReplayState) * Disk :=
  match wal_file w with
  | FileOpen =>
      match os_nop d with (* file.Seek *)
      | (Some e, d) => (Some (Err ("failed to seek WAL: " +:+ e)), d)
      | (None, d) =>
          match os_read (wal_path w) d with
          | (Err e, d) => (Some (Err ("failed to read record length: " +:+ e)), d)
          | (Ok c, d) => (replay (default [] c), d)
          end
      end
  | _ => (Some (Err ("failed to seek WAL: " +:+ closed_error)), d)
  end.

(** [func (w WAL) Reset() error] *)
Definition Reset (w : WAL) (d : Disk) : option string * WAL * Disk :=
  let '(w, d) :=
    match wal_file w with
    | FileNil => (w, d)
    | _ => (w <| wal_file := FileClosed |>, (os_nop d).2)
    end in
  match os_truncate (wal_path w) d with
  | (Some e, d) => (Some ("failed to truncate WAL file: " +:+ e), w, d)
  | (None, d) =>
      match os_create (wal_path w) d with
      | (Some e, d) => (Some ("failed to reopen WAL file after truncate: " +:+ e), w, d)
      | (None, d) => (None, w <| wal_file := FileOpen |>, d)
      end
  end.

(** [func (w WAL) Close() error] *)
Definition Close (w : WAL) (d : Disk) : option string * WAL * Disk :=
  match wal_file w with
  | FileNil => (None, w, d)
  | FileOpen =>
      let '(e, d) := os_nop d in (e, w <| wal_file := FileNil |>, d)
  | FileClosed => (Some closed_error, w <| wal_file := FileNil |>, d)
  end.

(** ** Specification vocabulary *)

(** [data] is the sequence of frames of the records [rs]. *)
Inductive encodes : bytes → list WALRecord → Prop :=
| encodes_nil : encodes [] []
| encodes_snoc data rs r body :
    encodes data rs → proto_Marshal r = Some body →
    encodes (data ++ frame body) (rs ++ [r]).

(** What a sequence of records means. *)
Definition run_records (rs : list WALRecord) : ReplayState :=
  foldl apply_record (0, "", []) rs.
End Wal.

(** ** Lemmas *)

Lemma lxor_bound n a b :
  0 ≤ n → 0 ≤ a < 2 ^ n → 0 ≤ b < 2 ^ n → 0 ≤ Z.lxor a b < 2 ^ n.
Proof.
  intros Hn Ha Hb. split; [apply Z.lxor_nonneg; lia|].
  destruct (decide (Z.lxor a b = 0)) as [->|Hnz]; [lia|].
  assert (0 < Z.lxor a b) by (pose proof (proj2 (Z.lxor_nonneg a b)); lia).
  apply Z.log2_lt_pow2; [done|].
  assert (n ≠ 0) by (intros Hn0; subst n; replace a with 0 in * by lia;
    replace b with 0 in * by lia; done).
  eapply Z.le_lt_trans; [apply Z.log2_lxor; lia|].
  apply Z.max_lub_lt.
  - destruct (decide (a = 0)) as [->|]; [simpl; lia|]. apply Z.log2_lt_pow2; lia.
  - destruct (decide (b = 0)) as [->|]; [simpl; lia|]. apply Z.log2_lt_pow2; lia.
Qed.

Lemma crc_bit_bound c : 0 ≤ c < 2 ^ 32 → 0 ≤ crc_bit c < 2 ^ 32.
Proof.
  intros Hc. unfold crc_bit.
  assert (0 ≤ Z.shiftr c 1 < 2 ^ 32).
  { rewrite Z.shiftr_div_pow2 by lia. Z.to_euclidean_division_equations. lia. }
  destruct (Z.odd c); [|done]. apply lxor_bound; lia.
Qed.

Lemma crc_byte_bound c b : 0 ≤ c < 2 ^ 32 → 0 ≤ crc_byte c b < 2 ^ 32.
Proof.
  intros Hc. unfold crc_byte. pose proof (byte_to_Z_bound b).
  assert (H0 : 0 ≤ Z.lxor c (byte_to_Z b) < 2 ^ 32) by (apply lxor_bound; lia).
  revert H0. generalize (Z.lxor c (byte_to_Z b)). intros z Hz.
  generalize 8%nat. intros k. induction k; simpl; [done|]. by apply crc_bit_bound.
Qed.

Lemma ChecksumIEEE_bound data : 0 ≤ ChecksumIEEE data < 2 ^ 32.
Proof.
  unfold ChecksumIEEE. apply lxor_bound; [lia| |lia].
  assert (H0 : 0 ≤ 0xFFFFFFFF < 2 ^ 32) by lia. revert H0. generalize 0xFFFFFFFF.
  induction data as [|b data IH]; intros c Hc; simpl; [done|].
  apply IH, crc_byte_bound, Hc.
Qed.

Lemma length_frame data : length (frame data) = (8 + length data)%nat.
Proof. done. Qed.

Section WalFacts.
Context `{!ProtoCodec}.

(** One turn of the loop on a whole frame. *)
Lemma replay_loop_frame f data rest st :
  Z.of_nat (length data) < 2 ^ 32 →
  replay_loop (S f) (frame data ++ rest) st =
    match proto_Unmarshal data with
    | None => Some (Err "failed to unmarshal WAL record")
    | Some rec => replay_loop f rest (apply_record st rec)
    end.
Proof.
  intros Hlen. unfold frame. rewrite Z.mod_small by lia.
  pose proof (get_put_uint32 (Z.of_nat (length data)) ltac:(lia)) as Hg.
  pose proof (get_put_uint32 _ (ChecksumIEEE_bound data)) as Hc.
  set (a := put_uint32 (Z.of_nat (length data))) in *.
  set (c := put_uint32 (ChecksumIEEE data)) in *.
  assert (Ha : length a = 4%nat) by done. assert (Hcl : length c = 4%nat) by done.
  clearbody a c. cbn [replay_loop].
  rewrite <- !(assoc_L (++)).
  rewrite bool_decide_eq_false_2 by (rewrite !length_app; lia).
  rewrite !(take_app_length' a), !(drop_app_length' a) by done.
  rewrite bool_decide_eq_false_2 by (rewrite !length_app; lia).
  rewrite !(take_app_length' c), !(drop_app_length' c) by done.
  rewrite Hg, Hc, Nat2Z.id.
  rewrite bool_decide_eq_false_2 by (rewrite !length_app; lia).
  rewrite take_app_length, drop_app_length.
  by rewrite bool_decide_eq_false_2 by auto.
Qed.

(** More fuel than bytes changes nothing, and the result is never [None]. *)
Lemma replay_loop_fuel n data st f1 f2 :
  (length data ≤ n)%nat → (length data < f1)%nat → (length data < f2)%nat →
  replay_loop f1 data st = replay_loop f2 data st.
Proof.
  revert data st f1 f2. induction n as [|n IH]; intros data st f1 f2 Hn H1 H2;
    (destruct f1 as [|f1]; [lia|]); (destruct f2 as [|f2]; [lia|]); cbn [replay_loop].
  { by rewrite bool_decide_eq_true_2 by lia. }
  repeat case_bool_decide; try done. destruct (proto_Unmarshal _); [|done].
  apply IH; rewrite !length_drop; lia.
Qed.

Lemma replay_loop_total n data st f :
  (length data ≤ n)%nat → (length data < f)%nat → replay_loop f data st ≠ None.
Proof.
  revert data st f. induction n as [|n IH]; intros data st f Hn Hf;
    (destruct f as [|f]; [lia|]); cbn [replay_loop].
  { by rewrite bool_decide_eq_true_2 by lia. }
  repeat case_bool_decide; try done. destruct (proto_Unmarshal _); [|done].
  apply IH; rewrite !length_drop; lia.
Qed.

Context `{!ProtoCodecLaws}.

(** The records of a prefix are applied before the rest is read. *)
Lemma replay_loop_encodes data rs rest st f :
  encodes data rs → (length (data ++ rest) < f)%nat →
  replay_loop f (data ++ rest) st =
    replay_loop (S (length rest)) rest (foldl apply_record st rs).
Proof.
  intros Henc. revert rest f. induction Henc as [|data rs r body Henc IH Hm];
    intros rest f Hf.
  { eapply replay_loop_fuel; simpl in *; [reflexivity|lia..]. }
  rewrite <- (assoc_L (++)) in *. rewrite IH by done.
  rewrite foldl_app. cbn [foldl].
  rewrite replay_loop_frame by (apply proto_size in Hm; lia).
  rewrite (proto_roundtrip _ _ Hm).
  eapply replay_loop_fuel; [reflexivity|rewrite ?length_app, ?length_frame; lia..].
Qed.

Lemma replay_encodes data rs :
  encodes data rs → replay data = Some (Ok (run_records rs)).
Proof.
  intros Henc. unfold replay. rewrite <- (app_nil_r data) at 2.
  rewrite (replay_loop_encodes _ _ [] _ _ Henc); [done|].
  rewrite app_nil_r. lia.
Qed.
End WalFacts.
