(* ===== verification/ProtoWire.v ===== *)
(** * A protobuf codec, to show that the laws of [ProtoCodec] can hold

    The development never depends on this file's encoding: [ProtoCodec] is a
    parameter everywhere.  The witnesses instantiate it with the codec below,
    the proto3 wire format of [message WALRecord] in [proto/raft.proto]. *)

From S2P Require Import Prelude Types Json Disk Wal.

(** ** Wire format *)

Fixpoint put_varint (fuel : nat) (n : Z) : bytes :=
  match fuel with
  | O => []
  | S f =>
      if n <? 128 then [Z_to_byte n]
      else Z_to_byte (128 + n mod 128) :: put_varint f (n / 128)
  end.

Fixpoint get_varint (s : bytes) : option (Z * bytes) :=
  match s with
  | [] => None
  | b :: s' =>
      if byte_to_Z b <? 128 then Some (byte_to_Z b, s')
      else '(n, rest) ← get_varint s'; Some (byte_to_Z b - 128 + 128 * n, rest)
  end.

Inductive wire_value := VInt (z : Z) | VBytes (b : bytes).

Definition put_field (kv : Z * wire_value) : bytes :=
  match kv with
  | (k, VInt z) => put_varint 10 (k * 8) ++ put_varint 10 z
  | (k, VBytes b) =>
      put_varint 10 (k * 8 + 2) ++ put_varint 10 (Z.of_nat (length b)) ++ b
  end.

Fixpoint get_fields (fuel : nat) (s : bytes) : option (list (Z * wire_value)) :=
  match s, fuel with
  | [], _ => Some []
  | _, O => None
  | _, S f =>
      '(tag, s1) ← get_varint s;
      if tag mod 8 =? 0 then
        '(z, s2) ← get_varint s1;
        l ← get_fields f s2; Some ((tag / 8, VInt z) :: l)
      else if tag mod 8 =? 2 then
        '(n, s2) ← get_varint s1;
        if Z.of_nat (length s2) <? n then None
        else
          l ← get_fields f (drop (Z.to_nat n) s2);
          Some ((tag / 8, VBytes (take (Z.to_nat n) s2)) :: l)
      else None
  end.

Definition put_fields (l : list (Z * wire_value)) : bytes := concat (map put_field l).

(** ** Messages *)

Definition int_field (k z : Z) : list (Z * wire_value) :=
  if z =? 0 then [] else [(k, VInt (z mod 2 ^ 64))].
Definition bytes_field (k : Z) (b : bytes) : list (Z * wire_value) :=
  match b with [] => [] | _ => [(k, VBytes b)] end.

Definition record_fields (r : WALRecord) : list (Z * wire_value) :=
  match r with
  | WAL_None => []
  | WAL_State t v =>
      [(1, VBytes (put_fields (int_field 1 t ++ bytes_field 2 (to_bytes v))))]
  | WAL_Entry e =>
      [(2, VBytes (put_fields (int_field 1 (Index e) ++ int_field 2 (Term e)
                                 ++ bytes_field 3 (Cmd e))))]
  | WAL_TruncateIndex i => [(3, VInt (i mod 2 ^ 64))]
  end.

Definition get_int (k : Z) (l : list (Z * wire_value)) : Z :=
  foldl (λ acc kv, match kv with
                   | (k', VInt z) => if k' =? k then wrap64 z else acc
                   | _ => acc
                   end) 0 l.
Definition get_bytes (k : Z) (l : list (Z * wire_value)) : bytes :=
  foldl (λ acc kv, match kv with
                   | (k', VBytes b) => if k' =? k then b else acc
                   | _ => acc
                   end) [] l.

Definition record_of_fields (l : list (Z * wire_value)) : option WALRecord :=
  match l with
  | [] => Some WAL_None
  | [(1, VBytes b)] =>
      m ← get_fields (length b) b;
      Some (WAL_State (get_int 1 m) (of_bytes (get_bytes 2 m)))
  | [(2, VBytes b)] =>
      m ← get_fields (length b) b;
      Some (WAL_Entry (mkLogEntry (get_int 1 m) (get_int 2 m) (get_bytes 3 m)))
  | [(3, VInt z)] => Some (WAL_TruncateIndex (wrap64 z))
  | _ => None
  end.

(** The integers of a Go value are in range by their type. *)
Definition in_int64 (z : Z) : bool := bool_decide (- 2 ^ 63 ≤ z ∧ z < 2 ^ 63).
Definition record_in_range (r : WALRecord) : bool :=
  match r with
  | WAL_None => true
  | WAL_State t _ => in_int64 t
  | WAL_Entry e => in_int64 (Index e) && in_int64 (Term e)
  | WAL_TruncateIndex i => in_int64 i
  end.

Definition wire_codec : ProtoCodec := {|
  proto_Marshal r :=
    let b := put_fields (record_fields r) in
    if record_in_range r && (Z.of_nat (length b) <? 2 ^ 31) then Some b else None;
  proto_Unmarshal b := l ← get_fields (length b) b; record_of_fields l
|}.

(** ** The laws *)

Lemma put_varint_S f n :
  put_varint (S f) n =
    if n <? 128 then [Z_to_byte n]
    else Z_to_byte (128 + n mod 128) :: put_varint f (n / 128).
Proof. done. Qed.

#[local] Arguments put_varint : simpl never.

Lemma get_put_varint f n rest :
  0 ≤ n < 2 ^ (7 * Z.of_nat (S f)) →
  get_varint (put_varint (S f) n ++ rest) = Some (n, rest).
Proof.
  revert n. induction f as [|f IH]; intros n Hn; rewrite put_varint_S;
    destruct (Z.ltb_spec n 128).
  1,3: cbn; rewrite byte_to_Z_to_byte, Z.mod_small by lia;
    by destruct (Z.ltb_spec n 128); [|lia].
  - change (2 ^ _) with 128 in Hn. lia.
  - cbn [app get_varint]. rewrite byte_to_Z_to_byte.
    pose proof (Z.mod_pos_bound n 128 ltac:(lia)).
    rewrite (Z.mod_small (128 + _)) by lia.
    destruct (Z.ltb_spec (128 + n mod 128) 128); [lia|].
    rewrite IH.
    + cbn. do 2 f_equal. Z.to_euclidean_division_equations. lia.
    + replace (7 * Z.of_nat (S (S f))) with (7 + 7 * Z.of_nat (S f)) in Hn by lia.
      rewrite Z.pow_add_r in Hn by lia. change (2 ^ 7) with 128 in Hn.
      split; [apply Z.div_pos; lia|apply Z.div_lt_upper_bound; lia].
Qed.

(** Fields the encoders produce. *)
Definition field_ok (kv : Z * wire_value) : Prop :=
  0 < kv.1 < 16 ∧
  match kv.2 with
  | VInt z => 0 ≤ z < 2 ^ 64
  | VBytes b => Z.of_nat (length b) < 2 ^ 64
  end.

Lemma put_varint_nonnil f n : put_varint (S f) n ≠ [].
Proof. rewrite put_varint_S. by destruct (n <? 128). Qed.

Lemma get_put_fields l fuel :
  Forall field_ok l → (length (put_fields l) ≤ fuel)%nat →
  get_fields fuel (put_fields l) = Some l.
Proof.
  intros Hl. revert fuel. induction Hl as [|[k v] l [Hk Hv] Hl IH]; intros fuel Hf.
  { by destruct fuel. }
  unfold put_fields in *. cbn [map concat] in *. simpl in Hk.
  assert (Hone : ∀ n, (1 ≤ length (put_varint 10 n))%nat).
  { intros n. pose proof (put_varint_nonnil 9 n). destruct (put_varint 10 n); [done|].
    simpl. lia. }
  destruct v as [z|b]; simpl in Hv; cbn [put_field] in *.
  - rewrite <- !(assoc_L (++)) in *. rewrite !length_app in Hf.
    pose proof (Hone (k * 8)). destruct fuel as [|fuel]; [lia|].
    destruct (put_varint 10 (k * 8) ++ _) eqn:He.
    { apply app_eq_nil in He as [He _]. by apply put_varint_nonnil in He. }
    cbn [get_fields]. rewrite <- He. rewrite get_put_varint by (simpl; lia). cbn.
    rewrite Z.mod_mul by lia. cbn. rewrite get_put_varint by (simpl; lia). cbn.
    rewrite IH by lia. cbn. by rewrite Z.div_mul by lia.
  - rewrite <- !(assoc_L (++)) in *. rewrite !length_app in Hf.
    pose proof (Hone (k * 8 + 2)). destruct fuel as [|fuel]; [lia|].
    destruct (put_varint 10 (k * 8 + 2) ++ _) eqn:He.
    { apply app_eq_nil in He as [He _]. by apply put_varint_nonnil in He. }
    cbn [get_fields]. rewrite <- He. rewrite get_put_varint by (simpl; lia). cbn.
    assert ((k * 8 + 2) mod 8 = 2) as -> by (Z.to_euclidean_division_equations; lia).
    assert ((k * 8 + 2) / 8 = k) as -> by (Z.to_euclidean_division_equations; lia).
    cbn. rewrite get_put_varint by (simpl; lia). cbn.
    rewrite length_app. destruct (Z.ltb_spec (Z.of_nat (length b + length (concat (map put_field l))))
      (Z.of_nat (length b))); [lia|].
    rewrite Nat2Z.id, drop_app_length, take_app_length, IH by lia. done.
Qed.

#[local] Arguments put_fields : simpl never.
#[local] Arguments get_fields : simpl never.

Lemma wrap64_mod z : is_int64 z → wrap64 (z mod 2 ^ 64) = z.
Proof. unfold is_int64, wrap64. intros. Z.to_euclidean_division_equations. lia. Qed.

Lemma int_field_ok k z : 0 < k < 16 → Forall field_ok (int_field k z).
Proof.
  intros Hk. unfold int_field. destruct (z =? 0); repeat constructor; simpl; try lia;
    apply Z.mod_pos_bound; lia.
Qed.

Lemma bytes_field_ok k b :
  0 < k < 16 → Z.of_nat (length b) < 2 ^ 64 → Forall field_ok (bytes_field k b).
Proof.
  intros Hk Hb. unfold bytes_field. destruct b; repeat constructor; simpl in *; try lia.
Qed.

Lemma put_field_bytes_length k b : (length b ≤ length (put_field (k, VBytes b)))%nat.
Proof. cbn [put_field]. rewrite !length_app. lia. Qed.

Lemma length_put_fields_app l1 l2 :
  length (put_fields (l1 ++ l2)) = (length (put_fields l1) + length (put_fields l2))%nat.
Proof. unfold put_fields. by rewrite map_app, concat_app, length_app. Qed.

Lemma bytes_field_length k b : (length b ≤ length (put_fields (bytes_field k b)))%nat.
Proof.
  unfold bytes_field, put_fields. destruct b as [|x b]; simpl; [lia|].
  rewrite app_nil_r, !length_app. simpl. lia.
Qed.

#[local] Existing Instance wire_codec.

Lemma in_int64_spec z : in_int64 z = true ↔ is_int64 z.
Proof. unfold in_int64. by rewrite bool_decide_eq_true. Qed.

Lemma state_fields_ok t v :
  Z.of_nat (length (to_bytes v)) < 2 ^ 64 →
  Forall field_ok (int_field 1 t ++ bytes_field 2 (to_bytes v)).
Proof. intros. apply Forall_app. split; [apply int_field_ok|apply bytes_field_ok]; lia. Qed.

Lemma entry_fields_ok e :
  Z.of_nat (length (Cmd e)) < 2 ^ 64 →
  Forall field_ok (int_field 1 (Index e) ++ int_field 2 (Term e) ++ bytes_field 3 (Cmd e)).
Proof.
  intros. rewrite !Forall_app.
  split_and!; [apply int_field_ok|apply int_field_ok|apply bytes_field_ok]; lia.
Qed.

Lemma read_state t v :
  is_int64 t →
  let l := int_field 1 t ++ bytes_field 2 (to_bytes v) in
  get_int 1 l = t ∧ get_bytes 2 l = to_bytes v.
Proof.
  intros Ht. unfold int_field, bytes_field.
  destruct (Z.eqb_spec t 0) as [->|]; destruct (to_bytes v); cbn;
    rewrite ?wrap64_mod by done; done.
Qed.

Lemma read_entry i t c :
  is_int64 i → is_int64 t →
  let l := int_field 1 i ++ int_field 2 t ++ bytes_field 3 c in
  get_int 1 l = i ∧ get_int 2 l = t ∧ get_bytes 3 l = c.
Proof.
  intros Hi Ht. unfold int_field, bytes_field.
  destruct (Z.eqb_spec i 0) as [->|], (Z.eqb_spec t 0) as [->|]; destruct c; cbn;
    rewrite ?wrap64_mod by done; done.
Qed.

Lemma wire_unmarshal_one k b :
  field_ok (k, b) →
  proto_Unmarshal (put_fields [(k, b)]) = record_of_fields [(k, b)].
Proof. intros H. cbn. rewrite get_put_fields; [done|by apply Forall_singleton|done]. Qed.

#[export] Instance wire_codec_laws : ProtoCodecLaws.
Proof.
  split; intros r b; cbn [proto_Marshal wire_codec];
    destruct (record_in_range r) eqn:Hr; cbn [andb]; try done;
    destruct (Z.ltb_spec (Z.of_nat (length (put_fields (record_fields r)))) (2 ^ 31))
      as [Hlen|]; try done; intros [= <-]; [|done].
  destruct r as [|t v|e|i]; cbn [record_fields record_in_range] in *.
  - done.
  - apply in_int64_spec in Hr.
    pose proof (bytes_field_length 2 (to_bytes v)) as Hv.
    pose proof (put_field_bytes_length 1
      (put_fields (int_field 1 t ++ bytes_field 2 (to_bytes v)))) as Hp.
    unfold put_fields at 1 in Hlen. cbn [map concat] in Hlen. rewrite app_nil_r in Hlen.
    rewrite length_put_fields_app in Hp.
    rewrite wire_unmarshal_one
      by (split; [simpl; lia|]; cbn [snd]; rewrite length_put_fields_app; lia).
    cbn [record_of_fields]. rewrite get_put_fields by (try apply state_fields_ok; lia).
    cbn. destruct (read_state t v Hr) as [-> ->].
    unfold of_bytes, to_bytes. by rewrite String.string_of_list_byte_of_string.
  - apply andb_true_iff in Hr as [Hi%in_int64_spec Ht%in_int64_spec].
    pose proof (bytes_field_length 3 (Cmd e)) as Hv.
    pose proof (put_field_bytes_length 2 (put_fields
      (int_field 1 (Index e) ++ int_field 2 (Term e) ++ bytes_field 3 (Cmd e)))) as Hp.
    unfold put_fields at 1 in Hlen. cbn [map concat] in Hlen. rewrite app_nil_r in Hlen.
    rewrite !length_put_fields_app in Hp.
    rewrite wire_unmarshal_one
      by (split; [simpl; lia|]; cbn [snd]; rewrite !length_put_fields_app; lia).
    cbn [record_of_fields]. rewrite get_put_fields by (try apply entry_fields_ok; lia).
    cbn. destruct (read_entry _ _ (Cmd e) Hi Ht) as (-> & -> & ->). by destruct e.
  - apply in_int64_spec in Hr.
    rewrite wire_unmarshal_one
      by (split; [simpl; lia|]; apply Z.mod_pos_bound; lia).
    cbn. by rewrite wrap64_mod.
Qed.
