(* ===== verification/WalSpec.v ===== *)
(** * What the write-ahead log promises

    Appends and replay are inverse, a record torn by a crash is detected, and
    two places where the log is weaker than it means to be. *)

From S2P Require Import Prelude Types Json Disk Wal ProtoWire.

Section WalAppend.
Context `{!ProtoCodec} `{!ProtoCodecLaws}.

Lemma writeRecord_healthy w r d body :
  healthy d → wal_file w = FileOpen → proto_Marshal r = Some body →
  writeRecord w r d =
    (None, d <| files ::= insert (wal_path w) (content d (wal_path w) ++ frame body) |>).
Proof.
  intros Hd Hw Hm. unfold writeRecord. rewrite Hm, Hw, os_write_healthy by done.
  unfold os_nop. by rewrite os_call_healthy.
Qed.

(** A record appended to a log of records. *)
Lemma writeRecord_encodes w r d body rs :
  healthy d → wal_file w = FileOpen → proto_Marshal r = Some body →
  encodes (content d (wal_path w)) rs →
  ∃ d', writeRecord w r d = (None, d') ∧ healthy d' ∧
    encodes (content d' (wal_path w)) (rs ++ [r]) ∧
    (∀ p, p ≠ wal_path w → files d' !! p = files d !! p).
Proof.
  intros Hd Hw Hm Henc. eexists. split; [by apply writeRecord_healthy|].
  split_and!; [done| |].
  - rewrite content_insert, decide_True by done. by constructor.
  - intros p Hp. rsimpl. by rewrite lookup_insert_ne.
Qed.

Lemma Replay_healthy w d :
  healthy d → wal_file w = FileOpen →
  Replay w d = (replay (content d (wal_path w)), d).
Proof.
  intros Hd Hw. unfold Replay, os_nop. rewrite Hw, os_call_healthy by done.
  rewrite os_read_healthy by done. unfold content. by destruct d.
Qed.

(** Reading stops with an error inside a frame whose header was written. *)
Lemma replay_torn_body body k st f :
  Z.of_nat (length body) < 2 ^ 32 → (4 ≤ k < length (frame body))%nat →
  (∃ e, replay_loop (S f) (take k (frame body)) st = Some (Err e)).
Proof.
  intros Hlen Hk. rewrite length_frame in Hk. unfold frame.
  rewrite Z.mod_small by lia.
  pose proof (get_put_uint32 (Z.of_nat (length body)) ltac:(lia)) as Hg.
  set (a := put_uint32 (Z.of_nat (length body))) in *.
  set (c := put_uint32 (ChecksumIEEE body)) in *.
  assert (Ha : length a = 4%nat) by done. assert (Hcl : length c = 4%nat) by done.
  clearbody a c. rewrite take_app_ge by lia. cbn [replay_loop].
  rewrite bool_decide_eq_false_2 by (rewrite length_app, length_take; lia).
  rewrite (take_app_length' a), (drop_app_length' a) by done.
  case_bool_decide as H1; [eauto|].
  rewrite length_take, length_app in H1. rewrite take_app_ge by lia.
  rewrite !(take_app_length' c), !(drop_app_length' c) by done.
  rewrite Hg, bool_decide_eq_true_2; [eauto|]. rewrite length_take. lia.
Qed.
End WalAppend.

(** C22. Durability of an append.  On a disk that works, appending a record to
    a log that holds the records [rs] succeeds, touches no other file, and a
    replay of the file from the start gives the state of [rs] followed by the
    new record. *)
Theorem append_then_replay `{!ProtoCodec} `{!ProtoCodecLaws} w r d body rs :
  healthy d → wal_file w = FileOpen → proto_Marshal r = Some body →
  encodes (content d (wal_path w)) rs →
  ∃ d', writeRecord w r d = (None, d') ∧
    (Replay w d').1 = Some (Ok (apply_record (run_records rs) r)) ∧
    (∀ p, p ≠ wal_path w → files d' !! p = files d !! p).
Proof.
  intros Hd Hw Hm Henc.
  destruct (writeRecord_encodes w r d body rs) as (d' & He & Hd' & Henc' & Hp); [done..|].
  exists d'. split_and!; [done| |done].
  rewrite Replay_healthy by done. simpl.
  rewrite (replay_encodes _ _ Henc'). unfold run_records. by rewrite foldl_app.
Qed.

Definition wal0 : WAL := mkWAL FileOpen "data/wal.log".
Definition disk0 : Disk := mkDisk {["data/wal.log" := []]} [].

Example append_then_replay_witness :
  ∃ d', @writeRecord wire_codec wal0 (WAL_State 3 "n1") disk0 = (None, d') ∧
    (@Replay wire_codec wal0 d').1 = Some (Ok (3, "n1", [])) ∧
    (∀ p, p ≠ "data/wal.log" → files d' !! p = files disk0 !! p).
Proof.
  apply (@append_then_replay wire_codec wire_codec_laws wal0 (WAL_State 3 "n1") disk0
           (default [] (@proto_Marshal wire_codec (WAL_State 3 "n1"))) []).
  - reflexivity.
  - reflexivity.
  - vm_compute. reflexivity.
  - constructor.
Defined.

(** C23. A crash in the middle of an append leaves a prefix of one frame.  If
    fewer than four bytes of it were written, replay ignores them and gives
    the state before the append; with four or more, the header is read and
    replay stops with an error, so the node does not start. *)
Theorem torn_append `{!ProtoCodec} `{!ProtoCodecLaws} data rs r body k :
  encodes data rs → proto_Marshal r = Some body → (k < length (frame body))%nat →
  ((k < 4)%nat → replay (data ++ take k (frame body)) = Some (Ok (run_records rs))) ∧
  ((4 ≤ k)%nat → ∃ e, replay (data ++ take k (frame body)) = Some (Err e)).
Proof.
  intros Henc Hm Hk. apply proto_size in Hm.
  assert (Hr : replay (data ++ take k (frame body)) =
    replay_loop (S (length (take k (frame body)))) (take k (frame body)) (run_records rs)).
  { unfold replay. by rewrite (replay_loop_encodes _ _ _ _ _ Henc) by lia. }
  rewrite Hr. split; intros H4.
  - cbn [replay_loop]. by rewrite bool_decide_eq_true_2 by (rewrite length_take; lia).
  - apply replay_torn_body; lia.
Qed.

Definition body0 : bytes := default [] (@proto_Marshal wire_codec (WAL_State 3 "n1")).

Example torn_append_witness :
  ((9 < 4)%nat → @replay wire_codec ([] ++ take 9 (frame body0)) = Some (Ok (run_records []))) ∧
  ((4 ≤ 9)%nat → ∃ e, @replay wire_codec ([] ++ take 9 (frame body0)) = Some (Err e)).
Proof.
  apply (@torn_append wire_codec wire_codec_laws [] [] (WAL_State 3 "n1")).
  - constructor.
  - vm_compute. reflexivity.
  - vm_compute. lia.
Defined.

(** C35. Replay is total: on any content of the file it ends with a state or
    an error. *)
Theorem replay_total `{!ProtoCodec} (data : bytes) :
  ∃ res, replay data = Some res.
Proof.
  destruct (replay data) eqn:Hr; [eauto|]. exfalso.
  by apply (replay_loop_total (length data) data (0, "", []) (S (length data))) in Hr; [|lia..].
Qed.

(** The bytes of a torn header are ignored but left in the file: the next
    record is appended after them, and the file no longer replays. *)
Example torn_header_then_append :
  let torn := [x00]%byte in
  @replay wire_codec (frame body0 ++ torn) = Some (Ok (3, "n1", [])) ∧
  (∃ e, @replay wire_codec ((frame body0 ++ torn) ++ frame body0) = Some (Err e)).
Proof. split; [vm_compute; reflexivity|eexists; vm_compute; reflexivity]. Qed.
