(* ===== verification/JsonFacts.v ===== *)
(** * Round trips of the JSON layer

    A value written by [Marshal] is read back by [Unmarshal]: strings of
    valid UTF-8, integers, booleans, maps with such keys, and objects.  The
    interface between values and objects is [value_text]: a text that the
    scanner accepts in front of any delimiter. *)

From stdpp Require Import sorting.
From Stdlib Require Import Decimal DecimalFacts DecimalPos DecimalZ.
From S2P Require Import Prelude Types Config Json.

(** Valid UTF-8: a sequence of runes the decoder accepts. *)
Inductive utf8 : bytes → Prop :=
| utf8_nil : utf8 []
| utf8_rune r s :
    r ≠ [] → rune_size (r ++ s) = length r → utf8 s → utf8 (r ++ s).

Definition utf8_string (s : string) : Prop := utf8 (to_bytes s).

(** What follows a value inside an object, or the end of the text. *)
Definition delim (rest : bytes) : Prop :=
  match rest with
  | [] => True
  | b :: _ => b = ","%byte ∨ b = "}"%byte ∨ b = "]"%byte ∨ b = x0a
  end.

(** The text of one value: it starts with no white space and the scanner,
    with fuel for each of its bytes, stops right after it. *)
Record value_text (v : bytes) : Prop := {
  vt_start : ∃ b v', v = b :: v' ∧ is_ws b = false;
  vt_scan f rest : (length v < f)%nat → delim rest → skip_value f (v ++ rest) = Some rest
}.

(** ** Strings *)

Lemma rune_size_cases s n :
  rune_size s = S n →
  match s with
  | [] => False
  | b0 :: s' =>
      (n = 0%nat ∧ byte_to_Z b0 ≤ 127) ∨
      (127 < byte_to_Z b0 ∧ (n ≤ length s')%nat ∧ n ≠ 0%nat ∧
       Forall (λ b, 127 < byte_to_Z b ≤ 191) (take n s'))
  end.
Proof.
  unfold rune_size, cont, in_range.
  destruct s as [|b0 [|b1 [|b2 [|b3 s]]]]; [done|..];
    pose proof (byte_to_Z_bound b0);
    destruct (Z.leb_spec 0 (byte_to_Z b0)), (Z.leb_spec (byte_to_Z b0) 127);
    simpl; try lia; intros Hs;
    try (left; split; [congruence|lia]); right;
    repeat case_match; simplify_eq; try done;
    repeat match goal with
    | H : _ && _ = true |- _ => apply andb_true_iff in H as [? ?]
    | H : _ || _ = true |- _ => apply orb_true_iff in H as [?|?]
    | H : (_ <=? _) = true |- _ => apply Z.leb_le in H
    end; simpl; split_and!; try lia; repeat constructor; lia.
Qed.

#[global] Arguments rune_size : simpl never.
#[global] Arguments byte_to_Z : simpl never.

Lemma skip_string_high b s : 127 < byte_to_Z b → skip_string 0 (b :: s) = skip_string 0 s.
Proof. destruct b; (reflexivity || (intros Hb; exfalso; by vm_compute in Hb)). Qed.

Lemma skip_string_quote1 b s :
  byte_to_Z b ≤ 127 → skip_string 0 (quote1 b ++ s) = skip_string 0 s.
Proof.
  destruct b; (reflexivity || (intros Hb; exfalso; by apply Hb; vm_compute)).
Qed.

(** What the scanner of [quote_body] has still to copy or drop. *)
Definition pending_ok (p : pending) (s : bytes) : Prop :=
  match p with
  | PCopy n => (n ≤ length s)%nat ∧ Forall (λ b, 127 < byte_to_Z b ≤ 191) (take n s)
  | PDrop n => (n ≤ length s)%nat
  end.

(** The steps of [quote_body]. *)
Lemma quote_body_start p b s :
  (∀ n, p ≠ PCopy (S n)) → (∀ n, p ≠ PDrop (S n)) →
  quote_body p (b :: s) =
    match rune_size (b :: s) with
    | O => [x5c; "u"; "f"; "f"; "f"; "d"]%byte ++ quote_body (PCopy 0) s
    | S O => quote1 b ++ quote_body (PCopy 0) s
    | S n =>
        if is_line_sep (b :: s) then
          [x5c; "u"; "2"; "0"; "2"; hex_digit (byte_to_Z (nth 2 (b :: s) x00) - 160)]%byte
            ++ quote_body (PDrop n) s
        else b :: quote_body (PCopy n) s
    end.
Proof. intros H1 H2. destruct p as [[|n]|[|n]]; try done; [by destruct (H1 n)|by destruct (H2 n)]. Qed.

Lemma line_sep_cases s :
  is_line_sep s = true →
  ∃ c s', s = xe2 :: x80 :: c :: s' ∧ (c = xa8 ∨ c = xa9).
Proof.
  destruct s as [|b0 [|b1 [|b2 s]]]; [done|..];
    destruct b0; try done; destruct b1; try done; destruct b2; try done; eauto 6.
Qed.

Lemma skip_string_unicode a b c d s :
  is_hex a = true → is_hex b = true → is_hex c = true → is_hex d = true →
  skip_string 0 ([x5c; "u"; a; b; c; d]%byte ++ s) = skip_string 0 s.
Proof. intros Ha Hb Hc Hd. simpl. by rewrite Ha, Hb, Hc, Hd. Qed.

#[global] Arguments quote_body : simpl never.

Lemma skip_string_quote p s rest :
  pending_ok p s → skip_string 0 (quote_body p s ++ x22 :: rest) = Some rest.
Proof.
  revert p. induction s as [|b s IH]; intros p Hp; [by destruct p|].
  destruct p as [[|n]|[|n]].
  2:{ destruct Hp as [Hl Hf]. cbn [length take] in Hl, Hf. apply Forall_cons in Hf as [[Hb _] Hf].
      change (quote_body (PCopy (S n)) (b :: s)) with (b :: quote_body (PCopy n) s).
      cbn [app]. rewrite skip_string_high by done. apply IH. split; [lia|done]. }
  3:{ change (quote_body (PDrop (S n)) (b :: s)) with (quote_body (PDrop n) s).
      apply IH. simpl in *. lia. }
  all: rewrite quote_body_start by done; clear Hp.
  all: destruct (rune_size (b :: s)) as [|[|n]] eqn:Hr.
  1,4: rewrite <- (assoc_L (++)), skip_string_unicode by done; apply IH; split; [lia|constructor].
  1,3: rewrite <- (assoc_L (++)), skip_string_quote1; [apply IH; split; [lia|constructor]|];
       apply rune_size_cases in Hr; lia.
  all: destruct (is_line_sep (b :: s)) eqn:Hls.
  1,3: apply line_sep_cases in Hls as (c & s' & [= -> ->] & Hc);
    apply rune_size_cases in Hr; destruct Hr as [Hr|(_ & Hr & _)]; [lia|];
    rewrite <- (assoc_L (++)), skip_string_unicode; [|by destruct Hc as [-> | ->]..];
    apply IH; exact Hr.
  all: apply rune_size_cases in Hr; destruct Hr as [Hr|(Hb & Hl & _ & Hf)]; [lia|];
    cbn [app]; rewrite skip_string_high by done; apply IH; by split.
Qed.

Lemma value_text_quote s : value_text (quote s).
Proof.
  split; [by eexists _, _|]. intros f rest Hf _. unfold quote in *.
  destruct f as [|f]; [simpl in Hf; lia|]. simpl. rewrite <- (assoc_L (++)). simpl.
  apply skip_string_quote. split; [lia|constructor].
Qed.

(** ** Numbers and booleans *)

Lemma delim_not_digit rest : delim rest → skip_digits rest = rest.
Proof. destruct rest as [|b rest]; [done|]. intros [->|[->|[->| ->]]]; done. Qed.

Lemma delim_skip_frac rest : delim rest → skip_frac rest = Some rest.
Proof. destruct rest as [|b rest]; [done|]. intros [->|[->|[->| ->]]]; done. Qed.

Lemma skip_digits_uint d rest :
  delim rest → skip_digits (bytes_of_uint d ++ rest) = rest.
Proof. intros Hd. induction d; simpl; [by apply delim_not_digit|done..]. Qed.

(** A decimal without superfluous zeros. *)
Definition plain_uint (d : Decimal.uint) : Prop :=
  match d with Nil => False | D0 d => d = Nil | _ => True end.

Lemma nzhead_not_D0 d d' : nzhead d ≠ D0 d'.
Proof. induction d; simpl; done. Qed.

Lemma plain_uint_pos p : plain_uint (Pos.to_uint p).
Proof.
  pose proof (DecimalPos.Unsigned.to_uint_nonnil p) as Hn.
  assert (Hu : unorm (Pos.to_uint p) = Pos.to_uint p).
  { rewrite <- (DecimalPos.Unsigned.to_of (Pos.to_uint p)), DecimalPos.Unsigned.of_to; done. }
  destruct (Pos.to_uint p) as [|d| | | | | | | | |]; try done. simpl.
  unfold unorm in Hu. simpl in Hu. destruct (nzhead d) eqn:Hd; simplify_eq; try done.
  exfalso. by eapply nzhead_not_D0.
Qed.

Lemma skip_number_uint d rest :
  plain_uint d → delim rest → skip_number (bytes_of_uint d ++ rest) = Some rest.
Proof.
  intros Hp Hd. destruct d as [|d|d|d|d|d|d|d|d|d|d]; [done|..]; simpl in Hp.
  { subst d. by apply delim_skip_frac. }
  all: cbn -[skip_frac]; rewrite skip_digits_uint by done; by apply delim_skip_frac.
Qed.

Lemma skip_number_neg d rest :
  plain_uint d → delim rest → skip_number ("-"%byte :: bytes_of_uint d ++ rest) = Some rest.
Proof.
  intros Hp Hd. destruct d as [|d|d|d|d|d|d|d|d|d|d]; [done|..]; simpl in Hp.
  { subst d. by apply delim_skip_frac. }
  all: cbn -[skip_frac]; rewrite skip_digits_uint by done; by apply delim_skip_frac.
Qed.

Lemma value_text_int z : value_text (marshal_int z).
Proof.
  unfold marshal_int. destruct z as [|p|p]; simpl.
  - split; [by eexists _, _|]. intros [|f] rest Hf Hd; [simpl in Hf; lia|].
    by apply (delim_skip_frac rest).
  - pose proof (plain_uint_pos p) as Hp. split.
    + destruct (Pos.to_uint p); try done; by eexists _, _.
    + intros [|f] rest Hf Hd; [lia|]. rewrite <- (skip_number_uint (Pos.to_uint p) rest) by done.
      by destruct (Pos.to_uint p).
  - pose proof (plain_uint_pos p) as Hp. split; [by eexists _, _|].
    intros [|f] rest Hf Hd; [simpl in Hf; lia|].
    rewrite <- (skip_number_neg (Pos.to_uint p) rest) by done. done.
Qed.

Lemma value_text_bool b : value_text (marshal_bool b).
Proof.
  destruct b; (split; [by eexists _, _|]); intros [|f] rest Hf _; simpl in *; done || lia.
Qed.

Lemma uint_of_bytes_of_uint d : uint_of_bytes (bytes_of_uint d) = Some d.
Proof. induction d; simpl; [done|by rewrite IHd..]. Qed.

Lemma bytes_of_uint_not_minus d s : bytes_of_uint d ≠ "-"%byte :: s.
Proof. by destruct d. Qed.

Lemma parse_marshal_int z : is_int64 z → parse_int (marshal_int z) = Some z.
Proof.
  intros Hz. unfold parse_int, marshal_int.
  pose proof (DecimalZ.of_to z) as Hd. destruct (Z.to_int z) as [d|d].
  - destruct (bytes_of_uint d) as [|b s] eqn:Hb.
    + rewrite <- Hb, uint_of_bytes_of_uint. cbn [mbind option_bind]. rewrite Hd. by rewrite bool_decide_eq_true_2.
    + destruct (decide (b = "-"%byte)) as [->|Hne]; [by apply bytes_of_uint_not_minus in Hb|].
      replace (match b with "-"%byte => _ | _ => _ end) with
        (d0 ← uint_of_bytes (b :: s); Some (Z.of_int (Decimal.Pos d0))) by (by destruct b).
      rewrite <- Hb, uint_of_bytes_of_uint. cbn [mbind option_bind]. rewrite Hd. by rewrite bool_decide_eq_true_2.
  - rewrite uint_of_bytes_of_uint. cbn [mbind option_bind]. rewrite Hd. by rewrite bool_decide_eq_true_2.
Qed.

(** ** Objects *)

Lemma skip_ws_value v rest : value_text v → skip_ws (v ++ rest) = v ++ rest.
Proof. intros [(b & v' & -> & Hb) _]. simpl. by rewrite Hb. Qed.

Lemma length_quote s : (2 ≤ length (quote s))%nat.
Proof. unfold quote. simpl. rewrite length_app. simpl. lia. Qed.

Lemma skip_quote k rest :
  skip_string 0 (quote_body (PCopy 0) (to_bytes k) ++ x22 :: rest) = Some rest.
Proof. apply skip_string_quote. split; [lia|constructor]. Qed.

#[global] Arguments skip_string : simpl never.
#[global] Arguments skip_ws : simpl nomatch.

Lemma quote_app k rest :
  quote k ++ rest = x22 :: quote_body (PCopy 0) (to_bytes k) ++ x22 :: rest.
Proof. unfold quote. simpl. by rewrite <- (assoc_L (++)). Qed.

Lemma members_text_cons k v l :
  members_text ((k, v) :: l) =
    quote k ++ ":"%byte :: v ++ match l with [] => [] | _ => ","%byte :: members_text l end.
Proof. destruct l; simpl; [by rewrite app_nil_r|done]. Qed.

Lemma members_text_start kv l rest :
  ∃ s, members_text (kv :: l) ++ rest = x22 :: s.
Proof. destruct kv as [k v]. rewrite members_text_cons, <- (assoc_L (++)), quote_app. eauto. Qed.

(** One member and what follows it. *)
Lemma skip_members_text l f rest :
  l ≠ [] → Forall (λ kv, value_text kv.2) l → (length (members_text l) < f)%nat →
  skip_members f (members_text l ++ "}"%byte :: rest) = Some rest.
Proof.
  revert f. induction l as [|[k v] l IH]; intros f Hne Hv Hf; [done|]. clear Hne.
  apply Forall_cons in Hv as [Hv Hl]. simpl in Hv.
  rewrite members_text_cons in *. rewrite !length_app in Hf. cbn [length] in Hf.
  rewrite !length_app in Hf. pose proof (length_quote k).
  destruct f as [|f]; [lia|].
  rewrite <- (assoc_L (++)), quote_app. cbn [skip_members].
  rewrite skip_quote. simpl. rewrite <- (assoc_L (++)), skip_ws_value by done.
  destruct l as [|kv l].
  - simpl. by rewrite (vt_scan v Hv) by (simpl; auto; lia).
  - cbn [app]. rewrite (vt_scan v Hv) by (simpl; auto; lia).
    cbn [mbind option_bind]. cbn [skip_ws is_ws].
    destruct (members_text_start kv l ("}"%byte :: rest)) as [s Hs].
    replace (skip_ws (members_text (kv :: l) ++ "}"%byte :: rest)) with
      (members_text (kv :: l) ++ "}"%byte :: rest) by (by rewrite Hs).
    apply IH; [done|done|]. cbn [length] in Hf. lia.
Qed.

Lemma value_text_object l :
  Forall (λ kv, value_text kv.2) l → value_text (marshal_object l).
Proof.
  intros Hl. split; [by eexists _, _|]. intros [|f] rest Hf _; [simpl in Hf; lia|].
  unfold marshal_object in *. simpl in *. rewrite length_app in Hf. simpl in Hf.
  rewrite <- (assoc_L (++)). destruct l as [|kv l]; [done|].
  destruct (members_text_start kv l (["}"%byte] ++ rest)) as [s Hs].
  pose proof (skip_members_text (kv :: l) f rest) as Hskip.
  rewrite <- Hskip by (done || lia). cbn [app] in *. rewrite Hs. done.
Qed.

Lemma the_value_text v : value_text v → the_value v = Some v.
Proof.
  intros Hv. unfold the_value. pose proof (skip_ws_value v [] Hv) as Hw.
  rewrite app_nil_r in Hw. rewrite Hw.
  pose proof (vt_scan v Hv (S (length v)) [] ltac:(lia) I) as Hs. rewrite app_nil_r in Hs.
  rewrite Hs. simpl. by rewrite Nat.sub_0_r, firstn_all.
Qed.

(** The members read back: the key as it was written, the value's text. *)
Definition written (kv : string * bytes) : bytes * bytes :=
  (quote_body (PCopy 0) (to_bytes kv.1), kv.2).

Lemma take_app_sub {A} (a b : list A) : take (length (a ++ b) - length b) (a ++ b) = a.
Proof. rewrite length_app. rewrite take_app_le by lia. apply take_ge. lia. Qed.

Lemma read_members_text l f rest :
  l ≠ [] → Forall (λ kv, value_text kv.2) l → (length (members_text l) < f)%nat →
  read_members f (members_text l ++ "}"%byte :: rest) = Some (map written l).
Proof.
  revert f. induction l as [|[k v] l IH]; intros f Hne Hv Hf; [done|]. clear Hne.
  apply Forall_cons in Hv as [Hv Hl]. simpl in Hv.
  rewrite members_text_cons in *. rewrite !length_app in Hf. cbn [length] in Hf.
  rewrite !length_app in Hf. pose proof (length_quote k).
  destruct f as [|f]; [lia|].
  rewrite <- (assoc_L (++)), quote_app. cbn [read_members].
  rewrite skip_quote. cbn [mbind option_bind].
  set (Q := quote_body (PCopy 0) (to_bytes k)).
  match goal with |- context [take (length (Q ++ x22 :: ?R) - length ?R - 1)] =>
    replace (take (length (Q ++ x22 :: R) - length R - 1) (Q ++ x22 :: R)) with Q end.
  2:{ rewrite length_app. cbn [length]. rewrite take_app_le by lia. rewrite take_ge; [done|lia]. }
  simpl skip_ws. cbn [app]. rewrite <- (assoc_L (++)), skip_ws_value by done.
  destruct l as [|kv l].
  - cbn [app]. rewrite (vt_scan v Hv) by (rewrite ?length_app; simpl; auto; lia).
    cbn [mbind option_bind]. rewrite take_app_sub. done.
  - cbn [app]. rewrite (vt_scan v Hv) by (rewrite ?length_app; simpl; auto; lia).
    cbn [mbind option_bind]. rewrite take_app_sub. cbn [skip_ws is_ws].
    destruct (members_text_start kv l ("}"%byte :: rest)) as [s Hs].
    replace (skip_ws (members_text (kv :: l) ++ "}"%byte :: rest)) with
      (members_text (kv :: l) ++ "}"%byte :: rest) by (by rewrite Hs).
    rewrite IH; [done|done|done|]. cbn [length] in Hf. lia.
Qed.

Lemma object_members_marshal l :
  Forall (λ kv, value_text kv.2) l →
  object_members (marshal_object l) = Some (map written l).
Proof.
  intros Hl. unfold object_members, marshal_object. destruct l as [|kv l]; [done|].
  destruct (members_text_start kv l ["}"%byte]) as [s Hs].
  pose proof (read_members_text (kv :: l) (S (length (members_text (kv :: l) ++ ["}"%byte])))
    [] ltac:(done) Hl ltac:(rewrite length_app; simpl; lia)) as Hr.
  rewrite Hs in *. exact Hr.
Qed.

(** ** Compaction of a text that [Marshal] wrote *)

(** [compact] copies the text. *)
Definition compact_text (v : bytes) : Prop :=
  ∀ rest, compact 6 (v ++ rest) = v ++ compact 6 rest.

Lemma compact_high b s :
  127 < byte_to_Z b → b ≠ xe2 → compact 0 (b :: s) = b :: compact 0 s.
Proof. intros Hb Hne. by destruct b; try reflexivity; exfalso; vm_compute in Hb. Qed.

Lemma compact_quote1 b s :
  byte_to_Z b ≤ 127 → compact 0 (quote1 b ++ s) = quote1 b ++ compact 0 s.
Proof.
  destruct b; (reflexivity || (intros Hb; exfalso; by apply Hb; vm_compute)).
Qed.

Lemma rune_size_e2 s n :
  rune_size (xe2 :: s) = S (S n) → ∃ b1 b2 s', s = b1 :: b2 :: s' ∧ n = 1%nat.
Proof.
  destruct s as [|b1 [|b2 s]]; [done|..].
  - unfold rune_size. simpl. done.
  - intros H. exists b1, b2, s. split; [done|]. revert H. unfold rune_size.
    change (in_range 0 127 xe2) with false. change (in_range 194 223 xe2) with false.
    change (in_range 240 240 xe2) with false. change (in_range 241 243 xe2) with false.
    change (in_range 244 244 xe2) with false. cbn [andb orb].
    rewrite !orb_false_r. repeat case_match; intros Hn; simplify_eq; try done.
    all: rewrite ?andb_false_r in *; done.
Qed.

Lemma compact_0_cons b s :
  compact 0 (b :: s) =
    match b, s with
    | xe2, x80 :: xa8 :: s'' => [x5c; "u"; "2"; "0"; "2"; "8"]%byte ++ compact 0 s''
    | xe2, x80 :: xa9 :: s'' => [x5c; "u"; "2"; "0"; "2"; "9"]%byte ++ compact 0 s''
    | x22, _ => b :: compact 6 s
    | x5c, _ => b :: compact 1 s
    | "<"%byte, _ | ">"%byte, _ | "&"%byte, _ => quote1 b ++ compact 0 s
    | _, _ => b :: compact 0 s
    end.
Proof. done. Qed.

Lemma compact_e2 b1 b2 s :
  is_line_sep (xe2 :: b1 :: b2 :: s) = false →
  compact 0 (xe2 :: b1 :: b2 :: s) = xe2 :: compact 0 (b1 :: b2 :: s).
Proof.
  intros H. rewrite compact_0_cons. generalize (compact 0 (b1 :: b2 :: s)). intros l.
  destruct (decide (b1 = x80)) as [->|Hne]; [|by destruct b1].
  destruct (decide (b2 = xa8)) as [->|Ha]; [done|].
  destruct (decide (b2 = xa9)) as [->|Hb]; [done|]. by destruct b2.
Qed.

#[global] Arguments compact : simpl never.

Lemma compact_quote_body p s rest :
  pending_ok p s →
  compact 0 (quote_body p s ++ x22 :: rest) = quote_body p s ++ x22 :: compact 6 rest.
Proof.
  revert p. induction s as [|b s IH]; intros p Hp; [by destruct p|].
  destruct p as [[|n]|[|n]].
  2:{ destruct Hp as [Hl Hf]. cbn [length take] in Hl, Hf. apply Forall_cons in Hf as [Hb Hf].
      change (quote_body (PCopy (S n)) (b :: s)) with (b :: quote_body (PCopy n) s).
      cbn [app]. rewrite compact_high; [|lia|intros ->; change (byte_to_Z xe2) with 226 in Hb; lia].
      rewrite IH; [done|]. split; [lia|done]. }
  3:{ change (quote_body (PDrop (S n)) (b :: s)) with (quote_body (PDrop n) s).
      apply IH. simpl in *. lia. }
  all: rewrite quote_body_start by done; clear Hp.
  all: destruct (rune_size (b :: s)) as [|[|n]] eqn:Hr.
  1,4: rewrite <- !(assoc_L (++)); transitivity ([x5c; "u"; "f"; "f"; "f"; "d"]%byte ++
    compact 0 (quote_body (PCopy 0) s ++ x22 :: rest)); [reflexivity|];
    rewrite IH; [done|split; [lia|constructor]].
  1,3: rewrite <- !(assoc_L (++)), compact_quote1;
       [rewrite IH; [done|split; [lia|constructor]]|apply rune_size_cases in Hr; lia].
  all: destruct (is_line_sep (b :: s)) eqn:Hls.
  1,3: apply line_sep_cases in Hls as (c & s' & [= -> ->] & Hc);
    apply rune_size_cases in Hr; destruct Hr as [Hr|(_ & Hr & _)]; [lia|];
    rewrite <- !(assoc_L (++)); rewrite <- IH by exact Hr;
    by destruct Hc as [-> | ->].
  all: destruct (decide (b = xe2)) as [->|Hne].
  1,3: destruct (rune_size_e2 _ _ Hr) as (b1 & b2 & s' & -> & ->);
    apply rune_size_cases in Hr; destruct Hr as [Hr|(Hb & Hl & _ & Hf)]; [lia|];
    pose proof (IH (PCopy 2) (conj Hl Hf)) as IH';
    change (quote_body (PCopy 2) (b1 :: b2 :: s')) with (b1 :: b2 :: quote_body (PCopy 0) s') in *;
    cbn [app] in *; rewrite compact_e2; [by rewrite IH'|done].
  all: apply rune_size_cases in Hr; destruct Hr as [Hr|(Hb & Hl & _ & Hf)]; [lia|];
    cbn [app]; rewrite compact_high by done; rewrite IH; [done|by split].
Qed.

Lemma compact_text_app v1 v2 : compact_text v1 → compact_text v2 → compact_text (v1 ++ v2).
Proof. intros H1 H2 rest. by rewrite <- !(assoc_L (++)), H1, H2. Qed.

Lemma compact_6_cons b s :
  compact 6 (b :: s) =
    if is_ws b then compact 6 s
    else b :: compact (match b with x22 => 0 | _ => 6 end)%nat s.
Proof. done. Qed.

Lemma compact_text_byte b : is_ws b = false → b ≠ x22 → compact_text [b].
Proof.
  intros Hb Hne rest. cbn [app]. rewrite compact_6_cons, Hb. clear Hb.
  assert (match b with x22 => 0 | _ => 6 end = 6)%nat as ->; [|done].
  destruct b; first [reflexivity | by destruct Hne].
Qed.

Lemma compact_text_quote s : compact_text (quote s).
Proof.
  intros rest. rewrite quote_app, compact_6_cons. cbn [is_ws].
  rewrite compact_quote_body by (split; [lia|constructor]).
  unfold quote. cbn [app]. by rewrite <- (assoc_L (++)).
Qed.

Lemma compact_text_uint d : compact_text (bytes_of_uint d).
Proof.
  induction d; [done|..]; simpl;
    (match goal with |- compact_text (?b :: ?s) => apply (compact_text_app [b] s) end;
     [by apply compact_text_byte|done]).
Qed.

Lemma compact_text_int z : compact_text (marshal_int z).
Proof.
  unfold marshal_int. destruct (Z.to_int z) as [d|d]; [apply compact_text_uint|].
  apply (compact_text_app ["-"%byte]); [by apply compact_text_byte|apply compact_text_uint].
Qed.

Lemma compact_text_bool b : compact_text (marshal_bool b).
Proof. by destruct b. Qed.

Lemma compact_text_members l :
  Forall (λ kv, compact_text kv.2) l → compact_text (members_text l).
Proof.
  induction 1 as [|[k v] l Hv Hl IH]; [done|]. rewrite members_text_cons.
  apply compact_text_app; [apply compact_text_quote|].
  apply (compact_text_app [":"%byte]); [by apply compact_text_byte|].
  apply compact_text_app; [done|]. destruct l; [done|].
  apply (compact_text_app [","%byte]); [by apply compact_text_byte|done].
Qed.

Lemma compact_text_object l :
  Forall (λ kv, compact_text kv.2) l → compact_text (marshal_object l).
Proof.
  intros Hl. unfold marshal_object.
  apply (compact_text_app ["{"%byte]); [by apply compact_text_byte|].
  apply compact_text_app; [by apply compact_text_members|]. by apply compact_text_byte.
Qed.

Lemma compact_text_id v : compact_text v → compact 6 v = v.
Proof. intros H. specialize (H []). by rewrite !app_nil_r in H. Qed.

(** ** Reading strings back *)

Lemma rune_size_le4 s : (rune_size s ≤ 4)%nat.
Proof. unfold rune_size. repeat case_match; lia. Qed.

Lemma rune_size_prefix r s q :
  r ≠ [] → rune_size (r ++ s) = length r → rune_size (r ++ q) = length r.
Proof.
  intros Hr H. pose proof (rune_size_le4 (r ++ s)) as H4. rewrite H in H4.
  destruct r as [|b0 [|b1 [|b2 [|b3 [|? ?]]]]]; simpl in *; [done| | | | |lia];
    revert H; unfold rune_size; repeat case_match; simplify_eq; try done.
Qed.

Lemma unquote_quote1 b q :
  byte_to_Z b ≤ 127 → unquote 0 (quote1 b ++ q) = b :: unquote 0 q.
Proof. destruct b; (reflexivity || (intros Hb; exfalso; by apply Hb; vm_compute)). Qed.

#[global] Arguments unquote : simpl never.

Lemma unquote_copy r q : unquote (length r) (r ++ q) = r ++ unquote 0 q.
Proof.
  induction r as [|b r IH]; [done|]. cbn [length app].
  change (unquote (S (length r)) (b :: r ++ q)) with (b :: unquote (length r) (r ++ q)).
  by rewrite IH.
Qed.

Lemma unquote_0_plain b s :
  b ≠ x5c →
  unquote 0 (b :: s) =
    match rune_size (b :: s) with
    | O => [xef; xbf; xbd] ++ unquote 0 s
    | S n => b :: unquote n s
    end.
Proof. intros Hb. destruct b; first [reflexivity | by destruct Hb]. Qed.

Lemma unquote_high b q n :
  127 < byte_to_Z b → rune_size (b :: q) = S n → unquote 0 (b :: q) = b :: unquote n q.
Proof. intros Hb Hn. rewrite unquote_0_plain; [by rewrite Hn|by intros ->]. Qed.

Lemma quote_body_drop0 s : quote_body (PDrop 0) s = quote_body (PCopy 0) s.
Proof. by destruct s. Qed.

Lemma quote_body_copy r s :
  quote_body (PCopy (length r)) (r ++ s) = r ++ quote_body (PCopy 0) s.
Proof.
  induction r as [|b r IH]; [done|]. cbn [length app].
  change (quote_body (PCopy (S (length r))) (b :: r ++ s))
    with (b :: quote_body (PCopy (length r)) (r ++ s)). by rewrite IH.
Qed.

Lemma unquote_quote_body s : utf8 s → unquote 0 (quote_body (PCopy 0) s) = s.
Proof.
  induction 1 as [|r s Hr Hsize _ IH]; [done|].
  destruct r as [|b r]; [done|]. cbn [app] in *. rewrite quote_body_start by done.
  rewrite Hsize. pose proof Hsize as Hc. cbn [length] in Hc. apply rune_size_cases in Hc.
  destruct r as [|b1 r]; cbn [length].
  - destruct Hc as [[_ Hb]|(_ & _ & Hn & _)]; [|done]. cbn [app].
    by rewrite unquote_quote1, IH.
  - destruct Hc as [[Hc _]|(Hb & _ & _ & _)]; [simpl in Hc; lia|].
    destruct (is_line_sep (b :: (b1 :: r) ++ s)) eqn:Hls.
    + apply line_sep_cases in Hls as (c & s' & Heq & Hc). simpl in Heq.
      injection Heq as -> -> Heq.
      assert (length r = 1%nat) as Hl.
      { destruct (rune_size_e2 _ _ Hsize) as (x1 & x2 & s2 & _ & Hn). exact Hn. }
      destruct r as [|b2 [|? ?]]; try done. simpl in Heq. injection Heq as -> <-.
      transitivity (xe2 :: x80 :: c :: unquote 0 (quote_body (PDrop 0) s)).
      { by destruct Hc as [-> | ->]. }
      by rewrite quote_body_drop0, IH.
    + change (S (length r)) with (length (b1 :: r)).
      change (b1 :: r ++ s) with ((b1 :: r) ++ s). rewrite quote_body_copy.
      erewrite unquote_high; [|done|].
      2:{ apply (rune_size_prefix (b :: b1 :: r) s); done. }
      rewrite (unquote_copy (b1 :: r)), IH. done.
Qed.

Lemma of_to_bytes s : of_bytes (to_bytes s) = s.
Proof. apply String.string_of_list_byte_of_string. Qed.

Lemma dec_string_quote old s : utf8_string s → dec_string old (quote s) = Some s.
Proof.
  intros Hs. unfold dec_string, is_null, quote. rewrite bool_decide_eq_false_2 by done.
  cbn [string_lit]. rewrite length_app. cbn [length].
  rewrite take_app_le by lia. rewrite take_ge by lia.
  by rewrite unquote_quote_body, of_to_bytes.
Qed.

Lemma is_null_int z : is_null (marshal_int z) = false.
Proof.
  unfold is_null. apply bool_decide_eq_false_2. unfold marshal_int.
  by destruct (Z.to_int z) as [[]|].
Qed.

Lemma dec_int_marshal old z : is_int64 z → dec_int old (marshal_int z) = Some z.
Proof. intros Hz. unfold dec_int. by rewrite is_null_int, parse_marshal_int. Qed.

Lemma dec_bool_marshal old b : dec_bool old (marshal_bool b) = Some b.
Proof. by destruct b. Qed.

Lemma dec_struct_object {S} (fields : list (@field_dec S)) st l :
  Forall (λ kv, value_text kv.2) l →
  dec_struct fields st (marshal_object l) = store_members fields st (map written l).
Proof. intros Hl. unfold dec_struct. simpl is_null. by rewrite object_members_marshal. Qed.

Lemma unmarshal_object {S} (fields : list (@field_dec S)) st l :
  Forall (λ kv, value_text kv.2) l →
  unmarshal fields st (marshal_object l) = store_members fields st (map written l).
Proof.
  intros Hl. unfold unmarshal. rewrite the_value_text by by apply value_text_object.
  by apply dec_struct_object.
Qed.

(** ** Maps *)

Lemma sorted_members_perm {V} (m : gmap string V) : sorted_members m ≡ₚ map_to_list m.
Proof. apply merge_sort_Permutation. Qed.

Definition insert_all {V} (m : gmap string V) (l : list (string * V)) : gmap string V :=
  foldl (λ m kv, <[kv.1 := kv.2]> m) m l.

Lemma insert_all_union {V} (m : gmap string V) l :
  NoDup l.*1 → insert_all m l = list_to_map l ∪ m.
Proof.
  revert m. induction l as [|[k v] l IH]; intros m Hnd; simpl.
  - by rewrite (left_id_L ∅ (∪)).
  - apply NoDup_cons in Hnd as [Hk Hnd]. change (foldl _ _ _) with (insert_all (<[k:=v]> m) l).
    rewrite IH by done. rewrite <- insert_union_l. symmetry. apply insert_union_r.
    by apply not_elem_of_list_to_map_1.
Qed.

Lemma insert_all_sorted {V} (m : gmap string V) : insert_all ∅ (sorted_members m) = m.
Proof.
  assert (Hnd : NoDup (sorted_members m).*1).
  { rewrite (sorted_members_perm m). apply NoDup_fst_map_to_list. }
  rewrite insert_all_union by done. rewrite (right_id_L ∅ (∪)).
  rewrite <- (list_to_map_to_list m) at 2. apply list_to_map_proper; [done|].
  apply sorted_members_perm.
Qed.

Lemma store_map_written {V} (enc : V → bytes) (dec : bytes → option V) m l :
  Forall (λ kv, utf8_string kv.1 ∧ dec (enc kv.2) = Some kv.2) l →
  store_map dec m (map written (map (λ kv, (kv.1, enc kv.2)) l)) = Some (insert_all m l).
Proof.
  intros Hl. revert m. induction Hl as [|[k v] l [Hk Hv] _ IH]; intros m; [done|].
  simpl in *. rewrite Hv. simpl. unfold written at 1. simpl.
  by rewrite unquote_quote_body, of_to_bytes, IH.
Qed.

Lemma value_text_map {V} (enc : V → bytes) (m : gmap string V) :
  (∀ v, value_text (enc v)) → value_text (marshal_map enc m).
Proof.
  intros He. apply value_text_object, Forall_map, Forall_true. intros. apply He.
Qed.

Lemma compact_text_map {V} (enc : V → bytes) (m : gmap string V) :
  (∀ v, compact_text (enc v)) → compact_text (marshal_map enc m).
Proof.
  intros He. apply compact_text_object, Forall_map, Forall_true. intros. apply He.
Qed.

Lemma dec_map_marshal {V} (enc : V → bytes) (dec : bytes → option V) (m : gmap string V) :
  (∀ v, value_text (enc v)) →
  map_Forall (λ k v, utf8_string k ∧ dec (enc v) = Some v) m →
  dec_map dec ∅ (marshal_map enc m) = Some m.
Proof.
  intros He Hm. unfold dec_map, marshal_map. simpl is_null. cbv iota.
  rewrite object_members_marshal.
  2:{ apply Forall_map, Forall_true. intros. apply He. }
  cbn [mbind option_bind]. rewrite store_map_written; [by rewrite insert_all_sorted|].
  rewrite (sorted_members_perm m). apply map_Forall_to_list in Hm.
  eapply Forall_impl; [exact Hm|]. by intros [k v].
Qed.

(** Maps of valid strings. *)
Definition utf8_map (m : gmap string string) : Prop :=
  map_Forall (λ k v, utf8_string k ∧ utf8_string v) m.

Lemma dec_string_map_marshal m :
  utf8_map m → dec_map (dec_string "") ∅ (marshal_map quote m) = Some m.
Proof.
  intros Hm. apply dec_map_marshal; [apply value_text_quote|].
  eapply map_Forall_impl; [exact Hm|]. simpl. intros k v [Hk Hv].
  split; [done|by apply dec_string_quote].
Qed.

(** ** Structs *)

(** Finds the field of each member by computing its name. *)
Ltac find_fields :=
  repeat match goal with
  | |- context [same_name ?a ?b] =>
      let v := eval vm_compute in (same_name a b) in
      change (same_name a b) with v; cbv iota
  end.
