(* ===== verification/SnapshotStore.v ===== *)
(** * Snapshot files: [storage/snapshot.go]

    A snapshot is written to a temporary file that then takes the place of
    the old one, and read back as the first JSON value of the file. *)

From S2P Require Import Prelude Types Config Json Envelope Disk.

(** [type ClusterConfigSnapshot struct]: the fields and tags of
    [ClusterConfig]. *)
Abbreviation ClusterConfigSnapshot := ClusterConfig.

(** [type DedupEntry struct] *)
Record DedupEntry := mkDedupEntry {
  LastAppliedRequestID : Z;
  Response : string;
  Status : string
}.

(** [type Snapshot struct] *)
Record Snapshot := mkSnapshot {
  snap_LastIncludedIndex : Z;
  snap_LastIncludedTerm : Z;
  KVState : gmap string string;
  snap_ClusterConfig : option ClusterConfigSnapshot;
  DedupTable : gmap string DedupEntry
}.

#[export] Instance DedupEntry_eq_dec : EqDecision DedupEntry.
Proof. solve_decision. Defined.
#[export] Instance Snapshot_eq_dec : EqDecision Snapshot.
Proof. solve_decision. Defined.
#[export] Instance eta_DedupEntry : Eta DedupEntry := λ e,
  mkDedupEntry (LastAppliedRequestID e) (Response e) (Status e).
#[export] Instance eta_Snapshot : Eta Snapshot := λ s,
  mkSnapshot (snap_LastIncludedIndex s) (snap_LastIncludedTerm s) (KVState s)
    (snap_ClusterConfig s) (DedupTable s).

Definition zero_DedupEntry : DedupEntry := mkDedupEntry 0 "" "".
Definition zero_Snapshot : Snapshot := mkSnapshot 0 0 ∅ None ∅.

(** ** JSON, by the field tags *)

Definition marshal_DedupEntry (e : DedupEntry) : bytes :=
  marshal_object
    [("last_applied_request_id", marshal_int (LastAppliedRequestID e));
     ("response", quote (Response e)); ("status", quote (Status e))].

Definition DedupEntry_fields : list (@field_dec DedupEntry) :=
  [("last_applied_request_id", λ e v,
      x ← dec_int (LastAppliedRequestID e) v; Some (e <| LastAppliedRequestID := x |>));
   ("response", λ e v, x ← dec_string (Response e) v; Some (e <| Response := x |>));
   ("status", λ e v, x ← dec_string (Status e) v; Some (e <| Status := x |>))].

Definition marshal_Snapshot (s : Snapshot) : bytes :=
  marshal_object
    ([("last_included_index", marshal_int (snap_LastIncludedIndex s));
      ("last_included_term", marshal_int (snap_LastIncludedTerm s));
      ("kv_state", marshal_map quote (KVState s))]
     ++ match snap_ClusterConfig s with
        | None => []
        | Some c => [("cluster_config", marshal_ClusterConfig c)]
        end
     ++ omitempty (bool_decide (DedupTable s = ∅)) "dedup_table"
          (marshal_map marshal_DedupEntry (DedupTable s))).

Definition Snapshot_fields : list (@field_dec Snapshot) :=
  [("last_included_index", λ s v,
      x ← dec_int (snap_LastIncludedIndex s) v; Some (s <| snap_LastIncludedIndex := x |>));
   ("last_included_term", λ s v,
      x ← dec_int (snap_LastIncludedTerm s) v; Some (s <| snap_LastIncludedTerm := x |>));
   ("kv_state", λ s v, x ← dec_string_map (KVState s) v; Some (s <| KVState := x |>));
   ("cluster_config", λ s v,
      x ← dec_ptr ClusterConfig_fields zero_ClusterConfig (snap_ClusterConfig s) v;
      Some (s <| snap_ClusterConfig := x |>));
   ("dedup_table", λ s v,
      x ← dec_map (dec_struct DedupEntry_fields zero_DedupEntry) (DedupTable s) v;
      Some (s <| DedupTable := x |>))].

Definition unmarshal_Snapshot (b : bytes) : option Snapshot :=
  unmarshal Snapshot_fields zero_Snapshot b.

(** [json.Encoder.Encode]: the value and a newline. *)
Definition encode_Snapshot (s : Snapshot) : bytes := marshal_Snapshot s ++ [x0a].

(** [json.Decoder.Decode]: the first value of the stream. *)
Definition first_value (s : bytes) : option bytes :=
  let s := skip_ws s in
  r ← skip_value (S (length s)) s; Some (take (length s - length r) s).

Definition decode_Snapshot (b : bytes) : option Snapshot :=
  v ← first_value b; dec_struct Snapshot_fields zero_Snapshot v.

(** ** The file *)

Definition tmpPath (path : string) : string := path +:+ ".tmp".

(** The deferred call, when [file] is not nil. *)
Definition discard_tmp (tmp : string) (d : Disk) : Disk :=
  let d := (os_nop d).2 in (os_remove tmp d).2.

(** [func SaveSnapshot(path string, snap Snapshot) error] *)
Definition SaveSnapshot (path : string) (snap : Snapshot) (d : Disk)
    : option string * Disk :=
  match os_nop d with (* os.MkdirAll *)
  | (Some e, d) => (Some ("failed to create snapshot directory: " +:+ e), d)
  | (None, d) =>
  let tmp := tmpPath path in
  match os_create_trunc tmp d with
  | (Some e, d) => (Some ("failed to open temp snapshot file: " +:+ e), d)
  | (None, d) =>
  match os_write tmp (encode_Snapshot snap) d with
  | (Some e, d) => (Some ("failed to encode snapshot: " +:+ e), discard_tmp tmp d)
  | (None, d) =>
  match os_nop d with (* file.Sync *)
  | (Some e, d) => (Some ("failed to sync snapshot file: " +:+ e), discard_tmp tmp d)
  | (None, d) =>
  match os_nop d with (* file.Close *)
  | (Some e, d) => (Some ("failed to close snapshot file: " +:+ e), discard_tmp tmp d)
  | (None, d) =>
  match os_rename tmp path d with
  | (Some e, d) => (Some ("failed to commit snapshot file atomically: " +:+ e), d)
  | (None, d) => (None, d)
  end end end end end end.

(** [func LoadSnapshot(path string)]: [Ok None] when there is no file. *)
Definition LoadSnapshot (path : string) (d : Disk) : result (option Snapshot) * Disk :=
  match os_read path d with
  | (Err e, d) => (Err ("failed to open snapshot file: " +:+ e), d)
  | (Ok None, d) => (Ok None, d)
  | (Ok (Some b), d) =>
      match decode_Snapshot b with
      | None => (Err "failed to decode snapshot", d)
      | Some snap => (Ok (Some snap), d)
      end
  end.

(** ** Lemmas *)

Lemma tmpPath_ne path : tmpPath path ≠ path.
Proof.
  unfold tmpPath. intros H. apply (f_equal String.length) in H. revert H.
  induction path as [|c p IH]; simpl; [done|]. intros [= H]. by apply IH.
Qed.

Lemma discard_tmp_other tmp d p :
  p ≠ tmp → files (discard_tmp tmp d) !! p = files d !! p.
Proof.
  intros Hp. unfold discard_tmp.
  destruct (os_nop d) as [e1 d1] eqn:H1. simpl.
  destruct (os_remove tmp d1) as [e2 d2] eqn:H2. simpl.
  rewrite (os_call_other _ _ _ _ p H2) by (intros; by rewrite lookup_delete_ne).
  by rewrite (os_call_other _ _ _ _ p H1).
Qed.

(** The files after a successful save. *)
Definition saved (path : string) (snap : Snapshot) (m : gmap string bytes)
    : gmap string bytes :=
  <[path := encode_Snapshot snap]> (delete (tmpPath path) m).

(** Every outcome: an error leaves every file but the temporary one alone, a
    success is [saved]. *)
Lemma SaveSnapshot_cases path snap d e d' :
  SaveSnapshot path snap d = (e, d') →
  match e with
  | None => files d' = saved path snap (files d)
  | Some _ => ∀ p, p ≠ tmpPath path → files d' !! p = files d !! p
  end.
Proof.
  unfold SaveSnapshot.
  destruct (os_nop d) as [[?|] d1] eqn:H1; apply os_call_files in H1;
    [intros [= <- <-]; by rewrite H1|].
  destruct (os_create_trunc _ d1) as [[?|] d2] eqn:H2; apply os_call_files in H2;
    [intros [= <- <-]; by rewrite H2, H1|].
  assert (Hc : content d2 (tmpPath path) = []).
  { unfold content. rewrite H2, lookup_insert. by rewrite decide_True. }
  destruct (os_write _ _ d2) as [[?|] d3] eqn:H3.
  { intros [= <- <-] p Hp. rewrite discard_tmp_other by done.
    rewrite (os_write_other _ _ _ _ _ p H3) by done.
    by rewrite H2, lookup_insert_ne, H1. }
  apply os_write_ok in H3. rewrite Hc, H2, insert_insert_eq, H1 in H3.
  assert (Ht : ∀ p, p ≠ tmpPath path → files d3 !! p = files d !! p).
  { intros p Hp. by rewrite H3, lookup_insert_ne. }
  destruct (os_nop d3) as [[?|] d4] eqn:H4; apply os_call_files in H4;
    [intros [= <- <-] p Hp; rewrite discard_tmp_other by done; rewrite H4; auto|].
  destruct (os_nop d4) as [[?|] d5] eqn:H5; apply os_call_files in H5;
    [intros [= <- <-] p Hp; rewrite discard_tmp_other by done; rewrite H5, H4; auto|].
  unfold id in *.
  destruct (os_rename _ _ d5) as [[?|] d6] eqn:H6; apply os_call_files in H6;
    [intros [= <- <-] p Hp; rewrite H6, H5, H4; auto|].
  intros [= <- <-]. rewrite H6, H5, H4, H3, lookup_insert, decide_True by done.
  simpl. unfold saved. by rewrite delete_insert_eq.
Qed.

Lemma SaveSnapshot_healthy path snap d :
  healthy d → (SaveSnapshot path snap d).1 = None ∧ healthy (SaveSnapshot path snap d).2.
Proof.
  intros Hd. unfold SaveSnapshot, os_nop, os_create_trunc, os_rename.
  do 2 rewrite os_call_healthy by done. rewrite os_write_healthy by done.
  by do 3 rewrite os_call_healthy by done.
Qed.

(** C24. Atomic replacement.  Whatever calls of the operating system fail, and
    so wherever a crash cuts the sequence of calls, the snapshot file holds
    its old content or the whole new one, the new one exactly when no error
    is returned, and no other file is touched but the temporary one. *)
Theorem SaveSnapshot_atomic path snap d :
  let '(e, d') := SaveSnapshot path snap d in
  files d' !! path =
    match e with None => Some (encode_Snapshot snap) | Some _ => files d !! path end
  ∧ ∀ p, p ≠ path → p ≠ tmpPath path → files d' !! p = files d !! p.
Proof.
  pose proof (tmpPath_ne path) as Hne.
  destruct (SaveSnapshot path snap d) as [e d'] eqn:Hs.
  apply SaveSnapshot_cases in Hs. destruct e; [auto|]. rewrite Hs. unfold saved. split.
  - by rewrite lookup_insert, decide_True.
  - intros p Hp Ht. by rewrite lookup_insert_ne, lookup_delete_ne.
Qed.
