(* ===== verification/Node.v ===== *)
(** * The node: state, log access, peers, connections and outgoing calls

    [type Raft struct] of [raft/raft.go].  The methods of [Raft] run under
    [r.mu], one at a time, so each is a function from the state before to the
    state after.  What a method starts or sends besides its result (a value on
    a response channel, a goroutine, a closed connection) is appended to
    [effects]; a goroutine locks [r.mu] again when it runs, so it is a
    separate step.

    - Log lines and Prometheus metrics are left out.
    - An element of [r.log] is never nil (entries come from protobuf and from
      the node itself), so the log is a list of entries.
    - [grpcPeers] keeps the address each connection was dialled with.
    - A loop over a Go map visits the keys in the order of [map_to_list].
    - [clock] is what [time.Now()] returns, in nanoseconds; a [time.Time] is
      [None] when it is the zero value.
    - [timer_armed] says whether [electionTimer] will fire. *)

From S2P Require Import Prelude Types Config Disk Wal SnapshotStore.

Inductive Effect :=
| SendResp (ch : nat) (resp : cmdResp)
| GoPreVote (peer : string) (term lastLogIdx lastLogTerm : Z)
| GoRequestVote (peer : string) (term lastLogIdx lastLogTerm : Z)
| GoReplicateToPeer (peer : string)
| GoSendSnapshotToPeer (peer : string)
| GoHeartbeats
| ConnClose (peer : string).

#[export] Instance Effect_eq_dec : EqDecision Effect.
Proof. solve_decision. Defined.

(** [type Raft struct] *)
Record Raft := mkRaft {
  node_id : string;
  peers : gmap string string;
  grpcPeers : gmap string string;
  state : RaftState;
  currentTerm : Z;
  votedFor : string;
  log : list LogEntry;
  votesReceived : gmap string bool;
  proposals : list proposal;
  lastIncludedIndex : Z;
  lastIncludedTerm : Z;
  commitIndex : Z;
  lastApplied : Z;
  nextIndex : gmap string Z;
  matchIndex : gmap string Z;
  timer_armed : bool;
  wal : WAL;
  disk : Disk;
  snapshotPath : string;
  kv : gmap string string;
  dedupTable : gmap string DedupEntry;
  snapshotBuf : bytes;
  currentConfig : option ClusterConfig;
  pendingConfig : bool;
  configChangeIndex : Z;
  peerHTTPAddrs : gmap string string;
  proposalTime : gmap Z Z;
  isJoining : bool;
  readSafety : string;
  lastHeartbeatQuorum : option Z;
  lastLeaderHeartbeat : option Z;
  preVoteVotesReceived : gmap string bool;
  snapshotThreshold : Z;
  partition : option (gmap string bool);
  networkDelay : Z;
  clock : Z;
  effects : list Effect
}.

#[export] Instance eta_Raft : Eta Raft := λ r,
  mkRaft (node_id r) (peers r) (grpcPeers r) (state r) (currentTerm r) (votedFor r)
    (log r) (votesReceived r) (proposals r) (lastIncludedIndex r)
    (lastIncludedTerm r) (commitIndex r) (lastApplied r) (nextIndex r)
    (matchIndex r) (timer_armed r) (wal r) (disk r) (snapshotPath r) (kv r)
    (dedupTable r) (snapshotBuf r) (currentConfig r) (pendingConfig r)
    (configChangeIndex r) (peerHTTPAddrs r) (proposalTime r) (isJoining r)
    (readSafety r) (lastHeartbeatQuorum r) (lastLeaderHeartbeat r)
    (preVoteVotesReceived r) (snapshotThreshold r) (partition r)
    (networkDelay r) (clock r) (effects r).

(** The TLS material of package [transport] and [grpc.Dial]: the error each
    gives, if any. *)
Class Dialer := {
  LoadClientCredentials : option string;
  grpc_Dial : string → option string
}.

Definition emit (e : Effect) (r : Raft) : Raft := r <| effects ::= λ es, es ++ [e] |>.

(** [for _, x := range l { body }] on the state. *)
Definition for_each {A} (l : list A) (body : A → Raft → Raft) (r : Raft) : Raft :=
  foldl (λ r x, body x r) r l.

(** [for i := lo; i <= hi; i++], for [hi] below the largest [int64]. *)
Definition index_range (lo hi : Z) : list Z := seqZ lo (hi - lo + 1).

(** ** Index translation *)

(** [func (r Raft) lastLogIndex() int64] *)
Definition lastLogIndex (r : Raft) : Z :=
  match last (log r) with Some e => Index e | None => lastIncludedIndex r end.

(** [func (r Raft) lastLogTerm() int64] *)
Definition lastLogTerm (r : Raft) : Z :=
  match last (log r) with Some e => Term e | None => lastIncludedTerm r end.

(** [func (r Raft) getEntry(idx int64)] *)
Definition getEntry (r : Raft) (idx : Z) : option LogEntry :=
  if bool_decide (idx = lastIncludedIndex r) then
    Some (mkLogEntry (lastIncludedIndex r) (lastIncludedTerm r) [])
  else if idx <? lastIncludedIndex r then None
  else
    let offset := idx -! lastIncludedIndex r -! 1 in
    if (0 <=? offset) && (offset <? Z.of_nat (length (log r)))
    then log r !! Z.to_nat offset
    else None.

(** [func (r Raft) getEntryTerm(idx int64) int64] *)
Definition getEntryTerm (r : Raft) (idx : Z) : Z :=
  match getEntry r idx with Some entry => Term entry | None => 0 end.

(** ** Peers and connections *)

(** [func (r Raft) effectivePeers() map[string]string] *)
Definition effectivePeers (r : Raft) : gmap string string :=
  match currentConfig r with
  | Some _ => AllNodeGRPC (currentConfig r) (node_id r)
  | None => peers r
  end.

(** [func (r Raft) connectToPeersLocked() error]: it stops at the first
    peer that cannot be dialled. *)
Definition connectToPeersLocked `{!Dialer} (r : Raft) : option string * Raft :=
  foldl (λ (st : option string * Raft) (peer : string * string),
    let '(err, r) := st in
    match err with
    | Some _ => st
    | None =>
        match grpcPeers r !! peer.1 with
        | Some _ => st
        | None =>
            match LoadClientCredentials with
            | Some e => (Some ("failed to load credentials for client mTLS connecting to "
                               +:+ peer.1 +:+ ": " +:+ e), r)
            | None =>
                match grpc_Dial peer.2 with
                | Some e => (Some ("failed to dial peer " +:+ peer.1 +:+ " at " +:+ peer.2
                                   +:+ ": " +:+ e), r)
                | None => (None, r <| grpcPeers ::= insert peer.1 peer.2 |>)
                end
            end
        end
    end) (None, r) (map_to_list (effectivePeers r)).

(** [func (r Raft) connectToPeers() error] *)
Definition connectToPeers `{!Dialer} (r : Raft) : option string * Raft :=
  connectToPeersLocked r.

(** [func (r Raft) connectToNewPeers()]: a peer that cannot be dialled is
    skipped. *)
Definition connectToNewPeers `{!Dialer} (r : Raft) : Raft :=
  for_each (map_to_list (effectivePeers r)) (λ peer r,
    match grpcPeers r !! peer.1, LoadClientCredentials, grpc_Dial peer.2 with
    | Some _, _, _ => r
    | None, Some _, _ => r
    | None, None, Some _ => r
    | None, None, None =>
        r <| grpcPeers ::= insert peer.1 peer.2 |>
          <| nextIndex ::= insert peer.1 (lastLogIndex r +! 1) |>
          <| matchIndex ::= insert peer.1 0 |>
    end) r.

(** [func (r Raft) disconnectRemovedPeers()] *)
Definition disconnectRemovedPeers (r : Raft) : Raft :=
  let allPeers := effectivePeers r in
  for_each (map_to_list (grpcPeers r)) (λ peer r,
    match allPeers !! peer.1 with
    | Some _ => r
    | None =>
        emit (ConnClose peer.1) r
          <| grpcPeers ::= delete peer.1 |>
          <| nextIndex ::= delete peer.1 |>
          <| matchIndex ::= delete peer.1 |>
    end) r.

(** ** Outgoing calls

    What the call puts on the wire, or the error it fails with before. *)

(** [func (r Raft) checkNetworkFault(peerID string) error], after the delay *)
Definition checkNetworkFault (r : Raft) (peerID : string) : option string :=
  match partition r with
  | Some p =>
      if lookup_bool p peerID then None
      else Some ("simulated network partition for peer " +:+ peerID)
  | None => None
  end.

(** The connection lookup shared by the four calls. *)
Definition with_connection {A} (r : Raft) (peerID : string) (req : A) : result A :=
  match checkNetworkFault r peerID with
  | Some e => Err e
  | None =>
      match grpcPeers r !! peerID with
      | None => Err "gRPC client connection not found"
      | Some _ => Ok req
      end
  end.

(** [func (r Raft) sendPreVote(peerID, term, lastLogIdx, lastLogTerm)] *)
Definition sendPreVote (r : Raft) (peerID : string) (term lastLogIdx lastLogTerm : Z)
    : result RequestVoteRequest :=
  with_connection r peerID
    (mkRequestVoteRequest term (node_id r) lastLogIdx lastLogTerm).

(** [func (r Raft) sendRequestVote(peerID, term, lastLogIdx, lastLogTerm)] *)
Definition sendRequestVote (r : Raft) (peerID : string)
    (term lastLogIdx lastLogTerm : Z) : result RequestVoteRequest :=
  with_connection r peerID
    (mkRequestVoteRequest term (node_id r) lastLogIdx lastLogTerm).

(** [func (r Raft) sendAppendEntries(...)] *)
Definition sendAppendEntries (r : Raft) (peerID : string)
    (term prevLogIdx prevLogTerm : Z) (entries : list LogEntry) (leaderCommit : Z)
    : result AppendEntriesRequest :=
  with_connection r peerID
    (mkAppendEntriesRequest term (node_id r) prevLogIdx prevLogTerm entries
       leaderCommit).

(** [func (r Raft) sendInstallSnapshot(...)] *)
Definition sendInstallSnapshot (r : Raft) (peerID : string)
    (term lastIncludedIndex lastIncludedTerm offset : Z) (data : bytes) (done : bool)
    : result InstallSnapshotRequest :=
  with_connection r peerID
    (mkInstallSnapshotRequest term (node_id r) lastIncludedIndex lastIncludedTerm
       offset data done).

(** ** Timers and the log file *)

(** [func (r Raft) resetElectionTimer()] *)
Definition resetElectionTimer (r : Raft) : Raft := r <| timer_armed := true |>.

(** A method of [r.wal] that reports an error. *)
Definition wal_do (op : WAL → Disk → option string * Disk) (r : Raft)
    : option string * Raft :=
  let '(e, d) := op (wal r) (disk r) in (e, r <| disk := d |>).

(** The same, for callers that only log the error. *)
Definition wal_try (op : WAL → Disk → option string * Disk) (r : Raft) : Raft :=
  (wal_do op r).2.
