(* ===== verification/Roles.v ===== *)
(** * Roles: follower, candidate, leader

    The transitions between the roles and what a candidate and a leader send:
    the part of [raft/raft.go] from [transitionToFollower] to
    [sendSnapshotToPeer].  Goroutines that lock [r.mu] are split at the lock:
    [replicateToPeer] and [sendSnapshotToPeer] are their first critical
    section and give the arguments of the calls that follow. *)

From S2P Require Import Prelude Types Config Envelope Disk Wal SnapshotStore Node.

(** [func (r Raft) transitionToFollower(term int64)] *)
Definition transitionToFollower (term : Z) (r : Raft) : Raft :=
  let r := r <| state := Follower |> <| currentTerm := term |> <| votedFor := "" |> in
  let r := resetElectionTimer r in
  let r := for_each (proposals r) (λ p,
    emit (SendResp (p_respCh p) (mkCmdResp false (Some "node transitioned to follower")))) r in
  r <| proposals := [] |>.

(** [func (r Raft) broadcastHeartbeats()] *)
Definition broadcastHeartbeats (r : Raft) : Raft :=
  for_each (map_to_list (effectivePeers r)) (λ peer, emit (GoReplicateToPeer peer.1)) r.

Section Roles.
Context {PC : ProtoCodec} {DL : Dialer}.

(** The loop of [transitionToLeader] over the peers. *)
Definition init_progress (lastIdx : Z) (r : Raft) : Raft :=
  for_each (map_to_list (effectivePeers r)) (λ peer r,
    r <| nextIndex ::= insert peer.1 (lastIdx +! 1) |>
      <| matchIndex ::= insert peer.1 0 |>) r.

(** [func (r Raft) transitionToLeader()] *)
Definition transitionToLeader (r : Raft) : Raft :=
  if bool_decide (state r ≠ Candidate) then r
  else
    let r := r <| state := Leader |> <| timer_armed := false |> in
    let r := (connectToPeersLocked r).2 in
    let lastIdx := lastLogIndex r in
    let r := init_progress lastIdx r in
    let r :=
      match EncodeNoopEntry with
      | Err _ => r
      | Ok noopData =>
          let noopEntry := mkLogEntry (lastLogIndex r +! 1) (currentTerm r) noopData in
          let r := r <| log ::= λ l, l ++ [noopEntry] |> in
          wal_try (λ w, AppendEntry w noopEntry) r
      end in
    let r := broadcastHeartbeats r in
    emit GoHeartbeats r.

(** [func (r Raft) startElection()] *)
Definition startElection (r : Raft) : Raft :=
  let term := currentTerm r in
  let lastLogIdx := lastLogIndex r in
  let lastTerm := lastLogTerm r in
  let allPeers := effectivePeers r in
  if bool_decide (allPeers = ∅) then transitionToLeader r
  else
    for_each (map_to_list allPeers) (λ peer,
      emit (GoRequestVote peer.1 term lastLogIdx lastTerm)) r.

(** [func (r Raft) transitionToCandidate()] *)
Definition transitionToCandidate (r : Raft) : Raft :=
  let r := r <| state := Candidate |> in
  let r := r <| currentTerm ::= λ t, t +! 1 |> in
  let r := r <| votedFor := node_id r |> in
  let r := resetElectionTimer r in
  let r := r <| votesReceived := {[ node_id r := true ]} |> in
  let r := wal_try (λ w, AppendState w (currentTerm r) (votedFor r)) r in
  startElection r.

(** [func (r Raft) startPreVote()] *)
Definition startPreVote (r : Raft) : Raft :=
  let r := resetElectionTimer r in
  let r := r <| preVoteVotesReceived := {[ node_id r := true ]} |> in
  let targetTerm := currentTerm r +! 1 in
  let lastLogIdx := lastLogIndex r in
  let lastTerm := lastLogTerm r in
  let allPeers := effectivePeers r in
  if bool_decide (allPeers = ∅) then transitionToCandidate r
  else
    for_each (map_to_list allPeers) (λ peer,
      emit (GoPreVote peer.1 targetTerm lastLogIdx lastTerm)) r.
End Roles.

(** The arguments [replicateToPeer] calls [sendAppendEntries] with. *)
Record AppendArgs := mkAppendArgs {
  aa_term : Z;
  aa_prevLogIdx : Z;
  aa_prevLogTerm : Z;
  aa_entries : list LogEntry;
  aa_leaderCommit : Z
}.

(** A nil entry of the slice travels as an empty message. *)
Definition wire_entry (e : option LogEntry) : LogEntry := default (mkLogEntry 0 0 []) e.

(** [func (r Raft) replicateToPeer(peerID string)], up to the call *)
Definition replicateToPeer (peerID : string) (r : Raft) : option AppendArgs * Raft :=
  if bool_decide (state r ≠ Leader) then (None, r)
  else
    let nextIdx := lookup_int (nextIndex r) peerID in
    let lastIdx := lastLogIndex r in
    if nextIdx <=? lastIncludedIndex r then (None, emit (GoSendSnapshotToPeer peerID) r)
    else
      let prevLogIdx := nextIdx -! 1 in
      let prevLogTerm := getEntryTerm r prevLogIdx in
      let entries :=
        if nextIdx <=? lastIdx then
          map (λ i, wire_entry (getEntry r i)) (index_range nextIdx lastIdx)
        else [] in
      (Some (mkAppendArgs (currentTerm r) prevLogIdx prevLogTerm entries (commitIndex r)), r).

(** What [sendSnapshotToPeer] reads under the lock. *)
Record SnapshotArgs := mkSnapshotArgs {
  sa_term : Z;
  sa_lastIncludedIndex : Z;
  sa_lastIncludedTerm : Z;
  sa_snapData : bytes
}.

(** [func (r Raft) sendSnapshotToPeer(peerID string)], up to the loop *)
Definition sendSnapshotToPeer (r : Raft) : option SnapshotArgs * Raft :=
  if bool_decide (state r ≠ Leader) then (None, r)
  else
    let '(res, d) := LoadSnapshot (snapshotPath r) (disk r) in
    let r := r <| disk := d |> in
    match res with
    | Ok (Some snap) =>
        (Some (mkSnapshotArgs (currentTerm r) (lastIncludedIndex r) (lastIncludedTerm r)
                 (marshal_Snapshot snap)), r)
    | _ => (None, r)
    end.

Definition chunkSize : Z := 64 * 1024.

(** The loop of [sendSnapshotToPeer] from [offset]: [send] is
    [r.sendInstallSnapshot] on the chunk, the result the response that goes
    to [processInstallSnapshotResponse], if any.  [None] is out of fuel. *)
Fixpoint send_chunks (fuel : nat)
    (send : Z → bytes → bool → result InstallSnapshotResponse)
    (term : Z) (snapData : bytes) (offset : Z)
    : option (option InstallSnapshotResponse) :=
  match fuel with
  | O => None
  | S f =>
      let len := Z.of_nat (length snapData) in
      let done := len <=? offset + chunkSize in
      let end_ := if done then len else offset + chunkSize in
      let chunk := take (Z.to_nat (end_ - offset)) (drop (Z.to_nat offset) snapData) in
      match send offset chunk done with
      | Err _ => Some None
      | Ok resp =>
          if term <? isr_Term resp then Some (Some resp)
          else if done then Some (Some resp)
          else send_chunks f send term snapData end_
      end
  end.

(** Fuel for the whole loop. *)
Definition snapshot_loop send term snapData :=
  send_chunks (S (length snapData)) send term snapData 0.
