(* ===== verification/Election.v ===== *)
(** * Elections: pre-votes and votes

    The handlers [processPreVote], [processPreVoteResponse],
    [processRequestVote] and [processRequestVoteResponse] of [raft/raft.go]. *)

From S2P Require Import Prelude Types Config Envelope Disk Wal SnapshotStore Node.
From S2P Require Import Roles.

(** The candidate's log is at least as up to date as the node's. *)
Definition logOK (r : Raft) (req : RequestVoteRequest) : bool :=
  let lastTerm := lastLogTerm r in
  let lastIdx := lastLogIndex r in
  (lastTerm <? LastLogTerm req)
  || ((LastLogTerm req =? lastTerm) && (lastIdx <=? LastLogIndex req)).

(** The candidate is outside a configuration that is set. *)
Definition not_a_member (r : Raft) (candidate : string) : bool :=
  match currentConfig r with
  | Some _ => negb (ContainsNode (currentConfig r) candidate)
  | None => false
  end.

(** [time.Since(t) < d] for a time that is not zero *)
Definition heard_within (r : Raft) (t : option Z) (d : Z) : bool :=
  match t with Some t => clock r - t <? d | None => false end.

Definition milliseconds (n : Z) : Z := n * 1000000.

(** [func (r Raft) processPreVote(req)] *)
Definition processPreVote (req : RequestVoteRequest) (r : Raft) : RequestVoteResponse :=
  if rv_Term req <=? currentTerm r then mkRequestVoteResponse (currentTerm r) false
  else if not_a_member r (CandidateId req) then
    mkRequestVoteResponse (currentTerm r) false
  else if bool_decide (state r = Follower)
          && heard_within r (lastLeaderHeartbeat r) (milliseconds 300) then
    mkRequestVoteResponse (currentTerm r) false
  else if logOK r req then mkRequestVoteResponse (rv_Term req) true
  else mkRequestVoteResponse (currentTerm r) false.

(** The majority test of the vote handlers: by the configuration when there
    is one, by the peers otherwise. *)
Definition vote_majority (r : Raft) (votes : gmap string bool) : bool :=
  match currentConfig r with
  | Some _ => HasMajority (currentConfig r) (node_id r) votes
  | None =>
      let majority := Z.quot (Z.of_nat (size (peers r)) + 1) 2 + 1 in
      majority <=? Z.of_nat (size votes)
  end.

(** [func (r Raft) processRequestVote(req)] *)
Definition processRequestVote `{!ProtoCodec} (req : RequestVoteRequest) (r : Raft)
    : RequestVoteResponse * Raft :=
  if rv_Term req <? currentTerm r then (mkRequestVoteResponse (currentTerm r) false, r)
  else if not_a_member r (CandidateId req) then
    (mkRequestVoteResponse (currentTerm r) false, r)
  else
    let r := if currentTerm r <? rv_Term req then transitionToFollower (rv_Term req) r
             else r in
    if (bool_decide (votedFor r = "") || bool_decide (votedFor r = CandidateId req))
       && logOK r req then
      let r := r <| votedFor := CandidateId req |> in
      let r := resetElectionTimer r in
      let r := wal_try (λ w, AppendState w (currentTerm r) (votedFor r)) r in
      (mkRequestVoteResponse (currentTerm r) true, r)
    else (mkRequestVoteResponse (currentTerm r) false, r).

Section Responses.
Context {PC : ProtoCodec} {DL : Dialer}.

(** [func (r Raft) processPreVoteResponse(msg)] *)
Definition processPreVoteResponse (peerID : string) (resp : RequestVoteResponse)
    (r : Raft) : Raft :=
  if (bool_decide (state r = Follower) || bool_decide (state r = Candidate))
     && VoteGranted resp then
    let r := r <| preVoteVotesReceived ::= insert peerID true |> in
    if vote_majority r (preVoteVotesReceived r) then transitionToCandidate r else r
  else r.

(** [func (r Raft) processRequestVoteResponse(msg)] *)
Definition processRequestVoteResponse (peerID : string) (resp : RequestVoteResponse)
    (r : Raft) : Raft :=
  if currentTerm r <? rvr_Term resp then transitionToFollower (rvr_Term resp) r
  else if bool_decide (state r = Candidate) && (rvr_Term resp =? currentTerm r)
          && VoteGranted resp then
    let r := r <| votesReceived ::= insert peerID true |> in
    if vote_majority r (votesReceived r) then transitionToLeader r else r
  else r.

(** The election timer of [run]. *)
Definition electionTimeout (r : Raft) : Raft :=
  let r := r <| timer_armed := false |> in
  if (bool_decide (state r = Follower) || bool_decide (state r = Candidate))
     && negb (isJoining r) then startPreVote r
  else if isJoining r then resetElectionTimer r
  else r.
End Responses.
