(* ===== verification/Apply.v ===== *)
(** * Applying committed entries

    [applyCommand], [applyConfigEntry], [proposeSecondPhaseConfig],
    [takeSnapshot], [applyLogs] and [restoreSnapshot] of [raft/raft.go]. *)

From S2P Require Import Prelude Types Config Json Envelope Disk Wal SnapshotStore.
From S2P Require Import Node Roles.

(** ** The key-value store *)

(** The command carries the identity of a client's request. *)
Definition has_request (cmd : Command) : bool :=
  bool_decide (ClientID cmd ≠ "") && (0 <? RequestID cmd).

Definition is_duplicate (cmd : Command) (r : Raft) : bool :=
  match dedupTable r !! ClientID cmd with
  | Some prev => RequestID cmd <=? LastAppliedRequestID prev
  | None => false
  end.

Definition remember_request (cmd : Command) (r : Raft) : Raft :=
  if has_request cmd then
    r <| dedupTable ::= insert (ClientID cmd) (mkDedupEntry (RequestID cmd) "ok" "ok") |>
  else r.

(** [applyCommand] once the command is decoded *)
Definition apply_decoded (cmd : Command) (r : Raft) : Raft :=
  if has_request cmd && is_duplicate cmd r then r
  else if bool_decide (Op cmd = "PUT") then
    remember_request cmd (r <| kv ::= insert (Key cmd) (Val cmd) |>)
  else if bool_decide (Op cmd = "DEL") then
    remember_request cmd (r <| kv ::= delete (Key cmd) |>)
  else r.

(** [func (r Raft) applyCommand(cmdBytes []byte)] *)
Definition applyCommand (cmdBytes : bytes) (r : Raft) : Raft :=
  if bool_decide (cmdBytes = []) then r
  else
    match unmarshal_Command cmdBytes with
    | None => r
    | Some cmd => apply_decoded cmd r
    end.

(** ** Configurations *)

(** [func (r Raft) applyConfigEntry(config)] *)
Definition applyConfigEntry (config : ClusterConfig) (r : Raft) : Raft :=
  let r := r <| currentConfig := Some config |> in
  let r := r <| peers := AllNodeGRPC (currentConfig r) (node_id r) |> in
  let r := r <| peerHTTPAddrs := AllNodeHTTP (currentConfig r) (node_id r) |> in
  r <| isJoining := negb (ContainsNode (Some config) (node_id r)) |>.

(** ** Snapshots *)

Definition copy_config (c : ClusterConfig) : ClusterConfig :=
  mkClusterConfig (copyMap (OldPeers c)) (copyMap (NewPeers c))
    (copyMap (OldHTTP c)) (copyMap (NewHTTP c)) (Joint c).

(** The entries from [lo] to [hi] that are in the log. *)
Definition entries_between (r : Raft) (lo hi : Z) : list LogEntry :=
  omap (getEntry r) (index_range lo hi).

(** The snapshot [takeSnapshot] writes. *)
Definition make_snapshot (r : Raft) : Snapshot :=
  mkSnapshot (commitIndex r) (getEntryTerm r (commitIndex r)) (kv r)
    (copy_config <$> currentConfig r) (dedupTable r).

Section Apply.
Context `{!ProtoCodec}.

(** [r.wal.Reset()], whose error [takeSnapshot] returns on *)
Definition wal_reset (r : Raft) : option string * Raft :=
  let '(e, w, d) := Reset (wal r) (disk r) in
  (e, r <| wal := w |> <| disk := d |>).

(** [func (r Raft) takeSnapshot()] *)
Definition takeSnapshot (r : Raft) : Raft :=
  let snap := make_snapshot r in
  let '(e, d) := SaveSnapshot (snapshotPath r) snap (disk r) in
  let r := r <| disk := d |> in
  match e with
  | Some _ => r
  | None =>
      let newLog := entries_between r (commitIndex r +! 1) (lastLogIndex r) in
      let r := r <| lastIncludedIndex := snap_LastIncludedIndex snap |>
                 <| lastIncludedTerm := snap_LastIncludedTerm snap |>
                 <| log := newLog |> in
      match wal_reset r with
      | (Some _, r) => r
      | (None, r) => wal_try (λ w, AppendState w (currentTerm r) (votedFor r)) r
      end
  end.

(** [func (r Raft) restoreSnapshot(snap)] *)
Definition restoreSnapshot (snap : Snapshot) (r : Raft) : Raft :=
  let '(e, d) := SaveSnapshot (snapshotPath r) snap (disk r) in
  let r := r <| disk := d |> in
  match e with
  | Some _ => r
  | None =>
      let r := r <| kv := KVState snap |> <| dedupTable := DedupTable snap |> in
      let r :=
        match snap_ClusterConfig snap with
        | None => r
        | Some c =>
            let r := r <| currentConfig := Some (copy_config c) |> in
            let r := r <| peers := AllNodeGRPC (currentConfig r) (node_id r) |> in
            r <| peerHTTPAddrs := AllNodeHTTP (currentConfig r) (node_id r) |>
        end in
      let newLog :=
        entries_between r (snap_LastIncludedIndex snap +! 1) (lastLogIndex r) in
      let r := r <| lastIncludedIndex := snap_LastIncludedIndex snap |>
                 <| lastIncludedTerm := snap_LastIncludedTerm snap |>
                 <| log := newLog |> in
      let r := if commitIndex r <? snap_LastIncludedIndex snap
               then r <| commitIndex := snap_LastIncludedIndex snap |> else r in
      let r := if lastApplied r <? snap_LastIncludedIndex snap
               then r <| lastApplied := snap_LastIncludedIndex snap |> else r in
      let r := (wal_reset r).2 in
      wal_try (λ w, AppendState w (currentTerm r) (votedFor r)) r
  end.

(** ** The apply loop *)

(** [func (r Raft) proposeSecondPhaseConfig(jointConfig)] *)
Definition proposeSecondPhaseConfig (jointConfig : ClusterConfig) (r : Raft) : Raft :=
  let finalConfig := BuildFinalConfig (Some jointConfig) in
  match EncodeConfigChangeEntry finalConfig with
  | Err _ => r
  | Ok configData =>
      let entry := mkLogEntry (lastLogIndex r +! 1) (currentTerm r) configData in
      let r := r <| log ::= λ l, l ++ [entry] |> in
      match wal_do (λ w, AppendEntry w entry) r with
      | (Some _, r) => r
      | (None, r) =>
          let r := r <| proposalTime ::= insert (Index entry) (clock r) |> in
          let r := r <| configChangeIndex := Index entry |> in
          broadcastHeartbeats r
      end
  end.

(** The case [EntryConfigChange] of [applyLogs]. *)
Definition apply_config_change (config : ClusterConfig) (r : Raft) : Raft :=
  if Joint config then
    let r := if bool_decide (state r = Leader) then proposeSecondPhaseConfig config r
             else r in
    applyConfigEntry config r
  else
    let r := applyConfigEntry config r in
    let r := r <| pendingConfig := false |> in
    let r := r <| configChangeIndex := 0 |> in
    let r := disconnectRemovedPeers r in
    if bool_decide (state r = Leader) && negb (ContainsNode (Some config) (node_id r)) then
      match NewPeers config !! node_id r with
      | None => transitionToFollower (currentTerm r) r
      | Some _ => r
      end
    else r.

(** The type switch of [applyLogs]. *)
Definition apply_envelope (env : LogEntryEnvelope) (r : Raft) : Raft :=
  if env_Type env =? EntryCommand then applyCommand (default [] (env_Data env)) r
  else if env_Type env =? EntryConfigChange then
    match env_Config env with Some config => apply_config_change config r | None => r end
  else r.

(** One turn of the loop: the entry at [lastApplied], already advanced. *)
Definition apply_entry (r : Raft) : Raft :=
  match getEntry r (lastApplied r) with
  | None => r
  | Some entry =>
      if bool_decide (Cmd entry = []) then r
      else apply_envelope (DecodeLogEntry (Cmd entry)) r
  end.

Fixpoint apply_loop (fuel : nat) (r : Raft) : Raft :=
  match fuel with
  | O => r
  | S f =>
      if lastApplied r <? commitIndex r then
        apply_loop f (apply_entry (r <| lastApplied ::= λ i, i +! 1 |>))
      else r
  end.

(** The answers to the proposals at or below the commit index. *)
Definition complete_proposals (r : Raft) : Raft :=
  let answer p :=
    if p_term p =? getEntryTerm r (p_index p)
    then mkCmdResp true None
    else mkCmdResp false (Some "leader stepped down before committing") in
  let committed := filter (λ p, p_index p ≤ commitIndex r) (proposals r) in
  let remaining := filter (λ p, ¬ p_index p ≤ commitIndex r) (proposals r) in
  let r := for_each committed (λ p, emit (SendResp (p_respCh p) (answer p))) r in
  r <| proposals := remaining |>.

(** [func (r Raft) applyLogs()]: the loop advances [lastApplied] by one in
    each turn, so its distance to [commitIndex] is the fuel it needs. *)
Definition applyLogs (r : Raft) : Raft :=
  let r := apply_loop (Z.to_nat (commitIndex r - lastApplied r)) r in
  let r :=
    if (0 <? snapshotThreshold r)
       && (snapshotThreshold r <? lastLogIndex r -! lastIncludedIndex r)
    then takeSnapshot r else r in
  complete_proposals r.
End Apply.
