(* ===== verification/Replication.v ===== *)
(** * Log replication and snapshot installation

    The handlers [processAppendEntries], [processAppendEntriesResponse],
    [checkCommitMajority], [processInstallSnapshot],
    [processInstallSnapshotResponse] of [raft/raft.go], and [handleRPC], which
    picks the handler of a message. *)

From S2P Require Import Prelude Types Config Json Envelope Disk Wal SnapshotStore.
From S2P Require Import Node Roles Election Apply.

Section Replication.
Context {PC : ProtoCodec} {DL : Dialer}.

(** ** Appending the leader's entries *)

(** One turn of the loop over [req.Entries]. *)
Definition append_entry (entry : LogEntry) (r : Raft) : Raft :=
  if Index entry <=? lastIncludedIndex r then r
  else if Index entry <=? lastLogIndex r then
    match getEntry r (Index entry) with
    | Some existing =>
        if bool_decide (Term existing ≠ Term entry) then
          let keep := Index entry -! lastIncludedIndex r -! 1 in
          let r := r <| log ::= take (Z.to_nat keep) |> in
          let r := wal_try (λ w, AppendTruncate w (Index entry)) r in
          let r := r <| log ::= λ l, l ++ [entry] |> in
          wal_try (λ w, AppendEntry w entry) r
        else r
    | None => r
    end
  else
    let r := r <| log ::= λ l, l ++ [entry] |> in
    wal_try (λ w, AppendEntry w entry) r.

(** The term check and the role change at the head of [processAppendEntries]
    and [processInstallSnapshot], for a request that is not stale. *)
Definition follow_leader (term : Z) (leaderId : string) (r : Raft) : Raft :=
  let r := if currentTerm r <? term then transitionToFollower term r else r in
  let r := if bool_decide (state r = Candidate) then transitionToFollower term r else r in
  let r := r <| votedFor := leaderId |> in
  resetElectionTimer r.

(** The end of [processAppendEntries]: the new commit index. *)
Definition follow_commit (leaderCommit : Z) (r : Raft) : Raft :=
  if commitIndex r <? leaderCommit then
    let r := r <| commitIndex := leaderCommit |> in
    let r := if lastLogIndex r <? commitIndex r then r <| commitIndex := lastLogIndex r |>
             else r in
    applyLogs r
  else r.

(** [func (r Raft) processAppendEntries(req)] *)
Definition processAppendEntries (req : AppendEntriesRequest) (r : Raft)
    : AppendEntriesResponse * Raft :=
  if ae_Term req <? currentTerm r then
    (mkAppendEntriesResponse (currentTerm r) false 0, r)
  else
    let r := follow_leader (ae_Term req) (ae_LeaderId req) r in
    if lastLogIndex r <? PrevLogIndex req then
      (mkAppendEntriesResponse (currentTerm r) false (lastLogIndex r), r)
    else if (lastIncludedIndex r <=? PrevLogIndex req)
            && bool_decide (getEntryTerm r (PrevLogIndex req) ≠ PrevLogTerm req) then
      (mkAppendEntriesResponse (currentTerm r) false (PrevLogIndex req -! 1), r)
    else
      let r := for_each (Entries req) append_entry r in
      let r := follow_commit (LeaderCommit req) r in
      (mkAppendEntriesResponse (currentTerm r) true (lastLogIndex r), r).

(** ** Advancing the commit index *)

(** The nodes known to hold the entry at [n]: the map [voters]. *)
Definition replicated_at (n : Z) (r : Raft) : gmap string bool :=
  map_fold (λ peerID mIdx voters,
    if n <=? mIdx then <[peerID := true]> voters else voters)
    {[ node_id r := true ]} (matchIndex r).

(** [func (r Raft) checkCommitMajority(n int64) bool] *)
Definition checkCommitMajority (n : Z) (r : Raft) : bool :=
  match currentConfig r with
  | Some _ => HasMajority (currentConfig r) (node_id r) (replicated_at n r)
  | None =>
      let majority := Z.quot (Z.of_nat (size (peers r)) + 1) 2 + 1 in
      let count :=
        map_fold (λ _ mIdx count, if n <=? mIdx then count + 1 else count) 1
          (matchIndex r) in
      majority <=? count
  end.

(** One turn of the commit loop. *)
Definition try_commit (n : Z) (r : Raft) : Raft :=
  if getEntryTerm r n =? currentTerm r then
    if checkCommitMajority n r then applyLogs (r <| commitIndex := n |>) else r
  else r.

(** The old marks of [proposalTime], dropped when there are too many. *)
Definition clean_proposalTime (r : Raft) : Raft :=
  if 1000 <? Z.of_nat (size (proposalTime r)) then
    r <| proposalTime ::= filter (λ kv, ¬ kv.1 < commitIndex r -! 500) |>
  else r.

(** [func (r Raft) processAppendEntriesResponse(msg)] *)
Definition processAppendEntriesResponse (peerID : string)
    (resp : AppendEntriesResponse) (r : Raft) : Raft :=
  if currentTerm r <? aer_Term resp then transitionToFollower (aer_Term resp) r
  else if bool_decide (state r = Leader) && (aer_Term resp =? currentTerm r) then
    if Success resp then
      let r := r <| matchIndex ::= insert peerID (MatchIndex resp) |> in
      let r := r <| nextIndex ::= insert peerID (MatchIndex resp +! 1) |> in
      let r := clean_proposalTime r in
      let lastIdx := lastLogIndex r in
      for_each (index_range (commitIndex r +! 1) lastIdx) try_commit r
    else
      let r := r <| nextIndex ::= insert peerID (MatchIndex resp +! 1) |> in
      let r := if lookup_int (nextIndex r) peerID <? 1
               then r <| nextIndex ::= insert peerID 1 |> else r in
      emit (GoReplicateToPeer peerID) r
  else r.

(** ** Snapshots *)

(** The reception of one chunk: the buffer after it. *)
Definition receive_chunk (offset : Z) (data : bytes) (buf : bytes) : bytes :=
  let buf := if offset =? 0 then [] else buf in
  if offset =? Z.of_nat (length buf) then buf ++ data else buf.

(** [func (r Raft) processInstallSnapshot(req)] *)
Definition processInstallSnapshot (req : InstallSnapshotRequest) (r : Raft)
    : InstallSnapshotResponse * Raft :=
  if is_Term req <? currentTerm r then (mkInstallSnapshotResponse (currentTerm r), r)
  else
    let r := follow_leader (is_Term req) (is_LeaderId req) r in
    let r := r <| snapshotBuf ::= receive_chunk (Offset req) (Data req) |> in
    let r :=
      if Done req then
        let r :=
          match unmarshal_Snapshot (snapshotBuf r) with
          | Some snap => restoreSnapshot snap r
          | None => r
          end in
        r <| snapshotBuf := [] |>
      else r in
    (mkInstallSnapshotResponse (currentTerm r), r).

(** [func (r Raft) processInstallSnapshotResponse(msg)] *)
Definition processInstallSnapshotResponse (peerID : string)
    (resp : InstallSnapshotResponse) (r : Raft) : Raft :=
  if currentTerm r <? isr_Term resp then transitionToFollower (isr_Term resp) r
  else if bool_decide (state r = Leader) && (isr_Term resp =? currentTerm r) then
    let r := r <| matchIndex ::= insert peerID (lastIncludedIndex r) |> in
    let r := r <| nextIndex ::= insert peerID (lastIncludedIndex r +! 1) |> in
    emit (GoReplicateToPeer peerID) r
  else r.

(** ** Dispatch *)

(** The messages of [rpcCh]: [preVoteReqMsg], the three requests, and the
    responses with the peer they come from. *)
Inductive rpcReq :=
| MPreVote (req : RequestVoteRequest)
| MRequestVote (req : RequestVoteRequest)
| MAppendEntries (req : AppendEntriesRequest)
| MInstallSnapshot (req : InstallSnapshotRequest)
| MPreVoteResp (peerID : string) (resp : RequestVoteResponse)
| MVoteResp (peerID : string) (resp : RequestVoteResponse)
| MAppendResp (peerID : string) (resp : AppendEntriesResponse)
| MSnapshotResp (peerID : string) (resp : InstallSnapshotResponse).

(** What goes back on [msg.resp]. *)
Inductive rpcResp :=
| RNone
| RVote (resp : RequestVoteResponse)
| RAppend (resp : AppendEntriesResponse)
| RSnapshot (resp : InstallSnapshotResponse).

(** [func (r Raft) handleRPC(msg rpcReq)] *)
Definition handleRPC (msg : rpcReq) (r : Raft) : rpcResp * Raft :=
  match msg with
  | MPreVote req => (RVote (processPreVote req r), r)
  | MRequestVote req =>
      let '(resp, r) := processRequestVote req r in (RVote resp, r)
  | MAppendEntries req =>
      let '(resp, r) := processAppendEntries req r in (RAppend resp, r)
  | MInstallSnapshot req =>
      let '(resp, r) := processInstallSnapshot req r in (RSnapshot resp, r)
  | MPreVoteResp p resp => (RNone, processPreVoteResponse p resp r)
  | MVoteResp p resp => (RNone, processRequestVoteResponse p resp r)
  | MAppendResp p resp => (RNone, processAppendEntriesResponse p resp r)
  | MSnapshotResp p resp => (RNone, processInstallSnapshotResponse p resp r)
  end.
End Replication.
