(* ===== verification/Client.v ===== *)
(** * Client operations: proposals, membership changes, reads, status

    The methods of [raft/raft.go] the HTTP layer calls, and the two handlers
    that put their requests into the log. *)

From stdpp Require Import sorting.
From S2P Require Import Prelude Types Config Json Envelope Disk Wal SnapshotStore.
From S2P Require Import Node Roles Election Apply Replication.

Section Client.
Context {PC : ProtoCodec} {DL : Dialer}.

(** [func (r Raft) handleClientCommand(msg cmdReq)] *)
Definition handleClientCommand (cmd : bytes) (resp : nat) (r : Raft) : Raft :=
  if bool_decide (state r ≠ Leader) then
    emit (SendResp resp (mkCmdResp false (Some "not the leader"))) r
  else
    let entry := mkLogEntry (lastLogIndex r +! 1) (currentTerm r) cmd in
    let r := r <| log ::= λ l, l ++ [entry] |> in
    match wal_do (λ w, AppendEntry w entry) r with
    | (Some e, r) => emit (SendResp resp (mkCmdResp false (Some e))) r
    | (None, r) =>
        let r := r <| proposalTime ::= insert (Index entry) (clock r) |> in
        let p := mkProposal (Index entry) (Term entry) resp in
        let r := r <| proposals ::= λ l, l ++ [p] |> in
        let r := broadcastHeartbeats r in
        if bool_decide (effectivePeers r = ∅) && checkCommitMajority (Index entry) r then
          applyLogs (r <| commitIndex := Index entry |>)
        else r
    end.

(** [func (r Raft) handleConfigChange(msg configChangeReq)] *)
Definition handleConfigChange (req : ConfigChangeRequest) (resp : nat) (r : Raft)
    : Raft :=
  if bool_decide (state r ≠ Leader) then
    emit (SendResp resp (mkCmdResp false (Some "not the leader"))) r
  else if pendingConfig r then
    emit (SendResp resp (mkCmdResp false (Some "config change already in flight"))) r
  else if bool_decide (currentConfig r = None) then
    emit (SendResp resp
      (mkCmdResp false (Some "cluster configuration not initialized"))) r
  else
    match BuildJointConfig (currentConfig r) (node_id r) req with
    | Err e => emit (SendResp resp (mkCmdResp false (Some e))) r
    | Ok jointConfig =>
        match EncodeConfigChangeEntry (Some jointConfig) with
        | Err e =>
            emit (SendResp resp
              (mkCmdResp false (Some ("failed to encode config change: " +:+ e)))) r
        | Ok configData =>
            let entry := mkLogEntry (lastLogIndex r +! 1) (currentTerm r) configData in
            let r := r <| log ::= λ l, l ++ [entry] |> in
            match wal_do (λ w, AppendEntry w entry) r with
            | (Some e, r) => emit (SendResp resp (mkCmdResp false (Some e))) r
            | (None, r) =>
                let r := r <| proposalTime ::= insert (Index entry) (clock r) |> in
                let r := r <| pendingConfig := true |> in
                let r := r <| configChangeIndex := Index entry |> in
                let r := applyConfigEntry jointConfig r in
                let r := connectToNewPeers r in
                let p := mkProposal (Index entry) (Term entry) resp in
                let r := r <| proposals ::= λ l, l ++ [p] |> in
                broadcastHeartbeats r
            end
        end
    end.
End Client.

(** [func (r Raft) ProposeWithClient(...)], up to the send on [cmdCh]: the
    bytes that reach [handleClientCommand]. *)
Definition ProposeWithClient (op key val clientID : string) (requestID : Z)
    : result bytes :=
  EncodeCommandEntry (marshal_Command (mkCommand op key val clientID requestID)).

(** [func (r Raft) Propose(op, key, val string)] *)
Definition Propose (op key val : string) : result bytes :=
  ProposeWithClient op key val "" 0.

(** ** Reads *)

(** The request [confirmLeaderQuorum] sends to each peer, and the state it
    reads under the lock; [None] when the node no longer leads [term]. *)
Definition confirm_requests (term : Z) (r : Raft)
    : option (list (string * result AppendEntriesRequest)) :=
  if bool_decide (state r ≠ Leader) || negb (currentTerm r =? term) then None
  else Some (map (λ peer,
    (peer.1, sendAppendEntries r peer.1 term (lastLogIndex r) (lastLogTerm r) []
               (commitIndex r))) (map_to_list (effectivePeers r))).

(** What the loop of [confirmLeaderQuorum] receives in one turn: a result of
    a peer, or the end of the 500 ms. *)
Inductive ConfirmEvent := CResult (peerID : string) (ok : bool) | CTimeout.

(** The test after each event. *)
Definition confirm_majority (config : option ClusterConfig) (selfID : string)
    (peerCount : nat) (ackMap : gmap string bool) : bool :=
  match config with
  | Some _ => HasMajority config selfID ackMap
  | None => Z.quot (Z.of_nat peerCount + 1) 2 + 1 <=? Z.of_nat (size ackMap)
  end.

(** The loop, at most one event per peer: the [break] of the timeout case
    leaves only the [select]. *)
Fixpoint confirm_loop (config : option ClusterConfig) (selfID : string)
    (peerCount : nat) (turns : nat) (events : list ConfirmEvent)
    (ackMap : gmap string bool) : bool :=
  match turns, events with
  | S turns, ev :: events =>
      let ackMap := match ev with
                    | CResult p true => <[p := true]> ackMap
                    | _ => ackMap
                    end in
      if confirm_majority config selfID peerCount ackMap then true
      else confirm_loop config selfID peerCount turns events ackMap
  | _, _ => confirm_majority config selfID peerCount ackMap
  end.

(** [func (r Raft) confirmLeaderQuorum(term int64) bool] on the events it
    receives; [r] is the node under the first lock, [r'] when the events are
    in. *)
Definition confirmLeaderQuorum (term : Z) (events : list ConfirmEvent)
    (r r' : Raft) : bool * Raft :=
  if bool_decide (state r ≠ Leader) || negb (currentTerm r =? term) then (false, r')
  else
    let allPeers := effectivePeers r in
    if bool_decide (allPeers = ∅) then
      (true, r' <| lastHeartbeatQuorum := Some (clock r') |>)
    else
      let ok := confirm_loop (currentConfig r) (node_id r) (size allPeers)
                  (size allPeers) events {[ node_id r := true ]} in
      (ok, if ok then r' <| lastHeartbeatQuorum := Some (clock r') |> else r').

(** The answer of [Get]: the value, whether the key is there, and whether the
    node could serve the read. *)
Definition GetResult : Type := string * bool * bool.

Definition read_kv (r : Raft) (key : string) : GetResult :=
  (lookup_str (kv r) key, bool_decide (is_Some (kv r !! key)), true).

Definition no_read : GetResult := ("", false, false).

(** What [Get] does under its first lock: it answers, or goes on to confirm
    its leadership with the read index and the term it saw. *)
Inductive GetStep := GetAnswer (res : GetResult) | GetConfirm (readIndex term : Z).

(** [func (r Raft) Get(key string)], up to [confirmLeaderQuorum] *)
Definition Get_start (key : string) (r : Raft) : GetStep :=
  if bool_decide (state r ≠ Leader) then GetAnswer no_read
  else
    let mode := if bool_decide (readSafety r = "") then "safe" else readSafety r in
    if bool_decide (mode = "local") then GetAnswer (read_kv r key)
    else if bool_decide (mode = "lease")
            && heard_within r (lastHeartbeatQuorum r) (milliseconds 250) then
      GetAnswer (read_kv r key)
    else GetConfirm (commitIndex r) (currentTerm r).

(** [func (r Raft) waitForAppliedIndex(readIndex, timeout) bool]: the nodes
    it looks at before the deadline, one per poll. *)
Definition waitForAppliedIndex (readIndex : Z) (polls : list Raft) : bool :=
  existsb (λ r, readIndex <=? lastApplied r) polls.

(** The rest of [Get]: [confirmed] is the result of [confirmLeaderQuorum],
    [r] the node under the last lock. *)
Definition Get_finish (key : string) (readIndex term : Z) (confirmed : bool)
    (polls : list Raft) (r : Raft) : GetResult :=
  if negb confirmed then no_read
  else if negb (waitForAppliedIndex readIndex polls) then no_read
  else if bool_decide (state r ≠ Leader) || negb (currentTerm r =? term) then no_read
  else read_kv r key.

(** ** Status and settings *)

(** [func (r Raft) IsLeader() (bool, string)] *)
Definition IsLeader (r : Raft) : bool * string :=
  if bool_decide (state r = Leader) then (true, node_id r) else (false, votedFor r).

(** [func (r Raft) GetID() string] *)
Definition GetID (r : Raft) : string := node_id r.

(** The map [GetStatus] returns. *)
Record NodeStatus := mkNodeStatus {
  st_node_id : string;
  st_role : string;
  st_current_term : Z;
  st_commit_index : Z;
  st_last_applied : Z;
  st_log_length : Z;
  st_voted_for : string;
  st_cluster_members : list string;
  st_cluster_size : Z;
  st_joint_consensus : bool;
  st_pending_config_change : bool
}.

(** [sort.Strings] on the keys of a map. *)
Definition string_le (a b : string) : Prop := String.leb a b = true.
#[export] Instance string_le_dec : RelDecision string_le.
Proof. intros a b. unfold string_le. apply _. Defined.

Definition sorted_members_of (m : gset string) : list string :=
  merge_sort string_le (elements m).

(** [func (r Raft) GetStatus()] *)
Definition GetStatus (r : Raft) : NodeStatus :=
  let role := match state r with
              | Leader => "leader" | Candidate => "candidate" | _ => "follower"
              end in
  let memberMap : gset string :=
    match currentConfig r with
    | Some c => dom (NewPeers c) ∪ (if Joint c then dom (OldPeers c) else ∅)
    | None => {[ node_id r ]} ∪ dom (peers r)
    end in
  let members := sorted_members_of memberMap in
  mkNodeStatus (node_id r) role (currentTerm r) (commitIndex r) (lastApplied r)
    (lastLogIndex r) (votedFor r) members (Z.of_nat (length members))
    (match currentConfig r with Some c => Joint c | None => false end)
    (match currentConfig r with Some _ => pendingConfig r | None => false end).

(** [SetReadSafety], [SetPartition], [SetNetworkDelay], [SetJoining],
    [SetPeerHTTPAddrs], [GetPeerHTTPAddrs] *)
Definition SetReadSafety (mode : string) (r : Raft) : Raft := r <| readSafety := mode |>.
Definition SetPartition (p : option (gmap string bool)) (r : Raft) : Raft :=
  r <| partition := p |>.
Definition SetNetworkDelay (d : Z) (r : Raft) : Raft := r <| networkDelay := d |>.
Definition SetJoining (joining : bool) (r : Raft) : Raft := r <| isJoining := joining |>.
Definition SetPeerHTTPAddrs (addrs : gmap string string) (r : Raft) : Raft :=
  r <| peerHTTPAddrs := addrs |>.
Definition GetPeerHTTPAddrs (r : Raft) : gmap string string := copyMap (peerHTTPAddrs r).
