(* ===== verification/Startup.v ===== *)
(** * Start and stop of a node

    [NewRaft], [InitClusterConfig], [loadState], [Start] and [Stop] of
    [raft/raft.go]. *)

From S2P Require Import Prelude Types Config Json Envelope Disk Wal SnapshotStore.
From S2P Require Import Node Roles Election Apply Replication.

Section Startup.
Context {PC : ProtoCodec} {DL : Dialer}.

(** The fields [loadState] takes from a snapshot. *)
Definition load_snapshot (snap : Snapshot) (r : Raft) : Raft :=
  let r := r <| kv := KVState snap |> <| dedupTable := DedupTable snap |>
             <| lastIncludedIndex := snap_LastIncludedIndex snap |>
             <| lastIncludedTerm := snap_LastIncludedTerm snap |>
             <| commitIndex := snap_LastIncludedIndex snap |>
             <| lastApplied := snap_LastIncludedIndex snap |> in
  match snap_ClusterConfig snap with
  | None => r
  | Some c =>
      let r := r <| currentConfig := Some (copy_config c) |> in
      let r := r <| peers := AllNodeGRPC (currentConfig r) (node_id r) |> in
      r <| peerHTTPAddrs := AllNodeHTTP (currentConfig r) (node_id r) |>
  end.

(** The fields [loadState] takes from the replayed log. *)
Definition load_records (st : ReplayState) (r : Raft) : Raft :=
  let '(term, vote, entries) := st in
  let r := if 0 <? term then r <| currentTerm := term |> <| votedFor := vote |> else r in
  r <| log ::= λ l, l ++ filter (λ e, lastIncludedIndex r < Index e) entries |>.

(** [func (r Raft) loadState() error] *)
Definition loadState (r : Raft) : result Raft :=
  let '(res, d) := LoadSnapshot (snapshotPath r) (disk r) in
  let r := r <| disk := d |> in
  match res with
  | Err e => Err e
  | Ok snap =>
      let r := match snap with
               | Some snap => load_snapshot snap r
               | None => r <| kv := ∅ |>
               end in
      let '(res, d) := Replay (wal r) (disk r) in
      let r := r <| disk := d |> in
      match res with
      | None => Err "out of fuel"
      | Some (Err e) => Err e
      | Some (Ok st) => Ok (applyLogs (load_records st r))
      end
  end.

(** The node [NewRaft] builds before it loads its state. *)
Definition initial_node (id : string) (peers : gmap string string)
    (storageDir : string) (wal : WAL) (snapshotThreshold : Z) (now : Z) (d : Disk)
    : Raft :=
  mkRaft id peers ∅ Follower 0 "" [] ∅ [] 0 0 0 0 ∅ ∅ false wal d
    (storageDir +:+ "/snapshot.json") ∅ ∅ [] (Some (ConfigFromPeers peers ∅ id))
    false 0 ∅ ∅ false "safe" None None ∅ snapshotThreshold None 0 now [].

(** [func NewRaft(...)]; the TLS paths are in the [Dialer]. *)
Definition NewRaft (id : string) (peers : gmap string string) (storageDir : string)
    (snapshotThreshold now : Z) (d : Disk) : result Raft :=
  match OpenWAL (storageDir +:+ "/wal.log") d with
  | (Err e, _) => Err e
  | (Ok wal, d) =>
      match loadState (initial_node id peers storageDir wal snapshotThreshold now d) with
      | Err e => Err ("failed to load persistent state: " +:+ e)
      | Ok r => Ok r
      end
  end.

(** [func (r Raft) InitClusterConfig(grpcPeers, httpPeers)] *)
Definition InitClusterConfig (grpcPeers httpPeers : gmap string string) (r : Raft)
    : Raft :=
  match currentConfig r with
  | None =>
      r <| currentConfig := Some (ConfigFromPeers grpcPeers httpPeers (node_id r)) |>
        <| peerHTTPAddrs := copyMap httpPeers |>
  | Some _ => r
  end.

(** [func (r Raft) Start() error]: the goroutine [run] arms the election timer
    first. *)
Definition Start (r : Raft) : option string * Raft :=
  match connectToPeers r with
  | (Some e, r) => (Some e, r)
  | (None, r) => (None, r <| timer_armed := true |>)
  end.

(** [func (r Raft) Stop()] *)
Definition Stop (r : Raft) : Raft :=
  if bool_decide (state r = Shutdown) then r
  else
    let r := r <| state := Shutdown |> in
    let r := for_each (map_to_list (grpcPeers r)) (λ peer, emit (ConnClose peer.1)) r in
    let '(_, w, d) := Close (wal r) (disk r) in
    r <| wal := w |> <| disk := d |>.
End Startup.
