(* ===== verification/NodeFacts.v ===== *)
(** * Lemmas on the node: what the small steps change, and index translation

    [for_each_emit] and the [_frame] lemmas give each auxiliary method as one
    record update, so that a field it leaves alone is read by [rsimpl].
    [log_wf] is the layout of the log: consecutive indices after the last
    index of the snapshot. *)

From S2P Require Import Prelude Types Config Disk Wal SnapshotStore Node Roles.

#[global] Arguments for_each : simpl never.
#[global] Arguments upd : simpl never.

(** Two nests of updates of one node that set the same fields. *)
Ltac solve_upd :=
  repeat match goal with r : Raft |- _ => destruct r end;
  lazy beta iota zeta delta
    [emit upd node_id peers grpcPeers state currentTerm votedFor log votesReceived
     proposals lastIncludedIndex lastIncludedTerm commitIndex lastApplied nextIndex
     matchIndex timer_armed wal disk snapshotPath kv dedupTable snapshotBuf
     currentConfig pendingConfig configChangeIndex peerHTTPAddrs proposalTime
     isJoining readSafety lastHeartbeatQuorum lastLeaderHeartbeat
     preVoteVotesReceived snapshotThreshold partition networkDelay clock effects];
  try reflexivity.

(** ** Frames *)

Lemma for_each_nil {A} (body : A → Raft → Raft) r : for_each [] body r = r.
Proof. done. Qed.

Lemma for_each_cons {A} x (l : list A) (body : A → Raft → Raft) r :
  for_each (x :: l) body r = for_each l body (body x r).
Proof. done. Qed.

Lemma for_each_app {A} (l1 l2 : list A) (body : A → Raft → Raft) r :
  for_each (l1 ++ l2) body r = for_each l2 body (for_each l1 body r).
Proof. apply foldl_app. Qed.

(** A property every turn of a loop preserves. *)
Lemma for_each_ind {A} (P : Raft → Prop) (l : list A) (body : A → Raft → Raft) r :
  (∀ x r, x ∈ l → P r → P (body x r)) → P r → P (for_each l body r).
Proof.
  revert r. induction l as [|x l IH]; intros r Hstep Hr; [done|].
  rewrite for_each_cons. apply IH; [|apply Hstep; [left|done]].
  intros y r' Hy. apply Hstep. by right.
Qed.

Lemma for_each_emit {A} (f : A → Effect) (l : list A) (r : Raft) :
  for_each l (λ x, emit (f x)) r = r <| effects ::= λ es, es ++ map f l |>.
Proof.
  revert r. induction l as [|x l IH]; intros r; simpl.
  - solve_upd. by rewrite app_nil_r.
  - rewrite for_each_cons, IH. solve_upd. by rewrite <- (assoc_L (++)).
Qed.

Lemma broadcastHeartbeats_frame r :
  broadcastHeartbeats r =
    r <| effects ::= λ es, es ++ map (λ peer, GoReplicateToPeer peer.1)
                                   (map_to_list (effectivePeers r)) |>.
Proof. apply for_each_emit. Qed.

(** The answer every pending proposal gets on a step down. *)
Definition step_down_answer (p : proposal) : Effect :=
  SendResp (p_respCh p) (mkCmdResp false (Some "node transitioned to follower")).

Lemma transitionToFollower_frame term r :
  transitionToFollower term r =
    r <| state := Follower |> <| currentTerm := term |> <| votedFor := "" |>
      <| timer_armed := true |>
      <| effects ::= λ es, es ++ map step_down_answer (proposals r) |>
      <| proposals := [] |>.
Proof. unfold transitionToFollower. by rewrite for_each_emit. Qed.

Lemma wal_try_frame op r : wal_try op r = r <| disk := (op (wal r) (disk r)).2 |>.
Proof. unfold wal_try, wal_do. by destruct (op (wal r) (disk r)). Qed.

Lemma wal_do_frame op r :
  wal_do op r = ((op (wal r) (disk r)).1, r <| disk := (op (wal r) (disk r)).2 |>).
Proof. unfold wal_do. by destruct (op (wal r) (disk r)). Qed.

Lemma connectToPeersLocked_frame `{!Dialer} r :
  ∃ g, (connectToPeersLocked r).2 = r <| grpcPeers := g |>.
Proof.
  unfold connectToPeersLocked.
  assert (∀ l (st : option string * Raft), (∃ g, st.2 = r <| grpcPeers := g |>) →
    ∃ g, (foldl (λ (st : option string * Raft) (peer : string * string),
      let '(err, r) := st in
      match err with
      | Some _ => st
      | None =>
        match grpcPeers r !! peer.1 with
        | Some _ => st
        | None =>
            match LoadClientCredentials with
            | Some e => (Some ("failed to load credentials for client mTLS connecting to "
                               +:+ peer.1 +:+ ": " +:+ e), r)
            | None =>
                match grpc_Dial peer.2 with
                | Some e => (Some ("failed to dial peer " +:+ peer.1 +:+ " at " +:+ peer.2
                                   +:+ ": " +:+ e), r)
                | None => (None, r <| grpcPeers ::= insert peer.1 peer.2 |>)
                end
            end
        end
      end) st l).2 = r <| grpcPeers := g |>) as Hl; cycle 1.
  { apply Hl. exists (grpcPeers r). solve_upd. }
  induction l as [|[p a] l IH]; intros [e s] [g Hs]; simpl in *; [eauto|].
  apply IH. subst s. repeat case_match; simplify_eq; simpl; try by eexists.
Qed.

Lemma init_progress_frame lastIdx r :
  ∃ n m, init_progress lastIdx r = r <| nextIndex := n |> <| matchIndex := m |>.
Proof.
  unfold init_progress. generalize (map_to_list (effectivePeers r)) as l.
  intros l. revert r. induction l as [|p l IH]; intros r.
  - exists (nextIndex r), (matchIndex r). solve_upd.
  - rewrite for_each_cons. edestruct IH as (n & m & ->). exists n, m. solve_upd.
Qed.

Lemma connectToNewPeers_frame `{!Dialer} r :
  ∃ g n m, connectToNewPeers r =
    r <| grpcPeers := g |> <| nextIndex := n |> <| matchIndex := m |>.
Proof.
  unfold connectToNewPeers. generalize (map_to_list (effectivePeers r)) as l.
  intros l. revert r. induction l as [|p l IH]; intros r.
  - exists (grpcPeers r), (nextIndex r), (matchIndex r). solve_upd.
  - rewrite for_each_cons. edestruct IH as (g & n & m & ->).
    exists g, n, m. repeat case_match; solve_upd.
Qed.

Lemma disconnectRemovedPeers_frame r :
  ∃ g n m gone, disconnectRemovedPeers r =
    r <| effects ::= λ es, es ++ map ConnClose gone |>
      <| grpcPeers := g |> <| nextIndex := n |> <| matchIndex := m |>.
Proof.
  unfold disconnectRemovedPeers.
  generalize (effectivePeers r), (map_to_list (grpcPeers r)). intros a l.
  revert r. induction l as [|p l IH]; intros r.
  - exists (grpcPeers r), (nextIndex r), (matchIndex r), []. solve_upd.
    by rewrite app_nil_r.
  - rewrite for_each_cons. edestruct IH as (g & n & m & gone & ->). case_match.
    + by exists g, n, m, gone.
    + exists g, n, m, (p.1 :: gone). solve_upd. by rewrite <- (assoc_L (++)).
Qed.

(** ** The layout of the log *)

(** [l] holds the entries [base + 1], [base + 2], ... *)
Definition layout (base : Z) (l : list LogEntry) : Prop :=
  ∀ i e, l !! i = Some e → Index e = base + 1 + Z.of_nat i.

(** The layout of a node's log, whose indices are [int64]s. *)
Definition log_wf (r : Raft) : Prop :=
  0 ≤ lastIncludedIndex r ∧
  lastIncludedIndex r + Z.of_nat (length (log r)) < max_int64 ∧
  layout (lastIncludedIndex r) (log r).

Lemma layout_nil base : layout base [].
Proof. intros i e. by rewrite lookup_nil. Qed.

Lemma layout_app base l1 l2 :
  layout base (l1 ++ l2) ↔ layout base l1 ∧ layout (base + Z.of_nat (length l1)) l2.
Proof.
  split.
  - intros H. split; intros i e Hi.
    + apply H. rewrite lookup_app_l; [done|]. by apply lookup_lt_Some in Hi.
    + rewrite (H (length l1 + i)%nat e); [lia|].
      rewrite lookup_app_r by lia. by replace (length l1 + i - length l1)%nat with i by lia.
  - intros [H1 H2] i e Hi. apply lookup_app_Some in Hi as [Hi|[Hlen Hi]]; [auto|].
    apply H2 in Hi. lia.
Qed.

Lemma layout_singleton base e : layout base [e] ↔ Index e = base + 1.
Proof.
  split; [intros H; rewrite (H 0%nat e); [lia|done]|].
  intros He i e' Hi. apply list_lookup_singleton_Some in Hi as [-> <-]. lia.
Qed.

Lemma layout_cons base e l : layout base (e :: l) ↔ Index e = base + 1 ∧ layout (base + 1) l.
Proof.
  change (e :: l) with ([e] ++ l). rewrite layout_app, layout_singleton. simpl.
  by replace (base + Z.of_nat 1) with (base + 1) by lia.
Qed.

Lemma layout_take base n l : layout base l → layout base (take n l).
Proof. intros H i e Hi. apply H. by apply lookup_take_Some in Hi as [? _]. Qed.

Lemma layout_drop base n l :
  layout base l → layout (base + Z.of_nat n) (drop n l).
Proof. intros H i e Hi. rewrite lookup_drop in Hi. apply H in Hi. lia. Qed.

Lemma layout_filter_gt base b l :
  layout base l → base ≤ b →
  filter (λ e, b < Index e) l = drop (Z.to_nat (b - base)) l.
Proof.
  revert base. induction l as [|e l IH]; intros base Hl Hb.
  { by rewrite drop_nil. }
  apply layout_cons in Hl as [He Hl].
  destruct (decide (b = base)) as [->|].
  - replace (Z.to_nat (base - base)) with 0%nat by lia. rewrite drop_0.
    apply filter_Forall_id, Forall_forall. intros x Hx.
    apply list_elem_of_lookup in Hx as [i Hi].
    destruct i as [|i]; simpl in Hi; [simplify_eq; lia|]. apply Hl in Hi. lia.
  - rewrite filter_cons_False by lia. rewrite (IH (base + 1)) by (done || lia).
    replace (Z.to_nat (b - base)) with (S (Z.to_nat (b - (base + 1)))) by lia. done.
Qed.

Lemma last_layout base l :
  layout base l →
  match last l with Some e => Index e | None => base end = base + Z.of_nat (length l).
Proof.
  intros H. destruct (last l) as [e|] eqn:Hl.
  - rewrite last_lookup in Hl. pose proof (lookup_lt_Some _ _ _ Hl).
    apply H in Hl. lia.
  - apply last_None in Hl as ->. simpl. lia.
Qed.

Lemma lastLogIndex_wf r :
  log_wf r → lastLogIndex r = lastIncludedIndex r + Z.of_nat (length (log r)).
Proof. intros (_ & _ & H). by apply last_layout. Qed.

(** The entry at an index: the snapshot's last entry, one of the log, or none. *)
Lemma getEntry_wf r i :
  log_wf r → is_int64 i →
  getEntry r i =
    if decide (i = lastIncludedIndex r)
    then Some (mkLogEntry (lastIncludedIndex r) (lastIncludedTerm r) [])
    else if decide (lastIncludedIndex r < i)
    then log r !! Z.to_nat (i - lastIncludedIndex r - 1) else None.
Proof.
  intros (H0 & Hm & Hl) Hi. unfold getEntry, is_int64 in *.
  case_decide; [by rewrite bool_decide_eq_true_2|].
  rewrite bool_decide_eq_false_2 by done.
  case_decide.
  - destruct (Z.ltb_spec i (lastIncludedIndex r)); [lia|].
    int64_simpl. destruct (Z.leb_spec 0 (i - lastIncludedIndex r - 1)); [|lia].
    destruct (Z.ltb_spec (i - lastIncludedIndex r - 1) (Z.of_nat (length (log r)))); [done|].
    simpl. symmetry. apply lookup_ge_None_2. lia.
  - destruct (Z.ltb_spec i (lastIncludedIndex r)); [done|lia].
Qed.

Lemma getEntry_log r i :
  log_wf r → lastIncludedIndex r < i → is_int64 i →
  getEntry r i = log r !! Z.to_nat (i - lastIncludedIndex r - 1).
Proof. intros. rewrite getEntry_wf by done. by rewrite decide_False, decide_True by lia. Qed.

Lemma getEntry_is_Some r i :
  log_wf r → is_int64 i →
  is_Some (getEntry r i) ↔ lastIncludedIndex r ≤ i ≤ lastLogIndex r.
Proof.
  intros Hwf Hi. rewrite (lastLogIndex_wf r Hwf), getEntry_wf by done.
  case_decide; [subst; split; [lia|eauto]|].
  case_decide; [|split; [by intros [? ?]|lia]].
  rewrite lookup_lt_is_Some. lia.
Qed.

Lemma getEntry_Index r i e :
  log_wf r → is_int64 i → getEntry r i = Some e → Index e = i.
Proof.
  intros Hwf Hi He. rewrite getEntry_wf in He by done.
  case_decide; [simplify_eq; done|]. case_decide; [|done].
  destruct Hwf as (? & ? & Hl). apply Hl in He. lia.
Qed.

(** Logs that agree on their fields agree on every access. *)
Lemma getEntry_ext r r' i :
  lastIncludedIndex r' = lastIncludedIndex r →
  lastIncludedTerm r' = lastIncludedTerm r → log r' = log r →
  getEntry r' i = getEntry r i.
Proof. unfold getEntry. by intros -> -> ->. Qed.

Lemma lastLogIndex_ext r r' :
  lastIncludedIndex r' = lastIncludedIndex r → log r' = log r →
  lastLogIndex r' = lastLogIndex r.
Proof. unfold lastLogIndex. by intros -> ->. Qed.

Lemma log_wf_ext r r' :
  lastIncludedIndex r' = lastIncludedIndex r → log r' = log r → log_wf r → log_wf r'.
Proof. unfold log_wf. by intros -> ->. Qed.

(** Appending the next entry keeps the layout. *)
Lemma log_wf_snoc r e :
  log_wf r → Index e = lastLogIndex r + 1 → lastLogIndex r + 1 < max_int64 →
  log_wf (r <| log ::= λ l, l ++ [e] |>).
Proof.
  intros Hwf He Hmax. rewrite (lastLogIndex_wf r Hwf) in *. destruct Hwf as (H0 & Hm & Hl).
  unfold log_wf. rsimpl. rewrite length_app. cbn [length].
  split_and!; [done|lia|]. apply layout_app. split; [done|].
  apply layout_singleton. lia.
Qed.

(** The layout is decidable. *)
#[export] Instance layout_dec base l : Decision (layout base l).
Proof.
  revert base. induction l as [|e l IH]; intros base.
  - left. apply layout_nil.
  - destruct (decide (Index e = base + 1)) as [He|He].
    + destruct (IH (base + 1)) as [Hl|Hl].
      * left. by apply layout_cons.
      * right. by intros [_ ?]%layout_cons.
    + right. by intros [? _]%layout_cons.
Defined.

#[export] Instance log_wf_dec r : Decision (log_wf r).
Proof. unfold log_wf. apply _. Defined.
