(* ===== verification/ReplicationFacts.v ===== *)
(** * Lemmas on replication

    [append_entries_reconcile]: the append loop of [processAppendEntries] is
    the reference merge [reconcile] of the node's log with the leader's. *)

From S2P Require Import Prelude Types Config Json Envelope Disk Wal SnapshotStore.
From S2P Require Import Node Roles Election Apply Replication NodeFacts.

(** The rule of Raft: keep what agrees, at the first conflict of terms replace
    the rest, append what is missing. *)
Fixpoint reconcile (mine theirs : list LogEntry) : list LogEntry :=
  match mine, theirs with
  | [], _ => theirs
  | _, [] => mine
  | m :: mine', t :: theirs' =>
      if bool_decide (Term m = Term t) then m :: reconcile mine' theirs' else theirs
  end.

Lemma reconcile_nil_r l : reconcile l [] = l.
Proof. by destruct l. Qed.

Lemma layout_reconcile base l1 l2 :
  layout base l1 → layout base l2 → layout base (reconcile l1 l2).
Proof.
  revert base l2. induction l1 as [|m l1 IH]; intros base [|t l2] H1 H2; simpl; [done..|].
  case_bool_decide; [|done].
  apply layout_cons in H1 as [Hm H1]. apply layout_cons in H2 as [Ht H2].
  apply layout_cons. auto.
Qed.

Lemma length_reconcile l1 l2 :
  (length l2 ≤ length (reconcile l1 l2) ≤ length l1 `max` length l2)%nat.
Proof.
  revert l2. induction l1 as [|m l1 IH]; intros [|t l2]; simpl; [lia..|].
  case_bool_decide; simpl; [specialize (IH l2)|]; lia.
Qed.

(** The merged log carries the leader's terms where the leader has entries. *)
Lemma reconcile_lookup_term l1 l2 i t :
  l2 !! i = Some t → ∃ e, reconcile l1 l2 !! i = Some e ∧ Term e = Term t.
Proof.
  revert l2 i. induction l1 as [|m l1 IH]; intros [|t' l2] i; simpl; [by eauto..|].
  intros Hi. case_bool_decide; [|eauto].
  destruct i as [|i]; simpl in *; [simplify_eq; eauto|]. by apply IH.
Qed.

Section AppendEntries.
Context `{!ProtoCodec}.

(** Only the log and the disk differ from [r]. *)
Definition log_step (r r' : Raft) : Prop :=
  ∃ l d, r' = r <| log := l |> <| disk := d |>.

Lemma log_step_refl r : log_step r r.
Proof. exists (log r), (disk r). solve_upd. Qed.

Lemma log_step_log r r' f : log_step r r' → log_step r (r' <| log ::= f |>).
Proof. intros (l & d & ->). exists (f l), d. solve_upd. Qed.

Lemma log_step_wal r r' op : log_step r r' → log_step r (wal_try op r').
Proof.
  intros (l & d & ->). rewrite wal_try_frame. generalize (op (wal (r <| log := l |> <| disk := d |>))
    (disk (r <| log := l |> <| disk := d |>))). intros [? d']. exists l, d'. solve_upd.
Qed.

Lemma append_entry_frame e r : log_step r (append_entry e r).
Proof.
  unfold append_entry. cbv zeta. pose proof (log_step_refl r).
  repeat case_match; repeat first [apply log_step_wal | apply log_step_log]; done.
Qed.

Lemma append_entries_frame es r : log_step r (for_each es append_entry r).
Proof.
  apply for_each_ind; [|apply log_step_refl]. intros e r' _ (l & d & ->).
  destruct (append_entry_frame e (r <| log := l |> <| disk := d |>)) as (l' & d' & ->).
  exists l', d'. solve_upd.
Qed.

(** The log after one entry that continues the prefix up to [k]. *)
Lemma append_entry_log k e r :
  log_wf r → k ≤ lastLogIndex r → 0 ≤ k → Index e = k + 1 → k + 1 < max_int64 →
  log (append_entry e r) =
    if decide (k < lastIncludedIndex r) then log r
    else
      let n := Z.to_nat (k - lastIncludedIndex r) in
      match log r !! n with
      | Some x => if bool_decide (Term x = Term e) then log r else take n (log r) ++ [e]
      | None => log r ++ [e]
      end.
Proof.
  intros Hwf Hk H0 He Hmax. unfold append_entry. rewrite He.
  pose proof Hwf as (? & ? & _).
  destruct (Z.leb_spec (k + 1) (lastIncludedIndex r)); [by rewrite decide_True by lia|].
  rewrite decide_False by lia. cbv zeta. rewrite (lastLogIndex_wf r Hwf) in *.
  set (n := Z.to_nat (k - lastIncludedIndex r)) in *.
  destruct (Z.leb_spec (k + 1) (lastIncludedIndex r + Z.of_nat (length (log r)))) as [Hle|Hgt].
  - rewrite getEntry_log by (done || (unfold is_int64, max_int64 in *; lia)).
    replace (Z.to_nat (k + 1 - lastIncludedIndex r - 1)) with n by lia.
    destruct (log r !! n) as [x|] eqn:Hx; [|apply lookup_ge_None_1 in Hx; lia].
    destruct (decide (Term x = Term e)) as [Ht|Ht].
    + by rewrite bool_decide_eq_false_2, bool_decide_eq_true_2 by auto.
    + rewrite bool_decide_eq_true_2, bool_decide_eq_false_2 by done.
      rewrite !wal_try_frame. rsimpl. int64_simpl.
      by replace (Z.to_nat (k + 1 - lastIncludedIndex r - 1)) with n by lia.
  - rewrite lookup_ge_None_2 by lia. rewrite wal_try_frame. by rsimpl.
Qed.

Lemma append_entries_reconcile k es r :
  log_wf r → k ≤ lastLogIndex r → 0 ≤ k →
  layout k es → k + Z.of_nat (length es) < max_int64 →
  log (for_each es append_entry r) =
    take (Z.to_nat (k - lastIncludedIndex r)) (log r) ++
    reconcile (drop (Z.to_nat (k - lastIncludedIndex r)) (log r))
              (drop (Z.to_nat (lastIncludedIndex r - k)) es)
  ∧ log_wf (for_each es append_entry r).
Proof.
  revert k r. induction es as [|e es IH]; intros k r Hwf Hk H0 Hl Hmax.
  { rewrite drop_nil, reconcile_nil_r, take_drop. done. }
  apply layout_cons in Hl as [He Hl]. cbn [length] in Hmax.
  rewrite for_each_cons.
  pose proof (append_entry_log k e r Hwf Hk H0 He ltac:(lia)) as Hlog.
  destruct (append_entry_frame e r) as (l & d & Heq). rewrite Heq in *.
  rsimpl_hyps. set (r' := r <| log := l |> <| disk := d |>).
  assert (Hbase : lastIncludedIndex r' = lastIncludedIndex r) by (unfold r'; by rsimpl).
  assert (Hlog' : log r' = l) by (unfold r'; by rsimpl).
  clearbody r'. clear Heq. pose proof Hwf as (Hb0 & Hb1 & Hlay).
  rewrite (lastLogIndex_wf r Hwf) in Hk.
  set (n := Z.to_nat (k - lastIncludedIndex r)) in *.
  (* the node after one entry is well formed and holds it *)
  assert (log_wf r' ∧ k + 1 ≤ lastLogIndex r') as [Hwf' Hk'].
  { enough (log_wf r' ∧ k + 1 - lastIncludedIndex r ≤ Z.of_nat (length l)) as [Hw ?].
    { rewrite (lastLogIndex_wf r' Hw), Hbase, Hlog'. split; [done|lia]. }
    unfold log_wf. rewrite Hbase, Hlog'. case_decide; [subst l; split_and!; (done || lia)|].
    cbv zeta in Hlog. destruct (log r !! n) as [x|] eqn:Hx.
    - pose proof (lookup_lt_Some _ _ _ Hx). case_bool_decide; subst l; [split_and!; done || lia|].
      rewrite length_app, length_take. cbn [length]. split_and!; [lia|lia| |lia].
      apply layout_app. split; [by apply layout_take|]. apply layout_singleton.
      rewrite length_take. lia.
    - apply lookup_ge_None_1 in Hx. subst l. rewrite length_app. cbn [length].
      split_and!; [lia|lia| |lia]. apply layout_app. split; [done|].
      apply layout_singleton. lia. }
  destruct (IH (k + 1) r') as [IHl IHw]; [done|done|lia|done|lia|].
  split; [|done]. rewrite IHl, Hbase, Hlog'. clear IHl IHw IH.
  case_decide; cbv zeta in *.
  { subst l. replace (Z.to_nat (k + 1 - lastIncludedIndex r)) with 0%nat by lia.
    replace n with 0%nat by lia.
    replace (Z.to_nat (lastIncludedIndex r - k)) with
      (S (Z.to_nat (lastIncludedIndex r - (k + 1)))) by lia. done. }
  replace (Z.to_nat (k + 1 - lastIncludedIndex r)) with (S n) by lia.
  replace (Z.to_nat (lastIncludedIndex r - (k + 1))) with 0%nat by lia.
  replace (Z.to_nat (lastIncludedIndex r - k)) with 0%nat by lia. rewrite !drop_0.
  destruct (log r !! n) as [x|] eqn:Hx.
  - rewrite (drop_S _ _ _ Hx). cbn [reconcile]. pose proof (lookup_lt_Some _ _ _ Hx).
    case_bool_decide; subst l.
    + rewrite (take_S_r _ _ _ Hx). by rewrite <- (assoc_L (++)).
    + rewrite take_ge, drop_ge by (rewrite length_app, length_take; cbn [length]; lia).
      simpl. by rewrite <- (assoc_L (++)).
  - apply lookup_ge_None_1 in Hx. subst l.
    rewrite take_ge, drop_ge by (rewrite length_app; cbn [length]; lia).
    rewrite (take_ge (log r) n), (drop_ge (log r) n) by lia. simpl.
    by rewrite <- (assoc_L (++)).
Qed.
End AppendEntries.
