(* ===== verification/StateMachine.v ===== *)
(** * The replicated state machine

    The specification of the key-value store: a pure machine over the store
    and the table of client requests, and what it guarantees to a client that
    retries.  [sm_of] reads its state off a node; [apply_decoded] of the code
    is a step of it. *)

From S2P Require Import Prelude Types Config Json Envelope Disk Wal SnapshotStore.
From S2P Require Import Node Roles Apply NodeFacts.

(** The state of the machine. *)
Definition SM : Type := gmap string string * gmap string DedupEntry.

Definition sm_of (r : Raft) : SM := (kv r, dedupTable r).

(** The requests the machine has a command for. *)
Definition is_write (cmd : Command) : bool :=
  bool_decide (Op cmd = "PUT") || bool_decide (Op cmd = "DEL").

(** The plain store, without request identities. *)
Definition kv_write (cmd : Command) (m : gmap string string) : gmap string string :=
  if bool_decide (Op cmd = "PUT") then <[Key cmd := Val cmd]> m
  else if bool_decide (Op cmd = "DEL") then delete (Key cmd) m
  else m.

(** The last request applied for a client, 0 when there is none. *)
Definition last_request (t : gmap string DedupEntry) (client : string) : Z :=
  match t !! client with Some e => LastAppliedRequestID e | None => 0 end.

(** A command is applied unless it is a request at or below the last one of
    its client. *)
Definition sm_fresh (cmd : Command) (st : SM) : bool :=
  negb (has_request cmd) || (last_request st.2 (ClientID cmd) <? RequestID cmd).

Definition sm_command (cmd : Command) (st : SM) : SM :=
  if is_write cmd && sm_fresh cmd st then
    (kv_write cmd st.1,
     if has_request cmd then <[ClientID cmd := mkDedupEntry (RequestID cmd) "ok" "ok"]> st.2
     else st.2)
  else st.

Definition sm_commands (cmds : list Command) (st : SM) : SM :=
  foldl (λ st cmd, sm_command cmd st) st cmds.

(** The command an entry of the log carries, if any. *)
Definition entry_command (e : LogEntry) : option Command :=
  if bool_decide (Cmd e = []) then None
  else
    let env := DecodeLogEntry (Cmd e) in
    if env_Type env =? EntryCommand then
      match default [] (env_Data env) with
      | [] => None
      | data => unmarshal_Command data
      end
    else None.

(** The commands of a piece of the log, in its order. *)
Definition commands_of (es : list LogEntry) : list Command := omap entry_command es.

(** ** The code is a step of the machine *)

Lemma has_request_pos cmd : has_request cmd = true → 0 < RequestID cmd.
Proof. unfold has_request. intros [_ H]%andb_true_iff. by apply Z.ltb_lt. Qed.

Lemma is_duplicate_fresh cmd r :
  has_request cmd = true →
  is_duplicate cmd r = negb (last_request (dedupTable r) (ClientID cmd) <? RequestID cmd).
Proof.
  intros H%has_request_pos. unfold is_duplicate, last_request.
  destruct (dedupTable r !! ClientID cmd) as [e|].
  - by rewrite Z.leb_antisym.
  - by destruct (Z.ltb_spec 0 (RequestID cmd)); [|lia].
Qed.

Lemma remember_request_sm cmd r :
  sm_of (remember_request cmd r) =
    (kv r, if has_request cmd
           then <[ClientID cmd := mkDedupEntry (RequestID cmd) "ok" "ok"]> (dedupTable r)
           else dedupTable r).
Proof. unfold remember_request, sm_of. by destruct (has_request cmd); rsimpl. Qed.

Lemma apply_decoded_sm cmd r : sm_of (apply_decoded cmd r) = sm_command cmd (sm_of r).
Proof.
  unfold apply_decoded, sm_command, sm_fresh, is_write, kv_write, sm_of at 2 3 4 5 6. simpl.
  destruct (has_request cmd) eqn:Hr; simpl.
  - rewrite is_duplicate_fresh by done. destruct (_ <? _); simpl.
    + do 2 try case_bool_decide; simpl; rewrite ?remember_request_sm, ?Hr; rsimpl; done.
    + by rewrite andb_false_r.
  - do 2 try case_bool_decide; simpl; rewrite ?remember_request_sm, ?Hr; rsimpl; done.
Qed.

(** ** Retries *)

(** A history without the repetitions of requests already seen. *)
Fixpoint first_occurrences (seen : list Command) (h : list Command) : list Command :=
  match h with
  | [] => []
  | c :: h =>
      if has_request c && bool_decide (c ∈ seen) then first_occurrences seen h
      else c :: first_occurrences (c :: seen) h
  end.

Lemma last_request_mono cmd st client :
  last_request st.2 client ≤ last_request (sm_command cmd st).2 client.
Proof.
  unfold sm_command, sm_fresh. destruct (is_write cmd); [|done].
  destruct (has_request cmd) eqn:Hr; simpl; [|lia].
  destruct (Z.ltb_spec (last_request st.2 (ClientID cmd)) (RequestID cmd)); simpl; [|lia].
  destruct (decide (client = ClientID cmd)) as [->|Hne].
  - unfold last_request at 2. rewrite lookup_insert, decide_True by done. simpl. lia.
  - unfold last_request at 2. rewrite lookup_insert_ne by done. done.
Qed.

(** Once the machine has seen a request, the request changes nothing more. *)
Definition seen_by (st : SM) (cmd : Command) : Prop :=
  is_write cmd = true → has_request cmd = true →
  RequestID cmd ≤ last_request st.2 (ClientID cmd).

Lemma seen_by_command cmd st : seen_by (sm_command cmd st) cmd.
Proof.
  intros Hw Hr. unfold sm_command, sm_fresh. rewrite Hw, Hr. simpl.
  destruct (Z.ltb_spec (last_request st.2 (ClientID cmd)) (RequestID cmd)); simpl; [|lia].
  unfold last_request. rewrite lookup_insert, decide_True by done. simpl. lia.
Qed.

Lemma seen_by_mono cmd c st : seen_by st c → seen_by (sm_command cmd st) c.
Proof. intros H Hw Hr. etransitivity; [by apply H|apply last_request_mono]. Qed.

Lemma seen_by_noop cmd st : seen_by st cmd → has_request cmd = true → sm_command cmd st = st.
Proof.
  intros H Hr. unfold sm_command, sm_fresh. destruct (is_write cmd) eqn:Hw; [|done].
  rewrite Hr. specialize (H Hw Hr). simpl.
  by destruct (Z.ltb_spec (last_request st.2 (ClientID cmd)) (RequestID cmd)); [lia|].
Qed.

Lemma first_occurrences_sm seen h st :
  Forall (seen_by st) seen → sm_commands (first_occurrences seen h) st = sm_commands h st.
Proof.
  revert seen st. induction h as [|c h IH]; intros seen st Hseen; simpl; [done|].
  destruct (has_request c && _) eqn:Hdup.
  - apply andb_true_iff in Hdup as [Hr Hin%bool_decide_eq_true].
    rewrite Forall_forall in Hseen. rewrite (seen_by_noop c st) by auto.
    apply IH. by rewrite Forall_forall.
  - simpl. apply IH. constructor; [apply seen_by_command|].
    eapply Forall_impl; [exact Hseen|]. intros; by apply seen_by_mono.
Qed.
