(* ===== verification/EnvelopeFacts.v ===== *)
(** * Round trips of the log entries

    What a node proposes is what every node applies: commands, configuration
    changes and no-ops written by the encoders are read back by
    [DecodeLogEntry]; the same for snapshots. *)

From Stdlib Require Import Decimal.
From S2P Require Import Prelude Types Config Json JsonFacts Envelope Disk.
From S2P Require Import SnapshotStore.

Definition utf8_command (c : Command) : Prop :=
  utf8_string (Op c) ∧ utf8_string (Key c) ∧ utf8_string (Val c) ∧
  utf8_string (ClientID c) ∧ is_int64 (RequestID c).

Definition utf8_config (c : ClusterConfig) : Prop :=
  utf8_map (OldPeers c) ∧ utf8_map (NewPeers c) ∧
  utf8_map (OldHTTP c) ∧ utf8_map (NewHTTP c).

#[local] Hint Resolve value_text_quote value_text_int value_text_bool
  compact_text_quote compact_text_int compact_text_bool : core.

(** ** Texts *)

Lemma Forall_omitempty (P : string * bytes → Prop) b k v :
  P (k, v) → Forall P (omitempty b k v).
Proof. intros H. destruct b; repeat constructor; done. Qed.

(** Every value of a list of members is the text of a value. *)
Ltac solve_texts :=
  rewrite ?Forall_app; split_and?;
  first [ apply Forall_omitempty | repeat (apply Forall_cons; split) | idtac ];
  simpl; auto.

Lemma value_text_Command c : value_text (marshal_Command c).
Proof. apply value_text_object. solve_texts. Qed.

Lemma compact_text_Command c : compact_text (marshal_Command c).
Proof. apply compact_text_object. solve_texts. Qed.

Lemma value_text_string_map m : value_text (marshal_map quote m).
Proof. by apply value_text_map. Qed.
#[local] Hint Resolve value_text_string_map : core.

Lemma value_text_ClusterConfig c : value_text (marshal_ClusterConfig c).
Proof. apply value_text_object. solve_texts. Qed.

(** Reads the members of an object into the fields of a struct, one by one. *)
Ltac read_fields :=
  repeat (progress (
    cbn [mbind option_bind app map store_members store_member written fst snd];
    find_fields; unfold dec_string_map;
    try first [ rewrite dec_string_quote by done | rewrite dec_int_marshal by done
              | rewrite dec_bool_marshal
              | rsimpl; rewrite dec_string_map_marshal by done ])).

(** ** Commands and configurations *)

Lemma unmarshal_marshal_Command c :
  utf8_command c → unmarshal_Command (marshal_Command c) = Some c.
Proof.
  intros (Ho & Hk & Hv & Hc & Hr). unfold unmarshal_Command, marshal_Command.
  rewrite unmarshal_object by solve_texts. unfold Command_fields, zero_Command.
  destruct c as [o k v ci ri]; cbn [Op Key Val ClientID RequestID] in *.
  unfold omitempty. repeat case_bool_decide; subst; read_fields; done.
Qed.

Lemma dec_ptr_ClusterConfig c :
  utf8_config c →
  dec_ptr ClusterConfig_fields zero_ClusterConfig None (marshal_ClusterConfig c) =
    Some (Some c).
Proof.
  intros (H1 & H2 & H3 & H4). unfold dec_ptr, marshal_ClusterConfig.
  simpl is_null. cbv iota. simpl default. rewrite dec_struct_object by solve_texts.
  unfold ClusterConfig_fields, zero_ClusterConfig.
  destruct c as [op np oh nh j]; cbn [OldPeers NewPeers OldHTTP NewHTTP Joint] in *.
  unfold omitempty. repeat case_bool_decide; subst; read_fields; done.
Qed.

(** ** Entries *)

(** The payload of a command, and what is read of it, for any strings. *)
Lemma EncodeCommandEntry_text c :
  EncodeCommandEntry (marshal_Command c) =
    Ok (marshal_object [("type", marshal_int 0); ("data", marshal_Command c)]).
Proof.
  unfold EncodeCommandEntry, marshal_LogEntryEnvelope, marshal_raw. cbn [env_Data].
  destruct (marshal_Command c) as [|b m] eqn:Hm; [done|]. rewrite <- Hm.
  rewrite the_value_text by apply value_text_Command. cbn [mbind option_bind].
  by rewrite compact_text_id by apply compact_text_Command.
Qed.

#[local] Hint Resolve value_text_Command value_text_ClusterConfig : core.

Lemma DecodeLogEntry_command c b :
  EncodeCommandEntry (marshal_Command c) = Ok b →
  DecodeLogEntry b = mkLogEntryEnvelope EntryCommand (Some (marshal_Command c)) None.
Proof.
  rewrite EncodeCommandEntry_text. intros [= <-]. unfold DecodeLogEntry.
  rewrite bool_decide_eq_false_2 by done. unfold unmarshal_LogEntryEnvelope.
  rewrite unmarshal_object by solve_texts.
  unfold LogEntryEnvelope_fields, zero_LogEntryEnvelope. by read_fields.
Qed.

Lemma DecodeLogEntry_config c b :
  utf8_config c → EncodeConfigChangeEntry (Some c) = Ok b →
  DecodeLogEntry b = mkLogEntryEnvelope EntryConfigChange None (Some c).
Proof.
  intros Hc. unfold EncodeConfigChangeEntry, marshal_LogEntryEnvelope.
  cbn [env_Data env_Config env_Type marshal_raw app]. intros [= <-]. unfold DecodeLogEntry.
  rewrite bool_decide_eq_false_2 by done. unfold unmarshal_LogEntryEnvelope.
  rewrite unmarshal_object by solve_texts.
  unfold LogEntryEnvelope_fields, zero_LogEntryEnvelope. read_fields.
  rsimpl. rewrite dec_ptr_ClusterConfig by done. by read_fields.
Qed.

(** ** Snapshots *)

Definition utf8_dedup (t : gmap string DedupEntry) : Prop :=
  map_Forall (λ k e, utf8_string k ∧ is_int64 (LastAppliedRequestID e) ∧
                     utf8_string (Response e) ∧ utf8_string (Status e)) t.

Definition utf8_snapshot (s : Snapshot) : Prop :=
  is_int64 (snap_LastIncludedIndex s) ∧ is_int64 (snap_LastIncludedTerm s) ∧
  utf8_map (KVState s) ∧
  (∀ c, snap_ClusterConfig s = Some c → utf8_config c) ∧ utf8_dedup (DedupTable s).

Lemma value_text_DedupEntry e : value_text (marshal_DedupEntry e).
Proof. apply value_text_object. solve_texts. Qed.

Lemma dec_dedup t :
  utf8_dedup t →
  dec_map (dec_struct DedupEntry_fields zero_DedupEntry) ∅ (marshal_map marshal_DedupEntry t)
    = Some t.
Proof.
  intros Ht. apply dec_map_marshal; [apply value_text_DedupEntry|].
  eapply map_Forall_impl; [exact Ht|]. intros k e (Hk & Hi & Hr & Hs). split; [done|].
  unfold marshal_DedupEntry. rewrite dec_struct_object by solve_texts.
  unfold DedupEntry_fields, zero_DedupEntry. destruct e as [i x y]; cbn [LastAppliedRequestID Response Status] in *. by read_fields.
Qed.

#[local] Hint Resolve value_text_DedupEntry : core.

Lemma value_text_Snapshot s : value_text (marshal_Snapshot s).
Proof.
  assert (Hd : value_text (marshal_map marshal_DedupEntry (DedupTable s)))
    by (by apply value_text_map).
  apply value_text_object. destruct (snap_ClusterConfig s); solve_texts.
  all: repeat (apply Forall_cons; split); simpl; auto.
Qed.

(** The members of a snapshot's object. *)
Lemma dec_struct_Snapshot s :
  utf8_snapshot s →
  dec_struct Snapshot_fields zero_Snapshot (marshal_Snapshot s) = Some s.
Proof.
  intros (Hi & Ht & Hk & Hc & Hd). unfold marshal_Snapshot.
  assert (Hv : value_text (marshal_map marshal_DedupEntry (DedupTable s)))
    by (by apply value_text_map).
  rewrite dec_struct_object.
  2:{ destruct (snap_ClusterConfig s); solve_texts;
      repeat (apply Forall_cons; split); simpl; auto. }
  unfold Snapshot_fields, zero_Snapshot.
  destruct s as [i t k c d]; cbn [snap_LastIncludedIndex snap_LastIncludedTerm KVState
    snap_ClusterConfig DedupTable] in *.
  unfold omitempty. destruct c as [c|]; case_bool_decide; subst; read_fields; rsimpl;
    rewrite ?dec_ptr_ClusterConfig by auto; read_fields; rsimpl;
    rewrite ?dec_dedup by done; by read_fields.
Qed.

Lemma unmarshal_marshal_Snapshot s :
  utf8_snapshot s → unmarshal_Snapshot (marshal_Snapshot s) = Some s.
Proof.
  intros Hs. unfold unmarshal_Snapshot, unmarshal.
  rewrite the_value_text by apply value_text_Snapshot. by apply dec_struct_Snapshot.
Qed.

Lemma decode_encode_Snapshot s :
  utf8_snapshot s → decode_Snapshot (encode_Snapshot s) = Some s.
Proof.
  intros Hs. unfold decode_Snapshot, encode_Snapshot, first_value.
  pose proof (value_text_Snapshot s) as Hv. rewrite skip_ws_value by done.
  rewrite (vt_scan _ Hv) by (rewrite ?length_app; simpl; auto; lia).
  cbn [mbind option_bind]. rewrite take_app_sub. by apply dec_struct_Snapshot.
Qed.

(** ** Properties *)

(** A configuration change that a leader writes into the log is read by
    every node as that configuration, and a no-op as a no-op. *)
Theorem config_entry_roundtrip c :
  utf8_config c →
  ∃ b, EncodeConfigChangeEntry (Some c) = Ok b ∧
    DecodeLogEntry b = mkLogEntryEnvelope EntryConfigChange None (Some c).
Proof.
  intros Hc. destruct (EncodeConfigChangeEntry (Some c)) as [b|] eqn:Hb; [|done].
  exists b. split; [done|]. by apply DecodeLogEntry_config.
Qed.

(** A check of the validity of concrete strings. *)
Fixpoint utf8_check (fuel : nat) (s : bytes) : bool :=
  match fuel, s with
  | _, [] => true
  | S f, _ =>
      match rune_size s with
      | O => false
      | S n => bool_decide (S n ≤ length s)%nat && utf8_check f (drop (S n) s)
      end
  | _, _ => false
  end.

Lemma utf8_check_sound f s : utf8_check f s = true → utf8 s.
Proof.
  revert s. induction f as [|f IH]; intros [|b s] H; try done; try constructor.
  cbn [utf8_check] in H. destruct (rune_size (b :: s)) as [|n] eqn:Hr; [done|].
  apply andb_true_iff in H as [Hn%bool_decide_eq_true H%IH].
  rewrite <- (take_drop (S n) (b :: s)) in Hr |- *. constructor; [done| |done].
  rewrite Hr, length_take. lia.
Qed.

Definition utf8_str (s : string) : bool := utf8_check (String.length s) (to_bytes s).

Definition utf8_map_check {V} (f : V → bool) (m : gmap string V) : bool :=
  forallb (λ kv, utf8_str kv.1 && f kv.2) (map_to_list m).

Lemma utf8_map_check_sound {V} (f : V → bool) (P : V → Prop) (m : gmap string V) :
  (∀ v, f v = true → P v) → utf8_map_check f m = true →
  map_Forall (λ k v, utf8_string k ∧ P v) m.
Proof.
  intros Hf H. apply map_Forall_to_list. unfold utf8_map_check in H.
  rewrite forallb_forall in H. apply Forall_forall. intros [k v] Hin.
  apply list_elem_of_In, H, andb_true_iff in Hin as [Hk Hv]. simpl in *.
  split; [by eapply utf8_check_sound|auto].
Qed.

(** Settles the validity of a concrete map. *)
Ltac check_map :=
  apply (utf8_map_check_sound utf8_str utf8_string);
  [intros ?; apply utf8_check_sound | vm_compute; reflexivity].

Example config_entry_roundtrip_witness :
  ∃ b, EncodeConfigChangeEntry (Some three_to_four) = Ok b ∧
    DecodeLogEntry b = mkLogEntryEnvelope EntryConfigChange None (Some three_to_four).
Proof.
  apply config_entry_roundtrip. split_and!; check_map.
Defined.

(** C25. A snapshot survives the disk: on a disk that works, saving a snapshot
    and loading it gives the snapshot back, whatever the file held before. *)
Theorem snapshot_save_load path s d :
  healthy d → utf8_snapshot s →
  ∃ d', SaveSnapshot path s d = (None, d') ∧ (LoadSnapshot path d').1 = Ok (Some s).
Proof.
  intros Hd Hs. destruct (SaveSnapshot_healthy path s d Hd) as [He Hd'].
  destruct (SaveSnapshot path s d) as [e d'] eqn:Hsave. simpl in *. subst e.
  exists d'. split; [done|]. apply SaveSnapshot_cases in Hsave.
  unfold LoadSnapshot. rewrite os_read_healthy by done. rewrite Hsave. unfold saved.
  rewrite lookup_insert, decide_True by done. by rewrite decode_encode_Snapshot.
Qed.

Definition snapshot0 : Snapshot :=
  mkSnapshot 7 2 {["a" := "1"; "b" := "<2>"]} (Some three_nodes)
    {["c" := mkDedupEntry 4 "ok" "ok"]}.

Lemma utf8_snapshot0 : utf8_snapshot snapshot0.
Proof.
  refine (conj _ (conj _ (conj _ (conj _ _)))).
  1, 2: by unfold is_int64.
  - check_map.
  - intros c [= <-]. split_and!; check_map.
  - apply (utf8_map_check_sound (λ e, bool_decide (is_int64 (LastAppliedRequestID e)) &&
      utf8_str (Response e) && utf8_str (Status e))); [|vm_compute; reflexivity].
    intros e. rewrite !andb_true_iff, bool_decide_eq_true.
    intros [[Hi Hr] Hs]. split_and!; [done|by eapply utf8_check_sound..].
Qed.

Example snapshot_save_load_witness :
  ∃ d', SaveSnapshot "data/snapshot.json" snapshot0 (mkDisk ∅ []) = (None, d') ∧
    (LoadSnapshot "data/snapshot.json" d').1 = Ok (Some snapshot0).
Proof. apply (snapshot_save_load "data/snapshot.json" snapshot0); [reflexivity|apply utf8_snapshot0]. Defined.
