(* ===== verification/ApplyFacts.v ===== *)
(** * Lemmas on the apply loop

    [applied] is what every step of [applyLogs] but the compaction keeps: the
    term, the indices, the log up to entries a leader appends, the channels
    that wait for an answer.  [apply_loop_sm]: the loop runs the specification
    machine over the committed entries. *)

From S2P Require Import Prelude Types Config Json Envelope Disk Wal SnapshotStore.
From S2P Require Import Node Roles Apply NodeFacts StateMachine.

(** ** Response channels *)

Definition answer_channel (e : Effect) : option nat :=
  match e with SendResp ch _ => Some ch | _ => None end.

(** The channels answered so far, and the channels of the pending proposals. *)
Definition answered (r : Raft) : list nat := omap answer_channel (effects r).
Definition pending (r : Raft) : list nat := map p_respCh (proposals r).
Definition channels (r : Raft) : list nat := answered r ++ pending r.

(** A node that is not the leader has its election timer running. *)
Definition timer_ok (r : Raft) : Prop :=
  state r = Follower ∨ state r = Candidate → timer_armed r = true.

(** ** What the loop keeps *)

(** Entries a leader appends: of its term, and next in the log. *)
Definition own_entries (r : Raft) (es : list LogEntry) : Prop :=
  Forall (λ e, Term e = currentTerm r) es ∧
  (log_wf r → lastLogIndex r + Z.of_nat (length es) < max_int64 →
   layout (lastLogIndex r) es).

Lemma own_entries_nil r : own_entries r [].
Proof. split; [constructor|]. intros. apply layout_nil. Qed.

Lemma own_entries_next r data :
  own_entries r [mkLogEntry (lastLogIndex r +! 1) (currentTerm r) data].
Proof.
  split; [by repeat constructor|]. intros Hwf Hmax. apply layout_singleton. simpl in *.
  rewrite (lastLogIndex_wf r Hwf) in *. destruct Hwf as (H0 & ? & _).
  apply int64_add_small. unfold is_int64, max_int64 in *. lia.
Qed.

Lemma log_wf_app r r' es :
  log_wf r → own_entries r es → lastIncludedIndex r' = lastIncludedIndex r →
  log r' = log r ++ es → lastLogIndex r + Z.of_nat (length es) < max_int64 →
  log_wf r' ∧ lastLogIndex r' = lastLogIndex r + Z.of_nat (length es).
Proof.
  intros Hwf [_ He] Hb Hl Hmax. specialize (He Hwf Hmax).
  rewrite (lastLogIndex_wf r Hwf) in *.
  assert (Hwf' : log_wf r').
  { destruct Hwf as (H0 & ? & Hlay). unfold log_wf. rewrite Hb, Hl, length_app.
    split_and!; [done|lia|]. by apply layout_app. }
  split; [done|]. rewrite (lastLogIndex_wf r' Hwf'), Hb, Hl, length_app. lia.
Qed.

Lemma own_entries_app r1 r2 es1 es2 :
  lastIncludedIndex r2 = lastIncludedIndex r1 → currentTerm r2 = currentTerm r1 →
  log r2 = log r1 ++ es1 → own_entries r1 es1 → own_entries r2 es2 →
  own_entries r1 (es1 ++ es2).
Proof.
  intros Hb Ht Hl H1 H2. split.
  { destruct H1 as [H1 _], H2 as [H2 _]. rewrite Ht in H2. by apply Forall_app. }
  intros Hwf Hmax. rewrite length_app in Hmax.
  destruct (log_wf_app r1 r2 es1) as [Hwf2 Hlast]; [done..|lia|].
  apply layout_app. split; [apply H1; [done|lia]|]. rewrite <- Hlast.
  apply H2; [done|lia].
Qed.

Record applied (r r' : Raft) : Prop := {
  ap_id : node_id r' = node_id r;
  ap_base : lastIncludedIndex r' = lastIncludedIndex r;
  ap_base_term : lastIncludedTerm r' = lastIncludedTerm r;
  ap_commit : commitIndex r' = commitIndex r;
  ap_applied : lastApplied r' = lastApplied r;
  ap_term : currentTerm r' = currentTerm r;
  ap_wal : wal r' = wal r;
  ap_path : snapshotPath r' = snapshotPath r;
  ap_threshold : snapshotThreshold r' = snapshotThreshold r;
  ap_state : state r' = state r ∨ (state r = Leader ∧ state r' = Follower);
  ap_vote : state r' = state r → votedFor r' = votedFor r;
  ap_votes : votesReceived r' = votesReceived r;
  ap_log : ∃ es, log r' = log r ++ es ∧ (state r ≠ Leader → es = []) ∧ own_entries r es;
  ap_disk : state r ≠ Leader → disk r' = disk r;
  ap_channels : channels r' ≡ₚ channels r;
  ap_timer : timer_ok r → timer_ok r'
}.

Lemma applied_refl r : applied r r.
Proof. split; try done; [by left|]. exists [].
  rewrite app_nil_r. split_and!; [done..|apply own_entries_nil]. Qed.

Lemma applied_trans r1 r2 r3 : applied r1 r2 → applied r2 r3 → applied r1 r3.
Proof.
  intros H1 H2. destruct (ap_log _ _ H1) as (es1 & Hl1 & He1 & Ho1).
  destruct (ap_log _ _ H2) as (es2 & Hl2 & He2 & Ho2).
  pose proof (ap_state _ _ H1) as Hs1. pose proof (ap_state _ _ H2) as Hs2.
  destruct H1, H2. split; try (by etransitivity); try by auto.
  - destruct Hs1 as [Hs1|[Ha Hb]], Hs2 as [Hs2|[Hc Hd]]; rewrite ?Hs2, ?Hs1; auto;
      right; split; congruence.
  - intros Hs. destruct Hs1 as [Hs1|[Ha Hb]], Hs2 as [Hs2|[Hc Hd]]; try congruence.
    rewrite ap_vote1, ap_vote0; congruence.
  - exists (es1 ++ es2). rewrite Hl2, Hl1, (assoc_L (++)).
    split_and!; [done| |by eapply own_entries_app].
    intros Hn. rewrite He1, He2; [done|destruct Hs1 as [->|[? ?]]; done|done].
  - intros Hn. destruct Hs1 as [Hs1|[Ha Hb]]; [|done].
    rewrite ap_disk1, ap_disk0; congruence.
Qed.

(** Discharges [applied] for one record update. *)
Ltac solve_applied :=
  split; rsimpl; try done; try (by left);
  try (by exists []; rewrite app_nil_r; split_and!; auto using own_entries_nil).

Lemma channels_effects r es :
  omap answer_channel es = [] →
  channels (r <| effects ::= λ l, l ++ es |>) = channels r.
Proof.
  intros He. unfold channels, answered, pending. rsimpl.
  by rewrite omap_app, He, app_nil_r.
Qed.

Lemma omap_map_none {A B} (g : Effect → option B) (f : A → Effect) l :
  (∀ x, g (f x) = None) → omap g (map f l) = [].
Proof. intros Hf. induction l; simpl; [done|]. by rewrite Hf. Qed.

Lemma transitionToFollower_channels t r :
  channels (transitionToFollower t r) ≡ₚ channels r.
Proof.
  rewrite transitionToFollower_frame. unfold channels, answered, pending. rsimpl.
  rewrite omap_app. simpl. rewrite app_nil_r. apply Permutation_app_head.
  induction (proposals r) as [|p l IH]; simpl; [done|]. by rewrite IH.
Qed.

Lemma broadcastHeartbeats_channels r : channels (broadcastHeartbeats r) = channels r.
Proof.
  rewrite broadcastHeartbeats_frame. apply channels_effects. by apply omap_map_none.
Qed.

Lemma applied_kv r k t : applied r (r <| kv := k |> <| dedupTable := t |>).
Proof. solve_applied. Qed.

Lemma apply_decoded_kv cmd r :
  ∃ k t, apply_decoded cmd r = r <| kv := k |> <| dedupTable := t |>.
Proof.
  unfold apply_decoded, remember_request.
  generalize (mkDedupEntry (RequestID cmd) "ok" "ok"). intros d.
  repeat case_match;
  first [ by exists (kv r), (dedupTable r); solve_upd
        | by exists (<[Key cmd := Val cmd]> (kv r)), (dedupTable r); solve_upd
        | by exists (<[Key cmd := Val cmd]> (kv r)), (<[ClientID cmd := d]> (dedupTable r)); solve_upd
        | by exists (delete (Key cmd) (kv r)), (dedupTable r); solve_upd
        | by exists (delete (Key cmd) (kv r)), (<[ClientID cmd := d]> (dedupTable r)); solve_upd ].
Qed.

Lemma applyCommand_kv b r :
  ∃ k t, applyCommand b r = r <| kv := k |> <| dedupTable := t |>.
Proof.
  unfold applyCommand. repeat case_match;
    [exists (kv r), (dedupTable r); solve_upd| apply apply_decoded_kv
    |exists (kv r), (dedupTable r); solve_upd].
Qed.

Lemma applied_command b r : applied r (applyCommand b r).
Proof. destruct (applyCommand_kv b r) as (k & t & ->). apply applied_kv. Qed.

Lemma applied_config c r : applied r (applyConfigEntry c r).
Proof. unfold applyConfigEntry. solve_applied. Qed.

Lemma applied_disconnect r : applied r (disconnectRemovedPeers r).
Proof.
  destruct (disconnectRemovedPeers_frame r) as (g & n & m & gone & ->).
  solve_applied. unfold channels, answered, pending. rsimpl.
  by rewrite omap_app, (omap_map_none answer_channel ConnClose), app_nil_r.
Qed.

Lemma applied_step_down r :
  state r = Leader → applied r (transitionToFollower (currentTerm r) r).
Proof.
  intros Hs. pose proof (transitionToFollower_channels (currentTerm r) r) as Hc.
  rewrite transitionToFollower_frame in *. revert Hc.
  generalize (map step_down_answer (proposals r)). intros es Hc.
  split; rsimpl; [reflexivity..| | |reflexivity| | |exact Hc|done].
  - by right.
  - congruence.
  - exists []. rewrite app_nil_r. split_and!; auto using own_entries_nil.
  - congruence.
Qed.

Lemma applied_broadcast r : applied r (broadcastHeartbeats r).
Proof.
  pose proof (broadcastHeartbeats_channels r) as Hc.
  rewrite broadcastHeartbeats_frame in *. solve_applied. by rewrite Hc.
Qed.

Section ApplyFacts.
Context `{!ProtoCodec}.

Lemma applied_append r data :
  state r = Leader →
  applied r (r <| log ::= λ l, l ++ [mkLogEntry (lastLogIndex r +! 1) (currentTerm r) data] |>).
Proof.
  intros Hs. pose proof (own_entries_next r data) as Ho. revert Ho.
  generalize (mkLogEntry (lastLogIndex r +! 1) (currentTerm r) data). intros e Ho.
  solve_applied. by exists [e].
Qed.

Lemma applied_disk r d : state r = Leader → applied r (r <| disk := d |>).
Proof. intros Hs. solve_applied. Qed.

Lemma applied_marks r m i :
  applied r (r <| proposalTime := m |> <| configChangeIndex := i |>).
Proof. solve_applied. Qed.

Lemma applied_final r b i :
  applied r (r <| pendingConfig := b |> <| configChangeIndex := i |>).
Proof. solve_applied. Qed.

Lemma applied_second_phase c r :
  state r = Leader → applied r (proposeSecondPhaseConfig c r).
Proof.
  intros Hs. unfold proposeSecondPhaseConfig.
  destruct (EncodeConfigChangeEntry _) as [data|]; [|apply applied_refl].
  rewrite wal_do_frame. cbv zeta. pose proof (applied_append r data Hs) as Ha. revert Ha.
  set (r1 := r <| log ::= _ |>). intros Ha.
  assert (Hs1 : state r1 = Leader) by done. clearbody r1.
  generalize (AppendEntry (wal r1) (mkLogEntry (lastLogIndex r +! 1) (currentTerm r) data)
    (disk r1)). intros [err d]. cbn [fst snd].
  eapply applied_trans; [exact Ha|].
  pose proof (applied_disk r1 d Hs1) as Hd. destruct err; [done|].
  eapply applied_trans; [exact Hd|]. eapply applied_trans; [|apply applied_broadcast].
  apply (applied_marks (r1 <| disk := d |>)).
Qed.

Lemma applied_config_change c r : applied r (apply_config_change c r).
Proof.
  unfold apply_config_change. destruct (Joint c).
  - eapply applied_trans; [|apply applied_config].
    case_bool_decide; [by apply applied_second_phase|apply applied_refl].
  - cbv zeta. pose proof (applied_config c r) as H1. revert H1.
    generalize (applyConfigEntry c r). intros r1 H1.
    pose proof (applied_trans _ _ _ H1 (applied_final r1 false 0)) as H2. revert H2.
    generalize (r1 <| pendingConfig := false |> <| configChangeIndex := 0 |>). intros r2 H2.
    pose proof (applied_trans _ _ _ H2 (applied_disconnect r2)) as H3. revert H3.
    generalize (disconnectRemovedPeers r2). intros r3 H3.
    destruct (bool_decide _) eqn:Hs; [|done]. apply bool_decide_eq_true in Hs. simpl.
    destruct (negb _); [|exact H3]. destruct (_ !! _); [exact H3|].
    eapply applied_trans; [exact H3|]. by apply applied_step_down.
Qed.

Lemma applied_entry r : applied r (apply_entry r).
Proof.
  unfold apply_entry, apply_envelope.
  repeat case_match; try apply applied_refl;
    [apply applied_command|apply applied_config_change].
Qed.

(** The specification machine on the entry an apply step reads. *)
Definition sm_entry (e : option LogEntry) (st : SM) : SM :=
  match e with
  | Some e => match entry_command e with Some cmd => sm_command cmd st | None => st end
  | None => st
  end.

Lemma sm_of_ext r r' : kv r' = kv r → dedupTable r' = dedupTable r → sm_of r' = sm_of r.
Proof. unfold sm_of. by intros -> ->. Qed.

Lemma config_change_sm c r : sm_of (apply_config_change c r) = sm_of r.
Proof.
  assert (Ha : ∀ r, sm_of (applyConfigEntry c r) = sm_of r) by (intros; apply sm_of_ext; done).
  unfold apply_config_change. destruct (Joint c).
  - rewrite Ha. case_bool_decide; [|done]. unfold proposeSecondPhaseConfig.
    destruct (EncodeConfigChangeEntry _) as [data|]; [|done]. rewrite wal_do_frame.
    case_match; [by apply sm_of_ext|].
    rewrite broadcastHeartbeats_frame. by apply sm_of_ext.
  - cbv zeta. set (r2 := _ <| configChangeIndex := 0 |>).
    assert (Hr2 : sm_of r2 = sm_of r) by (by apply sm_of_ext).
    destruct (disconnectRemovedPeers_frame r2) as (g & n & m & gone & Hd).
    rewrite Hd. clearbody r2. repeat case_match; rewrite <- Hr2;
      rewrite ?transitionToFollower_frame; by apply sm_of_ext.
Qed.

Lemma apply_entry_sm r : sm_of (apply_entry r) = sm_entry (getEntry r (lastApplied r)) (sm_of r).
Proof.
  unfold apply_entry, sm_entry, entry_command, apply_envelope.
  destruct (getEntry r (lastApplied r)) as [e|]; [|done].
  case_bool_decide; [done|]. set (env := DecodeLogEntry (Cmd e)). cbv zeta.
  destruct (env_Type env =? EntryCommand).
  - unfold applyCommand. destruct (default [] (env_Data env)) as [|b data]; [done|].
    rewrite bool_decide_eq_false_2 by done.
    destruct (unmarshal_Command _); [apply apply_decoded_sm|done].
  - destruct (_ =? _); [|done]. destruct (env_Config env); [|done]. apply config_change_sm.
Qed.
End ApplyFacts.

(** ** The loop *)

(** Entries a leader appends while it applies do not move the ones below. *)
Lemma getEntry_prefix r r' es i :
  log_wf r → is_int64 i → i ≤ lastLogIndex r →
  lastIncludedIndex r' = lastIncludedIndex r →
  lastIncludedTerm r' = lastIncludedTerm r → log r' = log r ++ es →
  getEntry r' i = getEntry r i.
Proof.
  intros Hwf Hi Hlast Hb Ht Hl. rewrite (lastLogIndex_wf r Hwf) in Hlast.
  destruct Hwf as (H0 & Hm & _). unfold getEntry. rewrite Hb, Ht, Hl.
  case_bool_decide; [done|]. destruct (Z.ltb_spec i (lastIncludedIndex r)); [done|].
  unfold is_int64 in *. int64_simpl. rewrite length_app.
  destruct (Z.leb_spec 0 (i - lastIncludedIndex r - 1)); [|lia].
  destruct (Z.ltb_spec (i - lastIncludedIndex r - 1) (Z.of_nat (length (log r)))); [|lia].
  destruct (Z.ltb_spec (i - lastIncludedIndex r - 1)
    (Z.of_nat (length (log r) + length es))); [|lia].
  simpl. apply lookup_app_l. lia.
Qed.

Lemma index_range_nil lo hi : hi < lo → index_range lo hi = [].
Proof. intros H. unfold index_range, seqZ. by replace (Z.to_nat _) with 0%nat by lia. Qed.

Lemma index_range_cons lo hi : lo ≤ hi → index_range lo hi = lo :: index_range (lo + 1) hi.
Proof.
  intros H. unfold index_range. rewrite seqZ_cons by lia. f_equal.
  unfold Z.succ. f_equal; lia.
Qed.

Lemma elem_of_index_range i lo hi : i ∈ index_range lo hi ↔ lo ≤ i ≤ hi.
Proof. unfold index_range. rewrite elem_of_seqZ. lia. Qed.

(** The specification machine on a range of indices of the log of [r]. *)
Definition sm_range (r : Raft) (lo hi : Z) (st : SM) : SM :=
  foldl (λ st i, sm_entry (getEntry r i) st) st (index_range lo hi).

Lemma foldl_sm_commands (f : Z → option LogEntry) ixs st :
  foldl (λ st i, sm_entry (f i) st) st ixs = sm_commands (commands_of (omap f ixs)) st.
Proof.
  revert st. induction ixs as [|i ixs IH]; intros st; simpl; [done|].
  rewrite IH. unfold sm_entry. destruct (f i) as [e|]; simpl; [|done].
  by destruct (entry_command e).
Qed.

Lemma sm_range_commands r lo hi st :
  sm_range r lo hi st = sm_commands (commands_of (entries_between r lo hi)) st.
Proof. apply foldl_sm_commands. Qed.

Section Loop.
Context `{!ProtoCodec}.

(** The loop reaches the commit index, runs the machine over the entries up to
    it, and keeps the rest; [r0] is the node whose log these entries are read
    from. *)
Lemma apply_loop_spec n r0 r es :
  log_wf r0 → commitIndex r ≤ lastLogIndex r0 → 0 ≤ lastApplied r ≤ commitIndex r →
  lastIncludedIndex r = lastIncludedIndex r0 →
  lastIncludedTerm r = lastIncludedTerm r0 → log r = log r0 ++ es →
  n = Z.to_nat (commitIndex r - lastApplied r) →
  let r' := apply_loop n r in
  applied (r <| lastApplied := commitIndex r |>) r' ∧
  sm_of r' = sm_range r0 (lastApplied r + 1) (commitIndex r) (sm_of r).
Proof.
  intros Hwf. pose proof (lastLogIndex_wf r0 Hwf) as Hlast. pose proof Hwf as (H0 & Hm & _).
  revert r es. induction n as [|n IH]; intros r es Hc Ha Hb Ht Hl Hn; cbn [apply_loop].
  { assert (lastApplied r = commitIndex r) as He by lia.
    replace (r <| lastApplied := commitIndex r |>) with r by (rewrite <- He; solve_upd).
    split; [apply applied_refl|]. unfold sm_range. by rewrite index_range_nil by lia. }
  destruct (Z.ltb_spec (lastApplied r) (commitIndex r)) as [Hlt|]; [|lia].
  assert (Hinc : lastApplied r +! 1 = lastApplied r + 1)
    by (apply int64_add_small; unfold is_int64, max_int64 in *; lia).
  set (r1 := r <| lastApplied ::= λ i, i +! 1 |>).
  assert (Hla1 : lastApplied r1 = lastApplied r + 1) by (unfold r1; rsimpl; done).
  pose proof (applied_entry r1) as Hstep. pose proof (apply_entry_sm r1) as Hsm.
  rewrite Hla1 in Hsm. rewrite (getEntry_prefix r0 r1 es) in Hsm
    by (done || unfold is_int64, max_int64 in *; lia).
  set (r2 := apply_entry r1) in *. destruct (ap_log _ _ Hstep) as (es2 & Hlog & _ & _).
  assert (Hla : lastApplied r2 = lastApplied r + 1) by (by rewrite (ap_applied _ _ Hstep)).
  assert (Hci : commitIndex r2 = commitIndex r) by (by rewrite (ap_commit _ _ Hstep)).
  destruct (IH r2 (es ++ es2)) as [IHa IHs].
  - by rewrite Hci.
  - rewrite Hci, Hla. lia.
  - by rewrite (ap_base _ _ Hstep).
  - by rewrite (ap_base_term _ _ Hstep).
  - rewrite Hlog. unfold r1. rsimpl. by rewrite Hl, (assoc_L (++)).
  - rewrite Hci, Hla. lia.
  - split.
    + eapply applied_trans; [|exact IHa]. rewrite Hci.
      destruct Hstep. unfold r1 in *. split; rsimpl; done.
    + rewrite IHs, Hla, Hci, Hsm. unfold sm_range.
      by rewrite (index_range_cons (lastApplied r + 1)) by lia.
Qed.
End Loop.

(** ** Compaction *)

(** A range of indices of the log is a slice of the list. *)
Lemma entries_between_slice r lo hi :
  log_wf r → lastIncludedIndex r < lo → hi ≤ lastLogIndex r →
  entries_between r lo hi =
    take (Z.to_nat (hi - lo + 1)) (drop (Z.to_nat (lo - lastIncludedIndex r - 1)) (log r)).
Proof.
  intros Hwf Hlo Hhi. rewrite (lastLogIndex_wf r Hwf) in Hhi.
  remember (Z.to_nat (hi - lo + 1)) as n eqn:Hn. revert lo Hlo Hn.
  unfold entries_between. induction n as [|n IH]; intros lo Hlo Hn.
  { by rewrite index_range_nil, take_0 by lia. }
  pose proof Hwf as (H0 & Hm & _).
  rewrite index_range_cons by lia. simpl.
  rewrite getEntry_log by (done || unfold is_int64, max_int64 in *; lia).
  set (k := Z.to_nat (lo - lastIncludedIndex r - 1)).
  destruct (log r !! k) as [e|] eqn:He; [|apply lookup_ge_None_1 in He; lia].
  rewrite (drop_S _ _ _ He). simpl. f_equal. rewrite IH by lia. do 2 f_equal. lia.
Qed.

Lemma entries_between_suffix r lo :
  log_wf r → lastIncludedIndex r < lo →
  entries_between r lo (lastLogIndex r) =
    drop (Z.to_nat (lo - lastIncludedIndex r - 1)) (log r).
Proof.
  intros Hwf Hlo. rewrite entries_between_slice by (done || lia). apply take_ge.
  rewrite length_drop, (lastLogIndex_wf r Hwf). lia.
Qed.

Lemma complete_proposals_frame r :
  ∃ es, complete_proposals r =
    r <| effects ::= λ l, l ++ es |>
      <| proposals := filter (λ p, ¬ p_index p ≤ commitIndex r) (proposals r) |>
  ∧ omap answer_channel es =
      map p_respCh (filter (λ p, p_index p ≤ commitIndex r) (proposals r))
  ∧ Forall (λ e, ∃ ch resp, e = SendResp ch resp) es.
Proof.
  eexists. split_and!.
  - unfold complete_proposals. rewrite for_each_emit. done.
  - generalize (filter (λ p, p_index p ≤ commitIndex r) (proposals r)).
    intros l. induction l as [|p l IH]; [done|]. simpl. f_equal. exact IH.
  - apply Forall_forall. intros e He. apply list_elem_of_fmap in He as (p & -> & _). eauto.
Qed.

Lemma complete_proposals_channels r : channels (complete_proposals r) ≡ₚ channels r.
Proof.
  destruct (complete_proposals_frame r) as (es & -> & Hes & _).
  unfold channels, answered, pending. rsimpl. rewrite omap_app, Hes, <- (assoc_L (++)).
  apply Permutation_app_head. rewrite <- fmap_app.
  apply (fmap_Permutation p_respCh). apply filter_app_complement.
Qed.

Section Compaction.
Context `{!ProtoCodec}.

(** A compaction fails before it changes the log, or moves its base to the
    commit index. *)
Lemma takeSnapshot_cases r :
  (∃ d, takeSnapshot r = r <| disk := d |>) ∨
  (∃ w d, takeSnapshot r =
     r <| lastIncludedIndex := commitIndex r |>
       <| lastIncludedTerm := getEntryTerm r (commitIndex r) |>
       <| log := entries_between r (commitIndex r +! 1) (lastLogIndex r) |>
       <| wal := w |> <| disk := d |>).
Proof.
  unfold takeSnapshot. destruct (SaveSnapshot _ _ _) as [[e|] d]; [by left; exists d|]. right.
  unfold wal_reset. cbv zeta. set (r1 := _ <| log := _ |>).
  assert (Hr1 : r1 = r <| lastIncludedIndex := commitIndex r |>
       <| lastIncludedTerm := getEntryTerm r (commitIndex r) |>
       <| log := entries_between r (commitIndex r +! 1) (lastLogIndex r) |>
       <| wal := wal r |> <| disk := d |>).
  { unfold r1, make_snapshot. cbn [snap_LastIncludedIndex snap_LastIncludedTerm].
    change (entries_between (r <| disk := d |>)) with (entries_between r).
    change (commitIndex (r <| disk := d |>)) with (commitIndex r).
    change (lastLogIndex (r <| disk := d |>)) with (lastLogIndex r).
    generalize (entries_between r (commitIndex r +! 1) (lastLogIndex r)),
      (getEntryTerm r (commitIndex r)). intros l t. solve_upd. }
  clearbody r1. destruct (Reset (wal r1) (disk r1)) as [[e w] d']. destruct e as [e|].
  - exists w, d'. rewrite Hr1.
    generalize (entries_between r (commitIndex r +! 1) (lastLogIndex r)),
      (getEntryTerm r (commitIndex r)). intros l t. solve_upd.
  - rewrite wal_try_frame.
    match goal with |- context [@upd _ _ disk _ (λ _, ?d2) _] => exists w, d2; generalize d2 end.
    intros d2. rewrite Hr1. revert d2.
    generalize (entries_between r (commitIndex r +! 1) (lastLogIndex r)),
      (getEntryTerm r (commitIndex r)). intros l t d2. solve_upd.
Qed.

(** What a node shows of its log from its base up is not changed by moving
    the base. *)
Record same_log (r r' : Raft) : Prop := {
  sl_wf : log_wf r';
  sl_base : lastIncludedIndex r ≤ lastIncludedIndex r';
  sl_last : lastLogIndex r' = lastLogIndex r;
  sl_entry i : lastIncludedIndex r' < i → is_int64 i → getEntry r' i = getEntry r i;
  sl_term i : lastIncludedIndex r' ≤ i → is_int64 i → getEntryTerm r' i = getEntryTerm r i
}.

Lemma same_log_ext r r' :
  log_wf r → lastIncludedIndex r' = lastIncludedIndex r →
  lastIncludedTerm r' = lastIncludedTerm r → log r' = log r → same_log r r'.
Proof.
  intros Hwf Hb Ht Hl. assert (Hg : ∀ i, getEntry r' i = getEntry r i)
    by (intros; by apply getEntry_ext).
  split; [by eapply log_wf_ext|lia|by apply lastLogIndex_ext|auto|].
  intros. unfold getEntryTerm. by rewrite Hg.
Qed.

Lemma takeSnapshot_same_log r :
  log_wf r → lastIncludedIndex r ≤ commitIndex r ≤ lastLogIndex r →
  same_log r (takeSnapshot r).
Proof.
  intros Hwf Hc. pose proof (lastLogIndex_wf r Hwf) as Hlast.
  pose proof Hwf as (H0 & Hm & Hlay).
  destruct (takeSnapshot_cases r) as [[d Hr]|(w & d & Hr)].
  { rewrite Hr. by apply same_log_ext. }
  set (n := Z.to_nat (commitIndex r - lastIncludedIndex r)).
  assert (Hlog : log (takeSnapshot r) = drop n (log r)).
  { rewrite Hr. rsimpl. int64_simpl. rewrite entries_between_suffix by (done || lia).
    f_equal. lia. }
  assert (Hb : lastIncludedIndex (takeSnapshot r) = commitIndex r) by (rewrite Hr; done).
  assert (Ht : lastIncludedTerm (takeSnapshot r) = getEntryTerm r (commitIndex r))
    by (rewrite Hr; done).
  clear Hr. revert Hlog Hb Ht. generalize (takeSnapshot r) as r'. intros r' Hlog Hb Ht.
  assert (Hwf' : log_wf r').
  { unfold log_wf. rewrite Hb, Hlog, length_drop. split_and!; [lia|lia|].
    replace (commitIndex r) with (lastIncludedIndex r + Z.of_nat n) by lia.
    by apply layout_drop. }
  assert (Hent : ∀ i, lastIncludedIndex r' < i → is_int64 i → getEntry r' i = getEntry r i).
  { intros i Hi Hint. rewrite !getEntry_log by (done || lia).
    rewrite Hlog, Hb, lookup_drop. f_equal. lia. }
  split; [done|lia| |done|].
  - rewrite (lastLogIndex_wf r' Hwf'), Hb, Hlog, length_drop, Hlast. lia.
  - intros i Hi Hint. destruct (decide (i = lastIncludedIndex r')) as [->|].
    + unfold getEntryTerm at 1. rewrite getEntry_wf, decide_True by done.
      simpl. by rewrite Ht, Hb.
    + unfold getEntryTerm. by rewrite Hent by (done || lia).
Qed.

Lemma apply_entry_length r : (length (log (apply_entry r)) ≤ S (length (log r)))%nat.
Proof.
  assert (Hd : ∀ r, log (disconnectRemovedPeers r) = log r).
  { intros r0. by destruct (disconnectRemovedPeers_frame r0) as (g & n & m & gone & ->). }
  assert (Hp : ∀ c r, (length (log (proposeSecondPhaseConfig c r)) ≤ S (length (log r)))%nat).
  { intros c r0. unfold proposeSecondPhaseConfig. destruct (EncodeConfigChangeEntry _); [|lia].
    rewrite wal_do_frame. case_match; rewrite ?broadcastHeartbeats_frame; rsimpl;
      rewrite length_app; simpl; lia. }
  assert (Hc : ∀ c r, (length (log (apply_config_change c r)) ≤ S (length (log r)))%nat).
  { intros c r0. unfold apply_config_change. destruct (Joint c).
    - change (log (applyConfigEntry c ?r)) with (log r). case_bool_decide; [apply Hp|lia].
    - cbv zeta. set (r1 := disconnectRemovedPeers _).
      assert (Hl : log r1 = log r0) by (unfold r1; by rewrite Hd). clearbody r1.
      destruct (_ && _); [|by rewrite Hl; lia].
      destruct (_ !! _); [by rewrite Hl; lia|].
      rewrite transitionToFollower_frame. rsimpl. rewrite Hl. lia. }
  unfold apply_entry, apply_envelope. repeat case_match; try lia; [|apply Hc].
  match goal with |- context [applyCommand ?b ?r] =>
    destruct (applyCommand_kv b r) as (k & t & ->) end. rsimpl. lia.
Qed.

Lemma apply_loop_length n r :
  (length (log (apply_loop n r)) ≤ n + length (log r))%nat.
Proof.
  revert r. induction n as [|n IH]; intros r; cbn [apply_loop]; [lia|].
  destruct (_ <? _); [|lia]. etransitivity; [apply IH|].
  pose proof (apply_entry_length (r <| lastApplied ::= λ i, i +! 1 |>)) as H1.
  rsimpl_hyps. lia.
Qed.

(** Installing a snapshot: the fields it sets, [c], [p] and [h] being the
    configuration and the address maps. *)
Definition installed (snap : Snapshot) c p h w d (r : Raft) : Raft :=
  r <| kv := KVState snap |> <| dedupTable := DedupTable snap |>
    <| currentConfig := c |> <| peers := p |> <| peerHTTPAddrs := h |>
    <| log := entries_between r (snap_LastIncludedIndex snap +! 1) (lastLogIndex r) |>
    <| lastIncludedIndex := snap_LastIncludedIndex snap |>
    <| lastIncludedTerm := snap_LastIncludedTerm snap |>
    <| commitIndex := Z.max (commitIndex r) (snap_LastIncludedIndex snap) |>
    <| lastApplied := Z.max (lastApplied r) (snap_LastIncludedIndex snap) |>
    <| wal := w |> <| disk := d |>.

Lemma restoreSnapshot_saved snap r :
  (SaveSnapshot (snapshotPath r) snap (disk r)).1 = None →
  ∃ c p h w d, restoreSnapshot snap r = installed snap c p h w d r ∧
     c = match snap_ClusterConfig snap with
         | Some c => Some (copy_config c)
         | None => currentConfig r
         end.
Proof.
  unfold restoreSnapshot. destruct (SaveSnapshot _ _ _) as [e d]. cbn [fst]. intros ->.
  cbv zeta. destruct snap as [si st skv sc sd]; cbn [KVState DedupTable
    snap_ClusterConfig snap_LastIncludedIndex snap_LastIncludedTerm].
  match goal with |- context [entries_between ?x _ _] => set (r2 := x) end.
  assert (Hr2 : ∃ c p h, r2 = r <| disk := d |> <| kv := skv |> <| dedupTable := sd |>
      <| currentConfig := c |> <| peers := p |> <| peerHTTPAddrs := h |> ∧
      c = match sc with Some c => Some (copy_config c) | None => currentConfig r end).
  { unfold r2. destruct sc as [c|].
    - set (p := AllNodeGRPC (Some (copy_config c)) (node_id r)).
      set (h := AllNodeHTTP (Some (copy_config c)) (node_id r)).
      exists (Some (copy_config c)), p, h. split; [solve_upd|done].
    - exists (currentConfig r), (peers r), (peerHTTPAddrs r). split; [solve_upd|done]. }
  clearbody r2. destruct Hr2 as (c & p & h & Hr2 & Hc).
  exists c, p, h. rewrite wal_try_frame. unfold wal_reset.
  match goal with |- context [Reset ?a ?b] => destruct (Reset a b) as [[e w] d2] end.
  cbn [snd]. match goal with |- context [@upd _ _ disk _ (λ _, ?x) _] => generalize x end.
  intros d3. exists w, d3. split; [|done]. unfold installed.
  cbn [snap_LastIncludedIndex snap_LastIncludedTerm KVState DedupTable].
  assert (He : entries_between r2 (si +! 1) (lastLogIndex r2) =
               entries_between r (si +! 1) (lastLogIndex r)) by (by rewrite Hr2).
  assert (Hci : commitIndex r2 = commitIndex r) by (by rewrite Hr2).
  assert (Hla : lastApplied r2 = lastApplied r) by (by rewrite Hr2).
  rewrite He. rsimpl. rewrite Hci.
  revert Hr2. generalize (entries_between r (si +! 1) (lastLogIndex r)). intros l Hr2.
  destruct (Z.ltb_spec (commitIndex r) si); rsimpl; rewrite Hla;
    destruct (Z.ltb_spec (lastApplied r) si);
    rewrite ?(Z.max_l (commitIndex r)), ?(Z.max_r (commitIndex r)),
      ?(Z.max_l (lastApplied r)), ?(Z.max_r (lastApplied r)) by lia;
    rewrite Hr2; clear; solve_upd.
Qed.

Lemma restoreSnapshot_cases snap r :
  (∃ d, restoreSnapshot snap r = r <| disk := d |>) ∨
  (∃ c p h w d, restoreSnapshot snap r = installed snap c p h w d r ∧
     c = match snap_ClusterConfig snap with
         | Some c => Some (copy_config c)
         | None => currentConfig r
         end).
Proof.
  destruct (SaveSnapshot (snapshotPath r) snap (disk r)) as [[e|] d] eqn:Hs.
  - left. exists d. unfold restoreSnapshot. by rewrite Hs.
  - right. apply restoreSnapshot_saved. by rewrite Hs.
Qed.
End Compaction.
