(* ===== verification/Scenarios.v ===== *)
(** * Concrete nodes

    A single node and a three-node cluster started from an empty disk, used
    to evaluate the theorems on real inputs. *)

From S2P Require Import Prelude Types Config Json Envelope Disk Wal ProtoWire.
From S2P Require Import SnapshotStore Node Roles Election Apply Replication Client.
From S2P Require Import Startup.

(** Every peer can be dialled. *)
#[export] Instance open_dialer : Dialer :=
  {| LoadClientCredentials := None; grpc_Dial := λ _, None |}.
#[export] Existing Instance wire_codec.

Definition empty_disk : Disk := mkDisk ∅ [].

(** A node that was never started. *)
Definition no_node : Raft :=
  initial_node "" ∅ "" (mkWAL FileNil "") 0 0 empty_disk.

Definition boot (id : string) (peers : gmap string string) (threshold : Z) (d : Disk)
    : Raft :=
  match NewRaft id peers "data" threshold 0 d with
  | Ok r => (Start r).2
  | Err _ => no_node
  end.

(** The payload of a write. *)
Definition put (key val client : string) (request : Z) : bytes :=
  match ProposeWithClient "PUT" key val client request with Ok b => b | Err _ => [] end.

(** A node alone in its cluster, elected by its first timeout. *)
Definition solo : Raft := electionTimeout (boot "n1" ∅ 1000 empty_disk).

(** The node "n1" of a cluster of three, elected by the vote of "n2". *)
Definition peers_of_n1 : gmap string string := {["n2" := "h2"; "n3" := "h3"]}.
Definition n1_boot : Raft := boot "n1" peers_of_n1 1000 empty_disk.
Definition n1_candidate : Raft :=
  processPreVoteResponse "n2" (mkRequestVoteResponse 1 true) (electionTimeout n1_boot).
Definition n1_leader : Raft :=
  processRequestVoteResponse "n2" (mkRequestVoteResponse 1 true) n1_candidate.

(** The other two nodes, just started. *)
Definition n2_boot : Raft :=
  boot "n2" {["n1" := "h1"; "n3" := "h3"]} 1000 empty_disk.
Definition n3_boot : Raft :=
  boot "n3" {["n1" := "h1"; "n2" := "h2"]} 1000 empty_disk.

(** The three nodes, and their members. *)
Definition trio : gmap string Raft :=
  {["n1" := n1_boot; "n2" := n2_boot; "n3" := n3_boot]}.
Definition trio_members : gset string := {["n1"; "n2"; "n3"]}.
