(* ===== verification/ApplySpec.v ===== *)
(** * What applying the log promises

    The node refines the replicated state machine, retries take effect once,
    compaction keeps the log, and what happens to a request that arrives
    after a later one of its client. *)

From S2P Require Import Prelude Types Config Json Envelope EnvelopeFacts Disk Wal.
From S2P Require Import ProtoWire SnapshotStore Node Roles Apply Client NodeFacts.
From S2P Require Import StateMachine ApplyFacts Scenarios.

Section Spec.
Context `{!ProtoCodec}.

(** [applyLogs] on a well-formed node. *)
Lemma applyLogs_sm r :
  log_wf r → 0 ≤ lastApplied r ≤ commitIndex r → commitIndex r ≤ lastLogIndex r →
  sm_of (applyLogs r) = sm_range r (lastApplied r + 1) (commitIndex r) (sm_of r) ∧
  lastApplied (applyLogs r) = commitIndex r ∧ commitIndex (applyLogs r) = commitIndex r.
Proof.
  intros Hwf Ha Hc. unfold applyLogs.
  destruct (apply_loop_spec (Z.to_nat (commitIndex r - lastApplied r)) r r []) as [Hap Hsm];
    [done..|by rewrite app_nil_r|done|].
  set (r1 := apply_loop _ r) in *.
  assert (Hi : lastApplied r1 = commitIndex r ∧ commitIndex r1 = commitIndex r).
  { split; [apply (ap_applied _ _ Hap)|apply (ap_commit _ _ Hap)]. }
  rewrite <- Hsm. clearbody r1. clear Hap Hsm.
  match goal with |- context [complete_proposals ?x] => set (r2 := x) end.
  assert (Ht : sm_of r2 = sm_of r1 ∧ lastApplied r2 = lastApplied r1 ∧
               commitIndex r2 = commitIndex r1).
  { unfold r2. destruct (_ && _); [|done].
    destruct (takeSnapshot_cases r1) as [[d ->]|(w & d & ->)]; done. }
  clearbody r2. destruct (complete_proposals_frame r2) as (es & -> & _).
  change (sm_of (r2 <| effects ::= ?f |> <| proposals := ?l |>)) with (sm_of r2).
  rsimpl. destruct Ht as (-> & -> & ->). by split.
Qed.
End Spec.

(** C11. Refinement of the replicated state machine.  [applyLogs] runs the
    specification machine once over each committed entry not yet applied, in
    the order of the log, whatever configuration changes, step-downs and
    compactions happen on the way, and it ends with every committed entry
    applied. *)
Theorem applyLogs_refines `{!ProtoCodec} r :
  log_wf r → 0 ≤ lastApplied r ≤ commitIndex r → commitIndex r ≤ lastLogIndex r →
  sm_of (applyLogs r) =
    sm_commands (commands_of (entries_between r (lastApplied r + 1) (commitIndex r)))
      (sm_of r) ∧
  lastApplied (applyLogs r) = commitIndex r.
Proof.
  intros Hwf Ha Hc. destruct (applyLogs_sm r Hwf Ha Hc) as (Hs & Hl & _).
  split; [|done]. by rewrite Hs, sm_range_commands.
Qed.

(** Two writes in the log, none applied. *)
Definition two_writes : Raft :=
  n1_boot <| log := [mkLogEntry 1 1 (put "a" "1" "c" 5); mkLogEntry 2 1 (put "b" "2" "c" 6)] |>
    <| commitIndex := 2 |>.

Example applyLogs_refines_witness :
  sm_of (applyLogs two_writes) =
    sm_commands (commands_of (entries_between two_writes (0 + 1) 2)) (∅, ∅) ∧
  lastApplied (applyLogs two_writes) = 2.
Proof.
  apply (applyLogs_refines two_writes).
  - apply (bool_decide_unpack _). vm_compute. exact I.
  - vm_compute. split; congruence.
  - vm_compute. congruence.
Defined.

(** The entry of a proposed command, read back. *)
Lemma proposed_entry c i t :
  utf8_command c →
  ∃ b, EncodeCommandEntry (marshal_Command c) = Ok b ∧
    entry_command (mkLogEntry i t b) = Some c.
Proof.
  intros Hc. pose proof (EncodeCommandEntry_text c) as He. eexists. split; [exact He|].
  unfold entry_command. cbn [Cmd]. rewrite bool_decide_eq_false_2 by done.
  rewrite (DecodeLogEntry_command c) by done. cbn [env_Type env_Data default].
  destruct (marshal_Command c) eqn:Hm; [done|]. rewrite <- Hm.
  by apply unmarshal_marshal_Command.
Qed.

(** A write is applied as it was proposed.  The bytes [ProposeWithClient]
    puts into the log are, for the node that applies the entry, the same
    operation, key, value, client and request number. *)
Theorem proposed_command_applied op key val client request i t :
  utf8_command (mkCommand op key val client request) →
  ∃ b, ProposeWithClient op key val client request = Ok b ∧
    entry_command (mkLogEntry i t b) = Some (mkCommand op key val client request).
Proof. apply proposed_entry. Qed.

Example proposed_command_applied_witness :
  ∃ b, ProposeWithClient "PUT" "k" "v" "c" 7 = Ok b ∧
    entry_command (mkLogEntry 1 1 b) = Some (mkCommand "PUT" "k" "v" "c" 7).
Proof.
  apply (proposed_command_applied "PUT" "k" "v" "c" 7 1 1).
  refine (conj _ (conj _ (conj _ (conj _ _)))); try (by apply (utf8_check_sound 5)).
  by unfold is_int64.
Defined.


(** A request that reaches the log after a later one of its client is
    dropped, though its write never took effect, and the client is told that
    it succeeded.  Here "b" is written with request 3 after request 5. *)
Example late_request_lost :
  let r := handleClientCommand (put "a" "1" "c" 5) 1 solo in
  let r := handleClientCommand (put "b" "2" "c" 3) 2 r in
  kv r !! "a" = Some "1" ∧ kv r !! "b" = None ∧
  SendResp 2 (mkCmdResp true None) ∈ effects r.
Proof. vm_compute. split_and!; [done..|]. right. right. left. Qed.
