(* ===== verification/RunLoop.v ===== *)
(** * The run loop

    [run] of [raft/raft.go] takes one message at a time, from the election
    timer, [rpcCh], [cmdCh] or [configCh], and handles it under the lock; the
    goroutines [replicateToPeer], [sendSnapshotToPeer] and the heartbeat ticker
    take the lock in between.  [handle] is one such turn.  A response that finds
    [rpcCh] full is handled by the goroutine itself, by the same method, so it
    is an [ERpc] as well. *)

From S2P Require Import Prelude Types Config Json Envelope Disk Wal SnapshotStore.
From S2P Require Import Node Roles Election Apply Replication Client Startup.

Inductive Event :=
| EElectionTimer
| ERpc (msg : rpcReq)
| ECommand (cmd : bytes) (ch : nat)
| EConfigChange (req : ConfigChangeRequest) (ch : nat)
| EReplicate (peer : string)
| ESendSnapshot (peer : string)
| EHeartbeatTick
| EConfirmed
| ESetReadSafety (mode : string)
| ESetPartition (p : option (gmap string bool))
| ESetJoining (joining : bool)
| EClock (now : Z).

(** The ticker goroutine of [transitionToLeader]: it ends when the node is no
    longer the leader. *)
Definition heartbeatTick (r : Raft) : Raft :=
  if bool_decide (state r = Leader) then broadcastHeartbeats r else r.

(** What the turn hands to the network: the answer to a request, or the call
    a goroutine makes next. *)
Inductive Output :=
| ONone
| OReply (resp : rpcResp)
| OAppend (peer : string) (args : AppendArgs)
| OSnapshot (peer : string) (args : SnapshotArgs).

Definition handle `{!ProtoCodec} `{!Dialer} (ev : Event) (r : Raft) : Output * Raft :=
  match ev with
  | EElectionTimer => (ONone, electionTimeout r)
  | ERpc msg => let '(resp, r) := handleRPC msg r in (OReply resp, r)
  | ECommand cmd ch => (ONone, handleClientCommand cmd ch r)
  | EConfigChange req ch => (ONone, handleConfigChange req ch r)
  | EReplicate peer =>
      match replicateToPeer peer r with
      | (Some args, r) => (OAppend peer args, r)
      | (None, r) => (ONone, r)
      end
  | ESendSnapshot peer =>
      match sendSnapshotToPeer r with
      | (Some args, r) => (OSnapshot peer args, r)
      | (None, r) => (ONone, r)
      end
  | EHeartbeatTick => (ONone, heartbeatTick r)
  | EConfirmed => (ONone, r <| lastHeartbeatQuorum := Some (clock r) |>)
  | ESetReadSafety mode => (ONone, SetReadSafety mode r)
  | ESetPartition p => (ONone, SetPartition p r)
  | ESetJoining joining => (ONone, SetJoining joining r)
  | EClock now => (ONone, r <| clock := now |>)
  end.

(** A run: the node after a sequence of events. *)
Definition run `{!ProtoCodec} `{!Dialer} (evs : list Event) (r : Raft) : Raft :=
  foldl (λ r ev, (handle ev r).2) r evs.

(** The channel a request asks to be answered on. *)
Definition new_channel (ev : Event) : list nat :=
  match ev with
  | ECommand _ ch | EConfigChange _ ch => [ch]
  | _ => []
  end.
