(* ===== verification/RunFacts.v ===== *)
(** * What every event keeps

    [kept]: a node's identity, the election timer of a node that does not
    lead, and the response channels.  Each handler of the run loop preserves
    it; the theorems about runs follow by induction. *)

From S2P Require Import Prelude Types Config Json Envelope Disk Wal SnapshotStore.
From S2P Require Import Node Roles Election Apply Replication Client Startup RunLoop.
From S2P Require Import NodeFacts ReplicationFacts StateMachine ApplyFacts.

(** [chs] are the channels the step adds. *)
Record kept (chs : list nat) (r r' : Raft) : Prop := {
  k_id : node_id r' = node_id r;
  k_channels : channels r' ≡ₚ channels r ++ chs;
  k_timer : timer_ok r → timer_ok r'
}.

Lemma kept_refl r : kept [] r r.
Proof. split; [done| |done]. by rewrite app_nil_r. Qed.

Lemma kept_trans c1 c2 r1 r2 r3 :
  kept c1 r1 r2 → kept c2 r2 r3 → kept (c1 ++ c2) r1 r3.
Proof.
  intros [H1 H2 H3] [H4 H5 H6]. split; [congruence| |auto].
  by rewrite H5, H2, (assoc_L (++)).
Qed.

Lemma kept_then chs r1 r2 r3 : kept chs r1 r2 → kept [] r2 r3 → kept chs r1 r3.
Proof. intros H1 H2. rewrite <- (app_nil_r chs). by eapply kept_trans. Qed.

(** A step that leaves the role, the timer, the proposals and the effects. *)
Lemma kept_frame r r' :
  node_id r' = node_id r → effects r' = effects r → proposals r' = proposals r →
  state r' = state r → timer_armed r' = timer_armed r → kept [] r r'.
Proof.
  intros Hi He Hp Hs Ht. split; [done| |].
  - unfold channels, answered, pending. by rewrite He, Hp, app_nil_r.
  - unfold timer_ok. by rewrite Hs, Ht.
Qed.

Lemma kept_applied r r' : applied r r' → kept [] r r'.
Proof.
  intros H. split; [apply H| |apply H]. rewrite app_nil_r. apply H.
Qed.

(** An effect other than an answer. *)
Lemma kept_emit e r : answer_channel e = None → kept [] r (emit e r).
Proof.
  intros He. split; [done| |done]. unfold emit.
  rewrite channels_effects by (simpl; by rewrite He). by rewrite app_nil_r.
Qed.

Lemma kept_emits {A} (f : A → Effect) l r :
  (∀ x, answer_channel (f x) = None) → kept [] r (for_each l (λ x, emit (f x)) r).
Proof.
  intros Hf. rewrite for_each_emit. split; [done| |done].
  rewrite channels_effects by (by apply omap_map_none). by rewrite app_nil_r.
Qed.

(** The answer to a request that is refused. *)
Lemma kept_answer ch resp r : kept [ch] r (emit (SendResp ch resp) r).
Proof.
  split; [done| |done]. unfold channels, answered, pending, emit. rsimpl.
  rewrite omap_app. simpl. rewrite <- !(assoc_L (++)).
  apply Permutation_app_head. apply Permutation_app_comm.
Qed.

(** A request that becomes a proposal. *)
Lemma kept_propose p r : kept [p_respCh p] r (r <| proposals ::= λ l, l ++ [p] |>).
Proof.
  split; [done| |done]. unfold channels, answered, pending. rsimpl.
  by rewrite map_app, (assoc_L (++)).
Qed.

Ltac kept_update := apply kept_frame; rsimpl; done.

Lemma kept_wal op r : kept [] r (wal_try op r).
Proof. rewrite wal_try_frame. kept_update. Qed.

Lemma kept_broadcast r : kept [] r (broadcastHeartbeats r).
Proof. by apply kept_emits. Qed.

Lemma kept_follower t r : kept [] r (transitionToFollower t r).
Proof.
  pose proof (transitionToFollower_channels t r) as Hc.
  split; [by rewrite transitionToFollower_frame| |].
  - by rewrite app_nil_r.
  - intros _ _. by rewrite transitionToFollower_frame.
Qed.

Lemma kept_reset r : kept [] r (resetElectionTimer r).
Proof.
  split; [done| |by intros _ _]. unfold channels, answered, pending. rsimpl.
  by rewrite app_nil_r.
Qed.

(** Becoming a candidate right before the timer is reset. *)
Lemma kept_candidate r : kept [] r (resetElectionTimer (r <| state := Candidate |>)).
Proof.
  split; [done| |by intros _ _]. unfold channels, answered, pending. rsimpl.
  by rewrite app_nil_r.
Qed.

#[export] Hint Resolve kept_refl kept_wal kept_broadcast kept_follower kept_reset
  kept_candidate : raft.

Section Handlers.
Context {PC : ProtoCodec} {DL : Dialer}.

Lemma kept_leader r : kept [] r (transitionToLeader r).
Proof.
  unfold transitionToLeader. case_bool_decide; [apply kept_refl|]. cbv zeta.
  eapply kept_then; [|by apply kept_emit].
  eapply kept_then; [|apply kept_broadcast].
  match goal with |- context [init_progress ?i ?x] => set (r1 := init_progress i x) end.
  assert (H1 : kept [] r r1).
  { unfold r1. destruct (connectToPeersLocked_frame (r <| state := Leader |> <| timer_armed := false |>))
      as (g & ->). match goal with |- context [init_progress ?i ?x] =>
      destruct (init_progress_frame i x) as (n & m & ->) end.
    split; [done| |].
    - unfold channels, answered, pending. rsimpl. by rewrite app_nil_r.
    - by intros _ [Hx|Hx]. }
  clearbody r1. destruct EncodeNoopEntry; [|done].
  eapply kept_then; [exact H1|]. eapply kept_then; [|apply kept_wal]. kept_update.
Qed.

Lemma kept_election r : kept [] r (startElection r).
Proof.
  unfold startElection. case_bool_decide; [apply kept_leader|]. by apply kept_emits.
Qed.

Lemma kept_toCandidate r : kept [] r (transitionToCandidate r).
Proof.
  unfold transitionToCandidate. cbv zeta.
  eapply kept_then; [|apply kept_election]. eapply kept_then; [|apply kept_wal].
  eapply kept_then; [apply kept_candidate|]. kept_update.
Qed.

Lemma kept_preVote r : kept [] r (startPreVote r).
Proof.
  unfold startPreVote. cbv zeta.
  match goal with |- context [transitionToCandidate ?x] => set (r1 := x) end.
  assert (H1 : kept [] r r1).
  { eapply kept_then; [apply kept_reset|]. kept_update. }
  clearbody r1. case_bool_decide.
  - eapply kept_then; [exact H1|apply kept_toCandidate].
  - eapply kept_then; [exact H1|by apply kept_emits].
Qed.

(** ** Applying *)

Lemma kept_loop n r : kept [] r (apply_loop n r).
Proof.
  revert r. induction n as [|n IH]; intros r; cbn [apply_loop]; [apply kept_refl|].
  destruct (_ <? _); [|apply kept_refl].
  eapply kept_then; [|apply IH]. eapply kept_then; [|apply kept_applied, applied_entry].
  kept_update.
Qed.

Lemma kept_snapshot r : kept [] r (takeSnapshot r).
Proof. destruct (takeSnapshot_cases r) as [[d ->]|(w & d & ->)]; kept_update. Qed.

Lemma kept_complete r : kept [] r (complete_proposals r).
Proof.
  pose proof (complete_proposals_channels r) as Hc.
  destruct (complete_proposals_frame r) as (es & Heq & _). rewrite Heq in *.
  split; [done| |done]. by rewrite app_nil_r.
Qed.

Lemma kept_apply r : kept [] r (applyLogs r).
Proof.
  unfold applyLogs. cbv zeta. eapply kept_then; [|apply kept_complete].
  eapply kept_then; [apply kept_loop|].
  destruct (_ && _); [apply kept_snapshot|apply kept_refl].
Qed.

Lemma kept_restore snap r : kept [] r (restoreSnapshot snap r).
Proof.
  destruct (restoreSnapshot_cases snap r) as [[d ->]|(c & p & h & w & d & -> & _)];
    [kept_update|]. unfold installed. kept_update.
Qed.

(** ** Handlers *)

Lemma kept_requestVote req r : kept [] r (processRequestVote req r).2.
Proof.
  unfold processRequestVote. destruct (_ <? _); [apply kept_refl|].
  destruct (not_a_member _ _); [apply kept_refl|]. cbv zeta.
  match goal with |- context [logOK ?x _] => set (r1 := x) end.
  assert (H1 : kept [] r r1).
  { unfold r1. destruct (_ <? _); [apply kept_follower|apply kept_refl]. }
  clearbody r1. destruct (_ && _); [|done]. cbn [snd].
  eapply kept_then; [exact H1|]. eapply kept_then; [|apply kept_wal].
  eapply kept_then; [|apply kept_reset]. kept_update.
Qed.

Lemma kept_preVoteResponse p resp r : kept [] r (processPreVoteResponse p resp r).
Proof.
  unfold processPreVoteResponse. destruct (_ && _); [|apply kept_refl]. cbv zeta.
  set (r1 := r <| preVoteVotesReceived ::= _ |>).
  assert (H1 : kept [] r r1) by kept_update. clearbody r1.
  destruct (vote_majority _ _); [|done].
  eapply kept_then; [exact H1|apply kept_toCandidate].
Qed.

Lemma kept_voteResponse p resp r : kept [] r (processRequestVoteResponse p resp r).
Proof.
  unfold processRequestVoteResponse. destruct (_ <? _); [apply kept_follower|].
  destruct (_ && _); [|apply kept_refl]. cbv zeta.
  set (r1 := r <| votesReceived ::= _ |>).
  assert (H1 : kept [] r r1) by kept_update. clearbody r1.
  destruct (vote_majority _ _); [|done].
  eapply kept_then; [exact H1|apply kept_leader].
Qed.

(** The pre-vote and the reset both arm the timer again. *)
Lemma startPreVote_timer b r : startPreVote (r <| timer_armed := b |>) = startPreVote r.
Proof.
  unfold startPreVote, resetElectionTimer.
  by replace (r <| timer_armed := b |> <| timer_armed := true |>)
    with (r <| timer_armed := true |>) by solve_upd.
Qed.

Lemma kept_timeout r : kept [] r (electionTimeout r).
Proof.
  unfold electionTimeout. cbv zeta. rsimpl. rewrite startPreVote_timer.
  destruct (_ && _) eqn:Hb; [apply kept_preVote|].
  destruct (isJoining r).
  - replace (resetElectionTimer (r <| timer_armed := false |>)) with (resetElectionTimer r)
      by solve_upd. apply kept_reset.
  - rewrite andb_true_r in Hb. apply orb_false_iff in Hb as [H1 H2].
    apply bool_decide_eq_false in H1, H2. split; [done| |].
    + by rewrite app_nil_r.
    + intros _ [Hs|Hs]; done.
Qed.

Lemma kept_follow_leader t l r : kept [] r (follow_leader t l r).
Proof.
  unfold follow_leader. cbv zeta. eapply kept_then; [|apply kept_reset].
  match goal with |- kept _ _ (?x <| votedFor := l |>) => apply (kept_then [] r x); [|kept_update] end.
  match goal with |- context [bool_decide (state ?x = Candidate)] => set (r1 := x) end.
  assert (H1 : kept [] r r1)
    by (unfold r1; destruct (_ <? _); [apply kept_follower|apply kept_refl]).
  clearbody r1. case_bool_decide; [|done]. eapply kept_then; [exact H1|apply kept_follower].
Qed.

Lemma kept_append_entries es r : kept [] r (for_each es append_entry r).
Proof. destruct (append_entries_frame es r) as (l & d & ->). kept_update. Qed.

Lemma kept_follow_commit c r : kept [] r (follow_commit c r).
Proof.
  unfold follow_commit. destruct (_ <? _); [|apply kept_refl]. cbv zeta.
  eapply kept_then; [|apply kept_apply]. destruct (_ <? _); kept_update.
Qed.

Lemma kept_appendEntries req r : kept [] r (processAppendEntries req r).2.
Proof.
  unfold processAppendEntries. destruct (_ <? _); [apply kept_refl|]. cbv zeta.
  pose proof (kept_follow_leader (ae_Term req) (ae_LeaderId req) r) as H1. revert H1.
  generalize (follow_leader (ae_Term req) (ae_LeaderId req) r). intros r1 H1.
  destruct (_ <? _); [done|]. destruct (_ && _); [done|]. cbn [snd].
  eapply kept_then; [exact H1|]. eapply kept_then; [|apply kept_follow_commit].
  apply kept_append_entries.
Qed.

Lemma kept_try_commit n r : kept [] r (try_commit n r).
Proof.
  unfold try_commit. destruct (_ =? _); [|apply kept_refl].
  destruct (checkCommitMajority _ _); [|apply kept_refl].
  eapply kept_then; [|apply kept_apply]. kept_update.
Qed.

Lemma kept_for_each {A} (l : list A) body r :
  (∀ x r, kept [] r (body x r)) → kept [] r (for_each l body r).
Proof.
  intros Hb. apply (for_each_ind (kept [] r)); [|apply kept_refl].
  intros x r' _ Hr. by eapply kept_then.
Qed.

Lemma kept_appendResponse p resp r : kept [] r (processAppendEntriesResponse p resp r).
Proof.
  unfold processAppendEntriesResponse. destruct (_ <? _); [apply kept_follower|].
  destruct (_ && _); [|apply kept_refl]. cbv zeta. destruct (Success resp).
  - eapply kept_then; [|apply kept_for_each, kept_try_commit].
    unfold clean_proposalTime. destruct (_ <? _); kept_update.
  - eapply kept_then; [|by apply kept_emit]. destruct (_ <? _); kept_update.
Qed.

Lemma kept_installSnapshot req r : kept [] r (processInstallSnapshot req r).2.
Proof.
  unfold processInstallSnapshot. destruct (_ <? _); [apply kept_refl|]. cbv zeta. cbn [snd].
  pose proof (kept_follow_leader (is_Term req) (is_LeaderId req) r) as H1. revert H1.
  generalize (follow_leader (is_Term req) (is_LeaderId req) r). intros r1 H1.
  set (r2 := r1 <| snapshotBuf ::= _ |>).
  assert (H2 : kept [] r r2) by (eapply kept_then; [exact H1|kept_update]). clearbody r2.
  destruct (Done req); [|done].
  destruct (unmarshal_Snapshot _) as [snap|].
  - eapply kept_then; [exact H2|]. eapply kept_then; [apply kept_restore|kept_update].
  - eapply kept_then; [exact H2|kept_update].
Qed.

Lemma kept_snapshotResponse p resp r : kept [] r (processInstallSnapshotResponse p resp r).
Proof.
  unfold processInstallSnapshotResponse. destruct (_ <? _); [apply kept_follower|].
  destruct (_ && _); [|apply kept_refl]. cbv zeta.
  eapply kept_then; [|by apply kept_emit]. kept_update.
Qed.

Lemma kept_rpc msg r : kept [] r (handleRPC msg r).2.
Proof.
  destruct msg; simpl.
  - apply kept_refl.
  - pose proof (kept_requestVote req r). by destruct (processRequestVote _ _).
  - pose proof (kept_appendEntries req r). by destruct (processAppendEntries _ _).
  - pose proof (kept_installSnapshot req r). by destruct (processInstallSnapshot _ _).
  - apply kept_preVoteResponse.
  - apply kept_voteResponse.
  - apply kept_appendResponse.
  - apply kept_snapshotResponse.
Qed.

Lemma kept_then_answer ch resp r1 r2 :
  kept [] r1 r2 → kept [ch] r1 (emit (SendResp ch resp) r2).
Proof. intros H. apply (kept_trans [] [ch] r1 r2); [done|apply kept_answer]. Qed.

Lemma kept_then_propose p r1 r2 :
  kept [] r1 r2 → kept [p_respCh p] r1 (r2 <| proposals ::= λ l, l ++ [p] |>).
Proof. intros H. apply (kept_trans [] [p_respCh p] r1 r2); [done|apply kept_propose]. Qed.

Lemma kept_client cmd ch r : kept [ch] r (handleClientCommand cmd ch r).
Proof.
  unfold handleClientCommand. case_bool_decide; [apply kept_answer|]. cbv zeta.
  set (e := mkLogEntry _ _ _). rewrite wal_do_frame. set (r1 := r <| log ::= _ |>).
  set (r2 := r1 <| disk := _ |>). assert (H1 : kept [] r r2) by kept_update. clearbody r2.
  destruct (_.1); [by apply kept_then_answer|].
  match goal with |- context [broadcastHeartbeats ?x] => set (r3 := x) end.
  assert (H3 : kept [ch] r r3).
  { apply (kept_then_propose (mkProposal (Index e) (Term e) ch)).
    eapply kept_then; [exact H1|kept_update]. }
  clearbody r3.
  pose proof (kept_then _ _ _ _ H3 (kept_broadcast r3)) as H4. revert H4.
  generalize (broadcastHeartbeats r3). intros r4 H4.
  destruct (_ && _); [|done]. eapply kept_then; [|apply kept_apply].
  eapply kept_then; [exact H4|kept_update].
Qed.

Lemma kept_configChange req ch r : kept [ch] r (handleConfigChange req ch r).
Proof.
  unfold handleConfigChange. case_bool_decide; [apply kept_answer|].
  destruct (pendingConfig r); [apply kept_answer|].
  case_bool_decide; [apply kept_answer|].
  destruct (BuildJointConfig _ _ _) as [c|]; [|apply kept_answer].
  destruct (EncodeConfigChangeEntry _) as [data|]; [|apply kept_answer]. cbv zeta.
  set (e := mkLogEntry _ _ _). rewrite wal_do_frame. set (r1 := r <| log ::= _ |>).
  set (r2 := r1 <| disk := _ |>). assert (H1 : kept [] r r2) by kept_update. clearbody r2.
  destruct (_.1); [by apply kept_then_answer|].
  eapply kept_then; [|apply kept_broadcast].
  apply (kept_then_propose (mkProposal (Index e) (Term e) ch)).
  match goal with |- kept _ _ (connectToNewPeers ?x) => set (r3 := x) end.
  assert (H3 : kept [] r r3).
  { eapply kept_then; [exact H1|].
    eapply kept_then; [|apply kept_applied, applied_config]. kept_update. }
  clearbody r3. destruct (connectToNewPeers_frame r3) as (g & n & m & ->).
  eapply kept_then; [exact H3|kept_update].
Qed.

(** Every event of the run loop. *)
Lemma handle_kept ev r : kept (new_channel ev) r (handle ev r).2.
Proof.
  destruct ev; simpl; try kept_update.
  - apply kept_timeout.
  - pose proof (kept_rpc msg r). by destruct (handleRPC _ _).
  - apply kept_client.
  - apply kept_configChange.
  - unfold replicateToPeer. case_bool_decide; [apply kept_refl|].
    destruct (_ <=? _); [by apply kept_emit|apply kept_refl].
  - unfold sendSnapshotToPeer. case_bool_decide; [apply kept_refl|].
    destruct (LoadSnapshot _ _) as [[[snap|]|] d]; kept_update.
  - unfold heartbeatTick. case_bool_decide; [apply kept_broadcast|apply kept_refl].
Qed.

Lemma run_kept evs r : kept (concat (map new_channel evs)) r (run evs r).
Proof.
  revert r. induction evs as [|ev evs IH]; intros r; [apply kept_refl|].
  simpl. eapply kept_trans; [apply handle_kept|apply IH].
Qed.
End Handlers.
