(* ===== verification/RunSpec.v ===== *)
(** * What the run loop promises

    Every request is answered at most once and never dropped, and a node that
    does not lead has its election timer running: the two facts that make a
    client and a cluster go on. *)

From S2P Require Import Prelude Types Config Json Envelope Disk Wal ProtoWire.
From S2P Require Import SnapshotStore Node Roles Election Apply Replication Client.
From S2P Require Import Startup RunLoop NodeFacts ApplyFacts RunFacts Scenarios.

(** C17. Every request is accounted for.  After any sequence of events, each
    channel a client waits on has been sent exactly one answer or belongs to
    exactly one pending proposal, never both: no client is answered twice (a
    second send on the channel would block the node under its lock), and none
    is forgotten while the node runs. *)
Theorem requests_answered_once `{!ProtoCodec} `{!Dialer} evs r :
  NoDup (channels r ++ concat (map new_channel evs)) →
  let r' := run evs r in
  NoDup (answered r') ∧ NoDup (pending r') ∧
  ∀ ch, ch ∈ concat (map new_channel evs) →
    (ch ∈ answered r' ∧ ch ∉ pending r') ∨ (ch ∈ pending r' ∧ ch ∉ answered r').
Proof.
  intros Hnd r'. pose proof (k_channels _ _ _ (run_kept evs r)) as Hperm. fold r' in Hperm.
  rewrite <- Hperm in Hnd. unfold channels in Hnd.
  apply NoDup_app in Hnd as (Ha & Hd & Hp). split_and!; [done..|].
  intros ch Hch. assert (Hin : ch ∈ channels r').
  { rewrite Hperm. apply elem_of_app. by right. }
  unfold channels in Hin. apply elem_of_app in Hin as [Hin|Hin]; [left|right].
  - split; [done|]. by apply Hd.
  - split; [done|]. intros Hin'. by apply (Hd ch).
Qed.

(** A write, its replication, and the step down of the leader. *)
Definition some_events : list Event :=
  [ECommand (put "a" "1" "c" 1) 0; ECommand (put "b" "2" "c" 2) 1;
   ERpc (MAppendResp "n2" (mkAppendEntriesResponse 1 true 2));
   ERpc (MAppendResp "n3" (mkAppendEntriesResponse 5 false 0))].

Example requests_answered_once_witness :
  let r' := run some_events n1_leader in
  answered r' = [0; 1]%nat ∧ pending r' = [] ∧
  (NoDup (answered r') ∧ NoDup (pending r') ∧
   ∀ ch, ch ∈ [0; 1]%nat →
    (ch ∈ answered r' ∧ ch ∉ pending r') ∨ (ch ∈ pending r' ∧ ch ∉ answered r')).
Proof.
  split; [vm_compute; reflexivity|]. split; [vm_compute; reflexivity|].
  apply (requests_answered_once some_events n1_leader).
  apply (bool_decide_unpack _). vm_compute. exact I.
Defined.

(** C33. A node that does not lead always has its election timer running: from
    the start of the node and after every event, a follower or a candidate
    will time out and campaign, so a cluster without a leader is not stuck. *)
Theorem election_timer_runs `{!ProtoCodec} `{!Dialer} evs r r0 :
  Start r0 = (None, r) →
  let r' := run evs r in
  state r' = Follower ∨ state r' = Candidate → timer_armed r' = true.
Proof.
  intros Hs. apply (k_timer _ _ _ (run_kept evs r)). intros _.
  unfold Start in Hs. destruct (connectToPeers r0) as [[e|] r1]; [done|].
  injection Hs as <-. done.
Qed.

Example election_timer_runs_witness :
  timer_armed (run [ERpc (MAppendEntries (mkAppendEntriesRequest 3 "n2" 0 0 [] 0))] n1_boot)
    = true.
Proof.
  assert (∃ r0, Start r0 = (None, n1_boot)) as [r0 Hr0].
  { exists (match NewRaft "n1" peers_of_n1 "data" 1000 0 empty_disk with
            | Ok r => r | Err _ => no_node end). vm_compute. reflexivity. }
  apply (election_timer_runs
           [ERpc (MAppendEntries (mkAppendEntriesRequest 3 "n2" 0 0 [] 0))] n1_boot r0 Hr0).
  left. vm_compute. reflexivity.
Defined.
