(* ===== verification/ElectionFacts.v ===== *)
(** * Lemmas on elections

    [quiet]: a step that leaves a node's role, term and vote; with no
    configuration change in the log, applying and replicating are quiet.
    [election_step]: the few ways a handler does change them. *)

From S2P Require Import Prelude Types Config Json Envelope EnvelopeFacts Disk Wal.
From S2P Require Import SnapshotStore Node Roles Election Apply Replication Client.
From S2P Require Import Startup RunLoop NodeFacts ReplicationFacts StateMachine.
From S2P Require Import ApplyFacts.

(** The entry is not a configuration change. *)
Definition no_config (e : LogEntry) : Prop :=
  env_Type (DecodeLogEntry (Cmd e)) ≠ EntryConfigChange.

#[export] Instance no_config_dec e : Decision (no_config e).
Proof. unfold no_config. apply _. Defined.

Definition plain_log (r : Raft) : Prop := Forall no_config (log r).

(** What [ProposeWithClient] sends is never one, whatever the strings. *)
Lemma proposed_plain op key val client request cmd i t :
  ProposeWithClient op key val client request = Ok cmd →
  no_config (mkLogEntry i t cmd).
Proof.
  unfold ProposeWithClient. intros H. unfold no_config. cbn [Cmd].
  rewrite (DecodeLogEntry_command _ _ H). cbn [env_Type].
  unfold EntryCommand, EntryConfigChange. lia.
Qed.

(** The calls for votes a node has started: the term, and the last index and
    term of its log. *)
Definition vote_call (e : Effect) : option (Z * Z * Z) :=
  match e with GoRequestVote _ t i lt => Some (t, i, lt) | _ => None end.
Definition campaigns (r : Raft) : list (Z * Z * Z) := omap vote_call (effects r).

Lemma campaigns_app r es :
  campaigns (r <| effects ::= λ l, l ++ es |>) = campaigns r ++ omap vote_call es.
Proof. unfold campaigns. rsimpl. apply omap_app. Qed.

Lemma campaigns_answers r es :
  Forall (λ e, ∃ ch resp, e = SendResp ch resp) es →
  campaigns (r <| effects ::= λ l, l ++ es |>) = campaigns r.
Proof.
  intros Hes. rewrite campaigns_app. replace (omap vote_call es) with (@nil (Z * Z * Z)).
  { by rewrite app_nil_r. }
  induction Hes as [|e es (ch & resp & ->) _ IH]; [done|exact IH].
Qed.

Lemma campaigns_emits {A} (f : A → Effect) l r :
  (∀ x, vote_call (f x) = None) →
  campaigns (r <| effects ::= λ es, es ++ map f l |>) = campaigns r.
Proof.
  intros Hf. rewrite campaigns_app, omap_map_none; [by rewrite app_nil_r|done].
Qed.

Record quiet (r r' : Raft) : Prop := {
  q_id : node_id r' = node_id r;
  q_state : state r' = state r;
  q_term : currentTerm r' = currentTerm r;
  q_vote : votedFor r' = votedFor r;
  q_votes : votesReceived r' = votesReceived r;
  q_plain : plain_log r → plain_log r';
  q_calls : campaigns r' = campaigns r
}.

Lemma quiet_refl r : quiet r r.
Proof. by split. Qed.

Lemma quiet_trans r1 r2 r3 : quiet r1 r2 → quiet r2 r3 → quiet r1 r3.
Proof. intros [] []. split; try congruence. auto. Qed.

Lemma quiet_frame r r' :
  node_id r' = node_id r → state r' = state r → currentTerm r' = currentTerm r →
  votedFor r' = votedFor r → votesReceived r' = votesReceived r → log r' = log r →
  campaigns r' = campaigns r → quiet r r'.
Proof. intros. split; try done. unfold plain_log. congruence. Qed.

Ltac quiet_update := apply quiet_frame; rsimpl; done.

Lemma quiet_emit e r : vote_call e = None → quiet r (emit e r).
Proof.
  intros He. unfold emit. apply quiet_frame; try done. rewrite campaigns_app. simpl.
  by rewrite He, app_nil_r.
Qed.

Lemma quiet_snoc e r : no_config e → quiet r (r <| log ::= λ l, l ++ [e] |>).
Proof.
  intros He. split; try done. unfold plain_log. rsimpl. intros Hl.
  apply Forall_app. by repeat constructor.
Qed.

Lemma quiet_wal op r : quiet r (wal_try op r).
Proof. rewrite wal_try_frame. quiet_update. Qed.

Lemma quiet_emits {A} (f : A → Effect) l r :
  (∀ x, vote_call (f x) = None) → quiet r (for_each l (λ x, emit (f x)) r).
Proof.
  intros Hf. rewrite for_each_emit. apply quiet_frame; try done. by apply campaigns_emits.
Qed.

Lemma quiet_broadcast r : quiet r (broadcastHeartbeats r).
Proof. by apply quiet_emits. Qed.

Section Quiet.
Context `{!ProtoCodec}.

Lemma getEntry_plain r i e :
  plain_log r → getEntry r i = Some e → no_config e.
Proof.
  unfold getEntry. intros Hp He. case_bool_decide; [by simplify_eq|].
  destruct (_ <? _); [done|]. destruct (_ && _); [|done].
  by apply (Forall_lookup_1 _ _ _ _ Hp) in He.
Qed.

(** Applying an entry that is not a configuration change touches the store
    only. *)
Lemma apply_entry_plain r :
  plain_log r → ∃ k t, apply_entry r = r <| kv := k |> <| dedupTable := t |>.
Proof.
  intros Hp. assert (Hid : ∃ k t, r = r <| kv := k |> <| dedupTable := t |>)
    by (exists (kv r), (dedupTable r); solve_upd).
  unfold apply_entry. destruct (getEntry r (lastApplied r)) as [e|] eqn:He; [|done].
  apply getEntry_plain in He; [|done]. case_bool_decide; [done|].
  unfold apply_envelope. destruct (_ =? EntryCommand); [apply applyCommand_kv|].
  destruct (Z.eqb_spec (env_Type (DecodeLogEntry (Cmd e))) EntryConfigChange); [|done].
  by destruct He.
Qed.

Lemma quiet_loop n r : plain_log r → quiet r (apply_loop n r).
Proof.
  revert r. induction n as [|n IH]; intros r Hp; cbn [apply_loop]; [apply quiet_refl|].
  destruct (_ <? _); [|apply quiet_refl].
  destruct (apply_entry_plain (r <| lastApplied ::= λ i, i +! 1 |>)) as (k & t & ->); [done|].
  eapply quiet_trans; [|by apply IH]. quiet_update.
Qed.

Lemma entries_between_plain r lo hi :
  plain_log r → Forall no_config (entries_between r lo hi).
Proof.
  intros Hp. unfold entries_between. apply Forall_forall. intros e He.
  apply list_elem_of_omap in He as (i & _ & He). by eapply getEntry_plain.
Qed.

Lemma quiet_takeSnapshot r : plain_log r → quiet r (takeSnapshot r).
Proof.
  intros Hp. destruct (takeSnapshot_cases r) as [[d ->]|(w & d & ->)]; [quiet_update|].
  split; rsimpl; try done. intros _. unfold plain_log. rsimpl. by apply entries_between_plain.
Qed.

Lemma quiet_complete r : quiet r (complete_proposals r).
Proof.
  destruct (complete_proposals_frame r) as (es & -> & _ & Hes).
  apply quiet_frame; try done. change (campaigns (?r <| proposals := ?l |>)) with (campaigns r).
  by apply campaigns_answers.
Qed.

Lemma quiet_apply r : plain_log r → quiet r (applyLogs r).
Proof.
  intros Hp. unfold applyLogs. cbv zeta. eapply quiet_trans; [|apply quiet_complete].
  pose proof (quiet_loop (Z.to_nat (commitIndex r - lastApplied r)) r Hp) as Hl.
  destruct (_ && _); [|done]. eapply quiet_trans; [exact Hl|].
  apply quiet_takeSnapshot. by apply Hl.
Qed.

Lemma quiet_restore snap r : plain_log r → quiet r (restoreSnapshot snap r).
Proof.
  intros Hp.
  destruct (restoreSnapshot_cases snap r) as [[d ->]|(c & p & h & w & d & -> & _)];
    [quiet_update|]. unfold installed.
  split; rsimpl; try done. intros _. unfold plain_log. rsimpl. by apply entries_between_plain.
Qed.

Lemma quiet_append_entry e r : no_config e → quiet r (append_entry e r).
Proof.
  intros He. unfold append_entry. cbv zeta.
  destruct (_ <=? _); [apply quiet_refl|]. destruct (_ <=? _).
  - destruct (getEntry _ _); [|apply quiet_refl]. case_bool_decide; [|apply quiet_refl].
    eapply quiet_trans; [|apply quiet_wal]. eapply quiet_trans; [|by apply quiet_snoc].
    eapply quiet_trans; [|apply quiet_wal]. split; try done.
    unfold plain_log. rsimpl. intros Hl. by apply Forall_take.
  - eapply quiet_trans; [|apply quiet_wal]. by apply quiet_snoc.
Qed.

Lemma quiet_for_each {A} (l : list A) body r :
  plain_log r → (∀ x r, x ∈ l → plain_log r → quiet r (body x r)) →
  quiet r (for_each l body r).
Proof.
  intros Hp Hb. apply (for_each_ind (quiet r)); [|apply quiet_refl].
  intros x r' Hx Hr. eapply quiet_trans; [done|]. apply Hb; [done|]. by apply Hr.
Qed.

Lemma quiet_append_entries es r :
  Forall no_config es → plain_log r → quiet r (for_each es append_entry r).
Proof.
  intros Hes Hp. apply quiet_for_each; [done|]. intros e r' He _.
  apply quiet_append_entry. by rewrite Forall_forall in Hes; apply Hes.
Qed.

Lemma quiet_follow_commit c r : plain_log r → quiet r (follow_commit c r).
Proof.
  intros Hp. unfold follow_commit. destruct (_ <? _); [|apply quiet_refl]. cbv zeta.
  match goal with |- quiet _ (applyLogs ?x) => set (r1 := x) end.
  assert (H1 : quiet r r1) by (unfold r1; destruct (_ <? _); quiet_update).
  clearbody r1. eapply quiet_trans; [exact H1|]. apply quiet_apply. by apply H1.
Qed.

Lemma quiet_try_commit n r : plain_log r → quiet r (try_commit n r).
Proof.
  intros Hp. unfold try_commit. destruct (_ =? _); [|apply quiet_refl].
  destruct (checkCommitMajority _ _); [|apply quiet_refl].
  eapply quiet_trans; [|by apply quiet_apply]. quiet_update.
Qed.
End Quiet.

(** ** The changes of role, term and vote *)

Inductive change :=
| CNone
| CStepDown
| CVote (candidate : string)
| CLeader (leader : string)
| CCampaign
| CVotes (peer : string).

Inductive election_step (r r' : Raft) : change → Prop :=
| es_none :
    state r' = state r → currentTerm r' = currentTerm r → votedFor r' = votedFor r →
    votesReceived r' = votesReceived r → election_step r r' CNone
| es_down :
    currentTerm r < currentTerm r' → state r' = Follower → votedFor r' = "" →
    election_step r r' CStepDown
| es_vote c :
    (currentTerm r < currentTerm r' ∧ state r' = Follower) ∨
    (currentTerm r' = currentTerm r ∧ state r' = state r ∧
     (votedFor r = "" ∨ votedFor r = c)) →
    votedFor r' = c → votesReceived r' = votesReceived r →
    election_step r r' (CVote c)
| es_leader l :
    currentTerm r ≤ currentTerm r' → votedFor r' = l →
    state r' = Follower ∨
      (currentTerm r' = currentTerm r ∧ state r' = state r ∧ state r ≠ Candidate) →
    election_step r r' (CLeader l)
| es_campaign :
    currentTerm r' = currentTerm r +! 1 → votedFor r' = node_id r →
    votesReceived r' = {[ node_id r := true ]} →
    state r' = Candidate ∨ (state r' = Leader ∧ effectivePeers r = ∅) →
    election_step r r' CCampaign
| es_votes p :
    state r = Candidate → currentTerm r' = currentTerm r → votedFor r' = votedFor r →
    votesReceived r' = <[p := true]> (votesReceived r) →
    state r' = Candidate ∨
      (state r' = Leader ∧ vote_majority r (votesReceived r') = true) →
    election_step r r' (CVotes p).

(** What every handler leaves: the identity, a plain log, and one change. *)
Record stepped (r r' : Raft) (ch : change) : Prop := {
  st_id : node_id r' = node_id r;
  st_plain : plain_log r → plain_log r';
  st_change : election_step r r' ch;
  st_calls c : c ∈ campaigns r' → c ∈ campaigns r ∨
    (ch = CCampaign ∧ c = (currentTerm r', lastLogIndex r, lastLogTerm r))
}.

Lemma stepped_quiet r r' : quiet r r' → stepped r r' CNone.
Proof.
  intros [Qi Qs Qt Qv Qr Qp Qc]. split; [done|done|by constructor|].
  intros c. rewrite Qc. by left.
Qed.

Lemma stepped_intro r r' ch :
  node_id r' = node_id r → (plain_log r → plain_log r') → campaigns r' = campaigns r →
  election_step r r' ch → stepped r r' ch.
Proof. intros Hi Hp Hc Hs. split; [done|done|done|]. intros c. rewrite Hc. by left. Qed.

Lemma campaigns_follower t r : campaigns (transitionToFollower t r) = campaigns r.
Proof.
  rewrite transitionToFollower_frame. unfold campaigns. rsimpl.
  by rewrite omap_app, omap_map_none, app_nil_r.
Qed.

Lemma stepped_then r1 r2 r3 ch :
  stepped r1 r2 ch → quiet r2 r3 → stepped r1 r3 ch.
Proof.
  intros [Hi Hp Hc Hv] [Qi Qs Qt Qv Qr Qp Qc]. split; [congruence|auto| |].
  - destruct Hc; constructor; rewrite ?Qs, ?Qt, ?Qv, ?Qr; done.
  - rewrite Qc, Qt. exact Hv.
Qed.

Lemma stepped_follower t r :
  currentTerm r < t → stepped r (transitionToFollower t r) CStepDown.
Proof.
  intros Ht. pose proof (campaigns_follower t r) as Hc. revert Hc.
  rewrite transitionToFollower_frame. intros Hc. apply stepped_intro; [done|done|done|].
  by constructor; rsimpl.
Qed.

Section Changes.
Context {PC : ProtoCodec} {DL : Dialer}.

Lemma EncodeNoopEntry_plain i t : ∃ b, EncodeNoopEntry = Ok b ∧ no_config (mkLogEntry i t b).
Proof.
  eexists. split; [vm_compute; reflexivity|]. unfold no_config. cbn [Cmd].
  vm_compute. done.
Qed.

(** A candidate that wins keeps its term, its vote and its votes. *)
Lemma transitionToLeader_step r :
  state r = Candidate →
  quiet (r <| state := Leader |>) (transitionToLeader r).
Proof.
  intros Hs. unfold transitionToLeader. rewrite Hs, bool_decide_eq_false_2 by naive_solver.
  cbv zeta. match goal with |- context [init_progress ?i ?x] => set (r1 := init_progress i x) end.
  assert (H1 : quiet (r <| state := Leader |>) r1).
  { unfold r1. destruct (connectToPeersLocked_frame (r <| state := Leader |> <| timer_armed := false |>))
      as (g & ->). match goal with |- context [init_progress ?i ?x] =>
      destruct (init_progress_frame i x) as (n & m & ->) end. quiet_update. }
  clearbody r1. eapply quiet_trans; [|by apply quiet_emit]. eapply quiet_trans; [|apply quiet_broadcast].
  destruct (EncodeNoopEntry_plain (lastLogIndex r1 +! 1) (currentTerm r1)) as (b & -> & Hb).
  eapply quiet_trans; [exact H1|]. eapply quiet_trans; [|apply quiet_wal]. by apply quiet_snoc.
Qed.

Lemma transitionToCandidate_step r : stepped r (transitionToCandidate r) CCampaign.
Proof.
  unfold transitionToCandidate. cbv zeta.
  set (r1 := wal_try _ _).
  assert (H1 : node_id r1 = node_id r ∧ state r1 = Candidate ∧
    currentTerm r1 = currentTerm r +! 1 ∧ votedFor r1 = node_id r ∧
    votesReceived r1 = {[ node_id r := true ]} ∧ log r1 = log r ∧
    effectivePeers r1 = effectivePeers r ∧ campaigns r1 = campaigns r ∧
    lastLogIndex r1 = lastLogIndex r ∧ lastLogTerm r1 = lastLogTerm r).
  { unfold r1. rewrite wal_try_frame. done. }
  clearbody r1. destruct H1 as (Hi & Hs & Ht & Hv & Hr & Hl & Hp & Hc & Hli & Hlt).
  unfold startElection. cbv zeta. case_bool_decide as He.
  - pose proof (transitionToLeader_step r1 Hs) as Hq. destruct Hq as [Qi Qs Qt Qv Qr Qp Qc].
    rsimpl_hyps. change (campaigns (r1 <| state := Leader |>)) with (campaigns r1) in Qc.
    split; [congruence| | |].
    + intros Hpl. apply Qp. unfold plain_log in *. rsimpl. by rewrite Hl.
    + constructor; try congruence. right. split; [done|congruence].
    + intros c. rewrite Qc, Hc. by left.
  - rewrite for_each_emit. split; [done| | |].
    + unfold plain_log. rsimpl. by rewrite Hl.
    + constructor; auto.
    + intros c. rewrite campaigns_app, Hc. rsimpl. rewrite elem_of_app.
      intros [Hin|Hin]; [by left|right]. split; [done|].
      apply list_elem_of_omap in Hin as (e & He' & Hcall).
      apply list_elem_of_fmap in He' as (p & -> & _). simpl in Hcall. congruence.
Qed.

Lemma startPreVote_step r :
  ∃ ch, stepped r (startPreVote r) ch ∧ (ch = CNone ∨ ch = CCampaign).
Proof.
  unfold startPreVote. cbv zeta.
  match goal with |- context [transitionToCandidate ?x] => set (r1 := x) end.
  assert (Hq : quiet r r1) by quiet_update.
  assert (Hp : effectivePeers r1 = effectivePeers r) by done.
  case_bool_decide.
  - exists CCampaign. split; [|by right].
    assert (lastLogIndex r1 = lastLogIndex r ∧ lastLogTerm r1 = lastLogTerm r) as [Hli Hlt]
      by done. clearbody r1.
    destruct (transitionToCandidate_step r1) as [Hi Hpl Hc Hv]. destruct Hq. split.
    + congruence.
    + auto.
    + inversion Hc; subst. constructor; [congruence..|]. rewrite <- Hp. congruence.
    + rewrite <- Hli, <- Hlt, <- q_calls0. exact Hv.
  - exists CNone. split; [|by left]. apply stepped_quiet.
    eapply quiet_trans; [exact Hq|by apply quiet_emits].
Qed.

Lemma electionTimeout_step r :
  ∃ ch, stepped r (electionTimeout r) ch ∧ (ch = CNone ∨ ch = CCampaign).
Proof.
  unfold electionTimeout. cbv zeta.
  set (r1 := r <| timer_armed := false |>).
  destruct (_ && _).
  - destruct (startPreVote_step r1) as (ch & [Hi Hp Hc Hv] & Hch). exists ch.
    split; [|done]. split; [done|done| |exact Hv].
    inversion Hc; subst; destruct Hch as [?|?]; try done; by constructor.
  - exists CNone. split; [|by left]. apply stepped_quiet. destruct (isJoining r1); quiet_update.
Qed.

(** ** The handlers *)

Lemma processRequestVote_step req r :
  ∃ ch, stepped r (processRequestVote req r).2 ch ∧
    rvr_Term (processRequestVote req r).1 = currentTerm (processRequestVote req r).2 ∧
    if VoteGranted (processRequestVote req r).1
    then ch = CVote (CandidateId req) else ch = CNone ∨ ch = CStepDown.
Proof.
  unfold processRequestVote.
  destruct (Z.ltb_spec (rv_Term req) (currentTerm r)).
  { exists CNone. split; [apply stepped_quiet, quiet_refl|]. split; [done|by left]. }
  destruct (not_a_member _ _).
  { exists CNone. split; [apply stepped_quiet, quiet_refl|]. split; [done|by left]. }
  cbv zeta. match goal with |- context [logOK ?x _] => set (r1 := x) end.
  assert (H1 : (currentTerm r < currentTerm r1 ∧ stepped r r1 CStepDown ∧
                votesReceived r1 = votesReceived r) ∨ r1 = r).
  { unfold r1. destruct (Z.ltb_spec (currentTerm r) (rv_Term req)); [|by right].
    left. split_and!; [|by apply stepped_follower|by rewrite transitionToFollower_frame].
    by rewrite transitionToFollower_frame. }
  clearbody r1. destruct (_ && _) eqn:Hg.
  - apply andb_true_iff in Hg as [Hv%orb_true_iff _].
    rewrite !bool_decide_eq_true in Hv. exists (CVote (CandidateId req)).
    rewrite wal_try_frame. cbn [fst snd rvr_Term VoteGranted]. split; [|done].
    destruct H1 as [(Ht & [Hi Hp Hc Hv'] & Hr)| ->].
    + split; [done|done| |].
      * inversion Hc; subst. constructor; rsimpl; auto.
      * intros c Hin. by destruct (Hv' c Hin) as [?|[? _]]; [left|].
    + apply stepped_intro; [done|done|done|]. constructor; rsimpl; auto.
  - cbn [fst snd rvr_Term VoteGranted]. destruct H1 as [(Ht & Hs & _)| ->].
    + exists CStepDown. auto.
    + exists CNone. split; [apply stepped_quiet, quiet_refl|auto].
Qed.

Lemma processPreVoteResponse_step p resp r :
  ∃ ch, stepped r (processPreVoteResponse p resp r) ch ∧ (ch = CNone ∨ ch = CCampaign).
Proof.
  unfold processPreVoteResponse. destruct (_ && _).
  2:{ exists CNone. split; [apply stepped_quiet, quiet_refl|by left]. }
  cbv zeta. set (r1 := r <| preVoteVotesReceived ::= _ |>). destruct (vote_majority _ _).
  - exists CCampaign. split; [|by right].
    destruct (transitionToCandidate_step r1) as [Hi Hp Hc Hv].
    split; [done|done| |exact Hv]. inversion Hc; subst. by constructor.
  - exists CNone. split; [|by left]. apply stepped_quiet. quiet_update.
Qed.

Lemma processRequestVoteResponse_step p resp r :
  ∃ ch, stepped r (processRequestVoteResponse p resp r) ch ∧
    (ch = CNone ∨ ch = CStepDown ∨
     (ch = CVotes p ∧ rvr_Term resp = currentTerm r ∧ VoteGranted resp = true)).
Proof.
  unfold processRequestVoteResponse.
  destruct (Z.ltb_spec (currentTerm r) (rvr_Term resp)).
  { exists CStepDown. split; [by apply stepped_follower|auto]. }
  destruct (_ && _) eqn:Hg.
  2:{ exists CNone. split; [apply stepped_quiet, quiet_refl|by left]. }
  rewrite !andb_true_iff in Hg. destruct Hg as [[Hs%bool_decide_eq_true Ht%Z.eqb_eq] Hv].
  exists (CVotes p). split; [|auto]. cbv zeta.
  set (r1 := r <| votesReceived ::= insert p true |>).
  assert (Hm : vote_majority r1 (votesReceived r1) = vote_majority r (votesReceived r1)) by done.
  rewrite Hm. destruct (vote_majority r (votesReceived r1)) eqn:Hmaj.
  - destruct (transitionToLeader_step r1 Hs) as [Qi Qs Qt Qv Qr Qp Qc].
    apply stepped_intro; [done|done|done|]. constructor; [done|by rewrite Qt|by rewrite Qv|by rewrite Qr|].
    right. split; [done|]. rewrite Qr. exact Hmaj.
  - apply stepped_intro; [done|done|done|]. constructor; auto.
Qed.

Lemma campaigns_follow_leader t l r : campaigns (follow_leader t l r) = campaigns r.
Proof.
  assert (Hv : ∀ r, campaigns (resetElectionTimer (r <| votedFor := l |>)) = campaigns r) by done.
  unfold follow_leader. cbv zeta. rewrite Hv.
  destruct (_ <? _); case_bool_decide; by rewrite ?campaigns_follower.
Qed.

Lemma follow_leader_step t l r :
  currentTerm r ≤ t →
  stepped r (follow_leader t l r) (CLeader l) ∧ currentTerm (follow_leader t l r) = t.
Proof.
  intros Ht.
  assert (H : node_id (follow_leader t l r) = node_id r ∧
    (plain_log r → plain_log (follow_leader t l r)) ∧
    election_step r (follow_leader t l r) (CLeader l) ∧ currentTerm (follow_leader t l r) = t).
  { unfold follow_leader. cbv zeta. unfold resetElectionTimer.
    destruct (Z.ltb_spec (currentTerm r) t).
    - rewrite transitionToFollower_frame. rsimpl.
      rewrite bool_decide_eq_false_2 by done. rsimpl. split_and!; [done|done| |done].
      constructor; rsimpl; [lia|done|by left].
    - case_bool_decide as Hs; [rewrite transitionToFollower_frame|]; rsimpl;
        (split_and!; [done|done| |lia]); constructor; rsimpl; auto; lia. }
  destruct H as (Hi & Hp & Hs & Hterm). split; [|done].
  apply stepped_intro; [done|done|apply campaigns_follow_leader|done].
Qed.

Lemma processAppendEntries_step req r :
  plain_log r → Forall no_config (Entries req) →
  ∃ ch, stepped r (processAppendEntries req r).2 ch ∧
    (ch = CNone ∨
     (ch = CLeader (ae_LeaderId req) ∧
      currentTerm (processAppendEntries req r).2 = ae_Term req)).
Proof.
  intros Hp Hes. unfold processAppendEntries.
  destruct (Z.ltb_spec (ae_Term req) (currentTerm r)) as [|Ht].
  { exists CNone. split; [apply stepped_quiet, quiet_refl|by left]. }
  cbv zeta. destruct (follow_leader_step (ae_Term req) (ae_LeaderId req) r Ht) as [Hs Hterm].
  revert Hs Hterm. generalize (follow_leader (ae_Term req) (ae_LeaderId req) r).
  intros r1 Hs Hterm. exists (CLeader (ae_LeaderId req)).
  enough (∃ r2, quiet r1 r2 ∧ (∃ resp,
    (if lastLogIndex r1 <? PrevLogIndex req
     then (mkAppendEntriesResponse (currentTerm r1) false (lastLogIndex r1), r1)
     else if (lastIncludedIndex r1 <=? PrevLogIndex req)
             && bool_decide (getEntryTerm r1 (PrevLogIndex req) ≠ PrevLogTerm req)
     then (mkAppendEntriesResponse (currentTerm r1) false (PrevLogIndex req -! 1), r1)
     else
       (mkAppendEntriesResponse
          (currentTerm (follow_commit (LeaderCommit req) (for_each (Entries req) append_entry r1)))
          true
          (lastLogIndex (follow_commit (LeaderCommit req) (for_each (Entries req) append_entry r1))),
        follow_commit (LeaderCommit req) (for_each (Entries req) append_entry r1))) = (resp, r2)))
    as (r2 & Hq & resp & ->).
  { simpl. split; [by eapply stepped_then|]. right. split; [done|]. by rewrite (q_term _ _ Hq). }
  destruct (_ <? _); [exists r1; split; [apply quiet_refl|eauto]|].
  destruct (_ && _); [exists r1; split; [apply quiet_refl|eauto]|].
  eexists. split; [|by eexists].
  assert (Hp1 : plain_log r1) by (by apply Hs).
  eapply quiet_trans; [by apply (quiet_append_entries (Entries req))|].
  apply quiet_follow_commit.
  exact (q_plain _ _ (quiet_append_entries _ _ Hes Hp1) Hp1).
Qed.

Lemma processAppendEntriesResponse_step p resp r :
  plain_log r →
  ∃ ch, stepped r (processAppendEntriesResponse p resp r) ch ∧ (ch = CNone ∨ ch = CStepDown).
Proof.
  intros Hp. unfold processAppendEntriesResponse.
  destruct (Z.ltb_spec (currentTerm r) (aer_Term resp)).
  { exists CStepDown. split; [by apply stepped_follower|auto]. }
  exists CNone. split; [|by left]. apply stepped_quiet.
  destruct (_ && _); [|apply quiet_refl]. cbv zeta. destruct (Success resp).
  - match goal with |- context [clean_proposalTime ?x] => set (r1 := clean_proposalTime x) end.
    assert (H1 : quiet r r1) by (unfold r1, clean_proposalTime; destruct (_ <? _); quiet_update).
    clearbody r1. eapply quiet_trans; [exact H1|].
    apply quiet_for_each; [by apply H1|]. intros; by apply quiet_try_commit.
  - eapply quiet_trans; [|by apply quiet_emit]. destruct (_ <? _); quiet_update.
Qed.

Lemma processInstallSnapshot_step req r :
  plain_log r →
  ∃ ch, stepped r (processInstallSnapshot req r).2 ch ∧
    (ch = CNone ∨
     (ch = CLeader (is_LeaderId req) ∧
      currentTerm (processInstallSnapshot req r).2 = is_Term req)).
Proof.
  intros Hp. unfold processInstallSnapshot.
  destruct (Z.ltb_spec (is_Term req) (currentTerm r)) as [|Ht].
  { exists CNone. split; [apply stepped_quiet, quiet_refl|by left]. }
  cbv zeta. destruct (follow_leader_step (is_Term req) (is_LeaderId req) r Ht) as [Hs Hterm].
  revert Hs Hterm. generalize (follow_leader (is_Term req) (is_LeaderId req) r).
  intros r1 Hs Hterm. exists (CLeader (is_LeaderId req)). cbn [snd].
  set (r2 := r1 <| snapshotBuf ::= _ |>).
  assert (H2 : quiet r1 r2) by quiet_update. clearbody r2.
  assert (Hp2 : plain_log r2) by (by apply H2, Hs).
  match goal with |- stepped r ?x _ ∧ _ => enough (Hq : quiet r1 x) end.
  { split; [by eapply stepped_then|]. right. split; [done|]. by rewrite (q_term _ _ Hq). }
  destruct (Done req); [|done]. destruct (unmarshal_Snapshot _).
  - eapply quiet_trans; [exact H2|]. eapply quiet_trans; [by apply quiet_restore|]. quiet_update.
  - eapply quiet_trans; [exact H2|quiet_update].
Qed.

Lemma processInstallSnapshotResponse_step p resp r :
  ∃ ch, stepped r (processInstallSnapshotResponse p resp r) ch ∧
    (ch = CNone ∨ ch = CStepDown).
Proof.
  unfold processInstallSnapshotResponse.
  destruct (Z.ltb_spec (currentTerm r) (isr_Term resp)).
  { exists CStepDown. split; [by apply stepped_follower|auto]. }
  exists CNone. split; [|by left]. apply stepped_quiet.
  destruct (_ && _); [|apply quiet_refl]. cbv zeta.
  eapply quiet_trans; [|by apply quiet_emit]. quiet_update.
Qed.

Lemma handleClientCommand_quiet cmd ch r :
  (∀ i t, no_config (mkLogEntry i t cmd)) → plain_log r → quiet r (handleClientCommand cmd ch r).
Proof.
  intros Hc Hp. unfold handleClientCommand. case_bool_decide; [by apply quiet_emit|]. cbv zeta.
  rewrite wal_do_frame. set (e := mkLogEntry _ _ _).
  set (r1 := r <| log ::= _ |>). set (r2 := r1 <| disk := _ |>).
  assert (H2 : quiet r r2).
  { eapply quiet_trans; [apply (quiet_snoc e), Hc|]. quiet_update. }
  clearbody r2. destruct (_.1); [eapply quiet_trans; [exact H2|by apply quiet_emit]|].
  match goal with |- context [broadcastHeartbeats ?x] => set (r3 := x) end.
  assert (H4 : quiet r (broadcastHeartbeats r3)).
  { eapply quiet_trans; [exact H2|]. eapply quiet_trans; [|apply quiet_broadcast].
    unfold r3. quiet_update. }
  revert H4. generalize (broadcastHeartbeats r3). intros r4 H4.
  destruct (_ && _); [|done]. set (r5 := r4 <| commitIndex := _ |>).
  assert (H5 : quiet r r5) by (eapply quiet_trans; [exact H4|quiet_update]).
  eapply quiet_trans; [exact H5|]. by apply quiet_apply, H5.
Qed.

(** A membership change leaves the role, the term and the vote. *)
Record same_role (r r' : Raft) : Prop := {
  sr_id : node_id r' = node_id r;
  sr_state : state r' = state r;
  sr_term : currentTerm r' = currentTerm r;
  sr_vote : votedFor r' = votedFor r;
  sr_votes : votesReceived r' = votesReceived r;
  sr_calls : campaigns r' = campaigns r
}.

Lemma same_role_refl r : same_role r r.
Proof. by split. Qed.

Lemma same_role_trans r1 r2 r3 : same_role r1 r2 → same_role r2 r3 → same_role r1 r3.
Proof. intros [] []. split; congruence. Qed.

Lemma same_role_quiet r r' : quiet r r' → same_role r r'.
Proof. intros []. by split. Qed.

Ltac role_update := split; rsimpl; reflexivity.

Lemma same_role_emit e r1 r2 :
  vote_call e = None → same_role r1 r2 → same_role r1 (emit e r2).
Proof.
  intros He H. eapply same_role_trans; [exact H|]. destruct (quiet_emit e r2 He). by split.
Qed.

Lemma same_role_config c r : same_role r (applyConfigEntry c r).
Proof. unfold applyConfigEntry. cbv zeta. role_update. Qed.

Lemma handleConfigChange_role req ch r : same_role r (handleConfigChange req ch r).
Proof.
  pose proof (same_role_refl r) as H0.
  unfold handleConfigChange. case_bool_decide; [by apply same_role_emit|].
  destruct (pendingConfig r); [by apply same_role_emit|].
  case_bool_decide; [by apply same_role_emit|].
  destruct (BuildJointConfig _ _ _) as [c|]; [|by apply same_role_emit].
  destruct (EncodeConfigChangeEntry _) as [data|]; [|by apply same_role_emit]. cbv zeta.
  rewrite wal_do_frame. set (r1 := r <| log ::= _ |>). set (r2 := r1 <| disk := _ |>).
  assert (H2 : same_role r r2) by (unfold r2, r1; role_update). clearbody r2.
  destruct (_.1); [by apply same_role_emit|].
  match goal with |- context [applyConfigEntry c ?x] => set (r3 := x) end.
  assert (H3 : same_role r r3)
    by (eapply same_role_trans; [exact H2|unfold r3; role_update]). clearbody r3.
  pose proof (same_role_trans _ _ _ H3 (same_role_config c r3)) as H4. revert H4.
  generalize (applyConfigEntry c r3). intros r4 H4.
  destruct (connectToNewPeers_frame r4) as (g & n & m & ->).
  eapply same_role_trans; [|apply same_role_quiet, quiet_broadcast].
  eapply same_role_trans; [exact H4|]. role_update.
Qed.

(** The events a node takes by itself change nothing or start a campaign. *)
Lemma local_step ev r :
  (∀ cmd ch, ev = ECommand cmd ch → ∀ i t, no_config (mkLogEntry i t cmd)) →
  (∀ msg, ev ≠ ERpc msg) → plain_log r →
  ∃ ch, node_id (handle ev r).2 = node_id r ∧ election_step r (handle ev r).2 ch ∧
    (ch = CNone ∨ ch = CCampaign) ∧
    (∀ c, c ∈ campaigns (handle ev r).2 → c ∈ campaigns r ∨
       (ch = CCampaign ∧ c = (currentTerm (handle ev r).2, lastLogIndex r, lastLogTerm r))).
Proof.
  intros Hcmd Hrpc Hp.
  assert (Hq : quiet r (handle ev r).2 → ∃ ch, node_id (handle ev r).2 = node_id r ∧
    election_step r (handle ev r).2 ch ∧ (ch = CNone ∨ ch = CCampaign) ∧
    (∀ c, c ∈ campaigns (handle ev r).2 → c ∈ campaigns r ∨
       (ch = CCampaign ∧ c = (currentTerm (handle ev r).2, lastLogIndex r, lastLogTerm r)))).
  { intros [Qi Qs Qt Qv Qr _ Qc]. exists CNone. split_and!; [done|by constructor|by left|].
    intros c. rewrite Qc. by left. }
  destruct ev; simpl in *; try (apply Hq; quiet_update).
  - destruct (electionTimeout_step r) as (ch & [Hi _ Hc Hv] & Hch). eauto 6.
  - by destruct (Hrpc msg).
  - apply Hq. apply handleClientCommand_quiet; [by eapply Hcmd|done].
  - destruct (handleConfigChange_role req ch r) as [Ri Rs Rt Rv Rr Rc].
    exists CNone. split_and!; [done|by constructor|by left|]. intros c. rewrite Rc. by left.
  - apply Hq. unfold replicateToPeer. case_bool_decide; [apply quiet_refl|].
    destruct (_ <=? _); [by apply quiet_emit|apply quiet_refl].
  - apply Hq. unfold sendSnapshotToPeer. case_bool_decide; [apply quiet_refl|].
    destruct (LoadSnapshot _ _) as [[[snap|]|] d]; quiet_update.
  - apply Hq. unfold heartbeatTick. case_bool_decide; [apply quiet_broadcast|apply quiet_refl].
Qed.
End Changes.
