(* ===== verification/ReplicationSpec.v ===== *)
(** * What replication promises

    The follower's side: which requests it refuses and what it holds after
    one it accepts.  The leader's side: which entries it commits. *)

From S2P Require Import Prelude Types Config Json Envelope Disk Wal ProtoWire.
From S2P Require Import SnapshotStore Node Roles Election Apply Replication Client.
From S2P Require Import Startup RunLoop NodeFacts ReplicationFacts StateMachine.
From S2P Require Import ApplyFacts ApplySpec ElectionFacts Scenarios.

(** ** Applying *)

(** The indices of a node are in order. *)
Definition indices_ok (r : Raft) : Prop :=
  lastIncludedIndex r ≤ lastApplied r ≤ commitIndex r ∧ commitIndex r ≤ lastLogIndex r.

#[export] Instance indices_ok_dec r : Decision (indices_ok r).
Proof. unfold indices_ok. apply _. Defined.

Lemma same_log_trans r1 r2 r3 : same_log r1 r2 → same_log r2 r3 → same_log r1 r3.
Proof.
  intros [W1 B1 L1 E1 T1] [W2 B2 L2 E2 T2]. split; [done|lia|congruence| |].
  - intros i Hi Hint. rewrite E2 by done. apply E1; [lia|done].
  - intros i Hi Hint. rewrite T2 by done. apply T1; [lia|done].
Qed.

Section Applying.
Context {PC : ProtoCodec}.

Lemma apply_loop_plain n r :
  plain_log r → ∃ k t a,
    apply_loop n r = r <| kv := k |> <| dedupTable := t |> <| lastApplied := a |>.
Proof.
  revert r. induction n as [|n IH]; intros r Hp; cbn [apply_loop].
  { exists (kv r), (dedupTable r), (lastApplied r). solve_upd. }
  destruct (_ <? _).
  2:{ exists (kv r), (dedupTable r), (lastApplied r). solve_upd. }
  destruct (apply_entry_plain (r <| lastApplied ::= λ i, i +! 1 |>)) as (k & t & ->); [done|].
  edestruct IH as (k' & t' & a' & ->); [done|].
  exists k', t', a'. solve_upd.
Qed.

(** The two steps of [applyLogs] after its loop, on a node [r1] that has
    applied what is committed. *)
Definition after_loop (r1 : Raft) : Raft :=
  complete_proposals
    (if (0 <? snapshotThreshold r1)
        && (snapshotThreshold r1 <? lastLogIndex r1 -! lastIncludedIndex r1)
     then takeSnapshot r1 else r1).

Lemma after_loop_same_log r :
  log_wf r → lastIncludedIndex r ≤ commitIndex r ≤ lastLogIndex r →
  same_log r (after_loop r) ∧ lastIncludedIndex (after_loop r) ≤ commitIndex r.
Proof.
  intros Hwf Hc. unfold after_loop.
  match goal with |- context [complete_proposals ?x] => set (r2 := x) end.
  assert (same_log r r2 ∧ lastIncludedIndex r2 ≤ commitIndex r) as [Hs Hb].
  { unfold r2. destruct (_ && _).
    - split; [by apply takeSnapshot_same_log|].
      destruct (takeSnapshot_cases r) as [[d ->]|(w & d & ->)]; rsimpl; lia.
    - split; [by apply same_log_ext|lia]. }
  clearbody r2. destruct (complete_proposals_frame r2) as (es & -> & _).
  split; [|done]. eapply same_log_trans; [exact Hs|].
  apply same_log_ext; [apply Hs|done..].
Qed.

(** The fields the two steps leave alone. *)
Lemma after_loop_frame r :
  ∃ b t l w d es ps, after_loop r = r <| lastIncludedIndex := b |> <| lastIncludedTerm := t |>
    <| log := l |> <| wal := w |> <| disk := d |> <| effects := es |> <| proposals := ps |>.
Proof.
  unfold after_loop. match goal with |- context [complete_proposals ?x] => set (r2 := x) end.
  assert (∃ b t l w d, r2 = r <| lastIncludedIndex := b |> <| lastIncludedTerm := t |>
    <| log := l |> <| wal := w |> <| disk := d |>) as (b & t & l & w & d & H2).
  { unfold r2. destruct (_ && _).
    - destruct (takeSnapshot_cases r) as [[d ->]|(w & d & ->)].
      + exists (lastIncludedIndex r), (lastIncludedTerm r), (log r), (wal r), d. solve_upd.
      + by eexists _, _, _, _, _.
    - exists (lastIncludedIndex r), (lastIncludedTerm r), (log r), (wal r), (disk r). solve_upd. }
  clearbody r2. destruct (complete_proposals_frame r2) as (es & -> & _). rewrite H2.
  exists b, t, l, w, d.
  match goal with |- context [@upd _ _ proposals _ (λ _, ?p) _] => generalize p end. intros p.
  exists (effects r ++ es), p. solve_upd.
Qed.

Lemma applyLogs_split r :
  applyLogs r = after_loop (apply_loop (Z.to_nat (commitIndex r - lastApplied r)) r).
Proof. done. Qed.

(** The loop leaves the log of a node that does not lead, and of any node
    whose log changes no membership. *)
Lemma apply_loop_same_log r :
  log_wf r → indices_ok r → (state r ≠ Leader ∨ plain_log r) →
  let r1 := apply_loop (Z.to_nat (commitIndex r - lastApplied r)) r in
  same_log r r1 ∧ lastIncludedIndex r1 = lastIncludedIndex r ∧
  currentTerm r1 = currentTerm r ∧ commitIndex r1 = commitIndex r ∧ lastApplied r1 = commitIndex r.
Proof.
  intros Hwf [Ha Hc] Hor. pose proof Hwf as (H0 & _). cbv zeta.
  destruct (apply_loop_spec (Z.to_nat (commitIndex r - lastApplied r)) r r []) as [Hap _];
    [done|done|lia|done|done|by rewrite app_nil_r|done|].
  set (r1 := apply_loop _ r) in *.
  assert (Hl : log r1 = log r).
  { destruct Hor as [Hs|Hp].
    - destruct (ap_log _ _ Hap) as (es & He & Hn & _). rewrite He, Hn by done.
      by rewrite app_nil_r.
    - unfold r1. by destruct (apply_loop_plain (Z.to_nat (commitIndex r - lastApplied r)) r Hp)
        as (k & t & a & ->). }
  pose proof (ap_base _ _ Hap) as Hb. pose proof (ap_base_term _ _ Hap) as Ht.
  pose proof (ap_term _ _ Hap) as Hct.
  rsimpl_hyps. split_and!; [by apply same_log_ext|done|done| |].
  - apply (ap_commit _ _ Hap).
  - apply (ap_applied _ _ Hap).
Qed.

Lemma applyLogs_same_log r :
  log_wf r → indices_ok r → (state r ≠ Leader ∨ plain_log r) →
  same_log r (applyLogs r) ∧ indices_ok (applyLogs r) ∧
  currentTerm (applyLogs r) = currentTerm r ∧
  commitIndex (applyLogs r) = commitIndex r ∧ lastApplied (applyLogs r) = commitIndex r.
Proof.
  intros Hwf Hi Hor. destruct (apply_loop_same_log r Hwf Hi Hor) as (Hs & Hb & Ht & Hc & Ha).
  destruct Hi as [Hi1 Hi2]. rewrite applyLogs_split.
  set (r1 := apply_loop _ r) in *. clearbody r1.
  destruct (after_loop_same_log r1) as [Hs' Hb'].
  { apply Hs. }
  { rewrite (sl_last _ _ Hs), Hc, Hb. lia. }
  destruct (after_loop_frame r1) as (b & t & l & w & d & es & ps & Heq).
  assert (commitIndex (after_loop r1) = commitIndex r1 ∧
          lastApplied (after_loop r1) = lastApplied r1 ∧
          currentTerm (after_loop r1) = currentTerm r1) as (Hc' & Ha' & Ht') by (by rewrite Heq).
  assert (Hs2 : same_log r (after_loop r1)) by (by eapply same_log_trans).
  split_and!; [done|..|congruence|congruence|congruence].
  pose proof (sl_last _ _ Hs2). split; lia.
Qed.

(** What [applyLogs] leaves on a node whose log changes no membership. *)
Record plain_apply (r r' : Raft) : Prop := {
  pa_id : node_id r' = node_id r;
  pa_term : currentTerm r' = currentTerm r;
  pa_state : state r' = state r;
  pa_config : currentConfig r' = currentConfig r;
  pa_peers : peers r' = peers r;
  pa_match : matchIndex r' = matchIndex r;
  pa_next : nextIndex r' = nextIndex r;
  pa_plain : plain_log r'
}.

Lemma applyLogs_plain r : plain_log r → plain_apply r (applyLogs r).
Proof.
  intros Hp. pose proof (q_plain _ _ (quiet_apply r Hp) Hp) as Hpl. revert Hpl.
  rewrite applyLogs_split.
  destruct (apply_loop_plain (Z.to_nat (commitIndex r - lastApplied r)) r Hp)
    as (k & t & a & ->).
  destruct (after_loop_frame (r <| kv := k |> <| dedupTable := t |> <| lastApplied := a |>))
    as (b & t' & l & w & d & es & ps & ->).
  by split.
Qed.
End Applying.

(** ** The follower *)

(** The log that results from the entries after [prev]. *)
Definition merged (prev : Z) (es : list LogEntry) (r : Raft) : list LogEntry :=
  take (Z.to_nat (prev - lastIncludedIndex r)) (log r) ++
  reconcile (drop (Z.to_nat (prev - lastIncludedIndex r)) (log r))
            (drop (Z.to_nat (lastIncludedIndex r - prev)) es).

(** The request is of a leader's term, finds its predecessor, and carries
    consecutive entries that do not contradict a committed one. *)
Record acceptable (req : AppendEntriesRequest) (r : Raft) : Prop := {
  ac_term : currentTerm r ≤ ae_Term req;
  ac_leader : state r = Leader → currentTerm r < ae_Term req;
  ac_prev : 0 ≤ PrevLogIndex req ≤ lastLogIndex r;
  ac_match : lastIncludedIndex r ≤ PrevLogIndex req →
             getEntryTerm r (PrevLogIndex req) = PrevLogTerm req;
  ac_layout : layout (PrevLogIndex req) (Entries req);
  ac_room : PrevLogIndex req + Z.of_nat (length (Entries req)) < max_int64;
  ac_agree e : e ∈ Entries req → lastIncludedIndex r < Index e ≤ commitIndex r →
               getEntryTerm r (Index e) = Term e
}.

(** Entries without a conflict among the first [k] keep them. *)
Lemma reconcile_take k l1 l2 :
  (∀ i m t, (i < k)%nat → l1 !! i = Some m → l2 !! i = Some t → Term m = Term t) →
  (k ≤ length l1)%nat → take k (reconcile l1 l2) = take k l1.
Proof.
  revert l1 l2. induction k as [|k IH]; intros l1 l2 H Hk; [by rewrite !take_0|].
  destruct l1 as [|m l1]; [simpl in Hk; lia|]. destruct l2 as [|t l2]; [done|].
  cbn [reconcile]. rewrite bool_decide_eq_true_2 by (apply (H 0%nat); (lia || done)).
  simpl in *. f_equal. apply IH; [|lia].
  intros i m' t' Hi H1 H2. apply (H (S i)); (lia || done).
Qed.

Lemma is_int64_between i : 0 ≤ i < max_int64 → is_int64 i.
Proof. unfold is_int64, max_int64. lia. Qed.

Section Follower.
Context {PC : ProtoCodec}.

Lemma follow_leader_frame t l r :
  currentTerm r ≤ t → (state r = Leader → currentTerm r < t) →
  ∃ st es ps, follow_leader t l r = r <| state := st |> <| currentTerm := t |>
    <| votedFor := l |> <| timer_armed := true |> <| effects := es |> <| proposals := ps |> ∧
    st ≠ Leader ∧ st ≠ Candidate.
Proof.
  intros Ht Hl. unfold follow_leader, resetElectionTimer. cbv zeta.
  destruct (Z.ltb_spec (currentTerm r) t).
  - rewrite transitionToFollower_frame. rsimpl. rewrite bool_decide_eq_false_2 by done.
    exists Follower, (effects r ++ map step_down_answer (proposals r)), [].
    split; [solve_upd|done].
  - assert (currentTerm r = t) as <- by lia. case_bool_decide as Hc.
    + rewrite transitionToFollower_frame.
      exists Follower, (effects r ++ map step_down_answer (proposals r)), [].
      split; [solve_upd|done].
    + exists (state r), (effects r), (proposals r). split; [solve_upd|].
      split; [|done]. intros Hs. apply Hl in Hs. lia.
Qed.

(** The commit index stays within the merged log. *)
Lemma merged_take req r :
  log_wf r → indices_ok r → acceptable req r →
  let n := Z.to_nat (commitIndex r - lastIncludedIndex r) in
  take n (merged (PrevLogIndex req) (Entries req) r) = take n (log r).
Proof.
  intros Hwf [Ha Hc] [_ _ Hp _ Hl Hr Hag]. cbv zeta. pose proof Hwf as (H0 & Hb & Hlay).
  rewrite (lastLogIndex_wf r Hwf) in *. unfold merged.
  set (base := lastIncludedIndex r) in *. set (prev := PrevLogIndex req) in *.
  set (n := Z.to_nat (commitIndex r - base)). set (p := Z.to_nat (prev - base)).
  destruct (decide (n ≤ p)%nat).
  { rewrite take_app_le by (rewrite length_take; lia). rewrite take_take. f_equal. lia. }
  rewrite <- (take_drop p (log r)) at 3.
  rewrite !take_app, !length_take, !(take_ge (take p (log r))) by (rewrite length_take; lia).
  f_equal. apply reconcile_take; [|rewrite length_drop; lia].
  intros i m t Hi Hm Ht. rewrite lookup_drop in Hm, Ht.
  pose proof (Hlay _ _ Hm) as Him. pose proof (Hl _ _ Ht) as Hit.
  rewrite <- (Hag t).
  - unfold getEntryTerm. rewrite getEntry_log.
    + replace (Z.to_nat (Index t - lastIncludedIndex r - 1)) with (p + i)%nat; [by rewrite Hm|].
      fold base. lia.
    + done.
    + fold base. lia.
    + apply is_int64_between. pose proof (lookup_lt_Some _ _ _ Ht). lia.
  - by eapply list_elem_of_lookup_2.
  - fold base. lia.
Qed.

(** What an accepted request leaves. *)
Record accepted (req : AppendEntriesRequest) (r : Raft) (resp : AppendEntriesResponse)
    (r' : Raft) : Prop := {
  ad_resp : resp = mkAppendEntriesResponse (ae_Term req) true (lastLogIndex r');
  ad_wf : log_wf r';
  ad_indices : indices_ok r';
  ad_base : lastIncludedIndex r ≤ lastIncludedIndex r';
  ad_last : lastLogIndex r' =
    lastIncludedIndex r + Z.of_nat (length (merged (PrevLogIndex req) (Entries req) r));
  ad_entry i : lastIncludedIndex r' < i → is_int64 i →
    getEntry r' i =
      merged (PrevLogIndex req) (Entries req) r !! Z.to_nat (i - lastIncludedIndex r - 1);
  ad_commit : commitIndex r' =
    Z.max (commitIndex r) (Z.min (LeaderCommit req) (lastLogIndex r'));
  ad_applied : lastApplied r' =
    if commitIndex r <? LeaderCommit req then commitIndex r' else lastApplied r
}.

Lemma follow_commit_accepted c r :
  log_wf r → indices_ok r → state r ≠ Leader →
  let r' := follow_commit c r in
  same_log r r' ∧ indices_ok r' ∧ currentTerm r' = currentTerm r ∧
  commitIndex r' = Z.max (commitIndex r) (Z.min c (lastLogIndex r)) ∧
  lastApplied r' = if commitIndex r <? c then commitIndex r' else lastApplied r.
Proof.
  intros Hwf Hi Hs. cbv zeta. unfold follow_commit.
  destruct (Z.ltb_spec (commitIndex r) c) as [Hlt|].
  2:{ split_and!; [by apply same_log_ext|done|done|lia|done]. }
  cbv zeta. destruct Hi as [Hi1 Hi2].
  match goal with |- context [applyLogs ?x] => set (r1 := x) end.
  assert (Hr1 : r1 = r <| commitIndex := Z.min c (lastLogIndex r) |>).
  { unfold r1. change (lastLogIndex (r <| commitIndex := c |>)) with (lastLogIndex r).
    generalize (lastLogIndex r). intros n. rsimpl.
    destruct (Z.ltb_spec n c); [rewrite Z.min_r by lia|rewrite Z.min_l by lia]; solve_upd. }
  clearbody r1. subst r1.
  assert (Hlast : lastLogIndex (r <| commitIndex := Z.min c (lastLogIndex r) |>)
                  = lastLogIndex r) by done.
  set (r1 := r <| commitIndex := _ |>) in *.
  assert (Hc1 : commitIndex r1 = Z.min c (lastLogIndex r)) by (unfold r1; by rsimpl).
  assert (Hs1 : same_log r r1) by (by apply same_log_ext).
  assert (state r1 ≠ Leader ∧ currentTerm r1 = currentTerm r ∧ indices_ok r1) as (Hst & Ht & Hi).
  { split_and!; [done|done|]. unfold indices_ok. rewrite Hc1, Hlast.
    change (lastIncludedIndex r1) with (lastIncludedIndex r).
    change (lastApplied r1) with (lastApplied r). lia. }
  clearbody r1. destruct (applyLogs_same_log r1) as (Ha & Hi' & Ht' & Hc & Hla); [apply Hs1|done|by left|].
  split_and!; [by eapply same_log_trans|done|congruence|lia|congruence].
Qed.
End Follower.

Section Accept.
Context {PC : ProtoCodec}.

(** The node before it commits: its log is the merged one. *)
Record merging (req : AppendEntriesRequest) (r r2 : Raft) : Prop := {
  mg_log : log r2 = merged (PrevLogIndex req) (Entries req) r;
  mg_base : lastIncludedIndex r2 = lastIncludedIndex r;
  mg_base_term : lastIncludedTerm r2 = lastIncludedTerm r;
  mg_wf : log_wf r2;
  mg_indices : indices_ok r2;
  mg_state : state r2 ≠ Leader ∧ state r2 ≠ Candidate;
  mg_term : currentTerm r2 = ae_Term req;
  mg_commit : commitIndex r2 = commitIndex r;
  mg_applied : lastApplied r2 = lastApplied r;
  mg_sm : sm_of r2 = sm_of r;
  mg_next : nextIndex r2 = nextIndex r
}.

Lemma append_merging req r :
  log_wf r → indices_ok r → acceptable req r →
  ∃ r2, merging req r r2 ∧
    r2 = for_each (Entries req) append_entry
           (follow_leader (ae_Term req) (ae_LeaderId req) r) ∧
    let r' := follow_commit (LeaderCommit req) r2 in
    processAppendEntries req r =
      (mkAppendEntriesResponse (currentTerm r') true (lastLogIndex r'), r').
Proof.
  intros Hwf Hi Hac. pose proof (merged_take req r Hwf Hi Hac) as Htake.
  destruct Hac as [Ht Hl Hp Hm Hlay Hroom _]. unfold processAppendEntries.
  destruct (Z.ltb_spec (ae_Term req) (currentTerm r)); [lia|].
  destruct (follow_leader_frame _ (ae_LeaderId req) r Ht Hl) as (st & es & ps & Hf & Hst).
  rewrite Hf. set (r1 := r <| state := st |> <| currentTerm := ae_Term req |>
    <| votedFor := ae_LeaderId req |> <| timer_armed := true |> <| effects := es |>
    <| proposals := ps |>) in *. clear Hf. cbv zeta.
  assert (Hs1 : same_log r r1) by (by apply same_log_ext).
  assert (lastIncludedIndex r1 = lastIncludedIndex r ∧ log r1 = log r ∧ state r1 = st ∧
    currentTerm r1 = ae_Term req ∧ commitIndex r1 = commitIndex r ∧
    lastApplied r1 = lastApplied r ∧ lastIncludedTerm r1 = lastIncludedTerm r ∧
    sm_of r1 = sm_of r ∧ nextIndex r1 = nextIndex r)
    as (Hb1 & Hl1 & Hst1 & Ht1 & Hc1 & Ha1 & Hbt1 & Hsm1 & Hn1) by done.
  clearbody r1. pose proof (sl_last _ _ Hs1) as Hlast.
  rewrite Hlast, Hb1. destruct (Z.ltb_spec (lastLogIndex r) (PrevLogIndex req)); [lia|].
  replace (_ && _) with false; cycle 1.
  { destruct (Z.leb_spec (lastIncludedIndex r) (PrevLogIndex req)) as [Hle|]; [|done].
    rewrite (sl_term _ _ Hs1); [|lia|apply is_int64_between; lia].
    rewrite bool_decide_eq_false_2; [done|]. intros Hne. by rewrite Hm in Hne. }
  destruct (append_entries_reconcile (PrevLogIndex req) (Entries req) r1) as [Hlog2 Hwf2];
    [apply Hs1|lia|lia|done|done|].
  destruct (append_entries_frame (Entries req) r1) as (l & d & Heq). rewrite Heq in *. clear Heq.
  rewrite Hb1, Hl1 in Hlog2. fold (merged (PrevLogIndex req) (Entries req) r) in Hlog2.
  rsimpl_hyps. subst l. set (r2 := r1 <| log := _ |> <| disk := d |>) in *.
  assert (lastIncludedIndex r2 = lastIncludedIndex r ∧
    lastIncludedTerm r2 = lastIncludedTerm r ∧
    (state r2 ≠ Leader ∧ state r2 ≠ Candidate) ∧
    log r2 = merged (PrevLogIndex req) (Entries req) r ∧
    currentTerm r2 = ae_Term req ∧ commitIndex r2 = commitIndex r ∧
    lastApplied r2 = lastApplied r ∧ sm_of r2 = sm_of r ∧ nextIndex r2 = nextIndex r)
    as (Hb2 & Hbt2 & Hst2 & Hl2 & Ht2 & Hc2 & Ha2 & Hsm2 & Hn2).
  { unfold r2. rsimpl. rewrite Hst1. split_and!; try done; apply Hst. }
  clearbody r2. exists r2. split; [|done]. split; try done.
  destruct Hi as [? Hle]. pose proof (lastLogIndex_wf r2 Hwf2) as Hlast2.
  unfold indices_ok. rewrite Hlast2, Hb2, Hc2, Ha2, Hl2. split; [done|].
  apply (f_equal length) in Htake. rewrite !length_take in Htake.
  rewrite (lastLogIndex_wf r Hwf) in Hle. lia.
Qed.

Lemma append_accepted req r :
  log_wf r → indices_ok r → acceptable req r →
  accepted req r (processAppendEntries req r).1 (processAppendEntries req r).2.
Proof.
  intros Hwf Hi Hac. destruct (append_merging req r Hwf Hi Hac) as (r2 & [] & _ & ->).
  destruct (follow_commit_accepted (LeaderCommit req) r2) as (Hs & Hi' & Ht' & Hc & Ha);
    [done|done|apply mg_state0|].
  cbn [fst snd]. set (r3 := follow_commit _ r2) in *. clearbody r3.
  pose proof (sl_last _ _ Hs) as Hlast3. pose proof (sl_base _ _ Hs).
  pose proof (lastLogIndex_wf r2 mg_wf0) as Hlast2. rewrite mg_base0, mg_log0 in Hlast2.
  split; [congruence|apply Hs|done|lia|lia| |by rewrite Hc, mg_commit0, Hlast3
         |by rewrite Ha, mg_commit0, mg_applied0].
  intros i Hlt Hint. rewrite (sl_entry _ _ Hs) by done.
  rewrite getEntry_log by (done || lia). by rewrite mg_log0, mg_base0.
Qed.
End Accept.

(** C7. An accepted request.  A follower that finds the entry before the
    leader's entries, with the leader's term, ends with exactly the log that
    Raft prescribes (keep what agrees, replace from the first conflict, append
    the rest), acknowledges its last index, and advances its commit index to
    the leader's, or to the end of its log if that is shorter; it then has
    applied everything up to it.  Its indices stay in order, whether or not the
    request makes it compact its log. *)
Theorem append_entries_merges `{!ProtoCodec} req r resp r' :
  log_wf r → indices_ok r → acceptable req r →
  processAppendEntries req r = (resp, r') →
  accepted req r resp r'.
Proof.
  intros Hwf Hi Hac Heq. pose proof (append_accepted req r Hwf Hi Hac) as Had.
  by rewrite Heq in Had.
Qed.


(** C31. A refused request.  A request of an old term, one whose predecessor
    is beyond the end of the log, and one whose predecessor has another term,
    are refused: the log, the commit index, the store and the disk are as they
    were, and the answer carries the index the leader has to go back to. *)
Theorem append_entries_refused `{!ProtoCodec} req r :
  let '(resp, r') := processAppendEntries req r in
  ae_Term req < currentTerm r ∨ lastLogIndex r < PrevLogIndex req ∨
  (lastIncludedIndex r ≤ PrevLogIndex req ∧ getEntryTerm r (PrevLogIndex req) ≠ PrevLogTerm req) →
  Success resp = false ∧
  log r' = log r ∧ commitIndex r' = commitIndex r ∧ lastApplied r' = lastApplied r ∧
  kv r' = kv r ∧ disk r' = disk r ∧
  (currentTerm r ≤ ae_Term req →
     MatchIndex resp = if lastLogIndex r <? PrevLogIndex req then lastLogIndex r
                       else PrevLogIndex req -! 1).
Proof.
  destruct (processAppendEntries req r) as [resp r'] eqn:Heq. revert Heq.
  unfold processAppendEntries. destruct (Z.ltb_spec (ae_Term req) (currentTerm r)).
  { intros [= <- <-] _. split_and!; try done. lia. }
  cbv zeta. set (r1 := follow_leader (ae_Term req) (ae_LeaderId req) r).
  assert (lastLogIndex r1 = lastLogIndex r ∧ lastIncludedIndex r1 = lastIncludedIndex r ∧
    getEntryTerm r1 (PrevLogIndex req) = getEntryTerm r (PrevLogIndex req) ∧
    log r1 = log r ∧ commitIndex r1 = commitIndex r ∧ lastApplied r1 = lastApplied r ∧
    kv r1 = kv r ∧ disk r1 = disk r) as (H1 & H2 & H3 & H4 & H5 & H6 & H7 & H8).
  { unfold r1, follow_leader, resetElectionTimer. cbv zeta.
    destruct (_ <? _); [rewrite !transitionToFollower_frame|]; rsimpl.
    - by rewrite bool_decide_eq_false_2 by done.
    - case_bool_decide; [rewrite !transitionToFollower_frame|]; done. }
  clearbody r1. rewrite H1, H2, H3.
  destruct (Z.ltb_spec (lastLogIndex r) (PrevLogIndex req)).
  { by intros [= <- <-] _. }
  destruct (_ && _) eqn:Hb.
  { intros [= <- <-] _. done. }
  intros _ [?|[?|[Hle Hne]]]; [lia|lia|].
  rewrite bool_decide_eq_true_2 in Hb by done.
  by rewrite (proj2 (Z.leb_le _ _) Hle) in Hb.
Qed.

(** "n2" holds an entry of term 1 that its new leader does not have. *)
Definition diverged : Raft :=
  n2_boot <| currentTerm := 1 |>
    <| log := [mkLogEntry 1 1 (put "a" "1" "c" 5); mkLogEntry 2 1 (put "b" "2" "c" 6)] |>
    <| commitIndex := 1 |> <| lastApplied := 1 |>.

(** The leader of term 2 replaces it. *)
Definition replace_2 : AppendEntriesRequest :=
  mkAppendEntriesRequest 2 "n1" 1 1 [mkLogEntry 2 2 (put "b" "3" "c" 7)] 2.

Lemma replace_2_acceptable : acceptable replace_2 diverged.
Proof.
  split.
  - apply (bool_decide_unpack _). vm_compute. exact I.
  - intros Hs. vm_compute in Hs. discriminate Hs.
  - apply (bool_decide_unpack _). vm_compute. exact I.
  - intros _. vm_compute. reflexivity.
  - apply (bool_decide_unpack _). vm_compute. exact I.
  - apply (bool_decide_unpack _). vm_compute. exact I.
  - intros e He%list_elem_of_singleton. subst e.
    intros [_ Hle]. vm_compute in Hle. by destruct Hle.
Defined.

Example append_entries_merges_witness :
  accepted replace_2 diverged (processAppendEntries replace_2 diverged).1
    (processAppendEntries replace_2 diverged).2.
Proof.
  apply (append_entries_merges replace_2 diverged).
  - apply (bool_decide_unpack _). vm_compute. exact I.
  - apply (bool_decide_unpack _). vm_compute. exact I.
  - exact replace_2_acceptable.
  - apply surjective_pairing.
Defined.


Example append_entries_refused_witness :
  Success (processAppendEntries (mkAppendEntriesRequest 2 "n1" 9 2 [] 0) diverged).1 = false ∧
  MatchIndex (processAppendEntries (mkAppendEntriesRequest 2 "n1" 9 2 [] 0) diverged).1 = 2.
Proof.
  pose proof (append_entries_refused (mkAppendEntriesRequest 2 "n1" 9 2 [] 0) diverged) as H.
  destruct (processAppendEntries _ diverged) as [resp r'] eqn:Heq.
  destruct H as (Hs & _ & _ & _ & _ & _ & Hm).
  - right. left. vm_compute. reflexivity.
  - split; [exact Hs|]. etransitivity; [apply Hm; vm_compute; congruence|].
    vm_compute. reflexivity.
Defined.

(** ** The leader *)

(** The entry at [n] may be committed: it is of the leader's term, and a
    majority holds it. *)
Definition committable (n : Z) (r : Raft) : Prop :=
  getEntryTerm r n = currentTerm r ∧ checkCommitMajority n r = true.

Section Leader.
Context {PC : ProtoCodec}.

(** What applying and compacting keep of a leader, for the commit rule. *)
Record follows (r r' : Raft) : Prop := {
  fo_log : same_log r r';
  fo_indices : indices_ok r';
  fo_apply : plain_apply r r';
  fo_commit : commitIndex r ≤ commitIndex r'
}.

Lemma follows_refl r : log_wf r → indices_ok r → plain_log r → follows r r.
Proof. intros. split; [by apply same_log_ext|done|by split|lia]. Qed.

Lemma follows_trans r1 r2 r3 : follows r1 r2 → follows r2 r3 → follows r1 r3.
Proof.
  intros [L1 _ P1 C1] [L2 I2 P2 C2].
  split; [by eapply same_log_trans|done| |lia].
  destruct P1, P2. split; (done || congruence).
Qed.

Lemma checkCommitMajority_ext n r r' :
  currentConfig r' = currentConfig r → node_id r' = node_id r →
  matchIndex r' = matchIndex r → peers r' = peers r →
  checkCommitMajority n r' = checkCommitMajority n r.
Proof. unfold checkCommitMajority, replicated_at. by intros -> -> -> ->. Qed.

Lemma committable_ext n r r' :
  follows r r' → lastIncludedIndex r' ≤ n → is_int64 n →
  committable n r ↔ committable n r'.
Proof.
  intros [L _ [] _] Hn Hint. unfold committable.
  rewrite (sl_term _ _ L n Hn Hint), pa_term0.
  by rewrite (checkCommitMajority_ext n r r').
Qed.

Lemma commit_follows n r :
  log_wf r → indices_ok r → plain_log r → commitIndex r < n ≤ lastLogIndex r →
  let r' := applyLogs (r <| commitIndex := n |>) in
  follows r r' ∧ commitIndex r' = n ∧ lastApplied r' = n.
Proof.
  intros Hwf [Ha Hc] Hp Hn. cbv zeta. set (r1 := r <| commitIndex := n |>).
  assert (Hs1 : same_log r r1) by (by apply same_log_ext).
  assert (Hc1 : commitIndex r1 = n) by (unfold r1; by rsimpl).
  assert (plain_log r1 ∧ plain_apply r r1 ∧ lastIncludedIndex r1 = lastIncludedIndex r ∧
    lastApplied r1 = lastApplied r) as (Hp1 & Hpa & Hb1 & Ha1) by (by split_and!; [|split|..]).
  clearbody r1. pose proof (sl_last _ _ Hs1) as Hlast.
  assert (Hi : indices_ok r1) by (unfold indices_ok; lia).
  destruct (applyLogs_same_log r1) as (Hs & Hi' & _ & Hc' & Hl'); [apply Hs1|done|by right|].
  split_and!; [|congruence..].
  assert (Hpl : plain_apply r1 (applyLogs r1)) by (by apply applyLogs_plain).
  split; [by eapply same_log_trans|done| |lia].
  destruct Hpa, Hpl. split; (done || congruence).
Qed.

(** The commit loop ends at the last committable index. *)
Lemma commit_loop k lo r :
  log_wf r → indices_ok r → plain_log r → commitIndex r < lo →
  k = Z.to_nat (lastLogIndex r - lo + 1) →
  let r' := for_each (index_range lo (lastLogIndex r)) try_commit r in
  follows r r' ∧
  (r' = r ∨ lo ≤ commitIndex r' ∧ committable (commitIndex r') r ∧
            lastApplied r' = commitIndex r') ∧
  (∀ n, lo ≤ n ≤ lastLogIndex r → committable n r → n ≤ commitIndex r').
Proof.
  intros Hwf. revert lo r Hwf. induction k as [|k IH]; intros lo r Hwf Hi Hp Hlo Hk; cbv zeta.
  { rewrite index_range_nil by lia. split; [by apply follows_refl|].
    split; [by left|]. intros. cbn. lia. }
  rewrite index_range_cons, for_each_cons by lia.
  pose proof Hwf as (H0 & Hb & _). pose proof (lastLogIndex_wf r Hwf) as Hlast.
  destruct Hi as [Ha Hc].
  assert (follows r (try_commit lo r) ∧ (¬ committable lo r ∧ try_commit lo r = r ∨
    committable lo r ∧ commitIndex (try_commit lo r) = lo ∧ lastApplied (try_commit lo r) = lo))
    as [Hf Hcase].
  { unfold try_commit, committable. destruct (Z.eqb_spec (getEntryTerm r lo) (currentTerm r)).
    2:{ split; [by apply follows_refl|]. left. by split; [intros [? _]|]. }
    destruct (checkCommitMajority lo r).
    2:{ split; [by apply follows_refl|]. left. by split; [intros [_ ?]|]. }
    destruct (commit_follows lo r) as (? & ? & ?); [done|done|done|lia|].
    split; [done|]. by right. }
  set (r1 := try_commit lo r) in *. clearbody r1.
  pose proof (sl_last _ _ (fo_log _ _ Hf)) as Hlast1.
  destruct (fo_indices _ _ Hf) as [Hi1 Hi2].
  destruct (IH (lo + 1) r1) as (Hf2 & Hor & Hall).
  - apply Hf.
  - apply Hf.
  - apply Hf.
  - destruct Hcase as [[_ ->]|(_ & -> & _)]; lia.
  - rewrite Hlast1. lia.
  - rewrite Hlast1 in *. set (r2 := for_each _ try_commit r1) in *. clearbody r2.
    pose proof (fo_commit _ _ Hf2). pose proof (sl_last _ _ (fo_log _ _ Hf2)).
    destruct (fo_indices _ _ Hf2) as [Hi3 Hi4].
    assert (Hbase : lastIncludedIndex r1 ≤ lo).
    { destruct Hcase as [[_ ->]|(_ & Hc1 & _)]; lia. }
    split; [by eapply follows_trans|]. split.
    + destruct Hor as [->|(Hlo2 & Hgood & Hl2)].
      * destruct Hcase as [[_ ->]|(Hg & Hc1 & Hl1)]; [by left|]. right.
        rewrite Hc1. by split_and!.
      * right. split_and!; [lia| |done].
        rewrite (committable_ext _ r r1); [done|done|lia|apply is_int64_between; lia].
    + intros n Hn Hg. destruct (decide (n = lo)) as [->|].
      * destruct Hcase as [[Hng _]|(_ & Hc1 & _)]; [done|lia].
      * apply Hall; [lia|].
        rewrite <- (committable_ext _ r r1); [done|done|lia|apply is_int64_between; lia].
Qed.
End Leader.

(** The leader after it has recorded the index [peer] acknowledged. *)
Definition acknowledged (peer : string) (idx : Z) (r : Raft) : Raft :=
  r <| matchIndex ::= insert peer idx |>.


