(* ===== verification/Cluster.v ===== *)
(** * The cluster: nodes that exchange messages

    The handlers of the nodes composed by the gRPC calls between them.  The
    network keeps every call and every response ever sent: a step may deliver
    one of them any number of times, late, in any order, or never, so loss,
    duplication, reordering and partitions are all among the runs.

    - A goroutine that calls a peer ([GoPreVote], [GoRequestVote]) runs at any
      time after the effect that started it.
    - [ECommand] carries bytes made by [ProposeWithClient], the only sender on
      [cmdCh].
    - A response goes back to the node that called, with the id of the peer it
      called, as the goroutines do; the responses to the calls of
      [confirmLeaderQuorum] do not reach the run loop, nor do those to a chunk
      that is not the last one, unless their term is newer; the time of the
      last quorum is noted by the event [EConfirmed]. *)

From S2P Require Import Prelude Types Config Json Envelope Disk Wal SnapshotStore.
From S2P Require Import Node Roles Election Apply Replication Client Startup RunLoop.

(** A call in flight, [tracked] when its response goes to the run loop of
    [src]; or a response on its way to [dst]. *)
Inductive Packet :=
| Call (src dst : string) (msg : rpcReq) (tracked : bool)
| Return (dst : string) (msg : rpcReq).

Record Net := mkNet {
  nodes : gmap string Raft;
  soup : list Packet
}.

(** The [i]-th chunk of a snapshot. *)
Definition chunk_at (snapData : bytes) (i : nat) : Z * bytes * bool :=
  let len := Z.of_nat (length snapData) in
  let offset := Z.of_nat i * chunkSize in
  let done := len <=? offset + chunkSize in
  let end_ := if done then len else offset + chunkSize in
  (offset, take (Z.to_nat (end_ - offset)) (drop (Z.to_nat offset) snapData), done).

Definition chunk_count (snapData : bytes) : nat :=
  S (Z.to_nat ((Z.of_nat (length snapData) - 1) / chunkSize)).

Definition to_list {A} (x : result A) : list A :=
  match x with Ok a => [a] | Err _ => [] end.

(** The calls that follow a turn of the run loop of [n]. *)
Definition calls (n : string) (out : Output) (r : Raft) : list Packet :=
  match out with
  | OAppend peer a =>
      map (λ req, Call n peer (MAppendEntries req) true)
        (to_list (sendAppendEntries r peer (aa_term a) (aa_prevLogIdx a)
                    (aa_prevLogTerm a) (aa_entries a) (aa_leaderCommit a)))
  | OSnapshot peer a =>
      flat_map (λ i,
        let '(offset, data, done) := chunk_at (sa_snapData a) i in
        map (λ req, Call n peer (MInstallSnapshot req) true)
          (to_list (sendInstallSnapshot r peer (sa_term a) (sa_lastIncludedIndex a)
                      (sa_lastIncludedTerm a) offset data done)))
        (seq 0 (chunk_count (sa_snapData a)))
  | _ => []
  end.

(** The call of a goroutine started by an effect. *)
Definition goroutine (n : string) (e : Effect) (r : Raft) : list Packet :=
  match e with
  | GoPreVote peer t i lt =>
      map (λ req, Call n peer (MPreVote req) true) (to_list (sendPreVote r peer t i lt))
  | GoRequestVote peer t i lt =>
      map (λ req, Call n peer (MRequestVote req) true)
        (to_list (sendRequestVote r peer t i lt))
  | _ => []
  end.

(** The calls of [confirmLeaderQuorum]. *)
Definition confirm_calls (n : string) (term : Z) (r : Raft) : list Packet :=
  match confirm_requests term r with
  | None => []
  | Some reqs =>
      flat_map (λ p, map (λ req, Call n p.1 (MAppendEntries req) false) (to_list p.2)) reqs
  end.

(** The message the caller's goroutine makes of the response of [peer]. *)
Definition response (peer : string) (msg : rpcReq) (resp : rpcResp) : list rpcReq :=
  match msg, resp with
  | MPreVote _, RVote resp => [MPreVoteResp peer resp]
  | MRequestVote _, RVote resp => [MVoteResp peer resp]
  | MAppendEntries _, RAppend resp => [MAppendResp peer resp]
  | MInstallSnapshot req, RSnapshot resp =>
      if Done req || (is_Term req <? isr_Term resp) then [MSnapshotResp peer resp] else []
  | _, _ => []
  end.

(** Events a node takes by itself. *)
Definition local_event (ev : Event) : Prop :=
  match ev with
  | ERpc _ => False
  | ECommand cmd _ =>
      ∃ op key val client request, ProposeWithClient op key val client request = Ok cmd
  | _ => True
  end.

Inductive net_step `{!ProtoCodec} `{!Dialer} (s : Net) : Net → Prop :=
| step_event n r ev out r' :
    nodes s !! n = Some r → local_event ev → handle ev r = (out, r') →
    net_step s (mkNet (<[n := r']> (nodes s)) (soup s ++ calls n out r'))
| step_goroutine n r e :
    nodes s !! n = Some r → e ∈ effects r →
    net_step s (mkNet (nodes s) (soup s ++ goroutine n e r))
| step_confirm n r term :
    nodes s !! n = Some r →
    net_step s (mkNet (nodes s) (soup s ++ confirm_calls n term r))
| step_call src dst msg tracked r resp r' :
    Call src dst msg tracked ∈ soup s → nodes s !! dst = Some r →
    handleRPC msg r = (resp, r') →
    net_step s (mkNet (<[dst := r']> (nodes s))
      (soup s ++ if tracked then map (Return src) (response dst msg resp) else []))
| step_return dst msg r resp r' :
    Return dst msg ∈ soup s → nodes s !! dst = Some r →
    handleRPC msg r = (resp, r') →
    net_step s (mkNet (<[dst := r']> (nodes s)) (soup s)).

(** A run: a sequence of steps through states that satisfy [P]. *)
Inductive runs `{!ProtoCodec} `{!Dialer} (P : Net → Prop) : Net → Net → Prop :=
| runs_refl s : P s → runs P s s
| runs_step s1 s2 s3 : runs P s1 s2 → net_step s2 s3 → P s3 → runs P s1 s3.

(** [n] leads the term [t]. *)
Definition leads (s : Net) (n : string) (t : Z) : Prop :=
  ∃ r, nodes s !! n = Some r ∧ state r = Leader ∧ currentTerm r = t.

(** The members of the cluster are [M], at every node, and no change of them is
    under way; the terms are within the machine integers. *)
Definition steady_node (M : gset string) (r : Raft) : Prop :=
  (∃ c, currentConfig r = Some c ∧ Joint c = false ∧ members (NewPeers c) = M) ∧
  Forall (λ e, env_Type (DecodeLogEntry (Cmd e)) ≠ EntryConfigChange) (log r) ∧
  0 ≤ currentTerm r < max_int64.

Definition steady (M : gset string) (s : Net) : Prop :=
  map_Forall (λ _, steady_node M) (nodes s).

(** A cluster that starts: followers that have voted for nobody. *)
Definition fresh_cluster (s : Net) : Prop :=
  soup s = [] ∧
  map_Forall (λ n r, node_id r = n ∧ n ≠ "" ∧ state r = Follower ∧ votedFor r = ""
                     ∧ log r = [] ∧ 0 ≤ currentTerm r) (nodes s).
