(* ===== verification/Schedule.v ===== *)
(** * Schedules: runs of the cluster that can be computed

    An [Action] picks the next step of the network; [exec] performs a list of
    them and checks that the membership is steady at each state.  A schedule
    that succeeds is a run ([exec_runs]). *)

From S2P Require Import Prelude Types Config Json Envelope Disk Wal SnapshotStore.
From S2P Require Import Node Roles Election Apply Replication Client Startup RunLoop.
From S2P Require Import Cluster.

Inductive Action :=
| ATimer (n : string)
| APut (n key val client : string) (request : Z) (ch : nat)
| AReplicate (n peer : string)
| ASendSnapshot (n peer : string)
| ASpawn (n : string) (i : nat) (* the goroutine of the [i]-th effect *)
| ADeliver (i : nat) (* the [i]-th packet *).

Section Schedule.
Context {PC : ProtoCodec} {DL : Dialer}.

Definition event_of (n : string) (ev : Event) (s : Net) : option Net :=
  r ← nodes s !! n;
  let '(out, r') := handle ev r in
  Some (mkNet (<[n := r']> (nodes s)) (soup s ++ calls n out r')).

Definition act (a : Action) (s : Net) : option Net :=
  match a with
  | ATimer n => event_of n EElectionTimer s
  | APut n key val client request ch =>
      match ProposeWithClient "PUT" key val client request with
      | Ok cmd => event_of n (ECommand cmd ch) s
      | Err _ => None
      end
  | AReplicate n peer => event_of n (EReplicate peer) s
  | ASendSnapshot n peer => event_of n (ESendSnapshot peer) s
  | ASpawn n i =>
      r ← nodes s !! n; e ← effects r !! i;
      Some (mkNet (nodes s) (soup s ++ goroutine n e r))
  | ADeliver i =>
      p ← soup s !! i;
      match p with
      | Call src dst msg tracked =>
          r ← nodes s !! dst;
          let '(resp, r') := handleRPC msg r in
          Some (mkNet (<[dst := r']> (nodes s))
            (soup s ++ if tracked then map (Return src) (response dst msg resp) else []))
      | Return dst msg =>
          r ← nodes s !! dst;
          let '(_, r') := handleRPC msg r in
          Some (mkNet (<[dst := r']> (nodes s)) (soup s))
      end
  end.

Definition steady_check (M : gset string) (s : Net) : bool :=
  forallb (λ kv : string * Raft, let r := kv.2 in
    match currentConfig r with
    | Some c => negb (Joint c) && bool_decide (members (NewPeers c) = M)
    | None => false
    end &&
    forallb (λ e, negb (env_Type (DecodeLogEntry (Cmd e)) =? EntryConfigChange)) (log r) &&
    (0 <=? currentTerm r) && (currentTerm r <? max_int64)) (map_to_list (nodes s)).

Fixpoint exec_with (check : Net → bool) (l : list Action) (s : Net) : option Net :=
  match l with
  | [] => if check s then Some s else None
  | a :: l =>
      if check s then s' ← act a s; exec_with check l s' else None
  end.

Definition exec (M : gset string) : list Action → Net → option Net := exec_with (steady_check M).

(** ** Soundness *)

Lemma steady_check_sound M s : steady_check M s = true → steady M s.
Proof.
  unfold steady_check. rewrite forallb_forall. intros H n r Hr.
  specialize (H (n, r)). rewrite <- list_elem_of_In, elem_of_map_to_list in H.
  apply H in Hr. simpl in Hr. rewrite !andb_true_iff in Hr.
  destruct Hr as [[[Hc Hl] H0%Z.leb_le] H1%Z.ltb_lt]. split_and!; [| |done|done].
  - destruct (currentConfig r) as [c|]; [|done]. exists c.
    apply andb_true_iff in Hc as [HJ%negb_true_iff HM%bool_decide_eq_true]. done.
  - rewrite forallb_forall in Hl. apply Forall_forall. intros e He.
    apply list_elem_of_In, Hl, negb_true_iff, Z.eqb_neq in He. done.
Qed.

Lemma event_of_step n ev s s' :
  local_event ev → event_of n ev s = Some s' → net_step s s'.
Proof.
  unfold event_of. intros Hl H. destruct (nodes s !! n) as [r|] eqn:Hr; [|done].
  simpl in H. destruct (handle ev r) as [out r'] eqn:He. injection H as <-.
  by eapply step_event.
Qed.

Lemma act_step a s s' : act a s = Some s' → net_step s s'.
Proof.
  destruct a as [n|n key val client request ch|n peer|n peer|n i|i]; simpl.
  - by apply event_of_step.
  - destruct (ProposeWithClient _ _ _ _ _) as [cmd|] eqn:Hc; [|done].
    apply event_of_step. simpl. eauto 6.
  - by apply event_of_step.
  - by apply event_of_step.
  - destruct (nodes s !! n) as [r|] eqn:Hr; [|done]. simpl.
    destruct (effects r !! i) as [e|] eqn:He; [|done]. intros [= <-].
    apply step_goroutine; [done|]. by eapply list_elem_of_lookup_2.
  - destruct (soup s !! i) as [p|] eqn:Hp; [|done]. simpl.
    apply list_elem_of_lookup_2 in Hp. destruct p as [src dst msg tracked|dst msg];
      destruct (nodes s !! dst) as [r|] eqn:Hr; try done; simpl;
      destruct (handleRPC msg r) as [resp r'] eqn:He; intros [= <-].
    + by eapply step_call.
    + by eapply step_return.
Qed.

Lemma runs_trans P s1 s2 s3 : runs P s1 s2 → runs P s2 s3 → runs P s1 s3.
Proof.
  intros H1 H2. revert H1. induction H2 as [s Hs|s2 s3 s4 Hrun IH Hstep Hp]; intros H1; [done|].
  eapply runs_step; [by apply IH|done|done].
Qed.

Lemma runs_one (P : Net → Prop) s1 s2 : P s1 → P s2 → net_step s1 s2 → runs P s1 s2.
Proof. intros H1 H2 Hs. eapply runs_step; [by apply runs_refl|done|done]. Qed.

Lemma runs_end P s1 s2 : runs P s1 s2 → P s2.
Proof. by destruct 1. Qed.

Lemma runs_start P s1 s2 : runs P s1 s2 → P s1.
Proof. by induction 1. Qed.

(** No node goes away. *)
Lemma net_step_node s s' n r :
  net_step s s' → nodes s !! n = Some r → is_Some (nodes s' !! n).
Proof.
  intros Hstep Hr. destruct Hstep; simpl; try by eexists.
  all: match goal with |- context [<[?m := _]> _ !! _] => destruct (decide (m = n)) as [->|Hne] end;
    [rewrite lookup_insert_eq|rewrite lookup_insert_ne by done]; by eexists.
Qed.

Lemma runs_node P s s' n :
  runs P s s' → is_Some (nodes s !! n) → is_Some (nodes s' !! n).
Proof.
  intros Hrun Hn. induction Hrun as [|s1 s2 s3 _ IH Hstep _]; [done|].
  destruct (IH Hn) as [x Hx]. by eapply net_step_node.
Qed.

Lemma exec_with_runs (P : Net → Prop) check l s s' :
  (∀ x, check x = true → P x) → exec_with check l s = Some s' → P s' ∧ runs P s s'.
Proof.
  intros Hcheck. revert s. induction l as [|a l IH]; intros s H; simpl in H;
    destruct (check s) eqn:Hs; try done; apply Hcheck in Hs.
  - injection H as <-. split; [done|by apply runs_refl].
  - destruct (act a s) as [s1|] eqn:Ha; [|done]. simpl in H.
    destruct (IH s1 H) as [Hs' Hrun]. split; [done|].
    eapply runs_trans; [|exact Hrun]. apply runs_one; [done| |by eapply act_step].
    by eapply runs_start.
Qed.

Lemma exec_runs M l s s' : exec M l s = Some s' → runs (steady M) s s'.
Proof.
  intros H. eapply exec_with_runs; [|exact H]. apply steady_check_sound.
Qed.
End Schedule.
