(* ===== verification/ElectionSafety.v ===== *)
(** * Election safety

    At most one leader per term, over all runs of the cluster in which the
    membership does not change and has an odd size.

    The invariant speaks of two histories: [fv], the vote each node gave in
    each term before it heard from a leader of the term, and [won], the
    elections won.  [votedFor] is that vote or a leader the node heard from; a
    vote that was granted counts for its candidate, or the candidate had
    already won. *)

From S2P Require Import Prelude Types Config Json Envelope Disk Wal SnapshotStore.
From S2P Require Import Node Roles Election Apply Replication Client Startup RunLoop.
From S2P Require Import NodeFacts ApplyFacts ElectionFacts Cluster Schedule.
From S2P Require Import Scenarios.

Abbreviation Votes := (gmap (string * Z) string).
Abbreviation Wins := (gset (Z * string)).

(** [v] voted for [c] in the term [t], or [c] had won it. *)
Definition counted (fv : Votes) (won : Wins) (v : string) (t : Z) (c : string) : Prop :=
  fv !! (v, t) = Some c ∨ (t, c) ∈ won.

Record node_inv (fv : Votes) (won : Wins) (n : string) (r : Raft) : Prop := {
  ni_id : node_id r = n;
  ni_name : n ≠ "";
  ni_plain : plain_log r;
  ni_term t c : fv !! (n, t) = Some c → t ≤ currentTerm r;
  ni_vote :
    match fv !! (n, currentTerm r) with
    | Some c => votedFor r ≠ "" ∧ (votedFor r = c ∨ (currentTerm r, votedFor r) ∈ won)
    | None => votedFor r = "" ∨ (currentTerm r, votedFor r) ∈ won
    end;
  ni_cand : state r = Candidate →
    ∀ v, lookup_bool (votesReceived r) v = true → counted fv won v (currentTerm r) n;
  ni_leader : state r = Leader → (currentTerm r, n) ∈ won
}.

Definition packet_inv (fv : Votes) (won : Wins) (p : Packet) : Prop :=
  match p with
  | Call src _ (MPreVote _) _ => True
  | Call src _ (MRequestVote req) _ => CandidateId req = src ∧ src ≠ ""
  | Call _ _ (MAppendEntries req) _ =>
      (ae_Term req, ae_LeaderId req) ∈ won ∧ Forall no_config (Entries req)
  | Call _ _ (MInstallSnapshot req) _ => (is_Term req, is_LeaderId req) ∈ won
  | Call _ _ _ _ => False
  | Return dst (MVoteResp v resp) =>
      VoteGranted resp = true → counted fv won v (rvr_Term resp) dst
  | Return _ (MPreVoteResp _ _ | MAppendResp _ _ | MSnapshotResp _ _) => True
  | Return _ _ => False
  end.

(** Every election won has a majority of first votes behind it. *)
Definition won_inv (M : gset string) (fv : Votes) (won : Wins) : Prop :=
  ∀ t c, (t, c) ∈ won → c ≠ "" ∧
    ∃ Q : gset string, Q ⊆ M ∧ (size M < 2 * size Q)%nat ∧
      ∀ v, v ∈ Q → fv !! (v, t) = Some c.

Definition net_inv (M : gset string) (fv : Votes) (won : Wins) (s : Net) : Prop :=
  (∀ n r, nodes s !! n = Some r → node_inv fv won n r) ∧
  (∀ p, p ∈ soup s → packet_inv fv won p) ∧ won_inv M fv won.

(** ** The histories only grow, and only at the node that steps *)

Record grows (n : string) (fv fv' : Votes) (won won' : Wins) : Prop := {
  gr_fv : fv ⊆ fv';
  gr_won : won ⊆ won';
  gr_other m t : m ≠ n → fv' !! (m, t) = fv !! (m, t)
}.

Lemma grows_refl n fv won : grows n fv fv won won.
Proof. by split. Qed.

Lemma counted_grows n fv fv' won won' v t c :
  grows n fv fv' won won' → counted fv won v t c → counted fv' won' v t c.
Proof.
  intros [Hf Hw _] [H|H]; [left|right; set_solver]. by eapply lookup_weaken.
Qed.

Lemma packet_inv_grows n fv fv' won won' p :
  grows n fv fv' won won' → packet_inv fv won p → packet_inv fv' won' p.
Proof.
  intros Hg. pose proof (gr_won _ _ _ _ _ Hg). destruct p as [? ? [] ?|? []]; simpl; try done.
  - intros [? ?]. split; [set_solver|done].
  - set_solver.
  - intros Hc Hv. by eapply counted_grows; [|apply Hc].
Qed.

Lemma node_inv_other n fv fv' won won' m r :
  grows n fv fv' won won' → m ≠ n → node_inv fv won m r → node_inv fv' won' m r.
Proof.
  intros Hg Hne [Hi Hn Hp Ht Hv Hc Hl]. pose proof (gr_other _ _ _ _ _ Hg) as Ho.
  pose proof (gr_won _ _ _ _ _ Hg) as Hw. split; try done.
  - intros t c. rewrite Ho by done. apply Ht.
  - rewrite Ho by done. destruct (fv !! (m, currentTerm r)).
    + destruct Hv as [? [?|?]]; split; auto; right; set_solver.
    + destruct Hv as [?|?]; [by left|right; set_solver].
  - intros Hs v Hvr. by eapply counted_grows; [|apply Hc].
  - intros Hs. specialize (Hl Hs). set_solver.
Qed.

Lemma won_inv_unique M fv won t a b :
  won_inv M fv won → (t, a) ∈ won → (t, b) ∈ won → a = b.
Proof.
  intros Hw Ha Hb. destruct (Hw _ _ Ha) as (_ & Qa & HQa & Hsa & Hfa).
  destruct (Hw _ _ Hb) as (_ & Qb & HQb & Hsb & Hfb).
  destruct (decide (Qa ∩ Qb = ∅)) as [He|Hne].
  - assert (size (Qa ∪ Qb) ≤ size M)%nat as Hle by (apply subseteq_size; set_solver).
    rewrite size_union in Hle by set_solver. lia.
  - apply set_choose_L in Hne as [v Hv]. apply elem_of_intersection in Hv as [Hva Hvb].
    apply Hfa in Hva. apply Hfb in Hvb. congruence.
Qed.

(** A new first vote of [n]. *)
Lemma grows_vote n t c fv won :
  fv !! (n, t) = None → grows n fv (<[(n, t) := c]> fv) won won.
Proof.
  intros Hn. split; [by apply insert_subseteq|done|].
  intros m t' Hne. apply lookup_insert_ne. congruence.
Qed.

Lemma grows_win n t c fv won : grows n fv fv won ({[(t, c)]} ∪ won).
Proof. split; [done|set_solver|done]. Qed.

Lemma grows_trans n fv1 fv2 fv3 w1 w2 w3 :
  grows n fv1 fv2 w1 w2 → grows n fv2 fv3 w2 w3 → grows n fv1 fv3 w1 w3.
Proof.
  intros [] []. split; [by etransitivity|set_solver|].
  intros m t Hne. rewrite gr_other1 by done. auto.
Qed.

Lemma won_inv_grows M n fv fv' won :
  grows n fv fv' won won → won_inv M fv won → won_inv M fv' won.
Proof.
  intros Hg Hw t c Hc. destruct (Hw t c Hc) as (Hn & Q & HQ & Hs & Hf).
  split; [done|]. exists Q. split_and!; [done..|]. intros v Hv.
  eapply lookup_weaken; [by apply Hf|]. apply Hg.
Qed.

Lemma won_inv_add M fv won t c (Q : gset string) :
  won_inv M fv won → c ≠ "" → Q ⊆ M → (size M < 2 * size Q)%nat →
  (∀ v, v ∈ Q → fv !! (v, t) = Some c) → won_inv M fv ({[(t, c)]} ∪ won).
Proof.
  intros Hw Hc HQ Hs Hf t' c' Hin. apply elem_of_union in Hin as [Hin|Hin]; [|by apply Hw].
  apply elem_of_singleton in Hin as [= -> ->]. eauto 6.
Qed.

(** ** Majorities of a steady configuration *)

Section Quorums.
Context (M : gset string) (Hodd : Z.odd (Z.of_nat (size M)) = true).

(** The peers whose votes a candidate holds. *)
Definition voters_of (votes : gmap string bool) : gset string :=
  filter (λ v, lookup_bool votes v = true) M.

Lemma vote_majority_steady r votes :
  steady_node M r → vote_majority r votes = true →
  (size M < 2 * size (voters_of votes))%nat.
Proof.
  intros [(c & Hc & HJ & HM) _] Hv. unfold vote_majority in Hv. rewrite Hc in Hv.
  apply HasMajority_enough in Hv as [Hv _]. apply enough_odd in Hv.
  - unfold yes_votes in Hv. rewrite HM in Hv. fold (voters_of votes) in Hv.
    rewrite <- (size_dom (D := gset string) (NewPeers c)) in Hv.
    unfold members in HM. rewrite HM in Hv. lia.
  - rewrite <- (size_dom (D := gset string) (NewPeers c)).
    unfold members in HM. by rewrite HM.
Qed.

(** A node without peers is the only member. *)
Lemma no_peers_steady r :
  steady_node M r → effectivePeers r = ∅ → M = {[ node_id r ]}.
Proof.
  intros [(c & Hc & HJ & HM) _] He. unfold effectivePeers in He. rewrite Hc in He.
  simpl in He. rewrite HJ in He.
  assert (Hsub : M ⊆ {[ node_id r ]}).
  { intros id Hid. rewrite <- HM in Hid. unfold members in Hid. apply elem_of_dom in Hid as [a Ha].
    apply elem_of_singleton. destruct (decide (id = node_id r)) as [|Hne]; [done|].
    assert (add_nodes (node_id r) false (NewPeers c) ∅ !! id = Some a) as Hl.
    { rewrite lookup_add_nodes, bool_decide_eq_false_2 by done. by rewrite Ha. }
    by rewrite He, lookup_empty in Hl. }
  assert (M ≠ ∅) as Hne by (intros ->; by rewrite size_empty in Hodd).
  apply set_choose_L in Hne as [x Hx]. set_solver.
Qed.

(** ** One step of one node *)

(** What the rest of the cluster guarantees about a change. *)
Definition change_ok (fv : Votes) (won : Wins) (n : string) (t : Z) (ch : change) : Prop :=
  match ch with
  | CVote c => c ≠ ""
  | CLeader l => (t, l) ∈ won
  | CVotes p => counted fv won p t n
  | _ => True
  end.

(** The vote a step adds to the history: one it grants, before it heard from
    a leader of the term, or its own. *)
Definition new_vote (n : string) (r r' : Raft) (ch : change) (fv fv' : Votes) : Prop :=
  (fv' = fv ∧ ch ≠ CCampaign) ∨
  ∃ c, fv !! (n, currentTerm r') = None ∧ fv' = <[(n, currentTerm r') := c]> fv ∧
    (currentTerm r < currentTerm r' ∨ (currentTerm r = currentTerm r' ∧ votedFor r = "")) ∧
    (ch = CVote c ∨ (ch = CCampaign ∧ c = n)).

(** The election a step wins. *)
Definition new_win (n : string) (r' : Raft) (won won' : Wins) : Prop :=
  won' = won ∨
  (won' = {[(currentTerm r', n)]} ∪ won ∧ (currentTerm r', n) ∉ won ∧ state r' = Leader).

Lemma fv_none fv won n r t :
  node_inv fv won n r → currentTerm r < t → fv !! (n, t) = None.
Proof.
  intros Hi Ht. destruct (fv !! (n, t)) as [c|] eqn:Hf; [|done].
  apply (ni_term _ _ _ _ Hi) in Hf. lia.
Qed.

(** The case of a candidate that wins with the votes of [Q]. *)
Lemma win_step fv won n r' (Q : gset string) :
  won_inv M fv won → n ≠ "" → Q ⊆ M → (size M < 2 * size Q)%nat → state r' = Leader →
  (∀ v, v ∈ Q → counted fv won v (currentTerm r') n) →
  ∃ won', grows n fv fv won won' ∧ won_inv M fv won' ∧ (currentTerm r', n) ∈ won' ∧
    new_win n r' won won'.
Proof.
  intros Hw Hn HQ Hs Hl Hc. destruct (decide ((currentTerm r', n) ∈ won)) as [Hin|Hin].
  - exists won. split_and!; [apply grows_refl|done|done|by left].
  - exists ({[(currentTerm r', n)]} ∪ won). split_and!; [apply grows_win| |set_solver|by right].
    apply (won_inv_add M fv won _ n Q); try done. intros v Hv. by destruct (Hc v Hv).
Qed.

(** The histories can be extended to fit the node after the change. *)
Definition node_stepped (fv : Votes) (won : Wins) (n : string) (r r' : Raft) (ch : change)
    : Prop :=
  ∃ fv' won', grows n fv fv' won won' ∧ node_inv fv' won' n r' ∧ won_inv M fv' won' ∧
    (∀ c, ch = CVote c → counted fv' won' n (currentTerm r') c) ∧
    new_vote n r r' ch fv fv' ∧ new_win n r' won won'.

Section Step.
Context (fv : Votes) (won : Wins) (n : string) (r r' : Raft).
Context (Hst : steady_node M r) (Hi : node_inv fv won n r) (Hw : won_inv M fv won).
Context (Hp' : plain_log r') (Hid : node_id r' = node_id r).

(** A vote for the candidate it already counts for. *)
Lemma step_vote_again c :
  currentTerm r' = currentTerm r → state r' = state r → votedFor r' = c → c ≠ "" →
  votesReceived r' = votesReceived r →
  counted fv won n (currentTerm r') c → node_stepped fv won n r r' (CVote c).
Proof using All.
  intros Ht Hs Hv Hc Hr Hcnt. destruct Hi as [Ii In Ip It Iv Ic Il]. exists fv, won.
  split_and!; [apply grows_refl| |done|by intros ? [= <-]|by left|by left].
  split; rewrite ?Hs, ?Hr; try done; [congruence|by rewrite Ht| |by rewrite Ht|by rewrite Ht].
  rewrite Hv. unfold counted in Hcnt. destruct (fv !! _); split_and?; naive_solver.
Qed.

(** The first vote of a term. *)
Lemma step_vote_new c :
  fv !! (n, currentTerm r') = None →
  currentTerm r < currentTerm r' ∧ state r' = Follower ∨
    currentTerm r' = currentTerm r ∧ state r' = state r ∧ votedFor r = "" →
  votedFor r' = c → c ≠ "" → votesReceived r' = votesReceived r →
  node_stepped fv won n r r' (CVote c).
Proof using All.
  intros Hf Hcase Hv Hc Hr. pose proof Hi as [Ii In Ip It Iv Ic Il].
  pose proof (grows_vote n (currentTerm r') c fv won Hf) as Hg.
  exists (<[(n, currentTerm r') := c]> fv), won. split_and!; [done| | | | |by left].
  - split; try done.
    + congruence.
    + intros t c'. rewrite lookup_insert_Some. intros [[[= <-] _]|[_ Hf'%It]]; [lia|].
      destruct Hcase as [[? _]|[-> _]]; lia.
    + rewrite lookup_insert, decide_True by done. rewrite Hv. auto.
    + intros Hs' v Hv'. destruct Hcase as [[_ Hs]|(Ht & Hs & _)]; [congruence|].
      rewrite Ht in *. eapply counted_grows; [exact Hg|]. apply Ic; congruence.
    + intros Hs'. destruct Hcase as [[_ Hs]|(Ht & Hs & _)]; [congruence|].
      rewrite Ht. apply Il. congruence.
  - by eapply won_inv_grows.
  - intros ? [= <-]. left. by rewrite lookup_insert, decide_True.
  - right. exists c. split_and!; [done|done| |by left].
    destruct Hcase as [[? _]|(Ht & _ & Hv0)]; [by left|by right].
Qed.

Lemma step_vote c :
  currentTerm r < currentTerm r' ∧ state r' = Follower ∨
    currentTerm r' = currentTerm r ∧ state r' = state r ∧ (votedFor r = "" ∨ votedFor r = c) →
  votedFor r' = c → c ≠ "" → votesReceived r' = votesReceived r →
  node_stepped fv won n r r' (CVote c).
Proof using All.
  intros Hcase Hv Hc Hr. pose proof Hi as [Ii In Ip It Iv Ic Il].
  destruct Hcase as [[Ht Hs]|(Ht & Hs & Hv0)].
  { apply step_vote_new; auto. by apply (fv_none fv won n r). }
  destruct (fv !! (n, currentTerm r)) as [c0|] eqn:Hf.
  - destruct Iv as [Hne Hvote]. destruct Hv0 as [?|Hv0]; [done|]. rewrite Hv0 in *.
    apply step_vote_again; try done. unfold counted. rewrite Ht, Hf. destruct Hvote as [->|?]; auto.
  - destruct (decide (votedFor r = "")) as [He|Hne].
    { apply step_vote_new; auto. by rewrite Ht. }
    destruct Hv0 as [?|Hv0]; [done|]. rewrite Hv0 in *. destruct Iv as [?|Hwon]; [done|].
    apply step_vote_again; try done. right. by rewrite Ht.
Qed.

Lemma step_heard l :
  currentTerm r ≤ currentTerm r' → votedFor r' = l → (currentTerm r', l) ∈ won →
  state r' = Follower ∨
    (currentTerm r' = currentTerm r ∧ state r' = state r ∧ state r ≠ Candidate) →
  node_stepped fv won n r r' (CLeader l).
Proof using All.
  intros Ht Hv Hok Hcase. pose proof Hi as [Ii In Ip It Iv Ic Il].
  assert (Hl : l ≠ "") by (by destruct (Hw _ _ Hok)).
  assert (Hrole : (state r' = Candidate → False) ∧
                  (state r' = Leader → (currentTerm r', n) ∈ won)).
  { destruct Hcase as [Hs|(Heq & Hs & Hc)]; rewrite Hs; [done|].
    split; [done|]. rewrite Heq. exact Il. }
  destruct Hrole as [Hc' Hl']. exists fv, won.
  split_and!; [apply grows_refl| |done|done|by left|by left]. split; try done.
  - congruence.
  - intros t c Hf'%It. lia.
  - rewrite Hv. destruct (fv !! (n, currentTerm r')); auto.
Qed.

(** A campaign, with or without the victory of a node alone. *)
Lemma campaign_stepped won1 :
  let fv1 := <[(n, currentTerm r') := n]> fv in
  currentTerm r' = currentTerm r + 1 → votedFor r' = node_id r →
  votesReceived r' = {[ node_id r := true ]} →
  grows n fv1 fv1 won won1 → won_inv M fv1 won1 →
  (state r' = Leader → (currentTerm r', n) ∈ won1) → new_win n r' won won1 →
  node_stepped fv won n r r' CCampaign.
Proof using All.
  intros fv1 Ht Hv Hr Hg1 Hw1 Hl1 Hnw. pose proof Hi as [Ii In Ip It Iv Ic Il].
  assert (Hf : fv !! (n, currentTerm r') = None) by (apply (fv_none fv won n r); [done|lia]).
  pose proof (grows_vote n (currentTerm r') n fv won Hf) as Hg.
  assert (Hfn : fv1 !! (n, currentTerm r') = Some n)
    by (unfold fv1; by rewrite lookup_insert, decide_True).
  exists fv1, won1. split_and!; [by eapply grows_trans| |done|done| |done].
  - split; try done.
    + congruence.
    + intros t c. unfold fv1. rewrite lookup_insert_Some.
      intros [[[= <-] _]|[_ Hf'%It]]; lia.
    + rewrite Hfn, Hv, Ii. auto.
    + intros _ v. rewrite Hr, Ii. unfold lookup_bool. rewrite lookup_singleton.
      case_decide; [subst|done]. intros _. left. done.
  - right. exists n. split_and!; [done|done|left; lia|by right].
Qed.

Lemma step_campaign :
  currentTerm r' = currentTerm r +! 1 → votedFor r' = node_id r →
  votesReceived r' = {[ node_id r := true ]} →
  state r' = Candidate ∨ (state r' = Leader ∧ effectivePeers r = ∅) →
  node_stepped fv won n r r' CCampaign.
Proof using All.
  intros Ht Hv Hr Hcase. pose proof (ni_id _ _ _ _ Hi) as Ii. pose proof (ni_name _ _ _ _ Hi) as In.
  rewrite int64_add_small in Ht
    by (destruct Hst as (_ & _ & Hmax); unfold is_int64, max_int64 in *; lia).
  assert (Hf : fv !! (n, currentTerm r') = None) by (apply (fv_none fv won n r); [done|lia]).
  pose proof (grows_vote n (currentTerm r') n fv won Hf) as Hg.
  assert (Hw1 : won_inv M (<[(n, currentTerm r') := n]> fv) won) by (by eapply won_inv_grows).
  destruct Hcase as [Hs|[Hs He]].
  - apply (campaign_stepped won); try done; [|by left]. by rewrite Hs.
  - pose proof (no_peers_steady r Hst He) as HM. rewrite Ii in HM.
    destruct (win_step _ won n r' M Hw1) as (won1 & ? & ? & ? & ?); try done.
    + rewrite HM, size_singleton. lia.
    + intros v Hv'. rewrite HM in Hv'. apply elem_of_singleton in Hv' as ->. left.
      by rewrite lookup_insert, decide_True.
    + by apply (campaign_stepped won1).
Qed.

Lemma votes_stepped p won1 :
  state r = Candidate → currentTerm r' = currentTerm r → votedFor r' = votedFor r →
  (∀ v, lookup_bool (votesReceived r') v = true → counted fv won v (currentTerm r') n) →
  grows n fv fv won won1 → won_inv M fv won1 →
  (state r' = Leader → (currentTerm r', n) ∈ won1) → new_win n r' won won1 →
  node_stepped fv won n r r' (CVotes p).
Proof using All.
  intros Hs Ht Hv Hcnt Hg1 Hw1 Hl1 Hnw. pose proof Hi as [Ii In Ip It Iv Ic Il].
  exists fv, won1. split_and!; [done| |done|done|by left|done].
  pose proof (gr_won _ _ _ _ _ Hg1) as Hsub. split; try done.
  - congruence.
  - by rewrite Ht.
  - rewrite Ht, Hv. destruct (fv !! (n, currentTerm r)).
    + destruct Iv as [? [?|?]]; split; auto; right; set_solver.
    + destruct Iv as [?|?]; [by left|right; set_solver].
  - intros _ v Hv'. eapply counted_grows; [exact Hg1|]. by apply Hcnt.
Qed.

Lemma step_votes p :
  state r = Candidate → currentTerm r' = currentTerm r → votedFor r' = votedFor r →
  votesReceived r' = <[p := true]> (votesReceived r) → counted fv won p (currentTerm r') n →
  state r' = Candidate ∨ (state r' = Leader ∧ vote_majority r (votesReceived r') = true) →
  node_stepped fv won n r r' (CVotes p).
Proof using All.
  intros Hs Ht Hv Hr Hok Hcase. pose proof Hi as [Ii In Ip It Iv Ic Il].
  assert (Hcnt : ∀ v, lookup_bool (votesReceived r') v = true →
                  counted fv won v (currentTerm r') n).
  { intros v. rewrite Hr. unfold lookup_bool. rewrite lookup_insert.
    case_decide; [by subst|]. rewrite Ht. apply Ic, Hs. }
  destruct Hcase as [Hs'|[Hs' Hmaj]].
  - apply (votes_stepped p won); try done; [|by left]. by rewrite Hs'.
  - destruct (win_step fv won n r' (voters_of (votesReceived r')) Hw)
      as (won1 & ? & ? & ? & ?); try done.
    + unfold voters_of. set_solver.
    + by apply (vote_majority_steady r).
    + intros v Hv'. apply Hcnt. unfold voters_of in Hv'. set_solver.
    + by apply (votes_stepped p won1).
Qed.
End Step.

Lemma node_step fv won n r r' ch :
  steady_node M r → node_inv fv won n r → won_inv M fv won → plain_log r' →
  node_id r' = node_id r → election_step r r' ch →
  change_ok fv won n (currentTerm r') ch → node_stepped fv won n r r' ch.
Proof.
  intros Hst Hi Hw Hp' Hid Hes Hok. pose proof Hi as [Ii In Ip It Iv Ic Il].
  destruct Hes as [Hs Ht Hv Hr|Ht Hs Hv| | | | ]; simpl in Hok;
    [| |by apply step_vote|by apply step_heard|by apply step_campaign|by apply step_votes].
  - exists fv, won. split_and!; [apply grows_refl| |done|done|by left|by left].
    split; rewrite ?Hs, ?Ht, ?Hv, ?Hr; try done. congruence.
  - exists fv, won. split_and!; [apply grows_refl| |done|done|by left|by left].
    split; rewrite ?Hs; try done; [congruence| |].
    + intros t c Hf%It. lia.
    + rewrite (fv_none fv won n r) by done. by left.
Qed.
End Quorums.

(** ** One step of the network *)

Section Network.
Context {PC : ProtoCodec} {DL : Dialer}.
Context (M : gset string) (Hodd : Z.odd (Z.of_nat (size M)) = true).

(** A node steps and sends the packets [ps]. *)
Lemma net_inv_step fv won s n r r' ch ps :
  net_inv M fv won s → steady M s → nodes s !! n = Some r → plain_log r' →
  node_id r' = node_id r → election_step r r' ch →
  change_ok fv won n (currentTerm r') ch →
  (∀ fv' won', grows n fv fv' won won' → node_inv fv' won' n r' →
     (∀ c, ch = CVote c → counted fv' won' n (currentTerm r') c) →
     ∀ p, p ∈ ps → packet_inv fv' won' p) →
  ∃ fv' won', grows n fv fv' won won' ∧
    net_inv M fv' won' (mkNet (<[n := r']> (nodes s)) (soup s ++ ps)) ∧
    new_vote n r r' ch fv fv' ∧ new_win n r' won won'.
Proof.
  intros (Hn & Hs & Hw) Hst Hr Hp Hid Hes Hok Hps.
  destruct (node_step M Hodd fv won n r r' ch) as (fv' & won' & Hg & Hi & Hw' & Hv & Hnv & Hnw);
    [by apply (map_Forall_lookup_1 _ _ _ _ Hst Hr)|by apply Hn|done..|].
  exists fv', won'. split; [done|]. split; [|done]. split_and!; [| |done].
  - intros m rm. simpl. rewrite lookup_insert_Some. intros [[<- <-]|[Hne Hm]]; [done|].
    apply (node_inv_other n fv fv' won won'); [done|congruence|by apply Hn].
  - intros p. simpl. rewrite elem_of_app. intros [Hin|Hin]; [|by eapply Hps].
    eapply packet_inv_grows; [exact Hg|by apply Hs].
Qed.

(** The same, keeping only what election safety needs. *)
Lemma net_inv_keeps fv won s n r r' ch ps :
  net_inv M fv won s → steady M s → nodes s !! n = Some r → plain_log r' →
  node_id r' = node_id r → election_step r r' ch →
  change_ok fv won n (currentTerm r') ch →
  (∀ fv' won', grows n fv fv' won won' → node_inv fv' won' n r' →
     (∀ c, ch = CVote c → counted fv' won' n (currentTerm r') c) →
     ∀ p, p ∈ ps → packet_inv fv' won' p) →
  ∃ fv' won', won ⊆ won' ∧
    net_inv M fv' won' (mkNet (<[n := r']> (nodes s)) (soup s ++ ps)).
Proof.
  intros H1 H2 H3 H4 H5 H6 H7 H8.
  destruct (net_inv_step fv won s n r r' ch ps H1 H2 H3 H4 H5 H6 H7 H8)
    as (fv' & won' & [_ Hw _] & Hi & _); eauto.
Qed.

(** Packets alone. *)
Lemma net_inv_send fv won s ps :
  net_inv M fv won s → (∀ p, p ∈ ps → packet_inv fv won p) →
  net_inv M fv won (mkNet (nodes s) (soup s ++ ps)).
Proof.
  intros (Hn & Hs & Hw) Hps. split_and!; [done| |done].
  intros p. simpl. rewrite elem_of_app. intros [?|?]; auto.
Qed.

Lemma elem_of_to_list {A} (x : result A) a : a ∈ to_list x → x = Ok a.
Proof. destruct x; simpl; [by intros ->%list_elem_of_singleton|by intros ?%elem_of_nil]. Qed.

Lemma with_connection_Ok {A} r peer (req req' : A) :
  with_connection r peer req = Ok req' → req' = req.
Proof. unfold with_connection. repeat case_match; congruence. Qed.

(** The calls a leader makes carry its term and its name. *)
Lemma calls_inv fv won n r ev out r' :
  node_inv fv won n r → handle ev r = (out, r') → local_event ev →
  (∀ p, p ∈ calls n out r' → packet_inv fv won p).
Proof.
  intros Hi He Hl p Hp. destruct ev; simpl in He; simplify_eq; try done;
    try (by apply elem_of_nil in Hp).
  - unfold replicateToPeer in He. case_bool_decide as Hs; simplify_eq; [by apply elem_of_nil in Hp|].
    destruct (_ <=? _) eqn:Hnext; simplify_eq; [by apply elem_of_nil in Hp|].
    simpl in Hp. apply list_elem_of_fmap in Hp as (req & -> & Hreq%elem_of_to_list).
    apply with_connection_Ok in Hreq as ->. simpl.
    rewrite (ni_id _ _ _ _ Hi). split; [by apply (ni_leader _ _ _ _ Hi)|].
    case_match; [|by constructor]. apply Forall_forall. intros e Hin.
    apply list_elem_of_fmap in Hin as (i & -> & _).
    destruct (getEntry r' i) as [e|] eqn:Hg; [|by vm_compute].
    eapply getEntry_plain; [apply (ni_plain _ _ _ _ Hi)|done].
  - unfold sendSnapshotToPeer in He. destruct (bool_decide (state r ≠ Leader)) eqn:Hs;
      [injection He as <- <-; by apply elem_of_nil in Hp|].
    apply bool_decide_eq_false, dec_stable in Hs.
    destruct (LoadSnapshot _ _) as [[[snap|]|] d]; injection He as <- <-;
      try (by apply elem_of_nil in Hp).
    cbn [calls] in Hp. apply list_elem_of_In, in_flat_map in Hp as (i & _ & Hp).
    apply list_elem_of_In in Hp. destruct (chunk_at _ i) as [[o data] fin].
    apply list_elem_of_fmap in Hp as (req & -> & Hreq%elem_of_to_list).
    apply with_connection_Ok in Hreq as ->. simpl. rsimpl.
    rewrite (ni_id _ _ _ _ Hi). by apply (ni_leader _ _ _ _ Hi).
Qed.

Lemma goroutine_inv fv won n e r p :
  node_inv fv won n r → p ∈ goroutine n e r → packet_inv fv won p.
Proof.
  intros Hi Hp. destruct e; simpl in Hp; try (by apply elem_of_nil in Hp);
    apply list_elem_of_fmap in Hp as (req & -> & Hreq%elem_of_to_list);
    apply with_connection_Ok in Hreq as ->; simpl; [done|].
  rewrite (ni_id _ _ _ _ Hi). split; [done|]. apply (ni_name _ _ _ _ Hi).
Qed.

Lemma confirm_inv fv won n t r p :
  node_inv fv won n r → p ∈ confirm_calls n t r → packet_inv fv won p.
Proof.
  intros Hi Hp. unfold confirm_calls, confirm_requests in Hp.
  destruct (bool_decide (state r ≠ Leader) || negb (currentTerm r =? t)) eqn:Hc;
    [by apply elem_of_nil in Hp|].
  apply orb_false_iff in Hc as [Hs Ht]. apply bool_decide_eq_false, dec_stable in Hs.
  apply negb_false_iff, Z.eqb_eq in Ht.
  apply list_elem_of_In, in_flat_map in Hp as (q & Hq & Hp).
  apply in_map_iff in Hq as (peer & <- & _). apply list_elem_of_In in Hp.
  apply list_elem_of_fmap in Hp as (req & -> & Hreq%elem_of_to_list).
  apply with_connection_Ok in Hreq as ->. simpl. rewrite (ni_id _ _ _ _ Hi), <- Ht.
  split; [by apply (ni_leader _ _ _ _ Hi)|constructor].
Qed.

(** The calls for votes a step adds. *)
Definition calls_from (r r' : Raft) (ch : change) : Prop :=
  ∀ c, c ∈ campaigns r' → c ∈ campaigns r ∨
    (ch = CCampaign ∧ c = (currentTerm r', lastLogIndex r, lastLogTerm r)).

(** A delivered call: the change of the callee, and the response. *)
Lemma call_step fv won src dst msg tracked r resp r' :
  net_inv M fv won (mkNet {[dst := r]} [Call src dst msg tracked]) →
  handleRPC msg r = (resp, r') →
  ∃ ch, node_id r' = node_id r ∧ election_step r r' ch ∧ calls_from r r' ch ∧
    change_ok fv won dst (currentTerm r') ch ∧
    (∀ c, ch = CVote c → ∃ req, msg = MRequestVote req ∧ c = CandidateId req ∧
       VoteGranted (processRequestVote req r).1 = true) ∧
    (∀ fv' won', (∀ c, ch = CVote c → counted fv' won' dst (currentTerm r') c) →
       ∀ p, p ∈ map (Return src) (response dst msg resp) → packet_inv fv' won' p).
Proof.
  intros (Hn & Hs & Hw) He.
  pose proof (Hn dst r (lookup_singleton_eq _ _)) as Hi.
  pose proof (Hs _ (list_elem_of_here _ _)) as Hpk. clear Hn Hs.
  pose proof (ni_plain _ _ _ _ Hi) as Hpl.
  destruct msg; simpl in Hpk; try done; simpl in He.
  - injection He as <- <-. exists CNone. split_and!; [done|by constructor|by left|done|done|].
    intros fv' won' _ p Hp. by apply list_elem_of_singleton in Hp as ->.
  - destruct Hpk as [Hc Hne]. destruct (processRequestVote_step req r) as (ch & [Si Sp Sc Scc] & Ht & Hg).
    destruct (processRequestVote req r) as [rsp r1] eqn:Hrv; simpl in *. injection He as <- <-.
    exists ch. split_and!; [done|done|done| | |].
    + destruct (VoteGranted rsp); [by subst|]. by destruct Hg as [-> | ->].
    + intros c ->. exists req. rewrite Hrv. simpl. destruct (VoteGranted rsp).
      * by injection Hg as ->.
      * by destruct Hg.
    + intros fv' won' Hv p Hp. apply list_elem_of_singleton in Hp as ->. simpl.
      intros Hgr. rewrite Hgr in Hg. rewrite Ht. apply Hv. by rewrite Hg, Hc.
  - destruct Hpk as [Hl Hes]. destruct (processAppendEntries_step req r Hpl Hes)
      as (ch & [Si Sp Sc Scc] & Hch).
    destruct (processAppendEntries req r) as [rsp r1]; simpl in *. injection He as <- <-.
    exists ch. split_and!; [done|done|done| | |].
    + destruct Hch as [-> |[-> Ht]]; [done|]. simpl. by rewrite Ht.
    + intros c ->. by destruct Hch as [?|[? _]].
    + intros fv' won' _ p Hp. by apply list_elem_of_singleton in Hp as ->.
  - destruct (processInstallSnapshot_step req r Hpl) as (ch & [Si Sp Sc Scc] & Hch).
    destruct (processInstallSnapshot req r) as [rsp r1]; simpl in *. injection He as <- <-.
    exists ch. split_and!; [done|done|done| | |].
    + destruct Hch as [-> |[-> Ht]]; [done|]. simpl. by rewrite Ht.
    + intros c ->. by destruct Hch as [?|[? _]].
    + intros fv' won' _ p Hp. destruct (_ || _); [|by apply elem_of_nil in Hp].
      by apply list_elem_of_singleton in Hp as ->.
Qed.

(** A delivered response. *)
Lemma return_step fv won dst msg r resp r' :
  node_inv fv won dst r → packet_inv fv won (Return dst msg) →
  handleRPC msg r = (resp, r') →
  ∃ ch, node_id r' = node_id r ∧ election_step r r' ch ∧ calls_from r r' ch ∧
    change_ok fv won dst (currentTerm r') ch ∧ (∀ c, ch ≠ CVote c).
Proof.
  intros Hi Hpk He. pose proof (ni_plain _ _ _ _ Hi) as Hpl.
  destruct msg as [| | | |v rsp|v rsp|v rsp|v rsp]; simpl in Hpk; try done;
    simpl in He; injection He as <- <-.
  - destruct (processPreVoteResponse_step v rsp r) as (ch & [Si Sp Sc Scc] & [-> | ->]); eauto 7.
  - destruct (processRequestVoteResponse_step v rsp r) as (ch & [Si Sp Sc Scc] & Hch).
    exists ch. split_and!; [done|done|done| |by destruct Hch as [-> |[-> |[-> _]]]].
    destruct Hch as [-> |[-> |(-> & Ht & Hg)]]; [done|done|]. simpl.
    inversion Sc as [| | | | |p Hs1 Ht1 Hv1 Hr1 Hc1]; subst. rewrite Ht1, <- Ht. by apply Hpk.
  - destruct (processAppendEntriesResponse_step v rsp r Hpl) as (ch & [Si Sp Sc Scc] & [-> | ->]);
      eauto 7.
  - destruct (processInstallSnapshotResponse_step v rsp r) as (ch & [Si Sp Sc Scc] & [-> | ->]);
      eauto 7.
Qed.

Lemma net_step_inv fv won s s' :
  net_inv M fv won s → steady M s → net_step s s' → steady M s' →
  ∃ fv' won', won ⊆ won' ∧ net_inv M fv' won' s'.
Proof.
  intros Hinv Hst Hstep Hst'. pose proof Hinv as (Hn & Hs & Hw).
  destruct Hstep as [n r ev out r' Hr Hl He|n r e Hr He|n r t Hr
                    |src dst msg tracked r resp r' Hp Hr He|dst msg r resp r' Hp Hr He].
  - assert (Hpl : plain_log r').
    { assert (Hl' : steady_node M r')
        by (apply (map_Forall_lookup_1 _ _ n _ Hst'); simpl; apply lookup_insert_eq).
      apply Hl'. }
    destruct (local_step ev r) as (ch & Hid & Hes & Hch & _).
    + intros cmd ch' -> i t. simpl in Hl. destruct Hl as (op & key & val & cl & rq & Hc).
      by eapply proposed_plain.
    + by intros msg ->.
    + apply (ni_plain _ _ _ _ (Hn _ _ Hr)).
    + rewrite He in *. simpl in *.
      apply (net_inv_keeps fv won s n r r' ch); try done.
      * by destruct Hch as [-> | ->].
      * intros fv' won' Hg Hi _ p Hpin. eapply packet_inv_grows; [exact Hg|].
        by eapply calls_inv; [apply Hn|..].
  - exists fv, won. split; [done|]. apply net_inv_send; [done|].
    intros p. apply goroutine_inv. by apply Hn.
  - exists fv, won. split; [done|]. apply net_inv_send; [done|].
    intros p. apply confirm_inv. by apply Hn.
  - destruct (call_step fv won src dst msg tracked r resp r') as (ch & Hid & Hes & _ & Hok & _ & Hret);
      [split_and!; [| |done]|done|].
    { intros m rm. simpl. rewrite lookup_singleton_Some. intros [<- <-]. by apply Hn. }
    { intros p Hin. simpl in Hin. apply list_elem_of_singleton in Hin as ->. by apply Hs. }
    apply (net_inv_keeps fv won s dst r r' ch); try done.
    + assert (Hl' : steady_node M r')
        by (apply (map_Forall_lookup_1 _ _ dst _ Hst'); simpl; apply lookup_insert_eq).
      apply Hl'.
    + intros fv' won' Hg Hi Hv p Hpin. destruct tracked; [|by apply elem_of_nil in Hpin].
      by eapply Hret.
  - destruct (return_step fv won dst msg r resp r') as (ch & Hid & Hes & _ & Hok & Hv);
      [by apply Hn|by apply Hs|done|].
    rewrite <- (app_nil_r (soup s)).
    apply (net_inv_keeps fv won s dst r r' ch); try done.
    + assert (Hl' : steady_node M r')
        by (apply (map_Forall_lookup_1 _ _ dst _ Hst'); simpl; apply lookup_insert_eq).
      apply Hl'.
    + intros fv' won' _ _ _ p Hpin. by apply elem_of_nil in Hpin.
Qed.

Lemma runs_inv fv won s s' :
  net_inv M fv won s → runs (steady M) s s' →
  steady M s' ∧ ∃ fv' won', won ⊆ won' ∧ net_inv M fv' won' s'.
Proof.
  intros Hinv Hrun. induction Hrun as [s Hst|s1 s2 s3 Hrun IH Hstep Hst]; [eauto|].
  destruct (IH Hinv) as (Hst2 & fv2 & won2 & Hsub & Hinv2).
  destruct (net_step_inv fv2 won2 s2 s3 Hinv2 Hst2 Hstep Hst) as (fv3 & won3 & Hsub' & Hinv3).
  split; [done|]. exists fv3, won3. split; [set_solver|done].
Qed.

Lemma fresh_inv s : fresh_cluster s → net_inv M ∅ ∅ s.
Proof.
  intros [Hs Hn]. split_and!.
  - intros n r Hr. apply (map_Forall_lookup_1 _ _ _ _ Hn) in Hr as (Hi & Hne & Hst & Hv & Hl & _).
    split; try done.
    + unfold plain_log. by rewrite Hl.
    + rewrite lookup_empty. by left.
    + by rewrite Hst.
    + by rewrite Hst.
  - rewrite Hs. intros p Hp. by apply elem_of_nil in Hp.
  - intros t c Hc. set_solver.
Qed.
End Network.

(** C1. Election safety.  Start a cluster with an odd number of members, let
    the nodes run, propose, replicate, install snapshots, lose, duplicate and
    reorder messages, time out and campaign in any order: while the membership
    does not change, no two nodes ever lead the same term, neither at the same
    time nor one after the other. *)
Theorem election_safety `{!ProtoCodec} `{!Dialer} M s0 s1 s2 a b t :
  Z.odd (Z.of_nat (size M)) = true →
  fresh_cluster s0 → runs (steady M) s0 s1 → runs (steady M) s1 s2 →
  leads s1 a t → leads s2 b t → a = b.
Proof.
  intros Hodd Hf H1 H2 (ra & Ha & Hsa & Hta) (rb & Hb & Hsb & Htb).
  destruct (runs_inv M Hodd _ _ _ _ (fresh_inv M Hodd s0 Hf) H1) as (_ & fv1 & won1 & _ & Hi1).
  destruct (runs_inv M Hodd _ _ _ _ Hi1 H2) as (_ & fv2 & won2 & Hsub & Hi2).
  pose proof Hi2 as (Hn2 & _ & Hw2).
  apply (won_inv_unique M fv2 won2 t); [done| |].
  - apply Hsub. rewrite <- Hta. apply (proj1 Hi1 _ _ Ha). done.
  - rewrite <- Htb. by apply (Hn2 _ _ Hb).
Qed.

(** A run: "n1" is elected by "n3", then writes a key. *)
Definition trio_net : Net := mkNet trio [].
Definition elect_n1 : list Action :=
  [ATimer "n1"; ASpawn "n1" 0; ADeliver 0; ADeliver 1; ASpawn "n1" 2; ADeliver 2; ADeliver 3].
Definition write_n1 : list Action :=
  [APut "n1" "k" "v" "c" 1 0; AReplicate "n1" "n3"; ADeliver 4; ADeliver 5].
Definition after (l : list Action) (s : Net) : Net := default s (exec trio_members l s).
Definition elected : Net := after elect_n1 trio_net.
Definition written : Net := after write_n1 elected.

Example election_safety_witness :
  leads elected "n1" 1 ∧ leads written "n1" 1 ∧ "n1" = "n1".
Proof.
  assert (H1 : leads elected "n1" 1).
  { exists (default no_node (nodes elected !! "n1")). split_and!; vm_compute; reflexivity. }
  assert (H2 : leads written "n1" 1).
  { exists (default no_node (nodes written !! "n1")). split_and!; vm_compute; reflexivity. }
  split; [exact H1|]. split; [exact H2|].
  apply (election_safety trio_members trio_net elected written "n1" "n1" 1);
    [vm_compute; reflexivity| | | |exact H1|exact H2].
  - split; [reflexivity|]. apply (bool_decide_unpack _). vm_compute. exact I.
  - apply (exec_runs trio_members elect_n1). vm_compute. reflexivity.
  - apply (exec_runs trio_members write_n1). vm_compute. reflexivity.
Defined.
