(* ===== verification/JsonArray.v ===== *)
(** * JSON arrays of strings

    Slices of strings in the texts of [encoding/json], and that what
    [Marshal] writes of a slice is read back. *)

From S2P Require Import Prelude Types Config Json JsonFacts.

(** The JSON text of a slice. *)
Fixpoint join_values (l : list bytes) : bytes :=
  match l with
  | [] => []
  | [v] => v
  | v :: l => v ++ ","%byte :: join_values l
  end.
Definition marshal_array (l : list bytes) : bytes :=
  "["%byte :: join_values l ++ ["]"%byte].

(** The elements of an array. *)
Fixpoint read_elements (fuel : nat) (s : bytes) : option (list bytes) :=
  match fuel with
  | O => None
  | S f =>
      r ← skip_value (S (length s)) s;
      let v := take (length s - length r) s in
      match skip_ws r with
      | "]"%byte :: _ => Some [v]
      | ","%byte :: r => l ← read_elements f (skip_ws r); Some (v :: l)
      | _ => None
      end
  end.
Definition array_elements (v : bytes) : option (list bytes) :=
  match v with
  | "["%byte :: s =>
      match skip_ws s with
      | "]"%byte :: _ => Some []
      | s' => read_elements (S (length s')) s'
      end
  | _ => None
  end.

(** A [[]string] field: [null] makes it nil; the element at a place the slice
    had keeps its old value when it is [null]. *)
Fixpoint dec_elements (old : list string) (l : list bytes) : option (list string) :=
  match l with
  | [] => Some []
  | v :: l =>
      x ← dec_string (default "" (head old)) v;
      xs ← dec_elements (tail old) l; Some (x :: xs)
  end.
Definition dec_strings (old : option (list string)) (v : bytes)
    : option (option (list string)) :=
  if is_null v then Some None
  else l ← array_elements v; xs ← dec_elements (default [] old) l; Some (Some xs).


(** ** Round trip *)

Lemma join_values_cons v l rest :
  join_values (v :: l) ++ rest =
    v ++ match l with [] => rest | _ => ","%byte :: join_values l ++ rest end.
Proof. destruct l; [done|]. cbn [join_values]. by rewrite <- app_assoc. Qed.

Lemma join_values_start v l rest :
  value_text v → skip_ws (join_values (v :: l) ++ rest) = join_values (v :: l) ++ rest.
Proof. intros Hv. rewrite join_values_cons. by apply skip_ws_value. Qed.

Lemma length_join_values v l :
  (length v + match l with [] => 0 | _ => S (length (join_values l)) end)%nat
    = length (join_values (v :: l)).
Proof. destruct l; [simpl; lia|]. cbn [join_values]. rewrite length_app. done. Qed.

Lemma value_not_bracket v rest : value_text v → ∀ r, v ++ rest ≠ "]"%byte :: r.
Proof.
  intros [(b & v' & -> & Hb) Hs] r H. injection H as -> _.
  specialize (Hs (S (S (length v'))) [] ltac:(simpl; lia) I). by rewrite app_nil_r in Hs.
Qed.

Lemma skip_elements_text v l f rest :
  Forall value_text (v :: l) → (S (length (join_values (v :: l))) < f)%nat →
  skip_elements f (join_values (v :: l) ++ "]"%byte :: rest) = Some rest.
Proof.
  revert v f. induction l as [|v' l IH]; intros v f Hl Hf;
    apply Forall_cons in Hl as [Hv Hl]; rewrite <- length_join_values in Hf; cbn match in Hf;
    rewrite join_values_cons; (destruct f as [|f]; [lia|]); cbn [skip_elements].
  - by rewrite (vt_scan v Hv) by (simpl; auto; lia).
  - rewrite (vt_scan v Hv) by (simpl; auto; lia). cbn [mbind option_bind skip_ws is_ws].
    rewrite join_values_start by by apply Forall_inv in Hl. apply IH; [done|lia].
Qed.

Lemma value_text_array l : Forall value_text l → value_text (marshal_array l).
Proof.
  intros Hl. split; [by eexists _, _|]. intros [|f] rest Hf _; [simpl in Hf; lia|].
  unfold marshal_array in *. cbn [length app] in *. rewrite length_app in Hf. simpl in Hf.
  destruct l as [|v l]; [done|].
  rewrite <- (assoc_L (++)). cbn [app]. cbn [skip_value].
  rewrite join_values_start by by apply Forall_inv in Hl.
  pose proof (skip_elements_text v l f rest Hl ltac:(lia)) as Hs.
  destruct (join_values (v :: l) ++ "]"%byte :: rest) as [|b s] eqn:Heq; [done|].
  destruct (decide (b = "]"%byte)) as [->|Hb].
  - exfalso. rewrite join_values_cons in Heq.
    by eapply value_not_bracket, Heq; apply Forall_inv in Hl.
  - rewrite <- Hs. by destruct b.
Qed.

Lemma read_elements_text v l f rest :
  Forall value_text (v :: l) → (length (join_values (v :: l)) < f)%nat →
  read_elements f (join_values (v :: l) ++ "]"%byte :: rest) = Some (v :: l).
Proof.
  revert v f. induction l as [|v' l IH]; intros v f Hl Hf;
    apply Forall_cons in Hl as [Hv Hl]; rewrite <- length_join_values in Hf; cbn match in Hf;
    rewrite join_values_cons; (destruct f as [|f]; [lia|]); cbn [read_elements];
    rewrite (vt_scan v Hv) by (rewrite ?length_app; simpl; auto; lia);
    cbn [mbind option_bind]; rewrite take_app_sub.
  - done.
  - cbn [skip_ws is_ws].
    rewrite join_values_start by by apply Forall_inv in Hl. rewrite IH; [done|done|lia].
Qed.

Lemma array_elements_marshal l :
  Forall value_text l → array_elements (marshal_array l) = Some l.
Proof.
  intros Hl. unfold array_elements, marshal_array. destruct l as [|v l]; [done|].
  rewrite join_values_start by by apply Forall_inv in Hl.
  pose proof (read_elements_text v l (S (length (join_values (v :: l) ++ ["]"%byte]))) [] Hl
    ltac:(rewrite length_app; lia)) as Hr.
  destruct (join_values (v :: l) ++ ["]"%byte]) as [|b s] eqn:Heq; [done|].
  destruct (decide (b = "]"%byte)) as [->|Hb].
  - exfalso. rewrite join_values_cons in Heq.
    by eapply value_not_bracket, Heq; apply Forall_inv in Hl.
  - rewrite <- Hr. by destruct b.
Qed.

Lemma dec_strings_marshal old l :
  Forall utf8_string l → dec_strings old (marshal_array (map quote l)) = Some (Some l).
Proof.
  intros Hl. unfold dec_strings. rewrite array_elements_marshal.
  2:{ apply Forall_map, Forall_true. intros. apply value_text_quote. }
  simpl is_null. cbn [mbind option_bind]. generalize (default [] old). intros o.
  enough (dec_elements o (map quote l) = Some l) as -> by done.
  revert o. induction Hl as [|x l Hx _ IH]; intros o; [done|].
  cbn [map dec_elements]. by rewrite dec_string_quote, IH.
Qed.
