(* ===== verification/GoFloat.v ===== *)
(** * Floating point numbers

    The [float64] arithmetic of the rate limiter and the metrics: IEEE 754
    binary64 with rounding to nearest even, on the reference implementation of
    the Standard Library. *)

From Stdlib Require Import SpecFloat.
From S2P Require Import Prelude.

(** [float64]: 53 bits of precision, exponents below 1024. *)
Abbreviation float64 := spec_float.
#[export] Instance float64_eq_dec : EqDecision float64.
Proof. solve_decision. Defined.
Definition float_of_Z (z : Z) : float64 := binary_normalize 53 1024 z 0 false.
Definition float_add : float64 → float64 → float64 := SFadd 53 1024.
Definition float_sub : float64 → float64 → float64 := SFsub 53 1024.
Definition float_mul : float64 → float64 → float64 := SFmul 53 1024.
Definition float_div : float64 → float64 → float64 := SFdiv 53 1024.

(** [time.Duration.Seconds] *)
Definition Seconds (d : Z) : float64 :=
  float_add (float_of_Z (Z.quot d 1000000000))
    (float_div (float_of_Z (Z.rem d 1000000000)) (float_of_Z 1000000000)).

(** The value of a literal such as 0.1, correctly rounded. *)
Definition decimal (num den : Z) : float64 := float_div (float_of_Z num) (float_of_Z den).
