(* ===== verification/GoStrings.v ===== *)
(** * Strings, numbers in text and URL queries

    What the HTTP layers use of the packages [strings], [strconv], [fmt] and
    [net/url].  A Go string is a sequence of bytes, here a [string]. *)

From Stdlib Require Import Ascii.
From S2P Require Import Prelude Types Config Json.

(** The double quote, and a text between two of them. *)
Definition dq : string := of_bytes [x22].
Definition dquoted (s : string) : string := dq +:+ s +:+ dq.

(** ** Package [strings] *)

Definition HasPrefix (s prefix : string) : bool := String.prefix prefix s.

Fixpoint drop_chars (n : nat) (s : string) : string :=
  match n, s with
  | S n, String _ s => drop_chars n s
  | _, _ => s
  end.

Definition TrimPrefix (s prefix : string) : string :=
  if HasPrefix s prefix then drop_chars (String.length prefix) s else s.

(** [strings.Cut] at a separator of one character: the text before it and
    the text after it, when it is there. *)
Fixpoint Cut (c : ascii) (s : string) : option (string * string) :=
  match s with
  | EmptyString => None
  | String a s =>
      if bool_decide (a = c) then Some ("", s)
      else p ← Cut c s; Some (String a p.1, p.2)
  end.

(** The text before the last separator ([strings.LastIndex]). *)
Fixpoint before_last (c : ascii) (s : string) : option string :=
  match s with
  | EmptyString => None
  | String a s =>
      match before_last c s with
      | Some p => Some (String a p)
      | None => if bool_decide (a = c) then Some "" else None
      end
  end.

(** [strings.Split] at a separator of one character; the text has at least
    one part. *)
Fixpoint split_at (c : ascii) (s : string) : string * list string :=
  match s with
  | EmptyString => ("", [])
  | String a s =>
      let '(p, l) := split_at c s in
      if bool_decide (a = c) then ("", p :: l) else (String a p, l)
  end.

Definition Split (s : string) (c : ascii) : list string :=
  let '(p, l) := split_at c s in p :: l.

(** [strings.SplitN(s, c, 2)]. *)
Definition SplitN2 (s : string) (c : ascii) : list string :=
  match Cut c s with Some (a, b) => [a; b] | None => [s] end.

(** The UTF-8 texts of the characters [unicode.IsSpace] accepts, the line feed
    apart. *)
Definition spaces : list bytes :=
  ([[x09]; [x0b]; [x0c]; [x0d]; [x20]; [xc2; x85]; [xc2; xa0]; [xe1; x9a; x80];
    [xe2; x80; xa8]; [xe2; x80; xa9]; [xe2; x80; xaf]; [xe2; x81; x9f]; [xe3; x80; x80]]
   ++ map (λ b, [xe2; x80; b])
        [x80; x81; x82; x83; x84; x85; x86; x87; x88; x89; x8a])%byte.

(** The text after one of the characters [l]. *)
Fixpoint after_one (l : list bytes) (s : bytes) : option bytes :=
  match l with
  | [] => None
  | p :: l =>
      if bool_decide (take (length p) s = p) then Some (drop (length p) s)
      else after_one l s
  end.

(** The text after the characters [l] at its front; each turn drops a byte or
    more, so the length of the text is enough fuel. *)
Fixpoint after_all (fuel : nat) (l : list bytes) (s : bytes) : bytes :=
  match fuel with
  | O => s
  | S f => match after_one l s with Some s' => after_all f l s' | None => s end
  end.

Definition trim_front (l : list bytes) (s : bytes) : bytes := after_all (length s) l s.

(** [strings.TrimSpace]. *)
Definition TrimSpace (s : string) : string :=
  let all := [x0a] :: spaces in
  let front := trim_front all (to_bytes s) in
  of_bytes (rev (trim_front (map (@rev byte) all) (rev front))).

(** ** Numbers *)

(** [strconv.FormatInt(z, 10)]: also what [%d] writes. *)
Definition FormatInt (z : Z) : string := of_bytes (marshal_int z).

Fixpoint take_digits (s : bytes) : bytes :=
  match s with
  | b :: s' => if is_digit b then b :: take_digits s' else []
  | [] => []
  end.

(** [fmt.Sscanf(s, d, &x)] with the verb for a decimal [int64]: white space, but no
    line feed, a sign, digits; the text after them is not read.  [None] is an
    error, which leaves the variable as it was. *)
Fixpoint skip_blanks (fuel : nat) (s : bytes) : option bytes :=
  match fuel with
  | O => Some s
  | S f =>
      match s with
      | x0d :: x0a :: s' => None
      | x0a :: s' => None
      | _ =>
          match after_one spaces s with
          | Some s' => skip_blanks f s'
          | None => Some s
          end
      end
  end%byte.

Definition Sscanf_d (s : string) : option Z :=
  t ← skip_blanks (String.length s) (to_bytes s);
  let '(neg, t) :=
    match t with
    | "-" :: t => (true, t)
    | "+" :: t => (false, t)
    | _ => (false, t)
    end%byte in
  match take_digits t with
  | [] => None
  | ds => parse_int (if neg then "-"%byte :: ds else ds)
  end.

(** ** Package [net/url] *)

(** [url.QueryUnescape]; [None] is an error. *)
Fixpoint unescape (s : bytes) : option bytes :=
  match s with
  | [] => Some []
  | "%" :: s' =>
      match s' with
      | a :: b :: s'' =>
          if is_hex a && is_hex b then
            t ← unescape s''; Some (Z_to_byte (hex_val a * 16 + hex_val b) :: t)
          else None
      | _ => None
      end
  | "+" :: s' => t ← unescape s'; Some (x20 :: t)
  | b :: s' => t ← unescape s'; Some (b :: t)
  end%byte.

Definition QueryUnescape (s : string) : option string :=
  t ← unescape (to_bytes s); Some (of_bytes t).

(** The pairs of a query; a part that does not parse is left out. *)
Definition query_pair (part : string) : option (string * string) :=
  if bool_decide (part = "") || bool_decide (is_Some (Cut ";" part)) then None
  else
    let '(k, v) := default (part, "") (Cut "=" part) in
    k ← QueryUnescape k; v ← QueryUnescape v; Some (k, v).

Definition parseQuery (query : string) : list (string * string) :=
  omap query_pair (Split query "&").

(** [Values.Get]: the first value of the key. *)
Definition query_get (l : list (string * string)) (key : string) : string :=
  match filter (λ kv, kv.1 = key) l with
  | (_, v) :: _ => v
  | [] => ""
  end.

(** [url.URL.EscapedPath] of a decoded path: all but the letters, the digits
    and the characters RFC 3986 allows in a path is escaped. *)
Definition path_safe (b : byte) : bool :=
  is_digit b || in_range 65 90 b || in_range 97 122 b
  || match b with
     | "-" | "_" | "." | "~" | "$" | "&" | "+" | "," | "/" | ":" | ";" | "=" | "@" => true
     | _ => false
     end%byte.
Definition upper_hex (n : Z) : byte := if n <? 10 then Z_to_byte (48 + n) else Z_to_byte (55 + n).
Definition escape_path (path : string) : string :=
  of_bytes (mjoin (map (λ b,
    if path_safe b then [b]
    else ["%"%byte; upper_hex (byte_to_Z b / 16); upper_hex (byte_to_Z b mod 16)])
    (to_bytes path))).

Example escape_example : escape_path "/kv/a b?" = "/kv/a%20b%3F" := eq_refl.
Example sscanf_sign : Sscanf_d "  +42abc" = Some 42 := eq_refl.
Example sscanf_wide : Sscanf_d "9223372036854775808" = None := eq_refl.
Example query_example :
  query_get (parseQuery "request_id=7&client_id=a%2Fb+c") "client_id" = "a/b c".
Proof. vm_compute. reflexivity. Qed.
Example trim_example : TrimSpace "  n1:80 " = "n1:80" := eq_refl.
