(* ===== verification/Http.v ===== *)
(** * What the program uses of [net/http]

    Headers, requests, the response writer, the request multiplexer, and a
    small monad for handlers: a handler is a tree of calls to the rest of the
    program, each continued by its answer, so that what happens between two
    calls is left open.  [outcomes] says what holds at every end of a handler
    whatever the answers are; [serve] runs it against given ones.

    - The keys of a header are kept in canonical form, as the server and the
      methods of [Header] keep them.
    - A response whose handler wrote nothing is sent with status 200; the
      content type [net/http] guesses when the handler sets none is left out.
    - The multiplexer's own redirects are sent without their [Location]. *)

From Stdlib Require Import Ascii.
From S2P Require Import Prelude Types Config Json.
From S2P Require Import GoStrings.

(** ** Handlers *)

(** The calls a handler makes, what each answers, and what is recorded of a
    call and its answer. *)
Class Calls := {
  Call : Type;
  Answer : Call → Type;
  Obs : Type;
  obs (c : Call) : Answer c → Obs
}.
Arguments Call : clear implicits.
Arguments Obs : clear implicits.

Section Prog.
Context {C : Calls}.

Inductive prog (A : Type) : Type :=
| Done (a : A)
| Ask (c : Call C) (k : Answer c → prog A).

Definition ask (c : Call C) : prog (Answer c) := Ask _ c (λ x, Done _ x).

Fixpoint prog_bind {A B} (f : A → prog B) (p : prog A) : prog B :=
  match p with
  | Done _ a => f a
  | Ask _ c k => Ask _ c (λ x, prog_bind f (k x))
  end.

(** [Q] holds of the calls made and of the result, whatever the answers;
    [tr] are the calls made before. *)
Fixpoint outcomes {A} (p : prog A) (tr : list (Obs C)) (Q : list (Obs C) → A → Prop) : Prop :=
  match p with
  | Done _ a => Q tr a
  | Ask _ c k => ∀ x, outcomes (k x) (tr ++ [obs c x]) Q
  end.

(** Every call made satisfies [P], whatever the answers. *)
Fixpoint all_obs {A} (P : Obs C → Prop) (p : prog A) : Prop :=
  match p with
  | Done _ _ => True
  | Ask _ c k => ∀ x, P (obs c x) ∧ all_obs P (k x)
  end.

(** A run against a component with a state. *)
Fixpoint serve {S A} (h : ∀ c : Call C, S → Answer c * S) (p : prog A) (s : S)
    : A * list (Obs C) * S :=
  match p with
  | Done _ a => (a, [], s)
  | Ask _ c k =>
      let '(x, s) := h c s in
      let '(a, tr, s) := serve h (k x) s in (a, obs c x :: tr, s)
  end.

Lemma outcomes_mono {A} (p : prog A) tr (Q Q' : list (Obs C) → A → Prop) :
  (∀ tr a, Q tr a → Q' tr a) → outcomes p tr Q → outcomes p tr Q'.
Proof.
  intros HQ. revert tr. induction p as [a|c k IH]; intros tr; simpl; [by apply HQ|].
  intros H x. apply IH, H.
Qed.

Lemma outcomes_bind {A B} (p : prog A) (f : A → prog B) tr Q :
  outcomes (prog_bind f p) tr Q ↔ outcomes p tr (λ tr a, outcomes (f a) tr Q).
Proof.
  revert tr. induction p as [a|c k IH]; intros tr; simpl; [done|].
  split; intros H x; by apply IH, H.
Qed.

Lemma all_obs_bind {A B} P (p : prog A) (f : A → prog B) :
  all_obs P p → (∀ a, all_obs P (f a)) → all_obs P (prog_bind f p).
Proof.
  intros Hp Hf. induction p as [a|c k IH]; simpl in *; [done|].
  intros x. destruct (Hp x). auto.
Qed.

Lemma outcomes_all_obs {A} P (p : prog A) tr :
  Forall P tr → all_obs P p → outcomes p tr (λ tr _, Forall P tr).
Proof.
  revert tr. induction p as [a|c k IH]; intros tr Ht; simpl; [done|].
  intros H x. destruct (H x). apply IH; [|done]. apply Forall_app; auto.
Qed.

(** A run is one of the outcomes. *)
Lemma outcomes_serve {S A} (h : ∀ c : Call C, S → Answer c * S) (p : prog A) s Q tr :
  outcomes p tr Q → let '(a, tr', _) := serve h p s in Q (tr ++ tr') a.
Proof.
  revert s tr. induction p as [a|c k IH]; intros s tr H; simpl in *; [by rewrite app_nil_r|].
  destruct (h c s) as [x s']. specialize (IH x s' _ (H x)).
  destruct (serve h (k x) s') as [[a tr'] s'']. by rewrite <- app_assoc in IH.
Qed.
End Prog.

Arguments Done {_ _}.
Arguments Ask {_ _}.
#[export] Instance prog_ret `{Calls} : MRet prog := λ A, Done.
#[export] Instance prog_mbind `{Calls} : MBind prog := λ A B, prog_bind.

(** ** Headers *)

Definition ascii_between (lo hi a : ascii) : bool :=
  (N_of_ascii lo <=? N_of_ascii a)%N && (N_of_ascii a <=? N_of_ascii hi)%N.
Definition shift_case (up : bool) (a : ascii) : ascii :=
  if up then
    if ascii_between "a" "z" a then ascii_of_N (N_of_ascii a - 32) else a
  else
    if ascii_between "A" "Z" a then ascii_of_N (N_of_ascii a + 32) else a.

(** [textproto.CanonicalMIMEHeaderKey] on a key of letters and hyphens. *)
Fixpoint canonical_from (up : bool) (s : string) : string :=
  match s with
  | EmptyString => EmptyString
  | String a s => String (shift_case up a) (canonical_from (bool_decide (a = "-"%char)) s)
  end.
Definition canonical (key : string) : string := canonical_from true key.

Abbreviation Header := (gmap string (list string)).

(** [Header.Get], [Header.Set], [Header.Add]. *)
Definition header_get (h : Header) (key : string) : string :=
  match h !! canonical key with Some (v :: _) => v | _ => "" end.
Definition header_set (key v : string) (h : Header) : Header := <[canonical key := [v]]> h.
Definition header_add (key v : string) (h : Header) : Header :=
  <[canonical key := default [] (h !! canonical key) ++ [v]]> h.

(** ** Requests *)

(** [http.Request]; the body is the bytes it yields and the error that
    follows them, if any.  [URL_EscapedPath] is the path as it was sent,
    [URL_Path] its decoding. *)
Record Request := mkRequest {
  rq_Method : string;
  URL_EscapedPath : string;
  URL_Path : string;
  URL_RawQuery : string;
  rq_Header : Header;
  rq_RemoteAddr : string;
  rq_Body : bytes;
  rq_BodyErr : option string
}.

(** [io.ReadAll(r.Body)]: what was read, and the error. *)
Definition ReadAll (r : Request) : bytes * option string := (rq_Body r, rq_BodyErr r).

(** [io.ReadAll(io.LimitReader(r.Body, n))]: after [n] bytes the reader ends. *)
Definition ReadLimited (n : nat) (r : Request) : bytes * option string :=
  if bool_decide (length (rq_Body r) < n)%nat then ReadAll r
  else (take n (rq_Body r), None).

(** [json.NewDecoder(body).Decode]: the first value of the body, the rest is
    not read.  The decoder sees the end of an object or an array by
    itself; after another value it reads on, and an error of the body there
    is an error. *)
Definition first_value (s : bytes) (err : option string) : option bytes :=
  let s := skip_ws s in
  r ← skip_value (S (length s)) s;
  let v := take (length s - length r) s in
  match v, r, err with
  | "{" :: _, _, _ | "[" :: _, _, _ => Some v
  | _, [], Some _ => None
  | _, _, _ => Some v
  end%byte.

(** ** Responses *)

(** [http.ResponseWriter]: the header map the handler edits, the status and
    the headers sent, and the body. *)
Record ResponseWriter := mkWriter {
  w_header : Header;
  w_sent : option (Z * Header);
  w_body : string
}.
Definition new_writer : ResponseWriter := mkWriter ∅ None "".

Definition set_header (key v : string) (w : ResponseWriter) : ResponseWriter :=
  mkWriter (header_set key v (w_header w)) (w_sent w) (w_body w).
Definition add_header (key v : string) (w : ResponseWriter) : ResponseWriter :=
  mkWriter (header_add key v (w_header w)) (w_sent w) (w_body w).

(** Only the first status counts, with the headers set until then. *)
Definition WriteHeader (code : Z) (w : ResponseWriter) : ResponseWriter :=
  match w_sent w with
  | Some _ => w
  | None => mkWriter (w_header w) (Some (code, w_header w)) (w_body w)
  end.
Definition Write (s : string) (w : ResponseWriter) : ResponseWriter :=
  let w := WriteHeader 200 w in mkWriter (w_header w) (w_sent w) (w_body w +:+ s).

(** The line feed at the end of a text. *)
Definition newline : string := of_bytes [x0a].

(** [http.Error] *)
Definition http_Error (error : string) (code : Z) (w : ResponseWriter) : ResponseWriter :=
  let w := set_header "Content-Type" "text/plain; charset=utf-8" w in
  let w := set_header "X-Content-Type-Options" "nosniff" w in
  Write (error +:+ newline) (WriteHeader code w).

(** The response as it leaves the server. *)
Definition status_of (w : ResponseWriter) : Z :=
  match w_sent w with Some (code, _) => code | None => 200 end.
Definition sent_header (w : ResponseWriter) (key : string) : string :=
  match w_sent w with
  | Some (_, h) => header_get h key
  | None => header_get (w_header w) key
  end.

(** ** The multiplexer *)

(** [url.PathUnescape] of a segment; a segment that does not decode is kept. *)
Fixpoint path_unescape (s : bytes) : option bytes :=
  match s with
  | [] => Some []
  | "%" :: s' =>
      match s' with
      | a :: b :: s'' =>
          if is_hex a && is_hex b then
            t ← path_unescape s''; Some (Z_to_byte (hex_val a * 16 + hex_val b) :: t)
          else None
      | _ => None
      end
  | b :: s' => t ← path_unescape s'; Some (b :: t)
  end%byte.
Definition segment (s : string) : string :=
  match path_unescape (to_bytes s) with Some t => of_bytes t | None => s end.

(** The segments of a path that starts with a slash; the last one is empty
    when the path ends with one. *)
Definition raw_segments (path : string) : list string :=
  match Split path "/" with "" :: l => l | l => l end.

(** [path.Clean] on the segments; a trailing slash is kept. *)
Fixpoint clean (kept : list string) (l : list string) : list string :=
  match l with
  | [] => rev kept
  | [""] => rev (match kept with [] => [""] | _ => "" :: kept end)
  | s :: l =>
      if bool_decide (s = "") || bool_decide (s = ".") then clean kept l
      else if bool_decide (s = "..") then clean (tail kept) l
      else clean (s :: kept) l
  end.
Definition clean_path (path : string) : bool :=
  HasPrefix path "/" && bool_decide (clean [] (raw_segments path) = raw_segments path).

(** A pattern that ends with a slash matches every path below it. *)
Definition matches (pattern : list string) (path : list string) : bool :=
  match last pattern with
  | Some "" =>
      let p := removelast pattern in
      bool_decide (take (length p) path = p) && bool_decide (length p < length path)%nat
  | _ => bool_decide (pattern = path)
  end.

Inductive Routed := RoutedTo (pattern : string) | RoutedRedirect | RoutedNowhere.

(** The pattern with the most segments wins. *)
Fixpoint best (path : list string) (patterns : list string) : option string :=
  match patterns with
  | [] => None
  | p :: ps =>
      let ok := matches (raw_segments p) path in
      match best path ps with
      | Some q =>
          if ok && bool_decide (length (raw_segments q) < length (raw_segments p))%nat
          then Some p else Some q
      | None => if ok then Some p else None
      end
  end.

Definition route (patterns : list string) (escapedPath : string) : Routed :=
  let path := map segment (raw_segments escapedPath) in
  if negb (clean_path escapedPath) then RoutedRedirect
  else
    let slash := existsb (λ p, bool_decide (raw_segments p = path ++ [""])) patterns in
    match best path patterns with
    | Some p =>
        if slash && negb (bool_decide (raw_segments p = path)) then RoutedRedirect
        else RoutedTo p
    | None => if slash then RoutedRedirect else RoutedNowhere
    end.

Example canonical_client : canonical "X-Client-ID" = "X-Client-Id" := eq_refl.
Example route_kv : route ["/"; "/kv/"; "/healthz"] "/kv/a" = RoutedTo "/kv/" := eq_refl.
Example route_kv_bare : route ["/"; "/kv/"] "/kv" = RoutedRedirect := eq_refl.
Example route_double : route ["/"; "/kv/"] "/kv//a" = RoutedRedirect := eq_refl.
Example route_root : route ["/"; "/kv/"] "/other" = RoutedTo "/" := eq_refl.
Example route_slash : route ["/"; "/kv/"] "/kv/" = RoutedTo "/kv/" := eq_refl.
Example route_dots : route ["/"; "/kv/"] "/kv/../a" = RoutedRedirect := eq_refl.
