(* ===== verification/Api.v ===== *)
(** * The HTTP API of a node

    [api/api.go].  A handler is a tree of calls to the node ([raft]) and to
    the rate limiter; between two calls the node goes on.  Log lines are left
    out; [RecordRequestMetrics] is a call.  [Start], [Stop] and [Address] only
    open and close the listener. *)

From Stdlib Require Import SpecFloat.
From S2P Require Import Prelude Types Config Json JsonArray Envelope Disk Wal SnapshotStore.
From S2P Require Import Node Roles Election Apply Replication Client.
From S2P Require Import GoFloat GoStrings Http.

Definition MaxKeySize : Z := 1024.
Definition MaxValueSize : Z := 1048576.

(** ** [RateLimiter] *)

Record RateLimiter := mkRateLimiter {
  rate : float64;
  capacity : float64;
  tokens : float64;
  lastRefilled : Z
}.

(** [func NewRateLimiter(rate, capacity float64)], at time [now] *)
Definition NewRateLimiter (rate capacity : float64) (now : Z) : RateLimiter :=
  mkRateLimiter rate capacity capacity now.

(** [func (l RateLimiter) Allow() bool], at time [now] *)
Definition Allow (now : Z) (l : RateLimiter) : bool * RateLimiter :=
  let elapsed := Seconds (now - lastRefilled l) in
  let t := float_add (tokens l) (float_mul elapsed (rate l)) in
  let t := if SFltb (capacity l) t then capacity l else t in
  if SFleb (float_of_Z 1) t
  then (true, mkRateLimiter (rate l) (capacity l) (float_sub t (float_of_Z 1)) now)
  else (false, mkRateLimiter (rate l) (capacity l) t now).

(** ** The server and the calls its handlers make *)

Record Server := mkServer {
  authToken : string;
  adminToken : string;
  allowUnauthenticatedReads : bool
}.

(** [func NewServer(...)]: the server and its limiter. *)
Definition NewServer (authToken adminToken : string) (allowReadsUnauth : bool) (now : Z)
    : Server * RateLimiter :=
  (mkServer authToken adminToken allowReadsUnauth,
   NewRateLimiter (float_of_Z 50) (float_of_Z 100) now).

Inductive ApiCall :=
| CAllow
| CIsLeader
| CGetPeerHTTPAddrs
| CGet (key : string)
| CProposeWithClient (op key val clientID : string) (requestID : Z)
| CProposeConfigChange (req : ConfigChangeRequest)
| CGetStatus
| CGetID
| CMetrics
| CRecord (method : string) (success : bool).

(** The result of a proposal: success, and the error. *)
Definition ProposeResult : Type := bool * option string.

Definition ApiAnswer (c : ApiCall) : Type :=
  match c with
  | CAllow => bool
  | CIsLeader => bool * string
  | CGetPeerHTTPAddrs => gmap string string
  | CGet _ => GetResult
  | CProposeWithClient _ _ _ _ _ | CProposeConfigChange _ => ProposeResult
  | CGetStatus => NodeStatus
  | CGetID => string
  | CMetrics => string
  | CRecord _ _ => unit
  end.

Inductive ApiObs :=
| OAllow (allowed : bool)
| OIsLeader (res : bool * string)
| OGet (key : string) (res : GetResult)
| OPropose (op key val clientID : string) (requestID : Z) (res : ProposeResult)
| OConfigChange (req : ConfigChangeRequest) (res : ProposeResult)
| ORecord (method : string) (success : bool)
| ORead.

Definition api_obs (c : ApiCall) : ApiAnswer c → ApiObs :=
  match c with
  | CAllow => OAllow
  | CIsLeader => OIsLeader
  | CGet key => OGet key
  | CProposeWithClient op key val cl rq => OPropose op key val cl rq
  | CProposeConfigChange req => OConfigChange req
  | CRecord m s => λ _, ORecord m s
  | CGetPeerHTTPAddrs | CGetStatus | CGetID | CMetrics => λ _, ORead
  end.

#[export] Instance api_calls : Calls :=
  {| Call := ApiCall; Answer := ApiAnswer; obs := api_obs |}.

Definition handler : Type := prog ResponseWriter.
Definition call (c : ApiCall) : prog (ApiAnswer c) := ask (C := api_calls) c.

(** The body of an error: the text is written between the quotes as it is. *)
Definition error_json (msg : string) : string :=
  "{" +:+ dquoted "error" +:+ ": " +:+ dquoted msg +:+ "}".
Definition fail (msg : string) (code : Z) (w : ResponseWriter) : handler :=
  mret (http_Error (error_json msg) code w).

(** [json.NewEncoder(w).Encode(v)] *)
Definition Encode (text : bytes) (w : ResponseWriter) : ResponseWriter :=
  Write (of_bytes text +:+ newline) w.
Definition json_header := set_header "Content-Type" "application/json".

(** ** Authentication *)

(** The tail of both checks: [None] when the request carries the token, the
    error otherwise. *)
Definition bearer_error (token invalid : string) (r : Request) : option string :=
  let authHeader := header_get (rq_Header r) "Authorization" in
  if bool_decide (authHeader = "") then Some "unauthorized, missing authorization header"
  else if negb (HasPrefix authHeader "Bearer ") then
    Some "unauthorized, invalid authorization format"
  else if bool_decide (TrimPrefix authHeader "Bearer " ≠ token) then Some invalid
  else None.

(** [func (s Server) authenticate(w, r) bool]: the error it answers with. *)
Definition authenticate (s : Server) (r : Request) : option string :=
  if bool_decide (rq_Method r = "GET") && allowUnauthenticatedReads s then None
  else if bool_decide (authToken s = "") then None
  else bearer_error (authToken s) "unauthorized, invalid token" r.

(** [func (s Server) authenticateAdmin(w, r) bool] *)
Definition authenticateAdmin (s : Server) (r : Request) : option string :=
  let token := if bool_decide (adminToken s = "") then authToken s else adminToken s in
  if bool_decide (token = "") then None
  else bearer_error token "unauthorized, invalid admin token" r.

(** ** Keys and values *)

(** The JSON body of a write. *)
Record KVPayload := mkKVPayload {
  pl_ClientID : string; pl_RequestID : Z; pl_Value : string; pl_Val : string
}.
#[export] Instance eta_KVPayload : Eta KVPayload := λ p,
  mkKVPayload (pl_ClientID p) (pl_RequestID p) (pl_Value p) (pl_Val p).
Definition KVPayload_fields : list (@field_dec KVPayload) :=
  [("client_id", λ p v, x ← dec_string (pl_ClientID p) v; Some (p <| pl_ClientID := x |>));
   ("request_id", λ p v, x ← dec_int (pl_RequestID p) v; Some (p <| pl_RequestID := x |>));
   ("value", λ p v, x ← dec_string (pl_Value p) v; Some (p <| pl_Value := x |>));
   ("val", λ p v, x ← dec_string (pl_Val p) v; Some (p <| pl_Val := x |>))].
Definition unmarshal_KVPayload : bytes → option KVPayload :=
  unmarshal KVPayload_fields (mkKVPayload "" 0 "" "").

(** [fmt.Sscanf(text, d, &requestID)], when the text is there *)
Definition scan_id (text : string) (old : Z) : Z :=
  if bool_decide (text = "") then old else default old (Sscanf_d text).

(** [func extractClientMetadata(r, body)] *)
Definition extractClientMetadata (r : Request) (body : bytes) : string * Z * string :=
  let query := parseQuery (URL_RawQuery r) in
  let clientID := header_get (rq_Header r) "X-Client-ID" in
  let requestID := scan_id (header_get (rq_Header r) "X-Request-ID") 0 in
  let clientID := if bool_decide (clientID = "") then query_get query "client_id"
                  else clientID in
  let requestID := if requestID =? 0 then scan_id (query_get query "request_id") requestID
                   else requestID in
  let value := of_bytes body in
  if bool_decide (body = []) then (clientID, requestID, value)
  else
    match unmarshal_KVPayload body with
    | None => (clientID, requestID, value)
    | Some p =>
        (if bool_decide (pl_ClientID p = "") then clientID else pl_ClientID p,
         if 0 <? pl_RequestID p then pl_RequestID p else requestID,
         if bool_decide (pl_Value p = "") then
           if bool_decide (pl_Val p = "") then value else pl_Val p
         else pl_Value p)
    end.

(** [func (s Server) handleGet(w, key)] *)
Definition handleGet (key : string) (w : ResponseWriter) : handler :=
  '(val, ok, isLeader) ← call (CGet key);
  if negb isLeader then
    _ ← call (CRecord "GET" false); fail "not the leader" 503 w
  else if negb ok then
    _ ← call (CRecord "GET" false); fail "key not found" 404 w
  else
    _ ← call (CRecord "GET" true);
    mret (Encode (marshal_object [("key", quote key); ("value", quote val)]) (json_header w)).

(** The end of [handlePut] and [handleDelete], from the proposal on. *)
Definition propose_write (method op key val clientID : string) (requestID : Z)
    (w : ResponseWriter) : handler :=
  '(ok, err) ← call (CProposeWithClient op key val clientID requestID);
  match err with
  | Some e => _ ← call (CRecord method false); fail e 500 w
  | None =>
      if negb ok then
        _ ← call (CRecord method false); fail "propose failed to commit" 500 w
      else
        let w := json_header (WriteHeader 200 w) in
        _ ← call (CRecord method true);
        mret (Write ("{" +:+ dquoted "status" +:+ ": " +:+ dquoted "ok" +:+ "}") w)
  end.

(** [func (s Server) handlePut(w, r, key)] *)
Definition handlePut (r : Request) (key : string) (w : ResponseWriter) : handler :=
  match ReadLimited (Z.to_nat (MaxValueSize + 1)) r with
  | (_, Some _) => _ ← call (CRecord "PUT" false); fail "failed to read body" 400 w
  | (body, None) =>
      if MaxValueSize <? Z.of_nat (length body) then
        _ ← call (CRecord "PUT" false);
        fail "value size exceeds maximum allowed size" 400 w
      else
        let '(clientID, requestID, val) := extractClientMetadata r body in
        propose_write "PUT" "PUT" key val clientID requestID w
  end.

(** [func (s Server) handleDelete(w, r, key)] *)
Definition handleDelete (r : Request) (key : string) (w : ResponseWriter) : handler :=
  let body := (ReadLimited (Z.to_nat (MaxValueSize + 1)) r).1 in
  let '(clientID, requestID, _) := extractClientMetadata r body in
  propose_write "DELETE" "DEL" key "" clientID requestID w.

(** [func (s Server) handleKV(w, r)] *)
Definition handleKV (s : Server) (r : Request) (w : ResponseWriter) : handler :=
  allowed ← call CAllow;
  if negb allowed then fail "too many requests, rate limit exceeded" 429 w
  else
    let key := TrimPrefix (URL_Path r) "/kv/" in
    if bool_decide (key = "") then fail "key required" 400 w
    else if MaxKeySize <? Z.of_nat (String.length key) then
      fail "key size exceeds maximum allowed size" 400 w
    else
      match authenticate s r with
      | Some e => fail e 401 w
      | None =>
          '(isLeader, leaderID) ← call CIsLeader;
          if negb isLeader then
            peerHTTPAddrs ← call CGetPeerHTTPAddrs;
            let leaderAddr := lookup_str peerHTTPAddrs leaderID in
            if negb (bool_decide (leaderAddr = "")) then
              mret (WriteHeader 307
                (set_header "Location" ("http://" +:+ leaderAddr +:+ "/kv/" +:+ key) w))
            else fail "not the leader, leader election in progress" 503 w
          else if bool_decide (rq_Method r = "GET") then handleGet key w
          else if bool_decide (rq_Method r = "PUT") then handlePut r key w
          else if bool_decide (rq_Method r = "DELETE") then handleDelete r key w
          else fail "method not allowed" 405 w
      end.

(** ** Pages about the node *)

(** [func (s Server) handleRoot(w, r)]; the members of the map are written in
    the order of their keys. *)
Definition handleRoot (r : Request) (w : ResponseWriter) : handler :=
  if negb (bool_decide (URL_Path r = "/")) then
    mret (http_Error "404 page not found" 404 w)
  else
    id ← call CGetID;
    mret (Encode (marshal_object
      [("health_url", quote "/healthz"); ("kv_api", quote "/kv/{key}");
       ("metrics_url", quote "/metrics"); ("node_id", quote id);
       ("service", quote "Distributed Key-Value Store with Raft Consensus");
       ("status_url", quote "/status")]) (WriteHeader 200 (json_header w))).

(** The text of the map [GetStatus] returns. *)
Definition marshal_NodeStatus (st : NodeStatus) : bytes :=
  marshal_object
    [("cluster_members", marshal_array (map quote (st_cluster_members st)));
     ("cluster_size", marshal_int (st_cluster_size st));
     ("commit_index", marshal_int (st_commit_index st));
     ("current_term", marshal_int (st_current_term st));
     ("joint_consensus", marshal_bool (st_joint_consensus st));
     ("last_applied", marshal_int (st_last_applied st));
     ("log_length", marshal_int (st_log_length st));
     ("node_id", quote (st_node_id st));
     ("pending_config_change", marshal_bool (st_pending_config_change st));
     ("role", quote (st_role st));
     ("voted_for", quote (st_voted_for st))].

(** [func (s Server) handleStatus(w, r)] *)
Definition handleStatus (r : Request) (w : ResponseWriter) : handler :=
  if bool_decide (rq_Method r ≠ "GET") then fail "method not allowed" 405 w
  else
    status ← call CGetStatus;
    mret (Encode (marshal_NodeStatus status) (WriteHeader 200 (json_header w))).

(** [func (s Server) handleHealthz(w, r)] *)
Definition handleHealthz (w : ResponseWriter) : handler :=
  mret (Write ("{" +:+ dquoted "status" +:+ ": " +:+ dquoted "healthy" +:+ "}")
    (WriteHeader 200 (json_header w))).

(** The handler of [raft.MetricsHandler] *)
Definition metricsPage (w : ResponseWriter) : handler :=
  text ← call CMetrics;
  mret (Write text (WriteHeader 200
    (set_header "Content-Type" "text/plain; version=0.0.4; charset=utf-8" w))).

(** ** Membership changes *)

(** The body of [handleAddNode] and [handleRemoveNode]. *)
Record NodeBody := mkNodeBody { nb_ID : string; nb_GRPCAddr : string; nb_HTTPAddr : string }.
#[export] Instance eta_NodeBody : Eta NodeBody := λ b,
  mkNodeBody (nb_ID b) (nb_GRPCAddr b) (nb_HTTPAddr b).
Definition id_field : @field_dec NodeBody :=
  ("id", λ b v, x ← dec_string (nb_ID b) v; Some (b <| nb_ID := x |>)).
Definition addr_fields : list (@field_dec NodeBody) :=
  [("grpc_addr", λ b v, x ← dec_string (nb_GRPCAddr b) v; Some (b <| nb_GRPCAddr := x |>));
   ("http_addr", λ b v, x ← dec_string (nb_HTTPAddr b) v; Some (b <| nb_HTTPAddr := x |>))].

(** [json.NewDecoder(r.Body).Decode(&req)] *)
Definition Decode (fields : list (@field_dec NodeBody)) (r : Request) : option NodeBody :=
  v ← first_value (rq_Body r) (rq_BodyErr r); unmarshal fields (mkNodeBody "" "" "") v.

(** The end of both handlers, from the proposal on. *)
Definition propose_change (req : ConfigChangeRequest) (w : ResponseWriter) : handler :=
  '(success, err) ← call (CProposeConfigChange req);
  match err with
  | Some e =>
      '(isLeader, leaderID) ← call CIsLeader;
      if negb isLeader then
        mret (Encode (marshal_object
          [("error", quote "not the leader"); ("leader_id", quote leaderID);
           ("success", marshal_bool false)]) (WriteHeader 503 (json_header w)))
      else
        mret (Encode (marshal_object
          [("error", quote e); ("success", marshal_bool false)])
          (WriteHeader 500 (json_header w)))
  | None =>
      mret (Encode (marshal_object [("success", marshal_bool success)])
        (WriteHeader 200 (json_header w)))
  end.

(** [func (s Server) handleAddNode(w, r)] *)
Definition handleAddNode (s : Server) (r : Request) (w : ResponseWriter) : handler :=
  if bool_decide (rq_Method r ≠ "POST") then fail "method not allowed" 405 w
  else
    match authenticateAdmin s r with
    | Some e => fail e 401 w
    | None =>
        match Decode (id_field :: addr_fields) r with
        | None => fail "invalid request body" 400 w
        | Some b =>
            if bool_decide (nb_ID b = "") || bool_decide (nb_GRPCAddr b = "") then
              fail "id and grpc_addr are required" 400 w
            else
              propose_change
                (mkConfigChangeRequest (nb_ID b) (nb_GRPCAddr b) (nb_HTTPAddr b) false) w
        end
    end.

(** [func (s Server) handleRemoveNode(w, r)] *)
Definition handleRemoveNode (s : Server) (r : Request) (w : ResponseWriter) : handler :=
  if bool_decide (rq_Method r ≠ "POST") then fail "method not allowed" 405 w
  else
    match authenticateAdmin s r with
    | Some e => fail e 401 w
    | None =>
        match Decode [id_field] r with
        | None => fail "invalid request body" 400 w
        | Some b =>
            if bool_decide (nb_ID b = "") then fail "id is required" 400 w
            else propose_change (mkConfigChangeRequest (nb_ID b) "" "" true) w
        end
    end.

(** ** The handler of the server *)

(** [func (s Server) recoveryMiddleware(next)].  No handler below panics, so
    the recovery itself is left out. *)
Definition allow_headers : string :=
  "Content-Type, Authorization, X-Client-ID, X-Request-ID".
Definition cors_headers (w : ResponseWriter) : ResponseWriter :=
  let w := set_header "Access-Control-Allow-Origin" "*" w in
  let w := set_header "Access-Control-Allow-Methods" "GET, POST, PUT, DELETE, OPTIONS" w in
  set_header "Access-Control-Allow-Headers" allow_headers w.
Definition recoveryMiddleware (next : ResponseWriter → handler) (r : Request)
    (w : ResponseWriter) : handler :=
  let w := cors_headers w in
  if bool_decide (rq_Method r = "OPTIONS") then mret (WriteHeader 200 w) else next w.

(** The routes [Start] registers. *)
Definition api_routes : list (string * (Server → Request → ResponseWriter → handler)) :=
  [("/", λ _, handleRoot); ("/kv/", handleKV); ("/healthz", λ _ _, handleHealthz);
   ("/status", λ _, handleStatus); ("/admin/addnode", handleAddNode);
   ("/admin/removenode", handleRemoveNode); ("/metrics", λ _ _, metricsPage)].

Definition dispatch (s : Server) (r : Request) (w : ResponseWriter) : handler :=
  match route (map fst api_routes) (URL_EscapedPath r) with
  | RoutedRedirect => mret (WriteHeader 301 w)
  | RoutedNowhere => mret (http_Error "404 page not found" 404 w)
  | RoutedTo p =>
      match filter (λ q, q.1 = p) api_routes with
      | (_, h) :: _ => h s r w
      | [] => mret w
      end
  end.

(** [func (s Server) Start(addr)], up to the listener: what a request is
    answered. *)
Definition Api_handler (s : Server) (r : Request) : handler :=
  recoveryMiddleware (dispatch s r) r new_writer.
