(* ===== verification/ApiSpec.v ===== *)
(** * What the HTTP API promises

    Which requests reach the node, what they are answered, and what a write
    stores. *)

From Stdlib Require Import Ascii SpecFloat.
From S2P Require Import Prelude Types Config Json JsonFacts Envelope EnvelopeFacts Disk.
From S2P Require Import Wal SnapshotStore Node Roles Election Apply Replication Client.
From S2P Require Import GoFloat GoStrings Http Api.

(** ** Texts *)

Lemma HasPrefix_app p s : HasPrefix s p = true → s = p +:+ TrimPrefix s p.
Proof.
  intros H. unfold TrimPrefix. rewrite H. unfold HasPrefix in H. revert s H.
  induction p as [|a p IH]; intros s H; [done|].
  destruct s as [|b s]; [done|]. simpl in H. destruct (Ascii.ascii_dec a b) as [->|]; [|done].
  change (String b s = String b (p +:+ drop_chars (String.length p) s)).
  f_equal. by apply IH.
Qed.

Lemma of_bytes_length b : String.length (of_bytes b) = length b.
Proof. induction b as [|x b IH]; [done|]. change (S (String.length (of_bytes b)) = S (length b)). by rewrite IH. Qed.

(** ** Authentication *)

(** A request shows [token]; an empty token asks for nothing. *)
Definition shows (token : string) (r : Request) : Prop :=
  token = "" ∨ header_get (rq_Header r) "Authorization" = "Bearer " +:+ token.

Lemma bearer_error_shows token invalid r :
  bearer_error token invalid r = None →
  header_get (rq_Header r) "Authorization" = "Bearer " +:+ token.
Proof.
  unfold bearer_error. generalize (header_get (rq_Header r) "Authorization"). intros h.
  case_bool_decide; [done|]. destruct (HasPrefix h "Bearer ") eqn:Hp; [|done]. simpl.
  case_bool_decide as Ht; [done|]. intros _. subst.
  by apply HasPrefix_app.
Qed.

Lemma authenticate_shows s r :
  authenticate s r = None →
  rq_Method r = "GET" ∨ shows (authToken s) r.
Proof.
  unfold authenticate, shows. case_bool_decide; simpl; [by left|].
  case_bool_decide; [by right; left|]. intros H'%bearer_error_shows. by right; right.
Qed.

(** The token membership changes ask for. *)
Definition change_token (s : Server) : string :=
  if bool_decide (adminToken s = "") then authToken s else adminToken s.

Lemma authenticateAdmin_shows s r : authenticateAdmin s r = None → shows (change_token s) r.
Proof.
  unfold authenticateAdmin, shows. fold (change_token s). generalize (change_token s). intros t.
  case_bool_decide; [by left|]. intros H'%bearer_error_shows. by right.
Qed.

(** ** Which calls a handler makes *)

(** What must hold of a request for each call that changes the cluster. *)
Definition allowed (s : Server) (r : Request) (o : ApiObs) : Prop :=
  match o with
  | OPropose op key _ _ _ _ =>
      (rq_Method r, op) ∈ [("PUT", "PUT"); ("DELETE", "DEL")] ∧
      shows (authToken s) r ∧
      key = TrimPrefix (URL_Path r) "/kv/" ∧ key ≠ "" ∧
      Z.of_nat (String.length key) ≤ MaxKeySize ∧
      (op = "PUT" → Z.of_nat (length (rq_Body r)) ≤ MaxValueSize)
  | OConfigChange req _ =>
      rq_Method r = "POST" ∧ shows (change_token s) r ∧ NodeID req ≠ "" ∧
      (Remove req = false → GRPCAddr req ≠ "")
  | _ => True
  end.

Lemma handleGet_allowed s r key w : all_obs (allowed s r) (handleGet key w).
Proof.
  cbn. intros [[val ok] lead]. split; [done|].
  destruct lead; cbn; [destruct ok; cbn|]; by intros [].
Qed.

Lemma propose_write_allowed s r method op key val cl rq w :
  allowed s r (OPropose op key val cl rq (false, None)) →
  all_obs (allowed s r) (propose_write method op key val cl rq w).
Proof.
  intros H. cbn. intros [ok err]. split; [exact H|].
  destruct err; cbn; [by intros []|]. destruct ok; cbn; by intros [].
Qed.

Lemma handlePut_allowed s r w :
  rq_Method r = "PUT" → authenticate s r = None →
  TrimPrefix (URL_Path r) "/kv/" ≠ "" →
  Z.of_nat (String.length (TrimPrefix (URL_Path r) "/kv/")) ≤ MaxKeySize →
  all_obs (allowed s r) (handlePut r (TrimPrefix (URL_Path r) "/kv/") w).
Proof.
  intros Hm Ha Hk Hl. unfold handlePut. destruct (ReadLimited _ r) as [body [e|]] eqn:Hr.
  { cbn. by intros []. }
  destruct (Z.ltb_spec MaxValueSize (Z.of_nat (length body))) as [?|Hb]; [cbn; by intros []|].
  destruct (extractClientMetadata r body) as [[cl rq] val]. apply propose_write_allowed.
  apply authenticate_shows in Ha as [Ha|Ha]; [congruence|]. split_and!; try done.
  - rewrite Hm. set_solver.
  - intros _. unfold ReadLimited in Hr. case_bool_decide as Hlt.
    + injection Hr as <- _. exact Hb.
    + injection Hr as <-. rewrite length_take in Hb. unfold MaxValueSize in *. lia.
Qed.

Lemma handleDelete_allowed s r w :
  rq_Method r = "DELETE" → authenticate s r = None →
  TrimPrefix (URL_Path r) "/kv/" ≠ "" →
  Z.of_nat (String.length (TrimPrefix (URL_Path r) "/kv/")) ≤ MaxKeySize →
  all_obs (allowed s r) (handleDelete r (TrimPrefix (URL_Path r) "/kv/") w).
Proof.
  intros Hm Ha Hk Hl. unfold handleDelete.
  destruct (extractClientMetadata r _) as [[cl rq] val]. apply propose_write_allowed.
  apply authenticate_shows in Ha as [Ha|Ha]; [congruence|]. split_and!; try done.
  rewrite Hm. set_solver.
Qed.

Lemma handleKV_allowed s r w : all_obs (allowed s r) (handleKV s r w).
Proof.
  unfold handleKV. apply all_obs_bind; [cbn; done|]. intros [|]; [|done]. cbn [negb].
  set (key := TrimPrefix (URL_Path r) "/kv/"). case_bool_decide as Hk; [done|].
  destruct (Z.ltb_spec MaxKeySize (Z.of_nat (String.length key))) as [?|Hl]; [done|].
  destruct (authenticate s r) as [e|] eqn:Ha; [done|].
  apply all_obs_bind; [cbn; done|]. intros [lead id]. destruct lead; cbn [negb].
  - case_bool_decide; [apply handleGet_allowed|].
    case_bool_decide; [by apply handlePut_allowed|].
    case_bool_decide; [by apply handleDelete_allowed|done].
  - apply all_obs_bind; [cbn; done|]. intros addrs. by case_bool_decide.
Qed.

Lemma propose_change_allowed s r req w :
  allowed s r (OConfigChange req (false, None)) → all_obs (allowed s r) (propose_change req w).
Proof.
  intros H. cbn. intros [ok err]. split; [exact H|].
  destruct err; cbn; [|done]. intros [lead id]. split; [done|]. by destruct lead.
Qed.

Lemma handleAddNode_allowed s r w : all_obs (allowed s r) (handleAddNode s r w).
Proof.
  unfold handleAddNode. case_bool_decide as Hm; [done|].
  destruct (authenticateAdmin s r) eqn:Ha; [done|]. apply authenticateAdmin_shows in Ha.
  destruct (Decode _ r) as [b|]; [|done].
  case_bool_decide as Hi; [done|]. case_bool_decide as Hg; [done|].
  by apply propose_change_allowed.
Qed.

Lemma handleRemoveNode_allowed s r w : all_obs (allowed s r) (handleRemoveNode s r w).
Proof.
  unfold handleRemoveNode. case_bool_decide as Hm; [done|].
  destruct (authenticateAdmin s r) eqn:Ha; [done|]. apply authenticateAdmin_shows in Ha.
  destruct (Decode _ r) as [b|]; [|done].
  case_bool_decide as Hi; [done|]. by apply propose_change_allowed.
Qed.

(** C18. Nothing changes the cluster without its token.  Whatever a request
    is and whatever the node answers, the server proposes a write only for a
    PUT or a DELETE on a key of 1 to 1024 bytes, the one named by the path,
    with a body of at most 1 MB for a PUT, and a membership change only for a
    POST; the request shows the API token for the one and the admin token (the
    API token when there is none) for the other. *)
Theorem requests_allowed s r :
  outcomes (Api_handler s r) [] (λ tr _, Forall (allowed s r) tr).
Proof.
  apply (outcomes_all_obs (C := api_calls) (allowed s r)); [done|]. unfold Api_handler, recoveryMiddleware.
  case_bool_decide; [done|]. generalize (cors_headers new_writer). intros w. unfold dispatch.
  destruct (route _ _) as [p| |]; [|done|done].
  assert (∀ q, q ∈ filter (λ q, q.1 = p) api_routes → all_obs (allowed s r) (q.2 s r w)) as Hq.
  { intros q [_ Hq]%list_elem_of_filter. revert Hq. unfold api_routes.
    rewrite !elem_of_cons, elem_of_nil. intros [->|[->|[->|[->|[->|[->|[->|[]]]]]]]]; try done; simpl.
    - unfold handleRoot. case_bool_decide; cbn; done.
    - apply handleKV_allowed.
    - unfold handleStatus. case_bool_decide; cbn; done.
    - apply handleAddNode_allowed.
    - apply handleRemoveNode_allowed. }
  destruct (filter _ _) as [|[q h] l]; [done|]. apply (Hq (q, h)). by left.
Qed.

(** ** What a request is answered *)

(** The proposals and the reads among the calls. *)
Definition proposal_of (o : ApiObs) : option ProposeResult :=
  match o with OPropose _ _ _ _ _ res => Some res | _ => None end.
Definition read_of (o : ApiObs) : option (string * GetResult) :=
  match o with OGet key res => Some (key, res) | _ => None end.

(** The body of a successful read. *)
Definition value_json (key val : string) : string :=
  of_bytes (marshal_object [("key", quote key); ("value", quote val)]) +:+ newline.

(** The answer that fits the calls made. *)
Definition answered (tr : list ApiObs) (w : ResponseWriter) : Prop :=
  match omap proposal_of tr, omap read_of tr with
  | [], [] => status_of w ∈ [307; 400; 401; 405; 429; 503]
  | [res], [] => status_of w = if bool_decide (res = (true, None)) then 200 else 500
  | [], [(key, (val, ok, leads))] =>
      status_of w = (if negb leads then 503 else if negb ok then 404 else 200) ∧
      (status_of w = 200 → w_body w = value_json key val)
  | _, _ => False
  end.

(** The calls a handler of a key makes before the one on the key. *)
Definition no_request (tr : list ApiObs) : Prop :=
  omap proposal_of tr = [] ∧ omap read_of tr = [].

Lemma answered_fail tr msg code w :
  no_request tr → w_sent w = None → code ∈ [307; 400; 401; 405; 429; 503] →
  outcomes (C := api_calls) (fail msg code w) tr answered.
Proof.
  destruct w as [h snt bod]. intros [Hp Hr] Hw Hc. simpl in Hw. subst.
  unfold fail. simpl. unfold answered. by rewrite Hp, Hr.
Qed.

Lemma propose_write_answered tr method op key val cl rq w :
  no_request tr → w_sent w = None →
  outcomes (C := api_calls) (propose_write method op key val cl rq w) tr answered.
Proof.
  destruct w as [h snt bod]. intros [Hp Hr] Hw. simpl in Hw. subst. cbn. intros [ok err].
  assert (∀ b w', status_of w' = (if bool_decide ((ok, err) = (true, None)) then 200 else 500) →
    answered ((tr ++ [OPropose op key val cl rq (ok, err)]) ++ [ORecord method b]) w') as Ha.
  { intros b w' Hs. unfold answered. rewrite !omap_app, Hp, Hr. exact Hs. }
  destruct err as [e|]; [|destruct ok]; cbn; intros []; apply Ha; by case_bool_decide.
Qed.

Lemma handleGet_answered tr key w :
  no_request tr → w_sent w = None → w_body w = "" →
  outcomes (C := api_calls) (handleGet key w) tr answered.
Proof.
  destruct w as [h snt bod]. intros [Hp Hr] Hw Hb. simpl in Hw, Hb. subst.
  cbn. intros [[val ok] leads].
  assert (∀ b w', status_of w' = (if negb leads then 503 else if negb ok then 404 else 200) →
    (status_of w' = 200 → w_body w' = value_json key val) →
    answered ((tr ++ [OGet key (val, ok, leads)]) ++ [ORecord "GET" b]) w') as Ha.
  { intros b w' Hs Hv. unfold answered. rewrite !omap_app, Hp, Hr. by split. }
  destruct leads; cbn; [destruct ok|]; cbn; intros []; by apply Ha.
Qed.

(** C19. A client is told the truth about its request.  A request on a key
    proposes or reads at most once.  A write is answered 200 if and only if
    its proposal was reported to have succeeded, and 500 otherwise; a read is
    answered 200 with the key and the value the node returned, 404 when there
    is no such key, 503 when the node could not confirm that it leads; a
    request that does neither is never answered 200. *)
Theorem requests_answered s r :
  outcomes (handleKV s r (cors_headers new_writer)) [] answered.
Proof.
  assert (no_request []) as H0 by done.
  unfold handleKV. cbn [prog_bind mbind prog_mbind call ask outcomes]. intros ok.
  set (w := cors_headers new_writer). assert (w_sent w = None ∧ w_body w = "") as [Hw Hb] by done.
  set (tr1 := [] ++ _). assert (no_request tr1) as H1 by done. clearbody tr1 w.
  destruct ok; [|apply answered_fail; [done..|set_solver]]. cbn [negb].
  set (key := TrimPrefix (URL_Path r) "/kv/").
  case_bool_decide; [apply answered_fail; [done..|set_solver]|].
  destruct (MaxKeySize <? _); [apply answered_fail; [done..|set_solver]|].
  destruct (authenticate s r) as [e|]; [apply answered_fail; [done..|set_solver]|].
  cbn [outcomes]. intros [lead id].
  set (tr2 := tr1 ++ _). assert (no_request tr2) as H2.
  { unfold no_request, tr2. rewrite !omap_app. destruct H1 as [-> ->]. done. }
  clearbody tr2. destruct lead; cbn [negb].
  - case_bool_decide; [by apply handleGet_answered|]. case_bool_decide.
    { unfold handlePut. destruct (ReadLimited _ r) as [body [e|]].
      - cbn [outcomes prog_bind mbind prog_mbind call ask]. intros x.
        apply answered_fail; [|done|set_solver].
        unfold no_request. rewrite !omap_app. destruct H2 as [-> ->]. done.
      - destruct (MaxValueSize <? _).
        + cbn [outcomes prog_bind mbind prog_mbind call ask]. intros x.
          apply answered_fail; [|done|set_solver].
          unfold no_request. rewrite !omap_app. destruct H2 as [-> ->]. done.
        + destruct (extractClientMetadata r body) as [[??] ?]. by apply propose_write_answered. }
    case_bool_decide; [|apply answered_fail; [done..|set_solver]].
    unfold handleDelete. destruct (extractClientMetadata r _) as [[??] ?].
    by apply propose_write_answered.
  - cbn [outcomes]. intros addrs. set (tr3 := tr2 ++ _). assert (no_request tr3) as H3.
    { unfold no_request, tr3. rewrite !omap_app. destruct H2 as [-> ->]. done. }
    clearbody tr3. case_bool_decide; cbn [negb]; [apply answered_fail; [done..|set_solver]|].
    simpl. unfold answered. destruct H3 as [-> ->]. unfold status_of, WriteHeader, set_header.
    simpl. rewrite Hw. set_solver.
Qed.

(** ** What a write stores *)

Lemma take_digits_uint d : take_digits (bytes_of_uint d) = bytes_of_uint d.
Proof. induction d as [|d IH|d IH|d IH|d IH|d IH|d IH|d IH|d IH|d IH|d IH];
  [done|..]; cbn [bytes_of_uint take_digits]; by rewrite IH. Qed.

Lemma to_of_bytes b : to_bytes (of_bytes b) = b.
Proof. apply String.list_byte_of_string_of_list_byte. Qed.

Lemma uint_start d : d ≠ Decimal.Nil →
  ∃ b t, bytes_of_uint d = b :: t ∧ is_digit b = true.
Proof. destruct d; [done|..]; intros _; eexists _, _; split; reflexivity. Qed.

Lemma digit_not_blank b t f : is_digit b = true → skip_blanks (S f) (b :: t) = Some (b :: t).
Proof. by destruct b. Qed.

Lemma marshal_pos z : 0 < z → ∃ b t, marshal_int z = b :: t ∧ is_digit b = true ∧
  take_digits (b :: t) = b :: t.
Proof.
  intros Hz. destruct z as [|p|p]; try lia. unfold marshal_int. simpl.
  destruct (uint_start (Pos.to_uint p)) as (b & t & Hb & Hd).
  { intros H. pose proof (DecimalPos.Unsigned.of_to p) as Hp. rewrite H in Hp. done. }
  pose proof (take_digits_uint (Pos.to_uint p)) as Ht. rewrite Hb in Ht. by exists b, t.
Qed.

(** A request number survives its header. *)
Lemma Sscanf_FormatInt z : 0 < z → is_int64 z → Sscanf_d (FormatInt z) = Some z.
Proof.
  intros Hz Hi. destruct (marshal_pos z Hz) as (b & t & Hb & Hd & Ht).
  unfold Sscanf_d, FormatInt. rewrite of_bytes_length, to_of_bytes, Hb.
  cbn [length]. rewrite digit_not_blank by done. cbn [mbind option_bind].
  replace (match b with "-"%byte => (true, t) | "+"%byte => (false, t) | _ => (false, b :: t) end)
    with (false, b :: t) by by destruct b.
  rewrite Ht. cbn [mbind]. rewrite <- Hb. by apply parse_marshal_int.
Qed.

Lemma FormatInt_nonempty z : 0 < z → FormatInt z ≠ "".
Proof.
  intros Hz H. destruct (marshal_pos z Hz) as (b & t & Hb & _).
  unfold FormatInt in H. by rewrite Hb in H.
Qed.

(** A request that carries the identity of its client in its headers. *)
Definition signed (client : string) (request : Z) (r : Request) : Prop :=
  client ≠ "" ∧ 0 < request < 2 ^ 63 ∧
  header_get (rq_Header r) "X-Client-ID" = client ∧
  header_get (rq_Header r) "X-Request-ID" = FormatInt request.

Lemma scan_id_signed z old : 0 < z < 2 ^ 63 → scan_id (FormatInt z) old = z.
Proof.
  intros Hz. unfold scan_id. rewrite bool_decide_eq_false_2 by (apply FormatInt_nonempty; lia).
  rewrite Sscanf_FormatInt; [done|lia|unfold is_int64; lia].
Qed.

Lemma extract_text r body client request :
  signed client request r → unmarshal_KVPayload body = None →
  extractClientMetadata r body = (client, request, of_bytes body).
Proof.
  intros (Hc & Hr & Hhc & Hhr) Hb. unfold extractClientMetadata. rewrite Hhc, Hhr.
  rewrite (bool_decide_eq_false_2 _ Hc), scan_id_signed by done.
  destruct (Z.eqb_spec request 0); [lia|]. rewrite Hb. by case_bool_decide.
Qed.

(** The whole body, when it is not too long. *)
Lemma ReadLimited_short r :
  rq_BodyErr r = None → Z.of_nat (length (rq_Body r)) ≤ MaxValueSize →
  ReadLimited (Z.to_nat (MaxValueSize + 1)) r = (rq_Body r, None).
Proof.
  intros He Hl. unfold ReadLimited, ReadAll, MaxValueSize in *.
  rewrite bool_decide_eq_true_2 by lia. by rewrite He.
Qed.

Lemma handlePut_proposes r key w client request val :
  rq_BodyErr r = None → Z.of_nat (length (rq_Body r)) ≤ MaxValueSize →
  extractClientMetadata r (rq_Body r) = (client, request, val) →
  handlePut r key w = propose_write "PUT" "PUT" key val client request w.
Proof.
  intros He Hl Hx. unfold handlePut. rewrite ReadLimited_short by done.
  destruct (Z.ltb_spec MaxValueSize (Z.of_nat (length (rq_Body r)))); [lia|]. by rewrite Hx.
Qed.

(** The JSON body of a write, as a client marshals it. *)
Definition put_body (client : string) (request : Z) (val : string) : bytes :=
  marshal_object [("client_id", quote client); ("request_id", marshal_int request);
                  ("value", quote val)].

Lemma unmarshal_put_body client request val :
  utf8_string client → utf8_string val → is_int64 request →
  unmarshal_KVPayload (put_body client request val) = Some (mkKVPayload client request val "").
Proof.
  intros Hc Hv Hr. unfold unmarshal_KVPayload, put_body. rewrite unmarshal_object.
  2:{ repeat (apply Forall_cons; split); simpl; auto using value_text_quote, value_text_int. }
  unfold KVPayload_fields. read_fields. done.
Qed.


(** A request with a header or two, and a body. *)
Definition request (method path : string) (headers : list (string * string)) (body : bytes)
    : Request :=
  mkRequest method path path "" (list_to_map (map (λ h, (canonical h.1, [h.2])) headers))
    "10.0.0.7:51000" body None.


(** A JSON body with an empty value stores its own text. *)
Example empty_value_stores_text :
  (extractClientMetadata (request "PUT" "/kv/k" [] []) (put_body "c" 7 "")).2 =
    of_bytes (put_body "c" 7 "").
Proof. vm_compute. reflexivity. Qed.

(** The size limit is on the body: a byte that is not UTF-8 in a JSON string
    is stored as three. *)
Definition bad_utf8_body : bytes :=
  to_bytes ("{" +:+ dquoted "value" +:+ ":") ++ x22 :: repeat xff 1000 ++ [x22; "}"%byte].
Example value_grows :
  length bad_utf8_body = 1012%nat ∧
  String.length (extractClientMetadata (request "PUT" "/kv/k" [] []) bad_utf8_body).2
    = 3000%nat.
Proof. vm_compute. done. Qed.

(** ** The rate limiter *)

(** The decisions of the limiter on requests at the given times. *)
Fixpoint allow_all (times : list Z) (l : RateLimiter) : list bool * RateLimiter :=
  match times with
  | [] => ([], l)
  | t :: times =>
      let '(ok, l) := Allow t l in
      let '(oks, l) := allow_all times l in (ok :: oks, l)
  end.

Definition granted (oks : list bool) : nat := length (filter (λ ok, ok = true) oks).

Lemma granted_cons ok oks : granted (ok :: oks) = ((if ok then 1 else 0) + granted oks)%nat.
Proof. by destruct ok. Qed.

(** A limiter of the server with [k] tokens left. *)
Definition limiter_with (k : nat) (now : Z) : RateLimiter :=
  mkRateLimiter (float_of_Z 50) (float_of_Z 100) (float_of_Z (Z.of_nat k)) now.

(** [Allow] at the time of the last refill, by the tokens left. *)
Definition drains (k : nat) : bool :=
  let '(ok, l) := Allow 0 (limiter_with k 0) in
  match k with
  | O => negb ok && bool_decide (tokens l = float_of_Z 0)
  | S k => ok && bool_decide (tokens l = float_of_Z (Z.of_nat k))
  end.

Lemma drains_all : forallb drains (seq 0 101) = true.
Proof. vm_compute. reflexivity. Qed.

Lemma Allow_now now k :
  (k ≤ 100)%nat →
  Allow now (limiter_with k now) = (bool_decide (0 < k)%nat, limiter_with (Nat.pred k) now).
Proof.
  intros Hk. pose proof drains_all as H. rewrite forallb_forall in H.
  specialize (H k). rewrite in_seq in H. specialize (H ltac:(lia)).
  unfold drains, Allow in *. cbn [lastRefilled rate capacity tokens limiter_with] in *.
  rewrite Z.sub_diag in H |- *.
  match type of H with context [SFleb _ ?t] => set (u := t) in H |- * end.
  destruct (SFleb _ u), k; cbn [negb andb] in H; try discriminate;
    apply bool_decide_eq_true in H; cbn [tokens] in H; rewrite H; done.
Qed.

Lemma allow_burst now n k :
  (k ≤ 100)%nat → granted (allow_all (repeat now n) (limiter_with k now)).1 = min n k.
Proof.
  revert k. induction n as [|n IH]; intros k Hk; [done|]. cbn [repeat allow_all].
  rewrite Allow_now by done. specialize (IH (Nat.pred k) ltac:(lia)).
  destruct (allow_all (repeat now n) (limiter_with (Nat.pred k) now)) as [oks l].
  cbn [fst] in *. rewrite granted_cons, IH. case_bool_decide; lia.
Qed.


(** A token comes back after a fiftieth of a second. *)
Example refill_example :
  (allow_all (repeat 0 101 ++ [19999999; 20000000; 20000001])
     (NewServer "" "" false 0).2).1 =
    repeat true 100 ++ [false; false; true; false].
Proof. vm_compute. reflexivity. Qed.
