(* ===== verification/Gateway.v ===== *)
(** * The gateway

    [gateway/gateway.go].  The gateway polls the nodes for their status,
    remembers the address of the leader, forwards requests to it with its own
    token, and pushes the cluster state to the subscribers of an event stream.

    The fields a handler reads under a lock, the counter of requests and the
    HTTP client are calls; [pollAllNodes] is a function of what the nodes
    answered.  A status that was fetched is the decoded body.  Not modelled:
    the static files of the frontend beyond the choice between a file and
    [index.html].  [format_time] is the JSON text of a time, which depends on
    the time zone of the host. *)

From Stdlib Require Import Ascii.
From S2P Require Import Prelude Types Config Json JsonArray.
From S2P Require Import GoStrings Http.

(** [type NodeStatus struct]; a nil slice is [None]. *)
Record GwStatus := mkGwStatus {
  gs_NodeID : string;
  gs_Role : string;
  gs_CurrentTerm : Z;
  gs_CommitIndex : Z;
  gs_LastApplied : Z;
  gs_LogLength : Z;
  gs_VotedFor : string;
  gs_ClusterMembers : option (list string);
  gs_ClusterSize : Z;
  gs_JointConsensus : bool;
  gs_PendingConfigChange : bool
}.
#[export] Instance eta_GwStatus : Eta GwStatus := λ s,
  mkGwStatus (gs_NodeID s) (gs_Role s) (gs_CurrentTerm s) (gs_CommitIndex s)
    (gs_LastApplied s) (gs_LogLength s) (gs_VotedFor s) (gs_ClusterMembers s)
    (gs_ClusterSize s) (gs_JointConsensus s) (gs_PendingConfigChange s).
Definition zero_GwStatus : GwStatus := mkGwStatus "" "" 0 0 0 0 "" None 0 false false.

Definition GwStatus_fields : list (@field_dec GwStatus) :=
  [("node_id", λ s v, x ← dec_string (gs_NodeID s) v; Some (s <| gs_NodeID := x |>));
   ("role", λ s v, x ← dec_string (gs_Role s) v; Some (s <| gs_Role := x |>));
   ("current_term", λ s v, x ← dec_int (gs_CurrentTerm s) v;
      Some (s <| gs_CurrentTerm := x |>));
   ("commit_index", λ s v, x ← dec_int (gs_CommitIndex s) v;
      Some (s <| gs_CommitIndex := x |>));
   ("last_applied", λ s v, x ← dec_int (gs_LastApplied s) v;
      Some (s <| gs_LastApplied := x |>));
   ("log_length", λ s v, x ← dec_int (gs_LogLength s) v; Some (s <| gs_LogLength := x |>));
   ("voted_for", λ s v, x ← dec_string (gs_VotedFor s) v; Some (s <| gs_VotedFor := x |>));
   ("cluster_members", λ s v, x ← dec_strings (gs_ClusterMembers s) v;
      Some (s <| gs_ClusterMembers := x |>));
   ("cluster_size", λ s v, x ← dec_int (gs_ClusterSize s) v;
      Some (s <| gs_ClusterSize := x |>));
   ("joint_consensus", λ s v, x ← dec_bool (gs_JointConsensus s) v;
      Some (s <| gs_JointConsensus := x |>));
   ("pending_config_change", λ s v, x ← dec_bool (gs_PendingConfigChange s) v;
      Some (s <| gs_PendingConfigChange := x |>))].

(** [type ClusterOverview struct], [type ClusterEvent struct] *)
Record ClusterOverview := mkClusterOverview {
  Nodes : list GwStatus;
  LeaderID : string;
  LeaderURL : string;
  UpdatedAt : option Z
}.
Record ClusterEvent := mkClusterEvent {
  ev_Type : string;
  ev_Payload : ClusterOverview;
  ev_Timestamp : Z
}.

(** [type Config struct]; the poll interval in nanoseconds. *)
Record GwConfig := mkGwConfig {
  NodeAddrs : list string;
  GatewayToken : string;
  ClusterToken : string;
  FrontendDir : string;
  PollInterval : Z
}.

(** [type Gateway struct]: a channel of a subscriber is a queue. *)
Record Gateway := mkGateway {
  cfg : GwConfig;
  leaderAddr : string;
  leaderID : string;
  overview : ClusterOverview;
  sseClients : gmap nat (list ClusterEvent);
  reqIDCounter : Z
}.
#[export] Instance eta_Gateway : Eta Gateway := λ g,
  mkGateway (cfg g) (leaderAddr g) (leaderID g) (overview g) (sseClients g) (reqIDCounter g).

(** [func New(cfg Config)] *)
Definition New (c : GwConfig) : Gateway :=
  let c := if PollInterval c =? 0
           then mkGwConfig (NodeAddrs c) (GatewayToken c) (ClusterToken c) (FrontendDir c)
                  1000000000
           else c in
  mkGateway c "" "" (mkClusterOverview [] "" "" None) ∅ 0.

(** ** Polling *)

(** [func (g Gateway) fetchNodeStatus(addr)] on what the client got: the
    body and the error that follows it, if any. *)
Definition fetchNodeStatus (resp : result (bytes * option string)) : result GwStatus :=
  match resp with
  | Err e => Err e
  | Ok (body, err) =>
      match (v ← first_value body err; unmarshal GwStatus_fields zero_GwStatus v) with
      | Some st => Ok st
      | None => Err "invalid status"
      end
  end.

(** [func (g Gateway) broadcastSSE(event)]: a channel holds 8 events, a full
    one is skipped. *)
Definition broadcastSSE (ev : ClusterEvent) (g : Gateway) : Gateway :=
  g <| sseClients ::= fmap (λ q, if bool_decide (length q < 8)%nat then q ++ [ev] else q) |>.

(** The loop over the nodes in [pollAllNodes]: the statuses, and the address
    and the id of the leader. *)
Fixpoint poll_results (i : Z) (addrs : list string) (fetched : list (result GwStatus))
    (leader : string * string) : list GwStatus * (string * string) :=
  match addrs, fetched with
  | addr :: addrs, res :: fetched =>
      let st :=
        match res with
        | Ok st => st
        | Err _ => zero_GwStatus <| gs_NodeID := "node" +:+ FormatInt (i + 1) +:+ "(offline)" |>
        end in
      let leader := if bool_decide (gs_Role st = "leader") then (addr, gs_NodeID st)
                    else leader in
      let '(sts, leader) := poll_results (i + 1) addrs fetched leader in (st :: sts, leader)
  | _, _ => ([], leader)
  end.

(** [func (g Gateway) pollAllNodes()] at time [now], on what
    [fetchNodeStatus] gave for each address. *)
Definition pollAllNodes (now : Z) (fetched : list (result GwStatus)) (g : Gateway) : Gateway :=
  let '(sts, (newLeaderAddr, newLeaderID)) :=
    poll_results 0 (NodeAddrs (cfg g)) fetched ("", "") in
  let newOverview := mkClusterOverview sts newLeaderID newLeaderAddr (Some now) in
  let changed :=
    negb (bool_decide (leaderID g = newLeaderID))
    || match sts, Nodes (overview g) with
       | a :: _, b :: _ => negb (gs_CurrentTerm a =? gs_CurrentTerm b)
       | _, _ => false
       end in
  let g := g <| leaderAddr := newLeaderAddr |> <| leaderID := newLeaderID |>
             <| overview := newOverview |> in
  if changed || bool_decide (0 < size (sseClients g))%nat
  then broadcastSSE (mkClusterEvent "state_update" newOverview now) g
  else g.

(** ** The event stream *)

(** The JSON texts. *)
Definition marshal_GwStatus (s : GwStatus) : bytes :=
  marshal_object
    [("node_id", quote (gs_NodeID s)); ("role", quote (gs_Role s));
     ("current_term", marshal_int (gs_CurrentTerm s));
     ("commit_index", marshal_int (gs_CommitIndex s));
     ("last_applied", marshal_int (gs_LastApplied s));
     ("log_length", marshal_int (gs_LogLength s));
     ("voted_for", quote (gs_VotedFor s));
     ("cluster_members", match gs_ClusterMembers s with
                         | Some l => marshal_array (map quote l)
                         | None => null
                         end);
     ("cluster_size", marshal_int (gs_ClusterSize s));
     ("joint_consensus", marshal_bool (gs_JointConsensus s));
     ("pending_config_change", marshal_bool (gs_PendingConfigChange s))].

Section Events.
Context (format_time : option Z → bytes).

Definition marshal_ClusterOverview (o : ClusterOverview) : bytes :=
  marshal_object
    [("nodes", match Nodes o with [] => null | l => marshal_array (map marshal_GwStatus l) end);
     ("leader_id", quote (LeaderID o)); ("leader_url", quote (LeaderURL o));
     ("updated_at", format_time (UpdatedAt o))].
Definition marshal_ClusterEvent (e : ClusterEvent) : bytes :=
  marshal_object
    [("type", quote (ev_Type e)); ("payload", marshal_ClusterOverview (ev_Payload e));
     ("timestamp", format_time (Some (ev_Timestamp e)))].

(** [func sendSSEEvent(w, flusher, event)] *)
Definition sendSSEEvent (e : ClusterEvent) (w : ResponseWriter) : ResponseWriter :=
  Write ("event: " +:+ ev_Type e +:+ newline +:+ "data: " +:+
         of_bytes (marshal_ClusterEvent e) +:+ newline +:+ newline) w.
End Events.

(** The start of [handleSSE]: the channel [ch] is registered, and the state
    is sent. *)
Definition subscribe (ch : nat) (now : Z) (g : Gateway) : ClusterEvent * Gateway :=
  (mkClusterEvent "state_update" (overview g) now, g <| sseClients ::= insert ch [] |>).

(** A turn of its loop that receives an event. *)
Definition next_event (ch : nat) (g : Gateway) : option (ClusterEvent * Gateway) :=
  match sseClients g !! ch with
  | Some (ev :: q) => Some (ev, g <| sseClients ::= insert ch q |>)
  | _ => None
  end.

(** Its deferred function. *)
Definition unsubscribe (ch : nat) (g : Gateway) : Gateway :=
  g <| sseClients ::= delete ch |>.

(** ** Handlers *)

(** The request to a node, and its response. *)
Record OutRequest := mkOutRequest {
  o_Method : string;
  o_Host : string;
  o_Path : string;
  o_RawQuery : string;
  o_Header : Header;
  o_Body : bytes
}.
Record OutResponse := mkOutResponse {
  resp_Status : Z;
  resp_Header : Header;
  resp_Body : string
}.

Inductive GwCall :=
| CLeaderAddr
| COverview
| CNextID
| CNewRequest (req : OutRequest)
| CDo (req : OutRequest)
| CPoll
| CFetchMetrics (addr : string).

(** [CNewRequest] answers the error of [http.NewRequestWithContext]. *)
Definition GwAnswer (c : GwCall) : Type :=
  match c with
  | CLeaderAddr => string
  | COverview => ClusterOverview
  | CNextID => Z
  | CNewRequest _ => option string
  | CDo _ => result OutResponse
  | CPoll => unit
  | CFetchMetrics _ => result string
  end.

Inductive GwObs :=
| OLeaderAddr (addr : string)
| ONextID (n : Z)
| OForward (req : OutRequest) (res : result OutResponse)
| OPoll
| OOther.

Definition gw_obs (c : GwCall) : GwAnswer c → GwObs :=
  match c with
  | CLeaderAddr => OLeaderAddr
  | CNextID => ONextID
  | CDo req => OForward req
  | CPoll => λ _, OPoll
  | COverview | CNewRequest _ | CFetchMetrics _ => λ _, OOther
  end.

#[export] Instance gw_calls : Calls := {| Call := GwCall; Answer := GwAnswer; obs := gw_obs |}.

Definition gw_handler : Type := prog (C := gw_calls) ResponseWriter.
Definition gw_call (c : GwCall) : prog (C := gw_calls) (GwAnswer c) := ask (C := gw_calls) c.

(** A JSON object of one string, without spaces. *)
Definition tight_json (k v : string) : string :=
  "{" +:+ dquoted k +:+ ":" +:+ dquoted v +:+ "}".
Definition json_type := set_header "Content-Type" "application/json".

(** [func (g Gateway) authenticate(w, r) bool]: the error it answers with. *)
Definition gw_authenticate (c : GwConfig) (r : Request) : option string :=
  if bool_decide (GatewayToken c = "") then None
  else
    let auth := header_get (rq_Header r) "Authorization" in
    if negb (HasPrefix auth "Bearer ") then Some "missing or invalid Authorization header"
    else if bool_decide (TrimPrefix auth "Bearer " ≠ GatewayToken c) then
      Some "invalid gateway token"
    else None.
Definition unauthorized (msg : string) (w : ResponseWriter) : gw_handler :=
  mret (Write (tight_json "error" msg) (WriteHeader 401 (json_type w))).

(** [func sessionID(r)] *)
Definition sessionID (r : Request) : string :=
  "gw-" +:+ default (rq_RemoteAddr r) (before_last ":" (rq_RemoteAddr r)).

(** The headers copied from the request. *)
Definition copied_headers : list string := ["Content-Type"; "X-Client-ID"; "X-Request-ID"].
Definition copy_headers (from : Header) (to : Header) : Header :=
  foldl (λ to h, let v := header_get from h in
                 if bool_decide (v = "") then to else header_set h v to) to copied_headers.

(** The end of [proxyRequest]: the response is passed on. *)
Definition copy_response (resp : OutResponse) (w : ResponseWriter) : ResponseWriter :=
  let w := foldl (λ w kv, foldl (λ w v, add_header kv.1 v w) w kv.2) w
             (map_to_list (resp_Header resp)) in
  Write (resp_Body resp) (WriteHeader (resp_Status resp) w).

(** The part of [proxyRequest] that adds the token of the cluster and sends. *)
Definition send_request (c : GwConfig) (req : Header → OutRequest) (h : Header)
    (w : ResponseWriter) : gw_handler :=
  let h := if bool_decide (ClusterToken c = "") then h
           else header_set "Authorization" ("Bearer " +:+ ClusterToken c) h in
  resp ← gw_call (CDo (req h));
  match resp with
  | Err _ =>
      _ ← gw_call CPoll;
      mret (http_Error (tight_json "error" "upstream node unreachable") 502 w)
  | Ok resp => mret (copy_response resp w)
  end.

(** [func (g Gateway) proxyRequest(w, r, nodeAddr)] *)
Definition proxyRequest (c : GwConfig) (r : Request) (nodeAddr : string)
    (w : ResponseWriter) : gw_handler :=
  match ReadAll r with
  | (_, Some _) =>
      mret (http_Error (tight_json "error" "failed to read request body") 400 w)
  | (body, None) =>
      let req h := mkOutRequest (rq_Method r) nodeAddr (URL_Path r) (URL_RawQuery r) h body in
      err ← gw_call (CNewRequest (req ∅));
      match err with
      | Some _ =>
          mret (http_Error (tight_json "error" "failed to build proxy request") 500 w)
      | None =>
          let h := copy_headers (rq_Header r) ∅ in
          let h := if bool_decide (header_get h "X-Client-ID" = "")
                   then header_set "X-Client-ID" (sessionID r) h else h in
          if bool_decide (header_get h "X-Request-ID" = "") then
            n ← gw_call CNextID;
            send_request c req (header_set "X-Request-ID" (FormatInt n) h) w
          else send_request c req h w
      end
  end.

(** [func (g Gateway) handleKVProxy(w, r)] *)
Definition handleKVProxy (c : GwConfig) (r : Request) (w : ResponseWriter) : gw_handler :=
  match (if bool_decide (rq_Method r = "GET") then None else gw_authenticate c r) with
  | Some e => unauthorized e w
  | None =>
      addr ← gw_call CLeaderAddr;
      if bool_decide (addr = "") then
        mret (Write (tight_json "error" "no leader elected, cluster may be in election")
                (WriteHeader 503 (json_type w)))
      else proxyRequest c r addr w
  end.

(** [func (g Gateway) handleAdminProxy(w, r)] *)
Definition handleAdminProxy (c : GwConfig) (r : Request) (w : ResponseWriter) : gw_handler :=
  match gw_authenticate c r with
  | Some e => unauthorized e w
  | None =>
      addr ← gw_call CLeaderAddr;
      if bool_decide (addr = "") then
        mret (Write (tight_json "error" "no leader") (WriteHeader 503 w))
      else proxyRequest c r addr w
  end.

(** [func (g Gateway) handleOverview(w, r)] *)
Definition handleOverview (format_time : option Z → bytes) (w : ResponseWriter) : gw_handler :=
  o ← gw_call COverview;
  mret (Write (of_bytes (marshal_ClusterOverview format_time o) +:+ newline) (json_type w)).

(** [func (g Gateway) handleHealthz(w, r)] *)
Definition gw_handleHealthz (w : ResponseWriter) : gw_handler :=
  mret (Write ("{" +:+ dquoted "status" +:+ ":" +:+ dquoted "healthy" +:+ "," +:+
               dquoted "service" +:+ ":" +:+ dquoted "raft-kv-gateway" +:+ "}")
          (json_type w)).

(** A line of [handleAggregateMetrics]; a line without labels and without a
    space is dropped. *)
Definition label_line (addr line : string) : string :=
  if HasPrefix line "#" || bool_decide (line = "") then line +:+ newline
  else
    let nodeLabel := "node=" +:+ dquoted addr in
    match Cut "{" line with
    | Some (before, after) => before +:+ "{" +:+ nodeLabel +:+ "," +:+ after +:+ newline
    | None =>
        match Cut " " line with
        | Some (before, after) => before +:+ "{" +:+ nodeLabel +:+ "} " +:+ after +:+ newline
        | None => ""
        end
    end.

(** [func (g Gateway) handleAggregateMetrics(w, r)] *)
Definition label_lines (addr body : string) : string :=
  foldr String.append "" (map (label_line addr) (Split body (ascii_of_N 10))).
Fixpoint aggregate (addrs : list string) (w : ResponseWriter) : gw_handler :=
  match addrs with
  | [] => mret w
  | addr :: addrs =>
      res ← gw_call (CFetchMetrics addr);
      aggregate addrs
        (match res with
         | Err e => Write ("# ERROR fetching metrics from " +:+ addr +:+ ": " +:+ e +:+ newline) w
         | Ok body => Write (label_lines addr body) w
         end)
  end.
Definition handleAggregateMetrics (c : GwConfig) (w : ResponseWriter) : gw_handler :=
  aggregate (NodeAddrs c) (set_header "Content-Type" "text/plain; version=0.0.4" w).

(** [func corsMiddleware(next)] *)
Definition corsMiddleware (next : ResponseWriter → gw_handler) (r : Request)
    (w : ResponseWriter) : gw_handler :=
  let w := set_header "Access-Control-Allow-Origin" "*" w in
  let w := set_header "Access-Control-Allow-Methods" "GET, POST, PUT, DELETE, OPTIONS" w in
  let w := set_header "Access-Control-Allow-Headers"
             "Content-Type, Authorization, X-Client-ID, X-Request-ID" w in
  if bool_decide (rq_Method r = "OPTIONS") then mret (WriteHeader 200 w) else next w.

(** [func (g Gateway) Handler()]; the event stream and the static files are
    written by [page]. *)
Section Handler.
Context (format_time : option Z → bytes) (page : string → ResponseWriter → ResponseWriter).

Definition gw_routes (c : GwConfig) : list (string * (Request → ResponseWriter → gw_handler)) :=
  [("/cluster/overview", λ _, handleOverview format_time);
   ("/cluster/events", λ _ w, mret (page "events" w));
   ("/metrics/aggregate", λ _, handleAggregateMetrics c); ("/healthz", λ _, gw_handleHealthz);
   ("/kv/", handleKVProxy c); ("/admin/", handleAdminProxy c)]
  ++ (if bool_decide (FrontendDir c = "") then []
      else [("/", λ r w, mret (page (FrontendDir c +:+ URL_Path r) w))]).

Definition gw_dispatch (c : GwConfig) (r : Request) (w : ResponseWriter) : gw_handler :=
  match route (map fst (gw_routes c)) (URL_EscapedPath r) with
  | RoutedRedirect => mret (WriteHeader 301 w)
  | RoutedNowhere => mret (http_Error "404 page not found" 404 w)
  | RoutedTo p =>
      match filter (λ q, q.1 = p) (gw_routes c) with
      | (_, h) :: _ => h r w
      | [] => mret w
      end
  end.

Definition Gw_handler (c : GwConfig) (r : Request) : gw_handler :=
  corsMiddleware (gw_dispatch c r) r new_writer.
End Handler.

Example label_plain : label_line "n1" "raft_role 2" =
  "raft_role{node=" +:+ dquoted "n1" +:+ "} 2" +:+ newline := eq_refl.
Example session_example :
  sessionID (mkRequest "GET" "/" "/" "" ∅ "10.0.0.7:51000" [] None) = "gw-10.0.0.7" := eq_refl.
