(* ===== verification/GatewaySpec.v ===== *)
(** * What the gateway promises

    What is forwarded to the cluster and with which identity, which node is
    taken for the leader, what the subscribers receive, and that the gateway
    reads the status of a node as the node wrote it. *)

From Stdlib Require Import Ascii.
From S2P Require Import Prelude Types Config Json JsonFacts JsonArray Envelope EnvelopeFacts Disk.
From S2P Require Import Wal SnapshotStore Node Roles Election Apply Replication Client.
From S2P Require Import GoStrings Http Api ApiSpec Gateway.

(** ** Headers *)

Lemma header_get_set h k v : header_get (header_set k v h) k = v.
Proof. unfold header_get, header_set. by rewrite lookup_insert, decide_True. Qed.

Lemma header_get_set_ne h k k' v :
  canonical k ≠ canonical k' → header_get (header_set k v h) k' = header_get h k'.
Proof. intros Hne. unfold header_get, header_set. by rewrite lookup_insert_ne. Qed.

(** The headers of a forwarded request, before the request number. *)
Definition client_headers (r : Request) : Header :=
  let h := copy_headers (rq_Header r) ∅ in
  if bool_decide (header_get h "X-Client-ID" = "")
  then header_set "X-Client-ID" (sessionID r) h else h.

Lemma copy_headers_get r k :
  k ∈ copied_headers →
  header_get (copy_headers (rq_Header r) ∅) k = header_get (rq_Header r) k.
Proof.
  unfold copy_headers, copied_headers. cbn [foldl].
  rewrite !elem_of_cons. intros Hk.
  repeat case_bool_decide; destruct Hk as [->|[->|[->|Hk%elem_of_nil]]]; try done;
    rewrite ?header_get_set; try done;
    repeat rewrite header_get_set_ne by done; rewrite ?header_get_set; try done;
    match goal with H : header_get _ _ = "" |- _ => rewrite H; done end.
Qed.

Lemma copy_headers_auth r :
  header_get (copy_headers (rq_Header r) ∅) "Authorization" = "".
Proof.
  unfold copy_headers, copied_headers. cbn [foldl].
  repeat case_bool_decide; repeat rewrite header_get_set_ne by done; done.
Qed.

Lemma client_headers_auth r : header_get (client_headers r) "Authorization" = "".
Proof.
  unfold client_headers. case_bool_decide; rewrite ?header_get_set_ne by done;
    apply copy_headers_auth.
Qed.

Lemma client_headers_client r :
  header_get (client_headers r) "X-Client-ID" =
    (let v := header_get (rq_Header r) "X-Client-ID" in
     if bool_decide (v = "") then sessionID r else v).
Proof.
  unfold client_headers. rewrite (copy_headers_get r "X-Client-ID") by set_solver.
  cbn zeta. case_bool_decide; [apply header_get_set|]. apply copy_headers_get. set_solver.
Qed.

Lemma client_headers_request r :
  header_get (client_headers r) "X-Request-ID" = header_get (rq_Header r) "X-Request-ID".
Proof.
  unfold client_headers. case_bool_decide; rewrite ?header_get_set_ne by done;
    apply copy_headers_get; set_solver.
Qed.

(** ** What is forwarded *)

(** The token the gateway adds. *)
Definition cluster_auth (c : GwConfig) : string :=
  if bool_decide (ClusterToken c = "") then "" else "Bearer " +:+ ClusterToken c.

(** What a request to a node says, for the request it comes from and the
    number the gateway may have drawn for it. *)
Definition forwards (c : GwConfig) (r : Request) (drawn : option Z) (req : OutRequest) : Prop :=
  o_Method req = rq_Method r ∧ o_Path req = URL_Path r ∧ o_RawQuery req = URL_RawQuery r ∧
  o_Body req = rq_Body r ∧ o_Host req ≠ "" ∧
  header_get (o_Header req) "Authorization" = cluster_auth c ∧
  header_get (o_Header req) "X-Client-ID" =
    (let v := header_get (rq_Header r) "X-Client-ID" in
     if bool_decide (v = "") then sessionID r else v) ∧
  header_get (o_Header req) "X-Request-ID" =
    match drawn with
    | Some n => FormatInt n
    | None => header_get (rq_Header r) "X-Request-ID"
    end ∧
  (drawn = None ↔ header_get (rq_Header r) "X-Request-ID" ≠ "").

(** The calls of a handler that may forward a request: which calls come
    before, and the one that forwards; [A] is what authorises it. *)
Definition forwarded_in (A : Prop) (c : GwConfig) (r : Request) (tr : list GwObs) : Prop :=
  ∀ req res, OForward req res ∈ tr →
    A ∧
    OLeaderAddr (o_Host req) ∈ tr ∧
    ∃ drawn, forwards c r drawn req ∧ ∀ n, drawn = Some n → ONextID n ∈ tr.

Definition no_forward (tr : list GwObs) : Prop := ∀ req res, OForward req res ∉ tr.

Lemma no_forward_snoc tr o :
  no_forward tr → (∀ req res, o ≠ OForward req res) → no_forward (tr ++ [o]).
Proof.
  intros Ht Ho req res. rewrite elem_of_app, list_elem_of_singleton.
  intros [H|H]; [by apply (Ht req res)|by apply (Ho req res)].
Qed.

Lemma no_forward_in A c r tr : no_forward tr → forwarded_in A c r tr.
Proof. intros H req res Hin. by apply H in Hin. Qed.

(** The headers sent, with the number drawn. *)
Definition numbered (r : Request) (drawn : option Z) : Header :=
  match drawn with
  | Some n => header_set "X-Request-ID" (FormatInt n) (client_headers r)
  | None => client_headers r
  end.

Lemma send_request_forwards (A : Prop) c r addr drawn w tr :
  A → addr ≠ "" →
  OLeaderAddr addr ∈ tr → no_forward tr →
  (∀ n, drawn = Some n → ONextID n ∈ tr) →
  (drawn = None ↔ header_get (rq_Header r) "X-Request-ID" ≠ "") →
  outcomes (C := gw_calls)
    (send_request c (λ h, mkOutRequest (rq_Method r) addr (URL_Path r) (URL_RawQuery r) h
                            (rq_Body r)) (numbered r drawn) w)
    tr (λ tr _, forwarded_in A c r tr).
Proof.
  intros Hauth Haddr Hl Hn Hd Hiff. unfold send_request.
  set (req := mkOutRequest _ _ _ _ _ _).
  assert (Hf : forwards c r drawn req).
  { unfold forwards, req, numbered, cluster_auth.
    cbn [o_Method o_Path o_RawQuery o_Body o_Host o_Header].
    split_and!; try done; destruct drawn; case_bool_decide;
      repeat first [rewrite header_get_set | rewrite header_get_set_ne by done]; try done;
      auto using client_headers_auth, client_headers_client, client_headers_request. }
  assert (Hall : ∀ tr', (∀ q res, OForward q res ∈ tr' → q = req) → tr ⊆ tr' →
                   forwarded_in A c r tr').
  { intros tr' Hq Hsub q res ->%Hq. split; [done|]. split; [by apply Hsub|].
    exists drawn. split; [done|]. intros n Hdn. by apply Hsub, Hd. }
  clearbody req. cbn [outcomes mbind prog_mbind prog_bind gw_call ask]. intros res.
  assert (Hone : ∀ o tr', tr' = (tr ++ [OForward req res]) ++ o →
    (∀ q x, OForward q x ∉ o) → forwarded_in A c r tr').
  { intros o tr' -> Ho. apply Hall; [|set_solver]. intros q x.
    rewrite !elem_of_app, list_elem_of_singleton. intros [[Hq|[= -> _]]|Hq]; [|done|].
    - by apply Hn in Hq.
    - by apply Ho in Hq. }
  destruct res as [resp|e]; cbn [outcomes].
  - apply (Hone []); [by rewrite app_nil_r|set_solver].
  - intros []. apply (Hone [OPoll]); [done|]. intros q x. by rewrite list_elem_of_singleton.
Qed.

Lemma proxyRequest_forwards (A : Prop) c r addr w tr :
  A → addr ≠ "" →
  OLeaderAddr addr ∈ tr → no_forward tr →
  outcomes (C := gw_calls) (proxyRequest c r addr w) tr (λ tr _, forwarded_in A c r tr).
Proof.
  intros Hauth Haddr Hl Hn. unfold proxyRequest, ReadAll.
  destruct (rq_BodyErr r); [by apply no_forward_in|].
  cbn [outcomes mbind prog_mbind prog_bind gw_call ask]. intros err.
  change (tr ++ [obs _ err]) with (tr ++ [OOther]). set (tr1 := tr ++ [OOther]).
  assert (no_forward tr1) as Hn1 by by apply no_forward_snoc.
  assert (OLeaderAddr addr ∈ tr1) as Hl1 by (apply elem_of_app; by left). clearbody tr1.
  destruct err; [by apply no_forward_in|]. cbn zeta. fold (client_headers r).
  pose proof (client_headers_request r) as Hx. case_bool_decide as Hid; rewrite Hx in Hid.
  - cbn [outcomes mbind prog_mbind prog_bind gw_call ask]. intros n.
    apply (send_request_forwards A c r addr (Some n)); try done.
    + apply elem_of_app; by left.
    + by apply no_forward_snoc.
    + intros m [= <-]. apply elem_of_app; right; by left.
  - by apply (send_request_forwards A c r addr None).
Qed.

(** A check of the token, and what follows it. *)
Lemma gw_authenticate_shows c r : gw_authenticate c r = None → shows (GatewayToken c) r.
Proof.
  unfold gw_authenticate, shows. case_bool_decide; [by left|].
  generalize (header_get (rq_Header r) "Authorization"). intros h.
  destruct (HasPrefix h "Bearer ") eqn:Hp; [|done]. simpl.
  case_bool_decide as Ht; [done|]. intros _. right. rewrite <- Ht. by apply HasPrefix_app.
Qed.

Lemma leader_forwards (A : Prop) c r (none : gw_handler) w :
  A → (∀ tr, no_forward tr → outcomes (C := gw_calls) none tr (λ tr _, no_forward tr)) →
  outcomes (C := gw_calls)
    (addr ← gw_call CLeaderAddr;
     if bool_decide (addr = "") then none else proxyRequest c r addr w) []
    (λ tr _, forwarded_in A c r tr).
Proof.
  intros HA Hnone. cbn [outcomes mbind prog_mbind prog_bind gw_call ask]. intros addr. cbn in addr.
  assert (no_forward [OLeaderAddr addr]) as Hn.
  { intros req res. by rewrite list_elem_of_singleton. }
  change ([] ++ [@obs gw_calls CLeaderAddr addr]) with [OLeaderAddr addr].
  case_bool_decide as Ha.
  - eapply outcomes_mono; [|by apply Hnone]. intros tr a. apply no_forward_in.
  - apply proxyRequest_forwards; [done..|by left|done].
Qed.

Lemma aggregate_no_forward addrs w tr :
  no_forward tr → outcomes (C := gw_calls) (aggregate addrs w) tr (λ tr _, no_forward tr).
Proof.
  revert w tr. induction addrs as [|a addrs IH]; intros w tr Hn; [done|].
  cbn [aggregate outcomes mbind prog_mbind prog_bind gw_call ask]. intros res. apply IH.
  by apply no_forward_snoc.
Qed.

(** C20. What the gateway forwards.  A request reaches a node only when it is
    a read of a key or shows the token of the gateway, and goes to the address
    that was the leader's; its method, path, query and body are those of the
    client; the token of the client is never passed on, the token of the
    cluster takes its place; the request always has a client, the one of its
    header or the address it came from, and a request number, the one of its
    header or one drawn from the counter. *)
Theorem forwarded_requests format_time page c r :
  outcomes (C := gw_calls) (Gw_handler format_time page c r) []
    (λ tr _, forwarded_in (shows (GatewayToken c) r ∨
       rq_Method r = "GET" ∧ route (map fst (gw_routes format_time page c)) (URL_EscapedPath r)
         = RoutedTo "/kv/") c r tr).
Proof.
  set (A := _ ∨ _). unfold Gw_handler, corsMiddleware.
  assert (no_forward []) as H0 by (intros ??; set_solver).
  case_bool_decide; [by apply no_forward_in|].
  match goal with |- context [gw_dispatch _ _ _ _ ?x] => generalize x end. intros w.
  unfold gw_dispatch. destruct (route _ _) as [p| |] eqn:Hroute; [|by apply no_forward_in..].
  assert (∀ q, q ∈ filter (λ q, q.1 = p) (gw_routes format_time page c) →
    outcomes (C := gw_calls) (q.2 r w) [] (λ tr _, forwarded_in A c r tr)) as Hq.
  { intros q [Hp Hq]%list_elem_of_filter. revert Hq. unfold gw_routes.
    rewrite elem_of_app, !elem_of_cons, elem_of_nil.
    intros [[->|[->|[->|[->|[->|[->|[]]]]]]]|Hq]; simpl in Hp |- *.
    - intros o. apply no_forward_in. intros req res. by rewrite list_elem_of_singleton.
    - by apply no_forward_in.
    - eapply outcomes_mono; [|by apply aggregate_no_forward]. intros tr a. apply no_forward_in.
    - by apply no_forward_in.
    - unfold handleKVProxy. destruct (if bool_decide _ then _ else _) eqn:Ha;
        [by apply no_forward_in|]. apply leader_forwards; [|done].
      case_bool_decide; [right; by subst p|]. left. by apply gw_authenticate_shows.
    - unfold handleAdminProxy. destruct (gw_authenticate c r) eqn:Ha; [by apply no_forward_in|].
      apply leader_forwards; [|done]. left. by apply gw_authenticate_shows.
    - case_bool_decide; [by apply elem_of_nil in Hq|].
      apply list_elem_of_singleton in Hq as ->. by apply no_forward_in. }
  destruct (filter _ _) as [|[q h] l]; [by apply no_forward_in|]. apply (Hq (q, h)). by left.
Qed.

(** ** From the gateway to the log *)

(** The forwarded request as the server of the node reads it; [remote] is the
    address of the gateway. *)
Definition delivered (remote : string) (req : OutRequest) : Request :=
  mkRequest (o_Method req) (escape_path (o_Path req)) (o_Path req) (o_RawQuery req)
    (o_Header req) remote (o_Body req) None.

Lemma sessionID_nonempty r : sessionID r ≠ "".
Proof. done. Qed.

Lemma forwards_signed c r n req remote :
  forwards c r (Some n) req → header_get (rq_Header r) "X-Client-ID" = "" →
  0 < n < 2 ^ 63 → signed (sessionID r) n (delivered remote req).
Proof.
  intros (_ & _ & _ & _ & _ & _ & Hc & Hn & _) Hr Hb. cbn zeta in Hc.
  rewrite Hr, bool_decide_eq_true_2 in Hc by done. done.
Qed.


(** A request of a browser, and what the gateway makes of it. *)
Definition browser_put : Request := request "PUT" "/kv/k" [] (to_bytes "hello").
Definition gw_config : GwConfig := mkGwConfig ["n1:80"; "n2:80"; "n3:80"] "" "" "" 0.
Definition forwarded_put (n : Z) : OutRequest :=
  mkOutRequest "PUT" "n1:80" "/kv/k" ""
    (header_set "X-Request-ID" (FormatInt n) (client_headers browser_put)) (to_bytes "hello").

Lemma forwarded_put_forwards n : forwards gw_config browser_put (Some n) (forwarded_put n).
Proof.
  unfold forwards, forwarded_put.
  cbn [o_Method o_Path o_RawQuery o_Body o_Host o_Header].
  split_and!; try done; rewrite ?header_get_set, ?header_get_set_ne by done; done.
Qed.


(** ** The leader *)

Lemma poll_results_none i addrs fetched leader :
  (∀ j st, fetched !! j = Some (Ok st) → gs_Role st ≠ "leader") →
  (poll_results i addrs fetched leader).2 = leader.
Proof.
  revert i fetched leader. induction addrs as [|a addrs IH]; intros i [|res fetched] leader H;
    [done..|]. cbn [poll_results].
  assert (∀ j st, fetched !! j = Some (Ok st) → gs_Role st ≠ "leader") as H'
    by (intros j; apply (H (S j))).
  set (st := match res with Ok _ => _ | Err _ => _ end).
  rewrite bool_decide_eq_false_2.
  2:{ subst st. destruct res as [s|e]; [by apply (H 0%nat)|done]. }
  specialize (IH (i + 1) fetched leader H'). by destruct (poll_results _ _ _ _).
Qed.

Lemma poll_results_leader i k addrs fetched leader a st :
  addrs !! k = Some a → fetched !! k = Some (Ok st) → gs_Role st = "leader" →
  (∀ j st', (k < j)%nat → fetched !! j = Some (Ok st') → gs_Role st' ≠ "leader") →
  (poll_results i addrs fetched leader).2 = (a, gs_NodeID st).
Proof.
  revert i k fetched leader. induction addrs as [|b addrs IH];
    intros i k [|res fetched] leader Ha Hf Hr Hlast; [done..|].
  cbn [poll_results]. set (st0 := match res with Ok _ => _ | Err _ => _ end).
  destruct k as [|k].
  - injection Ha as ->. injection Hf as ->. cbn in st0. subst st0.
    rewrite bool_decide_eq_true_2 by done.
    pose proof (poll_results_none (i + 1) addrs fetched (a, gs_NodeID st)) as Hn.
    specialize (Hn (λ j st' H, Hlast (S j) st' ltac:(lia) H)).
    by destruct (poll_results _ _ _ _).
  - specialize (IH (i + 1) k fetched
      (if bool_decide (gs_Role st0 = "leader") then (b, gs_NodeID st0) else leader)
      Ha Hf Hr (λ j st' Hj H, Hlast (S j) st' ltac:(lia) H)).
    by destruct (poll_results _ _ _ _).
Qed.

Lemma pollAllNodes_leader now fetched g :
  (leaderAddr (pollAllNodes now fetched g), leaderID (pollAllNodes now fetched g)) =
    (poll_results 0 (NodeAddrs (cfg g)) fetched ("", "")).2.
Proof.
  unfold pollAllNodes. destruct (poll_results _ _ _ _) as [sts [a i]].
  destruct (_ || _); reflexivity.
Qed.

(** The gateway finds the leader.  After a poll it forwards to the node
    that says it leads, when one does, and to no node when none does; when
    several say so it takes the last one of its list. *)
Theorem poll_finds_leader now fetched g :
  (∀ k a st, NodeAddrs (cfg g) !! k = Some a → fetched !! k = Some (Ok st) →
     gs_Role st = "leader" →
     (∀ j st', (k < j)%nat → fetched !! j = Some (Ok st') → gs_Role st' ≠ "leader") →
     leaderAddr (pollAllNodes now fetched g) = a ∧
     leaderID (pollAllNodes now fetched g) = gs_NodeID st) ∧
  ((∀ j st, fetched !! j = Some (Ok st) → gs_Role st ≠ "leader") →
     leaderAddr (pollAllNodes now fetched g) = "").
Proof.
  pose proof (pollAllNodes_leader now fetched g) as Hp. split.
  - intros k a st Ha Hf Hr Hlast. erewrite poll_results_leader in Hp by done.
    by injection Hp as -> ->.
  - intros Hn. rewrite poll_results_none in Hp by done. by injection Hp as -> _.
Qed.

(** A deposed leader that cannot be told so, listed after the new leader, is
    the one the gateway forwards to, though its term is older. *)
Definition leader_status (id : string) (term : Z) : GwStatus :=
  zero_GwStatus <| gs_NodeID := id |> <| gs_Role := "leader" |> <| gs_CurrentTerm := term |>.
Example stale_leader_wins :
  leaderAddr (pollAllNodes 0
    [Ok (leader_status "node1" 7); Err "timeout"; Ok (leader_status "node3" 4)]
    (New gw_config)) = "n3:80".
Proof. vm_compute. reflexivity. Qed.

(** An escaped slash in a key is decoded on the way: the node is asked for a
    path its multiplexer redirects. *)
Example escaped_key_redirected :
  let r := mkRequest "PUT" "/kv/a%2F%2Fb" "/kv/a//b" "" ∅ "10.0.0.7:51000" [] None in
  route (map fst (gw_routes (λ _, []) (λ _ w, w) gw_config)) (URL_EscapedPath r)
    = RoutedTo "/kv/" ∧
  route (map fst api_routes) (escape_path (URL_Path r)) = RoutedRedirect.
Proof. vm_compute. done. Qed.

Definition poll_example : Gateway :=
  pollAllNodes 0 [Err "timeout"; Ok (leader_status "node2" 7); Ok (zero_GwStatus <| gs_Role := "follower" |>)] (New gw_config).
Example poll_finds_leader_witness : leaderAddr poll_example = "n2:80" ∧
  leaderID poll_example = "node2".
Proof.
  apply (proj1 (poll_finds_leader 0 _ (New gw_config)) 1%nat "n2:80" (leader_status "node2" 7));
    try reflexivity.
  intros j st' Hj. destruct j as [|[|[|j]]]; [lia|lia| |done]. intros H; injection H as <-.
  vm_compute. discriminate.
Defined.

(** ** The state of the gateway *)

(** What can happen to the gateway. *)
Inductive gw_step : Gateway → Gateway → Prop :=
| gw_polled now fetched g : gw_step g (pollAllNodes now fetched g)
| gw_subscribed ch now g :
    sseClients g !! ch = None → gw_step g (subscribe ch now g).2
| gw_event ch ev g g' : next_event ch g = Some (ev, g') → gw_step g g'
| gw_unsubscribed ch g : gw_step g (unsubscribe ch g)
| gw_drawn g : gw_step g (g <| reqIDCounter ::= Z.succ |>).

Inductive gw_runs (c : GwConfig) : Gateway → Prop :=
| gw_start : gw_runs c (New c)
| gw_more g g' : gw_runs c g → gw_step g g' → gw_runs c g'.

(** The state is that of the last poll, and no channel is overfull. *)
Definition gw_ok (g : Gateway) : Prop :=
  LeaderURL (overview g) = leaderAddr g ∧ LeaderID (overview g) = leaderID g ∧
  map_Forall (λ _ q, (length q ≤ 8)%nat) (sseClients g) ∧
  (leaderAddr g = "" ∨ leaderAddr g ∈ NodeAddrs (cfg g)).

Lemma broadcast_room (ev : ClusterEvent) (m : gmap nat (list ClusterEvent)) :
  map_Forall (λ _ q, (length q ≤ 8)%nat) m →
  map_Forall (λ _ q, (length q ≤ 8)%nat)
    ((λ q, if bool_decide (length q < 8)%nat then q ++ [ev] else q) <$> m).
Proof.
  intros H ch q. rewrite lookup_fmap, fmap_Some. intros (q' & Hq & ->). specialize (H _ _ Hq).
  simpl in H. case_bool_decide; [rewrite length_app; simpl; lia|lia].
Qed.

Lemma poll_results_addr i addrs fetched leader :
  (poll_results i addrs fetched leader).2 = leader ∨
  (poll_results i addrs fetched leader).2.1 ∈ addrs.
Proof.
  revert i fetched leader. induction addrs as [|a addrs IH]; intros i [|res fetched] leader;
    [by left..|]. cbn [poll_results].
  match goal with |- context [poll_results _ _ _ (if ?b then ?x else ?y)] =>
    set (l := if b then x else y); specialize (IH (i + 1) fetched l) end.
  destruct (poll_results _ _ _ l) as [sts l']. cbn [snd] in *.
  destruct IH as [-> |IH]; [|right; by right].
  subst l. case_bool_decide; [right; by left|by left].
Qed.

Lemma gw_step_ok g g' : gw_ok g → gw_step g g' → gw_ok g'.
Proof.
  intros (Hu & Hi & Hq & Ha) Hs. destruct Hs as [now fetched g|ch now g Hnew|ch ev g g' Hn|ch g|g].
  - unfold pollAllNodes. pose proof (poll_results_addr 0 (NodeAddrs (cfg g)) fetched ("", ""))
      as Hr. destruct (poll_results _ _ _ _) as [sts [a i]]. cbn [snd fst] in Hr.
    assert (a = "" ∨ a ∈ NodeAddrs (cfg g)) as Ha' by (destruct Hr as [[= -> _]|?]; auto).
    destruct (_ || _); split_and!; simpl; try done. by apply broadcast_room.
  - split_and!; simpl; try done. by apply map_Forall_insert_2; [simpl; lia|].
  - unfold next_event in Hn. destruct (sseClients g !! ch) as [[|e q]|] eqn:Hc; try done.
    injection Hn as <- <-. split_and!; simpl; try done.
    apply map_Forall_insert_2; [|done]. specialize (Hq _ _ Hc). simpl in Hq. lia.
  - split_and!; simpl; try done. by apply map_Forall_delete.
  - by split_and!.
Qed.

(** C34. The state of the gateway.  Whatever polls, subscriptions, events and
    requests happen, what the overview shows as the leader is the node the
    requests go to, this is one of the configured nodes, and no subscriber
    holds more than 8 events back. *)
Theorem gateway_state c g : gw_runs c g → gw_ok g.
Proof.
  induction 1 as [|g g' _ IH Hs]; [|by eapply gw_step_ok].
  unfold New. destruct (_ =? _); split_and!; simpl; try done; by left.
Qed.

Example gateway_state_witness : gw_ok poll_example.
Proof.
  apply (gateway_state gw_config). eapply gw_more; [apply gw_start|]. apply gw_polled.
Defined.

(** ** The status of a node *)

(** The status of a node as the gateway holds it. *)
Definition seen_status (st : NodeStatus) : GwStatus :=
  mkGwStatus (st_node_id st) (st_role st) (st_current_term st) (st_commit_index st)
    (st_last_applied st) (st_log_length st) (st_voted_for st) (Some (st_cluster_members st))
    (st_cluster_size st) (st_joint_consensus st) (st_pending_config_change st).

Definition utf8_status (st : NodeStatus) : Prop :=
  utf8_string (st_node_id st) ∧ utf8_string (st_role st) ∧ utf8_string (st_voted_for st) ∧
  Forall utf8_string (st_cluster_members st) ∧
  Forall is_int64 [st_current_term st; st_commit_index st; st_last_applied st;
                   st_log_length st; st_cluster_size st].

Lemma value_text_members st : value_text (marshal_array (map quote (st_cluster_members st))).
Proof. apply value_text_array, Forall_map, Forall_true. intros. apply value_text_quote. Qed.

Lemma unmarshal_status st :
  utf8_status st →
  unmarshal GwStatus_fields zero_GwStatus (marshal_NodeStatus st) = Some (seen_status st).
Proof.
  intros (Hi & Hr & Hv & Hm & Hz). rewrite !Forall_cons in Hz.
  destruct Hz as (? & ? & ? & ? & ? & _). unfold marshal_NodeStatus. rewrite unmarshal_object.
  2:{ repeat (apply Forall_cons; split); simpl;
        auto using value_text_quote, value_text_int, value_text_bool, value_text_members. }
  unfold GwStatus_fields, zero_GwStatus, seen_status.
  repeat (progress (read_fields; try rewrite dec_strings_marshal by done)). done.
Qed.

Lemma first_value_text v rest err :
  value_text v → delim rest → (∃ s, v = "{"%byte :: s) → first_value (v ++ rest) err = Some v.
Proof.
  intros Hv Hd [s Hs]. unfold first_value. rewrite skip_ws_value by done.
  rewrite (vt_scan v Hv) by (rewrite ?length_app; auto; lia). cbn [mbind option_bind].
  rewrite take_app_sub. by rewrite Hs.
Qed.

(** The gateway sees each node as it is.  The status a node writes on its
    status page is the status the gateway decodes. *)
Theorem status_roundtrip st :
  utf8_status st →
  fetchNodeStatus (Ok (marshal_NodeStatus st ++ [x0a], None)) = Ok (seen_status st).
Proof.
  intros Hst. unfold fetchNodeStatus. rewrite first_value_text; [| |simpl; auto|by eexists].
  - cbn [mbind option_bind]. by rewrite unmarshal_status.
  - unfold marshal_NodeStatus. apply value_text_object.
    repeat (apply Forall_cons; split); simpl;
      auto using value_text_quote, value_text_int, value_text_bool, value_text_members.
Qed.

Definition status_example : NodeStatus :=
  mkNodeStatus "n1" "leader" 3 7 7 9 "n1" ["n1"; "n2"; "n3"] 3 false false.
Example status_roundtrip_witness :
  fetchNodeStatus (Ok (marshal_NodeStatus status_example ++ [x0a], None))
    = Ok (seen_status status_example).
Proof.
  apply status_roundtrip. refine (conj _ (conj _ (conj _ (conj _ _)))).
  1-3: by apply (utf8_check_sound 10).
  - repeat constructor; by apply (utf8_check_sound 10).
  - repeat constructor; done.
Defined.
