(* ===== verification/Service.v ===== *)
(** * The HTTP API on a node

    The handlers of [Api.v] run against the node of [Node.v].  A call the
    node answers at once is its method; a proposal goes through
    [handleClientCommand] or [handleConfigChange], and is answered when the
    handler itself answers its channel; a read goes through [Get].  A call that
    has to wait for other nodes has no answer here: [run_api] then gives
    [None]. *)

From S2P Require Import Prelude Types Config Json Envelope Disk Wal SnapshotStore.
From S2P Require Import Node Roles Election Apply Replication Client.
From S2P Require Import GoStrings Http Api.

Section Service.
Context {PC : ProtoCodec} {DL : Dialer}.

(** The node and the limiter of the server. *)
Definition Service : Type := Raft * RateLimiter.

(** The first answer on a channel. *)
Definition response_on (ch : nat) (es : list Effect) : option cmdResp :=
  head (omap (λ e, match e with
                   | SendResp c resp => if bool_decide (c = ch) then Some resp else None
                   | _ => None
                   end) es).

(** A proposal on a new channel, and the answer the step gives. *)
Definition propose_on (step : nat → Raft → Raft) (r : Raft) : option (ProposeResult * Raft) :=
  let ch := length (effects r) in
  let r' := step ch r in
  resp ← response_on ch (drop (length (effects r)) (effects r'));
  Some ((success resp, err resp), r').

(** [func (r Raft) Get(key)] when no other node is needed. *)
Definition get_on (key : string) (r : Raft) : option (GetResult * Raft) :=
  match Get_start key r with
  | GetAnswer res => Some (res, r)
  | GetConfirm readIndex term =>
      if bool_decide (effectivePeers r = ∅) then
        let '(ok, r') := confirmLeaderQuorum term [] r r in
        Some (Get_finish key readIndex term ok [r'] r', r')
      else None
  end.

(** [metrics] is the text of the metrics page. *)
Definition api_answer (metrics : string) (c : ApiCall) (s : Service)
    : option (ApiAnswer c * Service) :=
  let '(r, l) := s in
  match c return option (ApiAnswer c * Service) with
  | CAllow => let '(ok, l) := Allow (clock r) l in Some (ok, (r, l))
  | CIsLeader => Some (IsLeader r, s)
  | CGetPeerHTTPAddrs => Some (GetPeerHTTPAddrs r, s)
  | CGet key => '(res, r) ← get_on key r; Some (res, (r, l))
  | CProposeWithClient op key val clientID requestID =>
      match ProposeWithClient op key val clientID requestID with
      | Err e => Some ((false, Some e), s)
      | Ok cmd => '(res, r) ← propose_on (handleClientCommand cmd) r; Some (res, (r, l))
      end
  | CProposeConfigChange req =>
      '(res, r) ← propose_on (handleConfigChange req) r; Some (res, (r, l))
  | CGetStatus => Some (GetStatus r, s)
  | CGetID => Some (GetID r, s)
  | CMetrics => Some (metrics, s)
  | CRecord _ _ => Some (tt, s)
  end.

Fixpoint run_api {A} (metrics : string) (p : prog (C := api_calls) A) (s : Service)
    : option (A * Service) :=
  match p with
  | Done a => Some (a, s)
  | Ask c k => '(x, s) ← api_answer metrics c s; run_api metrics (k x) s
  end.

Lemma run_api_bind {A B} metrics (p : prog (C := api_calls) A) (f : A → prog B) s :
  run_api metrics (p ≫= f) s = '(a, s) ← run_api metrics p s; run_api metrics (f a) s.
Proof.
  revert s. induction p as [a|c k IH]; intros s; [done|].
  cbn [run_api mbind prog_mbind prog_bind]. destruct (api_answer metrics c s) as [[x s']|]; [|done].
  apply (IH x s').
Qed.
End Service.
