(* ===== verification/SoloServer.v ===== *)
(** * A server alone in its cluster is an atomic key-value store

    The HTTP API, the node, its log on the disk and the state machine put
    together, for a cluster of one node on a disk that works: each request on
    a key is answered as the specification machine answers it, and leaves the
    node in the state of that machine. *)

From S2P Require Import Prelude Types Config Json JsonFacts Envelope EnvelopeFacts Disk.
From S2P Require Import Wal ProtoWire WalSpec SnapshotStore Node Roles Election Apply.
From S2P Require Import Replication Client Startup NodeFacts StateMachine ApplyFacts.
From S2P Require Import ApplySpec ElectionFacts ReplicationSpec Scenarios.
From S2P Require Import GoStrings Http Api ApiSpec Service.

(** ** A node alone that leads *)

Record alone (r : Raft) : Prop := {
  al_wf : log_wf r;
  al_plain : plain_log r;
  al_leads : state r = Leader;
  al_peers : effectivePeers r = ∅;
  al_quorum i : checkCommitMajority i r = true;
  al_applied : lastApplied r = commitIndex r;
  al_commit : commitIndex r = lastLogIndex r;
  al_pending : proposals r = [];
  al_disk : healthy (disk r);
  al_wal : wal_file (wal r) = FileOpen
}.

Section Alone.
Context {PC : ProtoCodec} {DL : Dialer}.

Lemma writeRecord_works w rec d :
  healthy d → wal_file w = FileOpen →
  (is_Some (proto_Marshal rec) → (writeRecord w rec d).1 = None) ∧
  healthy (writeRecord w rec d).2.
Proof.
  intros Hd Hw. destruct (proto_Marshal rec) as [body|] eqn:Hb.
  - by rewrite (writeRecord_healthy w rec d body).
  - unfold writeRecord. rewrite Hb. split; [by intros [? ?]|done].
Qed.

Lemma Reset_works w d :
  healthy d → ∃ w' d', Reset w d = (None, w', d') ∧ healthy d' ∧ wal_file w' = FileOpen.
Proof.
  destruct d as [fs fl]. unfold healthy. simpl. intros ->. unfold Reset.
  destruct (wal_file w); (eexists _, _; split_and!; reflexivity).
Qed.

(** A compaction keeps the disk. *)
Lemma takeSnapshot_works r :
  healthy (disk r) → wal_file (wal r) = FileOpen →
  healthy (disk (takeSnapshot r)) ∧ wal_file (wal (takeSnapshot r)) = FileOpen.
Proof.
  intros Hd Hw. unfold takeSnapshot. cbv zeta.
  destruct (SaveSnapshot_healthy (snapshotPath r) (make_snapshot r) (disk r) Hd) as [He Hd1].
  destruct (SaveSnapshot _ _ _) as [e d]. simpl in He, Hd1. subst e.
  match goal with |- context [wal_reset ?x] => set (r1 := x) end.
  assert (disk r1 = d) as Hr1 by done. clearbody r1. unfold wal_reset. rewrite Hr1.
  destruct (Reset_works (wal r1) d Hd1) as (w' & d' & -> & Hd' & Hw').
  rewrite wal_try_frame. rsimpl. split; [|done]. by apply writeRecord_works.
Qed.

(** The last steps of [applyLogs], for one pending proposal: the last entry. *)
Lemma after_loop_answers r p :
  log_wf r → healthy (disk r) → wal_file (wal r) = FileOpen → proposals r = [p] →
  p_index p = commitIndex r → commitIndex r = lastLogIndex r →
  p_term p = getEntryTerm r (commitIndex r) →
  effects (after_loop r) = effects r ++ [SendResp (p_respCh p) (mkCmdResp true None)] ∧
  proposals (after_loop r) = [] ∧
  healthy (disk (after_loop r)) ∧ wal_file (wal (after_loop r)) = FileOpen.
Proof.
  intros Hwf Hd Hw Hps Hpi Hc Hpt. pose proof (lastLogIndex_wf r Hwf) as Hlast.
  pose proof Hwf as (Hb0 & Hm & _). unfold after_loop.
  match goal with |- context [complete_proposals ?x] => set (r2 := x) end.
  assert (effects r2 = effects r ∧ proposals r2 = proposals r ∧ commitIndex r2 = commitIndex r ∧
    healthy (disk r2) ∧ wal_file (wal r2) = FileOpen ∧ same_log r r2 ∧
    lastIncludedIndex r2 ≤ commitIndex r) as (He & Hp & Hci & Hd2 & Hw2 & Hs & Hb).
  { unfold r2. destruct (_ && _).
    - destruct (takeSnapshot_works r Hd Hw).
      assert (same_log r (takeSnapshot r)) by (apply takeSnapshot_same_log; [done|lia]).
      destruct (takeSnapshot_cases r) as [[d Hr]|(w & d & Hr)]; rewrite Hr in *;
        split_and!; try done; rsimpl; lia.
    - split_and!; try done; first [by apply same_log_ext|lia]. }
  clearbody r2. destruct Hs as [_ _ _ _ Ht].
  assert (Hans : p_term p =? getEntryTerm r2 (p_index p) = true).
  { rewrite Hpi, (Ht _ Hb), Hpt; [apply Z.eqb_refl|]. apply is_int64_between. lia. }
  unfold complete_proposals. rewrite for_each_emit, Hp, Hps.
  assert (p_index p ≤ commitIndex r2) as Hle by lia.
  assert (filter (λ q, p_index q ≤ commitIndex r2) [p] = [p]) as ->
    by by rewrite filter_cons_True.
  assert (filter (λ q, ¬ p_index q ≤ commitIndex r2) [p] = []) as ->
    by (rewrite filter_cons_False; [done|]; intros Hn; by apply Hn).
  cbn [map]. rewrite Hans. rsimpl. by rewrite He.
Qed.

(** A node whose last entry, a plain one, is proposed and not yet committed. *)
Lemma commit_last r p e :
  log_wf r → plain_log r → indices_ok r → last (log r) = Some e →
  commitIndex r = lastLogIndex r - 1 → lastApplied r = commitIndex r →
  Term e = currentTerm r → proposals r = [p] → p_index p = lastLogIndex r →
  p_term p = currentTerm r → healthy (disk r) → wal_file (wal r) = FileOpen →
  let r' := applyLogs (r <| commitIndex := lastLogIndex r |>) in
  same_log r r' ∧ indices_ok r' ∧ plain_apply r r' ∧
  commitIndex r' = lastLogIndex r ∧ lastApplied r' = lastLogIndex r ∧
  sm_of r' = sm_entry (Some e) (sm_of r) ∧
  effects r' = effects r ++ [SendResp (p_respCh p) (mkCmdResp true None)] ∧
  proposals r' = [] ∧ healthy (disk r') ∧ wal_file (wal r') = FileOpen.
Proof.
  intros Hwf Hpl Hi He Hc Ha Het Hps Hpi Hpt Hd Hw. cbv zeta.
  destruct (commit_follows (lastLogIndex r) r Hwf Hi Hpl) as ([Hs Hii Hpa _] & Hc' & Ha');
    [lia|]. pose proof (lastLogIndex_wf r Hwf) as Hlast. pose proof Hwf as (Hb0 & Hm & Hlay).
  destruct Hi as [Hi1 Hi2].
  set (r1 := r <| commitIndex := lastLogIndex r |>) in *.
  assert (log_wf r1) as Hwf1 by done.
  assert (lastLogIndex r1 = lastLogIndex r ∧ commitIndex r1 = lastLogIndex r ∧
    lastApplied r1 = lastApplied r ∧ lastIncludedIndex r1 = lastIncludedIndex r ∧
    (∀ i, getEntry r1 i = getEntry r i)) as (Hl1 & Hc1 & Ha1 & Hbr & Hg1) by done.
  assert (indices_ok r1) as Hi by (unfold indices_ok; lia).
  assert (getEntry r (lastLogIndex r) = Some e) as Hge.
  { rewrite getEntry_log by first [done|lia|apply is_int64_between; lia].
    rewrite last_lookup in He. rewrite <- He. f_equal.
    pose proof (lookup_lt_Some _ _ _ He). lia. }
  destruct (applyLogs_sm r1 Hwf1) as (Hsm & _ & _); [lia|lia|].
  assert (sm_of (applyLogs r1) = sm_entry (Some e) (sm_of r)) as Hsm'.
  { rewrite Hsm. rewrite Ha1, Ha, Hc, Hc1. unfold sm_range.
    rewrite index_range_cons, index_range_nil by lia. cbn [foldl].
    rewrite Hg1. replace (lastLogIndex r - 1 + 1) with (lastLogIndex r) by lia. by rewrite Hge. }
  destruct (apply_loop_same_log r1) as (Hs1 & Hb1 & Ht1 & Hc2 & Ha2);
    [done..|by right|].
  assert (Hal : effects (applyLogs r1) = effects r1 ++ [SendResp (p_respCh p) (mkCmdResp true None)]
    ∧ proposals (applyLogs r1) = [] ∧ healthy (disk (applyLogs r1)) ∧
    wal_file (wal (applyLogs r1)) = FileOpen).
  { rewrite applyLogs_split.
    destruct (apply_loop_plain (Z.to_nat (commitIndex r1 - lastApplied r1)) r1 Hpl)
      as (k & t & a & Hl). rewrite Hl in *. destruct Hs1 as [Hwf2 _ Hl2 _ Htt].
    change (effects r1) with (effects (r1 <| kv := k |> <| dedupTable := t |>
      <| lastApplied := a |>)).
    apply after_loop_answers; try done; rewrite Hc2, Hc1; try done.
    rewrite Htt; [|rewrite Hb1; lia|apply is_int64_between; lia].
    unfold getEntryTerm. by rewrite Hg1, Hge, Het. }
  destruct Hal as (He1 & Hp1 & Hd1 & Hw1). by split_and!.
Qed.

Lemma broadcast_none r : effectivePeers r = ∅ → broadcastHeartbeats r = r.
Proof.
  intros H. unfold broadcastHeartbeats. by rewrite H, map_to_list_empty.
Qed.

(** A command on a node alone is applied and answered before the handler
    returns, and the node is as it was but for the entry. *)
Lemma alone_command cmd ch r :
  alone r → lastLogIndex r + 1 < max_int64 →
  (∀ i t, no_config (mkLogEntry i t cmd)) →
  is_Some (proto_Marshal (WAL_Entry (mkLogEntry (lastLogIndex r + 1) (currentTerm r) cmd))) →
  let e := mkLogEntry (lastLogIndex r + 1) (currentTerm r) cmd in
  let r' := handleClientCommand cmd ch r in
  alone r' ∧ sm_of r' = sm_entry (Some e) (sm_of r) ∧
  effects r' = effects r ++ [SendResp ch (mkCmdResp true None)] ∧
  lastLogIndex r' = lastLogIndex r + 1.
Proof.
  intros [Hwf Hpl Hlead Hpeers Hq Ha Hc Hps Hd Hw] Hmax Hno Hm. cbv zeta.
  pose proof (lastLogIndex_wf r Hwf) as Hlast. pose proof Hwf as (Hb0 & Hlen & Hlay).
  unfold handleClientCommand. rewrite bool_decide_eq_false_2 by (intros Hn; by apply Hn).
  rewrite int64_add_small by (apply is_int64_between; lia).
  set (e := mkLogEntry (lastLogIndex r + 1) (currentTerm r) cmd). cbv zeta.
  rewrite wal_do_frame. set (r0 := r <| log ::= _ |>).
  destruct (writeRecord_works (wal r0) (WAL_Entry e) (disk r0) Hd Hw) as [He Hd'].
  unfold AppendEntry. rewrite (He Hm).
  set (d' := (writeRecord (wal r0) (WAL_Entry e) (disk r0)).2) in *. clearbody d'.
  match goal with |- context [broadcastHeartbeats ?x] => set (r1 := x) end.
  assert (Hr1 : r1 = r <| log ::= λ l, l ++ [e] |> <| disk := d' |>
    <| proposalTime ::= insert (lastLogIndex r + 1) (clock r) |>
    <| proposals := [mkProposal (lastLogIndex r + 1) (currentTerm r) ch] |>).
  { transitivity (r <| log ::= λ l, l ++ [e] |> <| disk := d' |>
      <| proposalTime ::= insert (lastLogIndex r + 1) (clock r) |>
      <| proposals := proposals r ++ [mkProposal (lastLogIndex r + 1) (currentTerm r) ch] |>);
      [unfold r1, r0; solve_upd|by rewrite Hps]. }
  assert (effectivePeers r1 = ∅) as Hp1 by (by rewrite Hr1).
  rewrite (broadcast_none r1 Hp1).
  clearbody r1.
  assert (log_wf r1 ∧ plain_log r1 ∧ last (log r1) = Some e ∧ commitIndex r1 = commitIndex r ∧
    lastApplied r1 = lastApplied r ∧ currentTerm r1 = currentTerm r ∧ state r1 = state r ∧
    lastIncludedIndex r1 = lastIncludedIndex r ∧ effects r1 = effects r ∧
    sm_of r1 = sm_of r ∧ disk r1 = d' ∧ wal r1 = wal r ∧
    proposals r1 = [mkProposal (lastLogIndex r + 1) (currentTerm r) ch])
    as (Hwf1 & Hpl1 & He1 & Hc1 & Ha1 & Ht1 & Hs1 & Hb1 & Hef1 & Hsm1 & Hd1 & Hw1 & Hps1).
  { rewrite Hr1. split_and!; try done.
    - apply (log_wf_snoc r e); [done|done|lia].
    - unfold plain_log. rsimpl. apply Forall_app. split; [done|]. apply Forall_singleton, Hno.
    - rsimpl. by rewrite last_snoc. }
  assert (Hl1 : lastLogIndex r1 = lastLogIndex r + 1) by (unfold lastLogIndex at 1; by rewrite He1).
  assert (Hq1 : ∀ i, checkCommitMajority i r1 = true).
  { intros i. rewrite <- (Hq i). by rewrite Hr1. }
  clear Hr1 He. rewrite Hp1, bool_decide_eq_true_2, Hq1 by done. cbn [andb].
  change (Index e) with (lastLogIndex r + 1). rewrite <- Hl1.
  destruct (commit_last r1 (mkProposal (lastLogIndex r + 1) (currentTerm r) ch) e)
    as (Hs & Hi & Hpa & Hc' & Ha' & Hsm & Hef & Hps' & Hdd & Hww);
    try done; try lia; try (by rewrite ?Hl1, ?Ht1).
  - unfold indices_ok. lia.
  - by rewrite Hd1.
  - by rewrite Hw1.
  - set (r' := applyLogs _) in *. clearbody r'.
    destruct Hs as [Hwf' Hb' Hl' _ _]. destruct Hpa as [Pid Pt Ps Pc Pp Pm Ppl].
    split_and!; [|by rewrite <- Hsm1|by rewrite Hef, Hef1|done].
    split; try done; try congruence.
    + unfold effectivePeers in *. by rewrite Pid, Pc, Pp.
    + intros i. rewrite <- (Hq1 i). by apply checkCommitMajority_ext.
Qed.

(** ** The calls of the API *)

(** The next entry, with this command, can be written to the log: it is below
    2 GiB. *)
Definition writable (r : Raft) (c : Command) : Prop :=
  ∀ b, EncodeCommandEntry (marshal_Command c) = Ok b →
    is_Some (proto_Marshal (WAL_Entry (mkLogEntry (lastLogIndex r + 1) (currentTerm r) b))).

Lemma response_on_one ch resp : response_on ch [SendResp ch resp] = Some resp.
Proof. unfold response_on. cbn. by rewrite bool_decide_eq_true_2. Qed.

Lemma alone_write metrics op key val client request r l :
  alone r → lastLogIndex r + 1 < max_int64 →
  utf8_command (mkCommand op key val client request) →
  writable r (mkCommand op key val client request) →
  ∃ r', api_answer metrics (CProposeWithClient op key val client request) (r, l) =
      Some ((true, None), (r', l)) ∧
    alone r' ∧ sm_of r' = sm_command (mkCommand op key val client request) (sm_of r) ∧
    lastLogIndex r' = lastLogIndex r + 1.
Proof.
  intros Hal Hmax Hu Hwr. set (c := mkCommand op key val client request) in *.
  destruct (proposed_entry c (lastLogIndex r + 1) (currentTerm r) Hu) as (b & Hb & He).
  assert (∀ i t, no_config (mkLogEntry i t b)) as Hno
    by (intros i t; by eapply (proposed_plain op key val client request)).
  destruct (alone_command b (length (effects r)) r Hal Hmax Hno (Hwr _ Hb))
    as (Hal' & Hsm & Hef & Hl).
  cbn [api_answer]. unfold ProposeWithClient. fold c. rewrite Hb.
  unfold propose_on. set (r' := handleClientCommand _ _ r) in *.
  exists r'. rewrite Hef, drop_app_length, response_on_one. cbn [mbind option_bind].
  split_and!; [done..| |done]. rewrite Hsm. cbn [sm_entry]. by rewrite He.
Qed.

Lemma alone_get key r :
  alone r → ∃ r', get_on key r = Some (read_kv r key, r') ∧ alone r' ∧ sm_of r' = sm_of r ∧
    lastLogIndex r' = lastLogIndex r.
Proof.
  intros Hal. pose proof Hal as [Hwf Hpl Hlead Hpeers Hq Ha Hc Hps Hd Hw].
  unfold get_on, Get_start. rewrite bool_decide_eq_false_2 by (intros Hn; by apply Hn).
  cbv zeta. case_bool_decide; [by exists r|]. destruct (_ && _); [by exists r|].
  rewrite bool_decide_eq_true_2 by done. unfold confirmLeaderQuorum.
  rewrite bool_decide_eq_false_2 by (intros Hn; by apply Hn). rewrite Z.eqb_refl. cbn [negb orb].
  rewrite bool_decide_eq_true_2 by done.
  set (r' := r <| lastHeartbeatQuorum := Some (clock r) |>). exists r'.
  unfold Get_finish, waitForAppliedIndex. cbn [existsb negb].
  change (lastApplied r') with (lastApplied r). rewrite Ha, Z.leb_refl. cbn [orb negb].
  rewrite bool_decide_eq_false_2 by (intros Hn; by apply Hn).
  change (currentTerm r') with (currentTerm r). rewrite Z.eqb_refl. cbn [negb orb].
  split_and!; [done| |done..]. by split.
Qed.
End Alone.

(** ** The specification of the server *)

Definition request_key (rq : Request) : string := TrimPrefix (URL_Path rq) "/kv/".

(** The command of a write request. *)
Definition write_of (rq : Request) : Command :=
  if bool_decide (rq_Method rq = "PUT") then
    let '(client, request, val) := extractClientMetadata rq (rq_Body rq) in
    mkCommand "PUT" (request_key rq) val client request
  else
    let '(client, request, _) :=
      extractClientMetadata rq (ReadLimited (Z.to_nat (MaxValueSize + 1)) rq).1 in
    mkCommand "DEL" (request_key rq) "" client request.

Definition ok_json : string := "{" +:+ dquoted "status" +:+ ": " +:+ dquoted "ok" +:+ "}".

(** The status and the body of the answer, and the new state. *)
Definition kv_spec (rq : Request) (st : SM) : Z * string * SM :=
  if bool_decide (rq_Method rq = "GET") then
    match st.1 !! request_key rq with
    | Some v => (200, value_json (request_key rq) v, st)
    | None => (404, error_json "key not found" +:+ newline, st)
    end
  else (200, ok_json, sm_command (write_of rq) st).

(** The requests the server does not turn away. *)
Record admitted {PC : ProtoCodec} (s : Server) (r : Raft) (rq : Request) : Prop := {
  adm_key : request_key rq ≠ "";
  adm_size : Z.of_nat (String.length (request_key rq)) ≤ MaxKeySize;
  adm_auth : authenticate s rq = None;
  adm_method : rq_Method rq ∈ ["GET"; "PUT"; "DELETE"];
  adm_body : rq_Method rq = "PUT" →
    rq_BodyErr rq = None ∧ Z.of_nat (length (rq_Body rq)) ≤ MaxValueSize;
  adm_utf8 : rq_Method rq ≠ "GET" → utf8_command (write_of rq) ∧ writable r (write_of rq)
}.

Section Refinement.
Context {PC : ProtoCodec} {DL : Dialer}.

Lemma alone_propose metrics method op key val client request r l :
  alone r → lastLogIndex r + 1 < max_int64 →
  utf8_command (mkCommand op key val client request) →
  writable r (mkCommand op key val client request) →
  ∃ w r', run_api metrics (propose_write method op key val client request new_writer) (r, l)
      = Some (w, (r', l)) ∧ alone r' ∧ status_of w = 200 ∧ w_body w = ok_json ∧
    sm_of r' = sm_command (mkCommand op key val client request) (sm_of r) ∧
    lastLogIndex r' = lastLogIndex r + 1.
Proof.
  intros Hal Hmax Hu Hwr.
  destruct (alone_write metrics op key val client request r l Hal Hmax Hu Hwr)
    as (r' & Ha & Hal' & Hsm & Hl).
  unfold propose_write. cbn [run_api mbind prog_mbind prog_bind call ask].
  rewrite Ha. eexists _, r'. by split_and!.
Qed.

Lemma alone_handleGet metrics key r l :
  alone r →
  ∃ w r', run_api metrics (handleGet key new_writer) (r, l) = Some (w, (r', l)) ∧ alone r' ∧
    sm_of r' = sm_of r ∧ lastLogIndex r' = lastLogIndex r ∧
    (status_of w, w_body w) =
      match kv r !! key with
      | Some v => (200, value_json key v)
      | None => (404, error_json "key not found" +:+ newline)
      end.
Proof.
  intros Hal. destruct (alone_get key r Hal) as (r' & Hg & Hal' & Hsm & Hl).
  unfold handleGet. cbn [run_api mbind prog_mbind prog_bind call ask api_answer].
  rewrite Hg. unfold read_kv, lookup_str. cbn [mbind option_bind]. destruct (kv r !! key) as [v|] eqn:Hk.
  - rewrite bool_decide_eq_true_2 by done. eexists _, r'. by split_and!.
  - rewrite bool_decide_eq_false_2 by (by intros [? ?]). eexists _, r'. by split_and!.
Qed.
End Refinement.


(** The single node after its first write. *)
Definition solo_written : Raft := handleClientCommand (put "a" "1" "c" 5) 1 solo.

Lemma solo_written_alone : alone solo_written.
Proof.
  split.
  5: intros i; vm_compute; reflexivity.
  8-9: vm_compute; reflexivity.
  all: apply (bool_decide_unpack _); vm_compute; exact I.
Qed.

Definition put_request : Request :=
  request "PUT" "/kv/b" [("X-Client-ID", "c"); ("X-Request-ID", "6")] (to_bytes "hi").
Definition open_server : Server := mkServer "" "" false.
Definition full_limiter : RateLimiter := (NewServer "" "" false 0).2.


(** A write that the log file refuses is answered 500, but it stays in the
    log of the leader and takes effect with the next write. *)
Definition failing_solo : Raft := solo_written <| disk ::= λ d, mkDisk (files d) [IoFail 0] |>.
Definition http_put (key val : string) (s : Service) : option (Z * Service) :=
  '(w, s) ← run_api "" (handleKV open_server
    (request "PUT" ("/kv/" +:+ key) [] (to_bytes val)) new_writer) s;
  Some (status_of w, s).
Example failed_write_applied :
  ∃ s1 s2, http_put "x" "1" (failing_solo, full_limiter) = Some (500, s1) ∧
    kv s1.1 !! "x" = None ∧
    http_put "y" "2" s1 = Some (200, s2) ∧ kv s2.1 !! "x" = Some "1".
Proof.
  destruct (http_put "x" "1" (failing_solo, full_limiter)) as [[c1 s1]|] eqn:H1; [|by vm_compute in H1].
  destruct (http_put "y" "2" s1) as [[c2 s2]|] eqn:H2.
  - exists s1, s2. vm_compute in H1. injection H1 as <- <-. vm_compute in H2. by injection H2 as <- <-.
  - vm_compute in H1. injection H1 as <- <-. by vm_compute in H2.
Qed.
