(* ===== verification/EndToEnd.v ===== *)
(** * From a browser to the state machine

    The gateway, the API, the node and the state machine together: the
    identity the gateway gives to requests and the deduplication of the state
    machine. *)

From S2P Require Import Prelude Types Config Json JsonFacts Envelope EnvelopeFacts Disk.
From S2P Require Import Wal SnapshotStore Node Roles Election Apply Replication Client.
From S2P Require Import StateMachine Scenarios GoStrings Http Api ApiSpec Gateway GatewaySpec.
From S2P Require Import Service SoloServer.

(** A text written through the gateway by a client without headers of its own:
    the request, what the gateway forwarded, and the number it drew. *)
Record gateway_write (c : GwConfig) (r : Request) (n : Z) (req : OutRequest) : Prop := {
  gwr_forwards : forwards c r (Some n) req;
  gwr_anonymous : header_get (rq_Header r) "X-Client-ID" = "";
  gwr_number : 0 < n < 2 ^ 63;
  gwr_text : the_value (rq_Body r) = None;
  gwr_size : Z.of_nat (length (rq_Body r)) ≤ MaxValueSize
}.

(** The command it becomes. *)
Definition gateway_command (r : Request) (n : Z) (key : string) : Command :=
  mkCommand "PUT" key (of_bytes (rq_Body r)) (sessionID r) n.

Lemma gateway_command_proposed c r n req remote key w :
  gateway_write c r n req →
  handlePut (delivered remote req) key w =
    let cmd := gateway_command r n key in
    propose_write "PUT" (Op cmd) (Key cmd) (Val cmd) (ClientID cmd) (RequestID cmd) w.
Proof.
  intros [Hf Hc Hn Ht Hs]. pose proof (forwards_signed c r n req remote Hf Hc Hn) as Hsig.
  destruct Hf as (_ & _ & _ & Hb & _). rewrite <- Hb in *.
  cbn [gateway_command Op Key Val ClientID RequestID].
  apply handlePut_proposes; [done|done|]. rewrite <- Hb. apply extract_text; [done|].
  unfold unmarshal_KVPayload, unmarshal. rewrite Hb in *. cbn [rq_Body delivered].
  by rewrite Ht.
Qed.

(** A command of a client with a number not above one already applied. *)
Lemma sm_stale cmd1 cmd2 st :
  is_write cmd1 = true → has_request cmd1 = true → has_request cmd2 = true →
  ClientID cmd1 = ClientID cmd2 → RequestID cmd2 ≤ RequestID cmd1 →
  sm_command cmd2 (sm_command cmd1 st) = sm_command cmd1 st.
Proof.
  intros Hw H1 H2 Hc Hr. apply seen_by_noop; [|done]. intros Hw2 _.
  pose proof (seen_by_command cmd1 st Hw H1). rewrite <- Hc. lia.
Qed.


(** Two texts written from one address, before and after a restart. *)
Definition browser_put2 : Request := request "PUT" "/kv/k" [] (to_bytes "bye now").
Definition forwarded_put2 (n : Z) : OutRequest :=
  mkOutRequest "PUT" "n1:80" "/kv/k" ""
    (header_set "X-Request-ID" (FormatInt n) (client_headers browser_put2)) (to_bytes "bye now").

Lemma forwarded_puts n :
  forwards gw_config browser_put (Some n) (forwarded_put n) ∧
  forwards gw_config browser_put2 (Some n) (forwarded_put2 n).
Proof.
  split; [apply forwarded_put_forwards|]. unfold forwards, forwarded_put2.
  cbn [o_Method o_Path o_RawQuery o_Body o_Host o_Header].
  split_and!; try done; rewrite ?header_get_set, ?header_get_set_ne by done; done.
Qed.


(** The same on a node: both writes are answered 200, and the first value
    stays. *)
Definition send (req : OutRequest) (s : Service) : option (Z * Service) :=
  '(w, s) ← run_api "" (handleKV open_server (delivered "gw:1" req) new_writer) s;
  Some (status_of w, s).
Example restart_on_a_node :
  ∃ s1 s2, send (forwarded_put 3) (solo_written, full_limiter) = Some (200, s1) ∧
    kv s1.1 !! "k" = Some "hello" ∧
    send (forwarded_put2 (reqIDCounter (New gw_config) + 1)) s1 = Some (200, s2) ∧
    kv s2.1 !! "k" = Some "hello".
Proof.
  destruct (send (forwarded_put 3) (solo_written, full_limiter)) as [[c1 s1]|] eqn:H1;
    [|by vm_compute in H1].
  destruct (send (forwarded_put2 (reqIDCounter (New gw_config) + 1)) s1) as [[c2 s2]|] eqn:H2.
  - exists s1, s2. vm_compute in H1. injection H1 as <- <-. vm_compute in H2. by injection H2 as <- <-.
  - vm_compute in H1. injection H1 as <- <-. by vm_compute in H2.
Qed.
