(* ===== verification/Metrics.v ===== *)
(** * Metrics

    [raft/metrics.go]: gauges, counters and histograms, with and without
    labels, the registry of a process and its text.  [FormatFloat] is
    [strconv.FormatFloat(v, 'f', -1, 64)], the shortest decimal that reads back
    as [v]; only where it appears matters here.  A loop over a map visits it in
    the order of [map_to_list]. *)

From Stdlib Require Import SpecFloat Ascii.
From S2P Require Import Prelude Types Config Json GoFloat GoStrings.

Class FloatText := { FormatFloat : float64 → string }.

(** The line feed at the end of a line. *)
Definition nl : string := of_bytes [x0a].

Definition uint64_add1 (z : Z) : Z := (z + 1) mod 2 ^ 64.

(** ** Labels *)

(** [func joinLabels(values []string) string] *)
Fixpoint joinLabels (values : list string) : string :=
  match values with
  | [] => ""
  | [v] => v
  | v :: values => v +:+ "|" +:+ joinLabels values
  end.

(** The loop of [splitLabels] over the runes of the key; a byte that is not
    UTF-8 reads as U+FFFD.  Each turn reads a byte or more, so the length of
    the key is enough fuel. *)
Fixpoint split_runes (fuel : nat) (s : bytes) (current : bytes) : list string :=
  match fuel, s with
  | _, [] | O, _ => [of_bytes current]
  | S f, b :: s' =>
      if bool_decide (b = "|"%byte) then of_bytes current :: split_runes f s' []
      else
        match rune_size s with
        | O => split_runes f s' (current ++ [xef; xbf; xbd])
        | n => split_runes f (drop n s) (current ++ take n s)
        end
  end.

(** [func splitLabels(key string) []string] *)
Definition splitLabels (key : string) : list string :=
  if bool_decide (key = "") then [] else split_runes (String.length key) (to_bytes key) [].

(** [func formatLabels(names, values []string) string] *)
Fixpoint formatLabels (names values : list string) : string :=
  match names with
  | [] => ""
  | name :: names =>
      name +:+ "=" +:+ dquoted (default "" (head values)) +:+
      match names with [] => "" | _ => "," +:+ formatLabels names (tail values) end
  end.

(** ** The metrics *)

Record Gauge := mkGauge { g_name : string; g_help : string; g_value : float64 }.
Record Counter := mkCounter { c_name : string; c_help : string; c_value : float64 }.
Record LabeledCounter := mkLabeledCounter {
  lc_name : string; lc_help : string; lc_labels : list string;
  lc_values : gmap string float64
}.
Record Histogram := mkHistogram {
  h_name : string; h_help : string; buckets : list float64;
  counts : list Z; sum : float64; count : Z
}.
Record LabeledHistogram := mkLabeledHistogram {
  lh_name : string; lh_help : string; lh_labels : list string;
  lh_buckets : list float64; hists : gmap string Histogram
}.

Definition zero : float64 := float_of_Z 0.

(** [NewGauge] and the other constructors, before the registration. *)
Definition NewGauge (name help : string) : Gauge := mkGauge name help zero.
Definition NewCounter (name help : string) : Counter := mkCounter name help zero.
Definition NewLabeledCounter (name help : string) (labels : list string) : LabeledCounter :=
  mkLabeledCounter name help labels ∅.
Definition NewHistogram (name help : string) (bs : list float64) : Histogram :=
  mkHistogram name help bs (repeat 0 (length bs)) zero 0.
Definition NewLabeledHistogram (name help : string) (labels : list string)
    (bs : list float64) : LabeledHistogram := mkLabeledHistogram name help labels bs ∅.

(** [func (g Gauge) Set(v)], [func (c Counter) Inc()], [Add(v)] *)
Definition Gauge_Set (v : float64) (g : Gauge) : Gauge := mkGauge (g_name g) (g_help g) v.
Definition Counter_Add (v : float64) (c : Counter) : Counter :=
  mkCounter (c_name c) (c_help c) (float_add (c_value c) v).
Definition Counter_Inc : Counter → Counter := Counter_Add (float_of_Z 1).

(** [func (lc LabeledCounter) Inc(labelValues ...string)] *)
Definition LabeledCounter_Inc (labelValues : list string) (lc : LabeledCounter)
    : LabeledCounter :=
  let key := joinLabels labelValues in
  mkLabeledCounter (lc_name lc) (lc_help lc) (lc_labels lc)
    (<[key := float_add (default zero (lc_values lc !! key)) (float_of_Z 1)]> (lc_values lc)).

(** [func (h Histogram) Observe(v float64)] *)
Definition Observe (v : float64) (h : Histogram) : Histogram :=
  mkHistogram (h_name h) (h_help h) (buckets h)
    (zip_with (λ b n, if SFleb v b then uint64_add1 n else n) (buckets h) (counts h))
    (float_add (sum h) v) (uint64_add1 (count h)).

(** [func (lh LabeledHistogram) Observe(value, labelValues ...string)] *)
Definition LabeledHistogram_Observe (v : float64) (labelValues : list string)
    (lh : LabeledHistogram) : LabeledHistogram :=
  let key := joinLabels labelValues in
  let h := default (NewHistogram (lh_name lh) (lh_help lh) (lh_buckets lh)) (hists lh !! key) in
  mkLabeledHistogram (lh_name lh) (lh_help lh) (lh_labels lh) (lh_buckets lh)
    (<[key := Observe v h]> (hists lh)).

(** ** The text *)

Section Text.
Context {F : FloatText}.

Definition comments (name help type : string) : string :=
  "# HELP " +:+ name +:+ " " +:+ help +:+ nl +:+ "# TYPE " +:+ name +:+ " " +:+ type +:+ nl.
Definition sample (series value : string) : string := series +:+ " " +:+ value +:+ nl.

Definition Gauge_serialize (g : Gauge) : string :=
  comments (g_name g) (g_help g) "gauge" +:+ sample (g_name g) (FormatFloat (g_value g)).
Definition Counter_serialize (c : Counter) : string :=
  comments (c_name c) (c_help c) "counter" +:+ sample (c_name c) (FormatFloat (c_value c)).

Definition concat_text (l : list string) : string := foldr String.append "" l.

Definition LabeledCounter_serialize (lc : LabeledCounter) : string :=
  comments (lc_name lc) (lc_help lc) "counter" +:+
  concat_text (map (λ kv,
    sample (lc_name lc +:+ "{" +:+ formatLabels (lc_labels lc) (splitLabels kv.1) +:+ "}")
      (FormatFloat kv.2)) (map_to_list (lc_values lc))).

(** A bucket line; [labels] is empty or ends with a comma. *)
Definition bucket_line (name labels le : string) (n : Z) : string :=
  sample (name +:+ "_bucket{" +:+ labels +:+ "le=" +:+ dquoted le +:+ "}") (FormatInt n).

(** The loop over the buckets, with the cumulative count. *)
Fixpoint bucket_lines (name labels : string) (cumulative : Z) (bs : list float64)
    (ns : list Z) : string :=
  match bs, ns with
  | b :: bs, n :: ns =>
      let cumulative := (cumulative + n) mod 2 ^ 64 in
      bucket_line name labels (FormatFloat b) cumulative +:+
      bucket_lines name labels cumulative bs ns
  | _, _ => ""
  end.

(** The lines of one histogram; [suffix] is the label set of its sum and its
    count. *)
Definition histogram_lines (name labels suffix : string) (h : Histogram) : string :=
  bucket_lines name labels 0 (buckets h) (counts h) +:+
  bucket_line name labels "+Inf" (count h) +:+
  sample (name +:+ "_sum" +:+ suffix) (FormatFloat (sum h)) +:+
  sample (name +:+ "_count" +:+ suffix) (FormatInt (count h)).

Definition Histogram_serialize (h : Histogram) : string :=
  comments (h_name h) (h_help h) "histogram" +:+ histogram_lines (h_name h) "" "" h.

Definition LabeledHistogram_serialize (lh : LabeledHistogram) : string :=
  comments (lh_name lh) (lh_help lh) "histogram" +:+
  concat_text (map (λ kv,
    let labels := formatLabels (lh_labels lh) (splitLabels kv.1) in
    histogram_lines (lh_name lh) (labels +:+ ",") ("{" +:+ labels +:+ "}") kv.2)
    (map_to_list (hists lh))).

(** ** The registry of the process *)

Inductive Metric :=
| MGauge (g : Gauge)
| MCounter (c : Counter)
| MLabeledCounter (lc : LabeledCounter)
| MHistogram (h : Histogram)
| MLabeledHistogram (lh : LabeledHistogram).

Definition serialize (m : Metric) : string :=
  match m with
  | MGauge g => Gauge_serialize g
  | MCounter c => Counter_serialize c
  | MLabeledCounter lc => LabeledCounter_serialize lc
  | MHistogram h => Histogram_serialize h
  | MLabeledHistogram lh => LabeledHistogram_serialize lh
  end.

(** [func (r registry) serializeAll() string] *)
Definition serializeAll (l : list Metric) : string := concat_text (map serialize l).
End Text.

(** The metrics of the package, registered in this order. *)
Record Metrics := mkMetrics {
  RaftCurrentTerm : Gauge;
  RaftLeaderElectionsTotal : Counter;
  RaftCommitIndex : Gauge;
  RaftLogEntriesTotal : Counter;
  RaftRole : Gauge;
  RaftReplicationLagMs : LabeledHistogram;
  KVRequestDurationMs : LabeledHistogram;
  KVRequestsTotal : LabeledCounter;
  WALFsyncDurationMs : Histogram
}.
#[export] Instance eta_Metrics : Eta Metrics := λ m,
  mkMetrics (RaftCurrentTerm m) (RaftLeaderElectionsTotal m) (RaftCommitIndex m)
    (RaftLogEntriesTotal m) (RaftRole m) (RaftReplicationLagMs m) (KVRequestDurationMs m)
    (KVRequestsTotal m) (WALFsyncDurationMs m).

Definition initial_metrics : Metrics :=
  mkMetrics (NewGauge "raft_current_term" "Current Raft term")
    (NewCounter "raft_leader_elections_total" "Total leader elections")
    (NewGauge "raft_commit_index" "Current commit index")
    (NewCounter "raft_log_entries_total" "Total log entries appended")
    (NewGauge "raft_role" "Node role (0=follower, 1=candidate, 2=leader)")
    (NewLabeledHistogram "raft_replication_lag_ms" "Replication lag in ms" ["peer"]
       (map float_of_Z [1; 2; 5; 10; 25; 50; 100; 250; 500]))
    (NewLabeledHistogram "kv_request_duration_ms" "Request latency in ms" ["method"]
       (decimal 1 2 :: map float_of_Z [1; 2; 5; 10; 25; 50; 100]))
    (NewLabeledCounter "kv_requests_total" "Total KV requests" ["method"; "status"])
    (NewHistogram "wal_fsync_duration_ms" "WAL fsync latency in ms"
       (decimal 1 10 :: decimal 1 2 :: map float_of_Z [1; 2; 5; 10; 25])).

Definition registered (m : Metrics) : list Metric :=
  [MGauge (RaftCurrentTerm m); MCounter (RaftLeaderElectionsTotal m);
   MGauge (RaftCommitIndex m); MCounter (RaftLogEntriesTotal m); MGauge (RaftRole m);
   MLabeledHistogram (RaftReplicationLagMs m); MLabeledHistogram (KVRequestDurationMs m);
   MLabeledCounter (KVRequestsTotal m); MHistogram (WALFsyncDurationMs m)].

(** [func RecordRequestMetrics(method, startTime, success)], [d] nanoseconds
    after [startTime] *)
Definition RecordRequestMetrics (method : string) (d : Z) (success : bool) (m : Metrics)
    : Metrics :=
  let durationMs := decimal (Z.quot d 1000) 1000 in
  m <| KVRequestDurationMs ::= LabeledHistogram_Observe durationMs [method] |>
    <| KVRequestsTotal ::= LabeledCounter_Inc [method; if success then "success" else "error"] |>.

(** The observer [init] gives to the package [storage]. *)
Definition FsyncObserver (durationMs : float64) (m : Metrics) : Metrics :=
  m <| WALFsyncDurationMs ::= Observe durationMs |>.
