(* ===== verification/MetricsSpec.v ===== *)
(** * What the metrics promise

    Labels survive the key they are joined into, a histogram counts its
    observations, and what its text says of them. *)

From Stdlib Require Import SpecFloat Ascii.
From S2P Require Import Prelude Types Config Json JsonFacts Envelope EnvelopeFacts.
From S2P Require Import GoFloat GoStrings ApiSpec Metrics.

(** ** Labels *)

Definition bar : byte := "|"%byte.

Lemma to_bytes_app s t : to_bytes (s +:+ t) = to_bytes s ++ to_bytes t.
Proof.
  induction s as [|a s IH]; [done|].
  change (to_bytes (String a s +:+ t)) with (byte_of_ascii a :: to_bytes (s +:+ t)).
  by rewrite IH.
Qed.

Lemma length_to_bytes s : length (to_bytes s) = String.length s.
Proof.
  induction s as [|a s IH]; [done|].
  change (to_bytes (String a s)) with (byte_of_ascii a :: to_bytes s). simpl. by rewrite IH.
Qed.

Lemma split_runes_step f r s current :
  r ≠ [] → bar ∉ r → rune_size (r ++ s) = length r →
  split_runes (S f) (r ++ s) current = split_runes f s (current ++ r).
Proof.
  intros Hr Hb Hs. destruct r as [|b r]; [done|]. cbn [split_runes app].
  rewrite bool_decide_eq_false_2 by (intros ->; set_solver).
  change (b :: r ++ s) with ((b :: r) ++ s). rewrite Hs. cbn [length].
  change (S (length r)) with (length (b :: r)).
  by rewrite drop_app_length, take_app_length.
Qed.

Lemma split_runes_fuel f g s current :
  (length s ≤ f)%nat → (length s ≤ g)%nat →
  split_runes f s current = split_runes g s current.
Proof.
  revert g s current. induction f as [|f IH]; intros g s current Hf Hg.
  { destruct s; [by destruct g|simpl in Hf; lia]. }
  destruct s as [|b s]; [by destruct g|]. destruct g as [|g]; [simpl in Hg; lia|].
  simpl in Hf, Hg. cbn [split_runes]. case_bool_decide; [f_equal; apply IH; lia|].
  destruct (rune_size (b :: s)) as [|n]; [apply IH; lia|].
  apply IH; cbn [drop]; rewrite length_drop; lia.
Qed.

(** The runes of a value go to the current label. *)
Lemma split_runes_value v f s current :
  utf8 v → bar ∉ v → (length (v ++ s) ≤ f)%nat →
  split_runes f (v ++ s) current = split_runes (length s) s (current ++ v).
Proof.
  intros Hv. revert f current. induction Hv as [|r v Hr Hs Hv IH]; intros f current Hb Hf.
  { rewrite app_nil_r. by apply split_runes_fuel. }
  rewrite elem_of_app in Hb. rewrite <- (assoc_L (++)) in Hf |- *.
  destruct f as [|f]; [destruct r; simpl in *; [done|lia]|].
  rewrite split_runes_step.
  - rewrite (IH f (current ++ r)); [by rewrite (assoc_L (++))|set_solver|].
    rewrite length_app in Hf. destruct r; simpl in *; [done|lia].
  - done.
  - set_solver.
  - by eapply rune_size_prefix.
Qed.

(** A label value that can be told from the others. *)
Definition label_ok (v : string) : Prop := utf8_string v ∧ bar ∉ to_bytes v.

Lemma splitLabels_runes key :
  key ≠ "" → splitLabels key = split_runes (length (to_bytes key)) (to_bytes key) [].
Proof.
  intros Hk. unfold splitLabels. rewrite bool_decide_eq_false_2 by done.
  by rewrite length_to_bytes.
Qed.

Lemma split_joined v vs current :
  Forall label_ok (v :: vs) →
  split_runes (length (to_bytes (joinLabels (v :: vs)))) (to_bytes (joinLabels (v :: vs))) current
    = of_bytes (current ++ to_bytes v) :: vs.
Proof.
  revert v current. induction vs as [|v' vs IH]; intros v current Hvs;
    apply Forall_cons in Hvs as [[Hu Hb] Hvs].
  - cbn [joinLabels]. pose proof (split_runes_value (to_bytes v) (length (to_bytes v)) [] current
      Hu Hb) as Hs. rewrite app_nil_r in Hs. by rewrite Hs.
  - change (joinLabels (v :: v' :: vs)) with (v +:+ "|" +:+ joinLabels (v' :: vs)).
    rewrite !to_bytes_app. change (to_bytes "|") with [bar].
    rewrite split_runes_value by done. cbn [app length split_runes].
    rewrite bool_decide_eq_true_2 by done. f_equal. rewrite (IH v' []) by done.
    simpl. by rewrite of_to_bytes.
Qed.

(** Labels survive.  The values a metric is counted under are the values
    printed in its text, for any values of valid UTF-8 without a vertical bar:
    the key they are joined into splits back into them. *)
Theorem labels_roundtrip values :
  Forall label_ok values → values ≠ [] → values ≠ [""] →
  splitLabels (joinLabels values) = values.
Proof.
  intros Hok Hne Hempty. destruct values as [|v vs]; [done|].
  rewrite splitLabels_runes.
  - rewrite split_joined by done. simpl. by rewrite of_to_bytes.
  - destruct vs as [|v' vs]; [intros H; by simpl in H; subst|]. intros H.
    change (joinLabels (v :: v' :: vs)) with (v +:+ "|" +:+ joinLabels (v' :: vs)) in H.
    apply (f_equal to_bytes) in H. rewrite !to_bytes_app in H.
    apply app_eq_nil in H as [_ H]. done.
Qed.

Example labels_roundtrip_witness : splitLabels (joinLabels ["PUT"; "success"]) = ["PUT"; "success"].
Proof.
  apply labels_roundtrip; [|done|done].
  repeat (apply Forall_cons; split); [..|by apply Forall_nil];
    (split; [by apply (utf8_check_sound 20)|]);
    apply (bool_decide_unpack _); vm_compute; exact I.
Defined.

(** ** Histograms *)

(** The observations of a histogram at or below a bound. *)
Definition at_most (vs : list float64) (b : float64) : Z :=
  Z.of_nat (length (filter (λ v, SFleb v b = true) vs)).

Definition observe_all (vs : list float64) (h : Histogram) : Histogram := foldl (flip Observe) h vs.

Lemma at_most_snoc vs v b :
  at_most (vs ++ [v]) b = at_most vs b + if SFleb v b then 1 else 0.
Proof.
  unfold at_most. rewrite filter_app, length_app.
  destruct (SFleb v b) eqn:Hv.
  - rewrite filter_cons_True, filter_nil by done. cbn [length]. lia.
  - rewrite filter_cons_False, filter_nil by (by rewrite Hv). cbn [length]. lia.
Qed.

Lemma at_most_bound vs b : 0 ≤ at_most vs b ≤ Z.of_nat (length vs).
Proof. unfold at_most. pose proof (length_filter (λ v, SFleb v b = true) vs). lia. Qed.

Lemma uint64_add1_small z : 0 ≤ z < 2 ^ 64 - 1 → uint64_add1 z = z + 1.
Proof. intros H. unfold uint64_add1. apply Z.mod_small. lia. Qed.

Lemma zip_with_fmap_r (bs : list float64) (vs : list float64) v :
  Z.of_nat (length vs) < 2 ^ 64 - 1 →
  zip_with (λ b n, if SFleb v b then uint64_add1 n else n) bs (map (at_most vs) bs)
    = map (at_most (vs ++ [v])) bs.
Proof.
  intros Hl. induction bs as [|b bs IH]; [done|]. cbn [map zip_with]. rewrite IH. f_equal.
  rewrite at_most_snoc. pose proof (at_most_bound vs b).
  destruct (SFleb v b); [apply uint64_add1_small|]; lia.
Qed.

Lemma observed name help bs vs :
  Z.of_nat (length vs) < 2 ^ 64 →
  let h := observe_all vs (NewHistogram name help bs) in
  counts h = map (at_most vs) bs ∧ count h = Z.of_nat (length vs) ∧ buckets h = bs.
Proof.
  cbv zeta. induction vs as [|v vs IH] using rev_ind; intros Hl.
  - simpl. split_and!; [|done..]. by induction bs as [|b bs IH]; [|simpl; f_equal].
  - rewrite length_app in Hl. simpl in Hl. destruct IH as (Hc & Hn & Hb); [lia|].
    unfold observe_all in *. rewrite foldl_app. set (h := foldl _ _ vs) in *. clearbody h.
    cbn [foldl flip]. unfold Observe.
    cbn [counts count buckets]. rewrite Hc, Hn, Hb, length_app. split_and!; [|simpl|done].
    + apply zip_with_fmap_r. lia.
    + rewrite uint64_add1_small; lia.
Qed.

(** A histogram counts.  After any observations, fewer than 2^64, each
    bucket of a histogram holds the number of observations at or below its
    bound, and the count is their number. *)
Theorem histogram_counts name help bs vs :
  Z.of_nat (length vs) < 2 ^ 64 →
  let h := observe_all vs (NewHistogram name help bs) in
  counts h = map (at_most vs) bs ∧ count h = Z.of_nat (length vs) ∧ buckets h = bs.
Proof. apply observed. Qed.

(** The running sums the loop over the buckets prints. *)
Fixpoint running (acc : Z) (ns : list Z) : list Z :=
  match ns with
  | [] => []
  | n :: ns => let acc := (acc + n) mod 2 ^ 64 in acc :: running acc ns
  end.

Lemma bucket_lines_running `{!FloatText} name labels acc bs ns :
  bucket_lines name labels acc bs ns =
    concat_text (zip_with (λ b n, bucket_line name labels (FormatFloat b) n) bs (running acc ns)).
Proof.
  revert acc ns. induction bs as [|b bs IH]; intros acc [|n ns]; [done..|].
  cbn [bucket_lines running zip_with concat_text foldr]. by rewrite IH.
Qed.

Definition total (ns : list Z) : Z := foldr Z.add 0 ns.

Lemma running_totals acc ns :
  0 ≤ acc → Forall (λ n, 0 ≤ n) ns → acc + total ns < 2 ^ 64 →
  running acc ns = map (λ k, acc + total (take (S k) ns)) (seq 0 (length ns)).
Proof.
  revert acc. induction ns as [|n ns IH]; intros acc Ha Hn Ht; [done|].
  apply Forall_cons in Hn as [Hn Hns]. change (total (n :: ns)) with (n + total ns) in Ht.
  assert (0 ≤ total ns) as H0 by (clear -Hns; induction Hns; simpl; [done|unfold total in *; lia]).
  cbn [running length seq map]. rewrite Z.mod_small by lia. f_equal.
  { change (total (take 1 (n :: ns))) with (n + 0). lia. }
  rewrite IH by (try done; lia). rewrite <- seq_shift, map_map. apply map_ext. intros k.
  change (total (take (S (S k)) (n :: ns))) with (n + total (take (S k) ns)). lia.
Qed.

(** The buckets of the text count too much.  The buckets of a histogram
    are already cumulative, and its text adds them up again: the line of a
    bucket shows the sum, over this bucket and all smaller ones, of the
    observations at or below each bound, so an observation shows once for
    every bound it is below. *)
Theorem histogram_text_totals `{!FloatText} name help labels bs vs :
  total (map (at_most vs) bs) < 2 ^ 64 → Z.of_nat (length vs) < 2 ^ 64 →
  let h := observe_all vs (NewHistogram name help bs) in
  bucket_lines name labels 0 (buckets h) (counts h) =
    concat_text (zip_with (λ b n, bucket_line name labels (FormatFloat b) n) bs
      (map (λ k, total (map (at_most vs) (take (S k) bs))) (seq 0 (length bs)))).
Proof.
  intros Ht Hl. cbv zeta. destruct (observed name help bs vs Hl) as (Hc & _ & Hb).
  rewrite Hc, Hb, bucket_lines_running, running_totals; [|done| |done].
  - rewrite length_map. do 2 f_equal. apply map_ext. intros k. by rewrite firstn_map.
  - apply Forall_map, Forall_true. intros b. apply at_most_bound.
Qed.

(** One flush of 0.05 ms: the seven buckets of the flush histogram show 1 to 7
    observations, where there was one. *)
Definition one_fsync : Histogram :=
  observe_all [decimal 1 20] (WALFsyncDurationMs initial_metrics).
Example one_fsync_shown : counts one_fsync = repeat 1 7 ∧ count one_fsync = 1 ∧
  running 0 (counts one_fsync) = [1; 2; 3; 4; 5; 6; 7].
Proof. vm_compute. done. Qed.

Example histogram_counts_witness :
  let h := observe_all [decimal 1 20] (NewHistogram "f" "h" [decimal 1 10; decimal 1 2]) in
  counts h = map (at_most [decimal 1 20]) [decimal 1 10; decimal 1 2] ∧ count h = 1 ∧
  buckets h = [decimal 1 10; decimal 1 2].
Proof. apply (histogram_counts "f" "h" _ [decimal 1 20]). reflexivity. Defined.

Example histogram_text_totals_witness :
  let F := {| FormatFloat := λ _, "x" |} in
  let h := observe_all [decimal 1 20] (NewHistogram "f" "h" [decimal 1 10; decimal 1 2]) in
  bucket_lines "f" "" 0 (buckets h) (counts h) =
    concat_text (zip_with (λ b n, bucket_line "f" "" (FormatFloat b) n)
      [decimal 1 10; decimal 1 2] [1; 2]).
Proof.
  apply (@histogram_text_totals {| FormatFloat := λ _, "x" |} "f" "h" ""
           [decimal 1 10; decimal 1 2] [decimal 1 20]); reflexivity.
Defined.
