(* ===== verification/GrpcServer.v ===== *)
(** * The gRPC server of a node

    [PreVote], [RequestVote], [AppendEntries] and [InstallSnapshot] of
    [raft/raft.go]: each hands its request to the run loop through [rpcCh] and
    waits for the answer, unless the caller gives up or the node stops.
    [ProposeWithClient] and [ProposeConfigChange] do the same through [cmdCh]
    and [configCh], and wait without a way out. *)

From S2P Require Import Prelude Types Config Json Envelope Disk Wal SnapshotStore.
From S2P Require Import Node Roles Election Apply Replication Client Startup RunLoop.

(** What ends a wait: the channel, [ctx.Done()] with the error of the context,
    or [r.shutdown]. *)
Inductive Wake := Channel | CtxDone (err : string) | Stopping.

Definition unavailable : string := "rpc error: code = Unavailable desc = node is shutting down".

(** The run loop's turn on the message, if it takes it. *)
Definition rpc_turn {A} (turn : bool) (step : Raft → A * Raft) (r : Raft) : option A * Raft :=
  if turn then let '(resp, r) := step r in (Some resp, r) else (None, r).

(** The two selects of a method.  [sent] ends the first; [turn] tells whether
    the run loop takes the message; [answered] ends the second.  [None] is a
    wait for an answer that does not come. *)
Definition serve {A} (sent : Wake) (turn : bool) (answered : Wake) (step : Raft → A * Raft)
    (r : Raft) : option (result A) * Raft :=
  match sent with
  | CtxDone e => (Some (Err e), r)
  | Stopping => (Some (Err unavailable), r)
  | Channel =>
      let '(resp, r) := rpc_turn turn step r in
      match answered, resp with
      | CtxDone e, _ => (Some (Err e), r)
      | Stopping, _ => (Some (Err unavailable), r)
      | Channel, Some resp => (Some (Ok resp), r)
      | Channel, None => (None, r)
      end
  end.

(** [res.(T)]: [None] is a panic. *)
Definition as_vote (resp : rpcResp) : option RequestVoteResponse :=
  match resp with RVote resp => Some resp | _ => None end.
Definition as_append (resp : rpcResp) : option AppendEntriesResponse :=
  match resp with RAppend resp => Some resp | _ => None end.
Definition as_snapshot (resp : rpcResp) : option InstallSnapshotResponse :=
  match resp with RSnapshot resp => Some resp | _ => None end.

Section GrpcServer.
Context {PC : ProtoCodec} {DL : Dialer}.

(** A method: the inner [option] is the type assertion, the outer one a wait
    that has not ended. *)
Definition method {A} (convert : rpcResp → option A) (msg : rpcReq)
    (sent : Wake) (turn : bool) (answered : Wake) (r : Raft)
    : option (result (option A)) * Raft :=
  let '(res, r) := serve sent turn answered (handleRPC msg) r in
  (match res with
   | None => None
   | Some (Err e) => Some (Err e)
   | Some (Ok resp) => Some (Ok (convert resp))
   end, r).

(** [func (r Raft) PreVote(ctx, req)] *)
Definition PreVote (req : RequestVoteRequest) := method as_vote (MPreVote req).

(** [func (r Raft) RequestVote(ctx, req)] *)
Definition RequestVote (req : RequestVoteRequest) := method as_vote (MRequestVote req).

(** [func (r Raft) AppendEntries(ctx, req)] *)
Definition AppendEntries (req : AppendEntriesRequest) := method as_append (MAppendEntries req).

(** [func (r Raft) InstallSnapshot(ctx, req)] *)
Definition InstallSnapshot (req : InstallSnapshotRequest) :=
  method as_snapshot (MInstallSnapshot req).

(** [func (r Raft) ProposeConfigChange(req)], up to the wait for the answer:
    [stopping] when the node stops before the request is taken.  The answer
    comes on the channel [ch]; the wait for it has no other way out. *)
Definition ProposeConfigChange (req : ConfigChangeRequest) (stopping : bool) (ch : nat)
    (r : Raft) : option (bool * option string) * Raft :=
  if stopping then (Some (false, Some "node shutdown"), r)
  else (None, handleConfigChange req ch r).

(** No type assertion panics: each handler answers with the type of its
    method. *)
Lemma method_types :
  (∀ req r, ∃ resp, as_vote (handleRPC (MPreVote req) r).1 = Some resp) ∧
  (∀ req r, ∃ resp, as_vote (handleRPC (MRequestVote req) r).1 = Some resp) ∧
  (∀ req r, ∃ resp, as_append (handleRPC (MAppendEntries req) r).1 = Some resp) ∧
  (∀ req r, ∃ resp, as_snapshot (handleRPC (MInstallSnapshot req) r).1 = Some resp).
Proof.
  split_and!; intros req r; cbn [handleRPC]; try by eexists.
  - destruct (processRequestVote req r). by eexists.
  - destruct (processAppendEntries req r). by eexists.
  - destruct (processInstallSnapshot req r). by eexists.
Qed.
End GrpcServer.
