(* ===== verification/Transport.v ===== *)
(** * TLS material

    [transport/grpc.go]: the certificates a node generates when its files are
    missing, and the loading of the credentials.  Keys, certificates and PEM
    texts come from the packages [crypto] and [encoding/pem], which are
    parameters; the files are those of [Disk.v]. *)

From Stdlib Require Import Ascii.
From S2P Require Import Prelude Types Config Json Disk GoStrings.

(** The fields of the two [x509.Certificate] templates, times in hours from
    now. *)
Record Template := mkTemplate {
  SerialNumber : Z;
  Organization : list string;
  CommonName : string;
  NotBefore : Z;
  NotAfter : Z;
  IsCA : bool;
  KeyUsage : list string;
  ExtKeyUsage : list string;
  BasicConstraintsValid : bool;
  DNSNames : list string;
  IPAddresses : list string
}.

Definition caTemplate : Template :=
  mkTemplate 1 ["Raft KV CA"] "Raft Root CA" (-1) (10 * 365 * 24) true
    ["CertSign"; "CRLSign"; "DigitalSignature"] [] true [] [].
Definition nodeTemplate : Template :=
  mkTemplate 2 ["Raft KV Node"] "localhost" (-1) (10 * 365 * 24) false
    ["DigitalSignature"; "KeyEncipherment"] ["ServerAuth"; "ClientAuth"] false
    ["localhost"; "node1"; "node2"; "node3"; "127.0.0.1"] ["127.0.0.1"; "0.0.0.0"].

(** The packages [crypto/ecdsa], [crypto/x509], [crypto/tls], [encoding/pem].
    [GenerateKey rand] is a key drawn from the random source at [rand];
    [CreateCertificate rand template parent public signer] a certificate in DER
    for the key [public], signed with [signer]. *)
Class Crypto := {
  PrivateKey : Type;
  GenerateKey : nat → result PrivateKey;
  CreateCertificate : nat → Template → Template → PrivateKey → PrivateKey → result bytes;
  MarshalECPrivateKey : PrivateKey → result bytes;
  pem_Encode : string → bytes → bytes;
  AppendCertsFromPEM : bytes → bool;
  X509KeyPair : bytes → bytes → option string
}.

Section Transport.
Context {CR : Crypto}.

(** [func fileExists(path string) bool]; the disk holds files only. *)
Definition fileExists (path : string) (d : Disk) : bool * Disk :=
  match next_io d with
  | (IoOk, d) => (bool_decide (is_Some (files d !! path)), d)
  | (IoFail _, d) => (false, d)
  end.

(** [filepath.Dir] of a path that has no part to clean away. *)
Definition Dir (path : string) : string :=
  match before_last "/" path with
  | None => "."
  | Some "" => "/"
  | Some dir => dir
  end.

(** [func writePEM(path, blockType, bytes, perm) error] *)
Definition writePEM (path blockType : string) (data : bytes) (d : Disk)
    : option string * Disk :=
  let dir := Dir path in
  let '(e, d) := if bool_decide (dir ≠ "") && bool_decide (dir ≠ ".") then os_nop d
                 else (None, d) in
  match e with
  | Some e => (Some ("failed to create dir " +:+ dir +:+ ": " +:+ e), d)
  | None =>
      match os_create_trunc path d with
      | (Some e, d) => (Some ("failed to create file " +:+ path +:+ ": " +:+ e), d)
      | (None, d) => let '(e, d) := os_write path (pem_Encode blockType data) d in
                     (e, (os_nop d).2)
      end
  end.

(** The paths of the three files. *)
Record Paths := mkPaths { caCertPath : string; certPath : string; keyPath : string }.

(** [if !fileExists(path) { write }] *)
Definition write_missing (path : string) (write : Disk → option string * Disk) (d : Disk)
    : option string * Disk :=
  let '(there, d) := fileExists path d in if there then (None, d) else write d.

(** The three tests of [EnsureCertificatesExist], each only when the one
    before succeeded. *)
Definition all_exist (p : Paths) (d : Disk) : bool * Disk :=
  let '(a, d) := fileExists (caCertPath p) d in
  if negb a then (false, d)
  else
    let '(b, d) := fileExists (certPath p) d in
    if negb b then (false, d) else fileExists (keyPath p) d.

(** The part that writes the files. *)
Definition write_certificates (p : Paths) (caCert nodeCert : bytes) (nodeKey : PrivateKey)
    (d : Disk) : option string * Disk :=
  match write_missing (caCertPath p)
          (writePEM (caCertPath p) "CERTIFICATE" caCert) d with
  | (Some e, d) => (Some e, d)
  | (None, d) =>
      match write_missing (certPath p)
              (writePEM (certPath p) "CERTIFICATE" nodeCert) d with
      | (Some e, d) => (Some e, d)
      | (None, d) =>
          write_missing (keyPath p) (λ d,
            match MarshalECPrivateKey nodeKey with
            | Err e => (Some ("failed to marshal node key: " +:+ e), d)
            | Ok keyBytes =>
                writePEM (keyPath p) "EC PRIVATE KEY" keyBytes d
            end) d
      end
  end.

(** [func EnsureCertificatesExist(caCertPath, certPath, keyPath) error];
    [rand] is where the random source stands. *)
Definition EnsureCertificatesExist (rand : nat) (p : Paths) (d : Disk) : option string * Disk :=
  let '(there, d) := all_exist p d in
  if there then (None, d)
  else
    match GenerateKey rand with
    | Err e => (Some ("failed to generate CA key: " +:+ e), d)
    | Ok caKey =>
        match CreateCertificate (rand + 1) caTemplate caTemplate caKey caKey with
        | Err e => (Some ("failed to create CA certificate: " +:+ e), d)
        | Ok caCert =>
            match GenerateKey (rand + 2) with
            | Err e => (Some ("failed to generate node key: " +:+ e), d)
            | Ok nodeKey =>
                match CreateCertificate (rand + 3) nodeTemplate caTemplate nodeKey caKey with
                | Err e => (Some ("failed to create node certificate: " +:+ e), d)
                | Ok nodeCert => write_certificates p caCert nodeCert nodeKey d
                end
            end
        end
    end.

(** [tls.VersionTLS13] *)
Definition VersionTLS13 : Z := 0x0304.

(** The part of [tls.Config] the two loaders set. *)
Record TLSConfig := mkTLSConfig {
  tls_Certificate : bytes * bytes;
  tls_RequireClientCert : bool;
  tls_ClientCAs : option bytes;
  tls_RootCAs : option bytes;
  tls_ServerName : string;
  tls_MinVersion : Z
}.

(** What both loaders do before they build their configuration: the CA file,
    the certificate and the key. *)
Definition load_files (what : string) (rand : nat) (p : Paths) (d : Disk)
    : result (bytes * (bytes * bytes)) * Disk :=
  match EnsureCertificatesExist rand p d with
  | (Some e, d) => (Err ("failed to ensure certificates exist: " +:+ e), d)
  | (None, d) =>
      match os_read (caCertPath p) d with
      | (Ok (Some ca), d) =>
          if negb (AppendCertsFromPEM ca) then
            (Err "failed to append CA certificate to pool", d)
          else
            match os_read (certPath p) d with
            | (Ok (Some cert), d) =>
                match os_read (keyPath p) d with
                | (Ok (Some key), d) =>
                    match X509KeyPair cert key with
                    | Some e => (Err ("failed to load " +:+ what +:+ " key pair: " +:+ e), d)
                    | None => (Ok (ca, (cert, key)), d)
                    end
                | (_, d) => (Err ("failed to load " +:+ what +:+ " key pair: " +:+ io_error), d)
                end
            | (_, d) => (Err ("failed to load " +:+ what +:+ " key pair: " +:+ io_error), d)
            end
      | (_, d) => (Err ("failed to read CA certificate: " +:+ io_error), d)
      end
  end.

(** [func LoadServerCredentials(...)] *)
Definition LoadServerCredentials (rand : nat) (p : Paths) (d : Disk)
    : result TLSConfig * Disk :=
  match load_files "server" rand p d with
  | (Err e, d) => (Err e, d)
  | (Ok (ca, kp), d) => (Ok (mkTLSConfig kp true (Some ca) None "" VersionTLS13), d)
  end.

(** [func LoadClientCredentials(...)] *)
Definition LoadClientCredentials (rand : nat) (p : Paths) (serverName : string) (d : Disk)
    : result TLSConfig * Disk :=
  match load_files "client" rand p d with
  | (Err e, d) => (Err e, d)
  | (Ok (ca, kp), d) => (Ok (mkTLSConfig kp false None (Some ca) serverName VersionTLS13), d)
  end.
End Transport.
