(* ===== verification/TransportSpec.v ===== *)
(** * What the TLS layer promises

    Which files [EnsureCertificatesExist] writes and what they hold, and that
    the credentials of the two sides of a connection fit together. *)

From S2P Require Import Prelude Types Config Json Disk GoStrings Transport.

Section TransportSpec.
Context {CR : Crypto}.

(** The certificates and the key of one run of the generator. *)
Definition generated (rand : nat) : result (bytes * bytes * bytes) :=
  caKey ← GenerateKey rand;
  ca ← CreateCertificate (rand + 1) caTemplate caTemplate caKey caKey;
  nodeKey ← GenerateKey (rand + 2);
  cert ← CreateCertificate (rand + 3) nodeTemplate caTemplate nodeKey caKey;
  key ← MarshalECPrivateKey nodeKey;
  Ok (ca, cert, key).

(** The files they are written to. *)
Definition fresh_files (p : Paths) (g : bytes * bytes * bytes) : gmap string bytes :=
  let '(ca, cert, key) := g in
  <[caCertPath p := pem_Encode "CERTIFICATE" ca]>
    (<[certPath p := pem_Encode "CERTIFICATE" cert]>
      {[ keyPath p := pem_Encode "EC PRIVATE KEY" key ]}).

Definition complete (p : Paths) (m : gmap string bytes) : Prop :=
  is_Some (m !! caCertPath p) ∧ is_Some (m !! certPath p) ∧ is_Some (m !! keyPath p).
#[export] Instance complete_dec p m : Decision (complete p m).
Proof. unfold complete. apply _. Defined.

(** ** On a disk that works *)

Lemma fileExists_healthy path d :
  healthy d → fileExists path d = (bool_decide (is_Some (files d !! path)), d).
Proof. intros H. unfold fileExists. by rewrite next_io_healthy. Qed.

Lemma writePEM_healthy path kind data d :
  healthy d → ∃ d', writePEM path kind data d = (None, d') ∧ healthy d' ∧
    files d' = <[path := pem_Encode kind data]> (files d).
Proof.
  intros Hd. unfold writePEM.
  assert (Hdir : ∀ b : bool, (if b then os_nop d else (None, d)) = (None, d)).
  { intros []; [|done]. unfold os_nop. rewrite os_call_healthy by done. by destruct d. }
  rewrite Hdir. unfold os_create_trunc. rewrite os_call_healthy by done. cbv iota beta.
  set (d1 := d <| files ::= _ |>).
  rewrite (os_write_healthy path _ d1) by done. unfold os_nop.
  eexists. rewrite os_call_healthy by done. split_and!; [done..|].
  rsimpl. unfold content. subst d1. rsimpl.
  rewrite lookup_insert, decide_True by done. cbn [default id app snd].
  rsimpl. unfold id. by rewrite insert_insert, decide_True.
Qed.

(** The left operand of a union wins. *)
Lemma write_missing_healthy path kind data d :
  healthy d →
  ∃ d', write_missing path (writePEM path kind data) d = (None, d') ∧ healthy d' ∧
    files d' = files d ∪ {[ path := pem_Encode kind data ]}.
Proof.
  intros Hd. unfold write_missing. rewrite fileExists_healthy by done.
  case_bool_decide as Hp.
  - exists d. split_and!; [done..|]. destruct Hp as [c Hc].
    apply map_eq. intros k. rewrite lookup_union. destruct (files d !! k) as [b|] eqn:Hk.
    + by rewrite union_Some_l.
    + rewrite (left_id_L None (∪)). symmetry. apply lookup_singleton_ne. congruence.
  - destruct (writePEM_healthy path kind data d Hd) as (d' & Hw & Hd' & Hf).
    exists d'. split_and!; [done..|]. rewrite Hf. apply eq_None_not_Some in Hp.
    rewrite insert_union_singleton_l. apply map_union_comm.
    by apply map_disjoint_singleton_l.
Qed.

Lemma all_exist_healthy p d :
  healthy d → all_exist p d = (bool_decide (complete p (files d)), d).
Proof.
  intros Hd. unfold all_exist. rewrite !fileExists_healthy by done.
  repeat (case_bool_decide; cbn [negb]); try done; unfold complete in *; naive_solver.
Qed.

Lemma fresh_complete p m g : complete p m → m ∪ fresh_files p g = m.
Proof.
  destruct g as [[ca cert] key]. intros (H1 & H2 & H3). apply map_eq. intros k.
  rewrite lookup_union. destruct (m !! k) as [b|] eqn:Hk; [by rewrite union_Some_l|].
  rewrite (left_id_L None (∪)). unfold fresh_files.
  rewrite !lookup_insert_ne, lookup_singleton_ne; [done|..];
    intros Heq; subst; rewrite Hk in *; by eapply is_Some_None.
Qed.

Lemma ensure_healthy rand p d g :
  healthy d → generated rand = Ok g →
  ∃ d', EnsureCertificatesExist rand p d = (None, d') ∧ healthy d' ∧
    files d' = files d ∪ fresh_files p g.
Proof.
  intros Hd Hg. unfold EnsureCertificatesExist. rewrite all_exist_healthy by done.
  case_bool_decide as Hc; [exists d; by rewrite fresh_complete|].
  unfold generated in Hg.
  destruct (GenerateKey rand) as [caKey|]; [|done]. cbn [mbind result_bind] in Hg.
  destruct (CreateCertificate _ caTemplate _ _ _) as [ca|]; [|done]. cbn [mbind result_bind] in Hg.
  destruct (GenerateKey _) as [nodeKey|]; [|done]. cbn [mbind result_bind] in Hg.
  destruct (CreateCertificate _ nodeTemplate _ _ _) as [cert|]; [|done].
  cbn [mbind result_bind] in Hg.
  destruct (MarshalECPrivateKey nodeKey) as [key|] eqn:Hk; [|done].
  injection Hg as <-. unfold write_certificates.
  destruct (write_missing_healthy (caCertPath p) "CERTIFICATE" ca d Hd) as (d1 & -> & Hd1 & Hf1).
  destruct (write_missing_healthy (certPath p) "CERTIFICATE" cert d1 Hd1)
    as (d2 & -> & Hd2 & Hf2).
  rewrite Hk.
  destruct (write_missing_healthy (keyPath p) "EC PRIVATE KEY" key d2 Hd2)
    as (d3 & Hw & Hd3 & Hf3).
  exists d3. split_and!; [exact Hw|done|]. rewrite Hf3, Hf2, Hf1.
  unfold fresh_files. by rewrite !insert_union_singleton_l, !(assoc_L (∪)).
Qed.

Lemma ensure_keeps_healthy rand p d :
  healthy d → healthy (EnsureCertificatesExist rand p d).2.
Proof.
  intros Hd. unfold EnsureCertificatesExist. rewrite all_exist_healthy by done.
  case_bool_decide; [done|].
  destruct (GenerateKey rand) as [caKey|]; [|done].
  destruct (CreateCertificate _ caTemplate _ _ _) as [ca|]; [|done].
  destruct (GenerateKey _) as [nodeKey|]; [|done].
  destruct (CreateCertificate _ nodeTemplate _ _ _) as [cert|]; [|done].
  unfold write_certificates.
  destruct (write_missing_healthy (caCertPath p) "CERTIFICATE" ca d Hd) as (d1 & -> & Hd1 & _).
  destruct (write_missing_healthy (certPath p) "CERTIFICATE" cert d1 Hd1) as (d2 & -> & Hd2 & _).
  destruct (MarshalECPrivateKey nodeKey) as [key|].
  - destruct (write_missing_healthy (keyPath p) "EC PRIVATE KEY" key d2 Hd2)
      as (d3 & Hw & Hd3 & _).
    change (healthy (write_missing (keyPath p) (writePEM (keyPath p) "EC PRIVATE KEY" key) d2).2).
    by rewrite Hw.
  - unfold write_missing. rewrite fileExists_healthy by done. by case_bool_decide.
Qed.

(** What a successful load found, on a disk that works. *)
Record loaded (p : Paths) (res : bytes * (bytes * bytes)) (d : Disk) : Prop := {
  ld_healthy : healthy d;
  ld_ca : files d !! caCertPath p = Some res.1;
  ld_cert : files d !! certPath p = Some res.2.1;
  ld_key : files d !! keyPath p = Some res.2.2;
  ld_pool : AppendCertsFromPEM res.1 = true;
  ld_pair : X509KeyPair res.2.1 res.2.2 = None
}.

Lemma load_files_loaded what rand p d res d' :
  healthy d → load_files what rand p d = (Ok res, d') → loaded p res d'.
Proof.
  intros Hd. pose proof (ensure_keeps_healthy rand p d Hd) as He. unfold load_files.
  destruct (EnsureCertificatesExist rand p d) as [[e|] d1]; [done|]. simpl in He.
  rewrite os_read_healthy by done. destruct (files d1 !! caCertPath p) as [ca|] eqn:H1; [|done].
  destruct (AppendCertsFromPEM ca) eqn:Hp; [|done]. cbn [negb].
  rewrite os_read_healthy by done. destruct (files d1 !! certPath p) as [cert|] eqn:H2; [|done].
  rewrite os_read_healthy by done. destruct (files d1 !! keyPath p) as [key|] eqn:H3; [|done].
  destruct (X509KeyPair cert key) eqn:Hk; [done|]. intros [= <- <-]. by split.
Qed.

Lemma loaded_load_files what rand p res d :
  loaded p res d → load_files what rand p d = (Ok res, d).
Proof.
  destruct res as [ca [cert key]]. intros [Hd H1 H2 H3 Hp Hk]. simpl in *.
  unfold load_files, EnsureCertificatesExist. rewrite all_exist_healthy by done.
  rewrite bool_decide_eq_true_2 by (unfold complete; rewrite H1, H2, H3; eauto).
  repeat (rewrite os_read_healthy by done; rewrite ?H1, ?H2, ?H3, ?Hp; cbn [negb]).
  by rewrite Hk.
Qed.
End TransportSpec.

(** The certificates a node generates.  On a disk that works,
    [EnsureCertificatesExist] succeeds and adds exactly the files that are
    missing: a file that is there, one of the three or any other, keeps its
    content; each file that was missing holds what one run of the generator
    made, the CA certificate signed with its own key, the node certificate for
    the node key signed with the key of that CA, and the node key. *)
Theorem certificates_added {CR : Crypto} rand p d g :
  healthy d → generated rand = Ok g →
  ∃ d', EnsureCertificatesExist rand p d = (None, d') ∧
    files d' = files d ∪ fresh_files p g ∧ complete p (files d').
Proof.
  intros Hd Hg. destruct (ensure_healthy rand p d g Hd Hg) as (d' & He & _ & Hf).
  exists d'. split_and!; [done..|]. rewrite Hf. destruct g as [[ca cert] key].
  unfold complete, fresh_files. rewrite !lookup_union_is_Some, !lookup_insert_is_Some.
  repeat split; right; repeat first [by left|by rewrite lookup_singleton|
    match goal with |- _ ∨ (?a ≠ ?b ∧ _) =>
      destruct (decide (a = b)); [by left|right; split; [done|]] end];
    by eexists; apply lookup_singleton_eq.
Qed.

(** Mutual TLS between nodes that share their files.  When a server can
    load its credentials, a client that loads the same files gets the
    certificate and the authority of the server, and changes no file; the
    server asks for a client certificate of that authority, the client checks
    the server against it under the expected name, and neither speaks a
    version older than 1.3. *)
Theorem credentials_match {CR : Crypto} rand rand' p name d cfg d' :
  healthy d → LoadServerCredentials rand p d = (Ok cfg, d') →
  ∃ ca, cfg = mkTLSConfig (tls_Certificate cfg) true (Some ca) None "" VersionTLS13 ∧
    files d' !! caCertPath p = Some ca ∧
    files d' !! certPath p = Some (tls_Certificate cfg).1 ∧
    files d' !! keyPath p = Some (tls_Certificate cfg).2 ∧
    LoadClientCredentials rand' p name d' =
      (Ok (mkTLSConfig (tls_Certificate cfg) false None (Some ca) name VersionTLS13), d').
Proof.
  intros Hd. unfold LoadServerCredentials.
  destruct (load_files "server" rand p d) as [[[ca kp]|] d1] eqn:Hl; [|done].
  intros [= <- <-]. apply load_files_loaded in Hl; [|done]. pose proof Hl as [? ? ? ? ? ?].
  exists ca. split_and!; [done..|]. unfold LoadClientCredentials.
  by rewrite (loaded_load_files _ _ _ _ _ Hl).
Qed.

(** ** Certificates one can read

    A key is a number; a certificate is the name of its subject, the key it is
    for and the key that signed it, one byte each.  A PEM text starts with the
    first letter of its type. *)
Definition plain_crypto : Crypto := {|
  PrivateKey := nat;
  GenerateKey := λ rand, Ok rand;
  CreateCertificate := λ _ t _ pub signer,
    Ok [Z_to_byte (SerialNumber t); Z_to_byte (Z.of_nat pub); Z_to_byte (Z.of_nat signer)];
  MarshalECPrivateKey := λ key, Ok [Z_to_byte (Z.of_nat key)];
  pem_Encode := λ kind data, take 1 (to_bytes kind) ++ data;
  AppendCertsFromPEM := λ pem, bool_decide (take 1 pem = [x43]);
  X509KeyPair := λ cert key,
    if bool_decide (drop 2 (take 3 cert) = drop 1 key) then None
    else Some "tls: private key does not match public key"
|}.

Definition sample_paths : Paths := mkPaths "certs/ca.pem" "certs/node.pem" "certs/node.key".
Definition no_files : Disk := mkDisk ∅ [].

Lemma certificates_added_witness :
  ∃ d', @EnsureCertificatesExist plain_crypto 7 sample_paths no_files = (None, d') ∧
    files d' = ∅ ∪ @fresh_files plain_crypto sample_paths
      ([x01; x07; x07], [x02; x09; x07], [x09]) ∧
    complete sample_paths (files d').
Proof.
  apply (@certificates_added plain_crypto 7 sample_paths no_files); vm_compute; reflexivity.
Defined.

Lemma credentials_match_witness :
  ∃ cfg d' ca,
    @LoadServerCredentials plain_crypto 7 sample_paths no_files = (Ok cfg, d') ∧
    cfg = mkTLSConfig (tls_Certificate cfg) true (Some ca) None "" VersionTLS13 ∧
    @LoadClientCredentials plain_crypto 8 sample_paths "localhost" d' =
      (Ok (mkTLSConfig (tls_Certificate cfg) false None (Some ca) "localhost" VersionTLS13), d').
Proof.
  destruct (@LoadServerCredentials plain_crypto 7 sample_paths no_files) as [[cfg|e] d'] eqn:Hl;
    [|vm_compute in Hl; discriminate].
  destruct (@credentials_match plain_crypto 7 8 sample_paths "localhost" no_files cfg d')
    as (ca & Hc & _ & _ & _ & Hcl); [reflexivity|exact Hl|].
  by exists cfg, d', ca.
Defined.

(** A node whose certificate and key are lost, its CA file being kept, draws a
    new authority it does not write down: its new certificate is signed with
    key 7, the CA file is for key 3. *)
Definition lost_certificate : Disk :=
  mkDisk {[ "certs/ca.pem" := [x43; x01; x03; x03] ]} [].
Example lost_certificate_unverifiable :
  ∃ d', @LoadServerCredentials plain_crypto 7 sample_paths lost_certificate =
      (Ok (mkTLSConfig ([x43; x02; x09; x07], [x45; x09]) true
             (Some [x43; x01; x03; x03]) None "" VersionTLS13), d').
Proof. eexists. vm_compute. reflexivity. Qed.

(** A test of a file that fails counts as a missing file: the CA certificate
    is there and is overwritten. *)
Example unreadable_certificate_overwritten :
  ∃ d', @EnsureCertificatesExist plain_crypto 7 sample_paths
      (mkDisk (files lost_certificate) [IoFail 0; IoFail 0]) = (None, d') ∧
    files d' !! "certs/ca.pem" = Some [x43; x01; x07; x07].
Proof. eexists. vm_compute. split; reflexivity. Qed.
