(* ===== verification/Commands.v ===== *)
(** * The two commands

    [cmd/node/main.go] and [cmd/gateway/main.go]: the settings a process takes
    from its flags and its environment, and the order in which a node starts.
    Signals, the serving goroutines and the log lines are left out. *)

From Stdlib Require Import Ascii.
From S2P Require Import Prelude Types Config Json Envelope Disk Wal SnapshotStore.
From S2P Require Import Node Roles Election Apply Replication Client Startup.
From S2P Require Import GoFloat GoStrings Http Api Gateway Transport.

(** [os.Getenv]: empty when the variable is not set. *)
Definition Env : Type := gmap string string.
Definition Getenv (env : Env) (name : string) : string := lookup_str env name.

(** The value of a flag, or else [other]. *)
Definition or_else (value other : string) : string :=
  if bool_decide (value = "") then other else value.

(** ** The node *)

(** The flags of [cmd/node/main.go] after [flag.Parse]. *)
Record NodeFlags := mkNodeFlags {
  f_id : string;
  f_grpc_addr : string;
  f_http_addr : string;
  f_peers : string;
  f_peer_http : string;
  f_storage_dir : string;
  f_ca_cert : string;
  f_node_cert : string;
  f_node_key : string;
  f_peer_server_name : string;
  f_api_token : string;
  f_admin_token : string;
  f_allow_unauth_reads : bool;
  f_snapshot_threshold : Z;
  f_read_safety : string;
  f_debug : bool
}.
#[export] Instance eta_NodeFlags : Eta NodeFlags := λ f, mkNodeFlags (f_id f)
  (f_grpc_addr f) (f_http_addr f) (f_peers f) (f_peer_http f) (f_storage_dir f) (f_ca_cert f)
  (f_node_cert f) (f_node_key f) (f_peer_server_name f) (f_api_token f) (f_admin_token f)
  (f_allow_unauth_reads f) (f_snapshot_threshold f) (f_read_safety f) (f_debug f).

(** The defaults the flags are declared with. *)
Definition default_node_flags : NodeFlags :=
  mkNodeFlags "" "" "" "" "" "" "certs/ca.pem" "certs/node.pem" "certs/node.key" "localhost"
    "" "" false 1000 "safe" false.

(** The loop that parses a list of peers: a part without the sign is
    skipped, a later part for the same node replaces an earlier one. *)
Definition add_peer (peers : gmap string string) (part : string) : gmap string string :=
  match SplitN2 part "=" with
  | [id; addr] => <[id := addr]> peers
  | _ => peers
  end.
Definition parse_peers (list : string) : gmap string string :=
  if bool_decide (list = "") then ∅ else foldl add_peer ∅ (Split list ",").

(** The settings [main] resolves before it starts anything. *)
Record NodeSettings := mkNodeSettings {
  nodeID : string;
  grpcAddr : string;
  httpAddr : string;
  storageDir : string;
  token : string;
  aToken : string;
  set_peers : gmap string string;
  set_peerHTTPAddrs : gmap string string
}.

Definition node_settings (f : NodeFlags) (env : Env) : NodeSettings :=
  let port := Getenv env "PORT" in
  mkNodeSettings (or_else (f_id f) "node1") (or_else (f_grpc_addr f) ":9000")
    (or_else (f_http_addr f) (if bool_decide (port = "") then ":8080" else ":" +:+ port))
    (or_else (f_storage_dir f) "/data")
    (or_else (f_api_token f) (Getenv env "KV_API_TOKEN"))
    (or_else (f_admin_token f) (Getenv env "KV_ADMIN_TOKEN"))
    (parse_peers (f_peers f)) (parse_peers (f_peer_http f)).

(** What the process finds around it: the outcome of [net.Listen] on an
    address and of [grpc.Dial] to one, and the state of the random source. *)
Record World := mkWorld {
  net_Listen : string → option string;
  dial : string → option string;
  random : nat
}.

Section Node.
Context {PC : ProtoCodec} {CR : Crypto}.

(** The connections a node makes load their credentials from its files. *)
Definition node_dialer (w : World) (p : Paths) (serverName : string) (d : Disk) : Dialer :=
  {| Node.LoadClientCredentials :=
       match (Transport.LoadClientCredentials (random w) p serverName d).1 with
       | Ok _ => None
       | Err e => Some e
       end;
     grpc_Dial := dial w |}.

(** [func main()] of the node, up to the wait for a signal: the node, its API
    server and the limiter; an error ends the process. *)
Definition start_node (f : NodeFlags) (env : Env) (w : World) (now : Z) (d : Disk)
    : result (Raft * (Server * RateLimiter)) :=
  let s := node_settings f env in
  let paths := mkPaths (f_ca_cert f) (f_node_cert f) (f_node_key f) in
  let dialer := node_dialer w paths (f_peer_server_name f) in
  match NewRaft (nodeID s) (set_peers s) (storageDir s)
          (f_snapshot_threshold f) now d with
  | Err e => Err ("Failed to initialize Raft: " +:+ e)
  | Ok r =>
      let r := SetReadSafety (f_read_safety f) r in
      let r := InitClusterConfig (set_peers s) (set_peerHTTPAddrs s) r in
      match LoadServerCredentials (random w) paths (disk r) with
      | (Err e, _) => Err ("Failed to load server TLS credentials: " +:+ e)
      | (Ok _, d) =>
          let r := r <| disk := d |> in
          match net_Listen w (grpcAddr s) with
          | Some e => Err ("Failed to listen on gRPC address " +:+ grpcAddr s +:+ ": " +:+ e)
          | None =>
              match Start (DL := dialer d) r with
              | (Some e, _) => Err ("Failed to start Raft node: " +:+ e)
              | (None, r) =>
                  match net_Listen w (httpAddr s) with
                  | Some e => Err ("Failed to start HTTP API: " +:+ e)
                  | None =>
                      Ok (r, NewServer (token s) (aToken s) (f_allow_unauth_reads f) now)
                  end
              end
          end
      end
  end.
End Node.

(** ** The gateway *)

(** The flags of [cmd/gateway/main.go] after [flag.Parse]; the interval in
    nanoseconds. *)
Record GatewayFlags := mkGatewayFlags {
  g_nodes : string;
  g_http_addr : string;
  g_gateway_token : string;
  g_cluster_token : string;
  g_frontend_dir : string;
  g_poll_interval : Z
}.

Definition default_gateway_flags : GatewayFlags :=
  mkGatewayFlags "" ":7000" "" "" "frontend/dist" 1000000000.

Definition gateway_nodes (f : GatewayFlags) (env : Env) : list string :=
  let nodes := or_else (or_else (g_nodes f) (Getenv env "NODE_ADDRS"))
                 "127.0.0.1:8001,127.0.0.1:8002,127.0.0.1:8003" in
  map TrimSpace (Split nodes ",").

(** The gateway [main] of the second command starts. *)
Definition gateway_of (f : GatewayFlags) (env : Env) : Gateway :=
  New (mkGwConfig (gateway_nodes f env)
         (or_else (g_gateway_token f) (Getenv env "GATEWAY_TOKEN"))
         (or_else (g_cluster_token f) (Getenv env "KV_API_TOKEN"))
         (g_frontend_dir f) (g_poll_interval f)).
