(* ===== verification/CommandsSpec.v ===== *)
(** * What the commands promise

    The list of peers a node is given is read as it was meant, and the first
    start of a node on an empty disk. *)

From Stdlib Require Import Ascii.
From S2P Require Import Prelude Types Config Json Envelope Disk Wal ProtoWire SnapshotStore.
From S2P Require Import Node Roles Election Apply Replication Client Startup.
From S2P Require Import GoFloat GoStrings Http Api Gateway Transport TransportSpec Commands.

(** ** Texts with separators *)

Definition lacks (c : ascii) (s : string) : Prop := Cut c s = None.
#[export] Instance lacks_dec c s : Decision (lacks c s).
Proof. unfold lacks. apply _. Defined.

Lemma Cut_app c a b : lacks c a → Cut c (a +:+ String c b) = Some (a, b).
Proof.
  unfold lacks. induction a as [|x a IH]; simpl.
  - by rewrite bool_decide_eq_true_2.
  - case_bool_decide; [done|]. destruct (Cut c a); [done|]. intros _. by rewrite IH.
Qed.

Lemma lacks_app c a b : lacks c a → lacks c b → lacks c (a +:+ b).
Proof.
  unfold lacks. induction a as [|x a IH]; simpl; [done|].
  case_bool_decide; [done|]. destruct (Cut c a); [done|]. intros _ Hb. by rewrite IH.
Qed.

Lemma split_at_lacks c a : lacks c a → split_at c a = (a, []).
Proof.
  unfold lacks. induction a as [|x a IH]; simpl; [done|].
  case_bool_decide; [done|]. destruct (Cut c a); [done|]. intros _. by rewrite IH.
Qed.

Lemma split_at_app c a b :
  lacks c a → split_at c (a +:+ String c b) = (a, Split b c).
Proof.
  unfold lacks. induction a as [|x a IH]; simpl.
  - intros _. unfold Split. destruct (split_at c b). by rewrite bool_decide_eq_true_2.
  - case_bool_decide; [done|]. destruct (Cut c a); [done|]. intros _. by rewrite IH.
Qed.

Fixpoint join (c : ascii) (l : list string) : string :=
  match l with
  | [] => ""
  | [s] => s
  | s :: l => s +:+ String c (join c l)
  end.

Lemma Split_join c s l :
  Forall (lacks c) (s :: l) → Split (join c (s :: l)) c = s :: l.
Proof.
  revert s. induction l as [|s' l IH]; intros s [Hs Hl]%Forall_cons.
  - unfold Split. cbn [join]. by rewrite split_at_lacks.
  - change (join c (s :: s' :: l)) with (s +:+ String c (join c (s' :: l))).
    unfold Split at 1. rewrite split_at_app by done. by rewrite IH.
Qed.

(** ** The list of peers *)

Definition peer_part (p : string * string) : string := p.1 +:+ "=" +:+ p.2.
Definition peer_text (l : list (string * string)) : string := join "," (map peer_part l).

(** A peer that the text can name. *)
Definition nameable (p : string * string) : Prop :=
  lacks "=" p.1 ∧ lacks "," p.1 ∧ lacks "," p.2.

Lemma add_peer_part m p : nameable p → add_peer m (peer_part p) = <[p.1 := p.2]> m.
Proof.
  intros (He & _ & _). unfold add_peer, peer_part, SplitN2.
  change ("=" +:+ p.2) with (String "=" p.2).
  by rewrite Cut_app.
Qed.

Lemma add_peers m l :
  Forall nameable l → NoDup l.*1 →
  foldl add_peer m (map peer_part l) = list_to_map l ∪ m.
Proof.
  revert m. induction l as [|p l IH]; intros m.
  - intros _ _. symmetry. apply (left_id_L ∅ (∪)).
  - intros [Hp Hl]%Forall_cons [Hn Hd]%NoDup_cons. cbn [map foldl fmap list_fmap].
    rewrite add_peer_part, IH by done. destruct p as [k v]. cbn [list_to_map foldr fst snd] in *.
    change (foldr _ ∅ l) with (list_to_map l : gmap string string).
    rewrite <- insert_union_l. symmetry. apply insert_union_r.
    by apply not_elem_of_list_to_map.
Qed.

Lemma peer_text_empty l : peer_text l = "" → l = [].
Proof.
  destruct l as [|[[|c k] v] [|q l]]; [done|..]; unfold peer_text, peer_part; cbn; done.
Qed.

(** The list of peers a node is started with.  The text
    [id=address,id=address,...] is read as the map that gives each peer its
    address, for any peers whose identifiers have neither of the two
    separators and whose addresses have no comma; an address may contain an
    equals sign. *)
Theorem peers_parsed l :
  Forall nameable l → NoDup l.*1 → parse_peers (peer_text l) = list_to_map l.
Proof.
  intros Hl Hd. unfold parse_peers. case_bool_decide as He.
  - by apply peer_text_empty in He as ->.
  - destruct l as [|p l]; [done|]. unfold peer_text. cbn [map] in *.
    rewrite Split_join.
    + rewrite <- (right_id_L ∅ (∪) (list_to_map _)).
      exact (add_peers ∅ (p :: l) Hl Hd).
    + change (peer_part p :: map peer_part l) with (map peer_part (p :: l)).
      apply Forall_map. eapply Forall_impl; [exact Hl|].
      intros [k v] (_ & Hk & Hv). by apply lacks_app; [|apply lacks_app].
Qed.

Lemma peers_parsed_witness :
  parse_peers "node2=localhost:9002,node3=localhost:9003" =
    {["node2" := "localhost:9002"; "node3" := "localhost:9003"]}.
Proof.
  apply (peers_parsed [("node2", "localhost:9002"); ("node3", "localhost:9003")]).
  - apply (bool_decide_unpack _). vm_compute. exact I.
  - apply (bool_decide_unpack _). vm_compute. exact I.
Defined.

(** ** The first start of a node *)

Section Start.
Context {PC : ProtoCodec} {CR : Crypto}.

Definition wal_file_of (dir : string) : string := dir +:+ "/wal.log".

(** A node that has never stored anything starts with the state it is built
    with, on a disk that now has an empty log. *)
Lemma NewRaft_fresh id peers dir threshold now :
  NewRaft id peers dir threshold now no_files =
    Ok (initial_node id peers dir (mkWAL FileOpen (wal_file_of dir)) threshold now
          (mkDisk {[ wal_file_of dir := [] ]} [])).
Proof.
  unfold NewRaft. set (w := mkWAL FileOpen (dir +:+ "/wal.log")).
  assert (OpenWAL (dir +:+ "/wal.log") no_files =
    (Ok w, mkDisk {[ dir +:+ "/wal.log" := [] ]} [])) as -> by done.
  set (d := mkDisk _ []). set (r0 := initial_node id peers dir w threshold now d).
  unfold loadState. change (snapshotPath r0) with (dir +:+ "/snapshot.json").
  change (disk r0) with d. change (wal r0) with w.
  unfold LoadSnapshot. rewrite os_read_healthy by done.
  assert (files d !! (dir +:+ "/snapshot.json") = None) as ->.
  { unfold d. cbn [files]. apply lookup_singleton_ne. intros Heq. simplify_eq. }
  assert (Replay w d = (Some (Ok (0, "", [])), d)) as HR.
  { unfold Replay, w. cbn [wal_file wal_path]. unfold os_nop.
    rewrite os_call_healthy by done. change (upd _ d) with d.
    rewrite os_read_healthy by done.
    change (files d !! _) with (({[ dir +:+ "/wal.log" := [] ]} : gmap string bytes)
      !! (dir +:+ "/wal.log")).
    by rewrite lookup_singleton_eq. }
  match goal with |- context [Replay (wal ?x) _] =>
    change (Replay (wal x) (disk x)) with (Replay w d) end.
  rewrite HR. cbv iota beta.
  match goal with |- context [applyLogs ?x] => change (applyLogs x) with (applyLogs r0) end.
  assert (applyLogs r0 = r0) as ->; [|done].
  unfold applyLogs. change (apply_loop _ r0) with r0.
  change (lastLogIndex r0 -! lastIncludedIndex r0) with 0.
  change (snapshotThreshold r0) with threshold.
  replace ((0 <? threshold) && (threshold <? 0)) with false; [done|].
  destruct (Z.ltb_spec 0 threshold), (Z.ltb_spec threshold 0); done || lia.
Qed.

(** Every peer is dialled once. *)
Lemma connect_all {DL : Dialer} (r : Raft) :
  Node.LoadClientCredentials = None → (∀ a, grpc_Dial a = None) → grpcPeers r = ∅ →
  connectToPeers r = (None, r <| grpcPeers := effectivePeers r |>).
Proof.
  intros Hc Hd Hg. unfold connectToPeers, connectToPeersLocked.
  match goal with |- foldl ?f _ _ = _ => set (step := f) end.
  assert (Hstep : ∀ m k a, m !! k = None →
    step (None, r <| grpcPeers := m |>) (k, a) = (None, r <| grpcPeers := <[k := a]> m |>)).
  { intros m k a Hk. unfold step. cbn [fst snd]. rsimpl. by rewrite Hk, Hc, Hd. }
  clearbody step.
  transitivity (None : option string,
    r <| grpcPeers := list_to_map (map_to_list (effectivePeers r)) |>);
    [|by rewrite list_to_map_to_list].
  pose proof (NoDup_fst_map_to_list (effectivePeers r)) as Hnd.
  generalize dependent (map_to_list (effectivePeers r)). intros l.
  rewrite <- (right_id_L ∅ (∪) (list_to_map l : gmap string string)).
  assert (Hm : ∀ k, k ∈ l.*1 → (∅ : gmap string string) !! k = None) by done.
  assert (Hr : (None, r) = (None : option string, r <| grpcPeers := ∅ |>))
    by (rewrite <- Hg; by destruct r).
  rewrite Hr. clear Hr Hg. revert Hm. generalize (∅ : gmap string string).
  induction l as [|[k a] l IH]; intros m Hm Hl.
  - cbn [foldl list_to_map foldr]. by rewrite (left_id_L ∅ (∪)).
  - apply NoDup_cons in Hl as [Hk Hl]. cbn [foldl].
    rewrite Hstep by (apply Hm; by left). rewrite IH; [..|done].
    2: { intros k' Hk'. rewrite lookup_insert_ne; [apply Hm; by right|by intros ->]. }
    change (list_to_map ((k, a) :: l) : gmap string string)
      with (<[k := a]> (list_to_map l) : gmap string string).
    rewrite <- insert_union_l. rewrite insert_union_r; [done|].
    by apply not_elem_of_list_to_map.
Qed.

(** The peers of a configuration made from a list of peers. *)
Lemma initial_peers id peers dir w threshold now d :
  effectivePeers (initial_node id peers dir w threshold now d) = delete id peers.
Proof.
  unfold effectivePeers, initial_node. cbn [currentConfig node_id ConfigFromPeers].
  unfold AllNodeGRPC, ConfigFromPeers. cbn [NewPeers OldPeers Joint]. rewrite copyMap_id.
  apply map_eq. intros k. rewrite lookup_add_nodes, lookup_empty, lookup_delete.
  case_bool_decide as Hk.
  - subst. by rewrite decide_True.
  - rewrite decide_False, lookup_insert_ne by done. by destruct (peers !! k).
Qed.

(** The crypto packages give certificates they accept. *)
Definition crypto_works (rand : nat) : Prop :=
  ∃ ca cert key, generated rand = Ok (ca, cert, key) ∧
    AppendCertsFromPEM (pem_Encode "CERTIFICATE" ca) = true ∧
    X509KeyPair (pem_Encode "CERTIFICATE" cert) (pem_Encode "EC PRIVATE KEY" key) = None.

Lemma credentials_created rand p wal :
  crypto_works rand → NoDup [wal; caCertPath p; certPath p; keyPath p] →
  ∃ cfg d res, LoadServerCredentials rand p (mkDisk {[ wal := [] ]} []) = (Ok cfg, d) ∧
    loaded p res d ∧ files d !! wal = Some [].
Proof.
  intros (ca & cert & key & Hg & Hpool & Hpair) Hnd. unfold LoadServerCredentials, load_files.
  destruct (ensure_healthy rand p (mkDisk {[ wal := [] ]} []) _ eq_refl Hg)
    as (d & -> & Hd & Hf). cbn [files] in Hf.
  apply NoDup_cons in Hnd as [Hw Hnd]. apply NoDup_cons in Hnd as [Hc Hnd].
  apply NoDup_cons in Hnd as [Hn _]. 
  repeat match goal with H : _ ∉ _ :: _ |- _ => apply not_elem_of_cons in H as [? ?] end.
  assert (files d !! caCertPath p = Some (pem_Encode "CERTIFICATE" ca) ∧
    files d !! certPath p = Some (pem_Encode "CERTIFICATE" cert) ∧
    files d !! keyPath p = Some (pem_Encode "EC PRIVATE KEY" key) ∧
    files d !! wal = Some []) as (Hl1 & Hl2 & Hl3 & Hl4).
  { rewrite Hf. unfold fresh_files. split_and!.
    4: { apply lookup_union_Some_l, lookup_singleton_eq. }
    all: rewrite lookup_union_r by (apply lookup_singleton_ne; congruence).
    - apply lookup_insert_eq.
    - rewrite lookup_insert_ne by congruence. apply lookup_insert_eq.
    - rewrite !lookup_insert_ne by congruence. apply lookup_singleton_eq. }
  repeat (rewrite os_read_healthy by done; rewrite ?Hl1, ?Hl2, ?Hl3, ?Hpool; cbn [negb]).
  rewrite Hpair. 
  eexists _, d, (pem_Encode "CERTIFICATE" ca,
    (pem_Encode "CERTIFICATE" cert, pem_Encode "EC PRIVATE KEY" key)).
  split_and!; [done|by split|done].
Qed.
End Start.

(** C37. The first start of a node.  On an empty disk, when its addresses are
    free, its peers can be dialled and the crypto packages work, the command
    starts a follower in term 0 with no vote, an empty log and a running
    election timer, connected to every peer of its flag but itself; its tokens
    come from the flags, or else from the environment.  The HTTP addresses of
    the peers, given in a flag of their own, are not kept: the node has none to
    redirect a client to. *)
Theorem first_start {PC : ProtoCodec} {CR : Crypto} f env w now :
  let s := node_settings f env in
  crypto_works (random w) →
  NoDup [wal_file_of (storageDir s); f_ca_cert f; f_node_cert f; f_node_key f] →
  (∀ a, dial w a = None) → (∀ a, net_Listen w a = None) →
  ∃ r, start_node f env w now no_files =
      Ok (r, NewServer (token s) (aToken s) (f_allow_unauth_reads f) now) ∧
    state r = Follower ∧ currentTerm r = 0 ∧ votedFor r = "" ∧ log r = [] ∧
    timer_armed r = true ∧ readSafety r = f_read_safety f ∧
    effectivePeers r = delete (nodeID s) (parse_peers (f_peers f)) ∧
    grpcPeers r = effectivePeers r ∧
    files (disk r) !! wal_file_of (storageDir s) = Some [] ∧
    GetPeerHTTPAddrs r = ∅.
Proof.
  intros s Hcr Hnd Hdial Hlis. unfold start_node. fold s. rewrite NewRaft_fresh.
  set (d0 := mkDisk _ []). set (r0 := initial_node _ _ _ _ _ _ _).
  set (paths := mkPaths _ _ _).
  change (InitClusterConfig _ _ _) with (SetReadSafety (f_read_safety f) r0).
  change (disk (SetReadSafety _ r0)) with d0.
  destruct (credentials_created (random w) paths _ Hcr Hnd) as (cfg & d & res & Hs & Hl & Hwal).
  fold d0 in Hs. rewrite Hs, Hlis. 
  set (r1 := (SetReadSafety (f_read_safety f) r0) <| disk := d |>).
  unfold Start. rewrite connect_all; [|..|done].
  - rewrite Hlis. eexists. split; [done|].
    assert (effectivePeers r1 = delete (nodeID s) (set_peers s)) as Hp
      by exact (initial_peers _ _ _ _ _ _ _).
    split_and!; try done.
  - cbn. unfold Transport.LoadClientCredentials.
    rewrite (loaded_load_files _ _ _ _ _ Hl). by destruct res.
  - done.
Qed.

(** The three nodes of a compose file. *)
Definition first_flags : NodeFlags :=
  default_node_flags <| f_id := "node1" |>
    <| f_peers := "node2=node2:9000,node3=node3:9000" |>
    <| f_peer_http := "node2=node2:8080,node3=node3:8080" |>.
Definition quiet_world : World := mkWorld (λ _, None) (λ _, None) 7.

Lemma first_start_witness :
  ∃ r, @start_node wire_codec plain_crypto first_flags {["KV_API_TOKEN" := "secret"]}
      quiet_world 0 no_files = Ok (r, NewServer "secret" "" false 0) ∧
    effectivePeers r = {["node2" := "node2:9000"; "node3" := "node3:9000"]} ∧
    GetPeerHTTPAddrs r = ∅.
Proof.
  destruct (@first_start wire_codec plain_crypto first_flags {["KV_API_TOKEN" := "secret"]}
    quiet_world 0) as (r & Hr & _ & _ & _ & _ & _ & _ & Hp & _ & _ & Hh).
  - by eexists _, _, _.
  - apply (bool_decide_unpack _). vm_compute. exact I.
  - done.
  - done.
  - exists r. split_and!; [|rewrite Hp; vm_compute; reflexivity|exact Hh].
    etransitivity; [exact Hr|]. do 2 f_equal.
Defined.
