(* ===== verification/TransferSpec.v ===== *)
(** * Sending a snapshot

    A leader cuts its snapshot file into chunks, a follower joins them: the
    loop of [sendSnapshotToPeer] ends and makes the calls of [Cluster.calls],
    and a follower that receives them in order installs the snapshot. *)

From Stdlib Require Import Ascii.
From S2P Require Import Prelude Types Config Json Envelope Disk Wal SnapshotStore.
From S2P Require Import Node Roles Election Apply Replication Client Startup RunLoop.
From S2P Require Import NodeFacts ApplyFacts JsonFacts EnvelopeFacts Cluster Scenarios.

(** ** Chunks *)

Lemma chunkSize_pos : 0 < chunkSize.
Proof. done. Qed.

(** The part of the snapshot before the [i]-th chunk. *)
Definition before_chunk (data : bytes) (i : nat) : bytes :=
  take (Z.to_nat (Z.of_nat i * chunkSize)) data.

(** Every chunk but the last one is full, and the last one ends the
    snapshot. *)
Lemma chunk_at_cases data i : (i < chunk_count data)%nat →
  ∃ d, chunk_at data i = (Z.of_nat (length (before_chunk data i)), d,
                          bool_decide (S i = chunk_count data)) ∧
    before_chunk data i ++ d =
      if bool_decide (S i = chunk_count data) then data else before_chunk data (S i).
Proof.
  unfold chunk_count, chunk_at, before_chunk. cbv zeta.
  set (n := Z.of_nat (length data)). pose proof chunkSize_pos as Hpos.
  set (q := (n - 1) / chunkSize). intros Hi.
  assert (Hq : chunkSize * q ≤ n - 1 < chunkSize * q + chunkSize).
  { pose proof (Z.div_mod (n - 1) chunkSize). pose proof (Z.mod_pos_bound (n - 1) chunkSize).
    unfold q. lia. }
  assert (Hn : 0 ≤ n) by (unfold n; lia).
  assert (Hlen : length data = Z.to_nat n) by (unfold n; lia). clearbody n q.
  assert (Hoff : Z.of_nat i * chunkSize ≤ n) by nia.
  assert (Hlast : (n <=? Z.of_nat i * chunkSize + chunkSize) =
                  bool_decide (S i = S (Z.to_nat q))).
  { case_bool_decide; [apply Z.leb_le|apply Z.leb_gt]; nia. }
  rewrite Hlast. eexists. split.
  { f_equal. f_equal. rewrite length_take. lia. }
  destruct (bool_decide (S i = S (Z.to_nat q))) eqn:Hb.
  - rewrite take_ge with (l := drop _ _) by (rewrite length_drop; lia). apply take_drop.
  - rewrite take_take_drop. f_equal. lia.
Qed.

(** [send_chunks] is the calls with the chunks of [chunk_at] one after the
    other, up to the first that fails or ends it. *)
Fixpoint each_chunk (send : Z → bytes → bool → result InstallSnapshotResponse)
    (term : Z) (chunks : list (Z * bytes * bool)) : option InstallSnapshotResponse :=
  match chunks with
  | [] => None
  | (offset, d, fin) :: chunks =>
      match send offset d fin with
      | Err _ => None
      | Ok resp =>
          if (term <? isr_Term resp) || fin then Some resp else each_chunk send term chunks
      end
  end.

Lemma send_chunks_each send term data k i fuel :
  (i + k = chunk_count data)%nat → (0 < k)%nat → (k ≤ fuel)%nat →
  send_chunks fuel send term data (Z.of_nat i * chunkSize) =
    Some (each_chunk send term (map (chunk_at data) (seq i k))).
Proof.
  revert i fuel. induction k as [|k IH]; intros i fuel Hk Hpos Hf; [lia|].
  destruct fuel as [|fuel]; [lia|].
  destruct (chunk_at_cases data i) as (d & Hc & _); [lia|].
  cbn [send_chunks seq map each_chunk]. rewrite Hc. unfold chunk_at in Hc. injection Hc as Ho Hd Hfin.
  cbv zeta. rewrite Hfin in *. rewrite Hd, <- Ho.
  destruct (send _ _ _) as [resp|]; [|done].
  destruct (term <? isr_Term resp); [done|]. cbn [orb].
  destruct (bool_decide (S i = chunk_count data)) eqn:Hb; [done|].
  apply bool_decide_eq_false in Hb. rewrite <- (IH (S i) fuel) by lia. f_equal. lia.
Qed.

(** The loop ends, whatever the answers. *)
Lemma snapshot_loop_total send term data :
  snapshot_loop send term data =
    Some (each_chunk send term (map (chunk_at data) (seq 0 (chunk_count data)))).
Proof.
  unfold snapshot_loop. change 0 with (Z.of_nat 0 * chunkSize).
  assert ((chunk_count data ≤ S (length data))%nat).
  { unfold chunk_count. pose proof chunkSize_pos.
    assert ((Z.of_nat (length data) - 1) / chunkSize ≤ Z.of_nat (length data)); [|lia].
    apply Z.div_le_upper_bound; nia. }
  apply send_chunks_each; unfold chunk_count in *; lia.
Qed.

(** ** The follower *)

(** What the chunks before the last one leave alone. *)
Record same_store (r r' : Raft) : Prop := {
  ss_disk : disk r' = disk r;
  ss_path : snapshotPath r' = snapshotPath r;
  ss_commit : commitIndex r' = commitIndex r;
  ss_applied : lastApplied r' = lastApplied r;
  ss_config : currentConfig r' = currentConfig r
}.

Lemma follow_leader_store t l r :
  same_store r (follow_leader t l r) ∧ snapshotBuf (follow_leader t l r) = snapshotBuf r ∧
  (currentTerm r ≤ t → currentTerm (follow_leader t l r) = t).
Proof.
  unfold follow_leader, resetElectionTimer. rewrite !transitionToFollower_frame. cbv zeta.
  destruct (Z.ltb_spec (currentTerm r) t); rsimpl.
  - rewrite bool_decide_eq_false_2 by done. done.
  - case_bool_decide; (split_and!; [done|done|]); intros; [done|]. simpl. lia.
Qed.

(** A chunk is joined to the chunks before it; the first one starts anew. *)
Lemma receive_next buf d : receive_chunk (Z.of_nat (length buf)) d buf = buf ++ d.
Proof.
  unfold receive_chunk. cbv zeta. destruct (Z.eqb_spec (Z.of_nat (length buf)) 0) as [H|H].
  - rewrite H. apply (Nat2Z.inj _ 0), length_zero_iff_nil in H. by rewrite H.
  - by rewrite Z.eqb_refl.
Qed.

Lemma receive_in_order data i d buf :
  i = O ∨ buf = before_chunk data i →
  receive_chunk (Z.of_nat (length (before_chunk data i))) d buf = before_chunk data i ++ d.
Proof.
  intros [->| ->]; [|apply receive_next]. done.
Qed.

Section Transfer.
Context {PC : ProtoCodec} {DL : Dialer}.

(** The request that carries the [i]-th chunk. *)
Definition chunk_request (leader : string) (a : SnapshotArgs) (i : nat) : InstallSnapshotRequest :=
  let '(offset, d, fin) := chunk_at (sa_snapData a) i in
  mkInstallSnapshotRequest (sa_term a) leader (sa_lastIncludedIndex a)
    (sa_lastIncludedTerm a) offset d fin.

(** A peer that is connected is called with each chunk. *)
Lemma calls_chunks n peer a r :
  (∀ A (x : A), with_connection r peer x = Ok x) →
  calls n (OSnapshot peer a) r =
    map (λ i, Call n peer (MInstallSnapshot (chunk_request (node_id r) a i)) true)
      (seq 0 (chunk_count (sa_snapData a))).
Proof.
  intros Hc. cbn [calls]. generalize (seq 0 (chunk_count (sa_snapData a))). intros l.
  induction l as [|i l IH]; [done|]. cbn [flat_map map]. rewrite IH. unfold chunk_request.
  destruct (chunk_at _ i) as [[o d] fin]. unfold sendInstallSnapshot. by rewrite Hc.
Qed.

Definition receive (req : InstallSnapshotRequest) (r : Raft) : Raft :=
  (handleRPC (MInstallSnapshot req) r).2.

Lemma receive_buffer leader a i r :
  (S i < chunk_count (sa_snapData a))%nat → currentTerm r ≤ sa_term a →
  (i = O ∨ snapshotBuf r = before_chunk (sa_snapData a) i) →
  let r' := receive (chunk_request leader a i) r in
  same_store r r' ∧ currentTerm r' = sa_term a ∧
  snapshotBuf r' = before_chunk (sa_snapData a) (S i).
Proof.
  intros Hi Ht Hbuf. unfold receive, chunk_request. cbn [handleRPC].
  destruct (chunk_at_cases (sa_snapData a) i) as (d & -> & Hd); [lia|].
  rewrite bool_decide_eq_false_2 in * by lia. unfold processInstallSnapshot.
  cbn [is_Term is_LeaderId Offset Data Done]. destruct (Z.ltb_spec (sa_term a) (currentTerm r)); [lia|].
  destruct (follow_leader_store (sa_term a) leader r) as (Hs & Hb & Hterm).
  cbn [fst snd]. rsimpl. split_and!; [by destruct Hs|by apply Hterm|].
  rewrite Hb, <- Hd. by apply receive_in_order.
Qed.

Lemma receive_all leader a k r :
  (S k ≤ chunk_count (sa_snapData a))%nat → currentTerm r ≤ sa_term a →
  let r' := foldl (λ r i, receive (chunk_request leader a i) r) r (seq 0 k) in
  same_store r r' ∧ currentTerm r' ≤ sa_term a ∧
  (k = O ∨ snapshotBuf r' = before_chunk (sa_snapData a) k).
Proof.
  intros Hk Ht. induction k as [|k IH]; [by split_and!; try left|].
  destruct IH as (Hs & Hterm & Hbuf); [lia|]. rewrite seq_S, foldl_app. cbn [foldl].
  set (r1 := foldl _ r (seq 0 k)) in *. clearbody r1.
  destruct (receive_buffer leader a k r1) as (Hs' & Hterm' & Hbuf'); [lia|done|done|].
  cbn [Nat.add]. split_and!; [|lia|by right]. destruct Hs, Hs'. split; congruence.
Qed.

(** The last chunk. *)
Lemma receive_last leader a snap r :
  let k := pred (chunk_count (sa_snapData a)) in
  sa_snapData a = marshal_Snapshot snap → utf8_snapshot snap → currentTerm r ≤ sa_term a →
  (k = O ∨ snapshotBuf r = before_chunk (sa_snapData a) k) →
  ∃ r1, same_store r r1 ∧
    receive (chunk_request leader a k) r = (restoreSnapshot snap r1) <| snapshotBuf := [] |>.
Proof.
  intros k Hdata Hutf Ht Hbuf. assert (Hk : (k < chunk_count (sa_snapData a))%nat)
    by (unfold k, chunk_count; lia).
  unfold receive, chunk_request. cbn [handleRPC].
  destruct (chunk_at_cases (sa_snapData a) k) as (d & -> & Hd); [lia|].
  rewrite bool_decide_eq_true_2 in * by (unfold k, chunk_count; lia).
  unfold processInstallSnapshot.
  cbn [is_Term is_LeaderId Offset Data Done]. destruct (Z.ltb_spec (sa_term a) (currentTerm r)); [lia|].
  destruct (follow_leader_store (sa_term a) leader r) as (Hs & Hb & Hterm).
  set (r1 := follow_leader _ _ _) in *. clearbody r1. cbn [fst snd].
  set (o := Z.of_nat (length (before_chunk (sa_snapData a) k))).
  exists (r1 <| snapshotBuf ::= receive_chunk o d |>). split; [by destruct Hs|]. rsimpl.
  replace (receive_chunk o d (snapshotBuf r1)) with (marshal_Snapshot snap);
    [by rewrite unmarshal_marshal_Snapshot|].
  rewrite <- Hdata, <- Hd, Hb. symmetry. by apply receive_in_order.
Qed.
End Transfer.

Lemma sendSnapshotToPeer_healthy r snap :
  state r = Leader → healthy (disk r) → utf8_snapshot snap →
  files (disk r) !! snapshotPath r = Some (encode_Snapshot snap) →
  sendSnapshotToPeer r =
    (Some (mkSnapshotArgs (currentTerm r) (lastIncludedIndex r) (lastIncludedTerm r)
             (marshal_Snapshot snap)), r).
Proof.
  intros Hs Hd Hutf Hf. unfold sendSnapshotToPeer. rewrite bool_decide_eq_false_2 by (rewrite Hs; tauto).
  unfold LoadSnapshot. rewrite os_read_healthy, Hf by done.
  rewrite decode_encode_Snapshot by done. f_equal. solve_upd.
Qed.

Section Transferred.
Context {PC : ProtoCodec} {DL : Dialer}.

(** C26. A leader with a snapshot on its disk sends it to a connected peer in
    chunks; a follower that is not ahead of the leader and receives the calls
    in order has installed that snapshot: its store, its table of requests, its
    membership and the index and term it stands for, with the indices of what
    is committed and applied raised to it, and the buffer emptied. *)
Theorem snapshot_transferred leader f snap peer :
  state leader = Leader → healthy (disk leader) → utf8_snapshot snap →
  files (disk leader) !! snapshotPath leader = Some (encode_Snapshot snap) →
  (∀ A (x : A), with_connection leader peer x = Ok x) →
  currentTerm f ≤ currentTerm leader → healthy (disk f) →
  ∃ a reqs,
    handle (ESendSnapshot peer) leader = (OSnapshot peer a, leader) ∧
    calls (node_id leader) (OSnapshot peer a) leader =
      map (λ req, Call (node_id leader) peer (MInstallSnapshot req) true) reqs ∧
    let f' := foldl (λ f req, (handleRPC (MInstallSnapshot req) f).2) f reqs in
    kv f' = KVState snap ∧ dedupTable f' = DedupTable snap ∧
    lastIncludedIndex f' = snap_LastIncludedIndex snap ∧
    lastIncludedTerm f' = snap_LastIncludedTerm snap ∧
    commitIndex f' = Z.max (commitIndex f) (snap_LastIncludedIndex snap) ∧
    lastApplied f' = Z.max (lastApplied f) (snap_LastIncludedIndex snap) ∧
    currentConfig f' = match snap_ClusterConfig snap with
                       | Some c => Some (copy_config c)
                       | None => currentConfig f
                       end ∧
    snapshotBuf f' = [].
Proof.
  intros Hl Hd Hutf Hfile Hconn Ht Hdf.
  pose proof (sendSnapshotToPeer_healthy leader snap Hl Hd Hutf Hfile) as Hsend.
  set (a := mkSnapshotArgs _ _ _ _) in Hsend.
  set (n := chunk_count (sa_snapData a)).
  exists a, (map (chunk_request (node_id leader) a) (seq 0 n)).
  split; [cbn [handle]; by rewrite Hsend|]. split.
  { rewrite calls_chunks by done. by rewrite map_map. }
  assert (Hn : n = S (pred n)) by done. rewrite Hn, seq_S, map_app, foldl_app. cbn [map foldl].
  rewrite foldl_fmap.
  destruct (receive_all (node_id leader) a (pred n) f) as ([D P C A G] & Hterm & Hbuf);
    [lia|done|]. unfold receive in *.
  set (f1 := foldl _ f _) in *. clearbody f1.
  destruct (receive_last (node_id leader) a snap f1) as (f2 & [D2 P2 C2 A2 G2] & Hlast);
    [done..|]. unfold receive in Hlast. cbv zeta.
  change (0 + pred n)%nat with (pred n). fold n in Hlast. rewrite Hlast.
  destruct (restoreSnapshot_saved snap f2) as (c & p & h & w & d & -> & ->).
  { apply SaveSnapshot_healthy. unfold healthy. by rewrite D2, D. }
  unfold installed. rsimpl. rewrite C2, C, A2, A, G2, G. done.
Qed.
End Transferred.

(** A leader with a value of 70000 bytes in its snapshot, which takes two
    chunks. *)
Definition long_value : string := N.iter 70000 (String "v"%char) "".
Definition long_snapshot : Snapshot :=
  mkSnapshot 7 2 {["a" := "1"; "long" := long_value]} (Some three_nodes)
    {["c" := mkDedupEntry 4 "ok" "ok"]}.
Definition leading (snap : Snapshot) (r : Raft) : Raft :=
  r <| state := Leader |> <| currentTerm := 3 |>
    <| disk := mkDisk {[snapshotPath r := encode_Snapshot snap]} [] |>.
Definition n1_leading : Raft := leading long_snapshot n1_boot.

Lemma utf8_repeat n : utf8_string (N.iter n (String "v"%char) "").
Proof.
  rewrite N2Nat.inj_iter. induction (N.to_nat n) as [|k IH]; [constructor|].
  cbn [Nat.iter nat_rect]. unfold utf8_string in *. by apply (utf8_rune ["v"%byte]).
Qed.

Lemma utf8_long_snapshot : utf8_snapshot long_snapshot.
Proof.
  pose proof utf8_snapshot0 as (Hi & Ht & _ & Hc & Hd).
  split_and!; [done|done| |exact Hc|exact Hd].
  unfold utf8_map. cbn [KVState long_snapshot].
  apply map_Forall_insert_2; [split; apply (utf8_check_sound 9); vm_compute; reflexivity|].
  apply map_Forall_insert_2; [|apply map_Forall_empty].
  split; [apply (utf8_check_sound 9); vm_compute; reflexivity|apply utf8_repeat].
Qed.

Lemma leading_file snap r :
  files (disk (leading snap r)) !! snapshotPath (leading snap r) = Some (encode_Snapshot snap).
Proof. apply lookup_singleton_eq. Qed.

Lemma leading_connected snap r peer addr :
  partition r = None → grpcPeers r !! peer = Some addr →
  ∀ A (x : A), with_connection (leading snap r) peer x = Ok x.
Proof.
  intros Hp Hg A x. unfold with_connection, checkNetworkFault, leading. rsimpl.
  by rewrite Hp, Hg.
Qed.

Example snapshot_transferred_witness :
  ∃ a reqs,
    handle (ESendSnapshot "n3") n1_leading = (OSnapshot "n3" a, n1_leading) ∧
    calls (node_id n1_leading) (OSnapshot "n3" a) n1_leading =
      map (λ req, Call (node_id n1_leading) "n3" (MInstallSnapshot req) true) reqs ∧
    kv (foldl (λ f req, (handleRPC (MInstallSnapshot req) f).2) n3_boot reqs) =
      KVState long_snapshot.
Proof.
  destruct (snapshot_transferred n1_leading n3_boot long_snapshot "n3")
    as (a & reqs & Ha & Hc & Hkv & _).
  - reflexivity.
  - reflexivity.
  - apply utf8_long_snapshot.
  - apply leading_file.
  - eapply leading_connected; reflexivity.
  - unfold n1_leading, leading. rsimpl. vm_compute. discriminate.
  - vm_compute. reflexivity.
  - exists a, reqs. split; [exact Ha|]. split; [exact Hc|exact Hkv].
Defined.
