(* ===== verification/RaftProtocol.v ===== *)
(** * The protocol behind the nodes

    An abstract machine for Raft: every node has a term and a full log, a vote
    is kept with the log of the voter, a leader with its log, and for each
    node and term the machine remembers how much of the leader's log the node
    has acknowledged.  No message, disk or index appears; a step is enabled by
    the facts the messages of the real cluster carry.

    [protocol_inv] is its invariant.  An entry is [choosable] while the nodes
    that have not left its term could still acknowledge it: such an entry is in
    the log of every later leader ([pi_safe]), so a committed entry is in all
    of them. *)

From stdpp Require Import functions.
From S2P Require Import Prelude Types Config Disk Wal Node NodeFacts ReplicationFacts.

(** ** Logs *)

(** The term of the entry at a position, counted from 1; 0 at the position
    before the first. *)
Definition term_at (l : list LogEntry) (k : nat) : Z :=
  match k with
  | O => 0
  | S j => match l !! j with Some e => Term e | None => 0 end
  end.
Definition last_term (l : list LogEntry) : Z := term_at l (length l).

(** The log [l'] of a candidate is at least as up to date as [l]. *)
Definition up_to_date (l' l : list LogEntry) : Prop :=
  last_term l < last_term l' ∨ (last_term l = last_term l' ∧ (length l ≤ length l')%nat).

(** The log after the entries [es] that follow the position [p]. *)
Definition merge (p : nat) (l es : list LogEntry) : list LogEntry :=
  take p l ++ reconcile (drop p l) es.

(** ** The machine *)

Record Abs := mkAbs {
  a_term : string → Z;
  a_log : string → list LogEntry;
  a_vote : string * Z → option (string * list LogEntry);
  a_leader : Z → option string;
  a_llog : Z → list LogEntry;
  a_ack : string * Z → nat;
  a_known : Z → nat (* what the leader of a term has committed in it *)
}.
#[export] Instance eta_Abs : Eta Abs := λ g,
  mkAbs (a_term g) (a_log g) (a_vote g) (a_leader g) (a_llog g) (a_ack g) (a_known g).

Definition majority (M Q : gset string) : Prop := Q ⊆ M ∧ (size M < 2 * size Q)%nat.

Lemma majority_meet M Q1 Q2 : majority M Q1 → majority M Q2 → ∃ v, v ∈ Q1 ∧ v ∈ Q2.
Proof.
  intros [H1 S1] [H2 S2]. destruct (decide (Q1 ∩ Q2 = ∅)) as [He|Hne].
  - assert (size (Q1 ∪ Q2) ≤ size M)%nat as Hle by (apply subseteq_size; set_solver).
    rewrite size_union in Hle by set_solver. lia.
  - apply set_choose_L in Hne as [v Hv]. exists v. set_solver.
Qed.

Section Protocol.
Context (M : gset string).

(** [n] may add to the log of the leader of [t]: it leads the term, or has just
    been elected, with the log it campaigned with. *)
Definition leading (g : Abs) (n : string) (t : Z) : Prop :=
  a_leader g t = Some n ∨
  (a_leader g t = None ∧ a_vote g (n, t) = Some (n, a_log g n) ∧
   ∃ Q, majority M Q ∧ ∀ v, v ∈ Q → ∃ l, a_vote g (v, t) = Some (n, l)).

(** A node takes the term [t], and may have cast a vote. *)
Definition voted (g : Abs) (n : string) (t : Z)
    (votes : string * Z → option (string * list LogEntry)) : Abs :=
  g <| a_vote := votes |> <| a_term ::= <[n := t]> |>.

(** What a leader adds to its log; a node that has won starts with it. *)
Definition appended (g : Abs) (n : string) (e : LogEntry) : Abs :=
  g <| a_leader ::= <[a_term g n := Some n]> |>
    <| a_llog ::= <[a_term g n := a_log g n ++ [e]]> |>
    <| a_ack ::= <[(n, a_term g n) := S (length (a_log g n))]> |>
    <| a_log ::= <[n := a_log g n ++ [e]]> |>.

(** A follower merges entries of the leader of [t] into its log. *)
Definition accepted (g : Abs) (n : string) (t : Z) (p : nat) (es : list LogEntry) : Abs :=
  g <| a_ack ::= <[(n, t) := (a_ack g (n, t) `max` length (merge p (a_log g n) es))%nat]> |>
    <| a_log ::= <[n := merge p (a_log g n) es]> |>
    <| a_term ::= <[n := t]> |>.

(** The entry at [k] of the log of the leader of [t] is of this term, and a
    majority has acknowledged it. *)
Definition committed (g : Abs) (t : Z) (k : nat) : Prop :=
  is_Some (a_leader g t) ∧ (1 ≤ k ≤ length (a_llog g t))%nat ∧ term_at (a_llog g t) k = t ∧
  ∃ Q, majority M Q ∧ ∀ v, v ∈ Q → (k ≤ a_ack g (v, t))%nat.

(** A leader learns that the entry at [k] is committed. *)
Definition learned (g : Abs) (t : Z) (k : nat) : Abs := g <| a_known ::= <[t := k]> |>.

(** The steps of the node [n]: a later term, a campaign, a vote for a
    candidate whose log is up to date, an entry of a leader, entries of a
    leader that are accepted, a commitment of a leader.  The entries include an entry of the leader's own term,
    as the first entry of a leader is. *)
Inductive proto_step (n : string) (g : Abs) : Abs → Prop :=
| ps_term t :
    a_term g n ≤ t → proto_step n g (voted g n t (a_vote g))
| ps_campaign t :
    a_term g n < t → a_vote g (n, t) = None →
    proto_step n g (voted g n t (<[(n, t) := Some (n, a_log g n)]> (a_vote g)))
| ps_vote t c lc :
    a_term g n ≤ t → a_vote g (n, t) = None →
    a_vote g (c, t) = Some (c, lc) → up_to_date lc (a_log g n) →
    proto_step n g (voted g n t (<[(n, t) := Some (c, a_log g n)]> (a_vote g)))
| ps_lead e :
    leading g n (a_term g n) → Term e = a_term g n → proto_step n g (appended g n e)
| ps_accept t p es :
    a_term g n ≤ t → is_Some (a_leader g t) → (p ≤ length (a_log g n))%nat →
    take p (a_log g n) = take p (a_llog g t) →
    take (p + length es) (a_llog g t) = take p (a_llog g t) ++ es →
    term_at (a_llog g t) (p + length es) = t →
    proto_step n g (accepted g n t p es)
| ps_commit t k :
    a_leader g t = Some n → committed g t k → (a_known g t ≤ k)%nat →
    proto_step n g (learned g t k).

(** ** The invariant *)

(** Every entry of [l] stands where the leader of its term put it, after the
    same entries. *)
Definition matches (g : Abs) (l : list LogEntry) : Prop :=
  ∀ k e, l !! k = Some e →
    is_Some (a_leader g (Term e)) ∧ take (S k) l = take (S k) (a_llog g (Term e)).

(** The entry at [k] is of the term [t], and a majority may still acknowledge
    it: each of its nodes has, or has not left the term. *)
Definition choosable (g : Abs) (t : Z) (k : nat) : Prop :=
  is_Some (a_leader g t) ∧ (1 ≤ k ≤ length (a_llog g t))%nat ∧ term_at (a_llog g t) k = t ∧
  ∃ Q, majority M Q ∧ ∀ v, v ∈ Q → (k ≤ a_ack g (v, t))%nat ∨ a_term g v ≤ t.

Record protocol_inv (g : Abs) : Prop := {
  pi_term n : 0 ≤ a_term g n;
  pi_vote_term n t x : a_vote g (n, t) = Some x → 1 ≤ t ≤ a_term g n;
  pi_ack_term n t : a_ack g (n, t) ≠ O → t ≤ a_term g n;
  pi_vote n t c l : a_vote g (n, t) = Some (c, l) →
    ∃ lc, a_vote g (c, t) = Some (c, lc) ∧ up_to_date lc l;
  pi_candidate c t lc e : a_vote g (c, t) = Some (c, lc) → e ∈ lc → Term e < t;
  pi_leader t c : a_leader g t = Some c →
    ∃ lc x Q, a_vote g (c, t) = Some (c, lc) ∧ a_llog g t = lc ++ x ∧ x ≠ [] ∧
      (∀ e, e ∈ x → Term e = t) ∧ majority M Q ∧
      ∀ v, v ∈ Q → ∃ l, a_vote g (v, t) = Some (c, l);
  pi_leader_log t c : a_leader g t = Some c → a_term g c = t → a_log g c = a_llog g t;
  pi_log_term n e : e ∈ a_log g n → Term e ≤ a_term g n;
  pi_log n : matches g (a_log g n);
  pi_llog t : is_Some (a_leader g t) → matches g (a_llog g t);
  pi_vote_log n t c l : a_vote g (n, t) = Some (c, l) → matches g l;
  pi_no_ack n t : a_leader g t = None → a_ack g (n, t) = O;
  pi_ack n t : (a_ack g (n, t) ≤ length (a_llog g t))%nat;
  pi_ack_now n t : a_term g n = t → a_ack g (n, t) ≠ O →
    a_log g n `prefix_of` a_llog g t ∧ (a_ack g (n, t) ≤ length (a_log g n))%nat;
  pi_node n t k : choosable g t k → (k ≤ a_ack g (n, t))%nat →
    take k (a_log g n) = take k (a_llog g t);
  pi_voter n t t' k c l : choosable g t k → a_vote g (n, t') = Some (c, l) → t < t' →
    (k ≤ a_ack g (n, t))%nat → take k l = take k (a_llog g t);
  pi_safe t t' k : choosable g t k → t < t' → is_Some (a_leader g t') →
    take k (a_llog g t') = take k (a_llog g t)
}.

(** ** Facts on logs *)

Lemma take_eq_le {A} j k (l1 l2 : list A) :
  (j ≤ k)%nat → take k l1 = take k l2 → take j l1 = take j l2.
Proof.
  intros Hj H. apply (f_equal (take j)) in H. rewrite !take_take in H.
  by rewrite Nat.min_l in H by lia.
Qed.

Lemma take_eq_length {A} k (l1 l2 : list A) :
  take k l1 = take k l2 → (k ≤ length l2)%nat → (k ≤ length l1)%nat.
Proof. intros H Hk. apply (f_equal length) in H. rewrite !length_take in H. lia. Qed.

Lemma lookup_take_eq {A} k j (l1 l2 : list A) :
  take k l1 = take k l2 → (j < k)%nat → l1 !! j = l2 !! j.
Proof.
  intros H Hj. apply (f_equal (.!! j)) in H. by rewrite !lookup_take_lt in H by done.
Qed.

Lemma term_at_take k l1 l2 : take k l1 = take k l2 → term_at l1 k = term_at l2 k.
Proof.
  destruct k as [|k]; [done|]. intros H. simpl.
  by rewrite (lookup_take_eq (S k) k l1 l2) by (done || lia).
Qed.

Lemma term_at_Some l k : (1 ≤ k ≤ length l)%nat →
  ∃ e, l !! (k - 1)%nat = Some e ∧ term_at l k = Term e.
Proof.
  intros Hk. destruct k as [|k]; [lia|]. replace (S k - 1)%nat with k by lia.
  destruct (lookup_lt_is_Some_2 l k) as [e He]; [lia|]. exists e. simpl. by rewrite He.
Qed.

Lemma prefix_take_eq {A} k (l l1 l2 : list A) :
  take k l = take k l1 → l1 `prefix_of` l2 → (k ≤ length l)%nat → take k l = take k l2.
Proof.
  intros H [x ->] Hk. rewrite H. symmetry. apply take_app_le.
  apply (f_equal length) in H. rewrite !length_take in H. lia.
Qed.

Lemma fn_insert_at {A B} `{EqDecision A} (f : A → B) a x b :
  (<[a := x]> f) b = if decide (a = b) then x else f b.
Proof. done. Qed.

(** The merge keeps all of its first log, or is the second one, which is longer
    than what the two logs share. *)
Lemma reconcile_cases l es y :
  (∀ j a b, l !! j = Some a → es !! j = Some b → Term a = Term b → a = b) →
  (reconcile l es = es ∧
   ∀ k, (k ≤ length l)%nat → take k l = take k (es ++ y) → (k ≤ length es)%nat) ∨
  (reconcile l es = l ∧ es `prefix_of` l).
Proof.
  revert es. induction l as [|a l IH]; intros [|b es] Hab; simpl.
  - right. split; [done|apply prefix_nil].
  - left. split; [done|]. intros k Hk. lia.
  - right. split; [done|apply prefix_nil].
  - case_bool_decide as Heq.
    + assert (a = b) as <- by (by apply (Hab O)).
      destruct (IH es) as [[Hr Hk]|[Hr Hp]]; [by intros j; apply (Hab (S j))|left|right].
      * split; [by rewrite Hr|]. intros [|k] Hkl H; [lia|]. simpl in H. injection H as H.
        apply le_n_S, Hk; [lia|done].
      * split; [by rewrite Hr|by apply prefix_cons].
    + left. split; [done|]. intros [|k] Hkl H; [lia|]. simpl in H. congruence.
Qed.

(** ** Consequences of the invariant *)

Section Facts.
Context (g : Abs) (Hg : protocol_inv g).

Lemma llog_term t e : is_Some (a_leader g t) → e ∈ a_llog g t → Term e ≤ t.
Proof.
  intros [c Hc] He. destruct (pi_leader g Hg t c Hc) as (lc & x & Q & Hv & Hl & _ & Hx & _).
  rewrite Hl in He. apply elem_of_app in He as [He|He].
  - pose proof (pi_candidate g Hg c t lc e Hv He). lia.
  - rewrite (Hx e He). lia.
Qed.

Lemma leader_term t c : a_leader g t = Some c → 1 ≤ t ≤ a_term g c.
Proof.
  intros Hc. destruct (pi_leader g Hg t c Hc) as (lc & x & Q & Hv & _).
  by apply (pi_vote_term g Hg _ _ _ Hv).
Qed.

Lemma matches_sorted l i j a b :
  matches g l → l !! i = Some a → l !! j = Some b → (i ≤ j)%nat → Term a ≤ Term b.
Proof.
  intros Hm Ha Hb Hij. destruct (Hm j b Hb) as [Hs Ht].
  apply (llog_term (Term b)); [done|]. apply list_elem_of_lookup. exists i.
  by rewrite <- (lookup_take_eq (S j) i l) by (done || lia).
Qed.

Lemma matches_term l k e : matches g l → l !! k = Some e → 1 ≤ Term e.
Proof. intros Hm He. destruct (Hm k e He) as [[c Hc] _]. by apply leader_term in Hc as [? _]. Qed.

(** Log matching: two logs that agree on the term of one entry agree up to
    it. *)
Lemma matches_take l1 l2 k :
  matches g l1 → matches g l2 → (k ≤ length l1)%nat → (k ≤ length l2)%nat →
  term_at l1 k = term_at l2 k → take k l1 = take k l2.
Proof.
  intros H1 H2 Hk1 Hk2 Ht. destruct k as [|k]; [done|].
  destruct (term_at_Some l1 (S k)) as (e1 & He1 & Ht1); [lia|].
  destruct (term_at_Some l2 (S k)) as (e2 & He2 & Ht2); [lia|].
  replace (S k - 1)%nat with k in * by lia.
  destruct (H1 k e1 He1) as [_ ->]. destruct (H2 k e2 He2) as [_ ->]. congruence.
Qed.

Lemma last_term_le l k : matches g l → (k ≤ length l)%nat → term_at l k ≤ last_term l.
Proof.
  intros Hm Hk. unfold last_term. destruct k as [|k].
  - destruct l as [|e l]; [done|].
    destruct (term_at_Some (e :: l) (length (e :: l))) as (e' & He' & ->); [simpl; lia|].
    pose proof (matches_term _ _ _ Hm He'). simpl. lia.
  - destruct (term_at_Some l (S k)) as (a & Ha & ->); [lia|].
    destruct (term_at_Some l (length l)) as (b & Hb & ->); [lia|].
    apply (matches_sorted l _ _ a b Hm Ha Hb). lia.
Qed.

Lemma choosable_committed t k : committed g t k → choosable g t k.
Proof. intros (H1 & H2 & H3 & Q & HQ & Ha). unfold choosable. eauto 10. Qed.

(** A log that is as up to date as one with a choosable prefix has it too,
    when its entries are of terms before [t']. *)
Lemma up_to_date_safe t t' k lc l :
  choosable g t k → (∀ e, e ∈ lc → Term e < t') → matches g lc → matches g l →
  take k l = take k (a_llog g t) → up_to_date lc l → take k lc = take k (a_llog g t).
Proof.
  intros Hch Hlt Hmc Hml Hl Hup. pose proof Hch as (Hlead & Hk & Htk & _).
  assert (Hkl : (k ≤ length l)%nat) by (apply (take_eq_length _ _ _ Hl); lia).
  assert (Htl : term_at l k = t) by (rewrite <- Htk; by apply term_at_take).
  pose proof (last_term_le l k Hml Hkl) as Hlast.
  assert (1 ≤ t) as Ht1 by (destruct Hlead as [c Hc]; by apply leader_term in Hc as [? _]).
  assert (Hne : lc ≠ []) by (intros ->; destruct Hup as [H|[H _]]; change (last_term []) with 0 in H; lia).
  assert (Hlen : (1 ≤ length lc)%nat) by (destruct lc; [done|simpl; lia]).
  destruct (term_at_Some lc (length lc)) as (e & He & Hte); [lia|].
  fold (last_term lc) in Hte.
  destruct Hup as [Hup|[Heq Hle]].
  - (* the last entry of the candidate is of a later term *)
    destruct (Hmc _ _ He) as [Hs Htake]. replace (S (length lc - 1)) with (length lc) in Htake by lia.
    assert (Hsafe : take k (a_llog g (Term e)) = take k (a_llog g t)).
    { apply (pi_safe g Hg t (Term e) k Hch); [lia|done]. }
    assert ((k ≤ length lc)%nat) as Hkc.
    { destruct (decide (k ≤ length lc)%nat) as [|Hgt]; [done|].
      assert (Hlu : (k ≤ length (a_llog g (Term e)))%nat)
        by (apply (take_eq_length _ _ _ Hsafe); lia).
      assert (Hc : term_at (a_llog g (Term e)) k = t) by (rewrite <- Htk; by apply term_at_take).
      destruct (term_at_Some (a_llog g (Term e)) k) as (b & Hb & Htb); [lia|].
      assert (a_llog g (Term e) !! (length lc - 1)%nat = Some e) as Ha.
      { rewrite <- He. symmetry. apply (lookup_take_eq (length lc)); [done|lia]. }
      pose proof (matches_sorted _ _ _ _ _ (pi_llog g Hg _ Hs) Ha Hb). lia. }
    rewrite <- Hsafe. by apply (take_eq_le k (length lc)).
  - (* the last entries are of one term, and the candidate's log is longer *)
    rewrite <- Hl. apply (take_eq_le k (length l)); [done|]. apply matches_take; try done.
    assert (Hl1 : (1 ≤ length l)%nat) by lia.
    destruct (term_at_Some l (length l)) as (b & Hb & Htb); [lia|]. fold (last_term l) in Htb.
    destruct (Hmc _ _ He) as [_ Htc]. destruct (Hml _ _ Hb) as [_ Htl'].
    replace (S (length lc - 1)) with (length lc) in Htc by lia.
    replace (S (length l - 1)) with (length l) in Htl' by lia.
    assert (Term b = Term e) as Heq' by lia. rewrite Heq' in Htl'.
    apply term_at_take. rewrite Htl'. apply (take_eq_le _ (length lc)); [lia|exact Htc].
Qed.
End Facts.

(** ** Preservation *)

(** The logs of the leaders only grow. *)
Definition extends (g g' : Abs) : Prop :=
  ∀ t, is_Some (a_leader g t) →
    is_Some (a_leader g' t) ∧ a_llog g t `prefix_of` a_llog g' t.

Lemma matches_extends g g' l : extends g g' → matches g l → matches g' l.
Proof.
  intros He Hm k e Hk. destruct (Hm k e Hk) as [Hs Ht]. destruct (He _ Hs) as [Hs' Hp].
  split; [done|]. apply (prefix_take_eq _ _ (a_llog g (Term e))); [done|done|].
  apply lookup_lt_Some in Hk. lia.
Qed.

(** What was choosable before a step: no acknowledgement comes from a node
    that had left the term. *)
Lemma choosable_back g g' t k :
  choosable g' t k → is_Some (a_leader g t) → (k ≤ length (a_llog g t))%nat →
  a_llog g t `prefix_of` a_llog g' t → (∀ v, a_term g v ≤ a_term g' v) →
  (∀ v, (k ≤ a_ack g' (v, t))%nat → (k ≤ a_ack g (v, t))%nat ∨ a_term g v ≤ t) →
  choosable g t k.
Proof.
  intros (_ & Hk & Ht & Q & HQ & Hv) Hs Hlen Hp Hterm Hack. unfold choosable.
  split_and!; [done|lia|lia| |].
  - etrans; [|exact Ht]. apply term_at_take. by apply (prefix_take_eq _ _ (a_llog g t)).
  - exists Q. split; [done|]. intros v Hin. destruct (Hv v Hin) as [Ha|Ha]; [by apply Hack|].
    right. specialize (Hterm v). lia.
Qed.

(** A node takes a later term, and may vote in it. *)
Lemma inv_vote g n t votes :
  protocol_inv g → a_term g n ≤ t →
  (votes = a_vote g ∨
   ∃ c, votes = <[(n, t) := (Some (c, a_log g n))]> (a_vote g) ∧ a_vote g (n, t) = None ∧ 1 ≤ t ∧
     ((c = n ∧ a_term g n < t) ∨
      (∃ lc, a_vote g (c, t) = Some (c, lc) ∧ up_to_date lc (a_log g n)))) →
  protocol_inv (voted g n t votes).
Proof.
  intros Hg Ht Hvotes. set (g' := voted g n t votes).
  assert (Hterm : ∀ m, a_term g' m = if decide (n = m) then t else a_term g m) by done.
  assert (Hge : ∀ m, a_term g m ≤ a_term g' m) by (intros m; rewrite Hterm; case_decide; subst; lia).
  assert (Hold : ∀ m u x, a_vote g (m, u) = Some x → a_vote g' (m, u) = Some x).
  { intros m u x Hx. destruct Hvotes as [->|(c & -> & Hn & _)]; [done|].
    change (a_vote g' (m, u)) with ((<[(n, t) := Some (c, a_log g n)]> (a_vote g)) (m, u)).
    rewrite fn_insert_at. case_decide; congruence. }
  assert (Hnew : ∀ m u x, a_vote g' (m, u) = Some x → a_vote g (m, u) = Some x ∨
    (m = n ∧ u = t ∧ 1 ≤ t ∧ ∃ c, x = (c, a_log g n) ∧ ((c = n ∧ a_term g n < t) ∨
      (a_vote g (n, t) = None ∧
       ∃ lc, a_vote g (c, t) = Some (c, lc) ∧ up_to_date lc (a_log g n))))).
  { intros m u x. destruct Hvotes as [->|(c & -> & Hn & H1 & Hc)]; [by left|].
    change (a_vote g' (m, u)) with ((<[(n, t) := Some (c, a_log g n)]> (a_vote g)) (m, u)).
    rewrite fn_insert_at. case_decide as Heq; [|by left]. simplify_eq. intros [= <-]. right.
    split_and!; [done..|]. exists c. split; [done|]. destruct Hc; [by left|by right]. }
  assert (Hch : ∀ u k, choosable g' u k → choosable g u k).
  { intros u k Hc. pose proof Hc as (Hs & Hk & _). apply (choosable_back g g'); try done; [apply Hk|].
    by left. }
  split.
  - intros m. rewrite Hterm. pose proof (pi_term g Hg n). case_decide; [lia|apply (pi_term g Hg)].
  - intros m u x Hx. destruct (Hnew _ _ _ Hx) as [Hx'|(-> & -> & H1 & _)].
    + pose proof (pi_vote_term g Hg _ _ _ Hx'). pose proof (Hge m). lia.
    + rewrite Hterm, decide_True by done. lia.
  - intros m u Hu. pose proof (pi_ack_term g Hg m u Hu). pose proof (Hge m). lia.
  - intros m u c l Hx. destruct (Hnew _ _ _ Hx) as [Hx'|(-> & -> & H1 & c' & [= -> ->] & Hc)].
    + destruct (pi_vote g Hg _ _ _ _ Hx') as (lc & Hlc & Hup). eauto.
    + destruct Hc as [[-> _]|(_ & lc & Hlc & Hup)]; [|by eauto].
      exists (a_log g n). split; [exact Hx|]. right. lia.
  - intros c u lc e Hx He. destruct (Hnew _ _ _ Hx) as [Hx'|(-> & -> & H1 & c' & [= <- ->] & Hc)].
    + by apply (pi_candidate g Hg _ _ _ _ Hx').
    + destruct Hc as [[_ Hlt]|(Hn & lc' & Hlc & _)]; [|congruence].
      pose proof (pi_log_term g Hg n e He). lia.
  - intros u c Hc. destruct (pi_leader g Hg u c Hc) as (lc & x & Q & Hv & Hl & Hx & Hex & HQ & Hvs).
    exists lc, x, Q. split_and!; try done; [by apply Hold|apply HQ..|].
    intros v Hv'. destruct (Hvs v Hv') as [l Hl']. exists l. by apply Hold.
  - intros u c Hc. rewrite Hterm. case_decide as Hn; [|by apply (pi_leader_log g Hg)]. subst c.
    intros <-. apply (pi_leader_log g Hg); [done|].
    pose proof (leader_term g Hg t n Hc). lia.
  - intros m e He. pose proof (pi_log_term g Hg m e He). pose proof (Hge m). lia.
  - apply (pi_log g Hg).
  - apply (pi_llog g Hg).
  - intros m u c l Hx. destruct (Hnew _ _ _ Hx) as [Hx'|(-> & -> & H1 & c' & [= <- ->] & Hc)].
    + by apply (pi_vote_log g Hg _ _ _ _ Hx').
    + apply (pi_log g Hg).
  - apply (pi_no_ack g Hg).
  - apply (pi_ack g Hg).
  - intros m u. rewrite Hterm. case_decide as Hn; [|by apply (pi_ack_now g Hg)]. subst m.
    intros <- Ha. apply (pi_ack_now g Hg); [|done]. pose proof (pi_ack_term g Hg _ _ Ha). lia.
  - intros m u k Hc. apply (pi_node g Hg). by apply Hch.
  - intros m u u' k c l Hc%Hch Hx Hu Hk. destruct (Hnew _ _ _ Hx) as [Hx'|(-> & -> & _ & c' & [= <- ->] & _)].
    + by apply (pi_voter g Hg m u u' k c).
    + by apply (pi_node g Hg).
  - intros u u' k Hc. apply (pi_safe g Hg). by apply Hch.
Qed.
Section Append.
Context (g : Abs) (n : string) (e : LogEntry).
Context (Hg : protocol_inv g) (Hlead : leading g n (a_term g n)) (He : Term e = a_term g n).
Let t := a_term g n.
Let l' := a_log g n ++ [e].
Let g' := appended g n e.
Let Hlead' : leading g n t := Hlead.

Lemma app_leader u : a_leader g' u = if decide (t = u) then Some n else a_leader g u.
Proof. done. Qed.
Lemma app_llog u : a_llog g' u = if decide (t = u) then l' else a_llog g u.
Proof. done. Qed.
Lemma app_log m : a_log g' m = if decide (n = m) then l' else a_log g m.
Proof. done. Qed.
Lemma app_ack x : a_ack g' x = if decide ((n, t) = x) then S (length (a_log g n)) else a_ack g x.
Proof. done. Qed.

Lemma app_lead_log : a_leader g t = Some n → a_llog g t = a_log g n.
Proof. intros H. symmetry. by apply (pi_leader_log g Hg). Qed.

Lemma app_lead_some : is_Some (a_leader g t) → a_leader g t = Some n.
Proof. intros [c Hc]. destruct Hlead' as [H|[H _]]; congruence. Qed.

Lemma app_extends : extends g g'.
Proof.
  intros u Hu. rewrite app_leader, app_llog. case_decide as Ht; [|done].
  split; [done|]. rewrite <- Ht in *. rewrite app_lead_log by (by apply app_lead_some).
  by eexists.
Qed.

Lemma app_matches : matches g' l'.
Proof.
  intros k a Hk. unfold l' in Hk. apply lookup_app_Some in Hk as [Hk|[Hlen Hk]].
  - destruct (matches_extends g g' _ app_extends (pi_log g Hg n) k a Hk) as [Hs Hm].
    split; [done|]. rewrite <- Hm. apply take_app_le. apply lookup_lt_Some in Hk. lia.
  - apply list_lookup_singleton_Some in Hk as [Hk <-]. rewrite He. fold t.
    rewrite app_leader, app_llog, !decide_True by done. by split; [eexists|].
Qed.

(** The other nodes have acknowledged less than the new log. *)
Lemma app_ack_other v k : k = length l' → (k ≤ a_ack g (v, t))%nat → False.
Proof.
  intros -> Hk. unfold l' in Hk. rewrite length_app in Hk. simpl in Hk.
  destruct Hlead' as [H|[H _]].
  - pose proof (pi_ack g Hg v t) as Ha. rewrite app_lead_log in Ha by done. lia.
  - rewrite (pi_no_ack g Hg v t) in Hk by done. lia.
Qed.

Lemma app_choosable u k :
  choosable g' u k → choosable g u k ∨ (u = t ∧ k = length l').
Proof.
  intros Hc. pose proof Hc as (Hs & Hk & Ht & _). rewrite app_leader in Hs.
  rewrite app_llog in Hk, Ht.
  assert (Hback : is_Some (a_leader g u) → (k ≤ length (a_llog g u))%nat → choosable g u k).
  { intros Hu Hlen. destruct (app_extends u Hu) as [_ Hp].
    apply (choosable_back g g'); [done..|intros v; apply Z.le_refl|].
    intros v Hv. rewrite app_ack in Hv. case_decide as Hx; [|by left]. injection Hx as <- <-.
    by right. }
  destruct (decide (t = u)) as [Htu|Htu]; [|left; apply Hback; [done|lia]].
  rewrite <- Htu in *. clear Hs.
  destruct (decide (k = length l')) as [|Hne]; [by right|left].
  assert (Hkl : (k ≤ length (a_log g n))%nat).
  { unfold l' in Hk, Hne. rewrite length_app in Hk, Hne. simpl in *. lia. }
  destruct Hlead' as [H|(H & Hv & _)].
  - apply Hback; [by eexists|]. by rewrite app_lead_log.
  - exfalso. destruct (term_at_Some (a_log g n) k) as (a & Ha & Hta); [lia|].
    assert (term_at l' k = Term a) as Hta'.
    { rewrite <- Hta. apply term_at_take. by apply take_app_le. }
    pose proof (pi_candidate g Hg _ _ _ a Hv (list_elem_of_lookup_2 _ _ _ Ha)). lia.
Qed.

(** Nobody of a later term has voted with the new entry. *)
Lemma app_new_safe t' k :
  choosable g' t k → k = length l' → t < t' → is_Some (a_leader g t') → False.
Proof.
  intros (_ & _ & _ & Q & HQ & Hq) Hk Ht [c Hc].
  destruct (pi_leader g Hg t' c Hc) as (lc & x & Q' & _ & _ & _ & _ & HQ' & Hq').
  destruct (majority_meet M Q Q' HQ HQ') as (v & Hv & Hv').
  destruct (Hq' v Hv') as [l Hl]. pose proof (pi_vote_term g Hg _ _ _ Hl) as Htv.
  destruct (Hq v Hv) as [Ha|Ha]; [|simpl in Ha; lia].
  rewrite app_ack in Ha. case_decide as Hx; [|by eapply app_ack_other].
  injection Hx as <-. unfold t in *. lia.
Qed.

Lemma app_take u k : (k ≤ length (a_llog g u))%nat → is_Some (a_leader g u) →
  take k (a_llog g u) = take k (a_llog g' u).
Proof.
  intros Hk Hu. by apply (prefix_take_eq k _ (a_llog g u)); [|apply app_extends|].
Qed.

(** What was choosable is in the log of the node that has won. *)
Lemma win_safe u k :
  choosable g u k → u < t → take k (a_log g n) = take k (a_llog g u).
Proof.
  intros Hc Hu. destruct Hlead' as [H|(H & Hv & Q' & HQ' & Hq')].
  - rewrite <- (app_lead_log H). apply (pi_safe g Hg); [done|done|by eexists].
  - pose proof Hc as (_ & _ & _ & Q & HQ & Hq).
    destruct (majority_meet M Q Q' HQ HQ') as (v & Hv1 & Hv2). destruct (Hq' v Hv2) as [l Hl].
    pose proof (pi_vote_term g Hg _ _ _ Hl) as Htv.
    destruct (Hq v Hv1) as [Ha|Ha]; [|lia].
    destruct (pi_vote g Hg _ _ _ _ Hl) as (lc & Hlc & Hup). rewrite Hv in Hlc.
    injection Hlc as <-.
    apply (up_to_date_safe g Hg u t k _ l); try done.
    + intros a Ha'. by apply (pi_candidate g Hg n t _ a Hv).
    + apply (pi_log g Hg).
    + by apply (pi_vote_log g Hg _ _ _ _ Hl).
    + by apply (pi_voter g Hg v u t k n).
Qed.

Lemma inv_app_leader :
  ∀ u c, a_leader g' u = Some c →
    ∃ lc x Q, a_vote g' (c, u) = Some (c, lc) ∧ a_llog g' u = lc ++ x ∧ x ≠ [] ∧
      (∀ e, e ∈ x → Term e = u) ∧ majority M Q ∧
      ∀ v, v ∈ Q → ∃ l, a_vote g' (v, u) = Some (c, l).
Proof.
  intros u c. rewrite app_leader, app_llog. case_decide as Htu; [|apply (pi_leader g Hg)].
  intros [= <-]. rewrite <- Htu.
  destruct Hlead' as [H|(H & Hv & Q & HQ & Hq)].
  - destruct (pi_leader g Hg t n H) as (lc & x & Q & Hv & Hl & Hx & Hex & HQ & Hq).
    exists lc, (x ++ [e]), Q. unfold l'. rewrite <- (app_lead_log H), Hl, <- (assoc_L (++)).
    split_and!; [done|done|by destruct x| |done|done].
    intros a Ha. apply elem_of_app in Ha as [Ha|Ha]; [by apply Hex|].
    by apply list_elem_of_singleton in Ha as ->.
  - exists (a_log g n), [e], Q. split_and!; [done|done|done| |done|done].
    by intros a ->%list_elem_of_singleton.
Qed.

Lemma inv_app_ack_now :
  ∀ m u, a_term g' m = u → a_ack g' (m, u) ≠ O →
    a_log g' m `prefix_of` a_llog g' u ∧ (a_ack g' (m, u) ≤ length (a_log g' m))%nat.
Proof.
  assert (Hlen : length l' = S (length (a_log g n))) by (unfold l'; rewrite length_app; simpl; lia).
  intros m u Hu Ha. change (a_term g m = u) in Hu. destruct (decide (n = m)) as [Hm|Hm].
  - subst m. rewrite app_log, app_llog, app_ack, !decide_True by (unfold t; congruence).
    split; [done|lia].
  - assert (a_ack g' (m, u) = a_ack g (m, u)) as Hack
      by (rewrite app_ack; apply decide_False; congruence).
    rewrite Hack, app_log, app_llog, (decide_False (P := n = m)) in * by done.
    destruct (pi_ack_now g Hg m u Hu Ha) as [Hp Hle]. split; [|done].
    case_decide as Htu; [|done]. rewrite <- Htu in *.
    destruct Hlead' as [H|[H _]].
    + etrans; [exact Hp|]. rewrite app_lead_log by done. by eexists.
    + by rewrite (pi_no_ack g Hg m t) in Ha.
Qed.

Lemma inv_app_node :
  ∀ m u k, choosable g' u k → (k ≤ a_ack g' (m, u))%nat →
    take k (a_log g' m) = take k (a_llog g' u).
Proof.
  intros m u k Hc Ha. rewrite app_log. destruct (app_choosable u k Hc) as [Hc'|[-> Hk]].
  - pose proof Hc' as (Hs & Hk & _). rewrite <- app_take by (done || lia).
    rewrite app_ack in Ha. case_decide as Hx.
    + injection Hx as <- <-. rewrite decide_True by done. unfold l'.
      rewrite (app_lead_log (app_lead_some Hs)) in *. apply take_app_le. lia.
    + assert (Hn : take k (a_log g m) = take k (a_llog g u)) by (by apply (pi_node g Hg)).
      case_decide as Hm; [|done]. subst m. unfold l'. rewrite <- Hn. apply take_app_le.
      apply (take_eq_length _ _ _ Hn). lia.
  - rewrite app_ack in Ha. case_decide as Hx; [|exfalso; by eapply app_ack_other].
    injection Hx as <-. by rewrite app_llog, !decide_True.
Qed.

Lemma inv_app_voter :
  ∀ m u u' k c l, choosable g' u k → a_vote g' (m, u') = Some (c, l) → u < u' →
    (k ≤ a_ack g' (m, u))%nat → take k l = take k (a_llog g' u).
Proof.
  intros m u u' k c l Hc Hv Hu Ha. change (a_vote g (m, u') = Some (c, l)) in Hv.
  rewrite app_ack in Ha. destruct (decide ((n, t) = (m, u))) as [Hx|Hx].
  { injection Hx as <- <-. pose proof (pi_vote_term g Hg _ _ _ Hv). unfold t in *. lia. }
  destruct (app_choosable u k Hc) as [Hc'|[-> Hk]]; [|exfalso; by eapply app_ack_other].
  pose proof Hc' as (Hs & Hk & _). rewrite <- app_take by (done || lia).
  by apply (pi_voter g Hg m u u' k c).
Qed.

Lemma inv_app_safe :
  ∀ u u' k, choosable g' u k → u < u' → is_Some (a_leader g' u') →
    take k (a_llog g' u') = take k (a_llog g' u).
Proof.
  intros u u' k Hc Hu Hs'. destruct (app_choosable u k Hc) as [Hc'|[-> Hk]].
  - pose proof Hc' as (Hs & Hk & _). rewrite <- (app_take u k) by (done || lia).
    rewrite app_leader in Hs'. rewrite app_llog. case_decide as Htu.
    + rewrite <- Htu in *. pose proof (win_safe u k Hc' Hu) as Hw. rewrite <- Hw. unfold l'.
      apply take_app_le. apply (take_eq_length _ _ _ Hw). lia.
    + by apply (pi_safe g Hg).
  - exfalso. rewrite app_leader in Hs'. destruct (decide (t = u')) as [Htu|Htu]; [lia|].
    by eapply app_new_safe.
Qed.

Lemma inv_append : protocol_inv g'.
Proof.
  assert (Hl' : ∀ a, a ∈ l' → Term a ≤ t).
  { intros a Ha. unfold l' in Ha. apply elem_of_app in Ha as [Ha|Ha].
    - by apply (pi_log_term g Hg).
    - apply list_elem_of_singleton in Ha as ->. unfold t. lia. }
  assert (Ht1 : 1 ≤ t).
  { destruct Hlead' as [H|(H & Hv & _)].
    - by apply (leader_term g Hg) in H as [? _].
    - by apply (pi_vote_term g Hg) in Hv as [? _]. }
  assert (Hlen : length l' = S (length (a_log g n))) by (unfold l'; rewrite length_app; simpl; lia).
  split.
  - apply (pi_term g Hg).
  - apply (pi_vote_term g Hg).
  - intros m u. rewrite app_ack. case_decide as Hx; [injection Hx as <- <-; done|].
    apply (pi_ack_term g Hg).
  - apply (pi_vote g Hg).
  - apply (pi_candidate g Hg).
  - apply inv_app_leader.
  - intros u c. rewrite app_leader, app_llog, app_log. case_decide as Htu.
    + intros [= <-] _. by rewrite decide_True.
    + intros Hc Hu. change (a_term g c = u) in Hu. rewrite decide_False; [by apply (pi_leader_log g Hg)|].
      intros <-. by apply Htu.
  - intros m a. rewrite app_log. case_decide as Hm; [|apply (pi_log_term g Hg)].
    subst m. apply Hl'.
  - intros m. rewrite app_log. case_decide; [apply app_matches|].
    apply (matches_extends g); [apply app_extends|apply (pi_log g Hg)].
  - intros u. rewrite app_leader, app_llog. case_decide; [intros; apply app_matches|].
    intros Hu. apply (matches_extends g); [apply app_extends|by apply (pi_llog g Hg)].
  - intros m u c l Hv. apply (matches_extends g); [apply app_extends|].
    by apply (pi_vote_log g Hg m u c).
  - intros m u. rewrite app_leader, app_ack. case_decide as Htu; [done|]. intros Hu.
    rewrite decide_False by congruence. by apply (pi_no_ack g Hg).
  - intros m u. rewrite app_ack, app_llog. destruct (decide (t = u)) as [Htu|Htu].
    + rewrite <- Htu. case_decide as Hx; [lia|].
      destruct Hlead' as [H|[H _]].
      * pose proof (pi_ack g Hg m t) as Ha. rewrite app_lead_log in Ha by done. lia.
      * rewrite (pi_no_ack g Hg m t) by done. lia.
    + rewrite decide_False by congruence. apply (pi_ack g Hg).
  - apply inv_app_ack_now.
  - apply inv_app_node.
  - apply inv_app_voter.
  - apply inv_app_safe.
Qed.
End Append.
Section Accept.
Context (g : Abs) (n : string) (t : Z) (p : nat) (es : list LogEntry).
Context (Hg : protocol_inv g) (Ht : a_term g n ≤ t) (Hs : is_Some (a_leader g t)).
Context (Hp : (p ≤ length (a_log g n))%nat) (Htake : take p (a_log g n) = take p (a_llog g t)).
Context (Hes : take (p + length es) (a_llog g t) = take p (a_llog g t) ++ es).
Context (Hterm : term_at (a_llog g t) (p + length es) = t).
Let l := a_log g n.
Let ll := a_llog g t.
Let l' := merge p l es.
Let g' := accepted g n t p es.

Lemma acc_length : (p + length es ≤ length ll)%nat ∧ (p ≤ length ll)%nat.
Proof.
  assert (p ≤ length ll)%nat as H by (by apply (take_eq_length p ll l)).
  split; [|done]. apply (f_equal length) in Hes. rewrite length_app, !length_take in Hes.
  unfold ll in *. lia.
Qed.

Lemma acc_lookup j b : es !! j = Some b → ll !! (p + j)%nat = Some b.
Proof.
  intros Hj. pose proof acc_length as [_ Hl]. apply lookup_lt_Some in Hj as Hjl.
  rewrite <- (lookup_take_lt ll (p + length es)) by lia.
  unfold ll. rewrite Hes. rewrite lookup_app_r; rewrite length_take; unfold ll in *; [|lia].
  rewrite <- Hj. f_equal. lia.
Qed.

Lemma acc_agree j a b :
  drop p l !! j = Some a → es !! j = Some b → Term a = Term b → a = b.
Proof.
  intros Ha Hb Hab. rewrite lookup_drop in Ha. apply acc_lookup in Hb.
  assert (Hk : take (S (p + j)) l = take (S (p + j)) ll).
  { apply lookup_lt_Some in Ha as Hla. apply lookup_lt_Some in Hb as Hlb.
    apply (matches_take g); [apply (pi_log g Hg)|by apply (pi_llog g Hg)|lia|lia|].
    simpl. by rewrite Ha, Hb. }
  apply (inj Some). rewrite <- Ha, <- Hb. apply (lookup_take_eq (S (p + j))); [done|lia].
Qed.

Lemma acc_split : drop p ll = es ++ drop (p + length es) ll.
Proof.
  pose proof acc_length as [Hq Hpl].
  rewrite <- (take_drop (p + length es) ll) at 1. unfold ll at 1. rewrite Hes. fold ll.
  rewrite <- (assoc_L (++)). apply drop_app_length'. rewrite length_take. lia.
Qed.

(** A log that has all the entries is a part of the leader's. *)
Lemma acc_keeps_all : es `prefix_of` drop p l → l `prefix_of` ll.
Proof.
  intros [x Hx]. pose proof acc_length as [Hq Hpl].
  assert (Hql : (p + length es ≤ length l)%nat).
  { apply (f_equal length) in Hx. rewrite length_drop, length_app in Hx. unfold l in *. lia. }
  assert (Htq : take (p + length es) l = take (p + length es) ll).
  { unfold ll. rewrite Hes, <- Htake. rewrite <- take_take_drop. f_equal.
    rewrite Hx. by rewrite take_app_length. }
  destruct Hs as [c Hc]. pose proof (leader_term g Hg t c Hc) as [H1 _].
  assert (Hq1 : (1 ≤ p + length es)%nat).
  { destruct (p + length es)%nat; [|lia]. simpl in Hterm. lia. }
  destruct (term_at_Some l (length l)) as (b & Hb & _); [lia|].
  destruct (term_at_Some l (p + length es)) as (a & Ha & Hta); [lia|].
  assert (Term a = t) as Hat by (rewrite <- Hta, <- Hterm; by apply term_at_take).
  pose proof (matches_sorted g Hg l _ _ a b (pi_log g Hg n) Ha Hb) as Hab.
  pose proof (pi_log_term g Hg n b (list_elem_of_lookup_2 _ _ _ Hb)) as Hbt.
  assert (Term b = t) as Hbt' by lia.
  destruct (pi_log g Hg n _ _ Hb) as [_ Hm]. fold l in Hm.
  replace (S (length l - 1)) with (length l) in Hm by lia. rewrite Hbt', take_ge in Hm by done.
  rewrite Hm. apply prefix_take.
Qed.

(** The new log is a part of the leader's, and keeps what agreed with it. *)
Lemma acc_merge :
  l' `prefix_of` ll ∧
  ∀ k, (k ≤ length l)%nat → take k l = take k ll → (k ≤ length l')%nat.
Proof.
  pose proof acc_length as [Hq Hpl].
  assert (Hlen : length (take p l) = p) by (rewrite length_take; unfold l; lia).
  destruct (reconcile_cases (drop p l) es (drop (p + length es) ll) acc_agree)
    as [[Hr Hk]|[Hr Hx]].
  - assert (Hl' : l' = take (p + length es) ll).
    { unfold l', merge, ll. rewrite Hr, Hes. f_equal. exact Htake. }
    split; [rewrite Hl'; apply prefix_take|]. intros k Hkl Hkt.
    rewrite Hl', length_take. destruct (decide (k ≤ p)%nat) as [|Hkp]; [lia|].
    assert (k - p ≤ length es)%nat; [|lia]. apply Hk; [rewrite length_drop; lia|].
    rewrite <- acc_split, !take_drop_commute. replace (p + (k - p))%nat with k by lia.
    by rewrite Hkt.
  - assert (Hl' : l' = l) by (unfold l', merge; rewrite Hr; apply take_drop).
    rewrite Hl'. split; [by apply acc_keeps_all|done].
Qed.

Lemma acc_term m : a_term g' m = if decide (n = m) then t else a_term g m.
Proof. done. Qed.
Lemma acc_log m : a_log g' m = if decide (n = m) then l' else a_log g m.
Proof. done. Qed.
Lemma acc_ack x :
  a_ack g' x = if decide ((n, t) = x) then (a_ack g (n, t) `max` length l')%nat else a_ack g x.
Proof. done. Qed.

(** What the node had acknowledged of the log of [t] it still has. *)
Lemma acc_ack_kept : (a_ack g (n, t) ≤ length l')%nat.
Proof.
  destruct (decide (a_ack g (n, t) = O)) as [->|Hne]; [lia|].
  pose proof (pi_ack_term g Hg n t Hne).
  destruct (pi_ack_now g Hg n t) as [[x Hx] Hle]; [lia|done|].
  etrans; [exact Hle|]. apply acc_merge; [done|]. unfold l, ll. rewrite Hx.
  by rewrite take_app_length, take_ge by lia.
Qed.

Lemma acc_choosable u k : choosable g' u k → choosable g u k.
Proof.
  intros Hc. pose proof Hc as (Hu & Hk & _). apply (choosable_back g g'); try done.
  - apply Hk.
  - intros v. rewrite acc_term. case_decide as Hv; [subst v; done|lia].
  - intros v. rewrite acc_ack. case_decide as Hv; [|by left]. injection Hv as <- <-. by right.
Qed.

Lemma inv_accept : protocol_inv g'.
Proof.
  pose proof acc_merge as [Hpre Hkeep].
  assert (Hge : ∀ m, a_term g m ≤ a_term g' m).
  { intros m. rewrite acc_term. case_decide as Hm; [subst m; done|lia]. }
  split.
  - intros m. pose proof (pi_term g Hg m). pose proof (Hge m). lia.
  - intros m u x Hx. pose proof (pi_vote_term g Hg m u x Hx). pose proof (Hge m). lia.
  - intros m u. rewrite acc_ack. case_decide as Hx.
    + injection Hx as <- <-. intros _. rewrite acc_term, decide_True by done. done.
    + intros Ha%(pi_ack_term g Hg). pose proof (Hge m). lia.
  - apply (pi_vote g Hg).
  - apply (pi_candidate g Hg).
  - apply (pi_leader g Hg).
  - intros u c Hc. rewrite acc_term, acc_log. case_decide as Hm; [|by apply (pi_leader_log g Hg)].
    subst c. intros <-. change (a_leader g t = Some n) in Hc.
    pose proof (leader_term g Hg t n Hc).
    assert (Hl : l = ll) by (apply (pi_leader_log g Hg); [done|lia]).
    apply prefix_length_eq; [done|]. apply Hkeep; [by rewrite Hl|by rewrite Hl].
  - intros m a. rewrite acc_term, acc_log. case_decide as Hm; [|apply (pi_log_term g Hg)].
    intros Ha. apply (llog_term g Hg); [done|]. destruct Hpre as [x Hx]. fold ll. rewrite Hx.
    apply elem_of_app. by left.
  - intros m. rewrite acc_log. case_decide; [|apply (pi_log g Hg)].
    intros k a Hk. destruct Hpre as [x Hx].
    destruct (pi_llog g Hg t Hs k a) as [Hs' Hm].
    { fold ll. rewrite Hx. by apply lookup_app_l_Some. }
    split; [done|]. change (a_llog g' (Term a)) with (a_llog g (Term a)). rewrite <- Hm. fold ll.
    rewrite Hx. symmetry. apply take_app_le. apply lookup_lt_Some in Hk. lia.
  - apply (pi_llog g Hg).
  - apply (pi_vote_log g Hg).
  - intros m u Hu. rewrite acc_ack. case_decide as Hx; [|by apply (pi_no_ack g Hg)].
    injection Hx as <- <-. destruct Hs as [c Hc]. change (a_leader g t = None) in Hu. congruence.
  - intros m u. rewrite acc_ack. case_decide as Hx; [|apply (pi_ack g Hg)].
    injection Hx as <- <-. pose proof acc_ack_kept. apply prefix_length in Hpre.
    change (a_llog g' t) with ll. lia.
  - intros m u. rewrite acc_term, acc_log. destruct (decide (n = m)) as [Hm|Hm].
    + subst m. intros <- _. rewrite acc_ack, decide_True by done. split; [done|].
      pose proof acc_ack_kept. lia.
    + rewrite acc_ack, decide_False by congruence. apply (pi_ack_now g Hg).
  - intros m u k Hc%acc_choosable. pose proof Hc as (_ & Hk & _). rewrite acc_ack, acc_log.
    change (a_llog g' u) with (a_llog g u). destruct (decide (n = m)) as [Hm|Hm].
    + subst m. destruct (decide (u = t)) as [->|Hu].
      * rewrite decide_True by done. intros Ha. pose proof acc_ack_kept.
        symmetry. destruct Hpre as [x Hx]. fold ll. rewrite Hx. apply take_app_le. lia.
      * rewrite decide_False by congruence. intros Ha.
        assert (u ≤ a_term g n) by (apply (pi_ack_term g Hg); lia).
        assert (Hl : take k l = take k (a_llog g u)) by (by apply (pi_node g Hg)).
        assert (Hll : take k ll = take k (a_llog g u)) by (apply (pi_safe g Hg); [done|lia|done]).
        rewrite <- Hll. symmetry. destruct Hpre as [x Hx]. rewrite Hx. apply take_app_le.
        apply Hkeep; [|congruence]. apply (take_eq_length _ _ _ Hl). lia.
    + rewrite decide_False by congruence. by apply (pi_node g Hg).
  - intros m u u' k c lv Hc%acc_choosable Hv Hu. rewrite acc_ack. case_decide as Hx.
    + injection Hx as <- <-. pose proof (pi_vote_term g Hg _ _ _ Hv). lia.
    + by apply (pi_voter g Hg m u u' k c).
  - intros u u' k Hc%acc_choosable. by apply (pi_safe g Hg).
Qed.
End Accept.
Lemma proto_step_inv n g g' : proto_step n g g' → protocol_inv g → protocol_inv g'.
Proof.
  intros [t Ht|t Ht Hn|t c lc Ht Hn Hc Hup|e Hl He|t p es Ht Hs Hp Htk Hes Hq|t k Hl Hc Hk] Hg.
  - apply inv_vote; [done|done|by left].
  - apply inv_vote; [done|lia|right]. exists n. split_and!; [done|done| |left; by split].
    pose proof (pi_term g Hg n). lia.
  - apply inv_vote; [done|done|right]. exists c. split_and!; [done|done| |right; eauto].
    by apply (pi_vote_term g Hg _ _ _ Hc).
  - by apply inv_append.
  - by apply inv_accept.
  - by destruct Hg.
Qed.
End Protocol.
