(* ===== verification/Agreement.v ===== *)
(** * What the nodes agree on

    Along the steps of the protocol votes, leaders and acknowledgements are
    never forgotten, and the logs of the leaders grow ([grows_abs]).  A prefix
    of a log is [agreed] when it is part of a committed prefix; two agreed
    prefixes are in order, and an agreed prefix stays so. *)

From stdpp Require Import functions.
From S2P Require Import Prelude Types Config Disk Wal Node NodeFacts ReplicationFacts RaftProtocol.

(** What a step of [n] leaves. *)
Record grows_abs (n : string) (g g' : Abs) : Prop := {
  ga_term m : m ≠ n → a_term g' m = a_term g m;
  ga_term_le m : a_term g m ≤ a_term g' m;
  ga_log m : m ≠ n → a_log g' m = a_log g m;
  ga_vote x v : a_vote g x = Some v → a_vote g' x = Some v;
  ga_leader t c : a_leader g t = Some c → a_leader g' t = Some c;
  ga_new_leader t m : m ≠ n → a_leader g' t = Some m → a_leader g t = Some m;
  ga_llog : extends g g';
  ga_ack x : (a_ack g x ≤ a_ack g' x)%nat;
  ga_known t : (a_known g t ≤ a_known g' t)%nat;
  ga_known_other t m : m ≠ n → a_leader g t = Some m → a_known g' t = a_known g t
}.

Lemma grows_abs_refl n g : grows_abs n g g.
Proof. by split. Qed.

Lemma grows_abs_trans n g1 g2 g3 :
  grows_abs n g1 g2 → grows_abs n g2 g3 → grows_abs n g1 g3.
Proof.
  intros [T1 TL1 L1 V1 E1 N1 X1 A1 K1 O1] [T2 TL2 L2 V2 E2 N2 X2 A2 K2 O2]. split.
  - intros m Hm. by rewrite T2, T1.
  - intros m. specialize (TL1 m). specialize (TL2 m). lia.
  - intros m Hm. by rewrite L2, L1.
  - auto.
  - auto.
  - intros t m Hm Hs. auto.
  - intros t Ht. destruct (X1 t Ht) as [Ht' Hp]. destruct (X2 t Ht') as [? Hp'].
    split; [done|]. by etrans.
  - intros x. specialize (A1 x). specialize (A2 x). lia.
  - intros t. specialize (K1 t). specialize (K2 t). lia.
  - intros t m Hm Hl. rewrite <- (O1 t m) by done. eauto.
Qed.

Lemma grows_voted n t votes g :
  a_term g n ≤ t → (∀ x v, a_vote g x = Some v → votes x = Some v) →
  grows_abs n g (voted g n t votes).
Proof.
  intros Ht Hv.
  assert (Hterm : ∀ m, a_term (voted g n t votes) m = if decide (n = m) then t else a_term g m)
    by done.
  split; try done.
  - intros m Hm. rewrite Hterm. by rewrite decide_False.
  - intros m. rewrite Hterm. case_decide; [by subst|lia].
Qed.

Section Grow.
Context (M : gset string) (g : Abs) (Hg : protocol_inv M g).

Lemma grows_appended n e :
  leading M g n (a_term g n) → grows_abs n g (appended g n e).
Proof.
  intros Hl. split; try done.
  - intros m Hm. rewrite app_log. by rewrite decide_False.
  - intros t c Hc. rewrite app_leader. case_decide as Ht; [|done]. subst t.
    destruct Hl as [H|[H _]]; congruence.
  - intros t m Hm. rewrite app_leader. case_decide; [congruence|done].
  - by apply (app_extends M).
  - intros [m t]. rewrite app_ack. case_decide as Hx; [|done]. injection Hx as <- <-.
    destruct Hl as [H|[H _]].
    + pose proof (pi_ack M g Hg n (a_term g n)) as Ha.
      rewrite <- (pi_leader_log M g Hg _ n H eq_refl) in Ha. lia.
    + rewrite (pi_no_ack M g Hg n _ H). lia.
Qed.

Lemma grows_accepted n t p es :
  a_term g n ≤ t → grows_abs n g (accepted g n t p es).
Proof.
  intros Ht. split; try done.
  - intros m Hm. rewrite acc_term. by rewrite decide_False.
  - intros m. rewrite acc_term. case_decide; [by subst|lia].
  - intros m Hm. rewrite acc_log. by rewrite decide_False.
  - intros x. rewrite acc_ack. case_decide as Hx; [subst x|]; lia.
Qed.

Lemma proto_step_grows n g' : proto_step M n g g' → grows_abs n g g'.
Proof.
  assert (Hins : ∀ x v, a_vote g x = None →
    ∀ y w, a_vote g y = Some w → (<[x := v]> (a_vote g)) y = Some w).
  { intros x v Hx y w Hy. rewrite fn_insert_at. case_decide; congruence. }
  intros [t Ht|t Ht Hn|t c lc Ht Hn Hc Hup|e Hl He|t q es Ht Hs Hq Htk Hes Hqt|t k Hl Hc Hk].
  - by apply grows_voted.
  - apply grows_voted; [lia|]. by apply Hins.
  - apply grows_voted; [lia|]. by apply Hins.
  - by apply grows_appended.
  - by apply grows_accepted.
  - assert (Hkn : ∀ u, a_known (learned g t k) u = if decide (t = u) then k else a_known g u)
      by done.
    split; try done.
    + intros u. rewrite Hkn. case_decide; [by subst|lia].
    + intros u m Hm Hu. rewrite Hkn. apply decide_False. congruence.
Qed.
End Grow.

(** The steps of the protocol, and of one node. *)
Abbreviation node_steps M n := (rtc (proto_step M n)).
Definition proto_run (M : gset string) : Abs → Abs → Prop :=
  rtc (λ g g', ∃ n, proto_step M n g g').

Lemma node_steps_inv M n g g' :
  node_steps M n g g' → protocol_inv M g → protocol_inv M g' ∧ grows_abs n g g'.
Proof.
  intros Hs. induction Hs as [g|g1 g2 g3 Hs Hrun IH]; intros Hg; [by split|].
  pose proof (proto_step_inv M n _ _ Hs Hg) as Hg2. destruct (IH Hg2) as [Hg3 Hgr].
  split; [done|]. eapply grows_abs_trans; [by apply (proto_step_grows M g1)|done].
Qed.

Lemma node_steps_run M n g g' : node_steps M n g g' → proto_run M g g'.
Proof.
  intros Hs. induction Hs as [|g1 g2 g3 Hs _ IH]; [done|].
  eapply rtc_l; [|exact IH]. by exists n.
Qed.

(** ** Agreed prefixes *)

Lemma committed_grows M n g g' t k :
  grows_abs n g g' → committed M g t k → committed M g' t k.
Proof.
  intros Hgr (Hs & Hk & Ht & Q & HQ & Ha). destruct (ga_llog _ _ _ Hgr t Hs) as [Hs' Hp].
  split; [done|]. pose proof (prefix_length _ _ Hp). split; [lia|]. split.
  - etrans; [|exact Ht]. symmetry. apply term_at_take.
    apply (prefix_take_eq k _ (a_llog g t)); [done|done|lia].
  - exists Q. split; [done|]. intros v Hv. etrans; [by apply Ha|]. apply (ga_ack _ _ _ Hgr).
Qed.

(** A leader knows only what is committed. *)
Definition known_ok (M : gset string) (g : Abs) : Prop :=
  ∀ t, a_known g t ≠ O → committed M g t (a_known g t).

Lemma proto_step_known M n g g' :
  protocol_inv M g → proto_step M n g g' → known_ok M g → known_ok M g'.
Proof.
  intros Hg Hs Hk t. pose proof (proto_step_grows M g Hg n g' Hs) as Hgr.
  assert (Hkeep : a_known g' t = a_known g t → a_known g' t ≠ O → committed M g' t (a_known g' t)).
  { intros -> Hn. by eapply committed_grows; [|apply Hk]. }
  destruct Hs as [| | | | |u k Hl Hc Hle]; try by apply Hkeep.
  destruct (decide (u = t)) as [->|Hne].
  - intros _. unfold learned at 2. simpl. rewrite fn_lookup_insert. exact Hc.
  - apply Hkeep. simpl. by rewrite fn_lookup_insert_ne.
Qed.

Lemma node_steps_known M n g g' :
  node_steps M n g g' → protocol_inv M g → known_ok M g → known_ok M g'.
Proof.
  intros Hs. induction Hs as [g|g1 g2 g3 Hs _ IH]; intros Hg Hk; [done|].
  apply IH; [by eapply proto_step_inv|by eapply proto_step_known].
Qed.

(** The first [c] entries of [l] are part of a prefix that the leader of a term
    up to [T] has committed. *)
Definition agreed (M : gset string) (g : Abs) (T : Z) (c : nat) (l : list LogEntry) : Prop :=
  c = O ∨ ∃ t k, t ≤ T ∧ committed M g t k ∧ (c ≤ k)%nat ∧
    take c l = take c (a_llog g t) ∧ (k ≤ a_known g t)%nat.

Section Agreed.
Context (M : gset string).

Lemma agreed_grows n g g' T T' c l :
  grows_abs n g g' → T ≤ T' → agreed M g T c l → agreed M g' T' c l.
Proof.
  intros Hgr HT [->|(t & k & Ht & Hc & Hck & Hl & Hkn)]; [by left|right].
  pose proof (ga_known _ _ _ Hgr t) as Hle. exists t, k. rewrite Hl.
  split; [lia|]. split; [by eapply committed_grows|]. split; [done|]. split; [|lia].
  destruct Hc as (Hs & Hk & _). destruct (ga_llog _ _ _ Hgr t Hs) as [_ Hp].
  apply (prefix_take_eq c _ (a_llog g t)); [done|done|lia].
Qed.

Lemma agreed_take g T c l l' :
  take c l' = take c l → agreed M g T c l → agreed M g T c l'.
Proof. intros H [->|(t & k & ? & ? & ? & Hl & ?)]; [by left|right]. exists t, k. by rewrite H. Qed.

Lemma agreed_le g T c c' l : (c' ≤ c)%nat → agreed M g T c l → agreed M g T c' l.
Proof.
  intros Hc [->|(t & k & ? & ? & ? & Hl & ?)]; [left; lia|right]. exists t, k.
  split; [done|]. split; [done|]. split_and!; [lia|by eapply take_eq_le|done].
Qed.

Lemma agreed_mono g T T' c l : T ≤ T' → agreed M g T c l → agreed M g T' c l.
Proof.
  intros H [->|(t & k & ? & ?)]; [by left|right]. exists t, k. split; [lia|done].
Qed.

Lemma agreed_committed g t k :
  committed M g t k → (k ≤ a_known g t)%nat → agreed M g t k (a_llog g t).
Proof. intros H Hk. right. exists t, k. done. Qed.

(** A later leader has every agreed prefix. *)
Lemma agreed_llog g T t c l :
  protocol_inv M g → T ≤ t → is_Some (a_leader g t) → agreed M g T c l →
  take c l = take c (a_llog g t) ∧ (c ≤ length (a_llog g t))%nat.
Proof.
  intros Hg HT Hs [->|(t0 & k & Ht & Hc & Hck & Hl & _)].
  { rewrite !take_0. split; [done|lia]. }
  assert (Hk : take k (a_llog g t) = take k (a_llog g t0)).
  { destruct (decide (t0 = t)) as [->|]; [done|].
    apply (pi_safe M g Hg); [by apply choosable_committed|lia|done]. }
  destruct Hc as (_ & Hlen & _). split.
  - rewrite Hl. symmetry. by apply (take_eq_le c k).
  - pose proof (take_eq_length k _ _ Hk). lia.
Qed.

Lemma agreed_agree g T1 T2 c l1 l2 :
  protocol_inv M g → agreed M g T1 c l1 → agreed M g T2 c l2 → take c l1 = take c l2.
Proof.
  intros Hg [->|(t1 & k1 & H1 & Hc1 & Hk1 & Hl1 & Hn1)]; [by rewrite !take_0|].
  intros [->|(t2 & k2 & H2 & Hc2 & Hk2 & Hl2 & Hn2)]; [by rewrite !take_0|].
  destruct (decide (t1 ≤ t2)).
  - rewrite Hl2. apply (agreed_llog g t1 t2); [done|done|apply Hc2|]. right. by exists t1, k1.
  - rewrite Hl1. symmetry. apply (agreed_llog g t2 t1); [done|lia|apply Hc1|].
    right. by exists t2, k2.
Qed.

Lemma agreed_length g T c l :
  agreed M g T c l → (c ≤ length l)%nat.
Proof.
  intros [->|(t & k & _ & Hc & Hck & Hl & _)]; [lia|]. destruct Hc as (_ & Hk & _).
  apply (take_eq_length _ _ _ Hl). lia.
Qed.
End Agreed.
