(* ===== verification/Answers.v ===== *)
(** * Positive answers

    [promised r]: the channels a node has answered with a success.  Only
    [complete_proposals] sends such an answer, to a proposal whose entry is
    committed; every other part of a handler is [silent].  [answers F c new]
    says so of a step, which does not take back what is applied: [F] is the whole log of the node, [c] its commit index
    afterwards, [new] the proposals the step adds. *)

From S2P Require Import Prelude Types Config Json Envelope Disk Wal SnapshotStore.
From S2P Require Import Node Roles Election Apply Replication Client Startup RunLoop.
From S2P Require Import NodeFacts ReplicationFacts StateMachine ApplyFacts ElectionFacts.
From S2P Require Import ReplicationSpec RaftProtocol.

Definition success_channel (e : Effect) : option nat :=
  match e with SendResp ch resp => if success resp then Some ch else None | _ => None end.
Definition promised (r : Raft) : list nat := omap success_channel (effects r).

Record silent (r r' : Raft) : Prop := {
  si_promised : promised r' = promised r;
  si_proposals : proposals r' ⊆ proposals r;
  si_applied : lastApplied r ≤ lastApplied r'
}.

(** The entry of a proposal is in the first [c] entries of [F]. *)
Definition fulfilled (F : list LogEntry) (c : Z) (p : proposal) : Prop :=
  p_term p ≠ 0 → 0 ≤ p_index p ≤ c ∧ term_at F (Z.to_nat (p_index p)) = p_term p.

Record answers (F : list LogEntry) (c : Z) (new : list proposal) (r r' : Raft) : Prop := {
  an_promised ch : ch ∈ promised r' → ch ∈ promised r ∨
    ∃ p, p ∈ proposals r ++ new ∧ p_respCh p = ch ∧ fulfilled F c p;
  an_proposals : proposals r' ⊆ proposals r ++ new;
  an_applied : lastApplied r ≤ lastApplied r'
}.

Lemma silent_refl r : silent r r.
Proof. by split. Qed.

Lemma silent_trans r1 r2 r3 : silent r1 r2 → silent r2 r3 → silent r1 r3.
Proof. intros [H1 H2 A1] [H3 H4 A2]. split; [congruence|set_solver|lia]. Qed.

(** The fields a silent step may touch, and does not. *)
Lemma silent_frame r r' :
  effects r' = effects r → proposals r' = proposals r → lastApplied r' = lastApplied r →
  silent r r'.
Proof.
  intros He Hp Ha. split; [|by rewrite Hp|by rewrite Ha]. unfold promised. by rewrite He.
Qed.

Ltac silent_update := apply silent_frame; reflexivity.

Lemma promised_app r es :
  omap success_channel es = [] → promised (r <| effects ::= λ l, l ++ es |>) = promised r.
Proof. intros He. unfold promised. rsimpl. by rewrite omap_app, He, app_nil_r. Qed.

Lemma silent_emit e r : success_channel e = None → silent r (emit e r).
Proof.
  intros He. split; [|done|done]. unfold emit. apply promised_app. simpl. by rewrite He.
Qed.

Lemma silent_emits {A} (f : A → Effect) l r :
  (∀ x, success_channel (f x) = None) → silent r (for_each l (λ x, emit (f x)) r).
Proof.
  intros Hf. rewrite for_each_emit. split; [|done|done]. apply promised_app. by apply omap_map_none.
Qed.

Lemma silent_wal op r : silent r (wal_try op r).
Proof. rewrite wal_try_frame. silent_update. Qed.

Lemma silent_broadcast r : silent r (broadcastHeartbeats r).
Proof. by apply silent_emits. Qed.

Lemma silent_follower t r : silent r (transitionToFollower t r).
Proof.
  rewrite transitionToFollower_frame. split; rsimpl; [|set_solver|done]. unfold promised. rsimpl.
  rewrite omap_app, (omap_map_none success_channel step_down_answer) by done.
  by rewrite app_nil_r.
Qed.

#[export] Hint Resolve silent_refl silent_wal silent_broadcast silent_follower : raft.

Section Handlers.
Context {PC : ProtoCodec} {DL : Dialer}.

Lemma silent_leader r : silent r (transitionToLeader r).
Proof.
  unfold transitionToLeader. case_bool_decide; [apply silent_refl|]. cbv zeta.
  eapply silent_trans; [|by apply silent_emit].
  eapply silent_trans; [|apply silent_broadcast].
  match goal with |- context [init_progress ?i ?x] => set (r1 := init_progress i x) end.
  assert (H1 : silent r r1).
  { unfold r1. destruct (connectToPeersLocked_frame (r <| state := Leader |> <| timer_armed := false |>))
      as (g & ->). match goal with |- context [init_progress ?i ?x] =>
      destruct (init_progress_frame i x) as (n & m & ->) end. silent_update. }
  clearbody r1. destruct EncodeNoopEntry; [|done].
  eapply silent_trans; [exact H1|]. eapply silent_trans; [|apply silent_wal]. silent_update.
Qed.

Lemma silent_toCandidate r : silent r (transitionToCandidate r).
Proof.
  unfold transitionToCandidate. cbv zeta. eapply silent_trans.
  2:{ unfold startElection. case_bool_decide; [apply silent_leader|by apply silent_emits]. }
  eapply silent_trans; [|apply silent_wal]. silent_update.
Qed.

Lemma silent_timeout r : silent r (electionTimeout r).
Proof.
  unfold electionTimeout. cbv zeta. set (r1 := r <| timer_armed := false |>).
  apply (silent_trans r r1); [silent_update|]. clearbody r1.
  destruct (_ && _); [|destruct (isJoining r1); [silent_update|apply silent_refl]].
  unfold startPreVote. cbv zeta.
  match goal with |- context [transitionToCandidate ?x] => set (r2 := x) end.
  apply (silent_trans r1 r2); [silent_update|]. clearbody r2.
  case_bool_decide; [apply silent_toCandidate|by apply silent_emits].
Qed.

Lemma silent_requestVote req r : silent r (processRequestVote req r).2.
Proof.
  unfold processRequestVote. destruct (_ <? _); [apply silent_refl|].
  destruct (not_a_member _ _); [apply silent_refl|]. cbv zeta.
  match goal with |- context [logOK ?x _] => set (r1 := x) end.
  assert (H1 : silent r r1)
    by (unfold r1; destruct (_ <? _); [apply silent_follower|apply silent_refl]).
  clearbody r1. destruct (_ && _); [|done]. cbn [snd].
  eapply silent_trans; [exact H1|]. eapply silent_trans; [|apply silent_wal]. silent_update.
Qed.

Lemma silent_preVoteResponse p resp r : silent r (processPreVoteResponse p resp r).
Proof.
  unfold processPreVoteResponse. destruct (_ && _); [|apply silent_refl]. cbv zeta.
  destruct (vote_majority _ _); [|silent_update].
  eapply silent_trans; [|apply silent_toCandidate]. silent_update.
Qed.

Lemma silent_voteResponse p resp r : silent r (processRequestVoteResponse p resp r).
Proof.
  unfold processRequestVoteResponse. destruct (_ <? _); [apply silent_follower|].
  destruct (_ && _); [|apply silent_refl]. cbv zeta.
  destruct (vote_majority _ _); [|silent_update].
  eapply silent_trans; [|apply silent_leader]. silent_update.
Qed.

Lemma silent_follow_leader t l r : silent r (follow_leader t l r).
Proof.
  unfold follow_leader. cbv zeta.
  match goal with |- context [bool_decide (state ?x = Candidate)] => set (r1 := x) end.
  assert (H1 : silent r r1)
    by (unfold r1; destruct (_ <? _); [apply silent_follower|apply silent_refl]).
  clearbody r1. eapply silent_trans; [exact H1|].
  case_bool_decide; [|silent_update].
  apply (silent_trans r1 (transitionToFollower t r1)); [apply silent_follower|].
  generalize (transitionToFollower t r1). intros r2. silent_update.
Qed.

Lemma silent_append_entries es r : silent r (for_each es append_entry r).
Proof. destruct (append_entries_frame es r) as (l & d & ->). silent_update. Qed.

(** ** Applying *)

Lemma silent_loop n r :
  plain_log r → lastApplied r ≤ lastApplied (apply_loop n r) → silent r (apply_loop n r).
Proof. intros Hp. destruct (apply_loop_plain n r Hp) as (k & t & a & ->). by split. Qed.

Lemma silent_takeSnapshot r : silent r (takeSnapshot r).
Proof. destruct (takeSnapshot_cases r) as [[d ->]|(w & d & ->)]; silent_update. Qed.
End Handlers.

(** ** Composition *)

Lemma answers_silent F c r r' : silent r r' → answers F c [] r r'.
Proof.
  intros [Hp Hs Ha]. split; [|by rewrite app_nil_r|done]. intros ch. rewrite Hp. by left.
Qed.

Lemma answers_trans F c new r1 r2 r3 :
  answers F c new r1 r2 → answers F c [] r2 r3 → answers F c new r1 r3.
Proof.
  intros [P1 S1 A1] [P2 S2 A2]. rewrite app_nil_r in S2. split; [|set_solver|lia].
  intros ch [Hin|(p & Hp & Hch & Hf)]%P2; [by apply P1|].
  rewrite app_nil_r in Hp. right. exists p. split; [set_solver|done].
Qed.

Lemma answers_le F c c' new r r' : c ≤ c' → answers F c new r r' → answers F c' new r r'.
Proof.
  intros Hc [P S A]. split; [|done|done]. intros ch [?|(p & Hp & Hch & Hf)]%P; [by left|right].
  exists p. split_and!; [done|done|]. intros H0. destruct (Hf H0). split; [lia|done].
Qed.

(** A proposal that is added by a silent step. *)
Lemma answers_propose F c p r r' :
  promised r' = promised r → proposals r' = proposals r ++ [p] →
  lastApplied r' = lastApplied r → answers F c [p] r r'.
Proof. intros Hp Hs Ha. split; [intros ch; rewrite Hp; by left|by rewrite Hs|by rewrite Ha]. Qed.

(** The positive answers of [complete_proposals]. *)
Lemma complete_answers F c r :
  commitIndex r ≤ c →
  (∀ i, getEntryTerm r i ≠ 0 → i ≤ commitIndex r →
     0 ≤ i ∧ term_at F (Z.to_nat i) = getEntryTerm r i) →
  answers F c [] r (complete_proposals r).
Proof.
  intros Hc HF. unfold complete_proposals. cbv zeta. rewrite for_each_emit. split.
  - unfold promised. rsimpl. rewrite omap_app. intros ch [?|Hin]%elem_of_app; [by left|right].
    apply list_elem_of_omap in Hin as (e & He & Hs).
    apply list_elem_of_fmap in He as (p & -> & [Hle Hp]%list_elem_of_filter).
    destruct (Z.eqb_spec (p_term p) (getEntryTerm r (p_index p))) as [Ht|]; [|done].
    injection Hs as <-. exists p. rewrite app_nil_r. split_and!; [done|done|].
    intros H0. rewrite Ht in *. destruct (HF (p_index p)); [done|done|]. split; [lia|done].
  - rsimpl. rewrite app_nil_r. intros p [_ Hp]%list_elem_of_filter. done.
  - done.
Qed.
