(* ===== verification/FullLog.v ===== *)
(** * The whole log of a node

    A node keeps the end of its log and a snapshot of the rest.  [repr F r]:
    [F] is the whole log behind the node [r], with the entries it has
    compacted away.  [full F r] adds that the store is what the machine makes
    of the applied part of [F].  The lemmas say what the log operations of the
    handlers do to [F]. *)

From S2P Require Import Prelude Types Config Json Envelope Disk Wal.
From S2P Require Import SnapshotStore Node Roles Election Apply Replication Client.
From S2P Require Import Startup RunLoop NodeFacts ReplicationFacts StateMachine.
From S2P Require Import ApplyFacts ApplySpec ElectionFacts ReplicationSpec RaftProtocol Answers.

Definition base (r : Raft) : nat := Z.to_nat (lastIncludedIndex r).

Record repr (F : list LogEntry) (r : Raft) : Prop := {
  re_wf : log_wf r;
  re_base : (base r ≤ length F)%nat;
  re_log : log r = drop (base r) F;
  re_layout : layout 0 F;
  re_term : lastIncludedTerm r = term_at F (base r)
}.

(** The store after the first [k] entries. *)
Definition sm_after (F : list LogEntry) (k : nat) : SM :=
  sm_commands (commands_of (take k F)) (∅, ∅).

Record full (F : list LogEntry) (r : Raft) : Prop := {
  fl_repr : repr F r;
  fl_ok : indices_ok r;
  fl_sm : sm_of r = sm_after F (Z.to_nat (lastApplied r))
}.

(** A step that leaves the log, the indices and the store. *)
Record same_data (r r' : Raft) : Prop := {
  sd_log : log r' = log r;
  sd_base : lastIncludedIndex r' = lastIncludedIndex r;
  sd_term : lastIncludedTerm r' = lastIncludedTerm r;
  sd_commit : commitIndex r' = commitIndex r;
  sd_applied : lastApplied r' = lastApplied r;
  sd_kv : kv r' = kv r;
  sd_dedup : dedupTable r' = dedupTable r
}.

Lemma same_data_refl r : same_data r r.
Proof. by split. Qed.

Lemma same_data_trans r1 r2 r3 : same_data r1 r2 → same_data r2 r3 → same_data r1 r3.
Proof. intros [] []. split; congruence. Qed.

(** ** Reading the log *)

Section Repr.
Context (F : list LogEntry) (r : Raft) (HF : repr F r).

Lemma repr_base : Z.of_nat (base r) = lastIncludedIndex r.
Proof. destruct HF as [(H0 & _) _ _ _ _]. unfold base. lia. Qed.

Lemma repr_last : lastLogIndex r = Z.of_nat (length F).
Proof.
  pose proof repr_base as Hb. rewrite (lastLogIndex_wf r) by apply HF.
  rewrite (re_log _ _ HF), length_drop. pose proof (re_base _ _ HF). lia.
Qed.

Lemma repr_room : Z.of_nat (length F) < max_int64.
Proof.
  destruct HF as [(_ & Hm & _) Hb Hl _ _]. rewrite Hl, length_drop in Hm.
  pose proof repr_base. lia.
Qed.

Lemma repr_entry k : (base r < k)%nat → Z.of_nat k < 2 ^ 63 →
  getEntry r (Z.of_nat k) = F !! (k - 1)%nat.
Proof.
  intros Hk Hint. pose proof repr_base as Hb.
  rewrite getEntry_log by (apply HF || lia || (unfold is_int64; lia)).
  rewrite (re_log _ _ HF), lookup_drop. f_equal. lia.
Qed.

Lemma repr_entry_term k : (base r ≤ k)%nat → Z.of_nat k < 2 ^ 63 →
  getEntryTerm r (Z.of_nat k) = term_at F k.
Proof.
  intros Hk Hint. pose proof repr_base as Hb. unfold getEntryTerm.
  destruct (decide (k = base r)) as [->|Hne].
  - unfold getEntry. rewrite Hb, bool_decide_eq_true_2 by done. apply (re_term _ _ HF).
  - rewrite repr_entry by (done || lia). destruct k as [|k]; [lia|].
    simpl. by rewrite Nat.sub_0_r.
Qed.

Lemma repr_last_term : lastLogTerm r = last_term F.
Proof.
  pose proof (re_base _ _ HF) as Hb. unfold lastLogTerm, last_term. rewrite (re_log _ _ HF).
  destruct (last (drop (base r) F)) as [e|] eqn:Hl.
  - rewrite last_lookup, length_drop, lookup_drop in Hl.
    pose proof (lookup_lt_Some _ _ _ Hl).
    destruct (length F) as [|n] eqn:Hn; [lia|]. simpl.
    replace n with (base r + pred (S n - base r))%nat by lia. by rewrite Hl.
  - apply last_None in Hl. apply (f_equal length) in Hl. rewrite length_drop in Hl. simpl in Hl.
    rewrite (re_term _ _ HF). f_equal. lia.
Qed.

(** The entries a leader sends are those of the whole log. *)
Lemma repr_range k : (base r < k)%nat → (k ≤ S (length F))%nat →
  map (λ i, wire_entry (getEntry r i)) (index_range (Z.of_nat k) (lastLogIndex r)) =
    drop (k - 1) F.
Proof.
  intros Hk Hlen. rewrite repr_last. pose proof repr_room as Hm.
  remember (S (length F) - k)%nat as n eqn:Hn. revert k Hk Hlen Hn.
  induction n as [|n IH]; intros k Hk Hlen Hn.
  - rewrite index_range_nil by lia. rewrite drop_ge by lia. done.
  - rewrite index_range_cons by lia. cbn [map].
    replace (Z.of_nat k + 1) with (Z.of_nat (S k)) by lia. rewrite IH by lia.
    rewrite repr_entry by (unfold max_int64 in *; lia).
    destruct (lookup_lt_is_Some_2 F (k - 1)) as [e He]; [lia|].
    rewrite (drop_S _ _ _ He), He. cbn [wire_entry default]. f_equal. f_equal. lia.
Qed.

(** ** Changing the log *)

Lemma repr_same_log r' : same_log r r' → repr F r'.
Proof.
  intros [Hwf Hb Hl He Ht]. pose proof repr_base as Hb0. pose proof repr_last as Hlast.
  pose proof Hwf as (H0' & Hm' & _). pose proof (lastLogIndex_wf r' Hwf) as Hlast'.
  assert (Hbase : Z.of_nat (base r') = lastIncludedIndex r') by (unfold base; lia).
  assert (Hint : ∀ k, Z.of_nat k ≤ lastLogIndex r' → is_int64 (Z.of_nat k)).
  { intros k Hk. unfold is_int64, max_int64 in *. lia. }
  split; [done|lia| |apply HF|].
  - apply list_eq. intros i. rewrite lookup_drop.
    destruct (decide (i < length (log r'))%nat) as [Hi|Hi].
    + assert (getEntry r' (Z.of_nat (base r' + i + 1)) = getEntry r (Z.of_nat (base r' + i + 1)))
        as Hi' by (apply He; [lia|apply Hint; lia]).
      rewrite getEntry_log in Hi'; [|done|lia|apply Hint; lia].
      rewrite repr_entry in Hi' by (unfold max_int64 in *; lia).
      replace (Z.to_nat (Z.of_nat (base r' + i + 1) - lastIncludedIndex r' - 1)) with i in Hi' by lia.
      replace (base r' + i + 1 - 1)%nat with (base r' + i)%nat in Hi' by lia. done.
    + rewrite !lookup_ge_None_2 by lia. done.
  - transitivity (getEntryTerm r' (Z.of_nat (base r'))).
    + unfold getEntryTerm, getEntry. by rewrite bool_decide_eq_true_2.
    + rewrite Ht; [|lia|apply Hint; lia].
      apply repr_entry_term; [lia|]. unfold max_int64 in *. lia.
Qed.

Lemma repr_same_data r' : same_data r r' → repr F r'.
Proof. intros [Sl Sb St _ _ _ _]. apply repr_same_log. apply same_log_ext; [apply HF|done..]. Qed.

Lemma repr_snoc e r' :
  log r' = log r ++ [e] → lastIncludedIndex r' = lastIncludedIndex r →
  lastIncludedTerm r' = lastIncludedTerm r → Index e = Z.of_nat (length F) + 1 →
  Z.of_nat (length F) + 1 < max_int64 → repr (F ++ [e]) r'.
Proof.
  intros Hl Hb Ht He Hm. pose proof HF as [(H0 & _ & Hlay) Hbase Hlog HlF Hterm].
  pose proof repr_base as Hb0.
  assert (Hb' : base r' = base r) by (unfold base; by rewrite Hb).
  split.
  - unfold log_wf. rewrite Hb, Hl, length_app, Hlog, length_drop. split_and!; [done|simpl; lia|].
    apply layout_app. split; [by rewrite <- Hlog|]. apply layout_singleton.
    rewrite length_drop. lia.
  - rewrite Hb', length_app. lia.
  - by rewrite Hl, Hb', Hlog, drop_app_le.
  - apply layout_app. split; [done|]. by apply layout_singleton.
  - rewrite Ht, Hb', Hterm. apply term_at_take. symmetry. by apply take_app_le.
Qed.
End Repr.

(** Where two logs do not conflict the merge keeps the first one. *)
Lemma reconcile_split k l es :
  (k ≤ length l)%nat →
  (∀ i a b, (i < k)%nat → l !! i = Some a → es !! i = Some b → Term a = Term b) →
  reconcile l es = take k l ++ reconcile (drop k l) (drop k es).
Proof.
  revert l es. induction k as [|k IH]; intros l es Hk Hc; [by rewrite !drop_0|].
  destruct l as [|a l]; [simpl in Hk; lia|]. destruct es as [|b es].
  { rewrite drop_nil, !reconcile_nil_r. by rewrite take_drop. }
  cbn [reconcile take drop]. rewrite bool_decide_eq_true_2 by (apply (Hc O); (done || lia)).
  simpl. f_equal. apply IH; [simpl in Hk; lia|]. intros i x y Hi. apply (Hc (S i)). lia.
Qed.

Lemma repr_merged F p req r r2 :
  repr F r → merging req r r2 → PrevLogIndex req = Z.of_nat p → (p ≤ length F)%nat →
  layout (Z.of_nat p) (Entries req) →
  (∀ i a b, (p + i < base r)%nat → F !! (p + i)%nat = Some a → Entries req !! i = Some b →
     Term a = Term b) →
  repr (merge p F (Entries req)) r2.
Proof.
  intros HF Hmg Hp HpF Hlay Hc. set (es := Entries req) in *.
  pose proof HF as [(H0 & _) Hbase Hlog HlF Hterm]. pose proof (repr_base F r HF) as Hb0.
  assert (Hb2 : base r2 = base r) by (unfold base; by rewrite (mg_base _ _ _ Hmg)).
  assert (Hsplit : take (base r) (merge p F es) = take (base r) F ∧
                   drop (base r) (merge p F es) = merged (PrevLogIndex req) es r).
  { unfold merge, merged. rewrite Hp, Hlog.
    destruct (decide (base r ≤ p)%nat) as [Hle|Hgt].
    - replace (Z.to_nat (lastIncludedIndex r - Z.of_nat p)) with O by lia. rewrite drop_0.
      replace (Z.to_nat (Z.of_nat p - lastIncludedIndex r)) with (p - base r)%nat by lia.
      rewrite take_app_le, drop_app_le by (rewrite length_take; lia).
      rewrite take_take, skipn_firstn_comm, drop_drop.
      split; [f_equal; lia|]. do 3 f_equal. lia.
    - replace (Z.to_nat (Z.of_nat p - lastIncludedIndex r)) with O by lia. rewrite take_0, drop_0.
      replace (Z.to_nat (lastIncludedIndex r - Z.of_nat p)) with (base r - p)%nat by lia.
      rewrite (reconcile_split (base r - p) (drop p F) es).
      2:{ rewrite length_drop. lia. }
      2:{ intros i a b Hi Ha Hb. rewrite lookup_drop in Ha. apply (Hc i a b); [lia|done|done]. }
      rewrite (assoc_L (++)), take_take_drop, drop_drop.
      replace (p + (base r - p))%nat with (base r) by lia.
      rewrite take_app_length', drop_app_length' by (rewrite length_take; lia).
      by rewrite app_nil_l. }
  destruct Hsplit as [Ht Hd].
  assert (Hlen : (base r ≤ length (merge p F es))%nat).
  { apply (f_equal length) in Ht. rewrite !length_take in Ht. lia. }
  split; [apply Hmg|by rewrite Hb2|by rewrite (mg_log _ _ _ Hmg), Hb2, Hd| |].
  - unfold merge. apply layout_app. split; [by apply layout_take|].
    rewrite length_take, Nat.min_l by lia. apply layout_reconcile; [by apply (layout_drop 0)|done].
  - rewrite (mg_base_term _ _ _ Hmg), Hb2, Hterm. symmetry. by apply term_at_take.
Qed.

(** ** Applying *)

Lemma sm_after_split F a c : (a ≤ c)%nat →
  sm_after F c = sm_commands (commands_of (take (c - a) (drop a F))) (sm_after F a).
Proof.
  intros Hac. unfold sm_after, sm_commands, commands_of.
  rewrite <- foldl_app, <- omap_app, take_take_drop. do 3 f_equal. lia.
Qed.

Lemma full_data F r r' : same_data r r' → full F r → full F r'.
Proof.
  intros Hd [Hr [Hi1 Hi2] Hsm]. pose proof (repr_same_data F r Hr r' Hd) as Hr'.
  pose proof (repr_last F r Hr) as Hl. pose proof (repr_last F r' Hr') as Hl'.
  destruct Hd as [Sl Sb St Sc Sa Sk Sd]. split; [done| |].
  - unfold indices_ok. rewrite Sb, Sa, Sc, Hl'. lia.
  - rewrite (sm_of_ext r r'), Sa by done. done.
Qed.

Lemma full_snoc F e r r' :
  full F r → log r' = log r ++ [e] → lastIncludedIndex r' = lastIncludedIndex r →
  lastIncludedTerm r' = lastIncludedTerm r → commitIndex r' = commitIndex r →
  lastApplied r' = lastApplied r → sm_of r' = sm_of r →
  Index e = Z.of_nat (length F) + 1 → Z.of_nat (length F) + 1 < max_int64 →
  full (F ++ [e]) r'.
Proof.
  intros [Hr [Hi1 Hi2] Hsm] Hl Hb Ht Hc Ha Hs He Hm.
  assert (Hr' : repr (F ++ [e]) r') by (by apply (repr_snoc F r)).
  rewrite (repr_last F r Hr) in Hi2.
  pose proof (repr_last _ r' Hr') as Hlast. rewrite length_app in Hlast. simpl in Hlast.
  split; [done| |].
  - unfold indices_ok. rewrite Hb, Ha, Hc, Hlast. lia.
  - rewrite Hs, Hsm, Ha. unfold sm_after. do 2 f_equal. symmetry. apply take_app_le. lia.
Qed.

Section Apply.
Context {PC : ProtoCodec}.

Lemma full_apply F r :
  full F r → (state r ≠ Leader ∨ plain_log r) →
  full F (applyLogs r) ∧ commitIndex (applyLogs r) = commitIndex r ∧
  currentTerm (applyLogs r) = currentTerm r.
Proof.
  intros [Hr Hi Hsm] Hor. pose proof (re_wf _ _ Hr) as Hwf. pose proof Hwf as (H0 & _).
  destruct (applyLogs_same_log r Hwf Hi Hor) as (Hs & Hi' & Ht & Hc & Ha).
  pose proof (repr_same_log F r Hr _ Hs) as Hr'. destruct Hi as [Hi1 Hi2].
  destruct (applyLogs_sm r Hwf) as (Hsm' & _ & _); [lia|done|].
  split_and!; [split; [done|done|]|done|done].
  rewrite Hsm', Ha, sm_range_commands, Hsm.
  rewrite entries_between_slice by (done || lia).
  rewrite (re_log _ _ Hr), drop_drop. pose proof (repr_base F r Hr).
  rewrite (sm_after_split F (Z.to_nat (lastApplied r)) (Z.to_nat (commitIndex r))) by lia.
  do 3 f_equal; [lia|]. f_equal. lia.
Qed.

(** The proposals it answers are committed. *)
Lemma apply_answers F r :
  full F r → plain_log r → answers F (commitIndex r) [] r (applyLogs r).
Proof.
  intros [Hr Hi Hsm] Hp. pose proof (re_wf _ _ Hr) as Hwf. pose proof Hwf as (H0 & _).
  destruct (apply_loop_same_log r Hwf Hi) as (Hs & Hb & _ & Hc & Ha); [by right|].
  rewrite applyLogs_split. set (n := Z.to_nat (commitIndex r - lastApplied r)) in *.
  pose proof (silent_loop n r Hp ltac:(destruct Hi; lia)) as Hsil. set (r1 := apply_loop n r) in *. clearbody r1.
  pose proof (repr_same_log F r Hr r1 Hs) as Hr1. destruct Hi as [Hi1 Hi2].
  unfold after_loop. match goal with |- context [complete_proposals ?x] => set (r2 := x) end.
  assert (repr F r2 ∧ silent r1 r2 ∧ commitIndex r2 = commitIndex r1) as (Hr2 & Hsil2 & Hc2).
  { unfold r2. destruct (_ && _); [|done]. split_and!.
    - apply (repr_same_log F r1 Hr1). apply takeSnapshot_same_log; [apply Hr1|].
      rewrite (sl_last _ _ Hs). lia.
    - apply silent_takeSnapshot.
    - by destruct (takeSnapshot_cases r1) as [[d ->]|(w & d & ->)]. }
  clearbody r2. eapply answers_trans; [apply answers_silent; exact (silent_trans _ _ _ Hsil Hsil2)|].
  apply complete_answers; [lia|]. intros i Hne Hle.
  pose proof (repr_base F r2 Hr2) as Hb2. pose proof (repr_room F r2 Hr2) as Hroom.
  assert (lastIncludedIndex r2 ≤ i).
  { destruct (Z.le_gt_cases (lastIncludedIndex r2) i) as [|Hlt]; [done|]. destruct Hne.
    unfold getEntryTerm, getEntry. rewrite bool_decide_eq_false_2 by lia.
    by destruct (Z.ltb_spec i (lastIncludedIndex r2)); [|lia]. }
  split; [lia|]. pose proof (repr_last F r Hr). replace i with (Z.of_nat (Z.to_nat i)) at 2 by lia.
  rewrite (repr_entry_term F r2 Hr2) by (unfold max_int64 in *; lia). done.
Qed.

Lemma full_set_commit F r n :
  full F r → commitIndex r ≤ n ≤ Z.of_nat (length F) → full F (r <| commitIndex := n |>).
Proof.
  intros [Hr [Hi1 Hi2] Hsm] Hn. set (r1 := r <| commitIndex := n |>).
  assert (Hr1 : repr F r1) by (apply (repr_same_log F r Hr); apply same_log_ext; [apply Hr|done..]).
  pose proof (repr_last F r1 Hr1) as Hl1. split; [done| |done].
  unfold indices_ok. rewrite Hl1. unfold r1. rsimpl. lia.
Qed.

Lemma full_commit F r n :
  full F r → (state r ≠ Leader ∨ plain_log r) →
  commitIndex r ≤ n ≤ Z.of_nat (length F) →
  let r' := applyLogs (r <| commitIndex := n |>) in
  full F r' ∧ commitIndex r' = n ∧ currentTerm r' = currentTerm r.
Proof.
  intros HF Hor Hn. cbv zeta. pose proof (full_set_commit F r n HF Hn) as HF1.
  by apply full_apply in HF1.
Qed.

Lemma commit_answers F r n :
  full F r → plain_log r → commitIndex r ≤ n ≤ Z.of_nat (length F) →
  answers F n [] r (applyLogs (r <| commitIndex := n |>)).
Proof.
  intros HF Hp Hn. pose proof (full_set_commit F r n HF Hn) as HF1.
  eapply answers_trans; [|by apply (apply_answers F _ HF1)].
  apply answers_silent. silent_update.
Qed.

(** What the leader's commit index makes of a follower's. *)
Lemma follow_commit_set F c r :
  full F r → commitIndex r < c →
  follow_commit c r =
    applyLogs (r <| commitIndex := Z.min c (Z.of_nat (length F)) |>).
Proof.
  intros HF Hlt. pose proof (repr_last F r (fl_repr _ _ HF)) as Hl. unfold follow_commit.
  destruct (Z.ltb_spec (commitIndex r) c); [|lia]. f_equal.
  change (lastLogIndex (r <| commitIndex := c |>)) with (lastLogIndex r). rewrite Hl. rsimpl.
  generalize (Z.of_nat (length F)). intros k.
  destruct (Z.ltb_spec k c); [rewrite Z.min_r by lia|rewrite Z.min_l by lia]; solve_upd.
Qed.

Lemma follow_commit_same c r : c ≤ commitIndex r → follow_commit c r = r.
Proof. intros Hc. unfold follow_commit. by destruct (Z.ltb_spec (commitIndex r) c); [lia|]. Qed.

Lemma full_follow_commit F c r :
  full F r → state r ≠ Leader →
  let r' := follow_commit c r in
  full F r' ∧ currentTerm r' = currentTerm r ∧
  commitIndex r' = Z.max (commitIndex r) (Z.min c (Z.of_nat (length F))).
Proof.
  intros HF Hs. cbv zeta. pose proof (repr_last F r (fl_repr _ _ HF)) as Hl.
  destruct (fl_ok _ _ HF) as [_ Hc].
  destruct (Z.le_gt_cases c (commitIndex r)) as [Hle|Hlt].
  - rewrite follow_commit_same by done. split_and!; [done|done|lia].
  - rewrite (follow_commit_set F) by done.
    destruct (full_commit F r (Z.min c (Z.of_nat (length F)))) as (? & ? & ?);
      [done|by left|lia|]. split_and!; [done|done|lia].
Qed.

Lemma follow_commit_answers F c r :
  full F r → plain_log r →
  answers F (Z.max (commitIndex r) (Z.min c (Z.of_nat (length F)))) [] r (follow_commit c r).
Proof.
  intros HF Hp. pose proof (repr_last F r (fl_repr _ _ HF)) as Hl.
  destruct (fl_ok _ _ HF) as [_ Hc].
  destruct (Z.le_gt_cases c (commitIndex r)) as [Hle|Hlt].
  - rewrite follow_commit_same by done. apply answers_silent, silent_refl.
  - rewrite (follow_commit_set F) by done.
    eapply answers_le; [|by apply commit_answers; [| |lia]]. lia.
Qed.

Lemma follow_commit_plain c r : plain_log r → plain_apply r (follow_commit c r).
Proof.
  intros Hp. unfold follow_commit. destruct (_ <? _); [|by split]. cbv zeta.
  match goal with |- plain_apply r (applyLogs ?x) => set (r1 := x) end.
  assert (plain_apply r r1) as [] by (unfold r1; destruct (_ <? _); by split).
  clearbody r1. destruct (applyLogs_plain r1) as []; [done|]. split; (done || congruence).
Qed.

Lemma merged_plain k es r :
  plain_log r → Forall no_config es → Forall no_config (merged k es r).
Proof.
  intros Hp Hes. unfold merged. apply Forall_app. split; [by apply Forall_take|].
  generalize (Forall_drop _ (Z.to_nat (k - lastIncludedIndex r)) _ Hp).
  generalize (Forall_drop _ (Z.to_nat (lastIncludedIndex r - k)) _ Hes).
  generalize (drop (Z.to_nat (k - lastIncludedIndex r)) (log r)) as l1.
  generalize (drop (Z.to_nat (lastIncludedIndex r - k)) es) as l2.
  intros l2 l1 H2 H1. revert l2 H2. induction H1 as [|a l1 Ha H1 IH]; intros l2 H2; [done|].
  destruct H2 as [|b l2 Hb H2]; [by constructor|]. cbn [reconcile].
  case_bool_decide; constructor; auto.
Qed.

(** An accepted request: the whole log is merged with the leader's entries. *)
Lemma full_accept F p req r :
  full F r → acceptable req r → plain_log r → Forall no_config (Entries req) →
  PrevLogIndex req = Z.of_nat p →
  (∀ i a b, (p + i < base r)%nat → F !! (p + i)%nat = Some a → Entries req !! i = Some b →
     Term a = Term b) →
  (Z.to_nat (commitIndex r) ≤ length (merge p F (Entries req)))%nat →
  take (Z.to_nat (commitIndex r)) (merge p F (Entries req)) = take (Z.to_nat (commitIndex r)) F →
  ∃ r', processAppendEntries req r =
      (mkAppendEntriesResponse (ae_Term req) true
         (Z.of_nat (length (merge p F (Entries req)))), r') ∧
    full (merge p F (Entries req)) r' ∧ currentTerm r' = ae_Term req ∧
    commitIndex r' = Z.max (commitIndex r)
      (Z.min (LeaderCommit req) (Z.of_nat (length (merge p F (Entries req))))) ∧
    nextIndex r' = nextIndex r ∧ state r' ≠ Leader ∧ state r' ≠ Candidate ∧
    answers (merge p F (Entries req)) (commitIndex r') [] r r'.
Proof.
  intros [Hr Hi Hsm] Hac Hpl Hes Hp Hbase Hlen Hkeep. pose proof Hac as [_ _ Hprev _ Hlay _ _].
  pose proof (re_wf _ _ Hr) as Hwf. destruct (append_merging req r Hwf Hi Hac) as (r2 & Hmg & Hr2x & ->).
  set (F' := merge p F (Entries req)) in *.
  rewrite (repr_last F r Hr), Hp in Hprev.
  assert (Hr2 : repr F' r2).
  { apply (repr_merged F p req r r2); try done; [lia|]. by rewrite <- Hp. }
  assert (HF2 : full F' r2).
  { split; [done|apply Hmg|]. rewrite (mg_sm _ _ _ Hmg), Hsm, (mg_applied _ _ _ Hmg).
    destruct Hi as [Hi1 Hi2]. unfold sm_after. do 2 f_equal. symmetry.
    apply (take_eq_le _ (Z.to_nat (commitIndex r))); [lia|done]. }
  destruct (full_follow_commit F' (LeaderCommit req) r2 HF2) as (HF3 & Ht & Hc);
    [apply Hmg|].
  rewrite (mg_term _ _ _ Hmg) in Ht. rewrite (mg_commit _ _ _ Hmg) in Hc.
  assert (Hpl2 : plain_log r2).
  { unfold plain_log. rewrite (mg_log _ _ _ Hmg). by apply merged_plain. }
  pose proof (follow_commit_answers F' (LeaderCommit req) r2 HF2 Hpl2) as Hans.
  rewrite (mg_commit _ _ _ Hmg), <- Hc in Hans.
  assert (Hsil : silent r r2).
  { rewrite Hr2x. eapply silent_trans; [apply silent_follow_leader|apply silent_append_entries]. }
  pose proof (answers_trans _ _ _ _ _ _ (answers_silent F' _ _ _ Hsil) Hans) as Hans'.
  destruct (follow_commit_plain (LeaderCommit req) r2 Hpl2) as [_ _ Hst _ _ _ Hn _].
  eexists. split.
  2:{ rewrite Hst. split_and!; [exact HF3|done|done|by rewrite Hn, (mg_next _ _ _ Hmg)| | |done];
      apply Hmg. }
  by rewrite Ht, (repr_last F' _ (fl_repr _ _ HF3)).
Qed.
End Apply.
