(* ===== verification/LogSteps.v ===== *)
(** * What the handlers do to the log

    [data_step]: a handler of the elections leaves the log, the indices and
    the store of a node, unless the node wins: then it has added one entry of
    its term and starts to track its peers. *)

From S2P Require Import Prelude Types Config Json Envelope Disk Wal.
From S2P Require Import SnapshotStore Node Roles Election Apply Replication Client.
From S2P Require Import Startup RunLoop NodeFacts ReplicationFacts StateMachine.
From S2P Require Import ApplyFacts ElectionFacts ReplicationSpec RaftProtocol Answers FullLog.

(** What a leader knows of its peers. *)
Definition same_progress (r r' : Raft) : Prop :=
  nextIndex r' = nextIndex r ∧ matchIndex r' = matchIndex r.

(** [r'] has the entry [e] after the log of [r]. *)
Record snoc_data (e : LogEntry) (r r' : Raft) : Prop := {
  sn_log : log r' = log r ++ [e];
  sn_base : lastIncludedIndex r' = lastIncludedIndex r;
  sn_base_term : lastIncludedTerm r' = lastIncludedTerm r;
  sn_commit : commitIndex r' = commitIndex r;
  sn_applied : lastApplied r' = lastApplied r;
  sn_sm : sm_of r' = sm_of r;
  sn_index : Index e = lastLogIndex r +! 1
}.

(** The progress of a new leader. *)
Record new_progress (r r' : Raft) : Prop := {
  np_next p : p ∈ dom (effectivePeers r) → nextIndex r' !! p = Some (lastLogIndex r +! 1);
  np_match p : p ∈ dom (effectivePeers r) → matchIndex r' !! p = Some 0;
  np_other p : p ∉ dom (effectivePeers r) → nextIndex r' !! p = nextIndex r !! p
}.

Inductive data_step (r r' : Raft) : Prop :=
| ds_same :
    same_data r r' → same_progress r r' →
    (state r' = Leader → state r = Leader ∧ currentTerm r' = currentTerm r) → data_step r r'
| ds_win e :
    snoc_data e r r' → Term e = currentTerm r' → new_progress r r' →
    state r ≠ Leader → state r' = Leader → data_step r r'.

Lemma data_step_refl r : data_step r r.
Proof. by apply ds_same. Qed.

(** A step before that leaves what the second one looks at. *)
Lemma data_step_after r1 r2 r3 :
  same_data r1 r2 → same_progress r1 r2 → effectivePeers r2 = effectivePeers r1 →
  (state r1 = Leader → state r2 = Leader ∧ currentTerm r2 = currentTerm r1) →
  (state r2 = Leader → state r1 = Leader) →
  data_step r2 r3 → data_step r1 r3.
Proof.
  intros Hd [Hn Hm] He Hl1 Hl2.
  assert (Hlast : lastLogIndex r2 = lastLogIndex r1)
    by (destruct Hd; apply lastLogIndex_ext; done).
  assert (Hsm : sm_of r2 = sm_of r1) by (destruct Hd; by apply sm_of_ext).
  intros [Hd' [Hn' Hm'] Hs|e [Sl Sb St Sc Sa Ss Si] Ht [Nn Nm No] Hs Hs'].
  - apply ds_same; [by eapply same_data_trans|split; congruence|].
    intros H3. destruct (Hs H3) as [H2 Ht]. destruct (Hl1 (Hl2 H2)) as [_ ?].
    split; [auto|congruence].
  - apply (ds_win r1 r3 e); [|done| |by intros [? _]%Hl1|done].
    + destruct Hd. split; congruence.
    + split; rewrite <- ?He, <- ?Hlast, <- ?Hn; done.
Qed.

Lemma init_progress_lookup l i r p :
  let r' := for_each l (λ (peer : string * string) r,
    r <| nextIndex ::= insert peer.1 i |> <| matchIndex ::= insert peer.1 0 |>) r in
  (p ∈ l.*1 → nextIndex r' !! p = Some i ∧ matchIndex r' !! p = Some 0) ∧
  (p ∉ l.*1 → nextIndex r' !! p = nextIndex r !! p ∧ matchIndex r' !! p = matchIndex r !! p).
Proof.
  revert r. induction l as [|[q a] l IH]; intros r; cbv zeta.
  { split; [by intros ?%elem_of_nil|done]. }
  rewrite for_each_cons. cbn [fst fmap list_fmap].
  match goal with |- context [for_each l _ ?x] => set (r1 := x) end.
  assert (nextIndex r1 = <[q := i]> (nextIndex r) ∧ matchIndex r1 = <[q := 0]> (matchIndex r))
    as [Hn Hm] by done.
  clearbody r1. destruct (IH r1) as [IH1 IH2]. cbv zeta in *.
  set (r2 := for_each l _ r1) in *. clearbody r2.
  destruct (decide (p ∈ l.*1)) as [Hin|Hin].
  - split; [by intros _; apply IH1|]. intros Hno. destruct Hno. by right.
  - destruct (IH2 Hin) as [-> ->]. rewrite Hn, Hm. split.
    + intros [->|?]%elem_of_cons; [|done]. by rewrite !lookup_insert_eq.
    + intros [Hne _]%not_elem_of_cons. by rewrite !lookup_insert_ne.
Qed.

Lemma init_progress_new r :
  new_progress r (init_progress (lastLogIndex r) r).
Proof.
  assert (Hdom : ∀ p, p ∈ dom (effectivePeers r) ↔ p ∈ (map_to_list (effectivePeers r)).*1).
  { intros p. rewrite elem_of_dom, list_elem_of_fmap. split.
    - intros [a Ha]. exists (p, a). by rewrite elem_of_map_to_list.
    - intros ([q a] & -> & Ha). rewrite elem_of_map_to_list in Ha. eauto. }
  unfold init_progress. split; intros p Hp; rewrite Hdom in Hp;
    by apply (init_progress_lookup (map_to_list (effectivePeers r)) (lastLogIndex r +! 1) r p).
Qed.

Section Elections.
Context {PC : ProtoCodec} {DL : Dialer}.

Lemma transitionToLeader_data r :
  state r = Candidate →
  ∃ e, snoc_data e r (transitionToLeader r) ∧ Term e = currentTerm r ∧
    new_progress r (transitionToLeader r) ∧ state (transitionToLeader r) = Leader.
Proof.
  intros Hs. unfold transitionToLeader. rewrite Hs, bool_decide_eq_false_2 by naive_solver.
  cbv zeta. set (r0 := r <| state := Leader |> <| timer_armed := false |>).
  destruct (connectToPeersLocked_frame r0) as (g & Hg). rewrite Hg.
  set (r1 := r0 <| grpcPeers := g |>).
  assert (Hlast : lastLogIndex r1 = lastLogIndex r) by done.
  pose proof (init_progress_new r1) as Hnew.
  destruct (init_progress_frame (lastLogIndex r1) r1) as (n & m & Hr2). rewrite Hr2 in *.
  set (r2 := r1 <| nextIndex := n |> <| matchIndex := m |>) in *.
  destruct (EncodeNoopEntry_plain (lastLogIndex r2 +! 1) (currentTerm r2)) as (b & -> & _).
  set (e := mkLogEntry _ _ _). exists e. rewrite wal_try_frame.
  unfold broadcastHeartbeats. rewrite for_each_emit. unfold emit.
  assert (Hnew' : new_progress r r2).
  { destruct Hnew as [Nn Nm No]. split; intros p Hp.
    - rewrite <- Hlast. by apply Nn.
    - by apply Nm.
    - change (nextIndex r !! p) with (nextIndex r1 !! p). by apply No. }
  split_and!; [|done| |done].
  - split; try done.
  - destruct Hnew' as [Nn Nm No]. split; intros p Hp; rsimpl; auto.
Qed.

Lemma transitionToFollower_data t r :
  same_data r (transitionToFollower t r) ∧ same_progress r (transitionToFollower t r) ∧
  state (transitionToFollower t r) = Follower.
Proof. rewrite transitionToFollower_frame. by split_and!. Qed.

Lemma transitionToCandidate_data r :
  state r ≠ Leader → data_step r (transitionToCandidate r).
Proof.
  intros Hs. unfold transitionToCandidate. cbv zeta.
  set (r1 := wal_try _ _).
  assert (same_data r r1 ∧ same_progress r r1 ∧ state r1 = Candidate ∧
    effectivePeers r1 = effectivePeers r) as (Hd & Hp & Hs1 & He).
  { unfold r1. rewrite wal_try_frame. done. }
  clearbody r1.
  apply (data_step_after r r1); [done|done|done|done|congruence|]. unfold startElection. cbv zeta.
  case_bool_decide.
  - destruct (transitionToLeader_data r1 Hs1) as (e & Hsn & Ht & Hnew & Hl).
    apply (ds_win _ _ e); [done| |done|congruence|done].
    rewrite Ht. symmetry. apply (q_term _ _ (transitionToLeader_step r1 Hs1)).
  - rewrite for_each_emit. apply ds_same; done.
Qed.

Lemma electionTimeout_data r : data_step r (electionTimeout r).
Proof.
  unfold electionTimeout. cbv zeta. set (r1 := r <| timer_armed := false |>).
  apply (data_step_after r r1); [done..|].
  destruct (_ && _) eqn:Hc; [|destruct (isJoining r1); by apply ds_same].
  assert (Hs : state r1 ≠ Leader).
  { apply andb_true_iff in Hc as [Hc _]. apply orb_true_iff in Hc.
    rewrite !bool_decide_eq_true in Hc. destruct Hc as [-> | ->]; done. }
  clear Hc. clearbody r1. unfold startPreVote. cbv zeta.
  match goal with |- context [transitionToCandidate ?x] => set (r2 := x) end.
  assert (same_data r1 r2 ∧ same_progress r1 r2 ∧ state r2 = state r1 ∧
    effectivePeers r2 = effectivePeers r1) as (Hd & Hp & Hs2 & He) by done.
  case_bool_decide.
  - clearbody r2. apply (data_step_after r1 r2); [done|done|done|done|congruence|].
    apply transitionToCandidate_data. congruence.
  - rewrite for_each_emit. by apply ds_same.
Qed.

Lemma processPreVoteResponse_data p resp r : data_step r (processPreVoteResponse p resp r).
Proof.
  unfold processPreVoteResponse. destruct (_ && _) eqn:Hc; [|apply data_step_refl]. cbv zeta.
  assert (Hs : state r ≠ Leader).
  { apply andb_true_iff in Hc as [Hc _]. apply orb_true_iff in Hc.
    rewrite !bool_decide_eq_true in Hc. destruct Hc as [-> | ->]; done. }
  match goal with |- context [transitionToCandidate ?x] => set (r2 := x) end.
  apply (data_step_after r r2); [done..|].
  destruct (vote_majority _ _); [|apply data_step_refl]. by apply transitionToCandidate_data.
Qed.

Lemma processRequestVote_data req r : data_step r (processRequestVote req r).2.
Proof.
  unfold processRequestVote. destruct (_ <? _); [apply data_step_refl|].
  destruct (not_a_member _ _); [apply data_step_refl|]. cbv zeta.
  match goal with |- context [logOK ?x _] => set (r1 := x) end.
  assert (same_data r r1 ∧ same_progress r r1 ∧
    (state r1 = Leader → state r = Leader ∧ currentTerm r1 = currentTerm r)) as (Hd & Hp & Hs).
  { unfold r1. destruct (_ <? _); [|done].
    destruct (transitionToFollower_data (rv_Term req) r) as (? & ? & ->). done. }
  clearbody r1. destruct (_ && _); [rewrite wal_try_frame|]; cbn [fst snd];
    (apply ds_same; [destruct Hd; by split|destruct Hp; by split|done]).
Qed.

Lemma processRequestVoteResponse_data p resp r :
  data_step r (processRequestVoteResponse p resp r).
Proof.
  unfold processRequestVoteResponse. destruct (_ <? _).
  { destruct (transitionToFollower_data (rvr_Term resp) r) as (? & ? & Hs).
    apply ds_same; [done|done|]. rewrite Hs. done. }
  destruct (_ && _) eqn:Hc; [|apply data_step_refl]. cbv zeta.
  rewrite !andb_true_iff in Hc. destruct Hc as [[Hs%bool_decide_eq_true _] _].
  match goal with |- context [transitionToLeader ?x] => set (r2 := x) end.
  assert (Hs2 : state r2 = Candidate) by done.
  apply (data_step_after r r2); [done..|]. clearbody r2.
  destruct (vote_majority _ _); [|apply data_step_refl].
  destruct (transitionToLeader_data r2 Hs2) as (e & Hsn & Ht & Hnew & Hl).
  apply (ds_win _ _ e); [done| |done|congruence|done].
  rewrite Ht. symmetry. apply (q_term _ _ (transitionToLeader_step r2 Hs2)).
Qed.

Lemma follow_leader_data t l r :
  same_data r (follow_leader t l r) ∧ same_progress r (follow_leader t l r).
Proof.
  unfold follow_leader, resetElectionTimer. cbv zeta. rewrite !transitionToFollower_frame.
  destruct (_ <? _); case_bool_decide; by split.
Qed.
End Elections.

(** ** Requests of a leader *)

Section Requests.
Context {PC : ProtoCodec} {DL : Dialer}.

Lemma processAppendEntries_cases req r :
  (ae_Term req < currentTerm r ∧
   processAppendEntries req r = (mkAppendEntriesResponse (currentTerm r) false 0, r)) ∨
  (currentTerm r ≤ ae_Term req ∧ ∃ m,
   processAppendEntries req r =
     (mkAppendEntriesResponse (ae_Term req) false m,
      follow_leader (ae_Term req) (ae_LeaderId req) r) ∧
   (m = lastLogIndex r ∧ lastLogIndex r < PrevLogIndex req ∨
    m = PrevLogIndex req -! 1 ∧ lastIncludedIndex r ≤ PrevLogIndex req ≤ lastLogIndex r)) ∨
  (currentTerm r ≤ ae_Term req ∧ PrevLogIndex req ≤ lastLogIndex r ∧
   (lastIncludedIndex r ≤ PrevLogIndex req →
    getEntryTerm r (PrevLogIndex req) = PrevLogTerm req)).
Proof.
  unfold processAppendEntries. destruct (Z.ltb_spec (ae_Term req) (currentTerm r)) as [|Ht].
  { left. by split. }
  right. cbv zeta. destruct (follow_leader_step (ae_Term req) (ae_LeaderId req) r Ht) as [_ Hterm].
  destruct (follow_leader_data (ae_Term req) (ae_LeaderId req) r) as [[Sl Sb St _ _ _ _] _].
  set (r1 := follow_leader _ _ r) in *. clearbody r1. rewrite Hterm.
  assert (Hlast : lastLogIndex r1 = lastLogIndex r) by (by apply lastLogIndex_ext).
  assert (Hent : getEntryTerm r1 (PrevLogIndex req) = getEntryTerm r (PrevLogIndex req))
    by (unfold getEntryTerm; by rewrite (getEntry_ext r r1)).
  rewrite Hlast, Sb, Hent. destruct (Z.ltb_spec (lastLogIndex r) (PrevLogIndex req)).
  { left. split; [done|]. eexists. split; [done|]. by left. }
  destruct (_ && _) eqn:Hc.
  - left. split; [done|]. eexists. split; [done|]. right.
    apply andb_true_iff in Hc as [Hc%Z.leb_le _]. split; [done|lia].
  - right. split_and!; [done|done|]. intros Hle. apply Z.leb_le in Hle. rewrite Hle in Hc.
    cbn [andb] in Hc. apply bool_decide_eq_false, dec_stable in Hc. done.
Qed.

(** The commit loop keeps the whole log and runs the machine. *)
Lemma full_commit_loop k F lo r :
  full F r → plain_log r → commitIndex r < lo → k = Z.to_nat (Z.of_nat (length F) - lo + 1) →
  let r' := for_each (index_range lo (Z.of_nat (length F))) try_commit r in
  full F r' ∧ commitIndex r ≤ commitIndex r' ∧ answers F (commitIndex r') [] r r'.
Proof.
  revert lo r. induction k as [|k IH]; intros lo r HF Hp Hlo Hk; cbv zeta.
  { rewrite index_range_nil by lia. split_and!; [done|done|apply answers_silent, silent_refl]. }
  rewrite index_range_cons, for_each_cons by lia. set (r1 := try_commit lo r).
  assert (full F r1 ∧ commitIndex r ≤ commitIndex r1 < lo + 1 ∧ answers F (commitIndex r1) [] r r1)
    as (HF1 & Hc1 & Ha1).
  { assert (Hsame : full F r ∧ commitIndex r ≤ commitIndex r < lo + 1 ∧
      answers F (commitIndex r) [] r r)
      by (split_and!; [done|lia|lia|apply answers_silent, silent_refl]).
    unfold r1, try_commit. destruct (_ =? _); [|done].
    destruct (checkCommitMajority _ _); [|done].
    assert (Hle : commitIndex r ≤ lo ≤ Z.of_nat (length F)) by lia.
    destruct (full_commit F r lo HF (or_intror Hp) Hle) as (? & Hc & _). rewrite Hc.
    split_and!; [done|lia|lia|by apply commit_answers]. }
  pose proof (q_plain _ _ (quiet_try_commit lo r Hp) Hp) as Hp1. fold r1 in Hp1.
  clearbody r1. destruct (IH (lo + 1) r1 HF1 Hp1) as (HF2 & Hc2 & Ha2); [lia|lia|].
  split_and!; [done|lia|]. eapply answers_trans; [|exact Ha2].
  eapply answers_le; [|exact Ha1]. done.
Qed.

(** The leader's turn on an acknowledgement, up to the commit loop. *)
Lemma append_response_ok peer resp r :
  state r = Leader → aer_Term resp = currentTerm r → Success resp = true →
  ∃ r3, processAppendEntriesResponse peer resp r =
      for_each (index_range (commitIndex r +! 1) (lastLogIndex r)) try_commit r3 ∧
    same_data r r3 ∧ quiet r r3 ∧ silent r r3 ∧ currentConfig r3 = currentConfig r ∧ peers r3 = peers r ∧
    matchIndex r3 = <[peer := MatchIndex resp]> (matchIndex r) ∧
    nextIndex r3 = <[peer := MatchIndex resp +! 1]> (nextIndex r).
Proof.
  intros Hs Ht Hok. unfold processAppendEntriesResponse.
  rewrite Ht, Hs, Hok, Z.ltb_irrefl, Z.eqb_refl, bool_decide_eq_true_2 by done. cbn [andb].
  cbv zeta. match goal with |- context [clean_proposalTime ?x] => set (r2 := x) end.
  exists (clean_proposalTime r2).
  assert (∃ g, clean_proposalTime r2 = r2 <| proposalTime := g |>) as [g ->].
  { unfold clean_proposalTime. destruct (_ <? _); [by eexists|].
    exists (proposalTime r2). solve_upd. }
  split_and!; try done.
Qed.

(** ... and on a refusal. *)
Lemma append_response_refused peer resp r :
  state r = Leader → aer_Term resp = currentTerm r → Success resp = false →
  let r' := processAppendEntriesResponse peer resp r in
  same_data r r' ∧ quiet r r' ∧ silent r r' ∧ matchIndex r' = matchIndex r ∧
  nextIndex r' = <[peer := Z.max 1 (MatchIndex resp +! 1)]> (nextIndex r).
Proof.
  intros Hs Ht Hok. cbv zeta. unfold processAppendEntriesResponse.
  rewrite Ht, Hs, Hok, Z.ltb_irrefl, Z.eqb_refl, bool_decide_eq_true_2 by done. cbn [andb].
  cbv zeta. set (i := MatchIndex resp +! 1). unfold lookup_int. rsimpl.
  rewrite lookup_insert_eq. cbn [default].
  assert (He : ∀ x, quiet r x → quiet r (emit (GoReplicateToPeer peer) x)).
  { intros x Hx. eapply quiet_trans; [exact Hx|]. by apply quiet_emit. }
  assert (Hsl : ∀ x, silent r x → silent r (emit (GoReplicateToPeer peer) x)).
  { intros x Hx. eapply silent_trans; [exact Hx|]. by apply silent_emit. }
  change (id i) with i. destruct (Z.ltb_spec i 1) as [Hi|Hi].
  - rewrite (Z.max_l 1 i) by lia. split_and!; [done| | |done|].
    + apply He. by apply quiet_frame.
    + apply Hsl. silent_update.
    + unfold emit. rsimpl. by rewrite insert_insert_eq.
  - rewrite (Z.max_r 1 i) by lia. split_and!; [by split| | |reflexivity|done].
    + apply He. by apply quiet_frame.
    + apply Hsl. silent_update.
Qed.

(** An entry of the leader behind its log. *)
Lemma full_snoc_data F e r r' :
  full F r → snoc_data e r r' → Z.of_nat (length F) + 1 < max_int64 → full (F ++ [e]) r'.
Proof.
  intros HF [Sl Sb St Sc Sa Ss Si] Hm. apply (full_snoc F e r r'); try done.
  rewrite Si, (repr_last F r (fl_repr _ _ HF)). apply int64_add_small.
  unfold is_int64, max_int64 in *. lia.
Qed.

Lemma handleClientCommand_full F cmd ch r :
  full F r → plain_log r → (∀ i t, no_config (mkLogEntry i t cmd)) →
  Z.of_nat (length F) + 1 < max_int64 →
  let r' := handleClientCommand cmd ch r in
  (state r ≠ Leader ∧ same_data r r' ∧ same_progress r r' ∧ silent r r') ∨
  (state r = Leader ∧ ∃ e, Term e = currentTerm r ∧ Cmd e = cmd ∧
     full (F ++ [e]) r' ∧ same_progress r r' ∧
     (commitIndex r' = commitIndex r ∨
      effectivePeers r = ∅ ∧ commitIndex r' = Z.of_nat (length F) + 1) ∧
     answers (F ++ [e]) (commitIndex r')
       [mkProposal (Z.of_nat (length F) + 1) (currentTerm r) ch] r r').
Proof.
  intros HF Hp Hc Hm. cbv zeta. unfold handleClientCommand.
  case_bool_decide as Hs.
  { left. split_and!; [done|done|done|by apply silent_emit]. }
  right. split; [done|].
  set (e := mkLogEntry _ _ _). cbv zeta. exists e. split; [done|]. split; [done|].
  rewrite wal_do_frame. set (r1 := r <| log ::= _ |>). set (r2 := r1 <| disk := _ |>).
  assert (snoc_data e r r2 ∧ same_progress r r2 ∧ effectivePeers r2 = effectivePeers r ∧
    plain_log r2 ∧ effects r2 = effects r ∧ proposals r2 = proposals r ∧
    lastApplied r2 = lastApplied r)
    as (Hsn & Hpr & He & Hp2 & Hef2 & Hps2 & Hap2).
  { split_and!; [by split|done|done| |done|done|done]. unfold plain_log, r2, r1. rsimpl.
    apply Forall_app. split; [done|]. repeat constructor. apply Hc. }
  pose proof (full_snoc_data F e r r2 HF Hsn Hm) as HF2.
  assert (Hce : commitIndex r2 = commitIndex r) by apply Hsn.
  assert (Hie : Index e = Z.of_nat (length F) + 1).
  { rewrite (sn_index _ _ _ Hsn), (repr_last F r (fl_repr _ _ HF)). apply int64_add_small.
    unfold is_int64, max_int64 in *. lia. }
  assert (Hte : Term e = currentTerm r) by done.
  clearbody r2 e. set (new := [mkProposal _ (currentTerm r) ch]).
  pose proof (silent_frame r r2 Hef2 Hps2 Hap2) as Hs2. destruct (_.1).
  { split_and!; [by apply (full_data _ r2)|destruct Hpr; by split|by left|].
    destruct (silent_trans _ _ _ Hs2 (silent_emit (SendResp ch (mkCmdResp false (Some s))) r2 eq_refl))
      as [Hpm Hsub Hap]. split; [intros x; rewrite Hpm; by left|set_solver|done]. }
  match goal with |- context [broadcastHeartbeats ?x] => set (r3 := x) end.
  unfold broadcastHeartbeats. rewrite for_each_emit. set (r4 := r3 <| effects ::= _ |>).
  assert (same_data r2 r4 ∧ same_progress r2 r4 ∧ effectivePeers r4 = effectivePeers r2 ∧
    plain_log r4 ∧ commitIndex r4 = commitIndex r2) as (Hd4 & Hpr4 & He4 & Hp4 & Hc4) by done.
  assert (Ha4 : ∀ G c, answers G c new r r4).
  { intros G c. apply answers_propose.
    - unfold r4. rewrite promised_app by (by apply omap_map_none).
      rewrite <- (si_promised _ _ Hs2). done.
    - unfold r4, r3, new. rsimpl. rewrite Hps2, Hie, Hte. done.
    - exact Hap2. }
  clearbody r4. pose proof (full_data _ r2 r4 Hd4 HF2) as HF4.
  destruct Hpr as [Hn Hma], Hpr4 as [Hn4 Hma4].
  destruct (bool_decide _ && _) eqn:Hb.
  2:{ split_and!; [done|split; congruence|left; congruence|done]. }
  apply andb_true_iff in Hb as [Hb%bool_decide_eq_true _].
  assert (Hle : commitIndex r4 ≤ Index e ≤ Z.of_nat (length (F ++ [e]))).
  { rewrite length_app, Hie. simpl. destruct (fl_ok _ _ HF) as [_ Hcl].
    rewrite (repr_last F r (fl_repr _ _ HF)) in Hcl. lia. }
  destruct (full_commit (F ++ [e]) r4 (Index e) HF4 (or_intror Hp4) Hle) as (HF5 & Hc5 & _).
  pose proof (commit_answers (F ++ [e]) r4 (Index e) HF4 Hp4 Hle) as Ha5.
  destruct (applyLogs_plain (r4 <| commitIndex := Index e |>)) as [_ _ _ _ _ Hma5 Hn5 _]; [done|].
  rsimpl_hyps. set (r5 := applyLogs _) in *. clearbody r5.
  split_and!; [done|split; congruence|right; split; congruence|].
  rewrite Hc5. by eapply answers_trans.
Qed.

Lemma BuildJointConfig_joint c self req c' : BuildJointConfig c self req = Ok c' → Joint c' = true.
Proof. unfold BuildJointConfig. intros H. repeat case_match; by simplify_eq. Qed.

(** A membership change that goes through makes the configuration joint; one
    that fails may leave its entry in the log. *)
Lemma handleConfigChange_data req ch r :
  let r' := handleConfigChange req ch r in
  (same_data r r' ∧ same_progress r r' ∧ silent r r') ∨
  (state r = Leader ∧ ∃ e, Term e = currentTerm r ∧ snoc_data e r r' ∧ same_progress r r' ∧
     silent r r') ∨
  (∃ c, currentConfig r' = Some c ∧ Joint c = true).
Proof.
  cbv zeta.
  assert (Hrej : ∀ err, let r' := emit (SendResp ch (mkCmdResp false (Some err))) r in
    same_data r r' ∧ same_progress r r' ∧ silent r r')
    by (intros err; split_and!; [done|done|by apply silent_emit]).
  unfold handleConfigChange. case_bool_decide as Hs; [left; apply Hrej|].
  destruct (pendingConfig r); [left; apply Hrej|]. case_bool_decide; [left; apply Hrej|].
  destruct (BuildJointConfig _ _ _) as [c|] eqn:Hj; [|left; apply Hrej].
  apply BuildJointConfig_joint in Hj.
  destruct (EncodeConfigChangeEntry _) as [data|]; [|left; apply Hrej]. cbv zeta. right.
  clear Hrej. rewrite wal_do_frame. set (e := mkLogEntry _ _ _).
  destruct (_.1); [left; split; [done|]; exists e|right].
  { split_and!; [done|by split|done|]. eapply silent_trans; [|by apply silent_emit].
    silent_update. }
  exists c. split; [|done]. unfold broadcastHeartbeats. rewrite for_each_emit. rsimpl.
  match goal with |- context [connectToNewPeers ?x] =>
    destruct (connectToNewPeers_frame x) as (g & n & m & ->) end. done.
Qed.
End Requests.
