(* ===== verification/Simulation.v ===== *)
(** * The cluster is a run of the protocol

    [sim]: the abstract machine of [RaftProtocol] behind a state of the
    cluster.  The abstract log of a node is its whole log, the votes are those
    of [ElectionSafety] with the log of the voter, and every call and answer on
    the network states a fact about the machine that stays true ([packet_rel]).
    [sim_assemble] rebuilds the relation after the step of one node. *)

From stdpp Require Import functions.
From S2P Require Import Prelude Types Config Json Envelope Disk Wal SnapshotStore.
From S2P Require Import Node Roles Election Apply Replication Client Startup RunLoop.
From S2P Require Import NodeFacts ReplicationFacts StateMachine ApplyFacts ElectionFacts.
From S2P Require Import ReplicationSpec Cluster Schedule ElectionSafety RaftProtocol.
From S2P Require Import Agreement FullLog LogSteps.

(** The members do not change, the indices stay within [int64], and no node
    falls behind the others' snapshots. *)
Definition no_install (p : Packet) : Prop :=
  match p with Call _ _ (MInstallSnapshot _) _ => False | _ => True end.

Definition calm (M : gset string) (s : Net) : Prop :=
  steady M s ∧ map_Forall (λ _ r, lastLogIndex r + 1 < max_int64) (nodes s) ∧
  Forall no_install (soup s).

Section Relation.
Context {PC : ProtoCodec} {DL : Dialer}.
Context (M : gset string).

Record node_rel (g : Abs) (n : string) (r : Raft) : Prop := {
  nr_term : a_term g n = currentTerm r;
  nr_full : full (a_log g n) r;
  nr_commit : agreed M g (currentTerm r) (Z.to_nat (commitIndex r)) (a_log g n);
  nr_self : nextIndex r !! n = None;
  nr_leader : state r = Leader →
    (length (a_log g n) ≤ a_ack g (n, currentTerm r))%nat ∧
    ∀ p, p ∈ M → p ≠ n →
      (∀ k, matchIndex r !! p = Some k → k ≤ Z.of_nat (a_ack g (p, currentTerm r))) ∧
      (∀ k, nextIndex r !! p = Some k → k ≤ Z.of_nat (length (a_log g n)) + 1);
  nr_known : state r = Leader →
    a_leader g (currentTerm r) = Some n ∧
    Z.of_nat (a_known g (currentTerm r)) ≤ commitIndex r;
  nr_cand : state r = Candidate →
    a_vote g (n, currentTerm r) = Some (n, a_log g n) ∧ a_leader g (currentTerm r) ≠ Some n;
  nr_calls t i lt : (t, i, lt) ∈ campaigns r →
    ∃ l, a_vote g (n, t) = Some (n, l) ∧ i = Z.of_nat (length l) ∧ lt = last_term l
}.

(** A part of the leader's log that starts after the position [p]. *)
Record sent (g : Abs) (req : AppendEntriesRequest) (p : nat) : Prop := {
  se_prev : PrevLogIndex req = Z.of_nat p;
  se_prev_term : PrevLogTerm req = term_at (a_llog g (ae_Term req)) p;
  se_length : (p + length (Entries req) ≤ length (a_llog g (ae_Term req)))%nat;
  se_entries : take (p + length (Entries req)) (a_llog g (ae_Term req)) =
               take p (a_llog g (ae_Term req)) ++ Entries req;
  se_last : term_at (a_llog g (ae_Term req)) (p + length (Entries req)) = ae_Term req;
  se_commit : agreed M g (ae_Term req) (Z.to_nat (LeaderCommit req)) (a_llog g (ae_Term req))
}.

Definition packet_rel (g : Abs) (p : Packet) : Prop :=
  match p with
  | Call src _ (MRequestVote req) _ =>
      ∃ l, a_vote g (CandidateId req, rv_Term req) = Some (CandidateId req, l) ∧
        LastLogIndex req = Z.of_nat (length l) ∧ LastLogTerm req = last_term l
  | Call src dst (MAppendEntries req) _ =>
      dst ≠ src ∧ a_leader g (ae_Term req) = Some src ∧ (dst ∈ M → ∃ p, sent g req p)
  | Return dst (MAppendResp p resp) =>
      p ≠ dst ∧ -1 ≤ MatchIndex resp ∧
      if Success resp then MatchIndex resp ≤ Z.of_nat (a_ack g (p, aer_Term resp))
      else MatchIndex resp ≤ 0 ∨ is_Some (a_leader g (aer_Term resp)) ∧
             MatchIndex resp ≤ Z.of_nat (length (a_llog g (aer_Term resp)))
  | Return _ (MSnapshotResp _ _) => False
  | _ => True
  end.

Record sim (fv : Votes) (won : Wins) (g : Abs) (s : Net) : Prop := {
  si_net : net_inv M fv won s;
  si_proto : protocol_inv M g;
  si_known : known_ok M g;
  si_vote n t c : fv !! (n, t) = Some c ↔ ∃ l, a_vote g (n, t) = Some (c, l);
  si_won t c : (t, c) ∈ won ↔ a_leader g t = Some c;
  si_llog t : is_Some (a_leader g t) →
    layout 0 (a_llog g t) ∧ Z.of_nat (length (a_llog g t)) + 1 < max_int64;
  si_nodes n r : nodes s !! n = Some r → n ∈ M ∧ node_rel g n r;
  si_soup p : p ∈ soup s → packet_rel g p
}.

(** ** The steps of other nodes *)

Lemma grows_llog_take n g g' t k :
  grows_abs n g g' → is_Some (a_leader g t) → (k ≤ length (a_llog g t))%nat →
  take k (a_llog g' t) = take k (a_llog g t).
Proof.
  intros Hg Hs Hk. destruct (ga_llog _ _ _ Hg t Hs) as [_ [x ->]]. by apply take_app_le.
Qed.

Lemma node_rel_grows n g g' m r :
  grows_abs n g g' → m ≠ n → node_rel g m r → node_rel g' m r.
Proof.
  intros Hg Hne [Rt Rf Rc Rs Rl Rk Ra Rv].
  pose proof (ga_term _ _ _ Hg m Hne) as Ht. pose proof (ga_log _ _ _ Hg m Hne) as Hl.
  split; rewrite ?Hl; try done.
  - congruence.
  - by eapply agreed_grows.
  - intros Hs. destruct (Rl Hs) as [H1 H2]. pose proof (ga_ack _ _ _ Hg) as Ha.
    split; [by etrans|]. intros p Hp Hpm. destruct (H2 p Hp Hpm) as [Hm Hn]. split; [|done].
    intros k Hk%Hm. specialize (Ha (p, currentTerm r)). lia.
  - intros Hs. destruct (Rk Hs) as [Hld Hk].
    rewrite (ga_known_other _ _ _ Hg _ m) by done. split; [by apply (ga_leader _ _ _ Hg)|done].
  - intros Hs. destruct (Ra Hs) as [Hv Hn]. split; [by apply (ga_vote _ _ _ Hg)|].
    intros Hld. apply Hn. by eapply (ga_new_leader _ _ _ Hg).
  - intros t i lt Hin. destruct (Rv t i lt Hin) as (l & Hv & Hi). exists l.
    split; [by apply (ga_vote _ _ _ Hg)|done].
Qed.

Lemma sent_grows n g g' req p :
  grows_abs n g g' → is_Some (a_leader g (ae_Term req)) → sent g req p → sent g' req p.
Proof.
  intros Hg Hs [Sp St Sl Se Sq Sc]. destruct (ga_llog _ _ _ Hg _ Hs) as [_ Hpre].
  pose proof (prefix_length _ _ Hpre).
  assert (Ht : ∀ k, (k ≤ length (a_llog g (ae_Term req)))%nat →
    take k (a_llog g' (ae_Term req)) = take k (a_llog g (ae_Term req)))
    by (intros k Hk; by eapply grows_llog_take).
  split; [done| |lia| | |].
  - rewrite St. symmetry. apply term_at_take, Ht. lia.
  - rewrite !Ht by lia. done.
  - etrans; [|exact Sq]. apply term_at_take, Ht. lia.
  - eapply agreed_grows; [exact Hg|done|]. eapply agreed_take; [|exact Sc]. apply Ht.
    by eapply agreed_length.
Qed.

Lemma packet_rel_grows n g g' p : grows_abs n g g' → packet_rel g p → packet_rel g' p.
Proof.
  intros Hg. destruct p as [src dst [] tracked|dst []]; simpl; try done.
  - intros (l & Hv & Hi). exists l. split; [by apply (ga_vote _ _ _ Hg)|done].
  - intros (Hne & Hs & Hp). split_and!; [done|by apply (ga_leader _ _ _ Hg)|].
    intros [q Hq]%Hp. exists q. by eapply sent_grows.
  - intros (Hne & Hge & Hr). split_and!; [done|done|]. destruct (Success resp).
    + pose proof (ga_ack _ _ _ Hg (peerID, aer_Term resp)). lia.
    + destruct Hr as [Hr|[Hs Hr]]; [by left|right]. destruct (ga_llog _ _ _ Hg _ Hs) as [Hs' Hpre].
      split; [done|]. apply prefix_length in Hpre. lia.
Qed.

(** The relation after the step of one node. *)
Lemma sim_assemble fv won fv' won' g g' s n r' ps :
  sim fv won g s → node_steps M n g g' →
  net_inv M fv' won' (mkNet (<[n := r']> (nodes s)) (soup s ++ ps)) →
  (∀ m t c, fv' !! (m, t) = Some c ↔ ∃ l, a_vote g' (m, t) = Some (c, l)) →
  (∀ t c, (t, c) ∈ won' ↔ a_leader g' t = Some c) →
  (∀ t, is_Some (a_leader g' t) →
     layout 0 (a_llog g' t) ∧ Z.of_nat (length (a_llog g' t)) + 1 < max_int64) →
  n ∈ M → node_rel g' n r' →
  (∀ p, p ∈ ps → packet_rel g' p) →
  sim fv' won' g' (mkNet (<[n := r']> (nodes s)) (soup s ++ ps)).
Proof.
  intros [_ Hp Hk _ _ _ Hn Hs] Hsteps Hnet Hv Hw Hl Hin Hr Hps.
  destruct (node_steps_inv M n g g' Hsteps Hp) as [Hp' Hg].
  pose proof (node_steps_known M n g g' Hsteps Hp Hk) as Hk'.
  split; [done..| |].
  - intros m rm. simpl. rewrite lookup_insert_Some. intros [[<- <-]|[Hne Hm]]; [done|].
    destruct (Hn m rm Hm) as [? ?]. split; [done|]. eapply node_rel_grows; [exact Hg|congruence|done].
  - intros p. simpl. rewrite elem_of_app. intros [Hin'|Hin']; [|by apply Hps].
    eapply packet_rel_grows; [exact Hg|by apply Hs].
Qed.

(** ** Votes and terms *)

Lemma election_term r r' ch :
  0 ≤ currentTerm r < max_int64 → election_step r r' ch →
  currentTerm r ≤ currentTerm r' ∧ (ch = CCampaign → currentTerm r' = currentTerm r + 1).
Proof.
  intros Hb He. assert (H1 : currentTerm r +! 1 = currentTerm r + 1).
  { apply int64_add_small. unfold is_int64, max_int64 in *. lia. }
  destruct He as [Hs Ht Hv Hr|Ht Hs Hv|c Hcase Hv Hr|l Ht Hv Hcase|Ht Hv Hr Hcase
                  |p Hs Ht Hv Hr Hcase]; split; try done; try lia.
Qed.

(** The abstract machine after the vote of a step, with the entries still to
    come. *)
Record vote_stage (n : string) (r' : Raft) (ch : change) (fv' : Votes) (g g1 : Abs) : Prop := {
  vs_steps : node_steps M n g g1;
  vs_term : a_term g1 n = currentTerm r';
  vs_log : a_log g1 = a_log g;
  vs_leader : a_leader g1 = a_leader g;
  vs_llog : a_llog g1 = a_llog g;
  vs_ack : a_ack g1 = a_ack g;
  vs_known : a_known g1 = a_known g;
  vs_vote m t c : fv' !! (m, t) = Some c ↔ ∃ l, a_vote g1 (m, t) = Some (c, l);
  vs_campaign : ch = CCampaign → a_vote g1 (n, currentTerm r') = Some (n, a_log g n)
}.

Lemma voted_term g n t votes : a_term (voted g n t votes) n = t.
Proof. unfold voted. simpl. apply fn_lookup_insert. Qed.

Lemma do_vote fv won g s n r r' ch fv' :
  sim fv won g s → nodes s !! n = Some r → 0 ≤ currentTerm r < max_int64 →
  election_step r r' ch → new_vote n r r' ch fv fv' →
  (∀ c, ch = CVote c →
     ∃ lc, a_vote g (c, currentTerm r') = Some (c, lc) ∧ up_to_date lc (a_log g n)) →
  ∃ g1, vote_stage n r' ch fv' g g1.
Proof.
  intros [_ Hg _ Hvote _ _ Hn _] Hr Hb He Hnv Hc. destruct (Hn n r Hr) as [_ [Rt _ _ _ _ _ _ _]].
  destruct (election_term r r' ch Hb He) as [Hle Hcamp]. unfold new_vote in Hnv.
  set (t := currentTerm r') in *.
  destruct Hnv as [[-> Hnc]|(c & Hf & -> & Hnew & Hch)].
  { exists (voted g n t (a_vote g)). split; try done.
    - apply rtc_once, ps_term. lia.
    - apply voted_term. }
  assert (Hnone : a_vote g (n, t) = None).
  { destruct (a_vote g (n, t)) as [[c' l]|] eqn:Hv; [|done].
    rewrite (proj2 (Hvote n t c')) in Hf by eauto. done. }
  assert (Hrel : ∀ m u d, <[(n, t) := c]> fv !! (m, u) = Some d ↔
    ∃ l, (<[(n, t) := Some (c, a_log g n)]> (a_vote g)) (m, u) = Some (d, l)).
  { intros m u d. rewrite fn_insert_at. destruct (decide ((n, t) = (m, u))) as [Heq|Hne].
    - rewrite <- Heq, lookup_insert_eq. split; [intros [= ->]; by eexists|by intros (l & [= -> _])].
    - rewrite lookup_insert_ne by done. apply Hvote. }
  exists (voted g n t (<[(n, t) := Some (c, a_log g n)]> (a_vote g))). split; try done.
  - apply rtc_once. destruct Hch as [->|[-> ->]].
    + destruct (Hc c eq_refl) as (lc & Hlc & Hup). apply (ps_vote M n g t c lc); (done || lia).
    + apply ps_campaign; [|done]. specialize (Hcamp eq_refl). lia.
  - apply voted_term.
  - intros ->. destruct Hch as [?|[_ ->]]; [done|]. simpl. by rewrite fn_lookup_insert.
Qed.

Lemma vote_stage_grows n r' ch fv' g g1 :
  protocol_inv M g → vote_stage n r' ch fv' g g1 → protocol_inv M g1 ∧ grows_abs n g g1.
Proof. intros Hg Hs. apply (node_steps_inv M n); [apply Hs|done]. Qed.

(** No election is won by a node that leads already, or does not lead. *)
Lemma no_new_win fv won n r r' won' :
  node_inv fv won n r → new_win n r' won won' →
  (state r' = Leader → state r = Leader ∧ currentTerm r' = currentTerm r) → won' = won.
Proof.
  intros Hi [?|(_ & Hno & Hs)] Hl; [done|]. destruct (Hl Hs) as [Hs' Ht]. rewrite Ht in Hno.
  by apply (ni_leader _ _ _ _ Hi) in Hs'.
Qed.

(** A node that wins may add to its log: nobody leads the term yet. *)
Lemma win_leading fv won g s n r r' ch fv' won' g1 :
  sim fv won g s → nodes s !! n = Some r → 0 ≤ currentTerm r < max_int64 →
  election_step r r' ch → vote_stage n r' ch fv' g g1 →
  won_inv M fv' won' → (currentTerm r', n) ∈ won' → new_win n r' won won' →
  state r ≠ Leader → state r' = Leader →
  leading M g1 n (a_term g1 n) ∧ a_leader g (currentTerm r') = None ∧
  won' = {[(currentTerm r', n)]} ∪ won.
Proof.
  intros Hsim Hr Hb He Hvs Hw Hin Hnw Hs Hs'. pose proof Hsim as [_ Hg _ _ Hwon _ Hn _].
  destruct (Hn n r Hr) as [_ [Rt _ _ _ _ _ Ra _]].
  destruct (vote_stage_grows _ _ _ _ _ _ Hg Hvs) as [Hg1 Hgr].
  set (t := currentTerm r') in *.
  assert (Hcase : (state r = Candidate ∧ t = currentTerm r) ∨ ch = CCampaign).
  { destruct He as [Hs1 Ht Hv Hr1|Ht Hs1 Hv|c Hcase Hv Hr1|l Ht Hv Hcase|Ht Hv Hr1 Hcase
                  |p Hs1 Ht Hv Hr1 Hcase]; try congruence; auto.
    - destruct Hcase as [[_ ?]|(_ & ? & _)]; congruence.
    - destruct Hcase as [?|(_ & ? & _)]; congruence. }
  assert (Hno : a_leader g t ≠ Some n).
  { destruct Hcase as [[Hc ->]| ->]; [by apply Ra|]. intros Hl.
    apply (leader_term M g Hg) in Hl. destruct (election_term r r' _ Hb He) as [_ Ht].
    specialize (Ht eq_refl). unfold t in *. lia. }
  assert (Hwon' : won' = {[(t, n)]} ∪ won).
  { destruct Hnw as [->|[-> _]]; [|done]. apply Hwon in Hin. done. }
  assert (Hnone : a_leader g t = None).
  { destruct (a_leader g t) as [c|] eqn:Hc; [|done]. apply Hwon in Hc.
    assert (c = n) as -> by (apply (won_inv_unique M fv' won' t); [done|set_solver|done]).
    by apply Hwon in Hc. }
  split; [|done]. right. rewrite (vs_term _ _ _ _ _ _ Hvs), (vs_leader _ _ _ _ _ _ Hvs),
    (vs_log _ _ _ _ _ _ Hvs). fold t. split_and!; [done| |].
  - destruct Hcase as [[Hc Ht]|Hc]; [|by apply (vs_campaign _ _ _ _ _ _ Hvs)].
    apply (ga_vote _ _ _ Hgr). rewrite Ht. by apply Ra.
  - destruct (Hw t n Hin) as (_ & Q & HQ & Hsz & Hv). exists Q. split; [by split|].
    intros v Hvq. apply (vs_vote _ _ _ _ _ _ Hvs). by apply Hv.
Qed.

(** ** The node after a step *)

Lemma dom_effective r p :
  steady_node M r → p ∈ dom (effectivePeers r) ↔ p ∈ M ∧ p ≠ node_id r.
Proof.
  intros [(c & Hc & HJ & HM) _]. unfold effectivePeers. rewrite Hc. simpl. rewrite HJ.
  rewrite elem_of_dom, lookup_add_nodes. rewrite <- HM. unfold members. rewrite elem_of_dom.
  case_bool_decide as Hp.
  - split; [by intros [? ?]|by intros [_ ?]].
  - destruct (NewPeers c !! p); [|by split; [intros [? ?]|intros [[? ?] _]]].
    split; [|by eexists]. split; [by eexists|done].
Qed.

Lemma calm_node s n r : calm M s → nodes s !! n = Some r →
  steady_node M r ∧ lastLogIndex r + 1 < max_int64 ∧ 0 ≤ currentTerm r < max_int64.
Proof.
  intros (Hst & Hm & _) Hr. pose proof (map_Forall_lookup_1 _ _ _ _ Hst Hr) as H1.
  pose proof (map_Forall_lookup_1 _ _ _ _ Hm Hr). split_and!; [done|done|apply H1..].
Qed.

(** The calls for votes carry the log the node has voted with. *)
Lemma calls_rel g n r r' ch fv' g1 :
  protocol_inv M g → node_rel g n r → vote_stage n r' ch fv' g g1 →
  (∀ c, c ∈ campaigns r' → c ∈ campaigns r ∨
     (ch = CCampaign ∧ c = (currentTerm r', lastLogIndex r, lastLogTerm r))) →
  ∀ t i lt, (t, i, lt) ∈ campaigns r' →
    ∃ l, a_vote g1 (n, t) = Some (n, l) ∧ i = Z.of_nat (length l) ∧ lt = last_term l.
Proof.
  intros Hg Hr Hvs Hcalls t i lt Hin. destruct (vote_stage_grows _ _ _ _ _ _ Hg Hvs) as [_ Hgr].
  pose proof (fl_repr _ _ (nr_full _ _ _ Hr)) as Hrepr.
  destruct (Hcalls _ Hin) as [Hold|[-> [= -> -> ->]]].
  - destruct (nr_calls _ _ _ Hr _ _ _ Hold) as (l & Hv & Hi). exists l.
    split; [by apply (ga_vote _ _ _ Hgr)|done].
  - exists (a_log g n). split_and!.
    + by apply (vs_campaign _ _ _ _ _ _ Hvs).
    + by apply repr_last.
    + by apply repr_last_term.
Qed.

(** A node that leaves its log as it is. *)
Lemma rel_same g n r r' ch fv' g1 :
  protocol_inv M g → node_rel g n r → 0 ≤ currentTerm r < max_int64 →
  election_step r r' ch → vote_stage n r' ch fv' g g1 →
  (∀ c, c ∈ campaigns r' → c ∈ campaigns r ∨
     (ch = CCampaign ∧ c = (currentTerm r', lastLogIndex r, lastLogTerm r))) →
  same_data r r' → same_progress r r' →
  (state r' = Leader → state r = Leader ∧ currentTerm r' = currentTerm r) →
  node_rel g1 n r'.
Proof.
  intros Hg Hr Hb He Hvs Hcalls Hd [Hnx Hmx] Hlead.
  destruct (vote_stage_grows _ _ _ _ _ _ Hg Hvs) as [Hg1 Hgr].
  pose proof (calls_rel _ _ _ _ _ _ _ Hg Hr Hvs Hcalls) as Hcalls'.
  destruct (election_term r r' ch Hb He) as [Hle Hcamp].
  destruct Hr as [Rt Rf Rc Rs Rl Rk Ra _]. split; rewrite ?(vs_log _ _ _ _ _ _ Hvs); try done.
  - apply (vs_term _ _ _ _ _ _ Hvs).
  - by apply (full_data _ r).
  - rewrite (sd_commit _ _ Hd). by eapply agreed_grows.
  - by rewrite Hnx.
  - intros Hs. destruct (Hlead Hs) as [Hs0 Ht]. rewrite (vs_ack _ _ _ _ _ _ Hvs), Ht, Hnx, Hmx.
    by apply Rl.
  - intros Hs. destruct (Hlead Hs) as [Hs0 Ht].
    rewrite (vs_leader _ _ _ _ _ _ Hvs), (vs_known _ _ _ _ _ _ Hvs), Ht, (sd_commit _ _ Hd).
    by apply Rk.
  - intros Hs. rewrite (vs_leader _ _ _ _ _ _ Hvs).
    assert (Hsame : state r = Candidate → currentTerm r' = currentTerm r →
      a_vote g1 (n, currentTerm r') = Some (n, a_log g n) ∧ a_leader g (currentTerm r') ≠ Some n).
    { intros Hs0 ->. destruct (Ra Hs0). split; [by apply (ga_vote _ _ _ Hgr)|done]. }
    destruct He as [Hs1 Ht Hv Hr1|Ht Hs1 Hv|c Hcase Hv Hr1|l Ht Hv Hcase|Ht Hv Hr1 Hcase
                  |p Hs1 Ht Hv Hr1 Hcase].
    + apply Hsame; congruence.
    + congruence.
    + destruct Hcase as [[_ ?]|(? & ? & _)]; [congruence|]. apply Hsame; congruence.
    + destruct Hcase as [?|(_ & ? & ?)]; congruence.
    + split; [by apply (vs_campaign _ _ _ _ _ _ Hvs)|]. intros Hl.
      apply (leader_term M g Hg) in Hl. specialize (Hcamp eq_refl). lia.
    + by apply Hsame.
Qed.

(** A node that leads with one more entry. *)
Lemma rel_win g1 n r r' e :
  protocol_inv M g1 → steady_node M r → node_id r = n → 0 ≤ commitIndex r →
  full (a_log g1 n) r → lastLogIndex r + 1 < max_int64 → a_term g1 n = currentTerm r' →
  agreed M g1 (currentTerm r') (Z.to_nat (commitIndex r)) (a_log g1 n) →
  nextIndex r !! n = None →
  leading M g1 n (a_term g1 n) → a_known g1 (currentTerm r') = O → Term e = currentTerm r' →
  (∀ t i lt, (t, i, lt) ∈ campaigns r' →
    ∃ l, a_vote g1 (n, t) = Some (n, l) ∧ i = Z.of_nat (length l) ∧ lt = last_term l) →
  snoc_data e r r' → new_progress r r' → state r' = Leader →
  node_rel (appended g1 n e) n r'.
Proof.
  intros Hg Hst Hid Hc0 HF Hm Ht Hag Hself Hl Hkn He Hcalls Hsn [Nn Nm No] Hs.
  pose proof (grows_appended M g1 Hg n e Hl) as Hgr.
  rewrite (repr_last _ _ (fl_repr _ _ HF)) in Hm.
  assert (Hlog : a_log (appended g1 n e) n = a_log g1 n ++ [e]).
  { rewrite app_log. by rewrite decide_True. }
  pose proof (agreed_length _ _ _ _ _ Hag) as Hlen.
  split; rewrite ?Hlog; try done.
  - by apply (full_snoc_data _ e r).
  - rewrite (sn_commit _ _ _ Hsn). eapply agreed_grows; [exact Hgr|done|].
    eapply agreed_take; [|exact Hag]. by apply take_app_le.
  - rewrite No; [done|]. rewrite dom_effective by done. by intros [_ ?].
  - intros _. rewrite app_ack, Ht, decide_True by done. rewrite length_app. split; [simpl; lia|].
    intros p Hp Hne. assert (Hdom : p ∈ dom (effectivePeers r)).
    { rewrite dom_effective by done. split; [done|congruence]. }
    rewrite Nn, Nm by done. split; [intros k [= <-]; lia|]. intros k [= <-].
    rewrite (repr_last _ _ (fl_repr _ _ HF)), int64_add_small; [simpl; lia|].
    unfold is_int64, max_int64 in *. lia.
  - intros _. rewrite app_leader, Ht, decide_True by done. split; [done|].
    change (a_known (appended g1 n e)) with (a_known g1).
    rewrite Hkn, (sn_commit _ _ _ Hsn). simpl. lia.
  - by rewrite Hs.
Qed.
End Relation.
