(* ===== verification/SimSteps.v ===== *)
(** * The steps of the cluster as steps of the protocol

    One lemma per kind of step: an election, a heartbeat or a timer
    ([sim_data_step]), a new entry of a leader ([sim_append]), entries that are
    accepted ([sim_accept]), an acknowledgement ([sim_ack]). *)

From stdpp Require Import functions.
From S2P Require Import Prelude Types Config Json Envelope Disk Wal SnapshotStore.
From S2P Require Import Node Roles Election Apply Replication Client Startup RunLoop.
From S2P Require Import NodeFacts ReplicationFacts StateMachine ApplyFacts ElectionFacts.
From S2P Require Import ReplicationSpec Cluster Schedule ElectionSafety RaftProtocol.
From S2P Require Import Answers Agreement FullLog LogSteps Simulation.

(** The state after [n] has stepped to [r'] and sent [ps]. *)
Abbreviation after_step s n r' ps := (mkNet (<[n := r']> (nodes s)) (soup s ++ ps)).

Section Steps.
Context {PC : ProtoCodec} {DL : Dialer}.
Context (M : gset string) (Hodd : Z.odd (Z.of_nat (size M)) = true).

Lemma calm_after s n r' ps :
  calm M (after_step s n r' ps) →
  plain_log r' ∧ lastLogIndex r' + 1 < max_int64 ∧ steady_node M r'.
Proof.
  intros Hc. destruct (calm_node M _ n r' Hc) as (Hst & Hm & _); [apply lookup_insert_eq|].
  split_and!; [apply Hst|done|done].
Qed.

(** What [si_llog] says after an entry of the leader. *)
Lemma llog_appended fv won g s g1 n r' e :
  sim M fv won g s → a_llog g1 = a_llog g →
  (∀ t, is_Some (a_leader g1 t) → t ≠ a_term g1 n → is_Some (a_leader g t)) →
  full (a_log g1 n ++ [e]) r' → lastLogIndex r' + 1 < max_int64 →
  ∀ t, is_Some (a_leader (appended g1 n e) t) →
    layout 0 (a_llog (appended g1 n e) t) ∧
    Z.of_nat (length (a_llog (appended g1 n e) t)) + 1 < max_int64.
Proof.
  intros Hsim Hll Hlead Hr Hm t. rewrite app_leader, app_llog.
  destruct (decide (a_term g1 n = t)) as [Heq|Hne].
  - intros _. pose proof (fl_repr _ _ Hr) as Hrepr.
    rewrite (repr_last _ _ Hrepr) in Hm. split; [apply Hrepr|done].
  - intros Hs. rewrite Hll. apply (si_llog _ _ _ _ _ Hsim). apply Hlead; [done|congruence].
Qed.

Lemma unknown g t : known_ok M g → a_leader g t = None → a_known g t = O.
Proof.
  intros Hk Hn. destruct (decide (a_known g t = O)) as [|Hne]; [done|].
  destruct (Hk t Hne) as [[c Hc] _]. congruence.
Qed.

Lemma sim_data_step fv won g s n r r' ch ps :
  sim M fv won g s → calm M s → calm M (after_step s n r' ps) → nodes s !! n = Some r →
  node_id r' = node_id r → election_step r r' ch →
  change_ok fv won n (currentTerm r') ch →
  (∀ c, c ∈ campaigns r' → c ∈ campaigns r ∨
     (ch = CCampaign ∧ c = (currentTerm r', lastLogIndex r, lastLogTerm r))) →
  data_step r r' →
  (∀ c, ch = CVote c →
     ∃ lc, a_vote g (c, currentTerm r') = Some (c, lc) ∧ up_to_date lc (a_log g n)) →
  (∀ fv' won', grows n fv fv' won won' → node_inv fv' won' n r' →
     (∀ c, ch = CVote c → counted fv' won' n (currentTerm r') c) →
     ∀ p, p ∈ ps → packet_inv fv' won' p) →
  (∀ g', grows_abs n g g' → protocol_inv M g' → node_rel M g' n r' →
     (state r' = Leader → a_leader g' (currentTerm r') = Some n) →
     ∀ p, p ∈ ps → packet_rel M g' p) →
  ∃ fv' won' g', node_steps M n g g' ∧ sim M fv' won' g' (after_step s n r' ps).
Proof.
  intros Hsim Hcalm Hcalm' Hr Hid He Hok Hcalls Hdata Hvote Hnet Hps.
  destruct (calm_node M s n r Hcalm Hr) as (Hst & Hm & Hb).
  destruct (calm_after s n r' ps Hcalm') as (Hpl & Hm' & Hst').
  pose proof Hsim as [Hinv Hg Hko Hv Hwon Hll Hn Hs]. destruct (Hn n r Hr) as [Hin Hrel].
  pose proof (proj1 Hinv n r Hr) as Hni.
  destruct (net_inv_step M Hodd fv won s n r r' ch ps) as (fv' & won' & Hgw & Hinv' & Hnv & Hnw);
    [done|apply Hcalm|done..|].
  destruct (do_vote M fv won g s n r r' ch fv' Hsim Hr Hb He Hnv Hvote) as (g1 & Hvs).
  destruct (vote_stage_grows M _ _ _ _ _ _ Hg Hvs) as [Hg1 Hgr].
  pose proof (calls_rel M _ _ _ _ _ _ _ Hg Hrel Hvs Hcalls) as Hcalls'.
  assert (Hni' : node_inv fv' won' n r') by (apply (proj1 Hinv' n r'); simpl; apply lookup_insert_eq).
  destruct Hdata as [Hd Hpr Hlead|e Hsn Hte Hnew Hs0 Hs1].
  - pose proof (no_new_win fv won n r r' won' Hni Hnw Hlead) as ->.
    pose proof (rel_same M g n r r' ch fv' g1 Hg Hrel Hb He Hvs Hcalls Hd Hpr Hlead) as Hrel'.
    exists fv', won, g1. split; [apply Hvs|].
    apply (sim_assemble M fv won fv' won g g1 s n r' ps); try done.
    + apply Hvs.
    + apply Hvs.
    + intros t c. by rewrite (vs_leader _ _ _ _ _ _ _ Hvs).
    + intros t. rewrite (vs_leader _ _ _ _ _ _ _ Hvs), (vs_llog _ _ _ _ _ _ _ Hvs). apply Hll.
    + intros p Hp. apply (Hps g1); try done. intros Hs1.
      rewrite (vs_leader _ _ _ _ _ _ _ Hvs). apply Hwon. by apply (ni_leader _ _ _ _ Hni').
  - destruct (win_leading M fv won g s n r r' ch fv' won' g1) as (Hl & Hnone & Hwon');
      try done; [apply Hinv'|by apply (ni_leader _ _ _ _ Hni')|].
    pose proof (vs_term _ _ _ _ _ _ _ Hvs) as Ht1.
    pose proof (grows_appended M g1 Hg1 n e Hl) as Hgr2.
    assert (Hlog : a_log g1 n = a_log g n) by (by rewrite (vs_log _ _ _ _ _ _ _ Hvs)).
    assert (Hrel' : node_rel M (appended g1 n e) n r').
    { apply (rel_win M g1 n r r' e); try done.
      - apply (ni_id _ _ _ _ Hni).
      - destruct (fl_ok _ _ (nr_full _ _ _ _ Hrel)) as [Hi _].
        destruct (re_wf _ _ (fl_repr _ _ (nr_full _ _ _ _ Hrel))) as (? & _). lia.
      - rewrite Hlog. apply Hrel.
      - rewrite Hlog. eapply agreed_grows; [exact Hgr| |apply Hrel].
        by destruct (election_term r r' ch Hb He).
      - apply Hrel.
      - rewrite (vs_known _ _ _ _ _ _ _ Hvs). by apply (unknown g). }
    assert (Hsteps : node_steps M n g (appended g1 n e)).
    { eapply rtc_r; [apply Hvs|]. apply ps_lead; [done|congruence]. }
    exists fv', won', (appended g1 n e). split; [done|].
    apply (sim_assemble M fv won fv' won' g _ s n r' ps); try done.
    + apply Hvs.
    + intros t c. rewrite app_leader, Ht1, (vs_leader _ _ _ _ _ _ _ Hvs), Hwon'.
      rewrite elem_of_union, elem_of_singleton, Hwon. case_decide as Heq.
      * rewrite <- Heq, Hnone. naive_solver.
      * naive_solver.
    + apply (llog_appended fv won g s g1 n r' e); try done.
      * apply Hvs.
      * intros t. by rewrite (vs_leader _ _ _ _ _ _ _ Hvs).
      * pose proof (nr_full _ _ _ _ Hrel') as HF. by rewrite app_log, decide_True in HF.
    + intros p Hp. apply (Hps (appended g1 n e)); try done.
      * by eapply grows_abs_trans.
      * by apply (proto_step_inv M n g1); [apply ps_lead; [done|congruence]|].
      * intros _. by rewrite app_leader, Ht1, decide_True.
Qed.

(** ** What a node sends *)

Lemma leader_last_term g t : protocol_inv M g → is_Some (a_leader g t) → last_term (a_llog g t) = t.
Proof.
  intros Hg [c Hc]. destruct (pi_leader M g Hg t c Hc) as (lc & x & Q & _ & -> & Hx & Ht & _).
  destruct (term_at_Some (lc ++ x) (length (lc ++ x))) as (e & He & Hte).
  { rewrite length_app. destruct x; [done|simpl; lia]. }
  unfold last_term. rewrite Hte. apply Ht. apply list_elem_of_lookup.
  exists (length x - 1)%nat. rewrite length_app in He.
  assert (0 < length x)%nat by (destruct x; [done|simpl; lia]).
  rewrite lookup_app_r in He by lia. rewrite <- He. f_equal. lia.
Qed.

(** The entries of a leader after a position of its log. *)
Lemma sent_intro g n r peer req p :
  protocol_inv M g → node_rel M g n r → state r = Leader →
  a_leader g (currentTerm r) = Some n →
  (p ≤ length (a_log g n))%nat →
  req = mkAppendEntriesRequest (currentTerm r) peer (Z.of_nat p) (term_at (a_log g n) p)
          (drop p (a_log g n)) (commitIndex r) →
  sent M g req p.
Proof.
  intros Hg Hr Hs Hl Hp ->.
  assert (Hlog : a_log g n = a_llog g (currentTerm r)).
  { apply (pi_leader_log M g Hg); [done|apply Hr]. }
  pose proof (nr_commit _ _ _ _ Hr) as Hc. rewrite Hlog in *.
  assert (Hlen : (p + length (drop p (a_llog g (currentTerm r))) =
    length (a_llog g (currentTerm r)))%nat) by (rewrite length_drop; lia).
  split; cbn [PrevLogIndex PrevLogTerm Entries ae_Term LeaderCommit]; rewrite ?Hlen; try done.
  - rewrite take_ge by lia. by rewrite take_drop.
  - apply (leader_last_term g); [done|by eexists].
Qed.

Lemma calls_packet_rel g n r ev out r' :
  protocol_inv M g → node_rel M g n r' → node_id r' = n →
  (state r' = Leader → a_leader g (currentTerm r') = Some n) →
  handle ev r = (out, r') → ∀ p, p ∈ calls n out r' → packet_rel M g p.
Proof.
  intros Hg Hr Hid Hlead He p Hp.
  subst n. destruct ev; simpl in He;
    try (injection He as <- <-; by apply elem_of_nil in Hp).
  - destruct (handleRPC msg r) as [resp r2]. injection He as <- <-. by apply elem_of_nil in Hp.
  - unfold replicateToPeer in He. destruct (bool_decide (state r ≠ Leader)) eqn:Hs;
      [injection He as <- <-; by apply elem_of_nil in Hp|].
    apply bool_decide_eq_false, dec_stable in Hs.
    destruct (Z.leb_spec (lookup_int (nextIndex r) peer) (lastIncludedIndex r)) as [|Hnext];
      injection He as <- <-; [by apply elem_of_nil in Hp|].
    cbn [calls] in Hp. apply list_elem_of_fmap in Hp as (req & -> & Hreq%elem_of_to_list).
    apply with_connection_Ok in Hreq as ->. simpl.
    pose proof (nr_full _ _ _ _ Hr) as HF. pose proof (fl_repr _ _ HF) as Hrepr.
    pose proof (repr_base _ _ Hrepr) as Hb. pose proof (repr_last _ _ Hrepr) as Hlast.
    pose proof (repr_room _ _ Hrepr) as Hroom.
    unfold lookup_int in *. destruct (nextIndex r !! peer) as [k|] eqn:Hk; simpl in *; [|lia].
    split_and!; [|by apply Hlead|].
    { intros ->. rewrite (nr_self _ _ _ _ Hr) in Hk. done. }
    intros HM. destruct (nr_leader _ _ _ _ Hr Hs) as [_ Hpeers].
    assert (Hne : peer ≠ node_id r).
    { intros ->. rewrite (nr_self _ _ _ _ Hr) in Hk. done. }
    destruct (Hpeers peer HM Hne) as [_ Hle]. specialize (Hle k Hk).
    assert (Hk1 : k -! 1 = k - 1) by (apply int64_sub_small; unfold is_int64, max_int64 in *; lia).
    exists (Z.to_nat (k - 1)). apply (sent_intro g (node_id r) r (node_id r)); try done; [auto|lia|].
    rewrite Hk1. f_equal.
    + lia.
    + rewrite <- (repr_entry_term _ _ Hrepr) by (unfold max_int64 in *; lia). f_equal. lia.
    + destruct (Z.leb_spec k (lastLogIndex r)).
      * replace k with (Z.of_nat (Z.to_nat k)) at 1 by lia.
        rewrite (repr_range _ _ Hrepr) by lia. f_equal. lia.
      * rewrite drop_ge by lia. done.
  - unfold sendSnapshotToPeer in He. destruct (bool_decide (state r ≠ Leader)) eqn:Hs;
      [injection He as <- <-; by apply elem_of_nil in Hp|].
    destruct (LoadSnapshot _ _) as [[[snap|]|] d]; injection He as <- <-;
      try (by apply elem_of_nil in Hp).
    cbn [calls] in Hp. apply list_elem_of_In, in_flat_map in Hp as (i & _ & Hp).
    apply list_elem_of_In in Hp. destruct (chunk_at _ i) as [[o data] fin].
    by apply list_elem_of_fmap in Hp as (req & -> & Hreq%elem_of_to_list).
Qed.

Lemma goroutine_packet_rel g n r e p :
  node_rel M g n r → node_id r = n → e ∈ effects r → p ∈ goroutine n e r → packet_rel M g p.
Proof.
  intros Hr Hid He Hp. destruct e as [| |peer t i lt| | | |]; simpl in Hp;
    try (by apply elem_of_nil in Hp);
    apply list_elem_of_fmap in Hp as (req & -> & Hreq%elem_of_to_list); [done|];
    apply with_connection_Ok in Hreq as ->.
  simpl. rewrite Hid. apply (nr_calls _ _ _ _ Hr). unfold campaigns. apply list_elem_of_omap.
  by eexists.
Qed.

Lemma confirm_packet_rel g n r t p :
  protocol_inv M g → node_rel M g n r → node_id r = n → steady_node M r →
  (state r = Leader → a_leader g (currentTerm r) = Some n) →
  p ∈ confirm_calls n t r → packet_rel M g p.
Proof.
  intros Hg Hr Hid Hst Hlead Hp. unfold confirm_calls, confirm_requests in Hp.
  destruct (bool_decide (state r ≠ Leader) || negb (currentTerm r =? t)) eqn:Hc;
    [by apply elem_of_nil in Hp|].
  apply orb_false_iff in Hc as [Hs Ht]. apply bool_decide_eq_false, dec_stable in Hs.
  apply negb_false_iff, Z.eqb_eq in Ht.
  apply list_elem_of_In, in_flat_map in Hp as (q & Hq & Hp).
  apply in_map_iff in Hq as ([peer a] & <- & Hpeer). apply list_elem_of_In in Hp.
  apply list_elem_of_fmap in Hp as (req & -> & Hreq%elem_of_to_list).
  apply with_connection_Ok in Hreq as ->. simpl.
  pose proof (fl_repr _ _ (nr_full _ _ _ _ Hr)) as Hrepr.
  apply list_elem_of_In, elem_of_map_to_list in Hpeer.
  assert (Hdom : peer ∈ dom (effectivePeers r)) by (apply elem_of_dom; by eexists).
  apply (dom_effective M r peer Hst) in Hdom as [HM Hne]. rewrite <- Ht.
  split_and!; [congruence|by apply Hlead|]. intros _. exists (length (a_log g n)).
  apply (sent_intro g n r (node_id r)); try done; [by apply Hlead|].
  rewrite (repr_last _ _ Hrepr), (repr_last_term _ _ Hrepr), drop_all. done.
Qed.

(** ** Steps that leave role, term and vote *)

Lemma net_same_role fv won g s n r r' ps :
  sim M fv won g s → calm M s → nodes s !! n = Some r → same_role r r' → plain_log r' →
  (∀ fv' won' p, p ∈ ps → packet_inv fv' won' p) →
  net_inv M fv won (after_step s n r' ps).
Proof.
  intros Hsim Hcalm Hr [Ri Rs Rt Rv Rvs Rc] Hpl Hps. pose proof (si_net _ _ _ _ _ Hsim) as Hinv.
  destruct (net_inv_step M Hodd fv won s n r r' CNone ps) as (fv' & won' & _ & Hinv' & Hnv & Hnw).
  - done.
  - apply Hcalm.
  - done.
  - done.
  - done.
  - by constructor.
  - done.
  - intros fv' won' _ _ _ p. apply Hps.
  - destruct Hnv as [[-> _]|(c & _ & _ & _ & [?|[? _]])]; [|done..].
    rewrite (no_new_win fv won n r r' won') in Hinv'; [done|by apply (proj1 Hinv)|done|].
    intros Hs. split; congruence.
Qed.

(** The machine with what the leaders know of. *)
Definition knowing (g : Abs) (kn : Z → nat) : Abs := g <| a_known := kn |>.

Lemma knowing_same g : knowing g (a_known g) = g.
Proof. by destruct g. Qed.

(** The leader [n] of the term [t] learns of a commitment, or of none. *)
Lemma learn g n t k :
  a_leader g t = Some n → committed M g t k → (a_known g t ≤ k)%nat →
  ∃ kn, node_steps M n g (knowing g kn) ∧ kn t = k ∧
    agreed M (knowing g kn) t k (a_llog g t).
Proof.
  intros Hl Hc Hk. exists (<[t := k]> (a_known g)). split; [|split].
  - apply rtc_once. by apply (ps_commit M n g t k).
  - apply fn_lookup_insert.
  - right. exists t, k. split; [done|]. split; [exact Hc|]. split; [done|]. split; [done|].
    simpl. by rewrite fn_lookup_insert.
Qed.

(** The machine at most learns of a commitment, the node has moved to a related
    state. *)
Lemma sim_stay fv won g kn s n r r' ps :
  sim M fv won g s → calm M s → nodes s !! n = Some r → same_role r r' → plain_log r' →
  node_steps M n g (knowing g kn) →
  node_rel M (knowing g kn) n r' → (∀ fv' won' p, p ∈ ps → packet_inv fv' won' p) →
  (∀ p, p ∈ ps → packet_rel M g p) →
  sim M fv won (knowing g kn) (after_step s n r' ps).
Proof.
  intros Hsim Hcalm Hr Hrole Hpl Hst Hrel Hps Hps'. pose proof Hsim as [Hinv Hg Hko Hv Hwon Hll Hn _].
  destruct (Hn n r Hr) as [Hin _]. destruct (node_steps_inv M n _ _ Hst Hg) as [_ Hgr].
  apply (sim_assemble M fv won fv won g (knowing g kn) s n r' ps); try done.
  - by eapply net_same_role.
  - intros p Hp%Hps'. by eapply packet_rel_grows.
Qed.

(** The node alone commits what it has. *)
Lemma alone_committed g n r k :
  steady_node M r → node_id r = n → effectivePeers r = ∅ →
  a_leader g (currentTerm r) = Some n → (1 ≤ k ≤ length (a_llog g (currentTerm r)))%nat →
  term_at (a_llog g (currentTerm r)) k = currentTerm r →
  (k ≤ a_ack g (n, currentTerm r))%nat → committed M g (currentTerm r) k.
Proof.
  intros Hst Hid He Hl Hk Ht Ha. pose proof (no_peers_steady M Hodd r Hst He) as HM.
  split_and!; [by eexists|lia|lia|done|]. exists M. split.
  - split; [done|]. rewrite HM, size_singleton. lia.
  - intros v. rewrite HM, elem_of_singleton, Hid. by intros ->.
Qed.

Lemma sim_append fv won g s n r r' e :
  sim M fv won g s → calm M s → calm M (after_step s n r' []) → nodes s !! n = Some r →
  same_role r r' → state r = Leader → Term e = currentTerm r →
  full (a_log g n ++ [e]) r' → same_progress r r' →
  (commitIndex r' = commitIndex r ∨
   effectivePeers r = ∅ ∧ commitIndex r' = Z.of_nat (length (a_log g n)) + 1) →
  ∃ kn, node_steps M n g (knowing (appended g n e) kn) ∧
    sim M fv won (knowing (appended g n e) kn) (after_step s n r' []).
Proof.
  intros Hsim Hcalm Hcalm' Hr Hrole Hs He HF [Hnx Hmx] Hc.
  destruct (calm_after s n r' [] Hcalm') as (Hpl & Hm' & _).
  destruct (calm_node M s n r Hcalm Hr) as (Hst & _).
  pose proof Hsim as [Hinv Hg Hko Hv Hwon Hll Hn _]. destruct (Hn n r Hr) as [Hin Hrel].
  pose proof (proj1 Hinv n r Hr) as Hni. pose proof Hrel as [Rt Rf Rc Rs Rl Rk Ra Rv].
  assert (Hl : a_leader g (a_term g n) = Some n).
  { rewrite Rt. apply Hwon. by apply (ni_leader _ _ _ _ Hni). }
  assert (Hlead : leading M g n (a_term g n)) by (by left).
  pose proof (grows_appended M g Hg n e Hlead) as Hgr.
  pose proof (pi_leader_log M g Hg _ _ Hl eq_refl) as Hlog.
  assert (Hstep : node_steps M n g (appended g n e)) by (apply rtc_once, ps_lead; [done|congruence]).
  assert (Hlog' : a_log (appended g n e) n = a_log g n ++ [e]).
  { rewrite app_log. by rewrite decide_True. }
  assert (Hllog : a_llog (appended g n e) (currentTerm r) = a_log g n ++ [e]).
  { by rewrite app_llog, Rt, decide_True. }
  assert (Hlead' : a_leader (appended g n e) (currentTerm r) = Some n).
  { by rewrite app_leader, Rt, decide_True. }
  assert (Hack : (length (a_log g n ++ [e]) ≤ a_ack (appended g n e) (n, currentTerm r))%nat).
  { rewrite app_ack, Rt, decide_True by done. rewrite length_app. simpl. lia. }
  pose proof (agreed_length _ _ _ _ _ Rc) as Hlen. destruct (Rk Hs) as [_ Hkn].
  assert (∃ kn, node_steps M n (appended g n e) (knowing (appended g n e) kn) ∧
    Z.of_nat (kn (currentTerm r)) ≤ commitIndex r' ∧
    agreed M (knowing (appended g n e) kn) (currentTerm r) (Z.to_nat (commitIndex r'))
      (a_log g n ++ [e])) as (kn & Hst2 & Hkn2 & Hag).
  { destruct Hc as [Hc|[He0 Hc]].
    - exists (a_known (appended g n e)). rewrite knowing_same, Hc. split_and!; [done|done|].
      eapply agreed_grows; [exact Hgr|done|].
      eapply agreed_take; [|exact Rc]. by apply take_app_le.
    - destruct (learn (appended g n e) n (currentTerm r) (length (a_log g n ++ [e])))
        as (kn & H1 & H2 & H3); [done| | |].
      + apply (alone_committed _ n r); try done.
        * apply (ni_id _ _ _ _ Hni).
        * rewrite Hllog, length_app. simpl. lia.
        * rewrite Hllog, length_app. simpl. rewrite Nat.add_1_r. simpl.
          by rewrite lookup_app_r, Nat.sub_diag by lia.
      + change (a_known (appended g n e)) with (a_known g). rewrite length_app. simpl.
        destruct (fl_ok _ _ (nr_full _ _ _ _ Hrel)) as [_ Hcl].
        rewrite (repr_last _ _ (fl_repr _ _ (nr_full _ _ _ _ Hrel))) in Hcl. lia.
      + exists kn. rewrite Hllog in H3. rewrite H2, Hc, length_app. simpl.
        split; [done|]. split; [lia|]. eapply agreed_le; [|exact H3]. rewrite length_app. simpl. lia. }
  assert (Hsteps : node_steps M n g (knowing (appended g n e) kn)) by (by etrans).
  destruct (node_steps_inv M n _ _ Hsteps Hg) as [_ Hgr2].
  assert (Hnet : net_inv M fv won (after_step s n r' [])).
  { apply (net_same_role fv won g s n r r' []); try done. by intros ? ? p Hp%elem_of_nil. }
  destruct Hrole as [Hi Hst' Ht Hvf Hvr Hcp]. rewrite <- Ht in *.
  change (a_log (appended g n e) n) with (a_log (knowing (appended g n e) kn) n) in Hlog'.
  assert (Hrel' : node_rel M (knowing (appended g n e) kn) n r').
  { split; rewrite ?Hlog'; try done.
    - by rewrite Hnx.
    - intros _. split; [done|]. intros p Hp Hne. rewrite Ht in *. destruct (Rl Hs) as [_ Hpeers].
      destruct (Hpeers p Hp Hne) as [Hma Hne']. rewrite Hmx, Hnx. split.
      + intros k Hk0%Hma. pose proof (ga_ack _ _ _ Hgr2 (p, currentTerm r)). lia.
      + intros k Hk0%Hne'. rewrite length_app. simpl. lia.
    - congruence.
    - intros t i lt. rewrite Hcp. apply Rv. }
  exists kn. split; [done|].
  apply (sim_assemble M fv won fv won g _ s n r' []); try done.
  - intros t c. change (a_leader (knowing _ _)) with (a_leader (appended g n e)).
    rewrite app_leader, Hwon. case_decide as Heq; [|done]. rewrite <- Heq, Hl. done.
  - by apply (llog_appended fv won g s g n r' e).
  - intros p Hp. by apply elem_of_nil in Hp.
Qed.

(** ** Acknowledgements *)

Lemma replicated_at_spec k r v :
  lookup_bool (replicated_at k r) v = true →
  v = node_id r ∨ ∃ m, matchIndex r !! v = Some m ∧ k ≤ m.
Proof.
  unfold replicated_at.
  apply (map_fold_weak_ind (λ votes mt, lookup_bool votes v = true →
    v = node_id r ∨ ∃ m, mt !! v = Some m ∧ k ≤ m)).
  - unfold lookup_bool. intros H. left. destruct (decide (v = node_id r)) as [|Hne]; [done|].
    by rewrite lookup_singleton_ne in H.
  - intros p m mt votes Hp IH. destruct (Z.leb_spec k m) as [Hle|_].
    + unfold lookup_bool. destruct (decide (p = v)) as [->|Hne].
      * intros _. right. exists m. split; [by rewrite lookup_insert_eq|done].
      * rewrite lookup_insert_ne by done. intros H. destruct (IH H) as [?|(x & Hx & ?)]; [by left|].
        right. exists x. split; [by rewrite lookup_insert_ne|done].
    + intros H. destruct (IH H) as [?|(x & Hx & ?)]; [by left|]. right. exists x.
      split; [|done]. rewrite lookup_insert_ne; [done|]. intros ->. by rewrite Hp in Hx.
Qed.

(** The commit rule of a leader commits, in the protocol. *)
Lemma majority_committed g n r k :
  protocol_inv M g → steady_node M r → node_id r = n → node_rel M g n r → state r = Leader →
  a_leader g (currentTerm r) = Some n → (1 ≤ k ≤ length (a_log g n))%nat →
  committable (Z.of_nat k) r → (base r ≤ k)%nat → committed M g (currentTerm r) k.
Proof.
  intros Hg Hst Hid Hr Hs Hl Hk [Ht Hmaj] Hb.
  pose proof (fl_repr _ _ (nr_full _ _ _ _ Hr)) as Hrepr. pose proof (repr_room _ _ Hrepr).
  assert (Hlog : a_log g n = a_llog g (currentTerm r)).
  { apply (pi_leader_log M g Hg); [done|apply Hr]. }
  destruct (nr_leader _ _ _ _ Hr Hs) as [Hself Hpeers].
  rewrite (repr_entry_term _ _ Hrepr) in Ht by (unfold max_int64 in *; lia).
  unfold committed. rewrite <- Hlog. split_and!; [by eexists|lia|lia|done|].
  exists (voters_of M (replicated_at (Z.of_nat k) r)). split.
  - split; [unfold voters_of; set_solver|]. apply (vote_majority_steady M Hodd r); [done|].
    destruct Hst as [(c & Hc & _) _]. unfold checkCommitMajority in Hmaj. unfold vote_majority.
    by rewrite Hc in *.
  - intros v Hv. unfold voters_of in Hv. apply elem_of_filter in Hv as [Hv HvM].
    destruct (decide (v = n)) as [->|Hne]; [lia|].
    apply replicated_at_spec in Hv as [?|(m & Hm & Hle)]; [congruence|].
    destruct (Hpeers v HvM Hne) as [Hma _]. specialize (Hma m Hm). lia.
Qed.

(** The node relation of a leader that has noted an answer of [peer]. *)
Lemma rel_progress g n r r3 peer i m :
  node_rel M g n r → state r = Leader → same_data r r3 → quiet r r3 → peer ≠ n →
  matchIndex r3 = m →
  (∀ p k, p ≠ n → m !! p = Some k → matchIndex r !! p = Some k ∨
     k ≤ Z.of_nat (a_ack g (p, currentTerm r))) →
  nextIndex r3 = <[peer := i]> (nextIndex r) → i ≤ Z.of_nat (length (a_log g n)) + 1 →
  node_rel M g n r3.
Proof.
  intros Hr Hs Hd [Qi Qs Qt Qv Qr Qp Qc] Hne Hm Hmk Hn Hi.
  destruct Hr as [Rt Rf Rc Rs Rl Rk Ra Rv].
  split; rewrite ?Qt, ?Qc, ?Qs, ?Hn, ?Hm; try done.
  - by apply (full_data _ r).
  - by rewrite (sd_commit _ _ Hd).
  - by rewrite lookup_insert_ne.
  - intros _. destruct (Rl Hs) as [Hself Hpeers]. split; [done|].
    intros p Hp Hpn. destruct (Hpeers p Hp Hpn) as [Hma Hnx]. split.
    + intros k Hk. destruct (Hmk p k Hpn Hk) as [?|?]; [auto|done].
    + intros k. rewrite lookup_insert_Some. intros [[_ <-]|[_ Hk]]; auto.
  - by rewrite (sd_commit _ _ Hd).
Qed.

(** A leader looks at the entries above its commit index: what it commits is
    held by a majority, and the machine learns it. *)
Lemma leader_commits g n r :
  let r' := for_each (index_range (commitIndex r + 1) (lastLogIndex r)) try_commit r in
  protocol_inv M g → steady_node M r → plain_log r → node_id r = n → node_rel M g n r →
  state r = Leader →
  ∃ kn, node_steps M n g (knowing g kn) ∧ node_rel M (knowing g kn) n r' ∧ quiet r r' ∧
    answers (a_log g n) (commitIndex r') [] r r'.
Proof.
  intros r' Hg Hst Hpl Hid Hrel Hs. pose proof (nr_full _ _ _ _ Hrel) as HF.
  pose proof (fl_repr _ _ HF) as Hrepr. destruct (nr_known _ _ _ _ Hrel Hs) as [Hl Hkn].
  assert (Hlog : a_log g n = a_llog g (currentTerm r)).
  { apply (pi_leader_log M g Hg); [done|apply Hrel]. }
  destruct (commit_loop (Z.to_nat (lastLogIndex r - (commitIndex r + 1) + 1))
    (commitIndex r + 1) r) as (Hf & Hor & _); [apply Hrepr|apply HF|done|lia|done|].
  destruct (full_commit_loop (Z.to_nat (Z.of_nat (length (a_log g n)) - (commitIndex r + 1) + 1))
    (a_log g n) (commitIndex r + 1) r HF Hpl ltac:(lia) eq_refl) as (HF' & _ & Ha).
  rewrite <- (repr_last _ _ Hrepr) in HF', Ha. fold r' in Hf, Hor, HF', Ha.
  assert (Hq : quiet r r').
  { apply quiet_for_each; [done|]. intros. by apply quiet_try_commit. }
  assert (Hag : ∃ kn, node_steps M n g (knowing g kn) ∧
    Z.of_nat (kn (currentTerm r)) ≤ commitIndex r' ∧
    agreed M (knowing g kn) (currentTerm r) (Z.to_nat (commitIndex r')) (a_log g n)).
  { destruct Hor as [Hsame|(Hlo & Hco & _)].
    - exists (a_known g). rewrite knowing_same, Hsame. split_and!; [done|done|]. apply Hrel.
    - destruct (fl_ok _ _ HF') as [_ Hcl]. rewrite (repr_last _ _ (fl_repr _ _ HF')) in Hcl.
      pose proof (repr_base _ _ Hrepr) as Hb. destruct (fl_ok _ _ HF) as [[Hi1 Hi2] _].
      destruct (learn g n (currentTerm r) (Z.to_nat (commitIndex r'))) as (kn & H1 & H2 & H3);
        [done| |lia|].
      + apply (majority_committed g n r); try done; [lia| |lia]. by rewrite Z2Nat.id by lia.
      + exists kn. rewrite <- Hlog in H3. split_and!; [done|rewrite H2; lia|done]. }
  destruct Hag as (kn & Hst2 & Hkn' & Hag). exists kn. split; [done|]. split; [|done].
  destruct Hf as [_ _ [Fi Ft Fs Fc Fp Fm Fn _] Hcm]. destruct Hrel as [Rt Rf Rc Rs Rl Rk Ra Rv].
  split; rewrite ?Ft, ?Fs, ?Fn, ?Fm; try done.
  intros t i lt. rewrite (q_calls _ _ Hq). apply Rv.
Qed.

Lemma sim_ack fv won g s n r peer resp :
  let r' := processAppendEntriesResponse peer resp r in
  sim M fv won g s → calm M s → calm M (after_step s n r' []) → nodes s !! n = Some r →
  state r = Leader → aer_Term resp = currentTerm r →
  packet_rel M g (Return n (MAppendResp peer resp)) →
  ∃ kn, node_steps M n g (knowing g kn) ∧ sim M fv won (knowing g kn) (after_step s n r' []) ∧
    answers (a_log g n) (commitIndex r') [] r r'.
Proof.
  intros r' Hsim Hcalm Hcalm' Hr Hs Ht (Hne & Hge & Hresp).
  destruct (calm_after s n r' [] Hcalm') as (Hpl' & _).
  destruct (calm_node M s n r Hcalm Hr) as (Hst & Hm & _).
  pose proof Hsim as [Hinv Hg Hko Hv Hwon Hll Hn _]. destruct (Hn n r Hr) as [Hin Hrel].
  pose proof (proj1 Hinv n r Hr) as Hni. pose proof (ni_plain _ _ _ _ Hni) as Hpl.
  pose proof (fl_repr _ _ (nr_full _ _ _ _ Hrel)) as Hrepr.
  pose proof (repr_last _ _ Hrepr) as Hlast. destruct (nr_known _ _ _ _ Hrel Hs) as [Hl _].
  assert (Hlog : a_log g n = a_llog g (currentTerm r)).
  { apply (pi_leader_log M g Hg); [done|apply Hrel]. }
  assert (MatchIndex resp +! 1 = MatchIndex resp + 1 ∧
    MatchIndex resp ≤ Z.of_nat (length (a_log g n))) as [Hi1 Hle].
  { assert (MatchIndex resp ≤ Z.of_nat (length (a_log g n))).
    { rewrite Hlog, <- Ht. destruct (Success resp).
      - pose proof (pi_ack M g Hg peer (aer_Term resp)). lia.
      - destruct Hresp as [?|[_ ?]]; lia. }
    split; [|done]. apply int64_add_small. unfold is_int64, max_int64 in *. lia. }
  assert (Hgoal : ∀ kn, node_steps M n g (knowing g kn) → same_role r r' →
    node_rel M (knowing g kn) n r' → sim M fv won (knowing g kn) (after_step s n r' [])).
  { intros kn Hst2 Hrole Hrel'. apply (sim_stay fv won g kn s n r r' []); try done.
    - intros ? ? p Hp. by apply elem_of_nil in Hp.
    - intros p Hp. by apply elem_of_nil in Hp. }
  destruct (Success resp) eqn:Hok.
  - destruct (append_response_ok peer resp r Hs Ht Hok)
      as (r3 & Heq & Hd & Hq & Hsl & Hcf & Hpe & Hma & Hnx). fold r' in Heq.
    assert (Hrel3 : node_rel M g n r3).
    { apply (rel_progress g n r r3 peer (MatchIndex resp +! 1) (matchIndex r3)); try done; [|lia].
      intros p k Hp. rewrite Hma, lookup_insert_Some. intros [[<- <-]|[_ Hk]]; [right|by left].
      by rewrite <- Ht. }
    assert (Hlo : commitIndex r +! 1 = commitIndex r3 + 1).
    { rewrite (sd_commit _ _ Hd). destruct (fl_ok _ _ (nr_full _ _ _ _ Hrel)) as [[Hi2 Hi3] Hi4].
      destruct (re_wf _ _ Hrepr) as (? & _). apply int64_add_small.
      unfold is_int64, max_int64 in *. lia. }
    rewrite Hlo, Hlast, <- (repr_last _ _ (fl_repr _ _ (nr_full _ _ _ _ Hrel3))) in Heq.
    pose proof Hq as [Qi Qs Qt _ _ Qp _].
    destruct (leader_commits g n r3) as (kn & Hst2 & Hrel' & Hq' & Ha'); rewrite <- ?Heq in *;
      [done| |by apply Qp|by rewrite Qi; apply (ni_id _ _ _ _ Hni)|done|by rewrite Qs|].
    { unfold steady_node in *. by rewrite Hcf, Qt, (sd_log _ _ Hd). }
    exists kn. split; [done|]. split; [|by eapply answers_trans; [apply answers_silent|]].
    apply Hgoal; [done| |done]. apply same_role_quiet. by eapply quiet_trans.
  - destruct (append_response_refused peer resp r Hs Ht Hok) as (Hd & Hq & Hsl & Hma & Hnx).
    fold r' in Hd, Hq, Hsl, Hma, Hnx. exists (a_known g).
    split; [by rewrite knowing_same|]. split; [|by apply answers_silent].
    apply Hgoal; [by rewrite knowing_same|by apply same_role_quiet|]. rewrite knowing_same.
    apply (rel_progress g n r r' peer (Z.max 1 (MatchIndex resp +! 1)) (matchIndex r)); try done;
      [by left|lia].
Qed.
End Steps.
