(* ===== verification/SimAccept.v ===== *)
(** * Entries a follower accepts, as a step of the protocol

    [accept_ready]: a request of the leader that passes the consistency check
    of [processAppendEntries] enables [ps_accept], and the merge it makes
    leaves what the node has committed.  [sim_accept] is the step. *)

From stdpp Require Import functions.
From S2P Require Import Prelude Types Config Json Envelope Disk Wal SnapshotStore.
From S2P Require Import Node Roles Election Apply Replication Client Startup RunLoop.
From S2P Require Import NodeFacts ReplicationFacts StateMachine ApplyFacts ElectionFacts.
From S2P Require Import ReplicationSpec Cluster Schedule ElectionSafety RaftProtocol.
From S2P Require Import Answers Agreement FullLog LogSteps Simulation SimSteps.

Section Accept.
Context {PC : ProtoCodec} {DL : Dialer}.
Context (M : gset string) (g : Abs) (n : string) (r : Raft) (req : AppendEntriesRequest) (p : nat).
Context (Hg : protocol_inv M g) (Hrel : node_rel M g n r) (Hsent : sent M g req p).
Context (Hlead : is_Some (a_leader g (ae_Term req))).
Context (Hlay : layout 0 (a_llog g (ae_Term req)))
        (Hroom : Z.of_nat (length (a_llog g (ae_Term req))) + 1 < max_int64).
Context (Hother : state r = Leader → currentTerm r < ae_Term req).
Context (Hterm : currentTerm r ≤ ae_Term req) (Hprev : PrevLogIndex req ≤ lastLogIndex r).
Context (Hmatch : lastIncludedIndex r ≤ PrevLogIndex req →
                  getEntryTerm r (PrevLogIndex req) = PrevLogTerm req).
Let l := a_log g n.
Let ll := a_llog g (ae_Term req).
Let es := Entries req.
Let c := Z.to_nat (commitIndex r).
Let Hrepr : repr l r := fl_repr _ _ (nr_full _ _ _ _ Hrel).

Lemma accept_indices :
  (p ≤ length l)%nat ∧ (base r ≤ c ≤ length l)%nat ∧ (p + length es ≤ length ll)%nat.
Proof using All.
  destruct (fl_ok _ _ (nr_full _ _ _ _ Hrel)) as [[H1 H2] H3].
  pose proof (repr_base _ _ Hrepr). pose proof (repr_last _ _ Hrepr).
  pose proof (se_prev _ _ _ _ Hsent). pose proof (se_length _ _ _ _ Hsent).
  unfold l, c, ll, es in *. split_and!; lia.
Qed.

(** The committed part of the node's log is the leader's. *)
Lemma accept_agreed : take c l = take c ll ∧ (c ≤ length ll)%nat.
Proof using All.
  apply (agreed_llog M g (currentTerm r)); [done..|]. apply (nr_commit _ _ _ _ Hrel).
Qed.

(** The check of the entry before those sent. *)
Lemma accept_take : take p l = take p ll.
Proof using All.
  destruct accept_indices as (Hp & Hc & Hl). destruct accept_agreed as [Hag _].
  destruct (decide (base r ≤ p)%nat) as [Hle|Hgt].
  - apply (matches_take g); [apply (pi_log M g Hg)|by apply (pi_llog M g Hg)|done|lia|].
    pose proof (repr_base _ _ Hrepr). pose proof (repr_room _ _ Hrepr).
    rewrite <- (repr_entry_term _ _ Hrepr) by (unfold max_int64, l in *; lia).
    rewrite (se_prev _ _ _ _ Hsent), (se_prev_term _ _ _ _ Hsent) in Hmatch. apply Hmatch. lia.
  - apply (take_eq_le p c); [lia|done].
Qed.

Lemma accept_lookup j b : es !! j = Some b → ll !! (p + j)%nat = Some b.
Proof using All.
  destruct accept_indices as (Hp & Hc & Hl). intros Hb. pose proof (lookup_lt_Some _ _ _ Hb).
  pose proof (se_entries _ _ _ _ Hsent) as Hes. fold ll es in Hes.
  apply (f_equal (.!! (p + j)%nat)) in Hes.
  rewrite lookup_take_lt, lookup_app_r in Hes by (rewrite ?length_take; lia).
  rewrite Hes, length_take. rewrite <- Hb. f_equal. lia.
Qed.

(** No entry below the commit index is replaced. *)
Lemma accept_same j a b :
  (p + j < c)%nat → l !! (p + j)%nat = Some a → es !! j = Some b → a = b.
Proof using All.
  intros Hj Ha Hb%accept_lookup. destruct accept_agreed as [Hag _].
  rewrite (lookup_take_eq c (p + j) l ll), Hb in Ha by done. congruence.
Qed.

Lemma accept_acceptable : acceptable req r.
Proof using All.
  destruct accept_indices as (Hp & Hc & Hl).
  assert (Hlay' : layout (PrevLogIndex req) es).
  { rewrite (se_prev _ _ _ _ Hsent). intros j b Hb%accept_lookup. apply Hlay in Hb. lia. }
  split; try done.
  - rewrite (se_prev _ _ _ _ Hsent) in *. lia.
  - rewrite (se_prev _ _ _ _ Hsent). unfold ll, es in *. lia.
  - intros e He Hi. apply list_elem_of_lookup in He as [j Hj].
    pose proof (Hlay' _ _ Hj) as Hidx. rewrite (se_prev _ _ _ _ Hsent) in Hidx.
    pose proof (repr_base _ _ Hrepr). pose proof (repr_room _ _ Hrepr).
    replace (Index e) with (Z.of_nat (S (p + j))) by lia.
    rewrite (repr_entry_term _ _ Hrepr) by (unfold max_int64 in *; lia). simpl.
    destruct (lookup_lt_is_Some_2 l (p + j)) as [a Ha]; [unfold c, l in *; lia|].
    fold l. rewrite Ha. f_equal. apply (accept_same j); [unfold c; lia|done|done].
Qed.

Lemma accept_step :
  node_steps M n g (accepted g n (ae_Term req) p es) ∧
  merge p l es `prefix_of` ll ∧ (c ≤ length (merge p l es))%nat ∧
  take c (merge p l es) = take c l.
Proof using All.
  destruct accept_indices as (Hp & Hc & Hl). destruct accept_agreed as [Hag Hcl].
  pose proof accept_take as Htake.
  pose proof (se_entries _ _ _ _ Hsent) as Hes. pose proof (se_last _ _ _ _ Hsent) as Hlast.
  assert (Ht : a_term g n ≤ ae_Term req) by (by rewrite (nr_term _ _ _ _ Hrel)).
  destruct (acc_merge M g n (ae_Term req) p es Hg Ht Hlead Hp Htake Hes Hlast) as [Hpre Hkeep].
  fold l ll in Hpre, Hkeep. assert (Hcm : (c ≤ length (merge p l es))%nat) by (apply Hkeep; [lia|done]).
  split_and!; [|done|done|].
  - apply rtc_once, ps_accept; done.
  - rewrite Hag. by apply (prefix_take_eq c _ (merge p l es)).
Qed.

(** The node after the request. *)
Lemma accept_rel :
  plain_log r → Forall no_config es →
  let g' := accepted g n (ae_Term req) p es in
  ∃ r', processAppendEntries req r =
      (mkAppendEntriesResponse (ae_Term req) true (Z.of_nat (length (merge p l es))), r') ∧
    currentTerm r' = ae_Term req ∧ state r' ≠ Leader ∧
    answers (a_log g' n) (commitIndex r') [] r r' ∧
    ((∀ x, x ∈ campaigns r' → x ∈ campaigns r) → node_rel M g' n r').
Proof using All.
  intros Hpl Hno g'. destruct accept_step as (Hstep & Hpre & Hcm & Hkeep).
  destruct accept_indices as (Hp & Hc & Hl). destruct accept_agreed as [Hag Hcl].
  destruct (node_steps_inv M n g _ Hstep Hg) as [_ Hgr].
  destruct (full_accept l p req r) as (r' & Heq & HF & Ht & Hci & Hnx & Hs1 & Hs2 & Hans);
    [apply Hrel|exact accept_acceptable|done|done|apply Hsent| |done|done|].
  { intros i a b Hi Ha Hb. f_equal. apply (accept_same i); [lia|done|done]. }
  assert (Hlog : a_log g' n = merge p l es) by (unfold g'; by rewrite acc_log, decide_True).
  exists r'. split_and!; [done|done|done|by rewrite Hlog|]. intros Hcalls.
  split; rewrite ?Hlog; try done.
  - unfold g'. by rewrite acc_term, decide_True.
  - rewrite Hci, Ht. fold es. destruct (Z.max_spec (commitIndex r)
      (Z.min (LeaderCommit req) (Z.of_nat (length (merge p l es))))) as [[_ ->]|[_ ->]].
    + apply (agreed_grows M n g g' (ae_Term req)); [exact Hgr|done|].
      apply (agreed_take M g _ _ ll).
      { apply (prefix_take_eq _ _ (merge p l es)); [done|done|lia]. }
      eapply agreed_le; [|apply (se_commit _ _ _ _ Hsent)]. lia.
    + eapply agreed_grows; [exact Hgr|done|]. eapply agreed_take; [exact Hkeep|].
      apply (nr_commit _ _ _ _ Hrel).
  - rewrite Hnx. apply (nr_self _ _ _ _ Hrel).
  - intros t i lt Hin. destruct (nr_calls _ _ _ _ Hrel t i lt (Hcalls _ Hin)) as (x & Hx & Hi).
    exists x. split; [by apply (ga_vote _ _ _ Hgr)|done].
Qed.
End Accept.

Section Step.
Context {PC : ProtoCodec} {DL : Dialer}.
Context (M : gset string) (Hodd : Z.odd (Z.of_nat (size M)) = true).

Lemma sim_accept fv won g s src n req tracked r resp r' :
  let ps := if tracked : bool then [Return src (MAppendResp n resp)] else [] in
  sim M fv won g s → calm M s → calm M (after_step s n r' ps) →
  Call src n (MAppendEntries req) tracked ∈ soup s → nodes s !! n = Some r →
  processAppendEntries req r = (resp, r') →
  currentTerm r ≤ ae_Term req → PrevLogIndex req ≤ lastLogIndex r →
  (lastIncludedIndex r ≤ PrevLogIndex req →
   getEntryTerm r (PrevLogIndex req) = PrevLogTerm req) →
  ∃ g', node_steps M n g g' ∧ sim M fv won g' (after_step s n r' ps) ∧
    answers (a_log g' n) (commitIndex r') [] r r'.
Proof.
  intros ps Hsim Hcalm Hcalm' Hcall Hr Heq Hterm Hprev Hmatch.
  destruct (calm_after M s n r' ps Hcalm') as (Hpl' & _).
  pose proof Hsim as [Hinv Hg Hko Hv Hwon Hll Hn Hs]. destruct (Hn n r Hr) as [Hin Hrel].
  pose proof (proj1 Hinv n r Hr) as Hni. pose proof (ni_plain _ _ _ _ Hni) as Hpl.
  pose proof (proj1 (proj2 Hinv) _ Hcall) as [Hwl Hno].
  destruct (Hs _ Hcall) as (Hne & Hlead & [p Hsent]%(λ H, H Hin)).
  assert (Hlead' : is_Some (a_leader g (ae_Term req))) by (by eexists).
  destruct (Hll _ Hlead') as [Hlay Hroom].
  assert (Hother : state r = Leader → currentTerm r < ae_Term req).
  { intros Hsr. apply Z.le_neq. split; [done|]. intros Ht.
    apply (ni_leader _ _ _ _ Hni), Hwon in Hsr. rewrite Ht, Hlead in Hsr. congruence. }
  destruct (accept_step M g n r req p) as (Hstep & _); try done.
  destruct (accept_rel M g n r req p) as (r1 & Heq1 & Ht & Hnl & Hans & Hrel'); try done.
  rewrite Heq in Heq1. injection Heq1 as -> ->.
  set (g' := accepted g n (ae_Term req) p (Entries req)) in *.
  destruct (processAppendEntries_step req r Hpl Hno) as (ch & [Si Sp Sc Scc] & Hch).
  rewrite Heq in *. cbn [snd] in *.
  destruct (net_inv_step M Hodd fv won s n r r1 ch ps) as (fv' & won' & Hgw & Hinv' & Hnv & Hnw);
    [done|apply Hcalm|done..| | |].
  { destruct Hch as [-> |[-> _]]; [done|]. by rewrite <- Ht in Hwl. }
  { intros fv' won' _ _ _ q Hq. unfold ps in Hq. destruct tracked; [|by apply elem_of_nil in Hq].
    by apply list_elem_of_singleton in Hq as ->. }
  rewrite (no_new_win fv won n r r1 won' Hni Hnw) in Hinv' by done.
  destruct Hnv as [[-> _]|(c & _ & _ & _ & Hc)]; [|exfalso; naive_solver].
  exists g'. split; [done|]. split; [|done].
  apply (sim_assemble M fv won fv won g g' s n r1 ps); try done.
  - apply Hrel'. intros x [?|[-> _]]%Scc; [done|]. by destruct Hch as [?|[? _]].
  - intros q Hq. unfold ps in Hq. destruct tracked; [|by apply elem_of_nil in Hq].
    apply list_elem_of_singleton in Hq as ->. split_and!; [done|cbn; lia|].
    cbn [Success MatchIndex aer_Term]. unfold g'. rewrite acc_ack, decide_True by done. lia.
Qed.
End Step.
