(* ===== verification/SimRun.v ===== *)
(** * Every step of the cluster is a run of the protocol

    One lemma per kind of step of [net_step]: an event of a node, calls that
    are sent, a call that is delivered, an answer that is delivered. *)

From stdpp Require Import functions.
From S2P Require Import Prelude Types Config Json Envelope Disk Wal SnapshotStore.
From S2P Require Import Node Roles Election Apply Replication Client Startup RunLoop.
From S2P Require Import NodeFacts ReplicationFacts StateMachine ApplyFacts ElectionFacts.
From S2P Require Import ReplicationSpec Cluster Schedule ElectionSafety RaftProtocol.
From S2P Require Import RunFacts Answers Agreement FullLog LogSteps Simulation SimSteps SimAccept.

(** ** What the handlers do to the log, the rest *)

Section Handlers.
Context {PC : ProtoCodec} {DL : Dialer}.

(** The events that are not proposals or deliveries. *)
Definition idle_event (ev : Event) : Prop :=
  match ev with ERpc _ | ECommand _ _ | EConfigChange _ _ => False | _ => True end.

Lemma idle_data ev r : idle_event ev → data_step r (handle ev r).2.
Proof.
  destruct ev; cbn [idle_event handle snd]; try done; intros _;
    try (apply ds_same; by split).
  - apply electionTimeout_data.
  - unfold replicateToPeer. destruct (bool_decide _); [apply data_step_refl|].
    destruct (_ <=? _); apply ds_same; by split.
  - unfold sendSnapshotToPeer. destruct (bool_decide _); [apply data_step_refl|].
    destruct (LoadSnapshot _ _) as [[[snap|]|] d]; apply ds_same; by split.
  - unfold heartbeatTick. destruct (bool_decide _); [|apply data_step_refl].
    unfold broadcastHeartbeats. rewrite for_each_emit. apply ds_same; by split.
Qed.

Lemma processAppendEntriesResponse_data peer resp r :
  ¬ (state r = Leader ∧ aer_Term resp = currentTerm r) →
  data_step r (processAppendEntriesResponse peer resp r).
Proof.
  intros Hno. unfold processAppendEntriesResponse. destruct (_ <? _).
  { destruct (transitionToFollower_data (aer_Term resp) r) as (? & ? & Hs).
    apply ds_same; [done|done|]. by rewrite Hs. }
  destruct (_ && _) eqn:Hc; [|apply data_step_refl].
  apply andb_true_iff in Hc as [Hs%bool_decide_eq_true Ht%Z.eqb_eq]. by destruct Hno.
Qed.

Lemma silent_idle ev r : idle_event ev → silent r (handle ev r).2.
Proof.
  destruct ev; cbn [idle_event handle snd]; try done; intros _; try silent_update.
  - apply silent_timeout.
  - unfold replicateToPeer. destruct (bool_decide _); [apply silent_refl|].
    destruct (_ <=? _); [by apply silent_emit|apply silent_refl].
  - unfold sendSnapshotToPeer. destruct (bool_decide _); [apply silent_refl|].
    destruct (LoadSnapshot _ _) as [[[snap|]|] d]; silent_update.
  - unfold heartbeatTick. destruct (bool_decide _); [apply silent_broadcast|apply silent_refl].
Qed.

Lemma silent_appendResponse peer resp r :
  ¬ (state r = Leader ∧ aer_Term resp = currentTerm r) →
  silent r (processAppendEntriesResponse peer resp r).
Proof.
  intros Hno. unfold processAppendEntriesResponse.
  destruct (_ <? _); [apply silent_follower|].
  destruct (_ && _) eqn:Hc; [|apply silent_refl].
  apply andb_true_iff in Hc as [Hs%bool_decide_eq_true Ht%Z.eqb_eq]. by destruct Hno.
Qed.

(** A vote goes to a candidate of the node's term whose log is up to date. *)
Lemma processRequestVote_granted req r :
  VoteGranted (processRequestVote req r).1 = true →
  currentTerm (processRequestVote req r).2 = rv_Term req ∧ logOK r req = true.
Proof.
  unfold processRequestVote. destruct (Z.ltb_spec (rv_Term req) (currentTerm r)); [done|].
  destruct (not_a_member _ _); [done|]. cbv zeta.
  match goal with |- context [logOK ?x _] => set (r1 := x) end.
  assert (currentTerm r1 = rv_Term req ∧ logOK r1 req = logOK r req) as [Ht Hlog].
  { unfold r1. destruct (Z.ltb_spec (currentTerm r) (rv_Term req)); [|split; [lia|done]].
    rewrite transitionToFollower_frame. done. }
  clearbody r1. destruct (_ && _) eqn:Hc; [|done]. apply andb_true_iff in Hc as [_ Hc].
  intros _. rewrite wal_try_frame. cbn [snd]. rsimpl. split; [done|congruence].
Qed.

Lemma logOK_up_to_date g n r req lc M :
  node_rel M g n r → logOK r req = true → LastLogIndex req = Z.of_nat (length lc) →
  LastLogTerm req = last_term lc → up_to_date lc (a_log g n).
Proof.
  intros Hr Hok Hi Ht. pose proof (fl_repr _ _ (nr_full _ _ _ _ Hr)) as Hrepr.
  unfold logOK in Hok. rewrite (repr_last _ _ Hrepr), (repr_last_term _ _ Hrepr), Hi, Ht in Hok.
  apply orb_true_iff in Hok as [Hlt%Z.ltb_lt|Hle]; [by left|right].
  apply andb_true_iff in Hle as [He%Z.eqb_eq Hl%Z.leb_le]. split; [done|lia].
Qed.
End Handlers.

Section Run.
Context {PC : ProtoCodec} {DL : Dialer}.
Context (M : gset string) (Hodd : Z.odd (Z.of_nat (size M)) = true).

(** The entry of a proposal, in the log of its leader. *)
Definition posted (g : Abs) (cmd : bytes) (p : proposal) : Prop :=
  is_Some (a_leader g (p_term p)) ∧ 1 ≤ p_index p ∧
  ∃ e, a_llog g (p_term p) !! Z.to_nat (p_index p - 1) = Some e ∧ Cmd e = cmd.

(** The positive answers of a step are to proposals that are committed; one it
    adds uses a channel of its own, unless a channel is used twice. *)
Definition fair_answers (g : Abs) (n : string) (r r' : Raft) : Prop :=
  ∃ new, answers (a_log g n) (commitIndex r') new r r' ∧
    ∀ p, p ∈ new → p_respCh p ∈ channels r → ¬ NoDup (channels r').

(** What a step of the cluster leaves. *)
Definition simulated (g : Abs) (s s' : Net) : Prop :=
  ∃ fv' won' g', proto_run M g g' ∧ sim M fv' won' g' s' ∧
    ∀ n r r', nodes s !! n = Some r → nodes s' !! n = Some r' → fair_answers g' n r r'.

Lemma fair_silent g n r r' : silent r r' → fair_answers g n r r'.
Proof. intros Hs. exists []. split; [by apply answers_silent|]. by intros p ?%elem_of_nil. Qed.

Lemma fair_no_new g n r r' :
  answers (a_log g n) (commitIndex r') [] r r' → fair_answers g n r r'.
Proof. intros Ha. exists []. split; [done|]. by intros p ?%elem_of_nil. Qed.

Lemma simulated_node fv won g g' s n r r' ps :
  nodes s !! n = Some r → node_steps M n g g' → sim M fv won g' (after_step s n r' ps) →
  fair_answers g' n r r' → simulated g s (after_step s n r' ps).
Proof.
  intros Hr Hs Hsim Hf. exists fv, won, g'. split_and!; [by eapply node_steps_run|done|].
  intros m rm rm' Hm. simpl. rewrite lookup_insert_Some.
  intros [[<- <-]|[_ Hm']]; [by simplify_eq|]. simplify_eq. apply fair_silent, silent_refl.
Qed.

(** ** Events *)

Lemma sim_idle fv won g s n r ev out r' :
  sim M fv won g s → calm M s → calm M (after_step s n r' (calls n out r')) →
  nodes s !! n = Some r → idle_event ev → handle ev r = (out, r') →
  simulated g s (after_step s n r' (calls n out r')).
Proof.
  intros Hsim Hcalm Hcalm' Hr Hidle He. pose proof Hsim as [Hinv Hg Hko _ Hwon _ Hn _].
  pose proof (proj1 Hinv n r Hr) as Hni.
  destruct (local_step ev r) as (ch & Hid & Hes & Hch & Hcalls).
  { by intros cmd ch ->. }
  { by intros msg ->. }
  { apply (ni_plain _ _ _ _ Hni). }
  pose proof (idle_data ev r Hidle) as Hd. pose proof (silent_idle ev r Hidle) as Hsil.
  rewrite He in *. cbn [snd] in *.
  assert (Hloc : local_event ev) by (by destruct ev).
  destruct (sim_data_step M Hodd fv won g s n r r' ch (calls n out r'))
    as (fv' & won' & g' & Hs & H); try done.
  - by destruct Hch as [-> | ->].
  - intros c ->. by destruct Hch.
  - intros fv' won' Hg' _ _ p Hp. eapply packet_inv_grows; [exact Hg'|].
    by eapply calls_inv.
  - intros g' _ Hg' Hrel' Hl. eapply calls_packet_rel; try done.
    rewrite Hid. apply (ni_id _ _ _ _ Hni).
  - apply (simulated_node fv' won' g g' s n r); try done. by apply fair_silent.
Qed.

(** A step that leaves log, role and store. *)
Lemma sim_same_data fv won g s n r r' :
  sim M fv won g s → calm M s → calm M (after_step s n r' []) → nodes s !! n = Some r →
  same_role r r' → same_data r r' → same_progress r r' →
  ∃ fv' won' g', node_steps M n g g' ∧ sim M fv' won' g' (after_step s n r' []).
Proof.
  intros Hsim Hcalm Hcalm' Hr [Ri Rs Rt Rv Rvs Rc] Hd Hp. pose proof (si_net _ _ _ _ _ Hsim) as Hinv.
  apply (sim_data_step M Hodd fv won g s n r r' CNone []); try done.
  - by constructor.
  - intros c. rewrite Rc. by left.
  - apply ds_same; [done|done|]. by rewrite Rs, Rt.
  - by intros ? ? _ _ _ p ?%elem_of_nil.
  - by intros ? _ _ _ _ p ?%elem_of_nil.
Qed.

(** A proposal: the entry of the command is in the log of the leader. *)
Lemma sim_command fv won g s n r cmd ch :
  let r' := handleClientCommand cmd ch r in
  sim M fv won g s → calm M s → calm M (after_step s n r' []) → nodes s !! n = Some r →
  (∀ i t, no_config (mkLogEntry i t cmd)) →
  ∃ fv' won' g' new, node_steps M n g g' ∧ sim M fv' won' g' (after_step s n r' []) ∧
    answers (a_log g' n) (commitIndex r') new r r' ∧
    ∀ p, p ∈ new → p_respCh p = ch ∧ posted g' cmd p.
Proof.
  intros r' Hsim Hcalm Hcalm' Hr Hc. pose proof Hsim as [Hinv _ _ _ _ _ Hn _].
  destruct (Hn n r Hr) as [_ Hrel]. pose proof (nr_full _ _ _ _ Hrel) as HF.
  destruct (calm_node M s n r Hcalm Hr) as (_ & Hm & _).
  rewrite (repr_last _ _ (fl_repr _ _ HF)) in Hm.
  pose proof (ni_plain _ _ _ _ (proj1 Hinv n r Hr)) as Hpl.
  pose proof (same_role_quiet _ _ (handleClientCommand_quiet cmd ch r Hc Hpl)) as Hrole.
  fold r' in Hrole.
  destruct (handleClientCommand_full (a_log g n) cmd ch r HF Hpl Hc Hm)
    as [(_ & Hd & Hp & Hsil)|(Hs & e & He & Hcmd & HF' & Hp & Hci & Hans)].
  - destruct (sim_same_data fv won g s n r r') as (fv' & won' & g' & Hsteps & H); try done.
    exists fv', won', g', []. split_and!; [done|done|by apply answers_silent|].
    by intros p ?%elem_of_nil.
  - destruct (sim_append M Hodd fv won g s n r r' e) as (kn & Hsteps & H); try done.
    exists fv, won, (knowing (appended g n e) kn). eexists. split_and!; [done|done| |].
    { change (a_log (knowing (appended g n e) kn)) with (a_log (appended g n e)).
      rewrite app_log, decide_True by done. exact Hans. }
    intros p ->%list_elem_of_singleton. split; [done|]. unfold posted. cbn [p_term p_index].
    change (a_leader (knowing _ _)) with (a_leader (appended g n e)).
    change (a_llog (knowing _ _)) with (a_llog (appended g n e)).
    rewrite <- (nr_term _ _ _ _ Hrel), app_leader, app_llog, !decide_True by done.
    split_and!; [by eexists|lia|]. exists e. split; [|done].
    rewrite lookup_app_r by lia.
    by replace (Z.to_nat _ - length (a_log g n))%nat with O by lia.
Qed.

Lemma sim_config fv won g s n r req ch :
  let r' := handleConfigChange req ch r in
  sim M fv won g s → calm M s → calm M (after_step s n r' []) → nodes s !! n = Some r →
  simulated g s (after_step s n r' []).
Proof.
  intros r' Hsim Hcalm Hcalm' Hr. pose proof Hsim as [Hinv _ _ _ _ _ Hn _].
  destruct (Hn n r Hr) as [_ Hrel]. pose proof (nr_full _ _ _ _ Hrel) as HF.
  destruct (calm_node M s n r Hcalm Hr) as (_ & Hm & _).
  rewrite (repr_last _ _ (fl_repr _ _ HF)) in Hm.
  pose proof (handleConfigChange_role req ch r) as Hrole. fold r' in Hrole.
  destruct (handleConfigChange_data req ch r)
    as [(Hd & Hp & Hsil)|[(Hs & e & He & Hsn & Hp & Hsil)|(c & Hc & HJ)]].
  - destruct (sim_same_data fv won g s n r r') as (fv' & won' & g' & Hsteps & H); try done.
    apply (simulated_node fv' won' g g' s n r); try done. by apply fair_silent.
  - destruct (sim_append M Hodd fv won g s n r r' e) as (kn & Hsteps & H); try done.
    + by apply full_snoc_data with r.
    + left. apply Hsn.
    + apply (simulated_node fv won g (knowing (appended g n e) kn) s n r r' []); try done. by apply fair_silent.
  - destruct (calm_after M s n r' [] Hcalm') as (_ & _ & (c' & Hc' & HJ' & _) & _).
    unfold r' in Hc'. rewrite Hc in Hc'. injection Hc' as ->. congruence.
Qed.

(** ** Calls that are sent *)

Lemma sim_send fv won g s ps :
  sim M fv won g s → (∀ p, p ∈ ps → packet_inv fv won p) → (∀ p, p ∈ ps → packet_rel M g p) →
  simulated g s (mkNet (nodes s) (soup s ++ ps)).
Proof.
  intros [Hinv Hg Hko Hv Hwon Hll Hn Hs] Hps Hrel. exists fv, won, g. split; [done|]. split.
  2:{ simpl. intros n r r' Hr Hr'. simplify_eq. apply fair_silent, silent_refl. }
  split; try done.
  - by apply net_inv_send.
  - intros p. simpl. rewrite elem_of_app. intros [?|?]; auto.
Qed.

(** ** Calls that are delivered *)

(** The answer to entries that are not accepted. *)
Lemma refused_rel g g' n src dst req tracked resp :
  packet_rel M g (Call src dst (MAppendEntries req) tracked) → dst ∈ M → grows_abs n g g' →
  Success resp = false → -1 ≤ MatchIndex resp →
  MatchIndex resp ≤ 0 ∨ aer_Term resp = ae_Term req ∧ MatchIndex resp ≤ PrevLogIndex req →
  packet_rel M g' (Return src (MAppendResp dst resp)).
Proof.
  intros (Hne & Hl & Hsent) Hin Hgr Hok Hge Hor. destruct (Hsent Hin) as [p Hp].
  apply (packet_rel_grows M n g g'); [done|]. simpl. split_and!; [done|done|]. rewrite Hok.
  destruct Hor as [?|[-> Hm]]; [by left|right]. split; [by eexists|].
  pose proof (se_prev _ _ _ _ Hp). pose proof (se_length _ _ _ _ Hp). lia.
Qed.

Abbreviation answers src n msg resp tracked :=
  (if tracked : bool then map (Return src) (response n msg resp) else []).

Lemma sim_delivered fv won g s src n msg tracked r resp r' :
  let ps := answers src n msg resp tracked in
  sim M fv won g s → calm M s → calm M (after_step s n r' ps) →
  Call src n msg tracked ∈ soup s → nodes s !! n = Some r → handleRPC msg r = (resp, r') →
  data_step r r' → silent r r' →
  (∀ g' p, grows_abs n g g' → p ∈ response n msg resp → packet_rel M g' (Return src p)) →
  simulated g s (after_step s n r' ps).
Proof.
  intros ps Hsim Hcalm Hcalm' Hcall Hr He Hd Hsil Hps. pose proof Hsim as [Hinv Hg Hko _ Hwon _ Hn Hs].
  pose proof (proj1 Hinv n r Hr) as Hni. destruct (Hn n r Hr) as [_ Hrel].
  destruct (call_step M fv won src n msg tracked r resp r')
    as (ch & Hid & Hes & Hcalls & Hok & Hgrant & Hret).
  { split_and!; [| |apply Hinv].
    - intros m rm. simpl. rewrite lookup_singleton_Some. intros [<- <-]. done.
    - intros p Hin. simpl in Hin. apply list_elem_of_singleton in Hin as ->. by apply Hinv. }
  { done. }
  destruct (sim_data_step M Hodd fv won g s n r r' ch ps) as (fv' & won' & g' & Hsteps & H); try done.
  - intros c Hc. destruct (Hgrant c Hc) as (req & -> & -> & Hgr).
    destruct (Hs _ Hcall) as (l & Hl & Hi & Ht).
    destruct (processRequestVote_granted req r Hgr) as [Hterm Hlog].
    simpl in He. destruct (processRequestVote req r) as [rsp r1]. injection He as <- <-.
    cbn [snd] in Hterm. rewrite Hterm. exists l. split; [done|]. by eapply logOK_up_to_date.
  - intros fv' won' _ _ Hv p Hp. unfold ps in Hp. destruct tracked; [|by apply elem_of_nil in Hp].
    by eapply Hret.
  - intros g' Hg' _ _ _ p Hp. unfold ps in Hp. destruct tracked; [|by apply elem_of_nil in Hp].
    apply list_elem_of_fmap in Hp as (q & -> & Hq). by apply Hps.
  - apply (simulated_node fv' won' g g' s n r); try done. by apply fair_silent.
Qed.

Lemma sim_call fv won g s src n msg tracked r resp r' :
  let ps := answers src n msg resp tracked in
  sim M fv won g s → calm M s → calm M (after_step s n r' ps) →
  Call src n msg tracked ∈ soup s → nodes s !! n = Some r → handleRPC msg r = (resp, r') →
  simulated g s (after_step s n r' ps).
Proof.
  intros ps Hsim Hcalm Hcalm' Hcall Hr He. pose proof Hsim as [Hinv Hg Hko _ Hwon _ Hn Hs].
  pose proof (proj1 (proj2 Hinv) _ Hcall) as Hpk. pose proof (Hs _ Hcall) as Hpr.
  destruct (Hn n r Hr) as [Hin Hrel]. pose proof (proj1 Hinv n r Hr) as Hni.
  assert (Hdel : data_step r r' → silent r r' →
    (∀ g' p, grows_abs n g g' → p ∈ response n msg resp → packet_rel M g' (Return src p)) →
    simulated g s (after_step s n r' ps)) by (by eapply sim_delivered).
  destruct msg as [req|req|req|req| | | |]; simpl in Hpk; try done; simpl in He.
  - injection He as <- <-. apply Hdel; [apply data_step_refl|apply silent_refl|].
    intros g' p _ Hp. by apply list_elem_of_singleton in Hp as ->.
  - pose proof (processRequestVote_data req r) as Hd. pose proof (silent_requestVote req r) as Hsil.
    destruct (processRequestVote req r) as [rsp r1]. injection He as <- <-.
    apply Hdel; [done|done|]. intros g' p _ Hp. by apply list_elem_of_singleton in Hp as ->.
  - destruct (processAppendEntries req r) as [rsp r1] eqn:Heq. injection He as <- <-.
    pose proof (fl_repr _ _ (nr_full _ _ _ _ Hrel)) as Hrepr.
    pose proof (repr_last _ _ Hrepr) as Hlast. pose proof (re_wf _ _ Hrepr) as [H0 _].
    assert (Hno : Success rsp = false → -1 ≤ MatchIndex rsp →
      MatchIndex rsp ≤ 0 ∨ aer_Term rsp = ae_Term req ∧ MatchIndex rsp ≤ PrevLogIndex req →
      data_step r r1 → silent r r1 → simulated g s (after_step s n r1 ps)).
    { intros Hok Hge Hor Hd Hsil. apply Hdel; [done|done|]. intros g' p Hgr Hp.
      apply list_elem_of_singleton in Hp as ->. by eapply refused_rel. }
    destruct (processAppendEntries_cases req r)
      as [[Hlt Hres]|[(Hle & m & Hres & Hm)|(Hle & Hprev & Hmatch)]].
    + rewrite Heq in Hres. injection Hres as -> ->. apply Hno; try done; [by left|].
      apply data_step_refl.
    + rewrite Heq in Hres. injection Hres as -> ->.
      destruct (follow_leader_data (ae_Term req) (ae_LeaderId req) r) as [Hd Hp].
      destruct (follow_leader_frame (ae_Term req) (ae_LeaderId req) r Hle)
        as (st & es & pr & Hfr & Hnl & _).
      { intros Hsr. apply Z.le_neq. split; [done|]. intros Ht. destruct Hpr as (Hne & Hl & _).
        apply (ni_leader _ _ _ _ Hni), Hwon in Hsr. rewrite Ht, Hl in Hsr. congruence. }
      assert (Hst : state (follow_leader (ae_Term req) (ae_LeaderId req) r) ≠ Leader)
        by (by rewrite Hfr).
      clear Hfr. assert (Hb : -1 ≤ m ≤ PrevLogIndex req).
      { destruct Hm as [[-> ?]|[-> Hm]]; [lia|]. pose proof (repr_room _ _ Hrepr).
        rewrite int64_sub_small; [lia|]. unfold is_int64, max_int64 in *. lia. }
      apply Hno; cbn [Success MatchIndex aer_Term]; [done|lia|right; split; [done|lia]| |].
      * apply ds_same; done.
      * apply silent_follow_leader.
    + destruct (sim_accept M Hodd fv won g s src n req tracked r rsp r1)
        as (g' & Hsteps & H & Hans); try done.
      apply (simulated_node fv won g g' s n r); try done. by apply fair_no_new.
  - destruct Hcalm as (_ & _ & Hno). rewrite Forall_forall in Hno. by apply Hno in Hcall.
Qed.

(** ** Answers that are delivered *)

Lemma sim_return fv won g s n msg r resp r' :
  sim M fv won g s → calm M s → calm M (after_step s n r' []) →
  Return n msg ∈ soup s → nodes s !! n = Some r → handleRPC msg r = (resp, r') →
  simulated g s (after_step s n r' []).
Proof.
  intros Hsim Hcalm Hcalm' Hret Hr He. pose proof Hsim as [Hinv Hg Hko _ Hwon _ Hn Hs].
  pose proof (proj1 (proj2 Hinv) _ Hret) as Hpk. pose proof (Hs _ Hret) as Hpr.
  pose proof (proj1 Hinv n r Hr) as Hni.
  destruct (return_step fv won n msg r resp r') as (ch & Hid & Hes & Hcalls & Hok & Hno); try done.
  assert (Hdel : data_step r r' → silent r r' → simulated g s (after_step s n r' [])).
  { intros Hd Hsil. destruct (sim_data_step M Hodd fv won g s n r r' ch [])
      as (fv' & won' & g' & Hsteps & H); try done.
    - by intros c Hc%Hno.
    - by intros ? ? _ _ _ p ?%elem_of_nil.
    - by intros ? _ _ _ _ p ?%elem_of_nil.
    - apply (simulated_node fv' won' g g' s n r); try done. by apply fair_silent. }
  destruct msg as [| | | |v rsp|v rsp|v rsp|v rsp]; simpl in Hpk; try done;
    simpl in He; injection He as <- <-.
  - apply Hdel; [apply processPreVoteResponse_data|apply silent_preVoteResponse].
  - apply Hdel; [apply processRequestVoteResponse_data|apply silent_voteResponse].
  - destruct (decide (state r = Leader ∧ aer_Term rsp = currentTerm r)) as [[Hs1 Ht]|Hnl].
    + destruct (sim_ack M Hodd fv won g s n r v rsp) as (kn & Hsteps & H & Hans); try done.
      apply (simulated_node fv won g (knowing g kn) s n r); try done. by apply fair_no_new.
    + apply Hdel; [by apply processAppendEntriesResponse_data|by apply silent_appendResponse].
Qed.

(** ** The step *)

Lemma sim_step fv won g s s' :
  sim M fv won g s → calm M s → net_step s s' → calm M s' → simulated g s s'.
Proof.
  intros Hsim Hcalm Hstep Hcalm'. pose proof Hsim as [Hinv Hg Hko _ Hwon _ Hn Hs].
  destruct Hstep as [n r ev out r' Hr Hl He|n r e Hr He|n r t Hr
                    |src dst msg tracked r resp r' Hp Hr He|dst msg r resp r' Hp Hr He].
  - assert (Hidle : idle_event ev → simulated g s (after_step s n r' (calls n out r')))
      by (intros Hi; by apply (sim_idle fv won g s n r ev)).
    destruct ev; try (by apply Hidle); clear Hidle; simpl in He;
      injection He as <- <-.
    + assert (Hc : ∀ i t, no_config (mkLogEntry i t cmd)).
      { destruct Hl as (op & key & val & cl & rq & Hc). intros i t. by eapply proposed_plain. }
      destruct (sim_command fv won g s n r cmd ch) as (fv' & won' & g' & new & Hsteps & H & Ha & Hp);
        try done.
      apply (simulated_node fv' won' g g' s n r); try done. exists new. split; [done|].
      intros p [<- _]%Hp Hin Hnd. rewrite (k_channels _ _ _ (kept_client cmd (p_respCh p) r)) in Hnd.
      apply NoDup_app in Hnd as (_ & Hd & _). apply (Hd _ Hin). by left.
    + by eapply sim_config.
  - destruct (Hn n r Hr) as [_ Hrel]. pose proof (proj1 Hinv n r Hr) as Hni.
    eapply sim_send; [done|..]; intros p Hp.
    + by eapply goroutine_inv.
    + eapply goroutine_packet_rel; try done. apply (ni_id _ _ _ _ Hni).
  - destruct (Hn n r Hr) as [_ Hrel]. pose proof (proj1 Hinv n r Hr) as Hni.
    eapply sim_send; [done|..]; intros p Hp.
    + by eapply confirm_inv.
    + eapply confirm_packet_rel; try done; [apply (ni_id _ _ _ _ Hni)| |].
      * by destruct (calm_node M s n r Hcalm Hr).
      * intros Hsr. apply Hwon. by apply (ni_leader _ _ _ _ Hni).
  - by eapply sim_call.
  - assert (Heq : mkNet (<[dst := r']> (nodes s)) (soup s) = after_step s dst r' [])
      by (by rewrite app_nil_r).
    rewrite Heq in *. by eapply sim_return.
Qed.

Lemma sim_runs (P : Net → Prop) fv won g s s' :
  (∀ x, P x → calm M x) → sim M fv won g s → runs P s s' →
  P s' ∧ ∃ fv' won' g', proto_run M g g' ∧ sim M fv' won' g' s'.
Proof.
  intros HP Hsim Hrun. induction Hrun as [s Hc|s1 s2 s3 Hrun IH Hstep Hc].
  { split; [done|]. by exists fv, won, g. }
  destruct (IH Hsim) as (Hc2 & fv2 & won2 & g2 & Hr2 & Hsim2). split; [done|].
  destruct (sim_step fv2 won2 g2 s2 s3 Hsim2) as (fv3 & won3 & g3 & Hr3 & Hsim3 & _); auto.
  exists fv3, won3, g3. split; [by etrans|done].
Qed.
End Run.
