(* ===== verification/StateMachineSafety.v ===== *)
(** * State machine safety

    Over the runs of the cluster in which the membership is fixed and no node
    falls behind a snapshot, all nodes apply one and the same sequence of
    entries, in its order, and that sequence only grows.

    The start of a cluster is related to the empty machine ([sim_start]), every
    run keeps the relation ([sim_runs]), and in a related state the longest
    committed log is the sequence ([longest_agreed]). *)

From S2P Require Import Prelude Types Config Json Envelope Disk Wal SnapshotStore.
From S2P Require Import Node Roles Election Apply Replication Client Startup RunLoop.
From S2P Require Import NodeFacts ReplicationFacts StateMachine ApplyFacts ElectionFacts.
From S2P Require Import ReplicationSpec Cluster Schedule ElectionSafety RaftProtocol.
From S2P Require Import Agreement FullLog LogSteps Simulation SimSteps SimAccept SimRun.
From S2P Require Import TransportSpec CommandsSpec Scenarios.

(** ** The start *)

(** A node that has stored nothing yet. *)
Definition blank (r : Raft) : Prop :=
  lastIncludedIndex r = 0 ∧ lastIncludedTerm r = 0 ∧ commitIndex r = 0 ∧ lastApplied r = 0 ∧
  nextIndex r = ∅ ∧ kv r = ∅ ∧ dedupTable r = ∅ ∧ campaigns r = [].

(** The node [n], started for the first time. *)
Definition started `{!ProtoCodec} `{!Dialer} (n : string) (r : Raft) : Prop :=
  ∃ peers dir threshold now r0,
    NewRaft n peers dir threshold now no_files = Ok r0 ∧ Start r0 = (None, r).

(** The members start with nothing stored. *)
Definition new_cluster `{!ProtoCodec} `{!Dialer} (M : gset string) (s : Net) : Prop :=
  soup s = [] ∧ map_Forall (λ n r, n ∈ M ∧ n ≠ "" ∧ started n r) (nodes s).

(** ** The sequence of entries a node replays *)

Record replays (H : list LogEntry) (r : Raft) : Prop := {
  rp_indices : 0 ≤ lastApplied r ≤ commitIndex r ∧ commitIndex r ≤ Z.of_nat (length H);
  rp_store : sm_of r = sm_after H (Z.to_nat (lastApplied r));
  rp_log i : lastIncludedIndex r < i ≤ commitIndex r → getEntry r i = H !! Z.to_nat (i - 1)
}.

Definition all_replay (H : list LogEntry) (s : Net) : Prop :=
  map_Forall (λ _ r, replays H r) (nodes s).

Section Start.
Context {PC : ProtoCodec} {DL : Dialer}.
Context (M : gset string) (Hodd : Z.odd (Z.of_nat (size M)) = true).

Definition first_abs (s : Net) : Abs :=
  mkAbs (λ n, default 0 (currentTerm <$> nodes s !! n)) (λ _, []) (λ _, None) (λ _, None)
    (λ _, []) (λ _, O) (λ _, O).

Lemma first_abs_inv s : fresh_cluster s → protocol_inv M (first_abs s).
Proof.
  intros [_ Hn]. split; simpl; try done.
  - intros n. destruct (nodes s !! n) as [r|] eqn:Hr; simpl; [|done].
    by apply (map_Forall_lookup_1 _ _ _ _ Hn) in Hr as (_ & _ & _ & _ & _ & Ht).
  - intros n e He. by apply elem_of_nil in He.
Qed.

Lemma blank_full r : log r = [] → blank r → full [] r.
Proof.
  intros Hl (Hb & Ht & Hc & Ha & _ & Hk & Hd & _).
  assert (Hlast : lastLogIndex r = 0) by (unfold lastLogIndex; by rewrite Hl, Hb).
  split.
  - split.
    + unfold log_wf. rewrite Hb, Hl. split_and!; [done|done|apply layout_nil].
    + unfold base. rewrite Hb. simpl. lia.
    + by rewrite Hl, drop_nil.
    + apply layout_nil.
    + unfold base. by rewrite Ht, Hb.
  - unfold indices_ok. rewrite Hb, Ha, Hc, Hlast. lia.
  - unfold sm_of. by rewrite Hk, Hd, Ha.
Qed.

Lemma started_blank n r :
  started n r → node_id r = n ∧ state r = Follower ∧ votedFor r = "" ∧ log r = [] ∧
    0 ≤ currentTerm r ∧ blank r.
Proof.
  intros (peers & dir & threshold & now & r0 & Hnew & Hs).
  rewrite NewRaft_fresh in Hnew. injection Hnew as <-. unfold Start, connectToPeers in Hs.
  match type of Hs with context [connectToPeersLocked ?x] => set (r0 := x) in Hs end.
  assert (node_id r0 = n ∧ state r0 = Follower ∧ votedFor r0 = "" ∧ log r0 = [] ∧
    0 ≤ currentTerm r0 ∧ blank r0) as H0 by done. clearbody r0.
  destruct (connectToPeersLocked_frame r0) as [g Hg].
  destruct (connectToPeersLocked r0) as [[e|] r1]; [done|]. simpl in Hg. subst r1.
  injection Hs as <-. exact H0.
Qed.

Lemma new_fresh s :
  new_cluster M s → fresh_cluster s ∧ map_Forall (λ n r, n ∈ M ∧ blank r) (nodes s).
Proof.
  intros [Hs Hn]. split; [split; [done|]|]; intros n r Hr;
    apply (map_Forall_lookup_1 _ _ _ _ Hn) in Hr as (? & ? & Hst); apply started_blank in Hst;
    naive_solver.
Qed.

Lemma sim_start s : new_cluster M s → sim M ∅ ∅ (first_abs s) s.
Proof.
  intros [Hf Hb]%new_fresh. pose proof Hf as [Hs Hn].
  split.
  - by apply fresh_inv.
  - by apply first_abs_inv.
  - by intros t.
  - intros n t c. rewrite lookup_empty. split; [done|]. by intros (l & ?).
  - intros t c. split; [set_solver|done].
  - by intros t [c ?].
  - intros n r Hr. pose proof (map_Forall_lookup_1 _ _ _ _ Hn Hr) as (_ & _ & Hst & _ & Hl & _).
    destruct (map_Forall_lookup_1 _ _ _ _ Hb Hr) as [Hin Hbl]. split; [done|].
    pose proof Hbl as (_ & _ & Hc & _ & Hnx & _ & _ & Hcp). split; simpl.
    + by rewrite Hr.
    + by apply blank_full.
    + left. by rewrite Hc.
    + by rewrite Hnx, lookup_empty.
    + by rewrite Hst.
    + by rewrite Hst.
    + by rewrite Hst.
    + intros t i lt. rewrite Hcp. by intros ?%elem_of_nil.
  - intros p. rewrite Hs. by intros ?%elem_of_nil.
Qed.

(** ** The longest committed log *)

Definition settled (g : Abs) (H : list LogEntry) : Prop := ∃ T, agreed M g T (length H) H.

Lemma settled_take g T c l : agreed M g T c l → settled g (take c l) ∧ length (take c l) = c.
Proof.
  intros Ha. pose proof (agreed_length _ _ _ _ _ Ha) as Hc.
  assert (Hl : length (take c l) = c) by (rewrite length_take; lia).
  split; [|done]. exists T. rewrite Hl. eapply agreed_take; [|exact Ha]. by rewrite take_take, Nat.min_id.
Qed.

Lemma settled_prefix g H1 H2 :
  protocol_inv M g → settled g H1 → settled g H2 → (length H1 ≤ length H2)%nat →
  H1 `prefix_of` H2.
Proof.
  intros Hg [T1 A1] [T2 A2] Hle. exists (drop (length H1) H2).
  rewrite <- (take_drop (length H1) H2) at 1. f_equal.
  trans (take (length H1) H1); [|apply firstn_all].
  apply (agreed_agree M g T2 T1); [done|by eapply agreed_le|done].
Qed.

Lemma proto_run_agreed g g' T c l :
  proto_run M g g' → protocol_inv M g → agreed M g T c l →
  protocol_inv M g' ∧ agreed M g' T c l.
Proof.
  intros Hr. induction Hr as [g|g1 g2 g3 [n Hs] _ IH]; intros Hg HT; [done|].
  apply IH; [by eapply proto_step_inv|].
  eapply agreed_grows; [by apply (proto_step_grows M g1 Hg n)|done|done].
Qed.

Lemma proto_run_settled g g' H :
  proto_run M g g' → protocol_inv M g → settled g H → settled g' H.
Proof. intros Hr Hg [T HT]. exists T. by eapply proto_run_agreed. Qed.

(** The log of a leader. *)
Lemma leader_log fv won g s n r :
  sim M fv won g s → nodes s !! n = Some r → state r = Leader →
  is_Some (a_leader g (currentTerm r)) ∧ a_log g n = a_llog g (currentTerm r).
Proof.
  intros [Hinv Hg _ _ Hwon _ Hn _] Hr Hs. destruct (Hn n r Hr) as [_ Hrel].
  assert (Hl : a_leader g (currentTerm r) = Some n).
  { apply Hwon. by apply (ni_leader _ _ _ _ (proj1 Hinv n r Hr)). }
  split; [by eexists|]. apply (pi_leader_log M g Hg); [done|apply Hrel].
Qed.

(** One log that is committed and includes what every node has committed. *)
Lemma longest_agreed fv won g s H0 :
  sim M fv won g s → settled g H0 →
  ∃ H, H0 `prefix_of` H ∧ settled g H ∧
    ∀ n r, nodes s !! n = Some r → take (Z.to_nat (commitIndex r)) (a_log g n) `prefix_of` H.
Proof.
  intros [_ Hg _ _ _ _ Hn _] H0s. generalize (λ n r Hr, proj2 (Hn n r Hr)). clear Hn.
  induction (nodes s) as [|n r m Hm IH] using map_ind; intros Hn.
  { exists H0. split_and!; [done|done|]. intros n r. by rewrite lookup_empty. }
  destruct IH as (H & Hpre & Hset & Hall).
  { intros n' r' Hr'. apply Hn. rewrite lookup_insert_ne; [done|]. intros ->. congruence. }
  pose proof (nr_commit _ _ _ _ (Hn n r (lookup_insert_eq _ _ _))) as Hc.
  destruct (settled_take _ _ _ _ Hc) as [Hs' _]. set (L := take _ (a_log g n)) in *.
  destruct (decide (length L ≤ length H)%nat) as [Hle|Hgt].
  - exists H. split_and!; [done|done|]. intros n' r'. rewrite lookup_insert_Some.
    intros [[<- <-]|[_ Hr']]; [|by apply Hall]. by apply (settled_prefix g).
  - assert (HL : H `prefix_of` L) by (apply (settled_prefix g); (done || lia)).
    exists L. split_and!; [by etrans|done|]. intros n' r'. rewrite lookup_insert_Some.
    intros [[<- <-]|[_ Hr']]; [done|]. etrans; [by apply (Hall n' r')|done].
Qed.

Lemma node_replays g n r H :
  node_rel M g n r → take (Z.to_nat (commitIndex r)) (a_log g n) `prefix_of` H → replays H r.
Proof.
  intros Hr Hpre. pose proof (nr_full _ _ _ _ Hr) as HF. pose proof (fl_repr _ _ HF) as Hrepr.
  destruct (fl_ok _ _ HF) as [[Hi1 Hi2] Hi3]. rewrite (repr_last _ _ Hrepr) in Hi3.
  pose proof (repr_base _ _ Hrepr) as Hb. pose proof (repr_room _ _ Hrepr) as Hroom.
  set (c := Z.to_nat (commitIndex r)) in *.
  assert (Hlen : length (take c (a_log g n)) = c) by (rewrite length_take; lia).
  pose proof (prefix_length _ _ Hpre) as Hle.
  assert (Ht : take c (a_log g n) = take c H).
  { destruct Hpre as [x ->]. rewrite take_app_le by lia. by rewrite take_take, Nat.min_id. }
  split.
  - lia.
  - rewrite (fl_sm _ _ HF). unfold sm_after. do 2 f_equal. apply (take_eq_le _ c); [lia|done].
  - intros i Hi. replace i with (Z.of_nat (Z.to_nat i)) at 1 by lia.
    rewrite (repr_entry _ _ Hrepr) by (unfold max_int64 in *; lia).
    replace (Z.to_nat (i - 1)) with (Z.to_nat i - 1)%nat by lia.
    apply (lookup_take_eq c); [done|lia].
Qed.

(** A related state, and what was settled before, have a common sequence. *)
Lemma sim_replay fv won g s H0 :
  sim M fv won g s → settled g H0 → ∃ H, H0 `prefix_of` H ∧ settled g H ∧ all_replay H s.
Proof.
  intros Hsim H0s. destruct (longest_agreed fv won g s H0 Hsim H0s) as (H & Hpre & Hset & Hall).
  exists H. split_and!; [done|done|]. intros n r Hr.
  apply (node_replays g n); [by apply (si_nodes _ _ _ _ _ Hsim)|by apply Hall].
Qed.
End Start.

(** A state that a run reaches, and the machine behind it. *)
Lemma reached `{!ProtoCodec} `{!Dialer} M s0 s :
  Z.odd (Z.of_nat (size M)) = true → new_cluster M s0 → runs (calm M) s0 s →
  ∃ fv won g, sim M fv won g s.
Proof.
  intros Hodd Hnew Hr.
  destruct (sim_runs M Hodd (calm M) _ _ _ _ _ (λ _ H, H) (sim_start M Hodd s0 Hnew) Hr)
    as (_ & fv & won & g & _ & Hsim). by exists fv, won, g.
Qed.

(** C2. State machine safety.  Start a cluster with an odd number of members
    and nothing stored, and let the nodes run, campaign, propose and replicate
    with messages lost, late, duplicated and reordered.  At any moment there is
    one sequence of entries such that the store and the request table of every
    node are what the state machine makes of the first [lastApplied] entries,
    and the log of every node holds the same entries up to its commit index;
    and at any later moment the sequence has only grown.  The runs are those in
    which the membership stays, the indices fit, and nobody sends a snapshot. *)
Theorem state_machine_safety `{!ProtoCodec} `{!Dialer} M s0 s1 s2 :
  Z.odd (Z.of_nat (size M)) = true → new_cluster M s0 →
  runs (calm M) s0 s1 → runs (calm M) s1 s2 →
  ∃ H1 H2, H1 `prefix_of` H2 ∧ all_replay H1 s1 ∧ all_replay H2 s2.
Proof.
  intros Hodd Hnew Hr1 Hr2. destruct (reached M s0 s1 Hodd Hnew Hr1) as (fv1 & won1 & g1 & Hsim1).
  destruct (sim_runs M Hodd (calm M) _ _ _ _ _ (λ _ H, H) Hsim1 Hr2) as (_ & fv2 & won2 & g2 & Hrun & Hsim2).
  destruct (sim_replay M fv1 won1 g1 s1 [] Hsim1) as (H1 & _ & Hset1 & Hf1).
  { exists 0. by left. }
  pose proof (proto_run_settled M g1 g2 H1 Hrun (si_proto _ _ _ _ _ Hsim1) Hset1) as Hset1'.
  destruct (sim_replay M fv2 won2 g2 s2 H1 Hsim2 Hset1') as (H2 & Hpre & _ & Hf2).
  by exists H1, H2.
Qed.




(** ** A run *)

Definition no_install_check (p : Packet) : bool :=
  match p with Call _ _ (MInstallSnapshot _) _ => false | _ => true end.

Definition calm_check (M : gset string) (s : Net) : bool :=
  steady_check M s &&
  forallb (λ kv : string * Raft, lastLogIndex kv.2 + 1 <? max_int64) (map_to_list (nodes s)) &&
  forallb no_install_check (soup s).

Lemma calm_check_sound M s : calm_check M s = true → calm M s.
Proof.
  unfold calm_check. rewrite !andb_true_iff, !forallb_forall. intros [[Hs Hn] Hp]. split_and!.
  - by apply steady_check_sound.
  - intros n r Hr. specialize (Hn (n, r)). rewrite <- list_elem_of_In, elem_of_map_to_list in Hn.
    by apply Hn, Z.ltb_lt in Hr.
  - apply Forall_forall. intros p Hin%list_elem_of_In%Hp. by destruct p as [? ? [] ?|].
Qed.

Lemma calm_runs M l s s' :
  exec_with (calm_check M) l s = Some s' → runs (calm M) s s'.
Proof. intros H. by eapply (exec_with_runs _ _ _ _ _ (calm_check_sound M)). Qed.

(** The leader "n1" has written a key, "n3" has accepted it and leads next. *)
Definition succeed_n3 : list Action :=
  [ATimer "n3"; ASpawn "n3" 1; ADeliver 6; ADeliver 7; ASpawn "n3" 3; ADeliver 8; ADeliver 9].
Definition succeeded : Net := after succeed_n3 written.

(** A node that [boot] has started. *)
Definition boot_check (n : string) (peers : gmap string string) (threshold : Z) : bool :=
  match NewRaft n peers "data" threshold 0 no_files with
  | Ok r => bool_decide ((Start r).1 = None)
  | Err _ => false
  end.

Lemma boot_started n peers threshold :
  boot_check n peers threshold = true → started n (boot n peers threshold empty_disk).
Proof.
  unfold boot_check, boot. change empty_disk with no_files.
  destruct (NewRaft _ _ _ _ _ _) as [r0|e] eqn:Hr; [|done]. intros Hs%bool_decide_eq_true.
  exists peers, "data", threshold, 0, r0. split; [done|].
  destruct (Start r0) as [e r]. simpl in Hs. by subst e.
Qed.

Lemma trio_started t :
  boot_check "n1" peers_of_n1 1000 = true →
  boot_check "n2" {["n1" := "h1"; "n3" := "h3"]} 1000 = true →
  boot_check "n3" {["n1" := "h1"; "n2" := "h2"]} t = true →
  new_cluster trio_members (mkNet {["n1" := n1_boot; "n2" := n2_boot;
    "n3" := boot "n3" {["n1" := "h1"; "n2" := "h2"]} t empty_disk]} []).
Proof.
  intros H1%boot_started H2%boot_started H3%boot_started. split; [done|]. cbn [nodes].
  apply map_Forall_insert_2; [split; [|by split]|].
  { apply (bool_decide_unpack _). vm_compute. exact I. }
  apply map_Forall_insert_2; [split; [|by split]|].
  { apply (bool_decide_unpack _). vm_compute. exact I. }
  apply map_Forall_singleton. split; [|by split].
  apply (bool_decide_unpack _). vm_compute. exact I.
Qed.

Lemma trio_new : new_cluster trio_members trio_net.
Proof. apply (trio_started 1000); vm_compute; reflexivity. Qed.

Lemma elected_runs : runs (calm trio_members) trio_net elected.
Proof. apply (calm_runs _ elect_n1). vm_compute. reflexivity. Qed.

Lemma written_runs : runs (calm trio_members) elected written.
Proof. apply (calm_runs _ write_n1). vm_compute. reflexivity. Qed.

Lemma succeeded_runs : runs (calm trio_members) written succeeded.
Proof. apply (calm_runs _ succeed_n3). vm_compute. reflexivity. Qed.

Example state_machine_safety_witness :
  ∃ H1 H2, H1 `prefix_of` H2 ∧ all_replay H1 written ∧ all_replay H2 succeeded.
Proof.
  apply (state_machine_safety trio_members trio_net written succeeded).
  - vm_compute. reflexivity.
  - exact trio_new.
  - exact (runs_trans _ _ _ _ elected_runs written_runs).
  - exact succeeded_runs.
Defined.

Definition node_of (s : Net) (n : string) : Raft := default no_node (nodes s !! n).



