(* ===== verification/SnapshotGap.v ===== *)
(** * Snapshots and safety

    [StateMachineSafety] leaves runs with a snapshot on the network out.  The
    run below shows why: [restoreSnapshot] keeps the entries a follower has
    after the index of a snapshot without looking at the term of the entry at
    that index, and [processAppendEntries] acknowledges everything up to the
    last index of the log.  The leader then counts entries it never sent. *)

From S2P Require Import Prelude Types Config Json Envelope Disk Wal SnapshotStore.
From S2P Require Import Node Roles Election Apply Replication Client Startup RunLoop.
From S2P Require Import Cluster Schedule ElectionSafety StateMachineSafety Scenarios.

(** The node "n3" takes a snapshot as soon as it has two entries. *)
Definition n3_compacting : Raft := boot "n3" {["n1" := "h1"; "n2" := "h2"]} 1 empty_disk.
Definition compacting_net : Net :=
  mkNet {["n1" := n1_boot; "n2" := n2_boot; "n3" := n3_compacting]} [].

(** "n1" leads the term 1 and proposes two entries that nobody receives. *)
Definition stale_entries : list Action :=
  [ATimer "n1"; ASpawn "n1" 0; ADeliver 0; ADeliver 1; ASpawn "n1" 2; ADeliver 2; ADeliver 3;
   APut "n1" "a" "1" "c" 1 1; APut "n1" "a" "2" "c" 2 2].
(** "n3" leads the term 2 with the vote of "n2", commits two entries with it
    and compacts them. *)
Definition compacted_entries : list Action :=
  [ATimer "n3"; ASpawn "n3" 1; ADeliver 4; ADeliver 5; ASpawn "n3" 3; ADeliver 6; ADeliver 7;
   AReplicate "n3" "n2"; ADeliver 8; ADeliver 9;
   APut "n3" "b" "1" "d" 1 3; AReplicate "n3" "n2"; ADeliver 10; ADeliver 11].
(** "n1" installs the snapshot, and acknowledges its own third entry. *)
Definition installed_snapshot : list Action :=
  [ASendSnapshot "n3" "n1"; ADeliver 12; ADeliver 13; AReplicate "n3" "n1"; ADeliver 14;
   ADeliver 15].
(** A write commits on "n3" alone when a heartbeat of "n2" is answered. *)
Definition lonely_commit : list Action :=
  [AReplicate "n3" "n2"; ADeliver 16; APut "n3" "k" "v" "d" 2 4; ADeliver 17].
(** "n2" leads the term 3 with the vote of "n1" and commits another entry. *)
Definition other_leader : list Action :=
  [ATimer "n2"; ASpawn "n2" 1; ADeliver 18; ADeliver 19; ASpawn "n2" 3; ADeliver 20;
   ADeliver 21; AReplicate "n2" "n1"; ADeliver 22; ADeliver 23].

Definition lost_write : list Action :=
  stale_entries ++ compacted_entries ++ installed_snapshot ++ lonely_commit ++ other_leader.
Definition lost : Net := after lost_write compacting_net.

(** C12. A snapshot can lose a write.  There is a run of three nodes, each
    message delivered at most once and the membership unchanged, at the end of
    which a write was answered as successful and applied by its leader, while
    another leader has applied a different entry at the same index: the key is
    in one store and not in the other, although both nodes have applied the
    same number of entries. *)
Theorem snapshot_loses_write :
  ∃ s0 s a b, new_cluster trio_members s0 ∧ runs (steady trio_members) s0 s ∧
    nodes s !! "n3" = Some a ∧ nodes s !! "n2" = Some b ∧
    lastApplied a = lastApplied b ∧
    SendResp 4 (mkCmdResp true None) ∈ effects a ∧
    kv a !! "k" = Some "v" ∧ kv b !! "k" = None ∧
    state b = Leader ∧ currentTerm a < currentTerm b.
Proof.
  exists compacting_net, lost, (node_of lost "n3"), (node_of lost "n2"). split_and!.
  - apply (trio_started 1); vm_compute; reflexivity.
  - apply (exec_runs trio_members lost_write). vm_compute. reflexivity.
  - vm_compute. reflexivity.
  - vm_compute. reflexivity.
  - vm_compute. reflexivity.
  - apply (bool_decide_unpack _). vm_compute. exact I.
  - vm_compute. reflexivity.
  - vm_compute. reflexivity.
  - vm_compute. reflexivity.
  - vm_compute. reflexivity.
Qed.
