(* ===== verification/ClientWrites.v ===== *)
(** * Acknowledged writes

    A client that is told its write succeeded is told the truth: its command
    is in the sequence all nodes replay, and stays there.  The proof follows
    the proposal of the command: its entry is in the log of the leader
    ([posted]), and a positive answer to it means that the entry is committed
    ([recorded]). *)

From S2P Require Import Prelude Types Config Json Envelope Disk Wal SnapshotStore.
From S2P Require Import Node Roles Election Apply Replication Client Startup RunLoop.
From S2P Require Import NodeFacts ReplicationFacts StateMachine ApplyFacts ElectionFacts.
From S2P Require Import ReplicationSpec RunFacts Cluster Schedule ElectionSafety RaftProtocol.
From S2P Require Import Answers Agreement FullLog LogSteps Simulation SimSteps SimAccept.
From S2P Require Import SimRun StateMachineSafety Scenarios.

(** Every request waits on a channel of its own. *)
Definition own_channels (s : Net) : Prop :=
  map_Forall (λ _ r, NoDup (channels r)) (nodes s).

Definition orderly (M : gset string) (s : Net) : Prop := calm M s ∧ own_channels s.

Section Track.
Context {PC : ProtoCodec} {DL : Dialer}.
Context (M : gset string) (Hodd : Z.odd (Z.of_nat (size M)) = true).

(** ** Channels are never forgotten *)

Lemma promised_channel r ch : ch ∈ promised r → ch ∈ channels r.
Proof.
  intros Hin. apply elem_of_app. left. unfold promised, answered in *.
  apply list_elem_of_omap in Hin as (e & He & Hs). apply list_elem_of_omap. exists e.
  split; [done|]. destruct e as [| | |c resp| | |]; try done. simpl in *.
  by destruct (success resp).
Qed.

Lemma proposal_channel r p : p ∈ proposals r → p_respCh p ∈ channels r.
Proof. intros Hin. apply elem_of_app. right. apply list_elem_of_fmap. eauto. Qed.

Lemma kept_channels chs r r' ch : kept chs r r' → ch ∈ channels r → ch ∈ channels r'.
Proof. intros Hk Hin. rewrite (k_channels _ _ _ Hk). apply elem_of_app. by left. Qed.

Lemma net_step_channels s s' n r r' ch :
  net_step s s' → nodes s !! n = Some r → nodes s' !! n = Some r' →
  ch ∈ channels r → ch ∈ channels r'.
Proof.
  intros Hstep Hr Hr'.
  assert (Hone : ∀ m x x', nodes s !! m = Some x → <[m := x']> (nodes s) !! n = Some r' →
    (ch ∈ channels x → ch ∈ channels x') → ch ∈ channels r → ch ∈ channels r').
  { intros m x x' Hx. rewrite lookup_insert_Some. intros [[<- <-]|[_ Hm]] Hk; simplify_eq; auto. }
  destruct Hstep as [m x ev out x' Hx _ He|m x e Hx He|m x t Hx
                    |src dst msg tracked x resp x' _ Hx He|dst msg x resp x' _ Hx He];
    simpl in Hr'; simplify_eq; try done.
  - apply (Hone m x x' Hx Hr'). pose proof (handle_kept ev x) as Hk. rewrite He in Hk.
    by eapply kept_channels.
  - apply (Hone dst x x' Hx Hr'). pose proof (kept_rpc msg x) as Hk. rewrite He in Hk.
    by eapply kept_channels.
  - apply (Hone dst x x' Hx Hr'). pose proof (kept_rpc msg x) as Hk. rewrite He in Hk.
    by eapply kept_channels.
Qed.

(** ** The proposal of one command *)

(** The command is in a committed log. *)
Definition recorded (g : Abs) (cmd : bytes) : Prop :=
  ∃ H i e, settled M g H ∧ H !! i = Some e ∧ Cmd e = cmd.

Record tracked (g : Abs) (cmd : bytes) (ch : nat) (r : Raft) : Prop := {
  tr_channel : ch ∈ channels r;
  tr_proposal p : p ∈ proposals r → p_respCh p = ch → posted g cmd p;
  tr_promised : ch ∈ promised r → recorded g cmd
}.

Lemma posted_grows n g g' cmd p : grows_abs n g g' → posted g cmd p → posted g' cmd p.
Proof.
  intros Hg (Hs & Hi & e & He & Hc). destruct (ga_llog _ _ _ Hg _ Hs) as [Hs' Hpre].
  split_and!; [done|done|]. exists e. split; [|done]. by eapply prefix_lookup_Some.
Qed.

Lemma posted_run g g' cmd p :
  proto_run M g g' → protocol_inv M g → posted g cmd p → posted g' cmd p.
Proof.
  intros Hr. induction Hr as [g|g1 g2 g3 [n Hs] _ IH]; intros Hg Hp; [done|].
  apply IH; [by eapply proto_step_inv|]. eapply posted_grows; [|exact Hp].
  by apply (proto_step_grows M g1 Hg n).
Qed.

Lemma recorded_run g g' cmd :
  proto_run M g g' → protocol_inv M g → recorded g cmd → recorded g' cmd.
Proof.
  intros Hr Hg (H & i & e & Hset & He). exists H, i, e.
  split; [by eapply proto_run_settled|done].
Qed.

(** A committed proposal is recorded. *)
Lemma fulfilled_recorded g n r cmd p :
  protocol_inv M g → node_rel M g n r → posted g cmd p →
  fulfilled (a_log g n) (commitIndex r) p → recorded g cmd.
Proof.
  intros Hg Hr ([c Hl] & Hi & e & He & Hc) Hf.
  pose proof (leader_term M g Hg _ _ Hl) as [Ht _].
  destruct Hf as [Hle Hterm]; [lia|]. pose proof (nr_commit _ _ _ _ Hr) as Hag.
  pose proof (agreed_length _ _ _ _ _ Hag) as Hlen.
  set (k := Z.to_nat (p_index p)) in *.
  destruct (term_at_Some (a_log g n) k) as (f & Hf & Htf); [lia|].
  destruct (pi_log M g Hg n _ _ Hf) as [_ Htake]. rewrite <- Htf, Hterm in Htake.
  replace (S (k - 1)) with k in Htake by lia.
  assert (Hag' : agreed M g (currentTerm r) k (a_log g n)) by (eapply agreed_le; [|exact Hag]; lia).
  exists (take k (a_log g n)), (k - 1)%nat, e. split_and!; [by eapply settled_take| |done].
  rewrite lookup_take_lt by lia. rewrite (lookup_take_eq k (k - 1) _ _ Htake) by lia.
  by replace (k - 1)%nat with (Z.to_nat (p_index p - 1)) by lia.
Qed.

Lemma tracked_step g n r r' cmd ch new :
  protocol_inv M g → node_rel M g n r' → answers (a_log g n) (commitIndex r') new r r' →
  (∀ p, p ∈ proposals r ++ new → p_respCh p = ch → posted g cmd p) →
  (ch ∈ promised r → recorded g cmd) → ch ∈ channels r' → tracked g cmd ch r'.
Proof.
  intros Hg Hrel [Hprom Hprop] Hp Hr Hch. split; [done| |].
  - intros p Hin. apply Hp. set_solver.
  - intros [?|(p & Hin & Hpc & Hf)]%Hprom; [auto|]. by eapply fulfilled_recorded; [..|apply Hp|].
Qed.

Lemma tracked_net fv won g s s' n r r' cmd ch :
  sim M fv won g s → orderly M s → net_step s s' → orderly M s' →
  nodes s !! n = Some r → nodes s' !! n = Some r' → tracked g cmd ch r →
  ∃ fv' won' g', proto_run M g g' ∧ sim M fv' won' g' s' ∧ tracked g' cmd ch r'.
Proof.
  intros Hsim [Hcalm _] Hstep [Hcalm' Hown] Hr Hr' [Tc Tp Ts].
  destruct (sim_step M Hodd fv won g s s' Hsim Hcalm Hstep Hcalm')
    as (fv' & won' & g' & Hrun & Hsim' & Hfair).
  exists fv', won', g'. split_and!; [done|done|].
  destruct (Hfair n r r' Hr Hr') as (new & Hans & Hnew).
  pose proof (si_proto _ _ _ _ _ Hsim) as Hg.
  apply (tracked_step g' n r r' cmd ch new); try done.
  - apply (si_proto _ _ _ _ _ Hsim').
  - by apply (si_nodes _ _ _ _ _ Hsim').
  - intros p [Hin|Hin]%elem_of_app Hpc.
    + eapply posted_run; [done|done|]. by apply Tp.
    + destruct (Hnew p Hin); [by rewrite Hpc|].
      by apply (map_Forall_lookup_1 _ _ _ _ Hown Hr').
  - intros Hin. eapply recorded_run; [done|done|]. by apply Ts.
  - by eapply net_step_channels.
Qed.

Lemma tracked_runs fv won g s s' n r cmd ch :
  sim M fv won g s → runs (orderly M) s s' → nodes s !! n = Some r → tracked g cmd ch r →
  ∃ fv' won' g' r', sim M fv' won' g' s' ∧ nodes s' !! n = Some r' ∧ tracked g' cmd ch r'.
Proof.
  intros Hsim Hrun Hr Ht.
  enough (orderly M s' ∧ ∃ fv' won' g' r', sim M fv' won' g' s' ∧ nodes s' !! n = Some r' ∧
    tracked g' cmd ch r') by naive_solver.
  induction Hrun as [s Hc|s1 s2 s3 Hrun IH Hstep Hc]; [naive_solver|].
  destruct (IH Hsim Hr) as (Hc2 & fv2 & won2 & g2 & r2 & Hsim2 & Hr2 & Ht2). split; [done|].
  destruct (net_step_node s2 s3 n r2 Hstep Hr2) as [r3 Hr3].
  destruct (tracked_net fv2 won2 g2 s2 s3 n r2 r3 cmd ch) as (fv3 & won3 & g3 & _ & ? & ?);
    try done. by exists fv3, won3, g3, r3.
Qed.

(** The step that proposes the command. *)
Lemma tracked_command fv won g s n r cmd ch :
  let r' := handleClientCommand cmd ch r in
  let s' := after_step s n r' [] in
  sim M fv won g s → calm M s → orderly M s' → nodes s !! n = Some r →
  (∀ i t, no_config (mkLogEntry i t cmd)) →
  ∃ fv' won' g', sim M fv' won' g' s' ∧ tracked g' cmd ch r'.
Proof.
  intros r' s' Hsim Hcalm [Hcalm' Hown] Hr Hcmd.
  assert (Hr' : nodes s' !! n = Some r') by apply lookup_insert_eq.
  destruct (sim_command M Hodd fv won g s n r cmd ch Hsim Hcalm Hcalm' Hr Hcmd)
    as (fv' & won' & g' & new & _ & Hsim' & Hans & Hnew).
  exists fv', won', g'. split; [done|].
  pose proof (k_channels _ _ _ (kept_client cmd ch r)) as Hk. fold r' in Hk.
  assert (Hno : ch ∉ channels r).
  { intros Hin. pose proof (map_Forall_lookup_1 _ _ _ _ Hown Hr') as Hnd.
    change (NoDup (channels r')) in Hnd. rewrite Hk in Hnd.
    apply NoDup_app in Hnd as (_ & Hd & _). apply (Hd _ Hin). by left. }
  apply (tracked_step g' n r r' cmd ch new); try done.
  - apply (si_proto _ _ _ _ _ Hsim').
  - by apply (si_nodes _ _ _ _ _ Hsim').
  - intros p [Hin%proposal_channel|Hin]%elem_of_app Hpc; [congruence|by apply Hnew].
  - by intros Hin%promised_channel.
  - rewrite Hk. apply elem_of_app. right. by left.
Qed.
End Track.

(** C3. Acknowledged writes are kept.  A node takes a command of a client, and
    at some later moment has answered that it succeeded.  Then the command is
    in the sequence of entries all nodes replay, and it stays there: at every
    later moment the sequence is an extension of this one.  The runs are those
    of C2, and no two requests of a node wait on one channel. *)
Theorem acknowledged_write_kept `{!ProtoCodec} `{!Dialer} M s0 s1 s2 n r1 r2 cmd ch :
  Z.odd (Z.of_nat (size M)) = true → new_cluster M s0 → runs (calm M) s0 s1 →
  nodes s1 !! n = Some r1 → local_event (ECommand cmd ch) →
  runs (orderly M) (after_step s1 n (handleClientCommand cmd ch r1) []) s2 →
  nodes s2 !! n = Some r2 → SendResp ch (mkCmdResp true None) ∈ effects r2 →
  ∃ H i e, H !! i = Some e ∧ Cmd e = cmd ∧ all_replay H s2 ∧
    ∀ s3, runs (calm M) s2 s3 → ∃ H', H `prefix_of` H' ∧ all_replay H' s3.
Proof.
  intros Hodd Hnew Hrun1 Hr1 (op & key & val & cl & rq & Hcmd) Hrun2 Hr2 Hok.
  destruct (reached M s0 s1 Hodd Hnew Hrun1) as (fv1 & won1 & g1 & Hsim1).
  destruct (sim_runs M Hodd (calm M) _ _ _ _ _ (λ _ x, x) (sim_start M Hodd s0 Hnew) Hrun1)
    as [Hcalm1 _].
  destruct (tracked_command M Hodd fv1 won1 g1 s1 n r1 cmd ch) as (fv & won & g & Hsim & Ht);
    try done; [by eapply runs_start|intros i t; by eapply proposed_plain|].
  destruct (tracked_runs M Hodd _ _ _ _ s2 n _ cmd ch Hsim Hrun2 (lookup_insert_eq _ _ _) Ht)
    as (fv2 & won2 & g2 & r2' & Hsim2 & Hr2' & [_ _ Hpr]).
  rewrite Hr2 in Hr2'. injection Hr2' as <-.
  destruct Hpr as (L & i & e & Hset & He & Hc).
  { unfold promised. apply list_elem_of_omap. by eexists. }
  destruct (sim_replay M fv2 won2 g2 s2 L Hsim2 Hset) as (L' & Hpre & HsetL & Hrep).
  exists L', i, e. split_and!; [by eapply prefix_lookup_Some|done|done|].
  intros s3 Hrun3.
  destruct (sim_runs M Hodd (calm M) _ _ _ _ _ (λ _ x, x) Hsim2 Hrun3)
    as (_ & fv3 & won3 & g3 & Hprun & Hsim3).
  pose proof (proto_run_settled M g2 g3 L' Hprun (si_proto _ _ _ _ _ Hsim2) HsetL) as Hset3.
  destruct (sim_replay M fv3 won3 g3 s3 L' Hsim3 Hset3) as (L3 & Hpre' & _ & Hrep'). by exists L3.
Qed.

(** ** A run *)

Definition orderly_check (M : gset string) (s : Net) : bool :=
  calm_check M s &&
  forallb (λ kv : string * Raft, bool_decide (NoDup (channels kv.2))) (map_to_list (nodes s)).

Lemma orderly_check_sound M s : orderly_check M s = true → orderly M s.
Proof.
  unfold orderly_check. rewrite andb_true_iff, forallb_forall. intros [Hc Hn].
  split; [by apply calm_check_sound|]. intros n r Hr. specialize (Hn (n, r)).
  rewrite <- list_elem_of_In, elem_of_map_to_list in Hn. by apply Hn, bool_decide_eq_true in Hr.
Qed.

(** "n1" has taken a write and sends it to "n3". *)
Definition proposed : Net :=
  after_step elected "n1"
    (handleClientCommand (put "k" "v" "c" 1) 0 (node_of elected "n1")) [].
Definition replicate_n1 : list Action := [AReplicate "n1" "n3"; ADeliver 4; ADeliver 5].

Lemma proposed_runs : runs (orderly trio_members) proposed written.
Proof.
  apply (exec_with_runs _ (orderly_check trio_members) replicate_n1);
    [apply orderly_check_sound|vm_compute; reflexivity].
Qed.

Example acknowledged_write_kept_witness :
  SendResp 0 (mkCmdResp true None) ∈ effects (node_of written "n1") ∧
  ∃ H i e, H !! i = Some e ∧ Cmd e = put "k" "v" "c" 1 ∧ all_replay H written ∧
    ∀ s3, runs (calm trio_members) written s3 → ∃ H', H `prefix_of` H' ∧ all_replay H' s3.
Proof.
  assert (Hok : SendResp 0 (mkCmdResp true None) ∈ effects (node_of written "n1"))
    by (apply (bool_decide_unpack _); vm_compute; exact I).
  split; [exact Hok|].
  apply (acknowledged_write_kept trio_members trio_net elected written "n1"
           (node_of elected "n1") (node_of written "n1") (put "k" "v" "c" 1) 0).
  - vm_compute. reflexivity.
  - exact trio_new.
  - exact elected_runs.
  - vm_compute. reflexivity.
  - exists "PUT", "k", "v", "c", 1. vm_compute. reflexivity.
  - exact proposed_runs.
  - vm_compute. reflexivity.
  - exact Hok.
Defined.
