(* ===== verification/Reads.v ===== *)
(** * Reads through a quorum

    [Get] in its safe mode takes the commit index of the leader, confirms the
    leadership with a quorum, waits until the index is applied and reads the
    store ([safe_read]).  The read sees everything that was committed when it
    began, provided the leader has committed an entry of its own term by then
    ([fresh_read]); [Get] does not wait for that, and a new leader can answer
    with an old value ([stale_read]). *)

From S2P Require Import Prelude Types Config Json Envelope Disk Wal SnapshotStore.
From S2P Require Import Node Roles Election Apply Replication Client Startup RunLoop.
From S2P Require Import NodeFacts ReplicationFacts StateMachine ApplyFacts ElectionFacts.
From S2P Require Import ReplicationSpec Cluster Schedule ElectionSafety RaftProtocol.
From S2P Require Import Answers Agreement FullLog LogSteps Simulation SimSteps SimAccept.
From S2P Require Import SimRun StateMachineSafety Scenarios.

(** The answer of the node [v] to the call [confirmLeaderQuorum] makes. *)
Definition confirms `{!ProtoCodec} `{!Dialer} (s : Net) (term : Z) (r : Raft) (v : string) : bool :=
  match confirm_requests term r with
  | None => false
  | Some reqs =>
      existsb (λ p : string * result AppendEntriesRequest,
        bool_decide (p.1 = v) &&
        match p.2, nodes s !! v with
        | Ok req, Some rv => Success (processAppendEntries req rv).1
        | _, _ => false
        end) reqs
  end.

(** The call [Get(key)] on the node [n], which begins at [s1], ends at [s2] and
    goes through a quorum: every peer that is counted has answered the request
    of [confirmLeaderQuorum] in between, and every look of
    [waitForAppliedIndex] is at the node as it was in between. *)
Definition safe_read `{!ProtoCodec} `{!Dialer} (M : gset string) (n key : string)
    (res : GetResult) (s1 s2 : Net) : Prop :=
  ∃ r1 i t sq rq rq' events polls r2,
    nodes s1 !! n = Some r1 ∧ Get_start key r1 = GetConfirm i t ∧
    runs (calm M) s1 sq ∧ nodes sq !! n = Some rq ∧ runs (calm M) sq s2 ∧
    (∀ v, CResult v true ∈ events →
       ∃ sv, runs (calm M) sq sv ∧ runs (calm M) sv s2 ∧ confirms sv t rq v = true) ∧
    (∀ p, p ∈ polls →
       ∃ sp, runs (calm M) sq sp ∧ runs (calm M) sp s2 ∧ nodes sp !! n = Some p) ∧
    nodes s2 !! n = Some r2 ∧
    res = Get_finish key i t (confirmLeaderQuorum t events rq rq').1 polls r2.

(** ** What the steps keep *)

Section Fresh.
Context {PC : ProtoCodec} {DL : Dialer}.
Context (M : gset string) (Hodd : Z.odd (Z.of_nat (size M)) = true).

Lemma proto_run_term g g' m :
  proto_run M g g' → protocol_inv M g → a_term g m ≤ a_term g' m.
Proof.
  intros Hr. induction Hr as [g|g1 g2 g3 [n Hs] _ IH]; intros Hg; [done|].
  pose proof (ga_term_le _ _ _ (proto_step_grows M g1 Hg n g2 Hs) m).
  specialize (IH (proto_step_inv M n _ _ Hs Hg)). lia.
Qed.

(** A node never takes back what it has applied. *)
Lemma runs_applied fv won g s s' n r r' :
  sim M fv won g s → runs (calm M) s s' → nodes s !! n = Some r → nodes s' !! n = Some r' →
  lastApplied r ≤ lastApplied r'.
Proof.
  intros Hsim Hrun Hr. revert r'.
  enough (calm M s' ∧ ∃ fv' won' g', sim M fv' won' g' s' ∧
    ∀ r', nodes s' !! n = Some r' → lastApplied r ≤ lastApplied r') by naive_solver.
  induction Hrun as [s Hc|s1 s2 s3 Hrun IH Hstep Hc].
  { split; [done|]. exists fv, won, g. split; [done|]. intros r' Hr'. simplify_eq. lia. }
  destruct (IH Hsim Hr) as (Hc2 & fv2 & won2 & g2 & Hsim2 & Hle). split; [done|].
  destruct (sim_step M Hodd fv2 won2 g2 s2 s3 Hsim2 Hc2 Hstep Hc)
    as (fv3 & won3 & g3 & _ & Hsim3 & Hfair).
  exists fv3, won3, g3. split; [done|]. intros r3 Hr3.
  destruct (runs_node _ _ _ n Hrun) as [r2 Hr2]; [by eexists|].
  destruct (Hfair n r2 r3 Hr2 Hr3) as (new & Hans & _). specialize (Hle r2 Hr2).
  pose proof (an_applied _ _ _ _ _ Hans). lia.
Qed.

(** ** The quorum *)

Lemma confirm_loop_majority c self k turns events acks :
  confirm_loop c self k turns events acks = true →
  ∃ acks', confirm_majority c self k acks' = true ∧
    ∀ v, lookup_bool acks' v = true → lookup_bool acks v = true ∨ CResult v true ∈ events.
Proof.
  revert events acks. induction turns as [|turns IH]; intros events acks; cbn [confirm_loop].
  { intros H. exists acks. split; [done|by left]. }
  destruct events as [|ev events]; [intros H; exists acks; split; [done|by left]|].
  set (acks1 := match ev with CResult p true => <[p := true]> acks | _ => acks end).
  assert (Hacks : ∀ v, lookup_bool acks1 v = true → lookup_bool acks v = true ∨ ev = CResult v true).
  { intros v. unfold acks1. destruct ev as [p [|]|]; auto. unfold lookup_bool.
    destruct (decide (p = v)) as [->|Hne]; [by right|]. rewrite lookup_insert_ne by done. by left. }
  clearbody acks1. destruct (confirm_majority _ _ _ acks1) eqn:Hm.
  - intros _. exists acks1. split; [done|]. intros v [?| ->]%Hacks; [by left|right; by left].
  - intros (acks' & Hm' & Hv)%IH. exists acks'. split; [done|].
    intros v [[?| ->]%Hacks|?]%Hv; [by left|right; by left|right; by right].
Qed.

(** A leader that has confirmed its term has heard from a majority. *)
Lemma confirmed_majority t events r r' :
  steady_node M r → (confirmLeaderQuorum t events r r').1 = true →
  state r = Leader ∧ currentTerm r = t ∧
  ∃ Q, majority M Q ∧ ∀ v, v ∈ Q → v = node_id r ∨ CResult v true ∈ events.
Proof.
  intros Hst. unfold confirmLeaderQuorum.
  destruct (bool_decide (state r ≠ Leader) || negb (currentTerm r =? t)) eqn:Hc; [done|].
  apply orb_false_iff in Hc as [Hs%bool_decide_eq_false%dec_stable Ht%negb_false_iff%Z.eqb_eq].
  case_bool_decide as He; cbn [fst]; intros H; (split; [done|]; split; [done|]).
  - pose proof (no_peers_steady M Hodd r Hst He) as HM. exists M.
    split; [split; [done|]; rewrite HM, size_singleton; lia|].
    intros v. rewrite HM, elem_of_singleton. by left.
  - apply confirm_loop_majority in H as (acks & Hm & Hv).
    exists (voters_of M acks). split.
    + split; [unfold voters_of; set_solver|]. apply (vote_majority_steady M Hodd r); [done|].
      destruct Hst as [(c & Hc & _) _]. unfold confirm_majority in Hm. unfold vote_majority.
      by rewrite Hc in *.
    + intros v Hvq. unfold voters_of in Hvq. apply elem_of_filter in Hvq as [Hvq _].
      destruct (Hv v Hvq) as [Hl|?]; [left|by right]. unfold lookup_bool in Hl.
      destruct (decide (node_id r = v)) as [|Hne]; [done|].
      by rewrite lookup_singleton_ne in Hl.
Qed.

(** A node that confirms a term is not past it. *)
Lemma confirms_term s t r v :
  confirms s t r v = true → ∃ rv, nodes s !! v = Some rv ∧ currentTerm rv ≤ t.
Proof.
  unfold confirms, confirm_requests. destruct (_ || _); [done|].
  rewrite existsb_exists. intros ([p q] & Hin & Hc). apply in_map_iff in Hin as ([p' a] & Hp & _).
  injection Hp as -> Hq. apply andb_true_iff in Hc as [<-%bool_decide_eq_true Hc].
  cbn [fst snd] in *. destruct q as [req|]; [|done]. apply with_connection_Ok in Hq as ->.
  destruct (nodes s !! p) as [rv|]; [|done]. exists rv. split; [done|].
  destruct (processAppendEntries_cases (mkAppendEntriesRequest t (node_id r) (lastLogIndex r)
    (lastLogTerm r) [] (commitIndex r)) rv) as [[_ Hres]|[(Hle & _)|(Hle & _)]]; [|done|done].
  by rewrite Hres in Hc.
Qed.

(** ** What the read index covers *)

(** The leader of [t] has committed an entry of its term at [i] or before, and
    a majority has not gone past the term: no node has committed more than
    [i]. *)
Lemma index_covers g t i Q T c l :
  protocol_inv M g → is_Some (a_leader g t) → term_at (a_llog g t) i = t → 1 ≤ t →
  (a_known g t ≤ i)%nat → majority M Q → (∀ v, v ∈ Q → a_term g v ≤ t) →
  agreed M g T c l → (c ≤ i)%nat.
Proof.
  intros Hg Hl Hi Ht Hk HQ Hterm [->|(u & k & _ & Hc & Hck & _ & Hku)]; [lia|].
  destruct (Z.lt_trichotomy u t) as [Hlt|[->|Hgt]].
  - (* what an earlier leader has committed is before the entries of this one *)
    pose proof (pi_safe M g Hg u t k (choosable_committed M g u k Hc) Hlt Hl) as Hsafe.
    destruct Hc as (_ & Hk1 & Htk & _).
    destruct (decide (c ≤ i)%nat) as [|Hci]; [done|exfalso].
    pose proof (take_eq_length _ _ _ Hsafe ltac:(lia)) as Hlen.
    rewrite <- (term_at_take _ _ _ Hsafe) in Htk.
    destruct (decide (i = O)) as [->|Hi0]; [simpl in Hi; lia|].
    destruct (term_at_Some (a_llog g t) i) as (a & Ha & Hta); [lia|].
    destruct (term_at_Some (a_llog g t) k) as (b & Hb & Htb); [lia|].
    pose proof (matches_sorted M g Hg _ _ _ _ _ (pi_llog M g Hg t Hl) Ha Hb ltac:(lia)). lia.
  - lia.
  - (* a later leader would have the votes of a node of the quorum *)
    destruct Hc as (_ & Hk1 & _ & Q' & HQ' & Hack).
    destruct (majority_meet M Q Q' HQ HQ') as (v & Hv & Hv').
    specialize (Hterm v Hv). specialize (Hack v Hv').
    pose proof (pi_ack_term M g Hg v u ltac:(lia)). lia.
Qed.
End Fresh.

Lemma get_confirm key r i t :
  Get_start key r = GetConfirm i t → state r = Leader ∧ i = commitIndex r ∧ t = currentTerm r.
Proof.
  unfold Get_start. case_bool_decide as Hs; [done|]. cbv zeta.
  case_bool_decide; [done|]. destruct (_ && _); [done|]. intros [= <- <-].
  done.
Qed.

Lemma get_finished key i t ok polls r val found :
  Get_finish key i t ok polls r = (val, found, true) →
  ok = true ∧ (∃ p, p ∈ polls ∧ i ≤ lastApplied p) ∧
  val = lookup_str (kv r) key ∧ found = bool_decide (is_Some (kv r !! key)).
Proof.
  unfold Get_finish, no_read. destruct ok; [|done]. cbn [negb].
  destruct (waitForAppliedIndex i polls) eqn:Hw; [|done]. cbn [negb].
  destruct (_ || _); [done|]. unfold read_kv. intros [= <- <-]. split; [done|].
  split; [|done]. unfold waitForAppliedIndex in Hw. apply existsb_exists in Hw as (p & Hp & Hle).
  exists p. split; [by apply list_elem_of_In|by apply Z.leb_le].
Qed.

(** C4. Reads through a quorum are fresh.  A leader that has committed an
    entry of its own term begins a safe read and can serve it.  Then there is a
    moment [k] in the sequence of entries all nodes replay such that the answer
    is the value of the key after the first [k] entries, and [k] is not before
    the commit index of any node when the read began: whatever any node had
    committed by then, and so every write that had been acknowledged, is seen.
    The runs are those of C2. *)
Theorem fresh_read `{!ProtoCodec} `{!Dialer} M s0 s1 s2 n r1 key val found :
  Z.odd (Z.of_nat (size M)) = true → new_cluster M s0 → runs (calm M) s0 s1 →
  nodes s1 !! n = Some r1 → getEntryTerm r1 (commitIndex r1) = currentTerm r1 →
  safe_read M n key (val, found, true) s1 s2 →
  ∃ H1 H2 k, H1 `prefix_of` H2 ∧ all_replay H1 s1 ∧ all_replay H2 s2 ∧ (k ≤ length H2)%nat ∧
    map_Forall (λ _ r, commitIndex r ≤ Z.of_nat k) (nodes s1) ∧
    val = lookup_str (sm_after H2 k).1 key ∧
    found = bool_decide (is_Some ((sm_after H2 k).1 !! key)).
Proof.
  intros Hodd Hnew Hrun Hr1 Hown (r & i & t & sq & rq & rq' & events & polls & r2 & Hr & Hstart &
    Hrun1 & Hrq & Hrun2 & Hev & Hpolls & Hr2 & Hres).
  rewrite Hr1 in Hr. injection Hr as <-. symmetry in Hres.
  apply get_confirm in Hstart as (Hs & -> & ->).
  apply get_finished in Hres as (Hok & (p & Hp & Hle) & -> & ->).
  destruct (reached M s0 s1 Hodd Hnew Hrun) as (fv1 & won1 & g1 & Hsim1).
  destruct (sim_runs M Hodd (calm M) _ _ _ _ _ (λ _ x, x) Hsim1 Hrun1)
    as (Hcalmq & fvq & wonq & gq & Hpq & Hsimq).
  destruct (sim_runs M Hodd (calm M) _ _ _ _ _ (λ _ x, x) Hsimq Hrun2)
    as (_ & fv2 & won2 & g2 & Hp2 & Hsim2).
  pose proof (si_proto _ _ _ _ _ Hsim1) as Hg1. pose proof (si_proto _ _ _ _ _ Hsimq) as Hgq.
  destruct (si_nodes _ _ _ _ _ Hsim1 n r1 Hr1) as [_ Hrel1].
  destruct (calm_node M sq n rq Hcalmq Hrq) as (Hst & _).
  destruct (confirmed_majority M Hodd _ _ rq rq' Hst Hok) as (_ & _ & Q & HQ & Hvotes).
  assert (Hterm : ∀ v, v ∈ Q → a_term g1 v ≤ currentTerm r1).
  { intros v [->|(sv & Hrunv & _ & Hcf)%Hev]%Hvotes.
    - rewrite (ni_id _ _ _ _ (proj1 (si_net _ _ _ _ _ Hsimq) n rq Hrq)).
      rewrite (nr_term _ _ _ _ Hrel1). done.
    - apply confirms_term in Hcf as (rv & Hrv & Hle').
      destruct (sim_runs M Hodd (calm M) _ _ _ _ _ (λ _ x, x) Hsimq Hrunv)
        as (_ & fvv & wonv & gv & Hpv & Hsimv).
      destruct (si_nodes _ _ _ _ _ Hsimv v rv Hrv) as [_ Hrelv].
      pose proof (proto_run_term M g1 gv v ltac:(by etrans) Hg1) as Hmono.
      rewrite (nr_term _ _ _ _ Hrelv) in Hmono. lia. }
  destruct (leader_log M _ _ _ _ n r1 Hsim1 Hr1 Hs) as [Hlead Hlog].
  destruct (nr_known _ _ _ _ Hrel1 Hs) as [Hln Hkn].
  pose proof (leader_term M g1 Hg1 _ _ Hln) as [Ht1 _].
  pose proof (fl_repr _ _ (nr_full _ _ _ _ Hrel1)) as Hrepr.
  destruct (fl_ok _ _ (nr_full _ _ _ _ Hrel1)) as [[Hi1 Hi2] Hi3].
  pose proof (repr_base _ _ Hrepr) as Hb. pose proof (repr_room _ _ Hrepr) as Hroom.
  rewrite (repr_last _ _ Hrepr) in Hi3.
  set (c := Z.to_nat (commitIndex r1)). assert (Hc : commitIndex r1 = Z.of_nat c) by lia.
  assert (Hown' : term_at (a_llog g1 (currentTerm r1)) c = currentTerm r1).
  { rewrite <- Hlog, <- (repr_entry_term _ _ Hrepr) by (unfold max_int64 in *; lia).
    by rewrite <- Hc. }
  assert (Hcov : map_Forall (λ _ r, commitIndex r ≤ commitIndex r1) (nodes s1)).
  { intros m rm Hm. destruct (si_nodes _ _ _ _ _ Hsim1 m rm Hm) as [_ Hrelm].
    pose proof (index_covers M g1 (currentTerm r1) c Q _ _ _ Hg1 Hlead Hown' Ht1 ltac:(lia) HQ
      Hterm (nr_commit _ _ _ _ Hrelm)). lia. }
  destruct (Hpolls p Hp) as (sp & Hrunp & Hrunp2 & Hnp).
  destruct (sim_runs M Hodd (calm M) _ _ _ _ _ (λ _ x, x) Hsimq Hrunp)
    as (_ & fvp & wonp & gp & _ & Hsimp).
  pose proof (runs_applied M Hodd _ _ _ sp s2 n p r2 Hsimp Hrunp2 Hnp Hr2) as Happ.
  destruct (sim_replay M _ _ _ _ [] Hsim1) as (H1 & _ & Hset & Hrep1); [exists 0; by left|].
  pose proof (proto_run_settled M g1 g2 H1 ltac:(by etrans) Hg1 Hset) as Hset2.
  destruct (sim_replay M _ _ _ _ H1 Hsim2 Hset2) as (H2 & Hpre & _ & Hrep2).
  destruct (Hrep2 n r2 Hr2) as [Hidx Hstore _].
  exists H1, H2, (Z.to_nat (lastApplied r2)). rewrite <- Hstore.
  split; [done|]. split; [done|]. split; [done|]. split; [lia|]. split; [|done].
  intros m rm Hm. specialize (Hcov m rm Hm). simpl in Hcov. lia.
Qed.

(** ** Two reads *)

(** "n3" has been elected, and "n2" has accepted its log; the answer of "n2" is
    still on its way. *)
Definition catch_up_n2 : list Action :=
  [AReplicate "n3" "n2"; ADeliver 10; ADeliver 11; AReplicate "n3" "n2"; ADeliver 12].
Definition caught_up : Net := after catch_up_n2 succeeded.

(** The answer has arrived: "n3" has committed the no-op of its term. *)
Definition refreshed : Net := after [ADeliver 13] caught_up.

Lemma caught_up_runs : runs (calm trio_members) trio_net caught_up.
Proof.
  apply (runs_trans _ _ _ _ (runs_trans _ _ _ _ elected_runs written_runs)).
  apply (runs_trans _ _ _ _ succeeded_runs).
  apply (calm_runs _ catch_up_n2). vm_compute. reflexivity.
Qed.

Lemma refreshed_runs : runs (calm trio_members) trio_net refreshed.
Proof.
  apply (runs_trans _ _ _ _ caught_up_runs).
  apply (calm_runs _ [ADeliver 13]). vm_compute. reflexivity.
Qed.

(** A read of "k" on "n3" that "n2" confirms while nothing else happens. *)
Lemma quick_read s i t res :
  runs (calm trio_members) trio_net s →
  (nodes s !! "n3" = Some (node_of s "n3") ∧
   Get_start "k" (node_of s "n3") = GetConfirm i t ∧
   confirms s t (node_of s "n3") "n2" = true ∧
   res = Get_finish "k" i t (confirmLeaderQuorum t [CResult "n2" true] (node_of s "n3")
           (node_of s "n3")).1 [node_of s "n3"] (node_of s "n3")) →
  safe_read trio_members "n3" "k" res s s.
Proof.
  intros Hrun (Hn & Hs & Hc & Hr).
  assert (Hstay : runs (calm trio_members) s s) by (apply runs_refl; by eapply runs_end).
  exists (node_of s "n3"), i, t, s, (node_of s "n3"), (node_of s "n3"), [CResult "n2" true],
    [node_of s "n3"], (node_of s "n3").
  split_and!; try done.
  - intros v Hv%list_elem_of_singleton. injection Hv as ->. by exists s.
  - intros p ->%list_elem_of_singleton. by exists s.
Qed.

(** C13. A read can be stale.  A new leader knows less of what is committed
    than the cluster does, and [Get] does not wait for the no-op of its term:
    in this run a write was answered as a success, and a safe read of the key
    that begins afterwards on the leader of the next term, which a quorum
    confirms, is answered with "not found". *)
Theorem stale_read :
  ∃ s0 s a, new_cluster trio_members s0 ∧ runs (calm trio_members) s0 s ∧
    nodes s !! "n1" = Some a ∧ SendResp 0 (mkCmdResp true None) ∈ effects a ∧
    kv a !! "k" = Some "v" ∧
    safe_read trio_members "n3" "k" ("", false, true) s s.
Proof.
  exists trio_net, caught_up, (node_of caught_up "n1"). split_and!.
  - exact trio_new.
  - exact caught_up_runs.
  - vm_compute. reflexivity.
  - apply (bool_decide_unpack _). vm_compute. exact I.
  - vm_compute. reflexivity.
  - apply (quick_read caught_up 0 2); [exact caught_up_runs|]. vm_compute. by split_and!.
Qed.

Example fresh_read_witness :
  nodes refreshed !! "n3" = Some (node_of refreshed "n3") ∧
  ∃ H1 H2 k, H1 `prefix_of` H2 ∧ all_replay H1 refreshed ∧ all_replay H2 refreshed ∧
    (k ≤ length H2)%nat ∧
    map_Forall (λ _ r, commitIndex r ≤ Z.of_nat k) (nodes refreshed) ∧
    "v" = lookup_str (sm_after H2 k).1 "k" ∧
    true = bool_decide (is_Some ((sm_after H2 k).1 !! "k")).
Proof.
  assert (Hn : nodes refreshed !! "n3" = Some (node_of refreshed "n3"))
    by (vm_compute; reflexivity).
  split; [exact Hn|].
  apply (fresh_read trio_members trio_net refreshed refreshed "n3" (node_of refreshed "n3")
           "k" "v" true).
  - vm_compute. reflexivity.
  - exact trio_new.
  - exact refreshed_runs.
  - exact Hn.
  - vm_compute. reflexivity.
  - apply (quick_read refreshed 3 2); [exact refreshed_runs|]. vm_compute. by split_and!.
Defined.
