(* ===== verification/CrashGap.v ===== *)
(** * Restarts and safety

    A node that crashes comes back with what [NewRaft] reads from its disk
    ([restart]).  The agreement theorems are about runs without restarts; the
    two runs below show why.  [transitionToFollower] raises the term in memory
    only, so a node that restarts can follow a leader it had left
    ([restart_forgets_term]); and [takeSnapshot] empties the log file although
    the log has entries after the snapshot ([restart_forgets_entries]). *)

From S2P Require Import Prelude Types Config Json Envelope Disk Wal SnapshotStore.
From S2P Require Import Node Roles Election Apply Replication Client Startup RunLoop.
From S2P Require Import Cluster Schedule ElectionSafety Simulation StateMachineSafety SnapshotGap.
From S2P Require Import Scenarios.

(** The node [n] crashes and is started again with the same settings: what is
    left is its disk. *)
Definition restart `{!ProtoCodec} `{!Dialer} (n : string) (peers : gmap string string)
    (dir : string) (threshold now : Z) (s s' : Net) : Prop :=
  ∃ r r0 r', nodes s !! n = Some r ∧
    NewRaft n peers dir threshold now (disk r) = Ok r0 ∧ Start r0 = (None, r') ∧
    s' = mkNet (<[n := r']> (nodes s)) (soup s).

(** Two nodes have committed different entries at the index [i]. *)
Definition split_at (i : Z) (a b : Raft) : Prop :=
  lastIncludedIndex a < i ≤ commitIndex a ∧ lastIncludedIndex b < i ≤ commitIndex b ∧
  ∃ e f, getEntry a i = Some e ∧ getEntry b i = Some f ∧ e ≠ f.

(** ** A term that is not written *)

Definition quintet_names : list string := ["n1"; "n2"; "n3"; "n4"; "n5"].
Definition quintet_members : gset string := list_to_set quintet_names.
Definition peers_of (n : string) : gmap string string :=
  list_to_map (map (λ p, (p, "h" +:+ p)) (filter (λ p, p ≠ n) quintet_names)).
Definition quintet_net : Net :=
  mkNet (list_to_map (map (λ n, (n, boot n (peers_of n) 1000 empty_disk)) quintet_names)) [].

(** "n1" leads the term 1 with the votes of "n2" and "n3", and takes a write
    that nobody receives. *)
Definition first_leader : list Action :=
  [ATimer "n1"; ASpawn "n1" 0; ASpawn "n1" 2; ADeliver 0; ADeliver 1; ADeliver 2; ADeliver 3;
   ASpawn "n1" 4; ASpawn "n1" 6; ADeliver 4; ADeliver 5; ADeliver 6; ADeliver 7;
   APut "n1" "a" "1" "c" 1 0].
(** "n2" leads the term 2 with the votes of "n3" and "n4", and commits a write
    with "n3" and "n5". *)
Definition second_leader : list Action :=
  [ATimer "n2"; ASpawn "n2" 0; ASpawn "n2" 3; ADeliver 8; ADeliver 9; ADeliver 10; ADeliver 11;
   ASpawn "n2" 4; ASpawn "n2" 7; ADeliver 12; ADeliver 13; ADeliver 14; ADeliver 15;
   APut "n2" "k" "v" "d" 1 0; AReplicate "n2" "n5"; ADeliver 16; ADeliver 17;
   AReplicate "n2" "n3"; ADeliver 18; ADeliver 19].
(** "n5" has restarted and follows "n1" again, which leads the term 3 with the
    votes of "n5" and "n4" and commits its log with them. *)
Definition first_leader_again : list Action :=
  [AReplicate "n1" "n5"; ADeliver 20; AReplicate "n1" "n4"; ADeliver 22; ADeliver 23;
   ATimer "n1"; ASpawn "n1" 19; ASpawn "n1" 21; ADeliver 24; ADeliver 25; ADeliver 26;
   ADeliver 27; ASpawn "n1" 23; ASpawn "n1" 25; ADeliver 28; ADeliver 29; ADeliver 30;
   ADeliver 31; AReplicate "n1" "n5"; ADeliver 32; ADeliver 33; AReplicate "n1" "n4";
   ADeliver 34; ADeliver 35; AReplicate "n1" "n4"; ADeliver 36; ADeliver 37].

Definition reboot (n : string) (peers : gmap string string) (threshold : Z) (s : Net) : Net :=
  mkNet (<[n := boot n peers threshold (disk (node_of s n))]> (nodes s)) (soup s).

Definition calm_after_all (M : gset string) (l : list Action) (s : Net) : Net :=
  default s (exec_with (calm_check M) l s).
Definition before_crash : Net :=
  calm_after_all quintet_members (first_leader ++ second_leader) quintet_net.
Definition rebooted : Net := reboot "n5" (peers_of "n5") 1000 before_crash.
Definition forgotten : Net := calm_after_all quintet_members first_leader_again rebooted.

(** The check of a restart. *)
Definition reboot_check (n : string) (peers : gmap string string) (threshold : Z) (s : Net)
    : bool :=
  match nodes s !! n with
  | Some r =>
      match NewRaft n peers "data" threshold 0 (disk r) with
      | Ok r0 => bool_decide ((Start r0).1 = None)
      | Err _ => false
      end
  | None => false
  end.

Lemma reboot_restart n peers threshold s :
  reboot_check n peers threshold s = true →
  restart n peers "data" threshold 0 s (reboot n peers threshold s).
Proof.
  unfold reboot_check, reboot, node_of, boot. destruct (nodes s !! n) as [r|] eqn:Hr; [|done].
  simpl. destruct (NewRaft _ _ _ _ _ _) as [r0|e] eqn:Hn; [|done]. intros Hs%bool_decide_eq_true.
  destruct (Start r0) as [e r'] eqn:Hst. simpl in Hs. subst e. by exists r, r0, r'.
Qed.

Lemma quintet_new : new_cluster quintet_members quintet_net.
Proof.
  assert (H : ∀ n, boot_check n (peers_of n) 1000 = true → n ≠ "" → n ∈ quintet_members →
    n ∈ quintet_members ∧ n ≠ "" ∧ started n (boot n (peers_of n) 1000 empty_disk)).
  { intros n Hb Hn Hm. split_and!; [done|done|by apply boot_started]. }
  split; [done|]. unfold quintet_net. cbn [nodes quintet_names map list_to_map foldr fst snd].
  repeat (apply map_Forall_insert_2;
    [apply H; [vm_compute; reflexivity|done|apply (bool_decide_unpack _); vm_compute; exact I]|]).
  apply map_Forall_empty.
Qed.

(** C15. A restart can lose a write.  There is a run of five nodes without
    snapshots in which one node crashes once and restarts from its disk, at the
    end of which two leaders have committed different entries at the same
    index, and the client of the entry that is lost was told that its write
    had succeeded: the node had acknowledged it in a term it has forgotten. *)
Theorem restart_forgets_term :
  ∃ s0 s1 s2 s a b, new_cluster quintet_members s0 ∧
    runs (calm quintet_members) s0 s1 ∧
    restart "n5" (peers_of "n5") "data" 1000 0 s1 s2 ∧
    runs (calm quintet_members) s2 s ∧
    nodes s !! "n2" = Some a ∧ nodes s !! "n1" = Some b ∧ split_at 2 a b ∧
    SendResp 0 (mkCmdResp true None) ∈ effects a ∧
    kv a !! "k" = Some "v" ∧ kv b !! "k" = None ∧ currentTerm a < currentTerm b.
Proof.
  exists quintet_net, before_crash, rebooted, forgotten, (node_of forgotten "n2"),
    (node_of forgotten "n1"). split_and!.
  - exact quintet_new.
  - apply (calm_runs _ (first_leader ++ second_leader)). vm_compute. reflexivity.
  - apply reboot_restart. vm_compute. reflexivity.
  - apply (calm_runs _ first_leader_again). vm_compute. reflexivity.
  - vm_compute. reflexivity.
  - vm_compute. reflexivity.
  - vm_compute. split_and!; try done. eexists _, _. split_and!; [done..|]. intros H. discriminate H.
  - apply (bool_decide_unpack _). vm_compute. exact I.
  - vm_compute. reflexivity.
  - vm_compute. reflexivity.
  - vm_compute. reflexivity.
Qed.

(** ** Entries that are not written back *)

(** "n1" leads; "n3" compacts the first entry when it takes the second one,
    which "n1" then commits with it. *)
Definition compacted_behind : list Action :=
  elect_n1 ++
  [AReplicate "n1" "n3"; ADeliver 4; ADeliver 5; AReplicate "n1" "n2"; ADeliver 6;
   APut "n1" "k" "v" "c" 1 0; AReplicate "n1" "n3"; ADeliver 8; ADeliver 9].
(** "n3" has restarted, leads the term 2 with the vote of "n2" and commits an
    entry with it. *)
Definition leads_without : list Action :=
  [ATimer "n3"; ASpawn "n3" 1; ADeliver 10; ADeliver 11; ASpawn "n3" 3; ADeliver 12;
   ADeliver 13; AReplicate "n3" "n2"; ADeliver 14; ADeliver 15].

Definition peers_of_n3 : gmap string string := {["n1" := "h1"; "n2" := "h2"]}.
Definition acknowledged_tail : Net :=
  calm_after_all trio_members compacted_behind compacting_net.
Definition lost_tail : Net := reboot "n3" peers_of_n3 1 acknowledged_tail.
Definition overwritten : Net := calm_after_all trio_members leads_without lost_tail.

(** C16. Compaction drops the entries after the commit index from the disk.  There
    is a run of three nodes in which a follower compacts its log, crashes once
    and restarts, at the end of which two leaders have committed different
    entries at the same index and a write that was answered as a success is
    lost: the follower had acknowledged it, and its disk no longer had it. *)
Theorem restart_forgets_entries :
  ∃ s0 s1 s2 s a b, new_cluster trio_members s0 ∧
    runs (calm trio_members) s0 s1 ∧
    restart "n3" peers_of_n3 "data" 1 0 s1 s2 ∧
    runs (calm trio_members) s2 s ∧
    nodes s !! "n1" = Some a ∧ nodes s !! "n3" = Some b ∧ split_at 2 a b ∧
    SendResp 0 (mkCmdResp true None) ∈ effects a ∧
    kv a !! "k" = Some "v" ∧ kv b !! "k" = None ∧ lastApplied a = lastApplied b.
Proof.
  exists compacting_net, acknowledged_tail, lost_tail, overwritten, (node_of overwritten "n1"),
    (node_of overwritten "n3"). split_and!.
  - apply (trio_started 1); vm_compute; reflexivity.
  - apply (calm_runs _ compacted_behind). vm_compute. reflexivity.
  - apply reboot_restart. vm_compute. reflexivity.
  - apply (calm_runs _ leads_without). vm_compute. reflexivity.
  - vm_compute. reflexivity.
  - vm_compute. reflexivity.
  - vm_compute. split_and!; try done. eexists _, _. split_and!; [done..|]. intros H. discriminate H.
  - apply (bool_decide_unpack _). vm_compute. exact I.
  - vm_compute. reflexivity.
  - vm_compute. reflexivity.
  - vm_compute. reflexivity.
Qed.
