(* ===== verification/Durable.v ===== *)
(** * What a node writes to its log file

    [writes recs r r']: the step from [r] to [r'] has appended the records
    [recs] to the log file and touched nothing else on the disk.  [persists]:
    these records turn the log of [r] into the log of [r'], and the term and
    vote they record, if any, are those of [r'].  One lemma per handler, for
    nodes that do not compact. *)

From S2P Require Import Prelude Types Config Json Envelope Disk Wal WalSpec SnapshotStore.
From S2P Require Import Node Roles Election Apply Replication Client Startup RunLoop.
From S2P Require Import NodeFacts ReplicationFacts StateMachine ApplyFacts ElectionFacts.
From S2P Require Import ReplicationSpec RaftProtocol Answers FullLog LogSteps SimRun.

(** ** Records *)

(** The replayed log after a new entry, and after a truncation. *)
Lemma place_new l e : (∀ x, x ∈ l → Index x ≠ Index e) → place_entry l e = l ++ [e].
Proof.
  induction l as [|a l IH]; intros Hl; [done|]. cbn [place_entry].
  destruct (Z.eqb_spec (Index a) (Index e)) as [He|]; [by destruct (Hl a); [left|]|].
  rewrite IH; [done|]. intros x Hx. apply Hl. by right.
Qed.

Lemma truncate_layout l k :
  layout 0 l → truncate_entries l (Z.of_nat k + 1) = take k l.
Proof.
  assert (H : ∀ b l k, layout b l →
    truncate_entries l (b + Z.of_nat k + 1) = take k l); [|intros Hl; by apply (H 0)].
  clear l k. intros b l. revert b. induction l as [|a l IH]; intros b k Hl; [by destruct k|].
  pose proof (Hl O a eq_refl) as Ha.
  assert (Hl' : layout (b + 1) l) by (intros i e He; rewrite (Hl (S i) e He); lia).
  unfold truncate_entries. rewrite filter_cons. destruct k as [|k].
  - rewrite decide_False by lia. pose proof (IH (b + 1) O Hl') as H0.
    assert (Hall : ∀ m : list LogEntry, (∀ x, x ∈ m → b + 0 + 1 ≤ Index x) →
      filter (λ e, Index e < b + Z.of_nat 0 + 1) m = []).
    { induction m as [|x m IHm]; intros Hm; [done|]. rewrite filter_cons, decide_False.
      - apply IHm. intros y Hy. apply Hm. by right.
      - assert (b + 0 + 1 ≤ Index x) by (apply Hm; by left). lia. }
    apply Hall. intros x Hx. apply list_elem_of_lookup in Hx as [i Hx].
    rewrite (Hl' i x Hx). lia.
  - rewrite decide_True by lia. cbn [take]. f_equal. rewrite <- (IH (b + 1) k Hl').
    unfold truncate_entries. apply list_filter_iff. intros x. lia.
Qed.

Section Durable.
Context {PC : ProtoCodec} {DL : Dialer}.

(** The disk after the records. *)
Definition write_all (w : WAL) (recs : list WALRecord) (d : Disk) : Disk :=
  foldl (λ d rec, (writeRecord w rec d).2) d recs.

Record writes (recs : list WALRecord) (r r' : Raft) : Prop := {
  wt_disk : disk r' = write_all (wal r) recs (disk r);
  wt_wal : wal r' = wal r;
  wt_path : snapshotPath r' = snapshotPath r;
  wt_threshold : snapshotThreshold r' = snapshotThreshold r;
  wt_base : lastIncludedIndex r' = lastIncludedIndex r
}.

Lemma writes_trans rs1 rs2 r1 r2 r3 :
  writes rs1 r1 r2 → writes rs2 r2 r3 → writes (rs1 ++ rs2) r1 r3.
Proof.
  intros [D1 W1 P1 T1 B1] [D2 W2 P2 T2 B2]. split; try congruence.
  unfold write_all in *. by rewrite foldl_app, D2, W1, D1.
Qed.

(** A step that leaves the disk and the log; it keeps the role of the node and
    its term, or makes it a follower. *)
Record untouched (r r' : Raft) : Prop := {
  un_writes : writes [] r r';
  un_log : log r' = log r;
  un_role : state r' = Follower ∨ state r' = state r ∧ currentTerm r' = currentTerm r
}.

Lemma untouched_same r r' :
  writes [] r r' → log r' = log r → state r' = state r → currentTerm r' = currentTerm r →
  untouched r r'.
Proof. split; [done|done|by right]. Qed.

Lemma untouched_falls r r' :
  writes [] r r' → log r' = log r → state r' = Follower → untouched r r'.
Proof. split; [done|done|by left]. Qed.

Lemma untouched_refl r : untouched r r.
Proof. by apply untouched_same. Qed.

Lemma untouched_trans r1 r2 r3 : untouched r1 r2 → untouched r2 r3 → untouched r1 r3.
Proof.
  intros [W1 L1 R1] [W2 L2 R2]. split; [exact (writes_trans [] [] _ _ _ W1 W2)|congruence|].
  destruct R2 as [?|[-> ->]]; [by left|done].
Qed.

Ltac untouched_now := first [by apply untouched_same | by apply untouched_falls].

(** A record that says what the node [r'] says. *)
Definition record_of (who : string) (r' : Raft) (rec : WALRecord) : Prop :=
  match rec with
  | WAL_None => False
  | WAL_State t v => t = currentTerm r' ∧ v = votedFor r' ∧ v = who
  | WAL_Entry e => e ∈ log r'
  | WAL_TruncateIndex i => is_int64 i
  end.

(** The records of the step turn the old log into the new one; a term and vote
    they record is the new one, a vote for [who].  Without such a record the
    node has kept its term or is a follower. *)
Definition persists (who : string) (r r' : Raft) : Prop :=
  ∃ recs, writes recs r r' ∧ (∀ rec, rec ∈ recs → record_of who r' rec) ∧
    ∀ t v, ∃ t' v', foldl apply_record (t, v, log r) recs = (t', v', log r') ∧
      ((t', v') = (t, v) ∧ (state r' = Follower ∨ currentTerm r' = currentTerm r) ∨
       (t', v') = (currentTerm r', votedFor r') ∧ v' = who).

Lemma persists_untouched who r r' : untouched r r' → persists who r r'.
Proof.
  intros [Hw Hl Hs]. exists []. split; [done|]. split; [by intros rec ?%elem_of_nil|].
  intros t v. exists t, v. rewrite Hl. split; [done|]. left. split; [done|].
  destruct Hs as [?|[_ ?]]; auto.
Qed.

Lemma persists_after who r1 r2 r3 :
  untouched r1 r2 → persists who r2 r3 →
  currentTerm r2 = currentTerm r1 ∨ state r3 = Follower → persists who r1 r3.
Proof.
  intros [Hw Hl _] (recs & Hw2 & Hr & Hf) Hs. exists recs.
  split; [exact (writes_trans [] recs _ _ _ Hw Hw2)|]. split; [done|]. rewrite <- Hl.
  intros t v. destruct (Hf t v) as (t' & v' & He & Hc). exists t', v'. split; [done|].
  destruct Hc as [[? Hc]|?]; [left|by right]. split; [done|].
  destruct Hs as [<-|?]; [done|by left].
Qed.

(** Two steps, the second of which keeps term, vote and log. *)
Lemma persists_trans who r1 r2 r3 :
  persists who r1 r2 → log r2 ⊆ log r3 → currentTerm r3 = currentTerm r2 →
  votedFor r3 = votedFor r2 → (state r2 = Follower → state r3 = Follower) →
  persists who r2 r3 → persists who r1 r3.
Proof.
  intros (rs1 & W1 & R1 & F1) Hlog Ht Hv Hs (rs2 & W2 & R2 & F2). exists (rs1 ++ rs2).
  split; [by eapply writes_trans|]. split.
  - intros rec [Hin|Hin]%elem_of_app; [|auto]. specialize (R1 rec Hin).
    destruct rec; simpl in *; [done|by rewrite Ht, Hv|auto|done].
  - intros t v. destruct (F1 t v) as (t1 & v1 & E1 & C1).
    destruct (F2 t1 v1) as (t2 & v2 & E2 & C2). exists t2, v2. rewrite foldl_app, E1, E2.
    split; [done|]. destruct C2 as [[C2 _]|C2]; [|by right]. injection C2 as -> ->.
    rewrite Ht, Hv. destruct C1 as [[? [?|?]]|?]; auto.
Qed.

Lemma persists_before who r1 r2 r3 :
  persists who r1 r2 → untouched r2 r3 → currentTerm r3 = currentTerm r2 →
  votedFor r3 = votedFor r2 → persists who r1 r3.
Proof.
  intros Hp Hu Ht Hv. apply (persists_trans who r1 r2 r3 Hp); [|done|done| |by apply persists_untouched].
  - by rewrite (un_log _ _ Hu).
  - intros Hs. destruct (un_role _ _ Hu) as [?|[-> _]]; done.
Qed.

(** A log without a snapshot before it. *)
Definition tidy (r : Raft) : Prop :=
  log_wf r ∧ lastIncludedIndex r = 0 ∧ lastLogIndex r + 1 < max_int64.

Lemma persists_snoc who e r r' :
  tidy r → writes [WAL_Entry e] r r' → log r' = log r ++ [e] →
  Index e = lastLogIndex r +! 1 → currentTerm r' = currentTerm r → persists who r r'.
Proof.
  intros (Hwf & Hb & Hm) Hw Hl Hi Hte. exists [WAL_Entry e]. split; [done|]. split.
  - intros rec ->%list_elem_of_singleton. simpl. rewrite Hl. set_solver.
  - intros t v. exists t, v. split; [|by left; split; [|right]]. cbn [foldl apply_record].
    rewrite place_new; [by rewrite Hl|]. intros x Hx.
    rewrite (lastLogIndex_wf r Hwf) in *. pose proof Hwf as (_ & _ & Hlay).
    apply list_elem_of_lookup in Hx as [i Hx]. pose proof (lookup_lt_Some _ _ _ Hx).
    rewrite (Hlay i x Hx), Hi, int64_add_small; [lia|]. unfold is_int64, max_int64 in *. lia.
Qed.

(** ** The transitions *)

Lemma untouched_follower t r : untouched r (transitionToFollower t r).
Proof. rewrite transitionToFollower_frame. untouched_now. Qed.

Lemma untouched_follow_leader t l r : untouched r (follow_leader t l r).
Proof.
  unfold follow_leader, resetElectionTimer. cbv zeta. rewrite !transitionToFollower_frame.
  destruct (_ <? _); case_bool_decide; untouched_now.
Qed.

Lemma persists_leader who r :
  tidy r → persists who r (transitionToLeader r) ∧ log r ⊆ log (transitionToLeader r) ∧
    currentTerm (transitionToLeader r) = currentTerm r ∧
    votedFor (transitionToLeader r) = votedFor r.
Proof.
  intros Ht. unfold transitionToLeader. case_bool_decide.
  { split_and!; [|done..]. apply persists_untouched, untouched_refl. }
  cbv zeta. destruct (connectToPeersLocked_frame (r <| state := Leader |> <| timer_armed := false |>))
    as (g & ->). match goal with |- context [init_progress ?i ?x] =>
    destruct (init_progress_frame i x) as (n & m & ->) end.
  match goal with |- context [EncodeNoopEntry] =>
    destruct (EncodeNoopEntry_plain (lastLogIndex r +! 1) (currentTerm r)) as (b & -> & _) end.
  rewrite wal_try_frame. unfold broadcastHeartbeats. rewrite for_each_emit. unfold emit.
  split_and!; [|rsimpl; set_solver|done|done].
  apply (persists_snoc who (mkLogEntry (lastLogIndex r +! 1) (currentTerm r) b)); done.
Qed.

Lemma tidy_ext r r' :
  log r' = log r → lastIncludedIndex r' = lastIncludedIndex r → tidy r → tidy r'.
Proof.
  intros Hl Hb (Hwf & H0 & Hm). split_and!; [by unfold log_wf; rewrite Hl, Hb|congruence|].
  by rewrite (lastLogIndex_ext r r').
Qed.

Lemma persists_candidate r :
  tidy r → persists (node_id r) r (transitionToCandidate r).
Proof.
  intros Ht. unfold transitionToCandidate. cbv zeta. set (r1 := wal_try _ _).
  assert (H1 : persists (node_id r) r r1 ∧ log r1 = log r ∧
    lastIncludedIndex r1 = lastIncludedIndex r ∧ state r1 = Candidate).
  { unfold r1. rewrite wal_try_frame. split; [|done].
    exists [WAL_State (currentTerm r +! 1) (node_id r)]. split; [by split|]. split.
    - by intros rec ->%list_elem_of_singleton.
    - intros t v. exists (currentTerm r +! 1), (node_id r). split; [done|by right]. }
  destruct H1 as (Hp & Hl & Hb & Hst). clearbody r1. pose proof (tidy_ext r r1 Hl Hb Ht) as Ht1.
  unfold startElection. cbv zeta. case_bool_decide.
  - destruct (persists_leader (node_id r) r1 Ht1) as (Hp1 & Hs & Hte & Hv).
    by apply (persists_trans _ r r1); [..|rewrite Hst|].
  - rewrite for_each_emit. apply (persists_before _ r r1); [done|untouched_now|done|done].
Qed.

Lemma persists_timeout r : tidy r → persists (node_id r) r (electionTimeout r).
Proof.
  intros Ht. unfold electionTimeout. cbv zeta. destruct (_ && _).
  2:{ destruct (isJoining _); apply persists_untouched; untouched_now. }
  unfold startPreVote. cbv zeta. match goal with |- context [transitionToCandidate ?x] => set (r2 := x) end.
  assert (Hu : untouched r r2) by untouched_now. assert (Hid : node_id r2 = node_id r) by done.
  case_bool_decide.
  - apply (persists_after _ r r2 _ Hu); [|by left]. rewrite <- Hid. apply persists_candidate.
    by apply (tidy_ext r).
  - rewrite for_each_emit. apply persists_untouched. untouched_now.
Qed.

Lemma persists_preVoteResponse p resp r :
  tidy r → persists (node_id r) r (processPreVoteResponse p resp r).
Proof.
  intros Ht. unfold processPreVoteResponse.
  destruct (_ && _); [|apply persists_untouched, untouched_refl]. cbv zeta.
  match goal with |- context [transitionToCandidate ?x] => set (r2 := x) end.
  assert (Hu : untouched r r2) by untouched_now. assert (Hid : node_id r2 = node_id r) by done.
  destruct (vote_majority _ _); [|by apply persists_untouched].
  apply (persists_after _ r r2 _ Hu); [|by left]. rewrite <- Hid. apply persists_candidate.
  by apply (tidy_ext r).
Qed.

Lemma persists_voteResponse who p resp r :
  tidy r → persists who r (processRequestVoteResponse p resp r).
Proof.
  intros Ht. unfold processRequestVoteResponse.
  destruct (_ <? _); [apply persists_untouched, untouched_follower|].
  destruct (_ && _); [|apply persists_untouched, untouched_refl]. cbv zeta.
  match goal with |- context [transitionToLeader ?x] => set (r2 := x) end.
  assert (Hu : untouched r r2) by untouched_now.
  destruct (vote_majority _ _); [|by apply persists_untouched].
  apply (persists_after _ r r2 _ Hu); [|by left]. apply persists_leader. by apply (tidy_ext r).
Qed.

(** A vote that is granted is written. *)
Lemma persists_requestVote req r :
  let '(resp, r') := processRequestVote req r in
  if VoteGranted resp
  then currentTerm r' = rv_Term req ∧ ∃ r1, untouched r r1 ∧
    writes [WAL_State (rv_Term req) (CandidateId req)] r1 r' ∧ log r' = log r1 ∧
    votedFor r' = CandidateId req ∧ rvr_Term resp = rv_Term req
  else untouched r r'.
Proof.
  unfold processRequestVote. destruct (Z.ltb_spec (rv_Term req) (currentTerm r)); [apply untouched_refl|].
  destruct (not_a_member _ _); [apply untouched_refl|]. cbv zeta.
  match goal with |- context [logOK ?x _] => set (r1 := x) end.
  assert (untouched r r1 ∧ currentTerm r1 = rv_Term req) as [Hu Ht].
  { unfold r1. destruct (Z.ltb_spec (currentTerm r) (rv_Term req)).
    - split; [apply untouched_follower|by rewrite transitionToFollower_frame].
    - split; [apply untouched_refl|lia]. }
  clearbody r1. destruct (_ && _); [|done]. rewrite wal_try_frame. cbn [VoteGranted].
  split; [done|]. exists r1. rewrite <- Ht. by split_and!.
Qed.

(** ** Applying *)

(** The log is too short to be compacted. *)
Definition uncompacted (r : Raft) : Prop :=
  snapshotThreshold r ≤ 0 ∨ lastLogIndex r ≤ snapshotThreshold r.

Lemma untouched_complete r : untouched r (complete_proposals r).
Proof. unfold complete_proposals. cbv zeta. rewrite for_each_emit. untouched_now. Qed.

Lemma untouched_apply r :
  tidy r → plain_log r → uncompacted r → untouched r (applyLogs r).
Proof.
  intros (Hwf & Hb & Hm) Hp Hu. unfold applyLogs.
  destruct (apply_loop_plain (Z.to_nat (commitIndex r - lastApplied r)) r Hp) as (k & t & a & ->).
  set (r1 := r <| kv := k |> <| dedupTable := t |> <| lastApplied := a |>).
  assert (H1 : untouched r r1) by untouched_now.
  assert (Hl : lastLogIndex r1 = lastLogIndex r) by done.
  assert (Hb1 : lastIncludedIndex r1 = 0) by done.
  assert (Ht1 : snapshotThreshold r1 = snapshotThreshold r) by done.
  clearbody r1. cbv zeta.
  replace ((0 <? snapshotThreshold r1) && _) with false.
  - eapply untouched_trans; [exact H1|apply untouched_complete].
  - rewrite Hb1, Hl, Ht1. rewrite (lastLogIndex_wf r Hwf) in *.
    rewrite int64_sub_small by (unfold is_int64, max_int64 in *; lia). unfold uncompacted in Hu.
    rewrite (lastLogIndex_wf r Hwf) in Hu.
    destruct (Z.ltb_spec 0 (snapshotThreshold r)); [|done]. symmetry. apply Z.ltb_ge. lia.
Qed.

(** The same, from what is known of the log afterwards. *)
Lemma uncompacted_same r r' :
  lastLogIndex r' = lastLogIndex r → snapshotThreshold r' = snapshotThreshold r →
  uncompacted r' → uncompacted r.
Proof. unfold uncompacted. by intros -> ->. Qed.

Lemma applyLogs_threshold r : plain_log r → snapshotThreshold (applyLogs r) = snapshotThreshold r.
Proof.
  intros Hp. rewrite applyLogs_split.
  destruct (apply_loop_plain (Z.to_nat (commitIndex r - lastApplied r)) r Hp) as (k & t & a & ->).
  match goal with |- context [after_loop ?x] =>
    destruct (after_loop_frame x) as (b & t' & l & w & d & es & ps & ->) end. done.
Qed.

Lemma tidy_untouched r r' : untouched r r' → tidy r → tidy r'.
Proof. intros [Hw Hl _]. apply tidy_ext; [done|apply Hw]. Qed.

Lemma uncompacted_untouched r r' : untouched r r' → uncompacted r → uncompacted r'.
Proof.
  intros [[_ _ _ Ht Hb] Hl _]. apply uncompacted_same; [|done].
  symmetry. by apply lastLogIndex_ext.
Qed.

(** ** Entries of a leader *)

Lemma persists_entry e r p :
  tidy r → Index e = Z.of_nat p + 1 → (p ≤ length (log r))%nat →
  Z.of_nat p + 2 < max_int64 →
  let r' := append_entry e r in
  (untouched r r' ∧ (p < length (log r))%nat ∨
   log r' = take p (log r) ++ [e] ∧
   ∃ recs, writes recs r r' ∧
     (∀ rec, rec ∈ recs → rec = WAL_Entry e ∨ ∃ i, is_int64 i ∧ rec = WAL_TruncateIndex i) ∧
     ∀ t v, foldl apply_record (t, v, log r) recs = (t, v, log r')).
Proof.
  intros (Hwf & Hb & Hm) Hi Hp Hroom. cbv zeta. pose proof (lastLogIndex_wf r Hwf) as Hlast.
  pose proof Hwf as (_ & _ & Hlay). rewrite Hb in *.
  assert (Hnew : ∀ x, x ∈ take p (log r) → Index x ≠ Index e).
  { intros x Hx. apply list_elem_of_lookup in Hx as [i Hx].
    pose proof (lookup_lt_Some _ _ _ Hx) as Hlt. rewrite length_take in Hlt.
    rewrite lookup_take_lt in Hx by lia. rewrite (Hlay i x Hx), Hi. lia. }
  unfold append_entry. rewrite Hb, Hlast.
  destruct (Z.leb_spec (Index e) 0); [lia|].
  destruct (Z.leb_spec (Index e) (0 + Z.of_nat (length (log r)))) as [Hle|Hgt].
  - rewrite (getEntry_log r) by (done || lia || (unfold is_int64, max_int64 in *; lia)).
    rewrite Hb. replace (Z.to_nat (Index e - 0 - 1)) with p by lia.
    destruct (log r !! p) as [x|] eqn:Hx; [|by left; split; [apply untouched_refl|lia]].
    case_bool_decide; [|left; split; [apply untouched_refl|lia]]. right.
    rewrite !wal_try_frame. rsimpl.
    assert (Hd : Index e -! 0 -! 1 = Index e - 0 - 1)
      by (rewrite (int64_sub_small (Index e) 0), int64_sub_small; unfold is_int64, max_int64 in *; lia).
    rewrite Hd.
    replace (Z.to_nat (Index e - 0 - 1)) with p by lia. split; [done|].
    exists [WAL_TruncateIndex (Index e); WAL_Entry e]. split; [by split|]. split.
    + intros rec [->|[->|?%elem_of_nil]%elem_of_cons]%elem_of_cons; [right|by left|done].
      exists (Index e). split; [unfold is_int64, max_int64 in *; lia|done].
    + intros t v. cbn [foldl apply_record]. rewrite Hi, truncate_layout by done.
      by rewrite place_new.
  - right. assert (p = length (log r)) as -> by lia. rewrite wal_try_frame. rsimpl.
    rewrite firstn_all in *. split; [done|]. exists [WAL_Entry e]. split; [by split|]. split.
    + intros rec ->%list_elem_of_singleton. by left.
    + intros t v. cbn [foldl apply_record]. by rewrite place_new.
Qed.

(** The records of the loop: every entry that is written stays in the log. *)
Lemma persists_entries who es r p :
  tidy r → layout (Z.of_nat p) es → (p ≤ length (log r))%nat →
  Z.of_nat (p + length es) + 1 < max_int64 →
  let r' := for_each es append_entry r in
  persists who r r' ∧ (p = length (log r) → log r' = log r ++ es) ∧
  currentTerm r' = currentTerm r ∧ votedFor r' = votedFor r.
Proof.
  revert r p. induction es as [|e es IH]; intros r p Ht Hlay Hp Hroom; cbv zeta.
  { split_and!; [apply persists_untouched, untouched_refl|by rewrite app_nil_r|done|done]. }
  rewrite for_each_cons. cbn [length] in Hroom.
  assert (Hi : Index e = Z.of_nat p + 1) by (rewrite (Hlay O e eq_refl); lia).
  assert (Hlay' : layout (Z.of_nat (S p)) es) by (intros i x Hx; rewrite (Hlay (S i) x Hx); lia).
  destruct (append_entry_frame e r) as (l & d & Hfr).
  assert (currentTerm (append_entry e r) = currentTerm r ∧
    votedFor (append_entry e r) = votedFor r ∧ lastIncludedIndex (append_entry e r) = lastIncludedIndex r)
    as (Hte & Hvo & Hba) by (by rewrite Hfr).
  clear Hfr. destruct (persists_entry e r p Ht Hi Hp) as [[Hu Hlt]|(Hl & recs & Hw & Hrec & Hf)];
    [lia|..]; set (r1 := append_entry e r) in *; clearbody r1.
  - destruct (IH r1 (S p)) as (Hpe & _ & Hte' & Hvo'); [by eapply tidy_untouched|done| |lia|].
    { rewrite (un_log _ _ Hu). lia. }
    split_and!; [eapply persists_after; [done|done|by left]|lia|congruence|congruence].
  - assert (Hlen : length (log r1) = S p).
    { rewrite Hl, length_app, length_take. simpl. lia. }
    assert (Ht1 : tidy r1).
    { pose proof Ht as (Hwf & Hb & Hm). pose proof Hwf as (_ & _ & Hlay0).
      assert (Hwf1 : log_wf r1).
      { split_and!; [lia|lia|]. rewrite Hba, Hb, Hl. apply layout_app. split.
        - intros i x Hx. apply lookup_take_Some in Hx as [Hx _]. rewrite (Hlay0 i x Hx). lia.
        - intros [|i] x Hx; [|done]. injection Hx as <-. rewrite Hi, length_take. lia. }
      split_and!; [done|lia|]. rewrite (lastLogIndex_wf r1 Hwf1). lia. }
    destruct (IH r1 (S p) Ht1 Hlay') as (Hpe & Hnew & Hte' & Hvo'); [lia|lia|].
    specialize (Hnew (eq_sym Hlen)). split_and!; [| |congruence|congruence].
    + destruct Hpe as (rs2 & W2 & R2 & F2). exists (recs ++ rs2).
      split; [by eapply writes_trans|]. split.
      * intros rec [Hin|Hin]%elem_of_app; [|auto].
        destruct (Hrec rec Hin) as [->|(i & Hi' & ->)]; [|done].
        simpl. rewrite Hnew, Hl. set_solver.
      * intros t v. rewrite foldl_app, Hf. rewrite <- Hte. apply F2.
    + intros ->. rewrite Hnew, Hl, firstn_all. by rewrite <- (assoc_L (++)).
Qed.

Lemma untouched_follow_commit c r :
  tidy r → plain_log r → uncompacted r → untouched r (follow_commit c r).
Proof.
  intros Ht Hp Hu. unfold follow_commit. destruct (_ <? _); [|apply untouched_refl]. cbv zeta.
  match goal with |- untouched r (applyLogs ?x) => set (r1 := x) end.
  assert (untouched r r1 ∧ plain_log r1) as [Hu1 Hp1]
    by (unfold r1; destruct (_ <? _); (split; [untouched_now|done])).
  clearbody r1. eapply untouched_trans; [exact Hu1|].
  apply untouched_apply; [by eapply tidy_untouched|done|by eapply uncompacted_untouched].
Qed.

Lemma follow_commit_threshold c r :
  plain_log r → snapshotThreshold (follow_commit c r) = snapshotThreshold r.
Proof.
  intros Hp. unfold follow_commit. destruct (_ <? _); [|done]. cbv zeta.
  match goal with |- context [applyLogs ?x] => set (r1 := x) end.
  assert (snapshotThreshold r1 = snapshotThreshold r ∧ plain_log r1) as [<- Hp1]
    by (unfold r1; destruct (_ <? _); done).
  by apply applyLogs_threshold.
Qed.

Lemma persists_append who req r p :
  let r' := (processAppendEntries req r).2 in
  tidy r → plain_log r → Forall no_config (Entries req) → PrevLogIndex req = Z.of_nat p →
  layout (Z.of_nat p) (Entries req) → Z.of_nat (p + length (Entries req)) + 1 < max_int64 →
  (Success (processAppendEntries req r).1 = true →
     lastLogIndex r' = Z.of_nat (length (merge p (log r) (Entries req)))) →
  lastLogIndex r' + 1 < max_int64 → uncompacted r' → persists who r r'.
Proof.
  intros r' Ht Hp Hes Hprev Hlay Hroom. unfold r'. clear r'. unfold processAppendEntries.
  destruct (_ <? _); [intros _ _ _; apply persists_untouched, untouched_refl|]. cbv zeta.
  pose proof (untouched_follow_leader (ae_Term req) (ae_LeaderId req) r) as Hu.
  assert (Hp1 : plain_log (follow_leader (ae_Term req) (ae_LeaderId req) r))
    by (unfold plain_log; by rewrite (un_log _ _ Hu)).
  set (r1 := follow_leader _ _ r) in *. clearbody r1.
  pose proof (tidy_untouched r r1 Hu Ht) as Ht1. pose proof Ht1 as (Hwf1 & Hb1 & Hm1).
  destruct (Z.ltb_spec (lastLogIndex r1) (PrevLogIndex req)) as [|Hle];
    [intros _ _ _; by apply persists_untouched|].
  destruct (_ && _); [intros _ _ _; by apply persists_untouched|]. cbn [fst snd Success].
  intros Hlast Hm Hc. specialize (Hlast eq_refl).
  rewrite (lastLogIndex_wf r1 Hwf1), Hb1, Hprev in Hle.
  destruct (persists_entries who (Entries req) r1 p Ht1 Hlay) as (Hpe & _ & Hte & Hvo); [lia|done|].
  destruct (append_entries_reconcile (Z.of_nat p) (Entries req) r1) as [Hlog Hwf2];
    [done|rewrite (lastLogIndex_wf r1 Hwf1); lia|lia|done|lia|].
  rewrite Hb1 in Hlog. rewrite Z.sub_0_r, Nat2Z.id, Z.sub_0_l in Hlog.
  replace (Z.to_nat (- Z.of_nat p)) with O in Hlog by lia. rewrite drop_0 in Hlog.
  rewrite (un_log _ _ Hu) in Hlog.
  assert (Hb2 : lastIncludedIndex (for_each (Entries req) append_entry r1) = 0).
  { destruct (append_entries_frame (Entries req) r1) as (l & d & ->). done. }
  pose proof (quiet_append_entries _ _ Hes Hp1) as Hse. pose proof (q_plain _ _ Hse Hp1) as Hp2.
  set (r2 := for_each _ append_entry r1) in *. clearbody r2.
  assert (Hl2 : lastLogIndex r2 = Z.of_nat (length (merge p (log r) (Entries req)))).
  { rewrite (lastLogIndex_wf r2 Hwf2), Hb2, Hlog. unfold merge. lia. }
  assert (Hu2 : uncompacted r2).
  { eapply uncompacted_same; [|by apply follow_commit_threshold|exact Hc]. congruence. }
  assert (Ht2 : tidy r2) by (split_and!; [done|done|rewrite Hl2, <- Hlast; lia]).
  pose proof (untouched_follow_commit (LeaderCommit req) r2 Ht2 Hp2 Hu2) as Hu3.
  pose proof (quiet_follow_commit (LeaderCommit req) r2 Hp2) as Hq.
  assert (Hst2 : state r2 = state r1) by (apply Hse).
  apply (persists_after who r r1); [done| |].
  - apply (persists_before who r1 r2); [done|done|apply Hq|apply Hq].
  - rewrite (q_state _ _ Hq), Hst2. destruct (un_role _ _ Hu) as [?|[_ ?]]; auto.
Qed.

(** ** Answers *)

Lemma untouched_commits l r :
  tidy r → plain_log r → uncompacted r → untouched r (for_each l try_commit r).
Proof.
  revert r. induction l as [|i l IH]; intros r Ht Hp Hu; [apply untouched_refl|].
  rewrite for_each_cons. assert (H1 : untouched r (try_commit i r)).
  { unfold try_commit. destruct (_ =? _); [|apply untouched_refl].
    destruct (checkCommitMajority _ _); [|apply untouched_refl].
    apply (untouched_trans r (r <| commitIndex := i |>)); [untouched_now|].
    by apply untouched_apply. }
  pose proof (q_plain _ _ (quiet_try_commit i r Hp) Hp) as Hp1.
  set (r1 := try_commit i r) in *. clearbody r1. eapply untouched_trans; [exact H1|].
  apply IH; [by eapply tidy_untouched|done|by eapply uncompacted_untouched].
Qed.

Lemma untouched_appendResponse peer resp r :
  tidy r → plain_log r → uncompacted r → untouched r (processAppendEntriesResponse peer resp r).
Proof.
  intros Ht Hp Hu. unfold processAppendEntriesResponse.
  destruct (_ <? _); [apply untouched_follower|]. destruct (_ && _); [|apply untouched_refl].
  destruct (Success resp); cbv zeta; [|destruct (_ <? _); untouched_now].
  match goal with |- context [clean_proposalTime ?x] => set (r2 := x) end.
  assert (∃ g, clean_proposalTime r2 = r2 <| proposalTime := g |>) as [g ->].
  { unfold clean_proposalTime. destruct (_ <? _); [by eexists|].
    exists (proposalTime r2). solve_upd. }
  match goal with |- untouched r (for_each _ try_commit ?x) => set (r3 := x) end.
  assert (Hu3 : untouched r r3) by untouched_now. assert (Hp3 : plain_log r3) by done. clearbody r3.
  eapply untouched_trans; [exact Hu3|]. apply untouched_commits; [|done|].
  - by eapply tidy_untouched.
  - by eapply uncompacted_untouched.
Qed.

(** ** Requests of clients *)

Lemma persists_command who cmd ch r :
  let r' := handleClientCommand cmd ch r in
  tidy r → plain_log r → (∀ i t, no_config (mkLogEntry i t cmd)) →
  (state r = Leader → lastLogIndex r' = lastLogIndex r + 1) → lastLogIndex r' + 1 < max_int64 →
  uncompacted r' → persists who r r'.
Proof.
  intros r' Ht Hp Hno. unfold r'. clear r'. unfold handleClientCommand.
  case_bool_decide as Hs; [intros _ _ _; apply persists_untouched; untouched_now|].
  set (e := mkLogEntry _ _ _). cbv zeta. rewrite wal_do_frame.
  set (r1 := r <| log ::= _ |>). set (r2 := r1 <| disk := _ |>).
  assert (persists who r r2 ∧ log r2 = log r ++ [e] ∧ lastIncludedIndex r2 = lastIncludedIndex r ∧
    plain_log r2 ∧ snapshotThreshold r2 = snapshotThreshold r) as (Hpe & Hlog & Hb & Hp2 & Hth).
  { split_and!; [by apply (persists_snoc who e)|done|done| |done]. unfold plain_log, r2, r1. rsimpl.
    apply Forall_app. split; [done|]. repeat constructor. apply Hno. }
  assert (Hi : Index e = lastLogIndex r +! 1) by done. clearbody r2 e.
  destruct (_.1); [intros _ _ _; apply (persists_before who r r2); [done|untouched_now|done|done]|].
  match goal with |- context [broadcastHeartbeats ?x] => set (r3 := x) end.
  unfold broadcastHeartbeats. rewrite for_each_emit. set (r4 := r3 <| effects ::= _ |>).
  assert (untouched r2 r4 ∧ currentTerm r4 = currentTerm r2 ∧ votedFor r4 = votedFor r2 ∧
    plain_log r4) as (Hu4 & Ht4 & Hv4 & Hp4) by (split; [untouched_now|done]).
  clearbody r4. destruct (bool_decide _ && _); [|intros _ _ _; by apply (persists_before who r r2)].
  intros Hlast Hm Hc. specialize (Hlast Hs).
  set (r5 := r4 <| commitIndex := Index e |>) in *.
  assert (untouched r2 r5 ∧ currentTerm r5 = currentTerm r2 ∧ votedFor r5 = votedFor r2 ∧
    plain_log r5) as (Hu5 & Ht5 & Hv5 & Hp5).
  { split_and!; [|done..]. eapply untouched_trans; [exact Hu4|]. untouched_now. }
  clearbody r5. pose proof Ht as (Hwf & Hb0 & Hm0). pose proof Hwf as (_ & _ & Hlay).
  rewrite (lastLogIndex_wf r Hwf) in *. rewrite Hb0 in *.
  assert (Hwf2 : log_wf r2).
  { unfold log_wf. rewrite Hb, Hlog, length_app. simpl. split_and!; [lia|lia|].
    apply layout_app. split; [done|]. intros [|i] x Hx; [|done]. injection Hx as <-.
    rewrite Hi, int64_add_small; [lia|]. unfold is_int64, max_int64 in *. lia. }
  assert (Hl2 : lastLogIndex r2 = 0 + Z.of_nat (length (log r)) + 1).
  { rewrite (lastLogIndex_wf r2 Hwf2), Hb, Hlog, length_app. simpl. lia. }
  assert (Ht2 : tidy r2) by (split_and!; [done|done|lia]).
  assert (Hu2 : uncompacted r2).
  { eapply uncompacted_same; [| |exact Hc]; [congruence|].
    rewrite applyLogs_threshold by done. apply Hu5. }
  assert (Hu6 : untouched r5 (applyLogs r5)).
  { apply untouched_apply; [by eapply tidy_untouched|done|by eapply uncompacted_untouched]. }
  pose proof (quiet_apply r5 Hp5) as Hq.
  apply (persists_before who r r2 _ Hpe); [by eapply untouched_trans| |].
  - by rewrite (q_term _ _ Hq).
  - by rewrite (q_vote _ _ Hq).
Qed.

Lemma persists_config who req ch r : tidy r → persists who r (handleConfigChange req ch r).
Proof.
  intros Ht.
  assert (Hrej : ∀ err, persists who r (emit (SendResp ch (mkCmdResp false (Some err))) r))
    by (intros err; apply persists_untouched; untouched_now).
  unfold handleConfigChange. case_bool_decide; [apply Hrej|].
  destruct (pendingConfig r); [apply Hrej|]. case_bool_decide; [apply Hrej|].
  destruct (BuildJointConfig _ _ _) as [c|]; [|apply Hrej].
  destruct (EncodeConfigChangeEntry _) as [data|]; [|apply Hrej]. cbv zeta. clear Hrej.
  rewrite wal_do_frame. set (e := mkLogEntry _ _ _).
  destruct (_.1); [by apply (persists_snoc who e)|].
  unfold broadcastHeartbeats. rewrite for_each_emit.
  match goal with |- context [connectToNewPeers ?x] =>
    destruct (connectToNewPeers_frame x) as (g & n & m & ->) end.
  by apply (persists_snoc who e).
Qed.

(** ** Events without a message *)

Lemma persists_idle ev r :
  idle_event ev → tidy r → healthy (disk r) → persists (node_id r) r (handle ev r).2.
Proof.
  intros Hi Ht Hd. destruct ev; cbn [idle_event handle snd] in *; try done;
    try (apply persists_untouched; untouched_now).
  - by apply persists_timeout.
  - unfold replicateToPeer. destruct (bool_decide _); [apply persists_untouched; untouched_now|].
    destruct (_ <=? _); apply persists_untouched; untouched_now.
  - unfold sendSnapshotToPeer. destruct (bool_decide _); [apply persists_untouched; untouched_now|].
    assert (Hl : (LoadSnapshot (snapshotPath r) (disk r)).2 = disk r).
    { unfold LoadSnapshot. rewrite os_read_healthy by done. by repeat case_match. }
    destruct (LoadSnapshot _ _) as [[[snap|]|] d]; simpl in Hl; subst d;
      apply persists_untouched; untouched_now.
  - unfold heartbeatTick, broadcastHeartbeats. rewrite for_each_emit.
    destruct (bool_decide _); apply persists_untouched; untouched_now.
Qed.
End Durable.
