(* ===== verification/Recovery.v ===== *)
(** * What a restart keeps

    A node that has not compacted its log finds all of it on its disk, and
    every vote it has given ([durable], [remembers]).  What it can lose is a
    term it has only heard of; [CrashGap] shows what follows from that. *)

From S2P Require Import Prelude Types Config Json Envelope Disk Wal WalSpec SnapshotStore.
From S2P Require Import Node Roles Election Apply Replication Client Startup RunLoop.
From S2P Require Import NodeFacts ReplicationFacts StateMachine ApplyFacts ElectionFacts.
From S2P Require Import ReplicationSpec Cluster Schedule ElectionSafety RaftProtocol.
From S2P Require Import Answers Agreement FullLog LogSteps Simulation SimSteps SimAccept.
From S2P Require Import SimRun StateMachineSafety CommandsSpec ProtoWire Durable Scenarios.

Section Recovery.
Context {PC : ProtoCodec} {PL : ProtoCodecLaws} {DL : Dialer}.

Definition encodable (rec : WALRecord) : Prop := is_Some (proto_Marshal rec).

(** ** The log file *)

Lemma write_all_encodes w recs d rs :
  healthy d → wal_file w = FileOpen → Forall encodable recs →
  encodes (content d (wal_path w)) rs →
  healthy (write_all w recs d) ∧
  encodes (content (write_all w recs d) (wal_path w)) (rs ++ recs) ∧
  ∀ p, p ≠ wal_path w → files (write_all w recs d) !! p = files d !! p.
Proof.
  intros Hd Hw Hrec. revert d rs Hd. induction Hrec as [|rec recs [body Hb] _ IH]; intros d rs Hd He.
  { by rewrite app_nil_r. }
  cbn [write_all foldl].
  destruct (writeRecord_encodes w rec d body rs Hd Hw Hb He) as (d' & -> & Hd' & He' & Hp).
  destruct (IH d' (rs ++ [rec]) Hd' He') as (H1 & H2 & H3). cbn [snd].
  rewrite <- (assoc_L (++)) in H2. split; [exact H1|]. split; [exact H2|].
  intros p Hne. rewrite <- (Hp p Hne). by apply H3.
Qed.

(** The files of a node are in its storage directory. *)
Definition kept_in (dir : string) (r : Raft) : Prop :=
  wal_path (wal r) = dir +:+ "/wal.log" ∧ snapshotPath r = dir +:+ "/snapshot.json".

Definition in_dir (r : Raft) : Prop := ∃ dir, kept_in dir r.

Lemma files_distinct dir : dir +:+ "/snapshot.json" ≠ dir +:+ "/wal.log".
Proof. intros Heq. simplify_eq. Qed.

Lemma in_dir_distinct r : in_dir r → snapshotPath r ≠ wal_path (wal r).
Proof. intros (dir & -> & ->). apply files_distinct. Qed.

(** The disk holds the term [t], the vote [v] and the log of the node. *)
Record durable (t : Z) (v : string) (r : Raft) : Prop := {
  du_disk : healthy (disk r);
  du_open : wal_file (wal r) = FileOpen;
  du_records : ∃ rs, encodes (content (disk r) (wal_path (wal r))) rs ∧
                     run_records rs = (t, v, log r);
  du_term : 0 ≤ t ≤ currentTerm r;
  du_paths : in_dir r;
  du_snapshot : files (disk r) !! snapshotPath r = None;
  du_base : lastIncludedIndex r = 0
}.

(** What a node can be asked to write, and has room for. *)
Record storable (r : Raft) : Prop := {
  so_room : uncompacted r;
  so_entries : Forall (λ e, encodable (WAL_Entry e)) (log r);
  so_state : encodable (WAL_State (currentTerm r) (votedFor r))
}.

Definition storing (M : gset string) (s : Net) : Prop :=
  calm M s ∧ map_Forall (λ _ r, storable r) (nodes s).

Context (truncations : ∀ i, is_int64 i → encodable (WAL_TruncateIndex i)).

Lemma durable_writes recs t v t' v' r r' :
  durable t v r → writes recs r r' → Forall encodable recs →
  foldl apply_record (t, v, log r) recs = (t', v', log r') → 0 ≤ t' ≤ currentTerm r' →
  durable t' v' r'.
Proof using PL.
  intros [Dd Do (rs & De & Dr) Dt Dp Ds Db] [Wd Ww Wp Wt Wb] Henc Heq Ht.
  destruct (write_all_encodes (wal r) recs (disk r) rs Dd Do Henc De) as (Hd' & He' & Hp').
  split; rewrite ?Wd, ?Ww, ?Wp, ?Wb; try done.
  - exists (rs ++ recs). split; [done|]. unfold run_records in *. by rewrite foldl_app, Dr.
  - unfold in_dir, kept_in in *. by rewrite Ww, Wp.
  - rewrite Hp'; [done|]. by apply in_dir_distinct.
Qed.

Lemma durable_step t v who r r' :
  durable t v r → persists who r r' → currentTerm r ≤ currentTerm r' → storable r' →
  ∃ t' v', durable t' v' r' ∧
    ((t', v') = (t, v) ∧ (state r' = Follower ∨ currentTerm r' = currentTerm r) ∨
     t' = currentTerm r' ∧ v' = who).
Proof using PL truncations.
  intros Hd (recs & Hw & Hrec & Hf) Ht [_ Se Ss]. pose proof (du_term _ _ _ Hd) as Ht0.
  assert (Henc : Forall encodable recs).
  { apply Forall_forall. intros rec Hin. specialize (Hrec rec Hin).
    destruct rec as [|t0 v0|e|i]; simpl in Hrec; [done| | |by apply truncations].
    - destruct Hrec as (-> & -> & _). exact Ss.
    - rewrite Forall_forall in Se. by apply Se. }
  destruct (Hf t v) as (t' & v' & Heq & Hc). exists t', v'. split.
  - apply (durable_writes recs t v t' v' r r'); try done.
    destruct Hc as [[[= -> ->] _]|[[= -> ->] _]]; lia.
  - destruct Hc as [?|[[= -> ->] Hv]]; [by left|right]. done.
Qed.

(** ** Votes *)

(** The term in which the packet shows a vote of [n]: for itself, when it
    asks for votes, or for another. *)
Definition votes_of (n : string) (p : Packet) : option Z :=
  match p with
  | Call _ _ (MRequestVote req) _ =>
      if bool_decide (CandidateId req = n) then Some (rv_Term req) else None
  | Return _ (MVoteResp v resp) =>
      if bool_decide (v = n) && VoteGranted resp then Some (rvr_Term resp) else None
  | _ => None
  end.

(** A vote of the term [T] is on the disk, or of a term before it. *)
Definition marked (t : Z) (v : string) (T : Z) : Prop := 1 ≤ T ≤ t ∧ (T = t → v ≠ "").

Definition remembers (t : Z) (v : string) (n : string) (r : Raft) (s : Net) : Prop :=
  (∀ p T, p ∈ soup s → votes_of n p = Some T → marked t v T) ∧
  (∀ T i lt, (T, i, lt) ∈ campaigns r → marked t v T).

Definition saved (s : Net) : Prop :=
  ∀ n r, nodes s !! n = Some r → ∃ t v, durable t v r ∧ remembers t v n r s.

Lemma marked_step t v t' v' T :
  ((t', v') = (t, v) ∨ t ≤ t' ∧ v' ≠ "") → marked t v T → marked t' v' T.
Proof. intros [[= -> ->]|[Hle Hv]] [HT Hne]; [done|]. split; [lia|done]. Qed.

(** The step of one node, which sends [ps]. *)
Lemma saved_node s n r r' ps t v t' v' :
  saved s → nodes s !! n = Some r → remembers t v n r s →
  durable t' v' r' → ((t', v') = (t, v) ∨ t ≤ t' ∧ v' ≠ "") →
  (∀ p m T, p ∈ ps → votes_of m p = Some T → m = n ∧ marked t' v' T) →
  (∀ T i lt, (T, i, lt) ∈ campaigns r' → (T, i, lt) ∈ campaigns r ∨ marked t' v' T) →
  saved (after_step s n r' ps).
Proof.
  intros Hs Hr [Hp Hc] Hd Hmove Hps Hcs m rm. simpl. rewrite lookup_insert_Some.
  intros [[<- <-]|[Hne Hm]].
  - exists t', v'. split; [done|]. split.
    + intros p T [Hin|Hin]%elem_of_app HT; [|by apply (Hps p n T)].
      eapply marked_step; [exact Hmove|by eapply Hp].
    + intros T i lt [Hin|?]%Hcs; [|done]. eapply marked_step; [exact Hmove|by eapply Hc].
  - destruct (Hs m rm Hm) as (tm & vm & Hdm & Hpm & Hcm). exists tm, vm. split; [done|].
    split; [|done]. intros p T [Hin|Hin]%elem_of_app HT; [by eapply Hpm|].
    destruct (Hps p m T Hin HT) as [-> _]. done.
Qed.

Lemma saved_send s ps :
  saved s →
  (∀ p m T, p ∈ ps → votes_of m p = Some T →
     ∃ r i lt, nodes s !! m = Some r ∧ (T, i, lt) ∈ campaigns r) →
  saved (mkNet (nodes s) (soup s ++ ps)).
Proof.
  intros Hs Hps m r Hm. simpl in Hm. destruct (Hs m r Hm) as (t & v & Hd & Hp & Hc). exists t, v.
  split; [done|]. split; [|done]. simpl. intros p T [Hin|Hin]%elem_of_app HT; [by eapply Hp|].
  destruct (Hps p m T Hin HT) as (r1 & i & lt & Hr1 & Hin1). simplify_eq. by eapply Hc.
Qed.

Context (M : gset string) (Hodd : Z.odd (Z.of_nat (size M)) = true).

Definition no_votes (ps : list Packet) : Prop := ∀ p m, p ∈ ps → votes_of m p = None.

(** A step that gives no vote, unless it is a campaign. *)
Lemma saved_change fv won g s n r r' ch ps :
  sim M fv won g s → calm M s → saved s → nodes s !! n = Some r → persists n r r' →
  election_step r r' ch → calls_from r r' ch → storable r' → no_votes ps →
  saved (after_step s n r' ps).
Proof using All.
  intros Hsim Hcalm Hs Hr Hp He Hcs Hso Hps. destruct (Hs n r Hr) as (t & v & Hd & Hrem).
  destruct (calm_node M s n r Hcalm Hr) as (_ & _ & Hb).
  destruct (election_term r r' ch Hb He) as [Hle Hcamp].
  destruct (durable_step t v n r r' Hd Hp Hle Hso) as (t' & v' & Hd' & Hc).
  pose proof (ni_name _ _ _ _ (proj1 (si_net _ _ _ _ _ Hsim) n r Hr)) as Hname.
  pose proof (du_term _ _ _ Hd) as Ht.
  apply (saved_node s n r r' ps t v t' v'); try done.
  - destruct Hc as [[Hc _]|[-> ->]]; [by left|right]. split; [lia|done].
  - intros p m T Hin HT. by rewrite (Hps p m Hin) in HT.
  - intros T i lt [Hin|[-> [= -> -> ->]]]%Hcs; [by left|right]. specialize (Hcamp eq_refl).
    destruct Hc as [[_ [Hf|?]]|[-> ->]]; [exfalso|lia|].
    + inversion He as [| | | |? ? ? Hst|]; subst. destruct Hst as [?|[? _]]; congruence.
    + split; [lia|done].
Qed.

(** The packets of an event show no vote. *)
Lemma calls_no_votes n out r : no_votes (calls n out r).
Proof using.
  intros p m Hp. destruct out; cbn [calls] in Hp; try (by apply elem_of_nil in Hp).
  - by apply list_elem_of_fmap in Hp as (req & -> & _).
  - apply list_elem_of_In, in_flat_map in Hp as (i & _ & Hp). apply list_elem_of_In in Hp.
    destruct (chunk_at _ i) as [[o data] fin]. by apply list_elem_of_fmap in Hp as (req & -> & _).
Qed.

Lemma confirm_no_votes n t r : no_votes (confirm_calls n t r).
Proof using.
  intros p m Hp. unfold confirm_calls in Hp. destruct (confirm_requests _ _); [|by apply elem_of_nil in Hp].
  apply list_elem_of_In, in_flat_map in Hp as (q & _ & Hp). apply list_elem_of_In in Hp.
  by apply list_elem_of_fmap in Hp as (req & -> & _).
Qed.

Lemma sim_tidy fv won g s n r :
  sim M fv won g s → calm M s → saved s → nodes s !! n = Some r →
  tidy r ∧ a_log g n = log r ∧ lastLogIndex r = Z.of_nat (length (log r)).
Proof using.
  intros Hsim Hcalm Hs Hr. destruct (Hs n r Hr) as (t & v & Hd & _).
  destruct (calm_node M s n r Hcalm Hr) as (_ & Hm & _).
  destruct (si_nodes _ _ _ _ _ Hsim n r Hr) as [_ Hrel].
  pose proof (fl_repr _ _ (nr_full _ _ _ _ Hrel)) as Hrepr.
  pose proof (du_base _ _ _ Hd) as Hb. pose proof (re_wf _ _ Hrepr) as Hwf.
  split; [by split|]. split.
  - rewrite (re_log _ _ Hrepr). unfold base. by rewrite Hb.
  - by rewrite (lastLogIndex_wf r Hwf), Hb.
Qed.

Lemma sent_layout g req p :
  sent M g req p → layout 0 (a_llog g (ae_Term req)) → layout (Z.of_nat p) (Entries req).
Proof using.
  intros Hs Hlay j e Hj. pose proof (lookup_lt_Some _ _ _ Hj) as Hlt.
  pose proof (se_entries _ _ _ _ Hs) as He. pose proof (se_length _ _ _ _ Hs) as Hl.
  apply (f_equal (.!! (p + j)%nat)) in He.
  rewrite lookup_take_lt, lookup_app_r in He by (rewrite ?length_take; lia).
  rewrite length_take, Nat.min_l in He by lia. replace (p + j - p)%nat with j in He by lia.
  rewrite Hj in He. rewrite (Hlay _ _ He). lia.
Qed.

Lemma success_last req r :
  Success (processAppendEntries req r).1 = true →
  MatchIndex (processAppendEntries req r).1 = lastLogIndex (processAppendEntries req r).2.
Proof using.
  unfold processAppendEntries. destruct (_ <? _); [done|]. cbv zeta.
  destruct (_ <? _); [done|]. by destruct (_ && _).
Qed.

(** Entries of a leader are written. *)
Lemma saved_append fv won g s src n req tracked r who :
  let r' := (processAppendEntries req r).2 in
  sim M fv won g s → calm M s → saved s → Call src n (MAppendEntries req) tracked ∈ soup s →
  nodes s !! n = Some r → lastLogIndex r' + 1 < max_int64 → storable r' → persists who r r'.
Proof using DL Hodd.
  intros r' Hsim Hcalm Hs Hcall Hr Hm Hso. pose proof Hsim as [Hinv Hg Hko Hv Hwon Hll Hn Hsoup].
  destruct (Hn n r Hr) as [Hin Hrel]. pose proof (proj1 Hinv n r Hr) as Hni.
  pose proof (ni_plain _ _ _ _ Hni) as Hpl.
  pose proof (proj1 (proj2 Hinv) _ Hcall) as [Hwl Hno].
  destruct (Hsoup _ Hcall) as (Hne & Hlead & [p Hsent]%(λ H, H Hin)).
  assert (Hlead' : is_Some (a_leader g (ae_Term req))) by (by eexists).
  destruct (Hll _ Hlead') as [Hlay Hroom].
  destruct (sim_tidy fv won g s n r Hsim Hcalm Hs Hr) as (Ht & Hlog & Hlast).
  pose proof (se_length _ _ _ _ Hsent) as Hlen.
  apply (persists_append who req r p); try done.
  - apply Hsent.
  - by apply (sent_layout g).
  - lia.
  - intros Hok. rewrite <- Hlog, <- (success_last req r Hok).
    destruct (processAppendEntries_cases req r)
      as [[_ Hres]|[(_ & m & Hres & _)|(Hterm & Hprev & Hmatch)]]; [by rewrite Hres in Hok..|].
    assert (Hother : state r = Leader → currentTerm r < ae_Term req).
    { intros Hsr. apply Z.le_neq. split; [done|]. intros Heq.
      apply (ni_leader _ _ _ _ Hni), Hwon in Hsr. rewrite Heq, Hlead in Hsr. congruence. }
    destruct (accept_rel M g n r req p) as (r1 & Heq1 & _); try done. by rewrite Heq1.
  - apply Hso.
Qed.

(** ** The steps of the cluster *)

Lemma response_no_votes src n msg resp tracked :
  (∀ req, msg ≠ MRequestVote req) →
  no_votes (if tracked : bool then map (Return src) (response n msg resp) else []).
Proof using.
  intros Hno p m Hp. destruct tracked; [|by apply elem_of_nil in Hp].
  apply list_elem_of_fmap in Hp as (q & -> & Hq).
  destruct msg, resp; simpl in Hq; try (by apply elem_of_nil in Hq);
    try (by apply list_elem_of_singleton in Hq as ->); [by edestruct Hno|].
  destruct (_ || _); [|by apply elem_of_nil in Hq]. by apply list_elem_of_singleton in Hq as ->.
Qed.

(** A call for a vote: a vote that is granted is written before the answer. *)
Lemma saved_vote fv won g s src n req tracked r resp r' :
  let ps := if tracked : bool
            then map (Return src) (response n (MRequestVote req) (RVote resp)) else [] in
  sim M fv won g s → calm M s → saved s → Call src n (MRequestVote req) tracked ∈ soup s →
  nodes s !! n = Some r → processRequestVote req r = (resp, r') →
  VoteGranted resp = true → currentTerm r ≤ currentTerm r' → storable r' →
  (∀ c, c ∈ campaigns r' → c ∈ campaigns r) → saved (after_step s n r' ps).
Proof using All.
  intros ps Hsim Hcalm Hs Hcall Hr He Hok Hle Hso Hcs.
  destruct (Hs n r Hr) as (t & v & Hd & Hrem).
  destruct (si_soup _ _ _ _ _ Hsim _ Hcall) as (l & Hl & _).
  pose proof (pi_vote_term M g (si_proto _ _ _ _ _ Hsim) _ _ _ Hl) as [HT1 _].
  pose proof (proj1 (proj2 (si_net _ _ _ _ _ Hsim)) _ Hcall) as [Hsrc Hne].
  pose proof (persists_requestVote req r) as Hp. rewrite He, Hok in Hp.
  destruct Hp as (Ht' & r1 & Hu & Hw & Hlog & Hvo & Hrt).
  pose proof (writes_trans [] [WAL_State (rv_Term req) (CandidateId req)] _ _ _ (un_writes _ _ Hu) Hw)
    as Hw2.
  assert (Hd' : durable (rv_Term req) (CandidateId req) r').
  { apply (durable_writes _ t v _ _ r r' Hd Hw2).
    - repeat constructor. pose proof (so_state _ Hso) as Hst. by rewrite Ht', Hvo in Hst.
    - cbn [foldl app apply_record]. by rewrite Hlog, (un_log _ _ Hu).
    - lia. }
  pose proof (du_term _ _ _ Hd) as Ht.
  apply (saved_node s n r r' ps t v (rv_Term req) (CandidateId req)); try done.
  - right. split; [lia|congruence].
  - intros p m T Hp HT. unfold ps in Hp. destruct tracked; [|by apply elem_of_nil in Hp].
    apply list_elem_of_fmap in Hp as (q & -> & Hq). apply list_elem_of_singleton in Hq as ->.
    cbn [votes_of] in HT. rewrite Hok, andb_true_r in HT. case_bool_decide as Hm; [|done].
    injection HT as <-. rewrite Hrt. split; [done|]. split; [lia|congruence].
  - intros T i lt Hin. left. by apply Hcs.
Qed.

(** The step of one node, as far as its disk is concerned. *)
Lemma saved_event fv won g s n r ev out r' :
  let s' := after_step s n r' (calls n out r') in
  sim M fv won g s → storing M s → saved s → storing M s' → nodes s !! n = Some r →
  local_event ev → handle ev r = (out, r') → saved s'.
Proof using All.
  intros s' Hsim [Hcalm Hsto0] Hs [Hcalm' Hsto] Hr Hl He.
  pose proof Hsim as [Hinv _ _ _ _ _ Hn _].
  pose proof (proj1 Hinv n r Hr) as Hni. pose proof (ni_plain _ _ _ _ Hni) as Hpl.
  destruct (sim_tidy fv won g s n r Hsim Hcalm Hs Hr) as (Ht & Hlog & Hlast).
  destruct (Hs n r Hr) as (t & v & Hd & _).
  destruct (calm_after M s n r' _ Hcalm') as (_ & Hm' & _).
  assert (Hso : storable r') by (by apply (map_Forall_lookup_1 _ _ n r' Hsto), lookup_insert_eq).
  assert (Hno : ∀ cmd ch, ev = ECommand cmd ch → ∀ i t, no_config (mkLogEntry i t cmd)).
  { intros cmd ch -> i t0. destruct Hl as (op & key & val & cl & rq & Hc).
    by eapply proposed_plain. }
  destruct (local_step ev r) as (ch & Hid & Hes & Hch & Hcs); [done|by intros msg ->|done|].
  assert (Hper : persists n r (handle ev r).2).
  { rewrite <- (ni_id _ _ _ _ Hni).
    assert (Hidle : idle_event ev → persists (node_id r) r (handle ev r).2).
    { intros Hi. apply persists_idle; [done|done|apply Hd]. }
    destruct ev; try (by apply Hidle); clear Hidle; [|by apply persists_config].
    rewrite He in *. cbn [snd] in *. simpl in He. injection He as <- <-.
    apply persists_command; try done; [by eapply Hno| |apply Hso].
    intros Hsr. destruct (Hn n r Hr) as [_ Hrel]. pose proof (nr_full _ _ _ _ Hrel) as HF.
    destruct (calm_node M s n r Hcalm Hr) as (_ & Hm & _).
    rewrite (repr_last _ _ (fl_repr _ _ HF)) in Hm |- *.
    destruct (handleClientCommand_full (a_log g n) cmd ch0 r HF Hpl ltac:(by eapply Hno) Hm)
      as [(? & _)|(_ & e & _ & _ & HF' & _)]; [done|].
    rewrite (repr_last _ _ (fl_repr _ _ HF')), length_app. simpl. lia. }
  rewrite He in *. cbn [snd] in *.
  by apply (saved_change fv won g s n r r' ch); [..|apply calls_no_votes].
Qed.

Lemma saved_goroutine fv won g s n r e :
  sim M fv won g s → saved s → nodes s !! n = Some r → e ∈ effects r →
  saved (mkNet (nodes s) (soup s ++ goroutine n e r)).
Proof using.
  intros Hsim Hs Hr He. apply saved_send; [done|]. intros p m T Hp HT. destruct e; simpl in Hp;
    try (by apply elem_of_nil in Hp);
    apply list_elem_of_fmap in Hp as (req & -> & Hreq%elem_of_to_list); [done|].
  apply with_connection_Ok in Hreq as ->. cbn [votes_of CandidateId rv_Term] in HT.
  case_bool_decide as Hm; [|done]. injection HT as <-.
  rewrite (ni_id _ _ _ _ (proj1 (si_net _ _ _ _ _ Hsim) n r Hr)) in Hm. subst m.
  eexists r, _, _. split; [done|]. unfold campaigns. apply list_elem_of_omap. by eexists.
Qed.

Lemma saved_call fv won g s src n msg tracked r resp r' :
  let ps := if tracked : bool then map (Return src) (response n msg resp) else [] in
  sim M fv won g s → storing M s → saved s → storing M (after_step s n r' ps) →
  Call src n msg tracked ∈ soup s → nodes s !! n = Some r → handleRPC msg r = (resp, r') →
  saved (after_step s n r' ps).
Proof using All.
  intros ps Hsim [Hcalm _] Hs [Hcalm' Hsto] Hp Hr He. pose proof (si_net _ _ _ _ _ Hsim) as Hinv.
  pose proof (proj1 Hinv n r Hr) as Hni. pose proof (proj1 (proj2 Hinv) _ Hp) as Hpk.
  destruct (calm_after M s n r' _ Hcalm') as (_ & Hm' & _).
  assert (Hso : storable r') by (by apply (map_Forall_lookup_1 _ _ n r' Hsto), lookup_insert_eq).
  destruct (call_step M fv won src n msg tracked r resp r')
    as (ch & Hid & Hes & Hcs & _ & _ & _); [|done|].
  { split_and!; [| |apply Hinv].
    - intros m rm. simpl. rewrite lookup_singleton_Some. by intros [<- <-].
    - intros p Hin. simpl in Hin. by apply list_elem_of_singleton in Hin as ->. }
  assert (Hsame : persists n r r' → (∀ req, msg ≠ MRequestVote req) → saved (after_step s n r' ps)).
  { intros Hper Hne. by apply (saved_change fv won g s n r r' ch); [..|apply response_no_votes]. }
  destruct msg as [req|req|req|req| | | |]; simpl in Hpk; try done; simpl in He.
  - injection He as <- <-. apply Hsame; [apply persists_untouched, untouched_refl|done].
  - destruct (calm_node M s n r Hcalm Hr) as (_ & _ & Hb).
    destruct (election_term r r' ch Hb Hes) as [Hle _].
    pose proof (persists_requestVote req r) as Hper.
    destruct (processRequestVote_step req r) as (ch' & [_ _ _ Scc] & _ & Hch').
    destruct (processRequestVote req r) as [rsp r1] eqn:Hrv. cbn [fst snd] in *.
    injection He as <- <-. destruct (VoteGranted rsp) eqn:Hok.
    + apply (saved_vote fv won g s src n req tracked r rsp r1); try done.
      subst ch'. intros c Hc. by destruct (Scc c Hc) as [?|[? _]].
    + apply (saved_change fv won g s n r r1 ch); try done; [by apply persists_untouched|].
      intros p m Hin. unfold ps in Hin. destruct tracked; [|by apply elem_of_nil in Hin].
      apply list_elem_of_fmap in Hin as (q & -> & Hq). apply list_elem_of_singleton in Hq as ->.
      cbn [votes_of]. by rewrite Hok, andb_false_r.
  - pose proof (saved_append fv won g s src n req tracked r n Hsim Hcalm Hs Hp Hr) as Hper.
    destruct (processAppendEntries req r) as [rsp r1]. injection He as <- <-.
    apply Hsame; [by apply Hper|done].
  - destruct Hcalm as (_ & _ & Hno). rewrite Forall_forall in Hno. by apply Hno in Hp.
Qed.

Lemma saved_return fv won g s n msg r resp r' :
  let s' := after_step s n r' [] in
  sim M fv won g s → storing M s → saved s → storing M s' → Return n msg ∈ soup s →
  nodes s !! n = Some r → handleRPC msg r = (resp, r') → saved s'.
Proof using All.
  intros s' Hsim [Hcalm Hsto0] Hs [_ Hsto] Hp Hr He. pose proof (si_net _ _ _ _ _ Hsim) as Hinv.
  pose proof (proj1 Hinv n r Hr) as Hni. pose proof (proj1 (proj2 Hinv) _ Hp) as Hpk.
  destruct (sim_tidy fv won g s n r Hsim Hcalm Hs Hr) as (Ht & _).
  assert (Hso : storable r') by (by apply (map_Forall_lookup_1 _ _ n r' Hsto), lookup_insert_eq).
  pose proof (map_Forall_lookup_1 _ _ _ _ Hsto0 Hr) as Hso0.
  destruct (return_step fv won n msg r resp r') as (ch & Hid & Hes & Hcs & _ & _); try done.
  assert (Hsame : persists n r r' → saved s').
  { intros Hper. apply (saved_change fv won g s n r r' ch); try done. by intros q m ?%elem_of_nil. }
  apply Hsame. rewrite <- (ni_id _ _ _ _ Hni).
  destruct msg as [| | | |v rsp|v rsp|v rsp|v rsp]; simpl in Hpk; try done;
    simpl in He; injection He as <- <-.
  - by apply persists_preVoteResponse.
  - by apply persists_voteResponse.
  - apply persists_untouched, untouched_appendResponse; [done|apply Hni|apply Hso0].
  - by apply (si_soup _ _ _ _ _ Hsim) in Hp.
Qed.

Lemma saved_step fv won g s s' :
  sim M fv won g s → storing M s → saved s → net_step s s' → storing M s' → saved s'.
Proof using All.
  intros Hsim Hsto Hs Hstep Hsto'.
  destruct Hstep as [n r ev out r' Hr Hl He|n r e Hr He|n r t Hr
                    |src n msg tracked r resp r' Hp Hr He|n msg r resp r' Hp Hr He].
  - by apply (saved_event fv won g s n r ev out r').
  - by apply (saved_goroutine fv won g s n r e).
  - apply saved_send; [done|]. intros p m T Hp HT. by rewrite (confirm_no_votes n t r p m Hp) in HT.
  - by apply (saved_call fv won g s src n msg tracked r resp r').
  - rewrite <- (app_nil_r (soup s)) in Hsto' |- *. by apply (saved_return fv won g s n msg r resp r').
Qed.

(** ** Runs *)

Lemma started_durable n r : started n r → durable 0 "" r ∧ campaigns r = [].
Proof using.
  intros (peers & dir & threshold & now & r0 & Hnew & Hs).
  rewrite NewRaft_fresh in Hnew. injection Hnew as <-. unfold Start, connectToPeers in Hs.
  match type of Hs with context [connectToPeersLocked ?x] => set (r0 := x) in Hs end.
  assert (durable 0 "" r0 ∧ campaigns r0 = []) as H0.
  { split; [|done]. split; try done.
    - exists []. split; [|done]. unfold content. unfold r0. cbn. 
      rewrite lookup_singleton_eq. constructor.
    - by exists dir.
    - cbn. apply lookup_singleton_ne. intros Heq. by apply (files_distinct dir). }
  clearbody r0. destruct (connectToPeersLocked_frame r0) as [g Hg].
  destruct (connectToPeersLocked r0) as [[e|] r1]; [done|]. simpl in Hg. subst r1.
  injection Hs as <-. destruct H0 as [[] ?]. split; [by split|done].
Qed.

Lemma saved_start s : new_cluster M s → saved s.
Proof using.
  intros [Hs Hn] n r Hr. destruct (map_Forall_lookup_1 _ _ _ _ Hn Hr) as (_ & _ & Hst).
  destruct (started_durable n r Hst) as [Hd Hc]. exists 0, "". split; [done|]. split.
  - rewrite Hs. by intros p T ?%elem_of_nil.
  - rewrite Hc. by intros T i lt ?%elem_of_nil.
Qed.

Lemma saved_runs s s' :
  new_cluster M s → runs (storing M) s s' →
  storing M s' ∧ saved s' ∧ ∃ fv won g, sim M fv won g s'.
Proof using All.
  intros Hnew Hrun. induction Hrun as [s Hc|s1 s2 s3 Hrun IH Hstep Hc].
  { split; [done|]. split; [by apply saved_start|]. exists ∅, ∅, (first_abs s).
    by apply sim_start. }
  destruct (IH Hnew) as (Hc2 & Hs2 & fv & won & g & Hsim). split; [done|].
  split; [by apply (saved_step fv won g s2)|].
  destruct (sim_step M Hodd fv won g s2 s3 Hsim) as (fv3 & won3 & g3 & _ & Hsim3 & _);
    [apply Hc2|done|apply Hc|by exists fv3, won3, g3].
Qed.

(** ** The restart *)

Lemma OpenWAL_healthy path d :
  healthy d → ∃ d', OpenWAL path d = (Ok (mkWAL FileOpen path), d') ∧ healthy d' ∧
    content d' path = content d path ∧ ∀ p, p ≠ path → files d' !! p = files d !! p.
Proof using.
  intros Hd. unfold OpenWAL, os_nop, os_create. rewrite !os_call_healthy by done.
  eexists. split; [done|]. split; [done|]. unfold content. rsimpl. unfold id.
  destruct (files d !! path) eqn:Hp; [by rewrite Hp|]. rewrite lookup_insert_eq. split; [done|].
  intros p Hne. by rewrite lookup_insert_ne.
Qed.

Definition restarted (n : string) (peers : gmap string string) (dir : string) (now : Z)
    (t : Z) (v : string) (r : Raft) (d : Disk) : Raft :=
  (initial_node n peers dir (wal r) (snapshotThreshold r) now d)
    <| currentTerm := t |> <| votedFor := v |> <| log := log r |>.

Lemma applyLogs_restarted n peers dir now t v r d :
  tidy r → uncompacted r →
  let r' := restarted n peers dir now t v r d in applyLogs r' = r'.
Proof using.
  intros (Hwf & Hb & Hm) Hu r'. unfold applyLogs. change (commitIndex r' - lastApplied r') with 0.
  change (apply_loop (Z.to_nat 0) r') with r'. cbv zeta.
  assert (Hl : lastLogIndex r' = lastLogIndex r)
    by (apply lastLogIndex_ext; done).
  change (snapshotThreshold r') with (snapshotThreshold r).
  change (lastIncludedIndex r') with 0. rewrite Hl.
  assert (0 ≤ lastLogIndex r) by (rewrite (lastLogIndex_wf r Hwf); lia).
  rewrite int64_sub_small by (unfold is_int64, max_int64 in *; lia).
  destruct ((0 <? _) && _) eqn:Hc; [|done].
  exfalso. unfold uncompacted in Hu. lia.
Qed.

Lemma durable_restart n peers dir now t v r :
  durable t v r → tidy r → uncompacted r → kept_in dir r →
  ∃ d, NewRaft n peers dir (snapshotThreshold r) now (disk r) =
    Ok (restarted n peers dir now t (if 0 <? t then v else "") r d).
Proof using PL.
  intros [Dd Do (rs & De & Dr) Dt _ Ds Db] Hti Hu [Hw Hsn].
  destruct (OpenWAL_healthy (dir +:+ "/wal.log") (disk r) Dd) as (d & Ho & Hd & Hc & Hp).
  exists d. unfold NewRaft. rewrite Ho. unfold loadState.
  set (r0 := initial_node _ _ _ _ _ _ _). change (snapshotPath r0) with (dir +:+ "/snapshot.json").
  change (disk r0) with d. unfold LoadSnapshot. rewrite os_read_healthy by done.
  rewrite Hp by apply files_distinct. rewrite <- Hsn, Ds.
  change (Replay _ _) with (Replay (mkWAL FileOpen (dir +:+ "/wal.log")) d).
  rewrite Replay_healthy by done. cbn [wal_path]. rewrite Hc, <- Hw.
  rewrite (replay_encodes _ _ De), Dr. cbv iota beta.
  match goal with |- context [applyLogs ?x] => assert (x = restarted n peers dir now t
    (if 0 <? t then v else "") r d) as -> end.
  { unfold load_records, restarted.
    assert (filter (λ e, 0 < Index e) (log r) = log r) as Hf.
    { apply filter_Forall_id, Forall_forall. intros e Hin.
      apply list_elem_of_lookup in Hin as [j Hj]. destruct Hti as ((_ & _ & Hlay) & _).
      rewrite Db in Hlay. rewrite (Hlay _ _ Hj). lia. }
    assert (Hwal : wal r = mkWAL FileOpen (dir +:+ "/wal.log")) by (destruct (wal r); simpl in *; congruence).
    destruct (Z.ltb_spec 0 t); [|replace t with 0 by lia];
      match goal with |- context [lastIncludedIndex ?x] => change (lastIncludedIndex x) with 0 end;
      rewrite Hf; unfold r0; by rewrite Hwal. }
  by rewrite applyLogs_restarted.
Qed.
End Recovery.

(** C14. What a restart keeps.  Over the runs of the cluster without restarts,
    with a fixed odd membership, working disks and no compaction, the disk of a
    node holds all of its log and every vote it has given: [NewRaft] on it
    succeeds, with any peers and at any time, and gives a follower with the
    same log, a term that is at most the old one and not before that of any
    vote the node has given, and in the term of such a vote it has a vote, so
    that it gives no second one.  The term itself may be older
    ([restart_forgets_term]). *)
Theorem restart_keeps `{!ProtoCodec} `{!ProtoCodecLaws} `{!Dialer} M s0 s n r :
  Z.odd (Z.of_nat (size M)) = true → (∀ i, is_int64 i → encodable (WAL_TruncateIndex i)) →
  new_cluster M s0 → runs (storing M) s0 s → nodes s !! n = Some r →
  ∃ dir t v, kept_in dir r ∧ t ≤ currentTerm r ∧
    (∀ peers now, ∃ d, NewRaft n peers dir (snapshotThreshold r) now (disk r) =
       Ok (restarted n peers dir now t v r d)) ∧
    ∀ p T, p ∈ soup s → votes_of n p = Some T → T ≤ t ∧ (T = t → v ≠ "").
Proof.
  intros Hodd Htr Hnew Hrun Hr.
  destruct (saved_runs Htr M Hodd s0 s Hnew Hrun) as ([Hcalm Hsto] & Hs & fv & won & g & Hsim).
  destruct (sim_tidy M fv won g s n r Hsim Hcalm Hs Hr) as (Hti & _).
  pose proof (so_room _ (map_Forall_lookup_1 _ _ _ _ Hsto Hr)) as Hu.
  destruct (Hs n r Hr) as (t & v & Hd & Hp & _).
  destruct (du_paths _ _ _ Hd) as [dir Hdir].
  exists dir, t, (if 0 <? t then v else ""). split; [done|]. split; [apply Hd|]. split.
  - intros peers now. by apply durable_restart.
  - intros p T Hin HT. destruct (Hp p T Hin HT) as [[Hpos Hle] Hv].
    split; [done|]. intros ->. rewrite (proj2 (Z.ltb_lt 0 t)) by lia. by apply Hv.
Qed.

(** ** A run *)

Definition encodable_check (rec : WALRecord) : bool := bool_decide (encodable rec).

Definition storing_check (M : gset string) (s : Net) : bool :=
  calm_check M s &&
  forallb (λ kv : string * Raft, let r := kv.2 in
    (lastLogIndex r <=? snapshotThreshold r) && forallb (λ e, encodable_check (WAL_Entry e)) (log r)
    && encodable_check (WAL_State (currentTerm r) (votedFor r))) (map_to_list (nodes s)).

Lemma storing_check_sound M s : storing_check M s = true → storing M s.
Proof.
  unfold storing_check. rewrite andb_true_iff, forallb_forall. intros [Hc Hn].
  split; [by apply calm_check_sound|]. intros n r Hr. specialize (Hn (n, r)).
  rewrite <- list_elem_of_In, elem_of_map_to_list in Hn. apply Hn in Hr. cbn [snd] in Hr.
  rewrite !andb_true_iff, forallb_forall in Hr. destruct Hr as [[Hl%Z.leb_le He] Hs].
  split; [by right| |by apply bool_decide_eq_true in Hs].
  apply Forall_forall. intros e Hin%list_elem_of_In%He. by apply bool_decide_eq_true in Hin.
Qed.

Lemma put_varint_length f n : (length (put_varint f n) ≤ f)%nat.
Proof.
  revert n. induction f as [|f IH]; intros n; simpl; [lia|].
  destruct (_ <? _); simpl; [lia|]. specialize (IH (n / 128)). lia.
Qed.

Lemma wire_truncations i : is_int64 i → encodable (WAL_TruncateIndex i).
Proof.
  intros Hi. unfold encodable. cbn [proto_Marshal wire_codec record_in_range record_fields].
  rewrite (proj2 (in_int64_spec i) Hi). cbn [andb]. unfold put_fields. cbn [map concat put_field].
  rewrite app_nil_r, length_app.
  pose proof (put_varint_length 10 (3 * 8)). pose proof (put_varint_length 10 (i mod 2 ^ 64)).
  destruct (Z.ltb_spec (Z.of_nat (length (put_varint 10 (3 * 8))
    + length (put_varint 10 (i mod 2 ^ 64)))) (2 ^ 31)); [by eexists|lia].
Qed.

Lemma written_stored : runs (storing trio_members) trio_net written.
Proof.
  apply (exec_with_runs _ (storing_check trio_members) (elect_n1 ++ write_n1));
    [apply storing_check_sound|vm_compute; reflexivity].
Qed.

Example restart_keeps_witness :
  log (node_of written "n3") ≠ [] ∧
  ∃ dir t v, kept_in dir (node_of written "n3") ∧ t ≤ currentTerm (node_of written "n3") ∧
    (∀ peers now, ∃ d, NewRaft "n3" peers dir (snapshotThreshold (node_of written "n3")) now
         (disk (node_of written "n3")) =
       Ok (restarted "n3" peers dir now t v (node_of written "n3") d)) ∧
    ∀ p T, p ∈ soup written → votes_of "n3" p = Some T → T ≤ t ∧ (T = t → v ≠ "").
Proof.
  split; [vm_compute; intros H; discriminate H|].
  apply (restart_keeps trio_members trio_net written "n3" (node_of written "n3")).
  - vm_compute. reflexivity.
  - exact wire_truncations.
  - exact trio_new.
  - exact written_stored.
  - vm_compute. reflexivity.
Defined.
