(* ===== verification/Bench.v ===== *)
(** * The load generator

    [bench/main.go].  Each of the workers takes turns until the time is over:
    a turn draws a key and a value, builds a request, sends it and records
    whether it succeeded and how long it took.  What a turn draws, what
    [http.NewRequest] and the client answer and what the clock shows are the
    fields of a [Turn]; a run of the program is the sequence of the turns of
    all workers, in the order in which they are recorded.  [Report] is what
    the program prints at the end, and [None] is a panic of an index out of
    range. *)

From Stdlib Require Import SpecFloat.
From stdpp Require Import sorting.
From S2P Require Import Prelude Types Config Json GoFloat GoStrings Http.

(** The flags. *)
Record BenchFlags := mkBenchFlags {
  b_url : string;
  b_token : string;
  b_concurrency : Z;
  b_duration : Z;
  b_op : string
}.

(** The request a worker builds. *)
Record BenchRequest := mkBenchRequest {
  bq_Method : string;
  bq_URL : string;
  bq_Header : Header;
  bq_Body : bytes
}.

(** The inputs of a turn: [rand.Intn(1000)], [rand.Float32() < 0.5] and
    [rand.Intn(10000)], whether the request could be built, the status of the
    response, if there was one, and the clock before and after. *)
Record Turn := mkTurn {
  tu_key : Z;
  tu_coin : bool;
  tu_val : Z;
  tu_built : bool;
  tu_status : option Z;
  tu_start : Z;
  tu_end : Z
}.

(** The variables the workers share. *)
Record Stats := mkStats {
  totalOps : Z;
  totalErr : Z;
  latencies : list float64
}.

Definition clientID (workerID : Z) : string := "bench-client-" +:+ FormatInt workerID.

Definition op_type (f : BenchFlags) (t : Turn) : string :=
  if bool_decide (b_op f = "MIXED") then if tu_coin t then "PUT" else "GET" else b_op f.

Definition is_put (f : BenchFlags) (t : Turn) : bool := bool_decide (op_type f t = "PUT").

(** The request of a turn, for the worker's number, and the next number. *)
Definition bench_request (f : BenchFlags) (workerID : Z) (t : Turn) (reqID : Z)
    : BenchRequest * Z :=
  let key := "bench_key_" +:+ FormatInt (tu_key t) in
  let reqURL := b_url f +:+ "/kv/" +:+ key in
  let '(req, reqID) :=
    if is_put f t then
      let val := "payload_" +:+ FormatInt (tu_val t) in
      let h := header_set "X-Client-ID" (clientID workerID) ∅ in
      let h := header_set "X-Request-ID" (FormatInt reqID) h in
      (mkBenchRequest "PUT" reqURL h (to_bytes val), reqID +! 1)
    else (mkBenchRequest "GET" reqURL ∅ [], reqID) in
  if bool_decide (b_token f = "") then (req, reqID)
  else
    (mkBenchRequest (bq_Method req) (bq_URL req)
       (header_set "Authorization" ("Bearer " +:+ b_token f) (bq_Header req)) (bq_Body req),
     reqID).

(** [time.Since(opStart).Seconds() * 1000.0] *)
Definition elapsed (t : Turn) : float64 :=
  float_mul (Seconds (tu_end t - tu_start t)) (float_of_Z 1000).

(** The turn succeeds: a response below 400. *)
Definition turn_ok (t : Turn) : bool :=
  tu_built t && match tu_status t with Some code => code <? 400 | None => false end.

Definition record_turn (t : Turn) (s : Stats) : Stats :=
  if turn_ok t then mkStats (totalOps s +! 1) (totalErr s) (latencies s ++ [elapsed t])
  else mkStats (totalOps s) (totalErr s +! 1) (latencies s).

(** The numbers of the workers' next requests, and the counters. *)
Definition Bench : Type := gmap Z Z * Stats.

Definition bench_start (f : BenchFlags) : Bench :=
  (list_to_map (map (λ i, (Z.of_nat i, 1)) (seq 0 (Z.to_nat (b_concurrency f)))),
   mkStats 0 0 []).

(** One turn of the loop of a worker, and the request it sends. *)
Definition bench_turn (f : BenchFlags) (workerID : Z) (t : Turn) (b : Bench)
    : option (BenchRequest * Bench) :=
  reqID ← b.1 !! workerID;
  let '(req, reqID') := bench_request f workerID t reqID in
  Some (req, (<[workerID := reqID']> b.1, record_turn t b.2)).

(** The turns of a run: the requests that were sent, with their workers. *)
Fixpoint bench_run (f : BenchFlags) (ts : list (Z * Turn)) (b : Bench)
    : option (list (Z * BenchRequest) * Bench) :=
  match ts with
  | [] => Some ([], b)
  | (i, t) :: ts =>
      '(req, b) ← bench_turn f i t b;
      '(reqs, b) ← bench_run f ts b;
      Some ((if tu_built t then [(i, req)] else []) ++ reqs, b)
  end.

(** ** The report *)

(** [int(x)]; [None] where the language leaves the result open. *)
Definition int_of_float (x : float64) : option Z :=
  match x with
  | S754_zero _ => Some 0
  | S754_finite s m e =>
      let z := if 0 <=? e then Zpos m * 2 ^ e else Zpos m / 2 ^ (- e) in
      let z := if s then - z else z in
      if bool_decide (is_int64 z) then Some z else None
  | _ => None
  end.

(** [sort.Float64s]: a NaN comes first. *)
Definition is_nan (x : float64) : bool := match x with S754_nan => true | _ => false end.
Definition float_less (x y : float64) : bool := SFltb x y || (is_nan x && negb (is_nan y)).
Definition float_le (x y : float64) : Prop := float_less y x = false.
#[export] Instance float_le_dec : RelDecision float_le := λ x y, bool_eq_dec (float_less y x) false.
Definition Float64s : list float64 → list float64 := merge_sort float_le.

(** [latencies[int(n*q)]] *)
Definition percentile (ls : list float64) (q : float64) : option float64 :=
  i ← int_of_float (float_mul (float_of_Z (Z.of_nat (length ls))) q);
  if 0 <=? i then ls !! Z.to_nat i else None.

Inductive Report :=
| NoOperations (errors : Z)
| Results (ops errors : Z) (throughput p50 p95 p99 : float64).

(** The end of [main], [totalDuration] after the start. *)
Definition bench_report (totalDuration : Z) (s : Stats) : option Report :=
  if bool_decide (length (latencies s) = 0%nat) then Some (NoOperations (totalErr s))
  else
    let ls := Float64s (latencies s) in
    p50 ← percentile ls (decimal 50 100);
    p95 ← percentile ls (decimal 95 100);
    p99 ← percentile ls (decimal 99 100);
    Some (Results (totalOps s) (totalErr s)
      (float_div (float_of_Z (totalOps s)) (Seconds totalDuration)) p50 p95 p99).
