(* ===== verification/BenchSpec.v ===== *)
(** * What the load generator does

    Its counts and its report, and what a second run of it does to the store. *)

From Stdlib Require Import SpecFloat.
From stdpp Require Import sorting.
From S2P Require Import Prelude Types Config Json JsonFacts Envelope Disk Wal SnapshotStore.
From S2P Require Import Node Roles Apply StateMachine GoFloat GoStrings Http Api ApiSpec.
From S2P Require Import Gateway GatewaySpec Service SoloServer Bench.

(** ** A product of floating point numbers *)

Lemma digits_bounds p : 2 ^ (Zpos (digits2_pos p) - 1) ≤ Zpos p < 2 ^ Zpos (digits2_pos p).
Proof.
  induction p as [p IH|p IH|]; cbn [digits2_pos]; [| |done];
    rewrite Pos2Z.inj_succ, Z.pow_succ_r by lia;
    replace (Z.succ (Zpos (digits2_pos p)) - 1) with (Z.succ (Zpos (digits2_pos p) - 1)) by lia;
    (rewrite Z.pow_succ_r by lia); lia.
Qed.

Lemma digits_unique p d : 0 < d → 2 ^ (d - 1) ≤ Zpos p < 2 ^ d → Zpos (digits2_pos p) = d.
Proof.
  intros Hd [H1 H2]. pose proof (digits_bounds p) as [H3 H4].
  assert (d - 1 < Zpos (digits2_pos p)) by (apply (Z.pow_lt_mono_r_iff 2); lia).
  assert (Zpos (digits2_pos p) - 1 < d) by (apply (Z.pow_lt_mono_r_iff 2); lia). lia.
Qed.

Lemma iter_pos_iter {A} (f : A → A) p x : SpecFloat.iter_pos f p x = Nat.iter (Pos.to_nat p) f x.
Proof.
  revert x. induction p as [p IH|p IH|]; intros x; cbn [SpecFloat.iter_pos]; [| |done];
    rewrite !IH, <- ?Nat.iter_succ_r, <- ?Nat.iter_add; f_equal; lia.
Qed.

Lemma shr_1_half r : 0 ≤ shr_m r → shr_m (shr_1 r) = shr_m r / 2.
Proof.
  destruct r as [m rd st]. cbn [shr_m]. intros Hm. destruct m as [|[p|p|]|]; [done| | |done|done].
  - cbn [shr_1 shr_m]. Z.to_euclidean_division_equations. lia.
  - cbn [shr_1 shr_m]. Z.to_euclidean_division_equations. lia.
Qed.

Lemma shr_iter k r : 0 ≤ shr_m r → shr_m (Nat.iter k shr_1 r) = shr_m r / 2 ^ Z.of_nat k.
Proof.
  intros Hr. induction k as [|k IH]; [by rewrite Z.div_1_r|]. rewrite Nat.iter_succ.
  rewrite shr_1_half by (rewrite IH; apply Z.div_pos; lia).
  rewrite IH, Z.div_div by lia. f_equal. rewrite Nat2Z.inj_succ, Z.pow_succ_r by lia. lia.
Qed.

Lemma shr_fexp_small m e : fexp 53 1024 (Zdigits2 m + e) ≤ e →
  shr_fexp 53 1024 m e loc_Exact = (Build_shr_record m false false, e).
Proof.
  intros H. unfold shr_fexp. cbn [shr_record_of_loc].
  destruct (fexp 53 1024 (Zdigits2 m + e) - e) eqn:Hk; [done|lia|done].
Qed.

Lemma shr_fexp_shift m e k :
  0 ≤ m → 0 < k → fexp 53 1024 (Zdigits2 m + e) = e + k →
  ∃ r, shr_fexp 53 1024 m e loc_Exact = (r, e + k) ∧ shr_m r = m / 2 ^ k.
Proof.
  intros Hm Hk H. unfold shr_fexp. cbn [shr_record_of_loc]. rewrite H.
  replace (e + k - e) with k by lia. destruct k as [|p|p]; try lia. cbn [shr].
  eexists. split; [done|]. by rewrite iter_pos_iter, shr_iter, positive_nat_Z.
Qed.

Lemma fexp_normal z : -1021 ≤ z → fexp 53 1024 z = z - 53.
Proof. intros. unfold fexp, emin. lia. Qed.

(** A product of 53 and more bits is rounded to the next number below or above:
    at most one unit in its last place away. *)
Lemma round_product M E :
  let d := Zpos (digits2_pos M) in
  53 < d → -1021 ≤ d + E → d + E < 1000 →
  ∃ m e, binary_round_aux 53 1024 false (Zpos M) E loc_Exact = S754_finite false m e ∧
    E ≤ e ∧ Zpos M - 2 ^ (d - 53) ≤ Zpos m * 2 ^ (e - E) ≤ Zpos M + 2 ^ (d - 53).
Proof.
  intros d Hd H1 H2. pose proof (digits_bounds M) as [Hlo Hhi]. fold d in Hlo, Hhi.
  unfold binary_round_aux.
  destruct (shr_fexp_shift (Zpos M) E (d - 53)) as (r & -> & Hr); [lia..| |].
  { cbn [Zdigits2]. fold d. rewrite fexp_normal; lia. }
  set (q := round_nearest_even (shr_m r) (loc_of_shr_record r)).
  assert (Hpow : 2 ^ (d - 1) = 2 ^ 52 * 2 ^ (d - 53)) by (rewrite <- Z.pow_add_r by lia; f_equal; lia).
  assert (Hpow' : 2 ^ d = 2 ^ 53 * 2 ^ (d - 53)) by (rewrite <- Z.pow_add_r by lia; f_equal; lia).
  assert (Hp0 : 0 < 2 ^ (d - 53)) by (apply Z.pow_pos_nonneg; lia).
  assert (Hm : 2 ^ 52 ≤ shr_m r < 2 ^ 53 ∧ shr_m r * 2 ^ (d - 53) ≤ Zpos M ∧
    Zpos M - 2 ^ (d - 53) ≤ shr_m r * 2 ^ (d - 53)).
  { rewrite Hr. pose proof (Z.div_mod (Zpos M) (2 ^ (d - 53)) ltac:(lia)).
    pose proof (Z.mod_pos_bound (Zpos M) (2 ^ (d - 53)) Hp0). split; [split|split; [|lia]].
    - apply Z.div_le_lower_bound; lia.
    - apply Z.div_lt_upper_bound; lia.
    - rewrite Z.mul_comm. apply Z.mul_div_le. lia. }
  assert (Hq : q = shr_m r ∨ q = shr_m r + 1).
  { unfold q. destruct (loc_of_shr_record r) as [|[]]; simpl; auto. destruct (Z.even _); auto. }
  assert (Hq53 : q < 2 ^ 53 ∨ q = 2 ^ 53) by lia. destruct Hm as (Hm & Hle & Hge).
  clearbody q. destruct Hq53 as [Hq53| ->].
  - destruct q as [|q|q]; try lia. rewrite shr_fexp_small.
    2:{ cbn [Zdigits2]. rewrite (digits_unique q 53), fexp_normal by lia. lia. }
    cbn [shr_m]. rewrite (proj2 (Z.leb_le _ _)) by lia. eexists _, _. split; [done|].
    split; [lia|]. replace (E + (d - 53) - E) with (d - 53) by lia. nia.
  - destruct (shr_fexp_shift (2 ^ 53) (E + (d - 53)) 1) as (r' & -> & Hr'); [done|lia| |].
    { change (Zdigits2 (2 ^ 53)) with 54. rewrite fexp_normal; lia. }
    rewrite Hr'. change (2 ^ 53 / 2 ^ 1) with (Zpos (2 ^ 52)). rewrite (proj2 (Z.leb_le _ _)) by lia.
    eexists _, _. split; [done|]. split; [lia|].
    replace (E + (d - 53) + 1 - E) with (Z.succ (d - 53)) by lia. rewrite Z.pow_succ_r by lia. nia.
Qed.

Lemma iter_xO p k : Zpos (Pos.iter xO p k) = Zpos p * 2 ^ Zpos k.
Proof.
  rewrite Pos2Nat.inj_iter, <- (positive_nat_Z k). generalize (Pos.to_nat k) as i. intros i.
  induction i as [|i IH]; [cbn; lia|].
  simpl. rewrite Pos2Z.inj_xO, IH, Nat2Z.inj_succ, Z.pow_succ_r by lia. lia.
Qed.

(** An integer below [2 ^ 53] is represented as it is. *)
Lemma float_of_small n :
  1 ≤ n < 2 ^ 53 → ∃ m e, float_of_Z n = S754_finite false m e ∧ -52 ≤ e ≤ 0 ∧
    Zpos m = n * 2 ^ (- e) ∧ 2 ^ 52 ≤ Zpos m < 2 ^ 53.
Proof.
  intros Hn. destruct n as [|p|p]; try lia. pose proof (digits_bounds p) as [Hlo Hhi].
  set (d := Zpos (digits2_pos p)) in *.
  assert (Hd : d ≤ 53).
  { assert (d - 1 < 53); [|lia]. apply (Z.pow_lt_mono_r_iff 2); lia. }
  assert (Hp : ∃ m, shl_align p 0 (fexp 53 1024 (d + 0)) = (m, d - 53) ∧
    Zpos m = Zpos p * 2 ^ (53 - d)).
  { rewrite fexp_normal by lia. unfold shl_align.
    destruct (d + 0 - 53 - 0) as [|k|k] eqn:Hk; [|lia|].
    - exists p. replace (d - 53) with 0 by lia. replace (53 - d) with 0 by lia. by rewrite Z.mul_1_r.
    - eexists. split; [f_equal; lia|]. rewrite iter_xO. do 2 f_equal. lia. }
  destruct Hp as (m & Hs & Hm). unfold float_of_Z, binary_normalize, binary_round. fold d.
  rewrite Hs. cbv iota beta. exists m, (d - 53).
  assert (Hm53 : 2 ^ 52 ≤ Zpos m < 2 ^ 53).
  { rewrite Hm. replace (2 ^ 52) with (2 ^ (d - 1) * 2 ^ (53 - d))
      by (rewrite <- Z.pow_add_r by lia; f_equal; lia).
    replace (2 ^ 53) with (2 ^ d * 2 ^ (53 - d)) by (rewrite <- Z.pow_add_r by lia; f_equal; lia).
    assert (0 < 2 ^ (53 - d)) by (apply Z.pow_pos_nonneg; lia). nia. }
  split; [|split; [lia|split; [|done]]].
  - unfold binary_round_aux. rewrite shr_fexp_small.
    2:{ cbn [Zdigits2]. rewrite (digits_unique m 53), fexp_normal by lia. lia. }
    cbn [shr_m loc_of_shr_record round_nearest_even]. rewrite shr_fexp_small.
    2:{ cbn [Zdigits2]. rewrite (digits_unique m 53), fexp_normal by lia. lia. }
    cbn [shr_m]. by rewrite (proj2 (Z.leb_le _ _)) by lia.
  - rewrite Hm. do 2 f_equal. lia.
Qed.

(** A fraction below one: its mantissa is below [2 ^ 53] by four or more. *)
Definition fraction (q : float64) : Prop :=
  ∃ m, q = S754_finite false m (-53) ∧ 2 ^ 52 ≤ Zpos m ≤ 2 ^ 53 - 4.

(** The integer part of a positive number, in units of [2 ^ E]. *)
Lemma int_of_float_units m e E :
  E < 0 → E ≤ e → int_of_float (S754_finite false m e) =
    let z := Zpos m * 2 ^ (e - E) / 2 ^ (- E) in if bool_decide (is_int64 z) then Some z else None.
Proof.
  intros HE He. unfold int_of_float. cbv zeta.
  assert ((if 0 <=? e then Zpos m * 2 ^ e else Zpos m / 2 ^ (- e)) =
    Zpos m * 2 ^ (e - E) / 2 ^ (- E)) as ->; [|done].
  destruct (Z.leb_spec 0 e).
  - replace (e - E) with (e + - E) by lia. rewrite Z.pow_add_r, Z.mul_assoc by lia.
    rewrite Z.div_mul; [done|]. apply Z.pow_nonzero; lia.
  - replace (- E) with (- e + (e - E)) by lia. rewrite Z.pow_add_r by lia.
    rewrite Z.div_mul_cancel_r; [done|apply Z.pow_nonzero; lia..].
Qed.

(** [int(n*q)] for a fraction [q], in units of [2 ^ (e - 53)]. *)
Lemma int_of_product m e c :
  2 ^ 52 ≤ Zpos m < 2 ^ 53 → -52 ≤ e ≤ 0 → 2 ^ 52 ≤ Zpos c < 2 ^ 53 →
  ∃ v, int_of_float (float_mul (S754_finite false m e) (S754_finite false c (-53))) =
      Some (v / 2 ^ (53 - e)) ∧
    Zpos m * Zpos c - 2 ^ 53 ≤ v ≤ Zpos m * Zpos c + 2 ^ 53.
Proof.
  intros Hm He Hc. unfold float_mul, SFmul. cbn [xorb].
  assert (Hd : 104 < Zpos (digits2_pos (m * c)) ≤ 106).
  { pose proof (digits_bounds (m * c)) as [Hlo Hhi]. rewrite Pos2Z.inj_mul in Hlo, Hhi. split.
    - apply (Z.pow_lt_mono_r_iff 2); [lia..|]. nia.
    - assert (Zpos (digits2_pos (m * c)) - 1 < 106); [|lia].
      apply (Z.pow_lt_mono_r_iff 2); [lia..|]. nia. }
  destruct (round_product (m * c) (e + -53)) as (z & x & -> & Hx & Hz); [lia..|].
  rewrite (int_of_float_units z x (e + -53)) by lia. cbv zeta.
  replace (- (e + -53)) with (53 - e) by lia.
  assert (2 ^ (Zpos (digits2_pos (m * c)) - 53) ≤ 2 ^ 53) by (apply Z.pow_le_mono_r; lia).
  rewrite Pos2Z.inj_mul in Hz. exists (Zpos z * 2 ^ (x - (e + -53))). split; [|lia].
  assert (Hv : 0 ≤ Zpos z * 2 ^ (x - (e + -53)) < 2 ^ 107) by nia.
  generalize dependent (Zpos z * 2 ^ (x - (e + -53))). intros v _ Hv.
  assert (2 ^ 53 ≤ 2 ^ (53 - e)) by (apply Z.pow_le_mono_r; lia).
  rewrite bool_decide_eq_true_2; [done|]. split.
  - assert (0 ≤ v / 2 ^ (53 - e)) by (apply Z.div_pos; lia). lia.
  - apply Z.div_lt_upper_bound; nia.
Qed.

(** The indices of the three percentiles are in range and in order. *)
Lemma percentile_indices n :
  1 ≤ n < 2 ^ 53 →
  ∃ i j k, int_of_float (float_mul (float_of_Z n) (decimal 50 100)) = Some i ∧
    int_of_float (float_mul (float_of_Z n) (decimal 95 100)) = Some j ∧
    int_of_float (float_mul (float_of_Z n) (decimal 99 100)) = Some k ∧ 0 ≤ i ≤ j ∧ j ≤ k < n.
Proof.
  intros Hn. destruct (float_of_small n Hn) as (m & e & -> & He & Hm & Hm53).
  assert (decimal 50 100 = S754_finite false 4503599627370496 (-53)) as -> by (vm_compute; done).
  assert (decimal 95 100 = S754_finite false 8556839292003942 (-53)) as -> by (vm_compute; done).
  assert (decimal 99 100 = S754_finite false 8917127262193582 (-53)) as -> by (vm_compute; done).
  destruct (int_of_product m e 4503599627370496) as (u & -> & Hu); [lia..|].
  destruct (int_of_product m e 8556839292003942) as (v & -> & Hv); [lia..|].
  destruct (int_of_product m e 8917127262193582) as (w & -> & Hw); [lia..|].
  assert (Hp : 0 < 2 ^ (53 - e)) by (apply Z.pow_pos_nonneg; lia).
  assert (Hmn : n * 2 ^ (53 - e) = Zpos m * 2 ^ 53).
  { rewrite Hm, <- Z.mul_assoc, <- Z.pow_add_r by lia. do 2 f_equal. lia. }
  eexists _, _, _. split; [done|]. split; [done|]. split; [done|]. split; split.
  - apply Z.div_pos; lia.
  - apply Z.div_le_mono; lia.
  - apply Z.div_le_mono; lia.
  - apply Z.div_lt_upper_bound; [done|]. lia.
Qed.

(** ** The sorted times *)

(** [float_less] is the lexicographic order of the kind of a number, its
    exponent and its mantissa. *)
Definition sort_key (x : float64) : Z * Z * Z :=
  match x with
  | S754_nan => (0, 0, 0)
  | S754_infinity true => (1, 0, 0)
  | S754_finite true m e => (2, - e, Zneg m)
  | S754_zero _ => (3, 0, 0)
  | S754_finite false m e => (4, e, Zpos m)
  | S754_infinity false => (5, 0, 0)
  end.
Definition key_less (x y : Z * Z * Z) : Prop :=
  x.1.1 < y.1.1 ∨ x.1.1 = y.1.1 ∧ (x.1.2 < y.1.2 ∨ x.1.2 = y.1.2 ∧ x.2 < y.2).

Lemma float_less_key x y : float_less x y = true ↔ key_less (sort_key x) (sort_key y).
Proof.
  unfold float_less, SFltb, key_less.
  destruct x as [[]|[]| |[] m e], y as [[]|[]| |[] m' e']; cbn; try (split; [done|lia]); try lia;
    change (Pos.compare_cont Eq m m') with (Pos.compare m m');
    rewrite orb_false_r; destruct (Z.compare_spec e e'), (Pos.compare_spec m m'); cbn;
    (split; [lia || done|]; intros; (done || lia)).
Qed.

Lemma float_le_key x y : float_le x y ↔ ¬ key_less (sort_key y) (sort_key x).
Proof. unfold float_le. rewrite <- float_less_key. by destruct (float_less y x). Qed.

#[export] Instance float_le_total : Total float_le.
Proof. intros x y. rewrite !float_le_key. unfold key_less. lia. Qed.

#[export] Instance float_le_trans : Transitive float_le.
Proof. intros x y z. rewrite !float_le_key. unfold key_less. lia. Qed.

Lemma float_le_refl x : float_le x x.
Proof. rewrite float_le_key. unfold key_less. lia. Qed.

Lemma Float64s_sorted l i j x y :
  (i ≤ j)%nat → Float64s l !! i = Some x → Float64s l !! j = Some y → float_le x y.
Proof.
  intros Hij Hi Hj. destruct (decide (i = j)) as [->|Hne].
  { simplify_eq. apply float_le_refl. }
  pose proof (StronglySorted_merge_sort float_le l) as Hs. fold (Float64s l) in Hs.
  revert Hs i j Hij Hne Hi Hj. generalize (Float64s l). clear l. intros l Hs.
  induction Hs as [|a l Hs IH Ha]; intros i j Hij Hne Hi Hj; [done|].
  destruct i as [|i], j as [|j]; try lia; cbn in Hi, Hj.
  - injection Hi as ->. rewrite Forall_forall in Ha. apply Ha. by eapply list_elem_of_lookup_2.
  - apply (IH i j); [lia|lia|done..].
Qed.

Lemma Float64s_perm l : Float64s l ≡ₚ l.
Proof. apply merge_sort_Permutation. Qed.

(** ** The counts *)

Definition numbered (f : BenchFlags) (i : Z) (ts : list (Z * Turn)) : list Turn :=
  filter (λ t, is_put f t = true) (omap (λ p, if p.1 =? i then Some p.2 else None) ts).

Definition successes (ts : list (Z * Turn)) : list Turn := filter (λ t, turn_ok t = true) ts.*2.

Lemma stats_turns ts s :
  Z.of_nat (length ts) + totalOps s < 2 ^ 63 → Z.of_nat (length ts) + totalErr s < 2 ^ 63 →
  0 ≤ totalOps s → 0 ≤ totalErr s →
  let s' := foldl (λ s p, record_turn p.2 s) s ts in
  totalOps s' = totalOps s + Z.of_nat (length (successes ts)) ∧
  totalErr s' = totalErr s + Z.of_nat (length ts - length (successes ts)) ∧
  latencies s' = latencies s ++ map elapsed (successes ts).
Proof.
  revert s. induction ts as [|[i t] ts IH]; intros s H1 H2 H3 H4; cbn zeta.
  { cbn. rewrite app_nil_r. split; [lia|]. split; [lia|done]. }
  cbn [length] in *. cbn [foldl]. unfold successes. rewrite fmap_cons, filter_cons.
  pose proof (length_filter (λ t, turn_ok t = true) ts.*2) as Hle. rewrite length_fmap in Hle.
  fold (successes ts) in *. unfold record_turn at 2 4 6. cbn [snd].
  destruct (turn_ok t).
  - rewrite decide_True by done.
    destruct (IH (mkStats (totalOps s +! 1) (totalErr s) (latencies s ++ [elapsed t])))
      as (-> & -> & ->); cbn [totalOps totalErr latencies length];
      rewrite ?int64_add_small by (unfold is_int64; lia); try lia.
    rewrite <- app_assoc. split; [lia|]. split; [lia|done].
  - rewrite decide_False by done.
    destruct (IH (mkStats (totalOps s) (totalErr s +! 1) (latencies s)))
      as (-> & -> & ->); cbn [totalOps totalErr latencies length];
      rewrite ?int64_add_small by (unfold is_int64; lia); try lia. split; [lia|]. split; [lia|done].
Qed.

(** The number of the next request of a worker. *)
Definition next_number (b : Bench) (i : Z) : Z := default 1 (b.1 !! i).

Lemma bench_request_number f i t k :
  (bench_request f i t k).2 = if is_put f t then k +! 1 else k.
Proof. unfold bench_request. destruct (is_put f t); cbn; by destruct (bool_decide _). Qed.

Lemma numbered_cons f i j t ts :
  numbered f i ((j, t) :: ts) =
    if (j =? i) && is_put f t then t :: numbered f i ts else numbered f i ts.
Proof.
  unfold numbered. cbn [omap list_omap fst snd]. destruct (j =? i); [|done]. rewrite filter_cons.
  destruct (is_put f t); [by rewrite decide_True|by rewrite decide_False].
Qed.

Lemma numbered_length f i ts : (length (numbered f i ts) ≤ length ts)%nat.
Proof.
  induction ts as [|[j t] ts IH]; [done|]. rewrite numbered_cons.
  destruct (_ && _); cbn [length]; lia.
Qed.

Lemma bench_run_step f i t ts b reqs b' :
  bench_run f ((i, t) :: ts) b = Some (reqs, b') →
  ∃ k reqs', b.1 !! i = Some k ∧
    bench_run f ts (<[i := (bench_request f i t k).2]> b.1, record_turn t b.2) = Some (reqs', b') ∧
    reqs = (if tu_built t then [(i, (bench_request f i t k).1)] else []) ++ reqs'.
Proof.
  cbn [bench_run]. unfold bench_turn. destruct (b.1 !! i) as [k|]; [|done]. cbn [mbind option_bind].
  destruct (bench_request f i t k) as [req k'] eqn:Hq. cbn [mbind option_bind].
  destruct (bench_run f ts _) as [[reqs' b'']|] eqn:Hr; [|done]. cbn [mbind option_bind].
  intros [= <- <-]. exists k, reqs'. by rewrite Hq.
Qed.

Lemma bench_run_stats f ts b reqs b' :
  bench_run f ts b = Some (reqs, b') → b'.2 = foldl (λ s p, record_turn p.2 s) b.2 ts.
Proof.
  revert b reqs. induction ts as [|[i t] ts IH]; intros b reqs; [by intros [= <- <-]|].
  intros (k & reqs' & _ & Hr & _)%bench_run_step. by apply IH in Hr.
Qed.

(** The workers number their writes one after the other. *)
Lemma bench_run_numbers f ts b reqs b' :
  bench_run f ts b = Some (reqs, b') →
  (∀ i, 1 ≤ next_number b i ∧ next_number b i + Z.of_nat (length ts) < 2 ^ 63) →
  ∀ i, next_number b' i = next_number b i + Z.of_nat (length (numbered f i ts)) ∧
    (∀ req, (i, req) ∈ reqs → bq_Method req = "PUT" →
       ∃ t k, (i, t) ∈ ts ∧ is_put f t = true ∧ req = (bench_request f i t k).1 ∧
         next_number b i ≤ k < next_number b' i) ∧
    (Forall (λ p, tu_built p.2 = true) ts → ∀ k, next_number b i ≤ k < next_number b' i →
       ∃ t, (i, t) ∈ ts ∧ is_put f t = true ∧ (i, (bench_request f i t k).1) ∈ reqs).
Proof.
  revert b reqs. induction ts as [|[j t] ts IH]; intros b reqs Hrun Hn i.
  { injection Hrun as <- <-. split; [cbn; lia|]. split; [by intros req ?%elem_of_nil|lia]. }
  apply bench_run_step in Hrun as (k & reqs' & Hk & Hrun & ->).
  set (b1 := (<[j := _]> b.1, _)) in *.
  assert (Hnum : ∀ m, next_number b1 m = next_number b m
    + (if (j =? m) && is_put f t then 1 else 0)).
  { intros m. unfold next_number, b1. cbn [fst]. rewrite lookup_insert.
    destruct (Z.eqb_spec j m) as [<-|]; [rewrite decide_True by done|rewrite decide_False by done; cbn; lia].
    pose proof (Hn j) as Hj. unfold next_number in Hj. rewrite Hk in *. cbn [default id] in *.
    rewrite bench_request_number. destruct (is_put f t); cbn; [|lia].
    rewrite int64_add_small; [done|]. unfold is_int64. cbn [length] in Hj. lia. }
  cbn [length] in Hn. destruct (IH b1 reqs' Hrun) with (i := i) as (Hb & Hreq & Hall).
  { intros m. rewrite Hnum. specialize (Hn m). destruct (_ && _); lia. }
  rewrite Hnum in Hb, Hreq, Hall. rewrite numbered_cons. split; [|split].
  - rewrite Hb. destruct (_ && _); cbn [length]; lia.
  - intros req Hin Hput. apply elem_of_app in Hin as [Hin|Hin].
    + destruct (tu_built t); [|by apply elem_of_nil in Hin].
      apply list_elem_of_singleton in Hin. injection Hin as -> ->.
      assert (Hp : is_put f t = true).
      { unfold bench_request in Hput. destruct (is_put f t); [done|].
        cbn in Hput. by case_bool_decide. }
      exists t, k. split; [by left|]. split; [done|]. split; [done|].
      rewrite Hb, Z.eqb_refl, Hp. unfold next_number. rewrite Hk. cbn. lia.
    + destruct (Hreq req Hin Hput) as (t' & k' & ? & ? & ? & ?). exists t', k'.
      split; [by right|]. split; [done|]. split; [done|]. destruct (_ && _); lia.
  - intros [Hbuilt Hrest]%Forall_cons k' Hk'. cbn [snd] in Hbuilt.
    destruct (decide (next_number b i + (if (j =? i) && is_put f t then 1 else 0) ≤ k')) as [Hge|Hlt].
    + destruct (Hall Hrest k') as (t' & ? & ? & ?); [lia|]. exists t'.
      split; [by right|]. split; [done|]. apply elem_of_app. by right.
    + destruct (Z.eqb_spec j i) as [->|]; [|cbn in Hlt; lia].
      destruct (is_put f t) eqn:Hp; cbn in Hlt; [|lia]. exists t. split; [by left|].
      split; [done|]. apply elem_of_app. left. rewrite Hbuilt. apply list_elem_of_singleton.
      do 2 f_equal. f_equal. unfold next_number in *. rewrite Hk in *. cbn in *. lia.
Qed.

Lemma bench_start_number f i : next_number (bench_start f) i = 1.
Proof.
  unfold next_number, bench_start. cbn [fst].
  destruct (list_to_map _ !! i) as [k|] eqn:Hk; [|done].
  apply elem_of_list_to_map_2, list_elem_of_fmap in Hk as (j & [= _ ->] & _). done.
Qed.

(** ** The report *)

Lemma percentile_at ls q i :
  int_of_float (float_mul (float_of_Z (Z.of_nat (length ls))) q) = Some i →
  0 ≤ i < Z.of_nat (length ls) →
  ∃ x, percentile ls q = Some x ∧ ls !! Z.to_nat i = Some x.
Proof.
  intros Hi Hb. destruct (lookup_lt_is_Some_2 ls (Z.to_nat i)) as [x Hx]; [lia|]. exists x.
  split; [|done]. unfold percentile. rewrite Hi. cbn [mbind option_bind].
  by rewrite (proj2 (Z.leb_le 0 i)) by lia.
Qed.

(** C40. The report of the load generator.  After any run of the workers the
    counters are the numbers of the turns that succeeded and of the others,
    and the report is printed without an index out of range, although its
    indices are rounded products of floating point numbers: each percentile is
    one of the measured times, and they are in order. *)
Theorem bench_reports f ts reqs b d :
  bench_run f ts (bench_start f) = Some (reqs, b) → Z.of_nat (length ts) < 2 ^ 53 →
  let ok := successes ts in
  totalOps b.2 = Z.of_nat (length ok) ∧
  totalErr b.2 = Z.of_nat (length ts) - Z.of_nat (length ok) ∧
  ∃ rep, bench_report d b.2 = Some rep ∧
    match rep with
    | NoOperations errors => ok = [] ∧ errors = Z.of_nat (length ts)
    | Results ops errors _ p50 p95 p99 =>
        ops = totalOps b.2 ∧ errors = totalErr b.2 ∧
        (∀ p, p ∈ [p50; p95; p99] → p ∈ map elapsed ok) ∧ float_le p50 p95 ∧ float_le p95 p99
    end.
Proof.
  intros Hrun Hlen ok. apply bench_run_stats in Hrun.
  pose proof (length_filter (λ t, turn_ok t = true) ts.*2) as Hle. rewrite length_fmap in Hle.
  fold (successes ts) in Hle. fold ok in Hle.
  destruct (stats_turns ts (mkStats 0 0 [])) as (Ho & He & Hl); [cbn; lia..|].
  change (mkStats 0 0 []) with (bench_start f).2 in *. rewrite <- Hrun in *. clear Hrun.
  cbn [bench_start snd totalOps totalErr latencies app] in Ho, He, Hl. fold ok in Ho, He, Hl.
  split; [lia|]. split; [lia|]. unfold bench_report. rewrite Hl. rewrite length_map.
  case_bool_decide as H0.
  { eexists. split; [done|]. split; [by apply length_zero_iff_nil|lia]. }
  set (ls := Float64s (map elapsed ok)). pose proof (Float64s_perm (map elapsed ok)) as Hperm.
  fold ls in Hperm. pose proof (Permutation_length Hperm) as Hn. rewrite length_map in Hn.
  destruct (percentile_indices (Z.of_nat (length ls))) as (i & j & k & Hi & Hj & Hk & Hij & Hjk); [lia|].
  destruct (percentile_at ls _ i Hi) as (x & -> & Hx); [lia|].
  destruct (percentile_at ls _ j Hj) as (y & -> & Hy); [lia|].
  destruct (percentile_at ls _ k Hk) as (z & -> & Hz); [lia|].
  eexists. split; [done|]. cbv beta iota. split; [done|]. split; [done|]. split; [|split].
  - intros p Hp. rewrite <- Hperm. rewrite !elem_of_cons, elem_of_nil in Hp.
    destruct Hp as [->|[->|[->|[]]]]; by eapply list_elem_of_lookup_2.
  - apply (Float64s_sorted (map elapsed ok) (Z.to_nat i) (Z.to_nat j)); [lia|done..].
  - apply (Float64s_sorted (map elapsed ok) (Z.to_nat j) (Z.to_nat k)); [lia|done..].
Qed.

(** Two workers: two writes that succeed and a read that is refused. *)
Definition bench_flags : BenchFlags := mkBenchFlags "http://n1:8001" "tok" 2 5 "MIXED".
Definition some_turns : list (Z * Turn) :=
  [(1, mkTurn 7 true 42 true (Some 200) 0 3000000);
   (0, mkTurn 7 true 43 true (Some 200) 0 2000000);
   (0, mkTurn 8 false 0 true (Some 503) 3000000 4000000)].
Definition some_run : list (Z * BenchRequest) * Bench :=
  default ([], bench_start bench_flags) (bench_run bench_flags some_turns (bench_start bench_flags)).

Example bench_reports_witness :
  totalOps some_run.2.2 = 2 ∧ totalErr some_run.2.2 = 3 - 2 ∧
  ∃ rep, bench_report 5000000000 some_run.2.2 = Some rep ∧
    match rep with
    | NoOperations errors => successes some_turns = [] ∧ errors = 3
    | Results ops errors _ p50 p95 p99 =>
        ops = totalOps some_run.2.2 ∧ errors = totalErr some_run.2.2 ∧
        (∀ p, p ∈ [p50; p95; p99] → p ∈ map elapsed (successes some_turns)) ∧
        float_le p50 p95 ∧ float_le p95 p99
    end.
Proof.
  apply (bench_reports bench_flags some_turns some_run.1 some_run.2 5000000000).
  - vm_compute. reflexivity.
  - vm_compute. reflexivity.
Defined.

(** ** A second run *)

(** What reaches the server of a request. *)
Record arrives (req : BenchRequest) (rq : Request) : Prop := {
  ar_method : rq_Method rq = bq_Method req;
  ar_body : rq_Body rq = bq_Body req;
  ar_read : rq_BodyErr rq = None;
  ar_header k : k ∈ ["X-Client-ID"; "X-Request-ID"] →
    header_get (rq_Header rq) k = header_get (bq_Header req) k
}.

(** The draws are in their range. *)
Definition drawn (t : Turn) : Prop := 0 ≤ tu_val t < 10000.

Lemma val_size z : 0 ≤ z < 10000 →
  Z.of_nat (length (to_bytes ("payload_" +:+ FormatInt z))) ≤ MaxValueSize.
Proof.
  intros Hz. assert (H : forallb (λ n, Z.of_nat (length (to_bytes ("payload_" +:+
    FormatInt (Z.of_nat n)))) <=? MaxValueSize) (seq 0 (Z.to_nat 10000)) = true)
    by (vm_compute; reflexivity).
  rewrite forallb_forall in H. specialize (H (Z.to_nat z)). rewrite Z2Nat.id in H by lia.
  apply Z.leb_le, H, in_seq. lia.
Qed.

Lemma val_text s : the_value (to_bytes ("payload_" +:+ s)) = None.
Proof. done. Qed.

(** The command of the turn [t] of the worker [i], with the number [k]. *)
Lemma bench_put_command f i t k rq :
  is_put f t = true → drawn t → 0 < k < 2 ^ 63 → arrives (bench_request f i t k).1 rq →
  let cmd := write_of rq in
  cmd = mkCommand "PUT" (request_key rq) ("payload_" +:+ FormatInt (tu_val t)) (clientID i) k ∧
  ∀ w, handlePut rq (request_key rq) w =
    propose_write "PUT" (Op cmd) (Key cmd) (Val cmd) (ClientID cmd) (RequestID cmd) w.
Proof.
  intros Hp Ht Hk [Hm Hb Hr Hh]. cbv zeta.
  assert (Hreq : bq_Method (bench_request f i t k).1 = "PUT" ∧
    bq_Body (bench_request f i t k).1 = to_bytes ("payload_" +:+ FormatInt (tu_val t)) ∧
    header_get (bq_Header (bench_request f i t k).1) "X-Client-ID" = clientID i ∧
    header_get (bq_Header (bench_request f i t k).1) "X-Request-ID" = FormatInt k).
  { unfold bench_request. rewrite Hp. cbv zeta.
    destruct (bool_decide (b_token f = "")); cbn [fst bq_Method bq_Body bq_Header];
      rewrite ?(header_get_set_ne _ "Authorization") by done;
      rewrite header_get_set, header_get_set_ne, header_get_set by done; done. }
  destruct Hreq as (Hm' & Hb' & Hc' & Hi'). rewrite Hm' in Hm. rewrite Hb' in Hb.
  assert (Hx : extractClientMetadata rq (rq_Body rq) =
    (clientID i, k, "payload_" +:+ FormatInt (tu_val t))).
  { rewrite (extract_text rq (rq_Body rq) (clientID i) k).
    - rewrite Hb. unfold of_bytes, to_bytes. by rewrite String.string_of_list_byte_of_string.
    - split; [done|]. split; [done|]. rewrite !Hh by set_solver. done.
    - unfold unmarshal_KVPayload, unmarshal. by rewrite Hb, val_text. }
  unfold write_of. rewrite bool_decide_eq_true_2 by done. rewrite Hx. split; [done|].
  intros w. cbn [Op Key Val ClientID RequestID]. apply handlePut_proposes; [done| |done].
  rewrite Hb. by apply val_size.
Qed.

Lemma seen_by_commands cmds st c : seen_by st c → seen_by (sm_commands cmds st) c.
Proof.
  revert st. induction cmds as [|c' cmds IH]; intros st Hs; [done|]. cbn. by apply IH, seen_by_mono.
Qed.

Lemma commands_seen cmds st c : c ∈ cmds → seen_by (sm_commands cmds st) c.
Proof.
  revert st. induction cmds as [|c' cmds IH]; intros st Hin; [by apply elem_of_nil in Hin|]. cbn.
  apply elem_of_cons in Hin as [->|Hin]; [|by apply IH].
  apply seen_by_commands, seen_by_command.
Qed.

Lemma commands_noop cmds st :
  (∀ c, c ∈ cmds → seen_by st c ∧ has_request c = true) → sm_commands cmds st = st.
Proof.
  induction cmds as [|c cmds IH]; intros H; [done|]. cbn. destruct (H c) as [Hs Hr]; [by left|].
  rewrite seen_by_noop by done. apply IH. intros c' Hin. apply H. by right.
Qed.

(** The writes of a run, as they arrive at the server. *)
Definition writes_of (reqs : list (Z * BenchRequest)) : list (Z * BenchRequest) :=
  filter (λ p, bq_Method p.2 = "PUT") reqs.
Definition arrive (reqs : list (Z * BenchRequest)) (rqs : list Request) : Prop :=
  Forall2 (λ p rq, arrives p.2 rq) (writes_of reqs) rqs.

(** A run of the program: what its workers draw and are answered. *)
Record bench_of (f : BenchFlags) (ts : list (Z * Turn)) (reqs : list (Z * BenchRequest))
    (rqs : list Request) : Prop := {
  bo_run : ∃ b, bench_run f ts (bench_start f) = Some (reqs, b);
  bo_length : Z.of_nat (length ts) + 1 < 2 ^ 63;
  bo_drawn p : p ∈ ts → drawn p.2;
  bo_arrive : arrive reqs rqs
}.

(** Each write of a run, as a command: its worker and its number. *)
Lemma run_writes f ts reqs rqs b rq :
  bench_run f ts (bench_start f) = Some (reqs, b) → bench_of f ts reqs rqs → rq ∈ rqs →
  ∃ i k key val, write_of rq = mkCommand "PUT" key val (clientID i) k ∧
    1 ≤ k < next_number b i ∧ has_request (write_of rq) = true ∧
    ∀ w, handlePut rq (request_key rq) w = propose_write "PUT" "PUT" key val (clientID i) k w.
Proof.
  intros Hr [_ Hl Hd Ha] Hin. apply list_elem_of_lookup in Hin as [j Hj].
  destruct (Forall2_lookup_r _ _ _ _ _ Ha Hj) as ([i req] & Hreq & Har).
  apply list_elem_of_lookup_2, list_elem_of_filter in Hreq as [Hput Hreq].
  destruct (bench_run_numbers f ts _ reqs b Hr ltac:(intros; rewrite bench_start_number; lia) i)
    as (Hb & Hsome & _).
  destruct (Hsome req Hreq Hput) as (t & k & Ht & Hp & -> & Hk).
  rewrite bench_start_number in Hk, Hb. pose proof (numbered_length f i ts).
  destruct (bench_put_command f i t k rq) as [Hc Hw]; [done|by apply (Hd (i, t))|lia|done|].
  cbv zeta in Hw. rewrite Hc in Hw. exists i, k, (request_key rq), ("payload_" +:+ FormatInt (tu_val t)).
  split; [done|]. split; [done|]. split; [|exact Hw].
  rewrite Hc. unfold has_request. cbn [ClientID RequestID].
  rewrite bool_decide_eq_true_2 by done. apply Z.ltb_lt. lia.
Qed.

(** When the requests of a run could all be built, each number below the next
    one has been sent. *)
Lemma run_numbers f ts reqs rqs b i k :
  bench_run f ts (bench_start f) = Some (reqs, b) → bench_of f ts reqs rqs →
  Forall (λ p, tu_built p.2 = true) ts → 1 ≤ k < next_number b i →
  ∃ rq key val, rq ∈ rqs ∧ write_of rq = mkCommand "PUT" key val (clientID i) k.
Proof.
  intros Hr [_ Hl Hd Ha] Hbuilt Hk.
  destruct (bench_run_numbers f ts _ reqs b Hr ltac:(intros; rewrite bench_start_number; lia) i)
    as (Hb & _ & Hall).
  rewrite bench_start_number in Hb, Hall. pose proof (numbered_length f i ts).
  destruct (Hall Hbuilt k Hk) as (t & Ht & Hp & Hreq).
  assert (Hin : (i, (bench_request f i t k).1) ∈ writes_of reqs).
  { apply list_elem_of_filter. split; [|done]. unfold bench_request. rewrite Hp. cbn.
    by destruct (bool_decide _). }
  apply list_elem_of_lookup in Hin as [j Hj].
  destruct (Forall2_lookup_l _ _ _ _ _ Ha Hj) as (rq & Hrq & Har).
  destruct (bench_put_command f i t k rq) as [Hc _]; [done|by apply (Hd (i, t))|lia|done|].
  eexists rq, _, _. split; [by eapply list_elem_of_lookup_2|exact Hc].
Qed.


(** Two runs of two workers that draw the same key. *)
Definition server_request (f : BenchFlags) (req : BenchRequest) : Request :=
  let path := drop_chars (String.length (b_url f)) (bq_URL req) in
  mkRequest (bq_Method req) path path "" (bq_Header req) "10.0.0.9:40000" (bq_Body req) None.
Definition put_turn (val : Z) : Turn := mkTurn 7 true val true (Some 200) 0 2000000.
Definition first_turns : list (Z * Turn) := [(1, put_turn 41); (0, put_turn 42); (0, put_turn 43)].
Definition second_turns : list (Z * Turn) := [(0, put_turn 98); (1, put_turn 99)].
Definition sent_in (ts : list (Z * Turn)) : list (Z * BenchRequest) :=
  (default ([], bench_start bench_flags) (bench_run bench_flags ts (bench_start bench_flags))).1.
Definition arrived_in (ts : list (Z * Turn)) : list Request :=
  map (λ p, server_request bench_flags p.2) (writes_of (sent_in ts)).

Lemma server_request_arrives f l : Forall2 (λ p rq, arrives p.2 rq) l
  (map (λ p : Z * BenchRequest, server_request f p.2) l).
Proof. induction l as [|p l IH]; constructor; [by split|done]. Qed.

Lemma second_run_of ts :
  bool_decide (Forall (λ p, 0 ≤ tu_val p.2 ∧ tu_val p.2 < 10000) ts) = true →
  bool_decide (is_Some (bench_run bench_flags ts (bench_start bench_flags))) = true →
  Z.of_nat (length ts) < 2 ^ 62 → bench_of bench_flags ts (sent_in ts) (arrived_in ts).
Proof.
  intros Hd Hr Hl. apply bool_decide_eq_true in Hd, Hr. destruct Hr as [[reqs b] Hr].
  split; [|lia| |by apply server_request_arrives].
  - exists b. unfold sent_in. by rewrite Hr.
  - intros p Hp. rewrite Forall_forall in Hd. by apply Hd.
Qed.

